(* ===== verification/_CoqProject ===== *)
-Q . S2P
Prelude.v
Rocks.v
MemRocks.v
Memory.v
Files.v
Rdbc.v
Rdb.v
RdbSpec.v
FilterPolicy.v
Strconv.v
Store.v
StoreSpec.v
StoreOpen.v
IterSpec.v
CheckpointSpec.v
Scenario.v
IterScan.v
StoreTheorems.v
ReadOnly.v
RdbTheorems.v
OptionsTheorems.v
Float64.v
Populate.v
PopulateMain.v
Libraries.v
KeyFormat.v
HumanizeSpec.v
PopulateSpec.v
MemStores.v
OtherStores.v
PopulateOpen.v
Workers.v
PopulateRun.v
PopulateRunSpec.v
LibraryRun.v
LmdbBench.v
RocksCalls.v
StoreTests.v
RwBench.v
BadgerSpec.v
RwSpec.v
RwMainSpec.v
RandRead.v
RandConc.v
RandReport.v
RandMain.v
Bench.v
ParRead.v
ReadBack.v
BenchReads.v
BenchReadsSpec.v
BenchIter.v
BenchIterSpec.v
