(* ===== verification/Prelude.v ===== *)
(** * badger-bench: a verification of its RocksDB bindings and benchmark programs

    badger-bench compares badger with other key-value stores.  Its own code is a Go
    binding of RocksDB (src/rdb, with a C++ shim), a small store on top of it
    (src/store), and the programs that fill and read the stores (src/populate,
    src/rw-bench, src/randread, src/bench_test.go).  This library is a shallow
    embedding of that code, function by function under the names of the source, with
    theorems about it.  The files are listed in _CoqProject in dependency order.

    ** How the code is represented

    - [M S A] is the monad of state and faults of this file: [Ret a s] or [Fault f].
      A Go panic, a [log.Fatalf], a [y.Check] that fails, and the undefined behaviours
      of C++ the bindings can reach are the constructors of [fault]; [Undefined] is a call
      that RocksDB does not allow, the deletion of a database with a live iterator.
      [wp m s Q] says that [m] runs from [s] without a fault and ends in [Q]; so a theorem
      of this form also says that the code returns.  [wpf m s Q E] allows the faults [E]
      too.
    - [Memory.st] is the state of a process and its engine: the C heap (structs and
      [malloc]ed blocks, which can be freed and are then gone), the Go heap (never
      collected), the state of RocksDB, and the package variable [filterPolicies].
      Pointers are locations; a [[]byte] is a pointer, a length and a capacity.
      Machine integers are [Z] with [wrap_u] and [wrap_s] where the source converts or
      adds.
    - RocksDB is a parameter: the class [Rocks.RocksDB] has one field per call of the
      shim, and [Rocks.RocksLaws] the documented behaviour of these calls, on an
      abstract view ([RocksView]).  [MemRocks.v] is an instance that satisfies the laws,
      in which the witnesses are computed.  In the same way [Files.OS] has the two calls
      of package os, [Populate.Stores], [PopulateMain.Openers], [BenchReads.Readers] and
      [BenchIter.Cursors] those of badger, goleveldb, bolt and lmdb (with the laws of [Libraries.v],
      [BadgerSpec.v], [BenchReadsSpec.v] and [BenchIterSpec.v], and the instance of [MemStores.v]),
      [LmdbBench.LmdbSub] the subtransactions of lmdb, [StoreTests.TempDirs] the temporary
      directories of package ioutil, [RandRead.Hist] the histogram, and [Libc] and [Float64.Arch] what C and Go leave
      to the platform.
    - Loops whose bound is not in the source take fuel, and the theorems say how much
      is enough: an iteration or a scan needs one pass for each entry and one more, a
      batch of [n] entries run piece by piece [2 n + 4] pieces.  Concurrent programs
      are step relations (an [Inductive] on a state record); theorems on them speak of
      all executions ([rtc], [nsteps]).

    ** The parts

    - src/rdb.  [Memory.v] has the structs, [Rdbc.v] the shim rdbc.cc, [Rdb.v] the Go
      methods of db.go, options*.go, cache.go, iterator.go, slice.go, util.go,
      write_batch.go, snapshot.go and checkpoint.go, and [FilterPolicy.v] the callbacks
      of filter_policy.go.  [RdbSpec.v] gives each call as an equation for any engine,
      and [RdbTheorems.v] and [OptionsTheorems.v] what the calls do.
    - src/store/store.go.  [Store.v]; a store is opened in [StoreOpen.v] (to read and
      write) and [CheckpointSpec.v] (on what a directory holds); [StoreSpec.v] has the
      abstract store, a map with a read view and snapshots ([kv_step]), and the
      representation [store_open]; [IterSpec.v] and [IterScan.v] the iterators;
      [ReadOnly.v] the store of [NewReadOnlyStore].  [StoreTests.v] has store_test.go.
    - src/populate.  [Populate.v] has [fillEntry], [writeBatch] for the five
      stores and [humanize], [PopulateMain.v] the start and end of [main], [Workers.v] the
      32 goroutines with their counter and wait group, and [PopulateRun.v] the whole
      program on one memory and the rocks store, its batches interleaved call by call;
      [LibraryRun.v] runs it on one of the other stores.
      [KeyFormat.v], [HumanizeSpec.v], [PopulateSpec.v], [OtherStores.v], [PopulateOpen.v]
      and [PopulateRunSpec.v] have what they do; [Strconv.v] and [Float64.v] are the parts of
      fmt, strconv and IEEE 754 the programs use.  [LmdbBench.v] has
      lmdb_txn_bench_test.go.
    - src/rw-bench/bench.go.  [RwBench.v], with [RwSpec.v] for the rocks store and
      [RwMainSpec.v] for the whole program; [RocksCalls.v] has what the calls of rocks
      leave alone while badger is open beside it.
    - src/randread/main.go.  [RandRead.v] (files, blocks, the serial mode with the rates
      it prints), [RandConc.v] (the two concurrent modes), [RandReport.v] (the goroutine
      that reports, and its lines) and [RandMain.v] ([main]).
    - src/bench_test.go.  [Bench.v] has the benchmarks that read the rocks store,
      [ParRead.v] the goroutines in which the random reads run,
      [ReadBack.v] composes them with populate, and [BenchReads.v] and
      [BenchIter.v] have those of the other stores, with [BenchReadsSpec.v] and
      [BenchIterSpec.v].

    The interfaces between the parts: package rdb is used by store through the
    equations of [RdbSpec.v]; the programs use store through [StoreSpec.store_open] and
    the [wp_] lemmas on it; populate's run is joined to its control ([Workers.v]) by
    the projection [PopulateRunSpec.control_of], and to [writeBatch] by
    [PopulateRun.batch_steps_writeBatch].

    ** What is shown

    - The store refines a map with snapshots ([StoreTheorems.store_refines_map]), also
      when it is open for reading only and refuses its writes
      ([ReadOnly.read_only_store_refines]); each operation is described for every answer
      of the engine ([Store_Get_outcome], [store_writes_outcome],
      [constructors_outcome], [store_sizes_value]); checkpoints keep the old contents;
      scans forwards and backwards are complete and in order.  The tests and benchmarks
      of the store pass with any engine that follows its documentation, and leave their
      store open ([store_tests_pass]).
    - Ownership of C memory: which blocks a call leaves, and what a second call of a
      destructor does ([RdbTheorems.v]); the option setters against an abstract
      configuration ([OptionsTheorems.v]); filters written in Go are called back with
      the right bytes, and setting one deletes the policy set before, unless a table
      factory shares it ([user_filter_called_back]).
    - populate: whatever the interleaving, the run ends, without a fault, in a number of
      steps computed from the flags ([populate_run_ends]: at most 2005 for each step of
      the loops, as a batch of 1000 has 2004 pieces), and leaves exactly the updates
      it has counted in the directory ([populate_fills_store]), with a bounded C heap on
      the way ([populate_c_heap]).  What it wrote is what a later process reads
      ([ReadBack.populate_get_roundtrip]), and what the read benchmarks count
      ([populate_random_reads], to the closing of the store; [populate_iterates], to the
      closing that RocksDB does not allow).
    - The random reads in parallel: every execution ends, and counts what one goroutine
      counts that reads the same keys ([parallel_reads_sequential]).
    - The other stores: a batch of populate is applied whole or stops the program, and
      which of the two depends on the updates and, with lmdb, on the room left in its map
      ([writeBatch_library]); populate's goroutines fill them with exactly the updates
      counted, unless a batch does not fit in a transaction or in the map
      ([populate_fills_library]); lmdb's two ways of writing a batch agree
      ([lmdb_batches_agree]); the random
      reads of all five stores count the same, but for empty values
      ([random_reads_agree]), and so do the iterations ([iterations_agree]).
    - rw-bench prints the number of distinct keys with rocks, and then closes rocks while
      its iterator is live, from where nothing is promised; if it goes on, it prints the
      same number with badger ([rw_main_counts_agree]).  humanize rounds correctly; keys
      are ordered as their numbers.
    - randread: which directories can be read without stopping ([parallel_safe_iff]),
      the outcome of [main] for each mode, the rates of the serial mode
      ([Serial_counts]), what can stop the goroutines ([Conc2_safe]), their termination on
      files that fit the size kept, and that any part of the last three lines of Conc2 may
      be lost ([Conc2_summary_may_be_lost]).
    - Where the code does not do what it means to, a theorem says what it does:
      [setOpts_drops_bloom_filter], [Close_twice_faults], [DB_GetBytes_outcome],
      [user_filter_name_unterminated], [ConcAio_counts_nothing], the blocks that are
      left in [populate_c_heap], [prefix_scan_complete] and [checkpoint_preserves].

    ** Assumptions of the concurrent models

    A step of [PopulateRun.gstep] is one call a batch makes ([fillEntry], a [Put], the
    write of the batch): each touches memory of its own goroutine, the allocators and
    the engine, which are safe for concurrent use.  In [LibraryRun.lstep] a batch is one
    step, as it is one transaction.  A step of [ParRead.rstep] is a call of a reader; how
    many iterations [pb.Next] hands out at a time is chosen by the step, within what is
    left.  A step of randread's modes is an
    access to shared state or a system call.  Random numbers and times are chosen by
    the step, in the ranges their packages document.

    ** Not modelled

    - In rdbc.cc: [shared_ptr] in full.  The filter policy of a struct of table options is
      deleted with its last reference ([Rdbc.release_policy]), but one that a table factory
      shares lives on: when the engine deletes a factory, a cache or a policy of its own
      is not modelled.
    - Slices of slices with a first index other than 0, which the programs do not make;
      the check of cgo that refuses Go pointers to Go pointers; garbage collection.
    - Flags, profiles, the goroutine of populate that serves HTTP (and stops the program
      if it cannot), the ticker of populate that prints rates, and all printing
      but [humanize], [print], [hitCounter_Print], the rates of [Serial], the lines of
      [Conc2] and the numbers the theorems are about: they change no state.
    - The effect of concurrent [RecordValue] calls on the histogram of randread: the
      library does not say; the model has the calls.  The sign of a float64 zero.
    - Package testing: a benchmark is one of the runs for a value of [b.N], and timers
      are left out.  The benchmarks of src/extra (reads and writes of files), bench.go
      (it prints a name) and the cgo flags have no state of the program's own.

    ** What is left

    Every function of the program that changes state is modelled.  What could be added
    needs more of the libraries than the code relies on: laws for closing and opening
    badger, goleveldb, bolt and lmdb again, to compose [populate_fills_library] with
    their read benchmarks as [ReadBack.v] does for rocks; a fairness hypothesis on the
    scheduler for the concurrent modes of randread before the timer; and the references
    an engine holds to factories, caches and policies. *)

From stdpp Require Export base tactics option list list_numbers numbers gmap strings.
From stdpp Require Import relations.
From Stdlib Require Export Strings.Byte.
From Stdlib Require Export ZArith Lia.

#[global] Open Scope Z_scope.

(** ** Bytes *)

Abbreviation bytes := (list byte).

#[export] Instance byte_eq_decision : EqDecision byte := Byte.byte_eq_dec.

#[export] Program Instance byte_countable : Countable byte :=
  inj_countable Byte.to_N Byte.of_N _.
Next Obligation. exact Byte.of_to_N. Qed.

(** The bytes of a string literal of the source. *)
Definition bs (s : string) : bytes := String.list_byte_of_string s.

(** [blen b] is Go's [len(b)]: an [int]. *)
Definition blen {A} (l : list A) : Z := Z.of_nat (length l).

Lemma blen_nonneg {A} (l : list A) : 0 ≤ blen l.
Proof. unfold blen. lia. Qed.

Lemma blen_0 {A} (l : list A) : blen l = 0 → l = [].
Proof. unfold blen. destruct l; [done|simpl; lia]. Qed.

(** Conversions to an unsigned and a two's complement integer type of [w] bits. *)
Definition wrap_u (w : Z) (z : Z) : Z := z mod 2 ^ w.
Definition wrap_s (w : Z) (z : Z) : Z := (z + 2 ^ (w - 1)) mod 2 ^ w - 2 ^ (w - 1).

(** ** Faults and the outcome of a computation

    A Go run-time panic, a [log.Fatalf], and the undefined behaviours of C++ the
    bindings can reach all stop the program; each is a value, so that theorems can
    say which one happens. *)

Variant fault :=
| PanicNil                     (* Go: nil pointer dereference *)
| PanicIndex                   (* Go: index or slice bounds out of range *)
| PanicDivide                  (* Go: integer divide by zero *)
| PanicArg (who : string)      (* Go: a library call panics on its argument *)
| Fatal (who : string)         (* log.Fatalf, y.Check, y.AssertTrue *)
| SegFault                     (* C++: a null pointer is dereferenced *)
| BadFree                      (* free or delete of something else than a live block of its kind *)
| BadRead                      (* a read through a dangling or mistyped pointer *)
| Undefined (what : string)    (* a call whose documentation does not allow it in this state *)
| OutOfFuel.                   (* a loop of the model used up its fuel *)

#[export] Instance fault_eq_decision : EqDecision fault.
Proof. solve_decision. Defined.

Inductive outcome (S A : Type) : Type :=
| Ret (a : A) (s : S)
| Fault (f : fault).
Arguments Ret {S A} a s.
Arguments Fault {S A} f.

(** ** The state and fault monad *)

Definition M (S A : Type) : Type := S → outcome S A.

#[export] Instance M_ret S : MRet (M S) := λ A a s, Ret a s.
#[export] Instance M_bind S : MBind (M S) := λ A B f m s,
  match m s with
  | Ret a s' => f a s'
  | Fault e => Fault e
  end.

Definition raise {S A} (f : fault) : M S A := λ _, Fault f.
Definition getS {S} : M S S := λ s, Ret s s.
Definition gets {S A} (f : S → A) : M S A := λ s, Ret (f s) s.
Definition putS {S} (s' : S) : M S unit := λ _, Ret tt s'.
Definition modS {S} (f : S → S) : M S unit := λ s, Ret tt (f s).

(** [of_option f o] is [o]'s value, or the fault [f]. *)
Definition of_option {S A} (f : fault) (o : option A) : M S A :=
  match o with Some a => mret a | None => raise f end.

(** [for _, x := range l { f(x) }]. *)
Fixpoint for_each {S A} (f : A → M S unit) (l : list A) : M S unit :=
  match l with
  | [] => mret tt
  | x :: l => f x ;; for_each f l
  end.

(** [y.Check(err)] and [log.Fatal] on an error. *)
Definition check_error {S E} (who : string) (err : option E) : M S unit :=
  match err with Some _ => raise (Fatal who) | None => mret tt end.

(** ** Weakest preconditions *)

Definition wp {S A} (m : M S A) (s : S) (Q : A → S → Prop) : Prop :=
  match m s with
  | Ret a s' => Q a s'
  | Fault _ => False
  end.

Section wp_rules.
Context {S : Type}.

Lemma wp_ret {A} (a : A) s (Q : A → S → Prop) : Q a s → wp (mret a) s Q.
Proof. done. Qed.

Lemma wp_bind {A B} (f : A → M S B) (m : M S A) s (Q : B → S → Prop) :
  wp m s (λ a s', wp (f a) s' Q) → wp (m ≫= f) s Q.
Proof. unfold wp, mbind, M_bind. by destruct (m s). Qed.

Lemma wp_mono {A} (m : M S A) s (P Q : A → S → Prop) :
  wp m s P → (∀ a s', P a s' → Q a s') → wp m s Q.
Proof. unfold wp. destruct (m s); naive_solver. Qed.

(** A run that may also stop, with a fault that [E] allows. *)
Definition wpf {A} (m : M S A) (s : S) (Q : A → S → Prop) (E : fault → Prop) : Prop :=
  match m s with
  | Ret a s' => Q a s'
  | Fault e => E e
  end.

Lemma wpf_bind {A B} (f : A → M S B) (m : M S A) s (Q : B → S → Prop) E :
  wp m s (λ a s', wpf (f a) s' Q E) → wpf (m ≫= f) s Q E.
Proof. unfold wp, wpf, mbind, M_bind. by destruct (m s). Qed.

Lemma wpf_bind_stop {A B} (f : A → M S B) (m : M S A) s (Q : B → S → Prop) E :
  wpf m s (λ a s', wpf (f a) s' Q E) E → wpf (m ≫= f) s Q E.
Proof. unfold wpf, mbind, M_bind. by destruct (m s). Qed.

Lemma wpf_wp {A} (m : M S A) s (Q : A → S → Prop) E : wp m s Q → wpf m s Q E.
Proof. unfold wp, wpf. by destruct (m s). Qed.

Lemma wpf_mono {A} (m : M S A) s (P Q : A → S → Prop) E :
  wpf m s P E → (∀ a s', P a s' → Q a s') → wpf m s Q E.
Proof. unfold wpf. destruct (m s); naive_solver. Qed.

Lemma wpf_returns {A} (m : M S A) s (Q : A → S → Prop) E :
  wpf m s Q E → (∀ e, ¬ E e) → wp m s Q.
Proof. unfold wpf, wp. destruct (m s); naive_solver. Qed.

(** [y.Check] stops on an error. *)
Lemma wpf_check_error {X} who (err : option X) s (Q : unit → S → Prop) (E : fault → Prop) :
  (err = None → Q tt s) → (is_Some err → E (Fatal who)) → wpf (check_error who err) s Q E.
Proof. destruct err; unfold wpf; simpl; eauto. Qed.

(** A triple whose postcondition fixes the result is an equation. *)
Lemma wp_eq {A} (m : M S A) s a s' :
  wp m s (λ x t, x = a ∧ t = s') ↔ m s = Ret a s'.
Proof. unfold wp. destruct (m s); naive_solver. Qed.

Lemma wp_run {A} (m : M S A) s (Q : A → S → Prop) :
  wp m s Q ↔ ∃ a s', m s = Ret a s' ∧ Q a s'.
Proof. unfold wp. destruct (m s); naive_solver. Qed.

Lemma wp_gets {A} (f : S → A) s (Q : A → S → Prop) : Q (f s) s → wp (gets f) s Q.
Proof. done. Qed.

Lemma wp_modS (f : S → S) s (Q : unit → S → Prop) : Q tt (f s) → wp (modS f) s Q.
Proof. done. Qed.

Lemma wp_of_option {A} f (o : option A) a s (Q : A → S → Prop) :
  o = Some a → Q a s → wp (of_option f o) s Q.
Proof. by intros ->. Qed.

Lemma bind_ret {A B} (f : A → M S B) m s a s' :
  m s = Ret a s' → (m ≫= f) s = f a s'.
Proof. unfold mbind, M_bind. by intros ->. Qed.

Lemma bind_fault {A B} (f : A → M S B) m s e :
  m s = Fault e → (m ≫= f) s = Fault e.
Proof. unfold mbind, M_bind. by intros ->. Qed.

(** A computation that runs, and a fault in what follows. *)
Lemma fault_of_wp {A B} (m : M S A) (f : A → M S B) s (P : A → S → Prop) e :
  wp m s P → (∀ a s', P a s' → f a s' = Fault e) → (m ≫= f) s = Fault e.
Proof. unfold wp, mbind, M_bind. destruct (m s); naive_solver. Qed.

Lemma bind_ret_inv {A B} (f : A → M S B) m s b s' :
  (m ≫= f) s = Ret b s' → ∃ a s1, m s = Ret a s1 ∧ f a s1 = Ret b s'.
Proof. unfold mbind, M_bind. destruct (m s); naive_solver. Qed.
End wp_rules.

(** ** Sums *)

Definition sumZ (l : list Z) : Z := foldr Z.add 0 l.

Lemma sumZ_cons x l : sumZ (x :: l) = x + sumZ l.
Proof. done. Qed.

Lemma sumZ_app l k : sumZ (l ++ k) = sumZ l + sumZ k.
Proof. induction l as [|x l IH]; simpl; lia. Qed.

Lemma sumZ_insert l i x y : l !! i = Some x → sumZ (<[i := y]> l) = sumZ l - x + y.
Proof.
  revert i; induction l as [|z l IH]; intros [|i] Hl; simpl in *; simplify_eq; [lia|].
  rewrite (IH i) by done. lia.
Qed.

(** A sum changes by the difference when an element of its list does. *)
Lemma sum_fmap_insert {A} (f : A → Z) l i x y :
  l !! i = Some x → sumZ (f <$> <[i := y]> l) = sumZ (f <$> l) - f x + f y.
Proof.
  intros Hl. rewrite list_fmap_insert, (sumZ_insert _ _ (f x)); [done|].
  by rewrite list_lookup_fmap, Hl.
Qed.

Lemma sum_fmap_nonneg {A} (f : A → Z) l : Forall (λ x, 0 ≤ f x) l → 0 ≤ sumZ (f <$> l).
Proof. induction 1 as [|x l Hx _ IH]; [done|]. rewrite fmap_cons, sumZ_cons. lia. Qed.

Lemma sum_fmap_zero {A} (f : A → Z) l : Forall (λ x, f x = 0) l → sumZ (f <$> l) = 0.
Proof. induction 1 as [|x l Hx _ IH]; [done|]. rewrite fmap_cons, sumZ_cons. lia. Qed.

(** ** Lists *)

Lemma drop_cons_inv {A} (l : list A) i x k :
  drop i l = x :: k → l !! i = Some x ∧ drop (S i) l = k.
Proof.
  intros E. split.
  - pose proof (lookup_drop l i 0) as H. rewrite E, Nat.add_0_r in H. by rewrite <-H.
  - replace (S i) with (i + 1)%nat by lia. rewrite <-drop_drop, E. by destruct k.
Qed.

Lemma drop_nil_lookup {A} (l : list A) i : drop i l = [] → l !! i = None.
Proof.
  intros E. apply lookup_ge_None. apply (f_equal length) in E. rewrite length_drop in E.
  simpl in E. lia.
Qed.

(** The lists of a list of things: changing one thing keeps them apart when its list
    takes elements from its old list only, or new ones. *)
Lemma bind_split {A B} (L : A → list B) xs i x :
  xs !! i = Some x → xs ≫= L = (take i xs ≫= L) ++ L x ++ (drop (S i) xs ≫= L).
Proof. intros Hx. rewrite <-(take_drop_middle xs i x Hx) at 1. by rewrite bind_app. Qed.

Lemma bind_split_insert {A B} (L : A → list B) xs i x y :
  xs !! i = Some x → <[i := y]> xs ≫= L = (take i xs ≫= L) ++ L y ++ (drop (S i) xs ≫= L).
Proof.
  intros Hx. rewrite insert_take_drop by (by eapply lookup_lt_Some). by rewrite bind_app.
Qed.

Lemma size_delete_S `{Countable K} {A} (m : gmap K A) k x :
  m !! k = Some x → S (size (delete k m)) = size m.
Proof.
  intros Hk. rewrite map_size_delete, Hk.
  destruct (decide (size m = 0%nat)) as [E%map_size_empty_inv|]; [|lia].
  by rewrite E, lookup_empty in Hk.
Qed.

Lemma length_bind_insert {A B} (g : A → list B) l i x y :
  l !! i = Some x →
  (length (<[i := y]> l ≫= g) + length (g x) = length (l ≫= g) + length (g y))%nat.
Proof.
  intros Hx. rewrite (bind_split_insert g l i x y Hx), (bind_split g l i x Hx), !length_app. lia.
Qed.

Lemma NoDup_bind_insert {A B} (L : A → list B) xs i x y :
  NoDup (xs ≫= L) → xs !! i = Some x → NoDup (L y) →
  (∀ b, b ∈ L y → b ∈ L x ∨ b ∉ xs ≫= L) → NoDup (<[i := y]> xs ≫= L).
Proof.
  intros Hnd Hx Hy Hsub. rewrite (bind_split_insert L xs i x y Hx).
  rewrite (bind_split L xs i x Hx) in Hnd, Hsub.
  apply NoDup_app in Hnd as (H1 & H2 & H3). apply NoDup_app in H3 as (H3 & H4 & H5).
  apply NoDup_app. split_and!; [done| |apply NoDup_app; split_and!; [done| |done]].
  - intros b Hb [Hy'|Hr]%elem_of_app; [|apply (H2 b Hb), elem_of_app; by right].
    destruct (Hsub b Hy') as [Hin|Hni]; [apply (H2 b Hb), elem_of_app; by left|].
    apply Hni, elem_of_app. by left.
  - intros b Hb Hr. destruct (Hsub b Hb) as [Hin|Hni]; [by eapply H4|].
    apply Hni, elem_of_app. right. apply elem_of_app. by right.
Qed.

Lemma NoDup_bind_apart {A B} (L : A → list B) xs i j x y b :
  NoDup (xs ≫= L) → xs !! i = Some x → xs !! j = Some y → i ≠ j → b ∈ L x → b ∉ L y.
Proof.
  intros Hnd Hx Hy Hij Hb Hb'. rewrite (bind_split L xs i x Hx) in Hnd.
  apply NoDup_app in Hnd as (_ & H2 & H3). apply NoDup_app in H3 as (_ & H4 & _).
  destruct (decide (j < i)%nat) as [Hlt|Hge].
  - apply (H2 b); [|apply elem_of_app; by left]. apply list_elem_of_bind. exists y. split; [done|].
    apply list_elem_of_lookup. exists j. by rewrite lookup_take_lt.
  - apply (H4 b Hb). apply list_elem_of_bind. exists y. split; [done|].
    apply list_elem_of_lookup. exists (j - S i)%nat. rewrite lookup_drop.
    by replace (S i + (j - S i))%nat with j by lia.
Qed.

(** ** Sets of byte strings *)

Lemma size_list_to_set_le (l : list bytes) :
  (size (list_to_set l : gset bytes) ≤ length l)%nat.
Proof.
  induction l as [|x l IH]; [done|]. cbn [list_to_set length].
  rewrite size_union_alt, size_singleton.
  assert (size (list_to_set l ∖ {[x]} : gset bytes) ≤ size (list_to_set l : gset bytes))%nat; [|lia].
  apply subseteq_size. set_solver.
Qed.

Create HintDb wp.
#[export] Hint Resolve wp_ret wp_gets wp_modS : wp.

(** ** Executions *)

(** A run that can always go on, and not for longer than [bound] steps, reaches its
    end. *)
Lemma run_to_end {A} (R : relation A) (ended : A → Prop) `{∀ x, Decision (ended x)} bound x :
  (∀ k y, nsteps R k x y → Z.of_nat k ≤ bound ∧ (¬ ended y → ∃ z, R y z)) →
  ∃ y, rtc R x y ∧ ended y.
Proof.
  intros Hrun. assert (∀ m k y, nsteps R k x y → Z.of_nat k + Z.of_nat m = bound + 1 →
    ∃ z, rtc R x z ∧ ended z) as Hgo.
  { induction m as [|m IH]; intros k y Hk Hm; destruct (Hrun k y Hk) as [Hle Hstep]; [lia|].
    destruct (decide (ended y)) as [He|He].
    - exists y. split; [|done]. by apply rtc_nsteps_2 in Hk.
    - destruct (Hstep He) as [z Hz]. eapply (IH (S k) z); [|lia]. by eapply nsteps_r. }
  destruct (Hrun 0%nat x) as [H0 _]; [constructor|].
  apply (Hgo (Z.to_nat (bound + 1)) 0%nat x); [constructor|lia].
Qed.
