(* ===== verification/Rocks.v ===== *)
(** * The RocksDB library as a parameter

    RocksDB itself is not under [src/]: the C++ shim [rdb/rdbc.cc] calls it.  This
    file gives its C++ interface, restricted to the calls of the shim, as two type
    classes, and the documented behaviour the bindings rely on as a third one.

    - [RocksTypes]: the opaque C++ types ([Status], [WriteBatch], [Cache], the
      table factory, the Bloom filter) and [World], the state of the engine (open
      databases, files, snapshots, iterators).
    - the option structs of the library, with the fields the shim assigns;
    - [RocksDB]: one field per method or constructor the shim calls.  A C++
      pointer returned by the library is an opaque [handle].
    - [RocksLaws]: what the RocksDB documentation promises, stated on an abstract
      view of the world: the contents of an open database, of a snapshot, and the
      entries an iterator has still to visit.

    [MemRocks.v] gives an in-memory engine that satisfies the laws. *)

From S2P Require Import Prelude.
From Stdlib Require Import Sorting.Sorted.

(** An opaque C++ pointer owned by the engine ([DB*], [Snapshot*], ...). *)
Abbreviation handle := positive.

(** A location of one of the program's two heaps (see [Memory.v]). *)
Abbreviation loc := positive.

Class RocksTypes := {
  World : Type;
  Status : Type;
  WriteBatchRep : Type;
  CacheRep : Type;
  TableFactory : Type;
  BloomPolicy : Type;
}.

Section options.
Context `{RocksTypes}.

(** [rocksdb::BlockBasedTableOptions], the fields [rdbc.cc] assigns. *)
Record BlockBasedTableOptionsRep := {
  block_size : Z;
  filter_policy : option loc;               (* shared_ptr to an rdb_filterpolicy_t *)
  no_block_cache : bool;
  block_cache : option CacheRep;
  block_cache_compressed : option CacheRep;
  whole_key_filtering : bool;
}.

(** [rocksdb::Options]. *)
Record OptionsRep := {
  create_if_missing : bool;
  table_factory : TableFactory;
}.

(** [rocksdb::ReadOptions]. *)
Record ReadOptionsRep := {
  fill_cache : bool;
  ro_snapshot : option handle;
}.

(** [rocksdb::WriteOptions]. *)
Record WriteOptionsRep := { wo_sync : bool }.
End options.

(** The updates a write batch holds, as the documentation describes them. *)
Variant update :=
| UPut (k v : bytes)
| UDelete (k : bytes).

Class RocksDB `{RocksTypes} := {
  (* rocksdb::Status *)
  status_ok : Status → bool;
  status_IsNotFound : Status → bool;
  status_ToString : Status → bytes;
  (* default constructors of the option structs *)
  new_Options : OptionsRep;
  new_BlockBasedTableOptions : BlockBasedTableOptionsRep;
  (* documented: no filter policy *)
  new_BlockBasedTableOptions_filter : filter_policy new_BlockBasedTableOptions = None;
  new_ReadOptions : ReadOptionsRep;
  new_WriteOptions : WriteOptionsRep;
  (* NewBlockBasedTableFactory takes a const reference: a function of its value *)
  NewBlockBasedTableFactory : BlockBasedTableOptionsRep → TableFactory;
  NewBloomFilterPolicy : Z → bool → BloomPolicy;
  rocks_Bloom_CreateFilter : BloomPolicy → list bytes → bytes → bytes;
  rocks_Bloom_KeyMayMatch : BloomPolicy → bytes → bytes → bool;
  rocks_Bloom_Name : BloomPolicy → bytes;
  NewLRUCacheRep : Z → World → CacheRep * World;
  rocks_Cache_SetCapacity : CacheRep → Z → World → World;
  (* rocksdb::DB *)
  rocks_DB_Open : OptionsRep → bytes → World → Status * handle * World;
  rocks_DB_OpenForReadOnly : OptionsRep → bytes → bool → World → Status * handle * World;
  (* [None]: the call is not allowed, as an iterator of the database is live *)
  rocks_DB_destroy : handle → World → option World;
  rocks_DB_Get : handle → ReadOptionsRep → bytes → World → Status * bytes * World;
  rocks_DB_Put : handle → WriteOptionsRep → bytes → bytes → World → Status * World;
  rocks_DB_Delete : handle → WriteOptionsRep → bytes → World → Status * World;
  rocks_DB_Write : handle → WriteOptionsRep → WriteBatchRep → World → Status * World;
  rocks_DB_GetProperty : handle → bytes → World → option bytes;
  rocks_DB_NewIterator : handle → ReadOptionsRep → World → handle * World;
  rocks_DB_GetSnapshot : handle → World → handle * World;
  rocks_DB_ReleaseSnapshot : handle → handle → World → World;
  (* rocksdb::WriteBatch *)
  wb_empty : WriteBatchRep;
  wb_from : bytes → WriteBatchRep;
  wb_Put : WriteBatchRep → bytes → bytes → WriteBatchRep;
  wb_Delete : WriteBatchRep → bytes → WriteBatchRep;
  wb_Clear : WriteBatchRep → WriteBatchRep;
  wb_Count : WriteBatchRep → Z;
  (* rocksdb::Iterator *)
  rocks_Iterator_Valid : handle → World → bool;
  rocks_Iterator_SeekToFirst : handle → World → World;
  rocks_Iterator_SeekToLast : handle → World → World;
  rocks_Iterator_Seek : handle → bytes → World → World;
  rocks_Iterator_SeekForPrev : handle → bytes → World → World;
  rocks_Iterator_Next : handle → World → World;
  rocks_Iterator_Prev : handle → World → World;
  rocks_Iterator_key : handle → World → bytes;
  rocks_Iterator_value : handle → World → bytes;
  rocks_Iterator_status : handle → World → Status;
  rocks_Iterator_destroy : handle → World → World;
  (* rocksdb::Checkpoint *)
  rocks_Checkpoint_Create : handle → World → Status * handle * World;
  rocks_Checkpoint_CreateCheckpoint : handle → bytes → World → Status * World;
  rocks_Checkpoint_destroy : handle → World → World;
}.

(** The calls that change the state of the engine. *)
Inductive rocks_call `{RocksDB} (P : bytes → Prop) (w : World) : World → Prop :=
| call_cache n : rocks_call P w (NewLRUCacheRep n w).2
| call_set_capacity c n : rocks_call P w (rocks_Cache_SetCapacity c n w)
| call_open o d : P d → rocks_call P w (rocks_DB_Open o d w).2
| call_open_read_only o d log : P d → rocks_call P w (rocks_DB_OpenForReadOnly o d log w).2
| call_close h w' : rocks_DB_destroy h w = Some w' → rocks_call P w w'
| call_get h ro k : rocks_call P w (rocks_DB_Get h ro k w).2
| call_put h wo k v : rocks_call P w (rocks_DB_Put h wo k v w).2
| call_delete h wo k : rocks_call P w (rocks_DB_Delete h wo k w).2
| call_write h wo b : rocks_call P w (rocks_DB_Write h wo b w).2
| call_new_iterator h ro : rocks_call P w (rocks_DB_NewIterator h ro w).2
| call_snapshot h : rocks_call P w (rocks_DB_GetSnapshot h w).2
| call_release h sn : rocks_call P w (rocks_DB_ReleaseSnapshot h sn w)
| call_seek_first it : rocks_call P w (rocks_Iterator_SeekToFirst it w)
| call_seek_last it : rocks_call P w (rocks_Iterator_SeekToLast it w)
| call_seek it k : rocks_call P w (rocks_Iterator_Seek it k w)
| call_seek_for_prev it k : rocks_call P w (rocks_Iterator_SeekForPrev it k w)
| call_next it : rocks_call P w (rocks_Iterator_Next it w)
| call_prev it : rocks_call P w (rocks_Iterator_Prev it w)
| call_iterator_destroy it : rocks_call P w (rocks_Iterator_destroy it w)
| call_checkpoint h : rocks_call P w (rocks_Checkpoint_Create h w).2
| call_create_checkpoint c d :
    P d → rocks_call P w (rocks_Checkpoint_CreateCheckpoint c d w).2
| call_checkpoint_destroy c : rocks_call P w (rocks_Checkpoint_destroy c w).
Create HintDb calls.
#[export] Hint Constructors rocks_call : calls.

(** ** Sequences of updates, and the order of keys *)

Definition apply_update (m : gmap bytes bytes) (u : update) : gmap bytes bytes :=
  match u with
  | UPut k v => <[k := v]> m
  | UDelete k => delete k m
  end.

Definition apply_updates (us : list update) (m : gmap bytes bytes) : gmap bytes bytes :=
  foldl apply_update m us.

Lemma apply_updates_app us vs m :
  apply_updates (us ++ vs) m = apply_updates vs (apply_updates us m).
Proof. apply foldl_app. Qed.

(** A sequence of puts: the keys it defines, and the value of each. *)
Section puts.
Context {A : Type} (k v : A → bytes).

Lemma puts_dom l m :
  dom (apply_updates ((λ x, UPut (k x) (v x)) <$> l) m) = (list_to_set (k <$> l) ∪ dom m : gset bytes).
Proof.
  revert m. induction l as [|x l IH]; intros m; [simpl; set_solver|].
  rewrite fmap_cons. change (apply_updates (?u :: ?us) m) with (apply_updates us (apply_update m u)).
  rewrite IH. cbn [apply_update]. rewrite dom_insert_L, fmap_cons. cbn [list_to_set]. set_solver.
Qed.

Lemma puts_last l1 x l2 m :
  Forall (λ y, k y ≠ k x) l2 →
  apply_updates ((λ x, UPut (k x) (v x)) <$> l1 ++ x :: l2) m !! k x = Some (v x).
Proof.
  intros Hl2. rewrite fmap_app, apply_updates_app, fmap_cons.
  generalize (apply_updates ((λ x, UPut (k x) (v x)) <$> l1) m). intros m1.
  change (apply_updates (?u :: ?us) m1) with (apply_updates us (apply_update m1 u)). cbn [apply_update].
  induction l2 as [|y l2 IH] using rev_ind; [apply lookup_insert_eq|].
  apply Forall_app in Hl2 as [Hl2 Hy]. rewrite Forall_singleton in Hy.
  rewrite fmap_app, apply_updates_app. cbn. rewrite lookup_insert_ne by done. by apply IH.
Qed.

Lemma puts_lookup l m key val :
  apply_updates ((λ x, UPut (k x) (v x)) <$> l) m !! key = Some val →
  (∃ x, x ∈ l ∧ k x = key ∧ v x = val) ∨ m !! key = Some val.
Proof.
  revert m. induction l as [|x l IH]; intros m Hl; [by right|].
  destruct (IH _ Hl) as [(y & Hy & ? & ?)|Hm]; [left; exists y; split; [by right|done]|].
  cbn in Hm. apply lookup_insert_Some in Hm as [[<- <-]|[_ ?]]; [|by right].
  left. exists x. split; [left|done].
Qed.
End puts.

(** The bytewise order of keys: RocksDB's default comparator. *)
Fixpoint bytes_ltb (a b : bytes) : bool :=
  match a, b with
  | [], [] => false
  | [], _ :: _ => true
  | _ :: _, [] => false
  | x :: a, y :: b =>
      match N.compare (Byte.to_N x) (Byte.to_N y) with
      | Lt => true
      | Eq => bytes_ltb a b
      | Gt => false
      end
  end.

Definition bytes_lt (a b : bytes) : Prop := bytes_ltb a b = true.

(** The entries of a database in iteration order. *)
Definition is_scan (m : gmap bytes bytes) (l : list (bytes * bytes)) : Prop :=
  l ≡ₚ map_to_list m ∧ StronglySorted bytes_lt l.*1.

(** ** Documented behaviour

    [RocksView] names the abstract view of a world the laws speak of. *)

(** A directory holds no database, a closed one, or one some handle has open. *)
Variant disk :=
| Absent
| Closed (m : gmap bytes bytes)
| InUse.

Class RocksView `{RocksDB} := {
  (* no I/O fault: a file system error makes a call return another status, and the
     theorems on the bindings that do not use the laws cover that case as well *)
  faultless : World → Prop;
  (* the contents of an open database, and whether it was opened for writing *)
  contents : World → handle → option (gmap bytes bytes);
  writable : World → handle → bool;
  (* the contents of a live snapshot of a database *)
  snapshot_of : World → handle → handle → option (gmap bytes bytes);
  (* the database a checkpoint object was created for *)
  checkpoint_db : World → handle → option handle;
  on_disk : World → bytes → disk;
  (* the database was opened for writing in this directory, and no iterator, snapshot or
     checkpoint object of it is live: it may be closed *)
  closable : World → handle → bytes → Prop;
  (* no iterator, snapshot or checkpoint object of the database is live *)
  quiet : World → handle → Prop;
  (* a live iterator, and its database *)
  iterates : World → handle → handle → Prop;
  (* what an iterator iterates over, and the entries from its position on and before *)
  iter_view : World → handle → option (gmap bytes bytes);
  remaining : World → handle → option (list (bytes * bytes));
  passed : World → handle → option (list (bytes * bytes));
  wb_updates : WriteBatchRep → list update;
}.

Section views.
Context `{RocksView}.

(** The view a read goes to: the snapshot of its options, or the current state. *)
Definition read_view (w : World) (h : handle) (ro : ReadOptionsRep) :
    option (gmap bytes bytes) :=
  match ro_snapshot ro with
  | None => contents w h
  | Some sn => snapshot_of w h sn
  end.

(** What a call leaves alone, other than the contents of the databases in [hs]. *)
Record stable (hs : list handle) (w w' : World) : Prop := {
  stable_faultless : faultless w → faultless w';
  stable_contents h : h ∉ hs → contents w' h = contents w h;
  stable_writable h : is_Some (contents w h) → writable w' h = writable w h;
  stable_snapshot h sn m : snapshot_of w h sn = Some m → snapshot_of w' h sn = Some m;
  stable_checkpoint c h : checkpoint_db w c = Some h → checkpoint_db w' c = Some h;
}.

(** The effect of a successful update of the database [h], of contents [m]. *)
Definition wrote (h : handle) (m : gmap bytes bytes) (us : list update)
    (w : World) (r : Status * World) : Prop :=
  status_ok r.1 = true ∧ stable [h] w r.2 ∧
  contents r.2 h = Some (apply_updates us m) ∧
  (∀ d, on_disk r.2 d = on_disk w d) ∧
  (∀ d, closable w h d → closable r.2 h d).

(** A refused update: an error, and no change. *)
Definition refused (w : World) (r : Status * World) : Prop :=
  status_ok r.1 = false ∧ stable [] w r.2.

(** A move of an iterator touches no database. *)
Definition moved (w w' : World) (it : handle) : Prop :=
  stable [] w w' ∧ iter_view w' it = iter_view w it ∧ ∀ h, iterates w it h → iterates w' it h.

(** The iterator [it] stands at the last entry of [before], with [after] to follow;
    when there is none, it is not valid. *)
Definition at_last (w : World) (it : handle) (before after : list (bytes * bytes)) : Prop :=
  (before = [] → remaining w it = Some []) ∧
  ∀ p e, before = p ++ [e] → remaining w it = Some (e :: after) ∧ passed w it = Some p.
End views.

Class RocksLaws `{RocksView} : Prop := {
  law_new_ReadOptions : ro_snapshot new_ReadOptions = None;

  law_get w h ro k m :
    faultless w → is_Some (contents w h) → read_view w h ro = Some m →
    ∃ s v w', rocks_DB_Get h ro k w = (s, v, w') ∧ stable [] w w' ∧
      (∀ d, on_disk w' d = on_disk w d) ∧ (∀ h', quiet w h' → quiet w' h') ∧
      match m !! k with
      | Some v' => status_ok s = true ∧ v = v'
      | None => status_ok s = false ∧ status_IsNotFound s = true
      end;

  law_write w h wo b m :
    faultless w → contents w h = Some m → writable w h = true →
    wrote h m (wb_updates b) w (rocks_DB_Write h wo b w);
  law_put w h wo k v m :
    faultless w → contents w h = Some m → writable w h = true →
    wrote h m [UPut k v] w (rocks_DB_Put h wo k v w);
  law_delete w h wo k m :
    faultless w → contents w h = Some m → writable w h = true →
    wrote h m [UDelete k] w (rocks_DB_Delete h wo k w);
  law_read_only w h wo m :
    faultless w → contents w h = Some m → writable w h = false →
    (∀ b, refused w (rocks_DB_Write h wo b w)) ∧
    (∀ k v, refused w (rocks_DB_Put h wo k v w)) ∧
    (∀ k, refused w (rocks_DB_Delete h wo k w));

  law_wb_empty : wb_updates wb_empty = [];
  law_wb_put b k v : wb_updates (wb_Put b k v) = wb_updates b ++ [UPut k v];
  law_wb_delete b k : wb_updates (wb_Delete b k) = wb_updates b ++ [UDelete k];
  law_wb_clear b : wb_updates (wb_Clear b) = [];
  law_wb_count b : blen (wb_updates b) < 2 ^ 31 → wb_Count b = blen (wb_updates b);

  law_snapshot w h m :
    faultless w → contents w h = Some m →
    ∃ sn w', rocks_DB_GetSnapshot h w = (sn, w') ∧ stable [] w w' ∧
      snapshot_of w h sn = None ∧ snapshot_of w' h sn = Some m ∧
      (∀ d, on_disk w' d = on_disk w d);

  law_open w o d m :
    faultless w →
    on_disk w d = Closed m ∨ (on_disk w d = Absent ∧ create_if_missing o = true ∧ m = ∅) →
    ∃ s h w', rocks_DB_Open o d w = (s, h, w') ∧ status_ok s = true ∧ stable [h] w w' ∧
      contents w h = None ∧ contents w' h = Some m ∧ writable w' h = true ∧
      on_disk w' d = InUse ∧ (∀ d', d' ≠ d → on_disk w' d' = on_disk w d') ∧
      closable w' h d;
  law_open_read_only w o d log m :
    faultless w → on_disk w d = Closed m →
    ∃ s h w', rocks_DB_OpenForReadOnly o d log w = (s, h, w') ∧ status_ok s = true ∧
      stable [h] w w' ∧ contents w h = None ∧ contents w' h = Some m ∧
      writable w' h = false ∧ quiet w' h;
  law_close w h d m :
    faultless w → contents w h = Some m → closable w h d →
    ∃ w', rocks_DB_destroy h w = Some w' ∧
      faultless w' ∧ on_disk w' d = Closed m ∧
      (∀ d', d' ≠ d → on_disk w' d' = on_disk w d') ∧
      (∀ h', h' ≠ h → contents w' h' = contents w h');
  (* also one that was opened for reading *)
  law_close_quiet w h m :
    faultless w → contents w h = Some m → quiet w h → is_Some (rocks_DB_destroy h w);
  (* the iterators of a database have to be deleted before it *)
  law_close_live w h it : iterates w it h → rocks_DB_destroy h w = None;

  law_checkpoint w h m :
    faultless w → contents w h = Some m →
    ∃ s c w', rocks_Checkpoint_Create h w = (s, c, w') ∧ status_ok s = true ∧
      stable [] w w' ∧ checkpoint_db w' c = Some h ∧
      (∀ d, on_disk w' d = on_disk w d);
  law_create_checkpoint w c h d m :
    faultless w → checkpoint_db w c = Some h → contents w h = Some m →
    on_disk w d = Absent →
    ∃ s w', rocks_Checkpoint_CreateCheckpoint c d w = (s, w') ∧ status_ok s = true ∧
      stable [] w w' ∧ on_disk w' d = Closed m ∧
      (∀ d', d' ≠ d → on_disk w' d' = on_disk w d');
  law_checkpoint_destroy w c :
    ∀ h, contents (rocks_Checkpoint_destroy c w) h = contents w h ∧
      writable (rocks_Checkpoint_destroy c w) h = writable w h ∧
      (∀ sn, snapshot_of (rocks_Checkpoint_destroy c w) h sn = snapshot_of w h sn) ∧
      (∀ d, on_disk (rocks_Checkpoint_destroy c w) d = on_disk w d) ∧
      (faultless w → faultless (rocks_Checkpoint_destroy c w));

  law_iterator w h ro m :
    faultless w → is_Some (contents w h) → read_view w h ro = Some m →
    ∃ it w', rocks_DB_NewIterator h ro w = (it, w') ∧ stable [] w w' ∧
      iter_view w' it = Some m ∧ iterates w' it h;
  law_seek_first w it m :
    faultless w → iter_view w it = Some m →
    moved w (rocks_Iterator_SeekToFirst it w) it ∧
    ∃ l, is_scan m l ∧ remaining (rocks_Iterator_SeekToFirst it w) it = Some l;
  law_seek w it m k :
    faultless w → iter_view w it = Some m →
    moved w (rocks_Iterator_Seek it k w) it ∧
    ∃ l, is_scan m l ∧
      remaining (rocks_Iterator_Seek it k w) it = Some (filter (λ e, bytes_ltb e.1 k = false) l);
  law_seek_last w it m :
    faultless w → iter_view w it = Some m →
    moved w (rocks_Iterator_SeekToLast it w) it ∧
    ∃ l, is_scan m l ∧ at_last (rocks_Iterator_SeekToLast it w) it l [];
  law_seek_for_prev w it m k :
    faultless w → iter_view w it = Some m →
    moved w (rocks_Iterator_SeekForPrev it k w) it ∧
    ∃ l, is_scan m l ∧
      at_last (rocks_Iterator_SeekForPrev it k w) it
        (filter (λ e, bytes_ltb k e.1 = false) l) (filter (λ e, bytes_ltb k e.1 = true) l);
  law_prev w it e l p :
    faultless w → remaining w it = Some (e :: l) → passed w it = Some p →
    moved w (rocks_Iterator_Prev it w) it ∧ at_last (rocks_Iterator_Prev it w) it p (e :: l);
  law_iterator_status w it m :
    faultless w → iter_view w it = Some m → status_ok (rocks_Iterator_status it w) = true;
  law_iterator_destroy w it m :
    iter_view w it = Some m → stable [] w (rocks_Iterator_destroy it w);
  law_next w it e l :
    faultless w → remaining w it = Some (e :: l) →
    moved w (rocks_Iterator_Next it w) it ∧ remaining (rocks_Iterator_Next it w) it = Some l;
  law_valid w it l :
    remaining w it = Some l → rocks_Iterator_Valid it w = bool_decide (l ≠ []);
  law_key w it e l : remaining w it = Some (e :: l) → rocks_Iterator_key it w = e.1;
  law_value w it e l : remaining w it = Some (e :: l) → rocks_Iterator_value it w = e.2;
}.

Section stable.
Context `{RocksView}.

Lemma stable_refl hs w : stable hs w w.
Proof. by split. Qed.

Lemma stable_weaken hs hs' w w' : hs ⊆ hs' → stable hs w w' → stable hs' w w'.
Proof. intros Hsub []. split; auto. Qed.

Lemma stable_trans hs w1 w2 w3 : stable hs w1 w2 → stable hs w2 w3 →
  (∀ h, h ∈ hs → is_Some (contents w1 h) → is_Some (contents w2 h)) → stable hs w1 w3.
Proof.
  intros [F1 C1 W1 S1 K1] [F2 C2 W2 S2 K2] Hs. split; eauto.
  - intros h Hh. rewrite C2, C1; done.
  - intros h Hh. rewrite W2, W1; try done.
    destruct (decide (h ∈ hs)); [auto|]. by rewrite C1.
Qed.

Lemma stable_nil_trans w1 w2 w3 : stable [] w1 w2 → stable [] w2 w3 → stable [] w1 w3.
Proof. intros ??. eapply stable_trans; eauto. intros h ?%elem_of_nil. done. Qed.
End stable.
#[export] Hint Resolve stable_refl stable_nil_trans : wp.

(** ** The bytewise order *)

Lemma bytes_ltb_irrefl a : bytes_ltb a a = false.
Proof. induction a as [|x a IH]; [done|]. simpl. by rewrite N.compare_refl. Qed.

Lemma bytes_ltb_trans a b c :
  bytes_ltb a b = true → bytes_ltb b c = true → bytes_ltb a c = true.
Proof.
  revert b c; induction a as [|x a IH]; intros [|y b] [|z c]; simpl; try done.
  destruct (N.compare_spec (Byte.to_N x) (Byte.to_N y)) as [Exy|Lxy|?]; [|intros _|done];
    destruct (N.compare_spec (Byte.to_N y) (Byte.to_N z)) as [Eyz|Lyz|?]; try done.
  - rewrite Exy, Eyz, N.compare_refl. apply IH.
  - intros _ _. rewrite Exy. by apply N.compare_lt_iff in Lyz as ->.
  - intros _. rewrite <-Eyz. by apply N.compare_lt_iff in Lxy as ->.
  - intros _. assert (Byte.to_N x < Byte.to_N z)%N as Hlt by lia.
    by apply N.compare_lt_iff in Hlt as ->.
Qed.

Lemma byte_to_N_inj x y : Byte.to_N x = Byte.to_N y → x = y.
Proof. intros E. apply (inj Some). by rewrite <-!Byte.of_to_N, E. Qed.

Lemma bytes_ltb_total a b :
  bytes_ltb a b = false → bytes_ltb b a = false → a = b.
Proof.
  revert b; induction a as [|x a IH]; intros [|y b]; simpl; try done.
  rewrite (N.compare_antisym (Byte.to_N x)).
  destruct (N.compare_spec (Byte.to_N x) (Byte.to_N y)) as [E|?|?]; simpl; try done.
  intros. f_equal; [by apply byte_to_N_inj|by apply IH].
Qed.

#[export] Instance bytes_lt_trans : Transitive bytes_lt.
Proof. intros a b c. apply bytes_ltb_trans. Qed.

#[export] Instance bytes_lt_irrefl : Irreflexive bytes_lt.
Proof. intros a. unfold bytes_lt, complement. by rewrite bytes_ltb_irrefl. Qed.

(** ** Sorted entries *)

(** A downward closed test cuts a sorted list in two. *)
Lemma filter_sorted (P : bytes → bool) (l : list (bytes * bytes)) :
  StronglySorted bytes_lt l.*1 →
  (∀ a b, bytes_lt a b → P b = true → P a = true) →
  l = filter (λ e, P e.1 = true) l ++ filter (λ e, P e.1 = false) l.
Proof.
  intros Hs HP. induction l as [|e l IH]; [done|].
  rewrite fmap_cons in Hs. apply StronglySorted_inv in Hs as [Hs He]. rewrite !filter_cons.
  destruct (P e.1) eqn:E.
  - rewrite decide_True, decide_False by done. cbn [app]. f_equal. by apply IH.
  - rewrite decide_False, decide_True by done.
    assert (filter (λ e, P e.1 = true) l = []) as Hnil.
    { destruct (filter _ l) as [|x l'] eqn:F; [done|]. exfalso.
      assert (x ∈ filter (λ e, P e.1 = true) l) as [Hpx Hx]%list_elem_of_filter
        by (rewrite F; left).
      rewrite Forall_forall in He. specialize (He x.1 (list_elem_of_fmap_2 _ _ _ Hx)).
      by rewrite (HP _ _ He Hpx) in E. }
    specialize (IH Hs). rewrite Hnil in *. cbn [app] in *. by rewrite <-IH.
Qed.

(** Two scans of the same map are equal. *)
Lemma is_scan_unique m l l' : is_scan m l → is_scan m l' → l = l'.
Proof.
  intros [Hp Hs] [Hp' Hs']. assert (l ≡ₚ l') as Hll by (by rewrite Hp, Hp'). clear Hp Hp'.
  revert l' Hs' Hll. induction l as [|e l IH]; intros [|e' l'] Hs' Hll.
  - done.
  - by apply Permutation_nil_cons in Hll.
  - by symmetry in Hll; apply Permutation_nil_cons in Hll.
  - rewrite fmap_cons in Hs, Hs'. apply StronglySorted_inv in Hs as [Hs He].
    apply StronglySorted_inv in Hs' as [Hs' He'].
    assert (e = e') as ->.
    { assert (e ∈ e' :: l') as Hin by (rewrite <-Hll; left).
      assert (e' ∈ e :: l) as Hin' by (rewrite Hll; left).
      apply elem_of_cons in Hin as [->|Hin]; [done|].
      apply elem_of_cons in Hin' as [->|Hin']; [done|].
      rewrite Forall_forall in He, He'.
      pose proof (He _ (list_elem_of_fmap_2 fst _ _ Hin')) as H1.
      pose proof (He' _ (list_elem_of_fmap_2 fst _ _ Hin)) as H2.
      destruct (irreflexivity bytes_lt e.1). by transitivity e'.1. }
    f_equal. apply IH; [done|done|]. by apply Permutation_cons_inv in Hll.
Qed.
