(* ===== verification/MemRocks.v ===== *)
(** * An in-memory engine

    A concrete instance of the interface of [Rocks.v], with the proof of its laws.
    The theorems of the development quantify over every engine; this one shows that
    their hypotheses can hold and runs their witnesses. *)

From S2P Require Import Prelude Rocks.
From stdpp Require Import sorting.
From Stdlib Require Import Sorting.Sorted.

Variant mstatus := MOk | MNotFound | MErr (msg : bytes).

Record mdb := MDb { md_dir : bytes; md_map : gmap bytes bytes; md_writable : bool }.

Record miter := MIter { mi_db : option handle; mi_view : gmap bytes bytes; mi_pos : nat }.

Record mworld := MWorld {
  w_dbs : gmap handle mdb;
  w_dirs : gmap bytes disk;
  w_snaps : gmap handle (handle * gmap bytes bytes);
  w_ckpts : gmap handle handle;
  w_iters : gmap handle miter;
  (* of the other stores ([MemStores.v]): contents, and open transactions *)
  w_kvs : gmap handle (gmap bytes bytes);
  w_txns : gmap handle (handle * list update);
}.

Definition mfactory : Type := Z * option loc * bool * option Z * option Z * bool.

#[export] Instance mem_types : RocksTypes := {|
  World := mworld;
  Status := mstatus;
  WriteBatchRep := list update;
  CacheRep := Z;
  TableFactory := mfactory;
  BloomPolicy := Z * bool;
|}.

Definition m_ok (s : mstatus) : bool := match s with MOk => true | _ => false end.

(** ** Key order *)

Definition entry_le (a b : bytes * bytes) : Prop := bytes_ltb b.1 a.1 = false.

#[export] Instance entry_le_dec : RelDecision entry_le.
Proof. intros a b. unfold entry_le. apply _. Defined.

Definition scan (m : gmap bytes bytes) : list (bytes * bytes) :=
  merge_sort entry_le (map_to_list m).

(** ** Operations *)

Definition m_on_dbs f w :=
  MWorld (f (w_dbs w)) (w_dirs w) (w_snaps w) (w_ckpts w) (w_iters w) (w_kvs w) (w_txns w).
Definition m_on_dirs f w :=
  MWorld (w_dbs w) (f (w_dirs w)) (w_snaps w) (w_ckpts w) (w_iters w) (w_kvs w) (w_txns w).
Definition m_on_snaps f w :=
  MWorld (w_dbs w) (w_dirs w) (f (w_snaps w)) (w_ckpts w) (w_iters w) (w_kvs w) (w_txns w).
Definition m_on_ckpts f w :=
  MWorld (w_dbs w) (w_dirs w) (w_snaps w) (f (w_ckpts w)) (w_iters w) (w_kvs w) (w_txns w).
Definition m_on_iters f w :=
  MWorld (w_dbs w) (w_dirs w) (w_snaps w) (w_ckpts w) (f (w_iters w)) (w_kvs w) (w_txns w).
Definition m_on_kvs f w :=
  MWorld (w_dbs w) (w_dirs w) (w_snaps w) (w_ckpts w) (w_iters w) (f (w_kvs w)) (w_txns w).
Definition m_on_txns f w :=
  MWorld (w_dbs w) (w_dirs w) (w_snaps w) (w_ckpts w) (w_iters w) (w_kvs w) (f (w_txns w)).

Definition m_disk (w : mworld) (d : bytes) : disk := default Absent (w_dirs w !! d).

(** An iterator of [h] is live. *)
Definition m_iterated (h : handle) (w : mworld) : bool :=
  existsb (λ i, bool_decide (mi_db i = Some h)) (map_to_list (w_iters w)).*2.

(** A database gets a handle that neither a database nor an iterator has. *)
Definition m_handles (w : mworld) : gset handle :=
  dom (w_dbs w) ∪ list_to_set (omap mi_db (map_to_list (w_iters w)).*2).

Definition m_open_as (writable : bool) (create : bool) (d : bytes) (w : mworld) :
    mstatus * handle * mworld :=
  let h := fresh (m_handles w) in
  let opened m := (MOk, h, m_on_dbs <[h := MDb d m writable]> (m_on_dirs <[d := InUse]> w)) in
  match m_disk w d with
  | Closed m => opened m
  | InUse => (MErr (bs "IO error: lock hold by current process"), h, w)
  | Absent => if create then opened ∅
              else (MErr (bs "Invalid argument: does not exist"), h, w)
  end.

Definition m_view (w : mworld) (h : handle) (ro : ReadOptionsRep) :
    option (gmap bytes bytes) :=
  match ro_snapshot ro with
  | None => md_map <$> w_dbs w !! h
  | Some sn => match w_snaps w !! sn with
               | Some (h', m) => if decide (h' = h) then Some m else None
               | None => None
               end
  end.

Definition m_get (h : handle) (ro : ReadOptionsRep) (k : bytes) (w : mworld) :
    mstatus * bytes * mworld :=
  match m_view w h ro with
  | Some m => match m !! k with
              | Some v => (MOk, v, w)
              | None => (MNotFound, [], w)
              end
  | None => (MErr (bs "Invalid argument"), [], w)
  end.

Definition m_write (h : handle) (us : list update) (w : mworld) : mstatus * mworld :=
  match w_dbs w !! h with
  | Some db =>
      if md_writable db then
        (MOk, m_on_dbs <[h := MDb (md_dir db) (apply_updates us (md_map db)) true]> w)
      else (MErr (bs "Not implemented: Not supported operation in read only mode."), w)
  | None => (MErr (bs "Invalid argument"), w)
  end.

Definition m_iter_move (f : miter → nat) (it : handle) (w : mworld) : mworld :=
  m_on_iters (alter (λ i, MIter (mi_db i) (mi_view i) (f i)) it) w.

Definition m_remaining (w : mworld) (it : handle) : option (list (bytes * bytes)) :=
  (λ i, drop (mi_pos i) (scan (mi_view i))) <$> w_iters w !! it.

Definition m_entry (it : handle) (w : mworld) : bytes * bytes :=
  default ([], []) (head (default [] (m_remaining w it))).

Definition m_create_checkpoint (c : handle) (d : bytes) (w : mworld) : mstatus * mworld :=
  match m_disk w d, (w_ckpts w !! c ≫= λ h, w_dbs w !! h) with
  | Absent, Some db => (MOk, m_on_dirs <[d := Closed (md_map db)]> w)
  | _, _ => (MErr (bs "Invalid argument: Directory exists"), w)
  end.

#[export] Instance mem_rocks : RocksDB := {|
  status_ok := m_ok;
  status_IsNotFound := λ s, match s with MNotFound => true | _ => false end;
  status_ToString := λ s, match s with
    | MOk => bs "OK" | MNotFound => bs "NotFound: " | MErr m => m end;
  new_Options := {| create_if_missing := false;
                    table_factory := (4096%Z, None, false, None, None, true) : mfactory |};
  new_BlockBasedTableOptions :=
    {| block_size := 4096; filter_policy := None; no_block_cache := false;
       block_cache := None; block_cache_compressed := None; whole_key_filtering := true |};
  new_BlockBasedTableOptions_filter := eq_refl;
  new_ReadOptions := {| fill_cache := true; ro_snapshot := None |};
  new_WriteOptions := {| wo_sync := false |};
  NewBlockBasedTableFactory := λ t,
    (block_size t, filter_policy t, no_block_cache t, block_cache t,
     block_cache_compressed t, whole_key_filtering t) : mfactory;
  NewBloomFilterPolicy := λ n b, (n, b);
  rocks_Bloom_CreateFilter := λ _ keys dst, dst ++ concat keys;
  rocks_Bloom_KeyMayMatch := λ _ _ _, true;
  rocks_Bloom_Name := λ _, bs "rocksdb.BuiltinBloomFilter";
  NewLRUCacheRep := λ n w, (n, w);
  (* nothing is cached in memory *)
  rocks_Cache_SetCapacity := λ _ _ w, w;
  rocks_DB_Open := λ o d w, m_open_as true (create_if_missing o) d w;
  rocks_DB_OpenForReadOnly := λ o d _ w, m_open_as false false d w;
  rocks_DB_destroy := λ h w,
    if m_iterated h w then None else
    Some match w_dbs w !! h with
         | Some db => m_on_dbs (delete h) (m_on_dirs <[md_dir db := Closed (md_map db)]> w)
         | None => w
         end;
  rocks_DB_Get := m_get;
  rocks_DB_Put := λ h _ k v w, m_write h [UPut k v] w;
  rocks_DB_Delete := λ h _ k w, m_write h [UDelete k] w;
  rocks_DB_Write := λ h _ b w, m_write h b w;
  rocks_DB_GetProperty := λ _ n _,
    if decide (n = bs "rocksdb.cur-size-all-mem-tables") then Some (bs "2048") else None;
  rocks_DB_NewIterator := λ h ro w,
    let it := fresh (dom (w_iters w)) in
    (it, m_on_iters <[it := MIter (Some h) (default ∅ (m_view w h ro)) 0]> w);
  rocks_DB_GetSnapshot := λ h w,
    let sn := fresh (dom (w_snaps w)) in
    (sn, m_on_snaps <[sn := (h, default ∅ (md_map <$> w_dbs w !! h))]> w);
  rocks_DB_ReleaseSnapshot := λ h sn w, m_on_snaps (delete sn) w;
  wb_empty := [];
  wb_from := λ _, [];
  wb_Put := λ b k v, b ++ [UPut k v];
  wb_Delete := λ b k, b ++ [UDelete k];
  wb_Clear := λ _, [];
  wb_Count := blen;
  rocks_Iterator_Valid := λ it w, bool_decide (default [] (m_remaining w it) ≠ []);
  rocks_Iterator_SeekToFirst := m_iter_move (λ _, O);
  rocks_Iterator_SeekToLast := m_iter_move (λ i, pred (length (scan (mi_view i))));
  rocks_Iterator_Seek := λ it k,
    m_iter_move (λ i, length (filter (λ e, bytes_ltb e.1 k = true) (scan (mi_view i)))) it;
  rocks_Iterator_SeekForPrev := λ it k,
    m_iter_move (λ i,
      match length (filter (λ e, bytes_ltb k e.1 = false) (scan (mi_view i))) with
      | O => length (scan (mi_view i)) | S n => n end) it;
  rocks_Iterator_Next := m_iter_move (λ i, S (mi_pos i));
  rocks_Iterator_Prev := m_iter_move (λ i,
    match mi_pos i with O => length (scan (mi_view i)) | S n => n end);
  rocks_Iterator_key := λ it w, (m_entry it w).1;
  rocks_Iterator_value := λ it w, (m_entry it w).2;
  rocks_Iterator_status := λ _ _, MOk;
  rocks_Iterator_destroy := λ it w, m_on_iters (delete it) w;
  rocks_Checkpoint_Create := λ h w,
    let c := fresh (dom (w_ckpts w)) in (MOk, c, m_on_ckpts <[c := h]> w);
  rocks_Checkpoint_CreateCheckpoint := m_create_checkpoint;
  rocks_Checkpoint_destroy := λ c w, m_on_ckpts (delete c) w;
|}.

#[export] Instance mem_view : RocksView := {|
  faultless := λ _, True;
  contents := λ w h, md_map <$> w_dbs w !! h;
  writable := λ w h, match w_dbs w !! h with Some db => md_writable db | None => false end;
  snapshot_of := λ w h sn, m_view w h {| fill_cache := true; ro_snapshot := Some sn |};
  checkpoint_db := λ w c, w_ckpts w !! c;
  on_disk := m_disk;
  closable := λ w h d, md_dir <$> w_dbs w !! h = Some d ∧ m_iterated h w = false;
  quiet := λ w h, m_iterated h w = false;
  iterates := λ w it h, mi_db <$> w_iters w !! it = Some (Some h);
  iter_view := λ w it, mi_view <$> w_iters w !! it;
  remaining := m_remaining;
  passed := λ w it, (λ i, take (mi_pos i) (scan (mi_view i))) <$> w_iters w !! it;
  wb_updates := λ b, b;
|}.

(** An engine that knows no database yet. *)
Definition mem_world0 : mworld := MWorld ∅ ∅ ∅ ∅ ∅ ∅ ∅.

(** ** The laws *)

Lemma scan_is_scan m : is_scan m (scan m).
Proof.
  unfold is_scan, scan. assert (Total entry_le) as Htot.
  { intros a b. unfold entry_le. destruct (bytes_ltb b.1 a.1) eqn:E1; [|auto].
    destruct (bytes_ltb a.1 b.1) eqn:E2; [|auto].
    pose proof (bytes_ltb_trans _ _ _ E1 E2). by rewrite bytes_ltb_irrefl in *. }
  assert (Transitive entry_le) as Htr.
  { intros a b c. unfold entry_le. intros E1 E2.
    destruct (bytes_ltb c.1 a.1) eqn:E3; [|done]. exfalso.
    destruct (bytes_ltb a.1 b.1) eqn:E4.
    - pose proof (bytes_ltb_trans _ _ _ E3 E4). congruence.
    - rewrite (bytes_ltb_total _ _ E4 E1) in E3. congruence. }
  assert (merge_sort entry_le (map_to_list m) ≡ₚ map_to_list m) as Hp
    by apply merge_sort_Permutation.
  split; [done|].
  assert (NoDup (merge_sort entry_le (map_to_list m)).*1) as Hnd
    by (rewrite Hp; apply NoDup_fst_map_to_list).
  assert (StronglySorted entry_le (merge_sort entry_le (map_to_list m))) as Hs
    by (apply StronglySorted_merge_sort; done).
  clear Hp. revert Hnd. induction Hs as [|e l Hs IH Hall]; [by constructor|].
  rewrite fmap_cons, NoDup_cons. intros [Hn Hnd]. constructor; [by apply IH|].
  apply Forall_forall. intros k (e' & -> & He')%list_elem_of_fmap.
  rewrite Forall_forall in Hall. specialize (Hall e' He'). unfold entry_le, bytes_lt in *.
  destruct (bytes_ltb e.1 e'.1) eqn:E; [done|]. destruct Hn.
  rewrite (bytes_ltb_total _ _ E Hall). by apply list_elem_of_fmap_2.
Qed.

Lemma m_stable_same hs (w w' : mworld) :
  w_dbs w' = w_dbs w → w_snaps w' = w_snaps w → w_ckpts w' = w_ckpts w → stable hs w w'.
Proof. destruct w, w'; simpl. intros -> -> ->. by split. Qed.

Lemma m_write_wrote h us w m :
  (md_map <$> w_dbs w !! h) = Some m →
  match w_dbs w !! h with Some db => md_writable db | None => false end = true →
  wrote h m us w (m_write h us w).
Proof.
  unfold m_write, wrote. intros Hm Hw. destruct (w_dbs w !! h) as [db|] eqn:E; [|done].
  simpl in Hm. simplify_eq. rewrite Hw. simpl. split_and!; try done.
  - split; simpl; try done.
    + intros h' Hh'. rewrite lookup_insert_ne; [done|set_solver].
    + intros h' [m Hm]. rewrite lookup_insert. case_decide; [subst|done]. by rewrite E.
  - by rewrite lookup_insert_eq.
  - intros d. by rewrite lookup_insert_eq, E.
Qed.

Lemma m_write_refused h us w m :
  (md_map <$> w_dbs w !! h) = Some m →
  match w_dbs w !! h with Some db => md_writable db | None => false end = false →
  refused w (m_write h us w).
Proof.
  unfold m_write, refused. intros Hm Hw. destruct (w_dbs w !! h) as [db|] eqn:E; [|done].
  by rewrite Hw.
Qed.

Lemma m_moved w it f : moved w (m_iter_move f it w) it.
Proof.
  split; [by apply m_stable_same|]. simpl. rewrite lookup_alter_eq.
  by destruct (w_iters w !! it).
Qed.

Lemma m_open_law (w : mworld) create d m :
  m_disk w d = Closed m ∨ (m_disk w d = Absent ∧ create = true ∧ m = ∅) →
  m_open_as true create d w =
    (MOk, fresh (m_handles w),
     m_on_dbs <[fresh (m_handles w) := MDb d m true]> (m_on_dirs <[d := InUse]> w)).
Proof. unfold m_open_as. by intros [->|(-> & -> & ->)]. Qed.

Lemma m_fresh {A} (h : gmap positive A) : h !! fresh (dom h) = None.
Proof. apply not_elem_of_dom, is_fresh. Qed.

Lemma m_fresh_handle w :
  w_dbs w !! fresh (m_handles w) = None ∧ m_iterated (fresh (m_handles w)) w = false.
Proof.
  pose proof (is_fresh (m_handles w)) as Hf. unfold m_handles in Hf at 2.
  apply not_elem_of_union in Hf as [Hf Hi]. split; [by apply not_elem_of_dom|].
  unfold m_iterated. destruct (existsb _ _) eqn:E; [|done]. destruct Hi.
  apply existsb_exists in E as (i & Hin & Hdb%bool_decide_eq_true).
  apply elem_of_list_to_set, list_elem_of_omap. exists i.
  split; [by apply list_elem_of_In|exact Hdb].
Qed.

Lemma m_iterated_live w it h : mi_db <$> w_iters w !! it = Some (Some h) → m_iterated h w = true.
Proof.
  destruct (w_iters w !! it) as [i|] eqn:E; [|done]. intros [= Hdb]. apply existsb_exists.
  exists i. split; [|by apply bool_decide_eq_true]. apply list_elem_of_In, list_elem_of_fmap.
  exists (it, i). split; [done|]. by apply elem_of_map_to_list.
Qed.

Lemma m_remaining_move w it f :
  m_remaining (m_iter_move f it w) it =
    (λ i, drop (f i) (scan (mi_view i))) <$> w_iters w !! it.
Proof. unfold m_remaining. cbn. rewrite lookup_alter_eq. by destruct (w_iters w !! it). Qed.

(** A test that holds of smaller keys cuts the scan of a map in two. *)
Lemma scan_cut m (P : bytes → bool) :
  (∀ a b, bytes_lt a b → P b = true → P a = true) →
  scan m = filter (λ e, P e.1 = true) (scan m) ++ filter (λ e, P e.1 = false) (scan m).
Proof. apply filter_sorted, scan_is_scan. Qed.

(** An iterator moved to the last entry of a prefix of the scan. *)
Lemma m_at_last (w : mworld) it i f before after :
  w_iters w !! it = Some i → scan (mi_view i) = before ++ after →
  f i = match length before with O => length (scan (mi_view i)) | S n => n end →
  at_last (m_iter_move f it w) it before after.
Proof.
  intros Hi Hs Hf. split.
  - intros ->. cbn [remaining mem_view]. rewrite m_remaining_move, Hi. cbn.
    rewrite Hf. cbn [length]. by rewrite drop_all.
  - intros p e ->. cbn [remaining passed mem_view]. rewrite m_remaining_move, Hi. cbn.
    rewrite lookup_alter_eq, Hi. cbn. rewrite Hf, Hs, length_app. cbn.
    replace (length p + 1)%nat with (S (length p)) by lia. rewrite <-app_assoc.
    by rewrite drop_app_length, take_app_length.
Qed.

#[export] Instance mem_laws : RocksLaws.
Proof.
  split; simpl; try done.
  - intros w h ro k m _ _ Hm. unfold m_get. 
    assert (m_view w h ro = Some m) as Hv.
    { unfold read_view in Hm. simpl in Hm. unfold m_view in *. by destruct (ro_snapshot ro). }
    rewrite Hv. destruct (m !! k) eqn:E; do 3 eexists; split_and!; try done; by apply m_stable_same.
  - intros w h wo b m _. apply m_write_wrote.
  - intros w h wo k v m _. apply m_write_wrote.
  - intros w h wo k m _. apply m_write_wrote.
  - intros w h wo m _ Hm Hw. split_and!; intros; by eapply m_write_refused.
  - intros w h m _ Hm. do 2 eexists. split; [done|]. pose proof (m_fresh (w_snaps w)) as Hf.
    split_and!; [| | |done].
    + split; simpl; try done. intros h' sn m'. unfold m_view; simpl. rewrite lookup_insert.
      case_decide as Hd; [|done]. subst. by rewrite Hf.
    + unfold m_view; simpl. by rewrite Hf.
    + unfold m_view; simpl. rewrite lookup_insert_eq, decide_True by done. by rewrite Hm.
  - intros w o d m _ Hd. do 3 eexists. split; [by apply m_open_law|].
    destruct (m_fresh_handle w) as [Hf Hi]. split_and!; simpl; try done.
    + split; simpl; try done.
      * intros h Hh. rewrite lookup_insert_ne; [done|set_solver].
      * intros h [x Hx]. rewrite lookup_insert_ne; [done|]. intros <-. by rewrite Hf in Hx.
    + by rewrite Hf.
    + by rewrite lookup_insert_eq.
    + by rewrite lookup_insert_eq.
    + unfold m_disk; simpl. by rewrite lookup_insert_eq.
    + intros d' Hd'. unfold m_disk; simpl. by rewrite lookup_insert_ne.
    + by rewrite lookup_insert_eq.
  - intros w o d log m _ Hd. do 3 eexists. split; [unfold m_open_as; by rewrite Hd|].
    destruct (m_fresh_handle w) as [Hf Hi]. split_and!; simpl; try done.
    + split; simpl; try done.
      * intros h Hh. rewrite lookup_insert_ne; [done|set_solver].
      * intros h [x Hx]. rewrite lookup_insert_ne; [done|]. intros <-. by rewrite Hf in Hx.
    + by rewrite Hf.
    + by rewrite lookup_insert_eq.
    + by rewrite lookup_insert_eq.
  - intros w h d m _ Hm [Hd ->]. eexists. split; [done|]. destruct (w_dbs w !! h) as [db|] eqn:E; simplify_eq/=.
    unfold m_disk; simpl. split_and!; try done.
    + by rewrite lookup_insert_eq.
    + intros d' Hd'. by rewrite lookup_insert_ne.
    + intros h' Hh'. by rewrite lookup_delete_ne.
  - intros w h m _ _ ->. by eexists.
  - intros w h it Hit. by rewrite (m_iterated_live _ _ _ Hit).
  - intros w h m _ Hm. do 3 eexists. split; [done|]. pose proof (m_fresh (w_ckpts w)) as Hf.
    split_and!; simpl; try done; [|by rewrite lookup_insert_eq].
    split; simpl; try done. intros c h' Hc. rewrite lookup_insert_ne; [done|]. intros <-. congruence.
  - intros w c h d m _ Hc Hm Hd. unfold m_create_checkpoint.
    destruct (w_dbs w !! h) as [db|] eqn:E; simplify_eq/=. rewrite Hd, Hc. simpl. rewrite E.
    do 2 eexists. split_and!; try done.
    + unfold m_disk; simpl. by rewrite lookup_insert_eq.
    + intros d' Hd'. unfold m_disk; simpl. by rewrite lookup_insert_ne.
  - intros w h ro m _ _ Hm. do 2 eexists. split; [done|]. split; [by apply m_stable_same|].
    simpl. rewrite lookup_insert_eq. simpl. split; [|done]. f_equal.
    unfold read_view in Hm. simpl in Hm. unfold m_view in *.
    destruct (ro_snapshot ro); simpl in *; by rewrite Hm.
  - intros w it m _ Hm. split; [apply m_moved|]. exists (scan m). split; [apply scan_is_scan|].
    unfold m_remaining. simpl. rewrite lookup_alter_eq.
    destruct (w_iters w !! it); simplify_eq/=. done.
  - intros w it m k _ Hm. split; [apply m_moved|]. exists (scan m). split; [apply scan_is_scan|].
    rewrite m_remaining_move. destruct (w_iters w !! it) as [i|]; simplify_eq/=. f_equal.
    etrans; [|apply drop_app_length]. f_equal.
    apply (scan_cut (mi_view i) (λ a, bytes_ltb a k)). intros a b. apply bytes_ltb_trans.
  - intros w it m _ Hm. split; [apply m_moved|]. exists (scan m). split; [apply scan_is_scan|].
    destruct (w_iters w !! it) as [i|] eqn:E; simplify_eq/=.
    eapply m_at_last; [exact E|by rewrite app_nil_r|by destruct (scan (mi_view i))].
  - intros w it m k _ Hm. split; [apply m_moved|]. exists (scan m). split; [apply scan_is_scan|].
    destruct (w_iters w !! it) as [i|] eqn:E; simplify_eq/=.
    eapply m_at_last; [exact E| |done].
    rewrite (scan_cut (mi_view i) (λ a, negb (bytes_ltb k a))) at 1.
    + f_equal; apply list_filter_iff; intros e; by destruct (bytes_ltb k e.1).
    + intros a b Hab Hb. destruct (bytes_ltb k a) eqn:Ea; [|done].
      by rewrite (bytes_ltb_trans k a b) in Hb.
  - intros w it e l p _ Hr Hp. split; [apply m_moved|]. unfold m_remaining in Hr.
    destruct (w_iters w !! it) as [i|] eqn:E; simplify_eq/=.
    eapply m_at_last; [exact E|by rewrite <-Hr, take_drop|].
    rewrite length_take. assert (mi_pos i < length (scan (mi_view i)))%nat as Hlt.
    { apply (f_equal length) in Hr. rewrite length_drop in Hr. simpl in Hr. lia. }
    by rewrite Nat.min_l by lia.
  - intros w it e l _ Hl. split; [apply m_moved|]. unfold m_remaining in *. simpl.
    rewrite lookup_alter_eq. destruct (w_iters w !! it) as [i|]; simplify_eq/=.
    f_equal. change (S (mi_pos i)) with (1 + mi_pos i)%nat. rewrite Nat.add_comm, <-drop_drop.
    by rewrite Hl.
  - intros w it l Hl. by rewrite Hl.
  - intros w it e l Hl. unfold m_entry. by rewrite Hl.
  - intros w it e l Hl. unfold m_entry. by rewrite Hl.
Qed.
