(* ===== verification/Memory.v ===== *)
(** * The memory of the program: the C heap, the Go heap, and their data types

    The bindings move raw pointers between C++ and Go, so both heaps are explicit.

    - The C heap holds the blocks [malloc] returns and the structs [rdbc.cc]
      allocates with [new]; a block disappears when it is freed or deleted, and a
      later access through its address is the fault [BadRead] or [BadFree].
    - The Go heap holds the byte arrays and structs the Go code points to.  It is
      garbage collected: nothing is ever removed.
    - [world] is the state of the RocksDB library, and [filterPolicies] the package
      variable of the same name (rdb/filter_policy.go).

    A [[]byte] is a pointer, a length and a capacity; every slice expression of the
    program starts at index 0, so there is no offset. *)

From S2P Require Import Prelude Rocks.

(** [malloc(0)] may return a null pointer or not (C11 7.22.3); each platform
    chooses. *)
Class Libc := { malloc0_null : bool }.

(** ** Pointers *)

Variant ptr :=
| Nil
| PG (l : loc)                              (* the Go heap *)
| PC (l : loc)                              (* the C heap *)
| PIter (it : loc) (gen : nat) (val : bool). (* the current key or value of the iterator
                                                struct [it] after [gen] moves *)

#[export] Instance ptr_eq_decision : EqDecision ptr.
Proof. solve_decision. Defined.

(** A Go error value: [nil], or [errors.New(msg)]. *)
Abbreviation error := (option bytes).

(** A Go [[]byte] value. *)
Record goslice := Sl { sl_ptr : ptr; sl_len : Z; sl_cap : Z }.

(** The nil slice: [var value []byte]. *)
Definition nilslice : goslice := Sl Nil 0 0.

(** ** Go structs of the packages rdb and store *)

(** rdb/slice.go *)
Record Slice := mkSlice { slice_data : ptr; slice_size : Z; slice_freed : bool }.

(** rdb/db.go *)
Record DB := mkDB { db_c : ptr; db_name : bytes; db_opts : ptr }.

(** rdb/options.go *)
Record Options := mkOptions { opts_c : ptr; opts_bbto : ptr }.

(** rdb/options_block_based_table.go *)
Record BlockBasedTableOptions := mkBBTO {
  bbto_c : ptr;
  bbto_cache : ptr;
  bbto_compCache : ptr;
  bbto_cFp : ptr;
}.

(** rdb/snapshot.go *)
Record Snapshot := mkSnapshot { snap_c : ptr; snap_cDb : ptr }.

(** rdb/checkpoint.go *)
Record Checkpoint := mkCheckpoint { ckpt_c : ptr; ckpt_cDb : ptr }.

(** store/store.go *)
Record Store := mkStore {
  s_db : ptr;
  s_opt : ptr;
  s_blockopt : ptr;
  s_ropt : ptr;
  s_wopt : ptr;
}.

(** populate/main.go and rw-bench/bench.go: type [entry] *)
Record entry := mkEntry { e_Key : goslice; e_Value : goslice; e_Meta : Z }.

(** What a Go pointer of these packages points to.  The structs with the single
    field [c] are their field. *)
Inductive gobj :=
| GBytes (b : bytes)
| GSlice (x : Slice)
| GDB (x : DB)
| GOptions (x : Options)
| GBlockBasedTableOptions (x : BlockBasedTableOptions)
| GReadOptions (c : ptr)
| GWriteOptions (c : ptr)
| GWriteBatch (c : ptr)
| GIterator (c : ptr)
| GSnapshot (x : Snapshot)
| GCheckpoint (x : Checkpoint)
| GCache (c : ptr)
| GStore (x : Store)
| GEntry (x : entry).

(** The interface [FilterPolicy] of rdb/filter_policy.go: its implementation
    [nativeFilterPolicy], or one the user supplies, with its three methods. *)
Inductive FilterPolicy :=
| nativeFilterPolicy (c : ptr)
| userFilterPolicy (CreateFilter : list bytes → bytes)
    (KeyMayMatch : bytes → bytes → bool) (Name : bytes).

Section memory.
Context `{RocksDB}.

(** ** C++ structs of rdb/rdbc.cc *)

(** [rdb_filterpolicy_t]: the callbacks into Go, with the index they are called
    on; or the [Wrapper] around a library policy. *)
Inductive filterpolicy :=
| FPCallback (idx : Z)
| FPWrapper (rep : BloomPolicy).

Inductive cobj :=
| CBytes (b : bytes)                          (* malloc *)
| Crdb_t (rep : handle)
| Crdb_options_t (rep : OptionsRep)
| Crdb_readoptions_t (rep : ReadOptionsRep)
| Crdb_writeoptions_t (rep : WriteOptionsRep)
| Crdb_writebatch_t (rep : WriteBatchRep)
| Crdb_iterator_t (rep : handle) (gen : nat)  (* gen counts the moves made (ghost) *)
| Crdb_cache_t (rep : CacheRep)
(* [shared]: a table factory was made of these options since their filter policy was set,
   and holds it as well (the reference count of the policy is 2 or more) *)
| Crdb_block_based_table_options_t (rep : BlockBasedTableOptionsRep) (shared : bool)
| Crdb_snapshot_t (rep : handle)
| Crdb_checkpoint_t (rep : handle)
| Crdb_filterpolicy_t (fp : filterpolicy).

Definition as_CBytes o := match o with CBytes b => Some b | _ => None end.
Definition as_rdb_t o := match o with Crdb_t r => Some r | _ => None end.
Definition as_rdb_options_t o := match o with Crdb_options_t r => Some r | _ => None end.
Definition as_rdb_readoptions_t o :=
  match o with Crdb_readoptions_t r => Some r | _ => None end.
Definition as_rdb_writeoptions_t o :=
  match o with Crdb_writeoptions_t r => Some r | _ => None end.
Definition as_rdb_writebatch_t o :=
  match o with Crdb_writebatch_t r => Some r | _ => None end.
Definition as_rdb_iterator_t o :=
  match o with Crdb_iterator_t r g => Some (r, g) | _ => None end.
Definition as_rdb_cache_t o := match o with Crdb_cache_t r => Some r | _ => None end.
Definition as_rdb_block_based_table_options_t o :=
  match o with Crdb_block_based_table_options_t r b => Some (r, b) | _ => None end.
Definition as_rdb_snapshot_t o := match o with Crdb_snapshot_t r => Some r | _ => None end.
Definition as_rdb_checkpoint_t o :=
  match o with Crdb_checkpoint_t r => Some r | _ => None end.
Definition as_rdb_filterpolicy_t o :=
  match o with Crdb_filterpolicy_t r => Some r | _ => None end.

Definition as_GBytes o := match o with GBytes b => Some b | _ => None end.
Definition as_Slice o := match o with GSlice x => Some x | _ => None end.
Definition as_DB o := match o with GDB x => Some x | _ => None end.
Definition as_Options o := match o with GOptions x => Some x | _ => None end.
Definition as_BlockBasedTableOptions o :=
  match o with GBlockBasedTableOptions x => Some x | _ => None end.
Definition as_ReadOptions o := match o with GReadOptions c => Some c | _ => None end.
Definition as_WriteOptions o := match o with GWriteOptions c => Some c | _ => None end.
Definition as_WriteBatch o := match o with GWriteBatch c => Some c | _ => None end.
Definition as_Iterator o := match o with GIterator c => Some c | _ => None end.
Definition as_Snapshot o := match o with GSnapshot x => Some x | _ => None end.
Definition as_Checkpoint o := match o with GCheckpoint x => Some x | _ => None end.
Definition as_Cache o := match o with GCache c => Some c | _ => None end.
Definition as_Store o := match o with GStore x => Some x | _ => None end.
Definition as_entry o := match o with GEntry x => Some x | _ => None end.

(** ** The state *)

Record st := St {
  cheap : gmap loc cobj;
  gheap : gmap loc gobj;
  world : World;
  filterPolicies : list FilterPolicy;
}.

Definition on_cheap (f : gmap loc cobj → gmap loc cobj) (σ : st) : st :=
  St (f (cheap σ)) (gheap σ) (world σ) (filterPolicies σ).
Definition on_gheap (f : gmap loc gobj → gmap loc gobj) (σ : st) : st :=
  St (cheap σ) (f (gheap σ)) (world σ) (filterPolicies σ).
Definition on_world (f : World → World) (σ : st) : st :=
  St (cheap σ) (gheap σ) (f (world σ)) (filterPolicies σ).
Definition on_policies (f : list FilterPolicy → list FilterPolicy) (σ : st) : st :=
  St (cheap σ) (gheap σ) (world σ) (f (filterPolicies σ)).

(** A call into the library that changes its state. *)
Definition engine {A} (f : World → A * World) : M st A := λ σ,
  let '(a, w) := f (world σ) in Ret a (on_world (λ _, w) σ).
Definition engine_ (f : World → World) : M st unit := modS (on_world f).
(** A call that may not be allowed in its state. *)
Definition engine_defined (what : string) (f : World → option World) : M st unit := λ σ,
  match f (world σ) with
  | Some w => Ret tt (on_world (λ _, w) σ)
  | None => Fault (Undefined what)
  end.
Definition engine_get {A} (f : World → A) : M st A := gets (λ σ, f (world σ)).

(** ** The C heap *)

Definition c_new (o : cobj) : M st ptr := λ σ,
  let l := fresh (dom (cheap σ)) in Ret (PC l) (on_cheap <[l := o]> σ).

(** A typed read through a C pointer. *)
Definition c_load {A} (as_ : cobj → option A) (p : ptr) : M st A := λ σ,
  match p with
  | PC l => match cheap σ !! l ≫= as_ with
            | Some a => Ret a σ
            | None => Fault BadRead
            end
  | Nil => Fault SegFault
  | _ => Fault BadRead
  end.

(** An assignment to a live struct. *)
Definition c_store (p : ptr) (o : cobj) : M st unit := λ σ,
  match p with
  | PC l => match cheap σ !! l with
            | Some _ => Ret tt (on_cheap <[l := o]> σ)
            | None => Fault BadRead
            end
  | Nil => Fault SegFault
  | _ => Fault BadRead
  end.

(** [delete p], which does nothing on a null pointer; [free(p)] is the case of a
    [malloc] block. *)
Definition c_delete {A} (as_ : cobj → option A) (p : ptr) : M st unit := λ σ,
  match p with
  | Nil => Ret tt σ
  | PC l => match cheap σ !! l ≫= as_ with
            | Some _ => Ret tt (on_cheap (delete l) σ)
            | None => Fault BadFree
            end
  | _ => Fault BadFree
  end.

Definition c_free (p : ptr) : M st unit := c_delete as_CBytes p.

(** ** The Go heap *)

Definition go_new (o : gobj) : M st ptr := λ σ,
  let l := fresh (dom (gheap σ)) in Ret (PG l) (on_gheap <[l := o]> σ).

Definition go_load {A} (as_ : gobj → option A) (p : ptr) : M st A := λ σ,
  match p with
  | PG l => match gheap σ !! l ≫= as_ with
            | Some a => Ret a σ
            | None => Fault BadRead
            end
  | Nil => Fault PanicNil
  | _ => Fault BadRead
  end.

Definition go_store (p : ptr) (o : gobj) : M st unit := λ σ,
  match p with
  | PG l => match gheap σ !! l with
            | Some _ => Ret tt (on_gheap <[l := o]> σ)
            | None => Fault BadRead
            end
  | Nil => Fault PanicNil
  | _ => Fault BadRead
  end.

(** ** Bytes behind a pointer *)

(** The first [n] bytes at [p]; no byte is read when [n] is 0. *)
Definition mem_read (p : ptr) (n : Z) : M st bytes :=
  if n =? 0 then mret [] else
  b ← match p with
      | Nil => raise SegFault
      | PG l => go_load as_GBytes p
      | PC l => c_load as_CBytes p
      | PIter it gen val =>
          '(rep, g) ← c_load as_rdb_iterator_t (PC it);
          if decide (g = gen)
          then engine_get (if val then rocks_Iterator_value rep else rocks_Iterator_key rep)
          else raise BadRead
      end;
  if (0 <=? n) && (n <=? blen b) then mret (take (Z.to_nat n) b) else raise BadRead.

Definition sl_read (s : goslice) : M st bytes := mem_read (sl_ptr s) (sl_len s).

(** The bytes before the first NUL. *)
Fixpoint until_nul (b : bytes) : option bytes :=
  match b with
  | [] => None
  | x :: b => if decide (x = "000"%byte) then Some [] else cons x <$> until_nul b
  end.

(** A byte array of [make([]byte, n)]. *)
Definition go_make (n : Z) : M st goslice :=
  if n <? 0 then raise (PanicArg "makeslice") else
  p ← go_new (GBytes (replicate (Z.to_nat n) "000"%byte)); mret (Sl p n n).

(** A Go slice that holds the bytes [b] (a composite literal or a conversion). *)
Definition go_bytes (b : bytes) : M st goslice :=
  p ← go_new (GBytes b); mret (Sl p (blen b) (blen b)).

(** [s[:n]]. *)
Definition go_reslice (s : goslice) (n : Z) : M st goslice :=
  if (0 <=? n) && (n <=? sl_cap s) then mret (Sl (sl_ptr s) n (sl_cap s))
  else raise PanicIndex.

(** [copy(dst, src)]: the first [min(len(dst), len(src))] bytes. *)
Definition go_copy (dst : goslice) (src : bytes) : M st unit :=
  let n := Z.to_nat (Z.min (sl_len dst) (blen src)) in
  if decide (n = O) then mret tt else
  a ← go_load as_GBytes (sl_ptr dst);
  go_store (sl_ptr dst) (GBytes (take n src ++ drop n a)).

(** ** Points-to *)

Definition c_at (σ : st) (p : ptr) (o : cobj) : Prop :=
  match p with PC l => cheap σ !! l = Some o | _ => False end.

Definition go_at (σ : st) (p : ptr) (o : gobj) : Prop :=
  match p with PG l => gheap σ !! l = Some o | _ => False end.

(** The bytes a slice shows: [len(s)] bytes of the array it points to. *)
Definition slice_at (σ : st) (s : goslice) (b : bytes) : Prop :=
  sl_len s = blen b ∧ blen b < 2 ^ 63 ∧
  (b ≠ [] → ∃ a, (go_at σ (sl_ptr s) (GBytes a) ∨ c_at σ (sl_ptr s) (CBytes a)) ∧
                 take (length b) a = b).

(** ** Rules *)

Lemma fresh_lookup {A} (h : gmap loc A) : h !! fresh (dom h) = None.
Proof. apply not_elem_of_dom, is_fresh. Qed.

Lemma c_at_load {A} (as_ : cobj → option A) σ p o a :
  c_at σ p o → as_ o = Some a → c_load as_ p σ = Ret a σ.
Proof.
  unfold c_load. destruct p; try done. intros E ?. by rewrite E; simpl; simplify_option_eq.
Qed.

Lemma go_at_load {A} (as_ : gobj → option A) σ p o a :
  go_at σ p o → as_ o = Some a → go_load as_ p σ = Ret a σ.
Proof.
  unfold go_load. destruct p; try done. intros E ?. by rewrite E; simpl; simplify_option_eq.
Qed.

Lemma wp_c_new o σ (Q : ptr → st → Prop) :
  (∀ l, cheap σ !! l = None → Q (PC l) (on_cheap <[l := o]> σ)) → wp (c_new o) σ Q.
Proof. intros HQ. apply HQ, fresh_lookup. Qed.

Lemma wp_go_new o σ (Q : ptr → st → Prop) :
  (∀ l, gheap σ !! l = None → Q (PG l) (on_gheap <[l := o]> σ)) → wp (go_new o) σ Q.
Proof. intros HQ. apply HQ, fresh_lookup. Qed.

Lemma wp_c_load {A} (as_ : cobj → option A) σ p o a (Q : A → st → Prop) :
  c_at σ p o → as_ o = Some a → Q a σ → wp (c_load as_ p) σ Q.
Proof. intros. unfold wp. by erewrite c_at_load. Qed.

Lemma wp_go_load {A} (as_ : gobj → option A) σ p o a (Q : A → st → Prop) :
  go_at σ p o → as_ o = Some a → Q a σ → wp (go_load as_ p) σ Q.
Proof. intros. unfold wp. by erewrite go_at_load. Qed.

Lemma wp_c_store σ l o o' (Q : unit → st → Prop) :
  cheap σ !! l = Some o → Q tt (on_cheap <[l := o']> σ) → wp (c_store (PC l) o') σ Q.
Proof. intros E ?. unfold wp, c_store. by rewrite E. Qed.

Lemma wp_go_store σ l o o' (Q : unit → st → Prop) :
  gheap σ !! l = Some o → Q tt (on_gheap <[l := o']> σ) → wp (go_store (PG l) o') σ Q.
Proof. intros E ?. unfold wp, go_store. by rewrite E. Qed.

Lemma wp_c_delete {A} (as_ : cobj → option A) σ l o a (Q : unit → st → Prop) :
  cheap σ !! l = Some o → as_ o = Some a → Q tt (on_cheap (delete l) σ) →
  wp (c_delete as_ (PC l)) σ Q.
Proof. intros E Ha ?. unfold wp, c_delete. rewrite E. simpl. by rewrite Ha. Qed.

Lemma wp_c_delete_nil {A} (as_ : cobj → option A) σ (Q : unit → st → Prop) :
  Q tt σ → wp (c_delete as_ Nil) σ Q.
Proof. done. Qed.

Lemma wp_engine {A} (f : World → A * World) σ a w (Q : A → st → Prop) :
  f (world σ) = (a, w) → Q a (on_world (λ _, w) σ) → wp (engine f) σ Q.
Proof. intros E ?. unfold wp, engine. by rewrite E. Qed.

Lemma wp_engine_get {A} (f : World → A) σ (Q : A → st → Prop) :
  Q (f (world σ)) σ → wp (engine_get f) σ Q.
Proof. done. Qed.

Lemma wp_engine_defined what f σ w (Q : unit → st → Prop) :
  f (world σ) = Some w → Q tt (on_world (λ _, w) σ) → wp (engine_defined what f) σ Q.
Proof. intros E ?. unfold wp, engine_defined. by rewrite E. Qed.

Lemma wp_engine_ (f : World → World) σ (Q : unit → st → Prop) :
  Q tt (on_world f σ) → wp (engine_ f) σ Q.
Proof. done. Qed.

(** Reading the bytes of a slice changes nothing. *)
Lemma mem_read_at σ p b :
  (b ≠ [] → ∃ a, (go_at σ p (GBytes a) ∨ c_at σ p (CBytes a)) ∧ take (length b) a = b) →
  mem_read p (blen b) σ = Ret b σ.
Proof.
  intros Hat. unfold mem_read. destruct (Z.eqb_spec (blen b) 0) as [E|E].
  { by apply blen_0 in E as ->. }
  destruct Hat as (a & Ha & Htake); [by intros ->|].
  assert (0 <=? blen b = true) as -> by (apply Z.leb_le, blen_nonneg).
  assert (blen b <=? blen a = true) as Hle.
  { apply Z.leb_le. unfold blen. rewrite <-Htake, length_take. lia. }
  destruct Ha as [Ha|Ha]; destruct p; try done.
  all: erewrite bind_ret; [|first [by eapply go_at_load|by eapply c_at_load]].
  all: rewrite Hle; simpl; unfold blen; by rewrite Nat2Z.id, Htake.
Qed.

Lemma sl_read_at σ s b : slice_at σ s b → sl_read s σ = Ret b σ.
Proof. intros (E & _ & Hat). unfold sl_read. rewrite E. by apply mem_read_at. Qed.

Lemma wp_mem_read_at σ p b (Q : bytes → st → Prop) :
  (b ≠ [] → ∃ a, (go_at σ p (GBytes a) ∨ c_at σ p (CBytes a)) ∧ take (length b) a = b) →
  Q b σ → wp (mem_read p (blen b)) σ Q.
Proof. intros. unfold wp. by rewrite mem_read_at. Qed.
End memory.
