(* ===== verification/Files.v ===== *)
(** * The file system

    The two calls of package os the programs prepare a directory with.  They are a
    parameter, the class [OS], with the documented behaviour of Go's os package as
    the laws [OSLaws]; the file system is part of the world the engine works in. *)

From S2P Require Import Prelude Rocks MemRocks Memory.

Class OS `{RocksDB} := {
  os_RemoveAll_w : bytes → World → error * World;
  os_MkdirAll_w : bytes → Z → World → error * World;
}.

Definition NUL_free (d : bytes) : Prop := "000"%byte ∉ d.

#[export] Instance NUL_free_dec d : Decision (NUL_free d).
Proof. unfold NUL_free. apply _. Defined.

(** The directory [d'] is [d] or a directory of its tree. *)
Definition below (d d' : bytes) : Prop := d' = d ∨ (d ++ bs "/") `prefix_of` d'.

(** No open database keeps files in the tree of [d]. *)
Definition unused `{RocksView} (w : World) (d : bytes) : Prop :=
  ∀ d', below d d' → on_disk w d' ≠ InUse.

Class OSLaws `{RocksView, !OS} : Prop := {
  (* the whole tree goes; a path that does not exist is no error *)
  law_RemoveAll w d :
    faultless w → NUL_free d → unused w d →
    ∃ w', os_RemoveAll_w d w = (None, w') ∧ stable [] w w' ∧ on_disk w' d = Absent ∧
      (∀ d', on_disk w' d' = on_disk w d' ∨ on_disk w' d' = Absent);
  (* an empty directory holds no database *)
  law_MkdirAll w d perm :
    faultless w →
    ∃ e w', os_MkdirAll_w d perm w = (e, w') ∧ stable [] w w' ∧
      ∀ d', on_disk w' d' = on_disk w d';
}.

Section files.
Context `{RocksDB, !OS}.

Definition os_RemoveAll (path : bytes) : M st error := engine (os_RemoveAll_w path).
Definition os_MkdirAll (path : bytes) (perm : Z) : M st error := engine (os_MkdirAll_w path perm).
End files.

(** [os.RemoveAll(d); os.MkdirAll(d, 0777)]: an empty directory. *)
Lemma wp_fresh_dir `{RocksView, !OS, !OSLaws} σ d perm {A} (k : error → M st A) (Q : A → st → Prop) :
  faultless (world σ) → NUL_free d → unused (world σ) d →
  (∀ w, stable [] (world σ) w → on_disk w d = Absent → wp (k None) (on_world (λ _, w) σ) Q) →
  wp (err ← os_RemoveAll d; os_MkdirAll d perm;; k err) σ Q.
Proof.
  intros Hf Hn Hu HQ. destruct (law_RemoveAll (world σ) d Hf Hn Hu) as (w1 & E1 & Hst1 & Hd1 & _).
  destruct (law_MkdirAll w1 d perm) as (e & w2 & E2 & Hst2 & Hd2); [by eapply stable_faultless|].
  apply wp_bind. eapply wp_engine; [exact E1|]. apply wp_bind. eapply wp_engine; [exact E2|].
  apply HQ; [by eapply stable_nil_trans|by rewrite Hd2].
Qed.

(** ** The file system of the in-memory engine *)

#[export] Instance below_dec d d' : Decision (below d d').
Proof. unfold below. apply _. Defined.

#[export] Instance mem_os : OS := {|
  os_RemoveAll_w := λ d w,
    if decide (NUL_free d)
    then (None, m_on_dirs (λ ds, filter (λ kv, ¬ below d kv.1) ds) w)
    else (Some (bs "invalid argument"), w);
  os_MkdirAll_w := λ _ _ w, (None, w);
|}.

#[export] Instance mem_os_laws : OSLaws.
Proof.
  split; simpl.
  - intros w d _ Hn Hu. rewrite decide_True by done. eexists. split; [done|].
    split; [by apply m_stable_same|]. unfold m_disk. simpl.
    split.
    + rewrite map_lookup_filter_None_2; [done|]. right. intros x _ []. by left.
    + intros d'. rewrite map_lookup_filter. destruct (w_dirs w !! d'); [|by left]. simpl.
      case_guard; [by left|by right].
  - intros w d perm _. do 2 eexists. split; [done|]. split; [apply stable_refl|done].
Qed.
