(* ===== verification/Rdbc.v ===== *)
(** * The C++ shim: rdb/rdbc.cc

    One definition per function of the file, under its own name.  An out parameter
    is a result; the [char** errptr] protocol passes the current error pointer and
    returns the new one.  The filter policy callbacks are in [FilterPolicy.v]. *)

From S2P Require Import Prelude Rocks Memory.

Section rdbc.
Context `{RocksDB, Libc}.

(** ** C strings *)

Definition NUL : byte := "000"%byte.

(** What [std::string::c_str] shows of a string: the bytes before its first NUL. *)
Definition c_str (b : bytes) : bytes := default b (until_nul b).

(** [strdup(s.c_str())]. *)
Definition strdup (b : bytes) : M st ptr := c_new (CBytes (c_str b ++ [NUL])).

(** The C string at [p], in either heap: [std::string(const char* )]. *)
Definition c_string (p : ptr) : M st bytes :=
  b ← match p with
      | PG _ => go_load as_GBytes p
      | _ => c_load as_CBytes p
      end;
  of_option BadRead (until_nul b).

(** [malloc(n)] filled with the [n] bytes [b]. *)
Definition malloc_copy (b : bytes) : M st ptr :=
  if (blen b =? 0) && malloc0_null then mret Nil else c_new (CBytes b).

Definition SaveError (errptr : ptr) (s : Status) : M st (bool * ptr) :=
  if status_ok s then mret (false, errptr)
  else if decide (errptr = Nil) then
    e ← strdup (status_ToString s); mret (true, e)
  else
    c_free errptr;;
    e ← strdup (status_ToString s); mret (true, e).

Definition CopyString (str : bytes) : M st ptr := malloc_copy str.

(** ** rdb_t *)

Definition rdb_open (options name errptr : ptr) : M st (ptr * ptr) :=
  o ← c_load as_rdb_options_t options;
  n ← c_string name;
  '(s, db) ← engine (rocks_DB_Open o n);
  '(failed, errptr) ← SaveError errptr s;
  if failed : bool then mret (Nil, errptr) else
  result ← c_new (Crdb_t db);
  mret (result, errptr).

Definition rdb_open_for_read_only (options name : ptr) (error_if_log_file_exist : Z)
    (errptr : ptr) : M st (ptr * ptr) :=
  o ← c_load as_rdb_options_t options;
  n ← c_string name;
  '(s, db) ← engine (rocks_DB_OpenForReadOnly o n (negb (error_if_log_file_exist =? 0)));
  '(failed, errptr) ← SaveError errptr s;
  if failed : bool then mret (Nil, errptr) else
  result ← c_new (Crdb_t db);
  mret (result, errptr).

Definition rdb_close (db : ptr) : M st unit :=
  rep ← c_load as_rdb_t db;
  engine_defined "DB::~DB" (rocks_DB_destroy rep);;
  c_delete as_rdb_t db.

(** The result, [*vallen] and [*errptr]. *)
Definition rdb_get (db options key : ptr) (keylen : Z) (errptr : ptr) :
    M st (ptr * Z * ptr) :=
  rep ← c_load as_rdb_t db;
  ro ← c_load as_rdb_readoptions_t options;
  k ← mem_read key keylen;
  '(s, tmp) ← engine (rocks_DB_Get rep ro k);
  if status_ok s then
    result ← CopyString tmp;
    mret (result, blen tmp, errptr)
  else if status_IsNotFound s then mret (Nil, 0, errptr)
  else
    '(_, errptr) ← SaveError errptr s;
    mret (Nil, 0, errptr).

Definition rdb_put (db options key : ptr) (keylen : Z) (val : ptr) (vallen : Z)
    (errptr : ptr) : M st ptr :=
  rep ← c_load as_rdb_t db;
  wo ← c_load as_rdb_writeoptions_t options;
  k ← mem_read key keylen;
  v ← mem_read val vallen;
  s ← engine (rocks_DB_Put rep wo k v);
  '(_, errptr) ← SaveError errptr s;
  mret errptr.

Definition rdb_delete (db options key : ptr) (keylen : Z) (errptr : ptr) : M st ptr :=
  rep ← c_load as_rdb_t db;
  wo ← c_load as_rdb_writeoptions_t options;
  k ← mem_read key keylen;
  s ← engine (rocks_DB_Delete rep wo k);
  '(_, errptr) ← SaveError errptr s;
  mret errptr.

Definition rdb_property_value (db propname : ptr) : M st ptr :=
  rep ← c_load as_rdb_t db;
  n ← c_string propname;
  o ← engine_get (rocks_DB_GetProperty rep n);
  match o with
  | Some tmp => strdup tmp
  | None => mret Nil
  end.

(** ** rdb_writebatch_t *)

Definition rdb_writebatch_create : M st ptr := c_new (Crdb_writebatch_t wb_empty).

Definition rdb_writebatch_create_from (rep : ptr) (size : Z) : M st ptr :=
  b ← c_new (Crdb_writebatch_t wb_empty);
  r ← mem_read rep size;
  c_store b (Crdb_writebatch_t (wb_from r));;
  mret b.

Definition rdb_writebatch_destroy (b : ptr) : M st unit := c_delete as_rdb_writebatch_t b.

Definition rdb_writebatch_clear (b : ptr) : M st unit :=
  rep ← c_load as_rdb_writebatch_t b;
  c_store b (Crdb_writebatch_t (wb_Clear rep)).

Definition rdb_writebatch_count (b : ptr) : M st Z :=
  rep ← c_load as_rdb_writebatch_t b;
  mret (wb_Count rep).

Definition rdb_writebatch_put (b key : ptr) (klen : Z) (val : ptr) (vlen : Z) :
    M st unit :=
  rep ← c_load as_rdb_writebatch_t b;
  k ← mem_read key klen;
  v ← mem_read val vlen;
  c_store b (Crdb_writebatch_t (wb_Put rep k v)).

Definition rdb_writebatch_delete (b key : ptr) (klen : Z) : M st unit :=
  rep ← c_load as_rdb_writebatch_t b;
  k ← mem_read key klen;
  c_store b (Crdb_writebatch_t (wb_Delete rep k)).

Definition rdb_write (db options batch errptr : ptr) : M st ptr :=
  rep ← c_load as_rdb_t db;
  wo ← c_load as_rdb_writeoptions_t options;
  b ← c_load as_rdb_writebatch_t batch;
  s ← engine (rocks_DB_Write rep wo b);
  '(_, errptr) ← SaveError errptr s;
  mret errptr.

(** ** rdb_options_t *)

Definition rdb_options_create : M st ptr := c_new (Crdb_options_t new_Options).

Definition rdb_options_set_create_if_missing (opt : ptr) (v : Z) : M st unit :=
  o ← c_load as_rdb_options_t opt;
  c_store opt (Crdb_options_t
    {| create_if_missing := negb (v =? 0); table_factory := table_factory o |}).

(** The factory has a copy of the options, and shares their filter policy. *)
Definition rdb_options_set_block_based_table_factory (opt table_options : ptr) :
    M st unit :=
  if decide (table_options = Nil) then mret tt else
  '(t, _) ← c_load as_rdb_block_based_table_options_t table_options;
  o ← c_load as_rdb_options_t opt;
  c_store table_options (Crdb_block_based_table_options_t t true);;
  c_store opt (Crdb_options_t
    {| create_if_missing := create_if_missing o;
       table_factory := NewBlockBasedTableFactory t |}).

(** ** rdb_readoptions_t *)

Definition rdb_readoptions_create : M st ptr := c_new (Crdb_readoptions_t new_ReadOptions).

Definition rdb_readoptions_destroy (opt : ptr) : M st unit :=
  c_delete as_rdb_readoptions_t opt.

Definition rdb_readoptions_set_fill_cache (opt : ptr) (v : Z) : M st unit :=
  o ← c_load as_rdb_readoptions_t opt;
  c_store opt (Crdb_readoptions_t
    {| fill_cache := negb (v =? 0); ro_snapshot := ro_snapshot o |}).

Definition rdb_readoptions_set_snapshot (opt snap : ptr) : M st unit :=
  o ← c_load as_rdb_readoptions_t opt;
  sn ← (if decide (snap = Nil) then mret None
        else rep ← c_load as_rdb_snapshot_t snap; mret (Some rep));
  c_store opt (Crdb_readoptions_t
    {| fill_cache := fill_cache o; ro_snapshot := sn |}).

(** ** rdb_writeoptions_t *)

Definition rdb_writeoptions_create : M st ptr := c_new (Crdb_writeoptions_t new_WriteOptions).

Definition rdb_writeoptions_destroy (opt : ptr) : M st unit :=
  c_delete as_rdb_writeoptions_t opt.

Definition rdb_writeoptions_set_sync (opt : ptr) (v : Z) : M st unit :=
  c_load as_rdb_writeoptions_t opt;;
  c_store opt (Crdb_writeoptions_t {| wo_sync := negb (v =? 0) |}).

(** ** rdb_iterator_t *)

Definition rdb_create_iterator (db options : ptr) : M st ptr :=
  rep ← c_load as_rdb_t db;
  ro ← c_load as_rdb_readoptions_t options;
  it ← engine (rocks_DB_NewIterator rep ro);
  c_new (Crdb_iterator_t it 0).

Definition rdb_iter_destroy (iter : ptr) : M st unit :=
  '(rep, _) ← c_load as_rdb_iterator_t iter;
  engine_ (rocks_Iterator_destroy rep);;
  c_delete as_rdb_iterator_t iter.

Definition rdb_iter_valid (iter : ptr) : M st Z :=
  '(rep, _) ← c_load as_rdb_iterator_t iter;
  v ← engine_get (rocks_Iterator_Valid rep);
  mret (if v : bool then 1 else 0).

(** A repositioning of the iterator: pointers into its entry become stale. *)
Definition iter_move (f : handle → World → World) (iter : ptr) : M st unit :=
  '(rep, gen) ← c_load as_rdb_iterator_t iter;
  engine_ (f rep);;
  c_store iter (Crdb_iterator_t rep (S gen)).

Definition rdb_iter_seek_to_first : ptr → M st unit := iter_move rocks_Iterator_SeekToFirst.
Definition rdb_iter_seek_to_last : ptr → M st unit := iter_move rocks_Iterator_SeekToLast.
Definition rdb_iter_seek (iter k : ptr) (klen : Z) : M st unit :=
  key ← mem_read k klen; iter_move (λ it, rocks_Iterator_Seek it key) iter.
Definition rdb_iter_seek_for_prev (iter k : ptr) (klen : Z) : M st unit :=
  key ← mem_read k klen; iter_move (λ it, rocks_Iterator_SeekForPrev it key) iter.
Definition rdb_iter_next : ptr → M st unit := iter_move rocks_Iterator_Next.
Definition rdb_iter_prev : ptr → M st unit := iter_move rocks_Iterator_Prev.

(** The pointer into the current entry, and [*klen] or [*vlen]. *)
Definition rdb_iter_key (iter : ptr) : M st (ptr * Z) :=
  '(rep, gen) ← c_load as_rdb_iterator_t iter;
  k ← engine_get (rocks_Iterator_key rep);
  match iter with
  | PC l => mret (PIter l gen false, blen k)
  | _ => raise BadRead
  end.

Definition rdb_iter_value (iter : ptr) : M st (ptr * Z) :=
  '(rep, gen) ← c_load as_rdb_iterator_t iter;
  v ← engine_get (rocks_Iterator_value rep);
  match iter with
  | PC l => mret (PIter l gen true, blen v)
  | _ => raise BadRead
  end.

Definition rdb_iter_get_error (iter errptr : ptr) : M st ptr :=
  '(rep, _) ← c_load as_rdb_iterator_t iter;
  s ← engine_get (rocks_Iterator_status rep);
  '(_, errptr) ← SaveError errptr s;
  mret errptr.

(** ** rdb_filterpolicy_t (constructors) *)

(** The function pointers are always those of [rdbc_filterpolicy_create], below: the
    exported Go functions. *)
Definition rdb_filterpolicy_create (state : Z) : M st ptr :=
  c_new (Crdb_filterpolicy_t (FPCallback state)).

(** [delete] runs the destructor, which does nothing. *)
Definition rdb_filterpolicy_destroy (filter : ptr) : M st unit :=
  c_delete as_rdb_filterpolicy_t filter.

Definition rdbc_filterpolicy_create (idx : Z) : M st ptr := rdb_filterpolicy_create idx.

Definition rdb_filterpolicy_create_bloom_format (bits_per_key : Z) (original_format : bool) :
    M st ptr :=
  c_new (Crdb_filterpolicy_t (FPWrapper (NewBloomFilterPolicy bits_per_key original_format))).

Definition rdb_filterpolicy_create_bloom_full (bits_per_key : Z) : M st ptr :=
  rdb_filterpolicy_create_bloom_format bits_per_key false.

Definition rdb_filterpolicy_create_bloom (bits_per_key : Z) : M st ptr :=
  rdb_filterpolicy_create_bloom_format bits_per_key true.

(** ** rdb_cache_t *)

Definition rdb_cache_create_lru (capacity : Z) : M st ptr :=
  c ← engine (NewLRUCacheRep capacity);
  c_new (Crdb_cache_t c).

Definition rdb_cache_destroy (cache : ptr) : M st unit := c_delete as_rdb_cache_t cache.

Definition rdb_cache_set_capacity (cache : ptr) (capacity : Z) : M st unit :=
  c ← c_load as_rdb_cache_t cache;
  engine_ (rocks_Cache_SetCapacity c capacity).

(** ** rdb_block_based_table_options_t *)

Definition rdb_block_based_options_create : M st ptr :=
  c_new (Crdb_block_based_table_options_t new_BlockBasedTableOptions false).

(** The end of one of the references to a policy: the last one deletes it. *)
Definition release_policy (policy : option loc) (shared : bool) : M st unit :=
  match policy with
  | Some l => if shared then mret tt else c_delete as_rdb_filterpolicy_t (PC l)
  | None => mret tt
  end.

(** The destructor of the options releases their policy. *)
Definition rdb_block_based_options_destroy (options : ptr) : M st unit :=
  if decide (options = Nil) then mret tt else
  '(t, shared) ← c_load as_rdb_block_based_table_options_t options;
  release_policy (filter_policy t) shared;;
  c_delete as_rdb_block_based_table_options_t options.

(** An assignment to fields of [options->rep]. *)
Definition set_bbto (options : ptr)
    (f : BlockBasedTableOptionsRep → BlockBasedTableOptionsRep) : M st unit :=
  '(t, shared) ← c_load as_rdb_block_based_table_options_t options;
  c_store options (Crdb_block_based_table_options_t (f t) shared).

Definition rdb_block_based_options_set_block_size (options : ptr) (bsize : Z) : M st unit :=
  set_bbto options (λ t,
    {| block_size := bsize; filter_policy := filter_policy t;
       no_block_cache := no_block_cache t; block_cache := block_cache t;
       block_cache_compressed := block_cache_compressed t;
       whole_key_filtering := whole_key_filtering t |}).

(** [shared_ptr::reset]: the new policy has one reference, the old one is released. *)
Definition rdb_block_based_options_set_filter_policy (options fp : ptr) : M st unit :=
  '(t, shared) ← c_load as_rdb_block_based_table_options_t options;
  c_store options (Crdb_block_based_table_options_t
    {| block_size := block_size t;
       filter_policy := match fp with PC l => Some l | _ => None end;
       no_block_cache := no_block_cache t; block_cache := block_cache t;
       block_cache_compressed := block_cache_compressed t;
       whole_key_filtering := whole_key_filtering t |} false);;
  release_policy (filter_policy t) shared.

Definition rdb_block_based_options_set_no_block_cache (options : ptr) (v : Z) : M st unit :=
  set_bbto options (λ t,
    {| block_size := block_size t; filter_policy := filter_policy t;
       no_block_cache := negb (v =? 0); block_cache := block_cache t;
       block_cache_compressed := block_cache_compressed t;
       whole_key_filtering := whole_key_filtering t |}).

Definition rdb_block_based_options_set_block_cache (options cache : ptr) : M st unit :=
  if decide (cache = Nil) then mret tt else
  c ← c_load as_rdb_cache_t cache;
  set_bbto options (λ t,
    {| block_size := block_size t; filter_policy := filter_policy t;
       no_block_cache := no_block_cache t; block_cache := Some c;
       block_cache_compressed := block_cache_compressed t;
       whole_key_filtering := whole_key_filtering t |}).

Definition rdb_block_based_options_set_block_cache_compressed (options cache : ptr) :
    M st unit :=
  if decide (cache = Nil) then mret tt else
  c ← c_load as_rdb_cache_t cache;
  set_bbto options (λ t,
    {| block_size := block_size t; filter_policy := filter_policy t;
       no_block_cache := no_block_cache t; block_cache := block_cache t;
       block_cache_compressed := Some c;
       whole_key_filtering := whole_key_filtering t |}).

Definition rdb_block_based_options_set_whole_key_filtering (options : ptr) (v : Z) :
    M st unit :=
  set_bbto options (λ t,
    {| block_size := block_size t; filter_policy := filter_policy t;
       no_block_cache := no_block_cache t; block_cache := block_cache t;
       block_cache_compressed := block_cache_compressed t;
       whole_key_filtering := negb (v =? 0) |}).

(** ** rdb_snapshot_t *)

Definition rdb_create_snapshot (db : ptr) : M st ptr :=
  rep ← c_load as_rdb_t db;
  sn ← engine (rocks_DB_GetSnapshot rep);
  c_new (Crdb_snapshot_t sn).

Definition rdb_release_snapshot (db snapshot : ptr) : M st unit :=
  rep ← c_load as_rdb_t db;
  sn ← c_load as_rdb_snapshot_t snapshot;
  engine_ (rocks_DB_ReleaseSnapshot rep sn);;
  c_delete as_rdb_snapshot_t snapshot.

(** ** rdb_checkpoint_t *)

Definition rdb_create_checkpoint (db errptr : ptr) : M st (ptr * ptr) :=
  rep ← c_load as_rdb_t db;
  '(s, checkpoint) ← engine (rocks_Checkpoint_Create rep);
  '(failed, errptr) ← SaveError errptr s;
  if failed : bool then mret (Nil, errptr) else
  result ← c_new (Crdb_checkpoint_t checkpoint);
  mret (result, errptr).

Definition rdb_open_checkpoint (checkpoint checkpoint_dir errptr : ptr) : M st ptr :=
  rep ← c_load as_rdb_checkpoint_t checkpoint;
  d ← c_string checkpoint_dir;
  s ← engine (rocks_Checkpoint_CreateCheckpoint rep d);
  '(_, errptr) ← SaveError errptr s;
  mret errptr.

(** Deletes [checkpoint->rep]; the struct itself stays allocated. *)
Definition rdb_destroy_checkpoint (checkpoint : ptr) : M st unit :=
  rep ← c_load as_rdb_checkpoint_t checkpoint;
  engine_ (rocks_Checkpoint_destroy rep).
End rdbc.
