(* ===== verification/Rdb.v ===== *)
(** * The Go package rdb

    One definition per function or method of rdb/*.go, named [Type_Method].  A
    pointer receiver is a pointer into the Go heap.  [defer C.free(...)] calls are
    written where they run, in the order they run; the results they do not depend on
    are computed before them.  The filter policy callbacks are in
    [FilterPolicy.v]. *)

From S2P Require Import Prelude Rocks Memory Rdbc.

Section rdb.
Context `{RocksDB, Libc}.

(** ** cgo *)

(** [C.CString(s)]. *)
Definition C_CString (s : bytes) : M st ptr := c_new (CBytes (s ++ [NUL])).

(** [C.GoString(p)]: the empty string for a null pointer. *)
Definition C_GoString (p : ptr) : M st bytes :=
  if decide (p = Nil) then mret [] else c_string p.

(** [C.GoBytes(p, n)]: a copy on the Go heap; a negative length panics. *)
Definition C_GoBytes (p : ptr) (n : Z) : M st goslice :=
  if n <? 0 then raise (PanicArg "gobytes") else
  b ← mem_read p n; go_bytes b.

(** ** util.go *)

Definition btoi (b : bool) : Z := if b then 1 else 0.

Definition boolToChar (b : bool) : Z := if b then 1 else 0.

Definition charToByte (data : ptr) (len : Z) : goslice :=
  Sl data (wrap_s 64 len) (wrap_s 64 len).

Definition byteToChar (b : goslice) : ptr :=
  if 0 <? sl_len b then sl_ptr b else Nil.

Definition cByteSlice (b : goslice) : M st ptr :=
  if 0 <? sl_len b then
    d ← sl_read b;
    cData ← malloc_copy d;
    if 2 ^ 24 <? sl_len b then raise PanicIndex else mret cData
  else mret Nil.

Definition stringToChar (s : bytes) : M st ptr :=
  if decide (s = []) then mret Nil else go_new (GBytes s).

(** [size_t] of a Go [int]. *)
Definition size_t (n : Z) : Z := wrap_u 64 n.

(** The end of every function with a [cErr]: the message is copied to a Go error
    and the C string freed. *)
Definition take_error (cErr : ptr) : M st error :=
  if decide (cErr = Nil) then mret None else
  msg ← C_GoString cErr;
  c_free cErr;;
  mret (Some msg).

(** ** slice.go *)

Definition NewSlice (data : ptr) (size : Z) : M st ptr :=
  go_new (GSlice (mkSlice data size false)).

Definition Slice_Data (s : ptr) : M st goslice :=
  x ← go_load as_Slice s; mret (charToByte (slice_data x) (slice_size x)).

Definition Slice_Size (s : ptr) : M st Z :=
  x ← go_load as_Slice s; mret (wrap_s 64 (slice_size x)).

Definition Slice_Free (s : ptr) : M st unit :=
  x ← go_load as_Slice s;
  if negb (slice_freed x) then
    c_free (slice_data x);;
    go_store s (GSlice (mkSlice (slice_data x) (slice_size x) true))
  else mret tt.

(** ** cache.go *)

Definition NewNativeCache (c : ptr) : M st ptr := go_new (GCache c).

Definition NewLRUCache (capacity : Z) : M st ptr :=
  c ← rdb_cache_create_lru (size_t capacity); NewNativeCache c.

Definition Cache_Destroy (p : ptr) : M st unit :=
  c ← go_load as_Cache p;
  rdb_cache_destroy c;;
  go_store p (GCache Nil).

(** ** options_block_based_table.go *)

Definition NewNativeBlockBasedTableOptions (c : ptr) : M st ptr :=
  go_new (GBlockBasedTableOptions (mkBBTO c Nil Nil Nil)).

Definition NewDefaultBlockBasedTableOptions : M st ptr :=
  c ← rdb_block_based_options_create; NewNativeBlockBasedTableOptions c.

Definition BlockBasedTableOptions_Destroy (opts : ptr) : M st unit :=
  o ← go_load as_BlockBasedTableOptions opts;
  rdb_block_based_options_destroy (bbto_c o);;
  go_store opts (GBlockBasedTableOptions (mkBBTO Nil Nil Nil (bbto_cFp o))).

Definition BlockBasedTableOptions_SetBlockSize (opts : ptr) (blockSize : Z) : M st unit :=
  o ← go_load as_BlockBasedTableOptions opts;
  rdb_block_based_options_set_block_size (bbto_c o) (size_t blockSize).

Definition registerFilterPolicy (fp : FilterPolicy) : M st Z :=
  modS (on_policies (λ l, l ++ [fp]));;
  gets (λ σ, blen (filterPolicies σ) - 1).

Definition BlockBasedTableOptions_SetFilterPolicy (opts : ptr) (fp : FilterPolicy) :
    M st unit :=
  cFp ← match fp with
        | nativeFilterPolicy c => mret c
        | _ => idx ← registerFilterPolicy fp; rdbc_filterpolicy_create idx
        end;
  o ← go_load as_BlockBasedTableOptions opts;
  go_store opts (GBlockBasedTableOptions
    (mkBBTO (bbto_c o) (bbto_cache o) (bbto_compCache o) cFp));;
  rdb_block_based_options_set_filter_policy (bbto_c o) cFp.

Definition BlockBasedTableOptions_SetNoBlockCache (opts : ptr) (value : bool) : M st unit :=
  o ← go_load as_BlockBasedTableOptions opts;
  rdb_block_based_options_set_no_block_cache (bbto_c o) (boolToChar value).

Definition BlockBasedTableOptions_SetBlockCache (opts cache : ptr) : M st unit :=
  o ← go_load as_BlockBasedTableOptions opts;
  go_store opts (GBlockBasedTableOptions
    (mkBBTO (bbto_c o) cache (bbto_compCache o) (bbto_cFp o)));;
  c ← go_load as_Cache cache;
  rdb_block_based_options_set_block_cache (bbto_c o) c.

Definition BlockBasedTableOptions_SetBlockCacheCompressed (opts cache : ptr) : M st unit :=
  o ← go_load as_BlockBasedTableOptions opts;
  go_store opts (GBlockBasedTableOptions
    (mkBBTO (bbto_c o) (bbto_cache o) cache (bbto_cFp o)));;
  c ← go_load as_Cache cache;
  rdb_block_based_options_set_block_cache_compressed (bbto_c o) c.

Definition BlockBasedTableOptions_SetWholeKeyFiltering (opts : ptr) (value : bool) :
    M st unit :=
  o ← go_load as_BlockBasedTableOptions opts;
  rdb_block_based_options_set_whole_key_filtering (bbto_c o) (boolToChar value).

(** ** filter_policy.go (constructors) *)

Definition NewNativeFilterPolicy (c : ptr) : FilterPolicy := nativeFilterPolicy c.

Definition NewBloomFilter (bitsPerKey : Z) : M st FilterPolicy :=
  c ← rdb_filterpolicy_create_bloom (wrap_s 32 bitsPerKey);
  mret (NewNativeFilterPolicy c).

(** ** options.go *)

Definition NewNativeOptions (c : ptr) : M st ptr := go_new (GOptions (mkOptions c Nil)).

Definition NewDefaultOptions : M st ptr :=
  c ← rdb_options_create; NewNativeOptions c.

Definition Options_SetCreateIfMissing (opts : ptr) (value : bool) : M st unit :=
  o ← go_load as_Options opts;
  rdb_options_set_create_if_missing (opts_c o) (boolToChar value).

Definition Options_SetBlockBasedTableFactory (opts value : ptr) : M st unit :=
  o ← go_load as_Options opts;
  go_store opts (GOptions (mkOptions (opts_c o) value));;
  v ← go_load as_BlockBasedTableOptions value;
  rdb_options_set_block_based_table_factory (opts_c o) (bbto_c v).

(** ** options_read.go *)

Definition NewNativeReadOptions (c : ptr) : M st ptr := go_new (GReadOptions c).

Definition NewDefaultReadOptions : M st ptr :=
  c ← rdb_readoptions_create; NewNativeReadOptions c.

Definition ReadOptions_Destroy (opts : ptr) : M st unit :=
  c ← go_load as_ReadOptions opts;
  rdb_readoptions_destroy c;;
  go_store opts (GReadOptions Nil).

Definition ReadOptions_SetFillCache (opts : ptr) (value : bool) : M st unit :=
  c ← go_load as_ReadOptions opts;
  rdb_readoptions_set_fill_cache c (boolToChar value).

Definition ReadOptions_SetSnapshot (opts snapshot : ptr) : M st unit :=
  c ← go_load as_ReadOptions opts;
  if decide (snapshot = Nil) then rdb_readoptions_set_snapshot c Nil else
  s ← go_load as_Snapshot snapshot;
  rdb_readoptions_set_snapshot c (snap_c s).

(** ** options_write.go *)

Definition NewNativeWriteOptions (c : ptr) : M st ptr := go_new (GWriteOptions c).

Definition NewDefaultWriteOptions : M st ptr :=
  c ← rdb_writeoptions_create; NewNativeWriteOptions c.

Definition WriteOptions_SetSync (opts : ptr) (value : bool) : M st unit :=
  c ← go_load as_WriteOptions opts;
  rdb_writeoptions_set_sync c (boolToChar value).

Definition WriteOptions_Destroy (opts : ptr) : M st unit :=
  c ← go_load as_WriteOptions opts;
  rdb_writeoptions_destroy c;;
  go_store opts (GWriteOptions Nil).

(** ** write_batch.go *)

Definition NewNativeWriteBatch (c : ptr) : M st ptr := go_new (GWriteBatch c).

Definition NewWriteBatch : M st ptr :=
  c ← rdb_writebatch_create; NewNativeWriteBatch c.

Definition WriteBatchFrom (data : goslice) : M st ptr :=
  c ← rdb_writebatch_create_from (byteToChar data) (size_t (sl_len data));
  NewNativeWriteBatch c.

Definition WriteBatch_Put (wb : ptr) (key value : goslice) : M st unit :=
  c ← go_load as_WriteBatch wb;
  rdb_writebatch_put c (byteToChar key) (size_t (sl_len key))
    (byteToChar value) (size_t (sl_len value)).

Definition WriteBatch_Delete (wb : ptr) (key : goslice) : M st unit :=
  c ← go_load as_WriteBatch wb;
  rdb_writebatch_delete c (byteToChar key) (size_t (sl_len key)).

Definition WriteBatch_Count (wb : ptr) : M st Z :=
  c ← go_load as_WriteBatch wb; rdb_writebatch_count c.

Definition WriteBatch_Clear (wb : ptr) : M st unit :=
  c ← go_load as_WriteBatch wb; rdb_writebatch_clear c.

Definition WriteBatch_Destroy (wb : ptr) : M st unit :=
  c ← go_load as_WriteBatch wb;
  rdb_writebatch_destroy c;;
  go_store wb (GWriteBatch Nil).

(** ** iterator.go *)

Definition NewNativeIterator (c : ptr) : M st ptr := go_new (GIterator c).

Definition Iterator_Valid (iter : ptr) : M st bool :=
  c ← go_load as_Iterator iter;
  v ← rdb_iter_valid c;
  mret (negb (v =? 0)).

Definition Iterator_Key (iter : ptr) : M st ptr :=
  c ← go_load as_Iterator iter;
  '(cKey, cLen) ← rdb_iter_key c;
  if decide (cKey = Nil) then mret Nil
  else go_new (GSlice (mkSlice cKey cLen true)).

Definition Iterator_Value (iter : ptr) : M st ptr :=
  c ← go_load as_Iterator iter;
  '(cVal, cLen) ← rdb_iter_value c;
  if decide (cVal = Nil) then mret Nil
  else go_new (GSlice (mkSlice cVal cLen true)).

(** [bytes.HasPrefix]. *)
Definition HasPrefix (s prefix : bytes) : bool :=
  bool_decide (take (length prefix) s = prefix).

Definition Iterator_ValidForPrefix (iter : ptr) (prefix : goslice) : M st bool :=
  v ← Iterator_Valid iter;
  if v : bool then
    k ← Iterator_Key iter;
    d ← Slice_Data k;
    kb ← sl_read d;
    pb ← sl_read prefix;
    mret (HasPrefix kb pb)
  else mret false.

Definition Iterator_Next (iter : ptr) : M st unit :=
  c ← go_load as_Iterator iter; rdb_iter_next c.

Definition Iterator_Prev (iter : ptr) : M st unit :=
  c ← go_load as_Iterator iter; rdb_iter_prev c.

Definition Iterator_SeekToFirst (iter : ptr) : M st unit :=
  c ← go_load as_Iterator iter; rdb_iter_seek_to_first c.

Definition Iterator_SeekToLast (iter : ptr) : M st unit :=
  c ← go_load as_Iterator iter; rdb_iter_seek_to_last c.

Definition Iterator_Seek (iter : ptr) (key : goslice) : M st unit :=
  c ← go_load as_Iterator iter;
  rdb_iter_seek c (byteToChar key) (size_t (sl_len key)).

Definition Iterator_SeekForPrev (iter : ptr) (key : goslice) : M st unit :=
  c ← go_load as_Iterator iter;
  rdb_iter_seek_for_prev c (byteToChar key) (size_t (sl_len key)).

Definition Iterator_Err (iter : ptr) : M st error :=
  c ← go_load as_Iterator iter;
  cErr ← rdb_iter_get_error c Nil;
  take_error cErr.

Definition Iterator_Close (iter : ptr) : M st unit :=
  c ← go_load as_Iterator iter;
  rdb_iter_destroy c;;
  go_store iter (GIterator Nil).

(** ** snapshot.go *)

Definition NewNativeSnapshot (c cDb : ptr) : M st ptr := go_new (GSnapshot (mkSnapshot c cDb)).

Definition Snapshot_Release (s : ptr) : M st unit :=
  x ← go_load as_Snapshot s;
  rdb_release_snapshot (snap_cDb x) (snap_c x);;
  go_store s (GSnapshot (mkSnapshot Nil Nil)).

Definition DB_NewSnapshot (db : ptr) : M st ptr :=
  d ← go_load as_DB db;
  cSnap ← rdb_create_snapshot (db_c d);
  NewNativeSnapshot cSnap (db_c d).

(** ** checkpoint.go *)

Definition Checkpoint_Destroy (s : ptr) : M st unit :=
  x ← go_load as_Checkpoint s;
  rdb_destroy_checkpoint (ckpt_c x);;
  go_store s (GCheckpoint (mkCheckpoint Nil Nil)).

Definition DB_NewCheckpoint (db : ptr) : M st (ptr * error) :=
  d ← go_load as_DB db;
  '(cCheck, cErr) ← rdb_create_checkpoint (db_c d) Nil;
  if decide (cErr = Nil) then
    p ← go_new (GCheckpoint (mkCheckpoint cCheck (db_c d)));
    mret (p, None)
  else
    e ← take_error cErr; mret (Nil, e).

Definition Checkpoint_Save (s : ptr) (checkpointDir : bytes) : M st error :=
  cDir ← C_CString checkpointDir;
  x ← go_load as_Checkpoint s;
  cErr ← rdb_open_checkpoint (ckpt_c x) cDir Nil;
  e ← take_error cErr;
  c_free cDir;;
  mret e.

(** ** db.go *)

Definition OpenDb (opts : ptr) (name : bytes) : M st (ptr * error) :=
  cName ← C_CString name;
  o ← go_load as_Options opts;
  '(db, cErr) ← rdb_open (opts_c o) cName Nil;
  if decide (cErr = Nil) then
    p ← go_new (GDB (mkDB db name opts));
    c_free cName;;
    mret (p, None)
  else
    e ← take_error cErr;
    c_free cName;;
    mret (Nil, e).

Definition OpenDbForReadOnly (opts : ptr) (name : bytes) (errorIfLogFileExist : bool) :
    M st (ptr * error) :=
  cName ← C_CString name;
  o ← go_load as_Options opts;
  '(db, cErr) ← rdb_open_for_read_only (opts_c o) cName
                  (boolToChar errorIfLogFileExist) Nil;
  if decide (cErr = Nil) then
    p ← go_new (GDB (mkDB db name opts));
    c_free cName;;
    mret (p, None)
  else
    e ← take_error cErr;
    c_free cName;;
    mret (Nil, e).

Definition DB_Close (db : ptr) : M st unit :=
  d ← go_load as_DB db; rdb_close (db_c d).

Definition DB_Get (db opts : ptr) (key : goslice) : M st (ptr * error) :=
  let cKey := byteToChar key in
  d ← go_load as_DB db;
  o ← go_load as_ReadOptions opts;
  '(cValue, cValLen, cErr) ← rdb_get (db_c d) o cKey (size_t (sl_len key)) Nil;
  if decide (cErr = Nil) then
    s ← NewSlice cValue cValLen; mret (s, None)
  else
    e ← take_error cErr; mret (Nil, e).

(** The first result is the byte slice, [nilslice] for nil. *)
Definition DB_GetBytes (db opts : ptr) (key : goslice) : M st (goslice * error) :=
  let cKey := byteToChar key in
  d ← go_load as_DB db;
  o ← go_load as_ReadOptions opts;
  '(cValue, cValLen, cErr) ← rdb_get (db_c d) o cKey (size_t (sl_len key)) Nil;
  if decide (cErr = Nil) then
    if decide (cValue = Nil) then mret (nilslice, None) else
    b ← C_GoBytes cValue (wrap_s 32 cValLen);
    c_free cValue;;
    mret (b, None)
  else
    e ← take_error cErr; mret (nilslice, e).

Definition DB_Put (db opts : ptr) (key value : goslice) : M st error :=
  let cKey := byteToChar key in
  let cValue := byteToChar value in
  d ← go_load as_DB db;
  o ← go_load as_WriteOptions opts;
  cErr ← rdb_put (db_c d) o cKey (size_t (sl_len key)) cValue (size_t (sl_len value)) Nil;
  take_error cErr.

Definition DB_Delete (db opts : ptr) (key : goslice) : M st error :=
  let cKey := byteToChar key in
  d ← go_load as_DB db;
  o ← go_load as_WriteOptions opts;
  cErr ← rdb_delete (db_c d) o cKey (size_t (sl_len key)) Nil;
  take_error cErr.

Definition DB_Write (db opts batch : ptr) : M st error :=
  d ← go_load as_DB db;
  o ← go_load as_WriteOptions opts;
  b ← go_load as_WriteBatch batch;
  cErr ← rdb_write (db_c d) o b Nil;
  take_error cErr.

Definition DB_NewIterator (db opts : ptr) : M st ptr :=
  d ← go_load as_DB db;
  o ← go_load as_ReadOptions opts;
  cIter ← rdb_create_iterator (db_c d) o;
  NewNativeIterator cIter.

Definition DB_GetProperty (db : ptr) (propName : bytes) : M st bytes :=
  cprop ← C_CString propName;
  d ← go_load as_DB db;
  cValue ← rdb_property_value (db_c d) cprop;
  r ← C_GoString cValue;
  c_free cValue;;
  c_free cprop;;
  mret r.

Definition DB_GetStats (db : ptr) : M st bytes := DB_GetProperty db (bs "rocksdb.stats").
End rdb.
