(* ===== verification/RdbSpec.v ===== *)
(** * What the calls of package rdb do

    Equations for the operations of [Rdb.v]: the result and the whole final state,
    for any engine.  They need no law on RocksDB: the engine's answer is a premise.
    In particular the C strings a call allocates (the C copy of a name, the error
    message) are gone from the final C heap. *)

From S2P Require Import Prelude Rocks Memory Rdbc Rdb.

Section spec.
Context `{RocksDB, Libc}.

(** The Go error a status becomes. *)
Definition err_of (s : Status) : error :=
  if status_ok s then None else Some (c_str (status_ToString s)).

(** The state after the engine moved to [w]. *)
Definition with_world (w : World) (σ : st) : st := on_world (λ _, w) σ.

(** A [*DB] whose handle is the engine's [rep]; option objects likewise. *)
Definition db_at (σ : st) (db : ptr) (rep : handle) : Prop :=
  ∃ d, go_at σ db (GDB d) ∧ c_at σ (db_c d) (Crdb_t rep).
Definition ro_at (σ : st) (p : ptr) (ro : ReadOptionsRep) : Prop :=
  ∃ c, go_at σ p (GReadOptions c) ∧ c_at σ c (Crdb_readoptions_t ro).
Definition wo_at (σ : st) (p : ptr) (wo : WriteOptionsRep) : Prop :=
  ∃ c, go_at σ p (GWriteOptions c) ∧ c_at σ c (Crdb_writeoptions_t wo).
Definition wb_at (σ : st) (p : ptr) (b : WriteBatchRep) : Prop :=
  ∃ c, go_at σ p (GWriteBatch c) ∧ c_at σ c (Crdb_writebatch_t b).
Definition opts_at (σ : st) (p : ptr) (o : OptionsRep) : Prop :=
  ∃ x, go_at σ p (GOptions x) ∧ c_at σ (opts_c x) (Crdb_options_t o).
Definition iter_at (σ : st) (p : ptr) (it : handle) (gen : nat) : Prop :=
  ∃ c, go_at σ p (GIterator c) ∧ c_at σ c (Crdb_iterator_t it gen).

(** ** C strings *)

Lemma until_nul_app b c : NUL ∉ b → until_nul (b ++ NUL :: c) = Some b.
Proof.
  induction b as [|x b IH]; simpl; intros Hb.
  - done.
  - apply not_elem_of_cons in Hb as [? ?]. case_decide; [done|]. by rewrite IH.
Qed.

Lemma until_nul_Some b c : until_nul b = Some c → NUL ∉ c ∧ ∃ d, b = c ++ NUL :: d.
Proof.
  revert c; induction b as [|x b IH]; simpl; intros c; [done|].
  case_decide as Hx; intros E.
  - simplify_eq. split; [apply not_elem_of_nil|by exists b].
  - apply fmap_Some in E as (c' & E & ->). destruct (IH _ E) as (Hc & d & ->).
    split; [apply not_elem_of_cons; by split|by exists d].
Qed.

Lemma until_nul_None b : until_nul b = None → NUL ∉ b.
Proof.
  induction b as [|x b IH]; simpl; intros E; [apply not_elem_of_nil|].
  case_decide as Hx; [done|]. apply fmap_None in E. apply not_elem_of_cons.
  split; [by intros <-|auto].
Qed.

Lemma c_str_no_nul b : NUL ∉ c_str b.
Proof.
  unfold c_str. destruct (until_nul b) eqn:E; simpl.
  - by apply until_nul_Some in E as [? _].
  - by apply until_nul_None.
Qed.

Lemma c_str_id b : NUL ∉ b → c_str b = b.
Proof.
  intros Hb. unfold c_str. destruct (until_nul b) eqn:E; [|done]. simpl.
  apply until_nul_Some in E as (_ & d & ->). by apply not_elem_of_app in Hb as [_ []%not_elem_of_cons].
Qed.

(** What a C reader sees of the C string made from [b]: [b] up to its first NUL. *)
Lemma until_nul_terminated b : until_nul (b ++ [NUL]) = Some (c_str b).
Proof.
  unfold c_str. destruct (until_nul b) eqn:E; simpl.
  - apply until_nul_Some in E as (? & d & ->).
    rewrite <-app_assoc; simpl. by apply until_nul_app.
  - apply until_nul_None in E. by apply until_nul_app.
Qed.

(** ** Error strings *)

Lemma on_cheap_alloc_free l o σ :
  cheap σ !! l = None → on_cheap (delete l) (on_cheap <[l := o]> σ) = σ.
Proof. destruct σ as [h g w p]; unfold on_cheap; simpl. intros E. by rewrite delete_insert_id. Qed.

Lemma wp_c_string σ p b (Q : bytes → st → Prop) :
  c_at σ p (CBytes (b ++ [NUL])) → Q (c_str b) σ → wp (c_string p) σ Q.
Proof.
  intros Hp HQ. unfold c_string. destruct p; try done.
  apply wp_bind. eapply wp_c_load; [done|done|].
  eapply wp_of_option; [apply until_nul_terminated|done].
Qed.

Lemma wp_SaveError s σ (Q : bool * ptr → st → Prop) :
  (status_ok s = true → Q (false, Nil) σ) →
  (status_ok s = false → ∀ l, cheap σ !! l = None →
     Q (true, PC l) (on_cheap <[l := CBytes (c_str (status_ToString s) ++ [NUL])]> σ)) →
  wp (SaveError Nil s) σ Q.
Proof.
  intros Hok Herr. unfold SaveError. destruct (status_ok s).
  - by apply wp_ret, Hok.
  - rewrite decide_True by done. apply wp_bind, wp_c_new. intros l Hl. by apply wp_ret, Herr.
Qed.

Lemma wp_take_error σ l b (Q : error → st → Prop) :
  cheap σ !! l = Some (CBytes (b ++ [NUL])) →
  Q (Some (c_str b)) (on_cheap (delete l) σ) → wp (take_error (PC l)) σ Q.
Proof.
  intros Hl HQ. unfold take_error, C_GoString. rewrite !decide_False by done.
  apply wp_bind. eapply wp_c_string; [done|]. apply wp_bind.
  eapply wp_c_delete; [done|done|]. by apply wp_ret.
Qed.

Lemma c_str_idemp b : c_str (c_str b) = c_str b.
Proof. apply c_str_id, c_str_no_nul. Qed.

(** A status is turned into a Go error, and the C heap is as before. *)
Lemma wp_save_take s σ (Q : error → st → Prop) :
  Q (err_of s) σ →
  wp ('(_, e) ← SaveError Nil s; take_error e) σ Q.
Proof.
  intros HQ. apply wp_bind, wp_SaveError; unfold err_of in HQ.
  - intros E. rewrite E in HQ. done.
  - intros E l Hl. rewrite E in HQ. eapply wp_take_error; [apply lookup_insert_eq|].
    by rewrite on_cheap_alloc_free, c_str_idemp.
Qed.

(** The tail of [rdb_put], [rdb_delete] and [rdb_write], and of their Go callers. *)
Lemma wp_status_tail s σ (Q : error → st → Prop) :
  Q (err_of s) σ →
  wp (SaveError Nil s) σ (λ x σ', wp (let '(_, e) := x in mret e) σ' (λ e σ'',
    wp (take_error e) σ'' Q)).
Proof.
  intros HQ. pose proof (wp_save_take s σ Q HQ) as Hwp.
  unfold wp, mbind, M_bind in *. by destruct (SaveError Nil s σ) as [[? e] ?|].
Qed.

(** The same, when the caller goes on after the error is taken. *)
Lemma wp_status_tail_k {B} s σ (k : error → M st B) (Q : B → st → Prop) :
  wp (k (err_of s)) σ Q →
  wp (SaveError Nil s) σ (λ x σ', wp (let '(_, e) := x in mret e) σ' (λ e σ'',
    wp (take_error e ≫= k) σ'' Q)).
Proof.
  intros HQ. eapply wp_mono; [by apply (wp_status_tail s σ (λ e σ', wp (k e) σ' Q))|].
  intros x σ' Hx. eapply wp_mono; [exact Hx|]. intros e σ''. apply wp_bind.
Qed.

(** ** Arguments *)

Lemma size_t_len σ s b : slice_at σ s b → size_t (sl_len s) = blen b.
Proof.
  intros (-> & ? & _). unfold size_t, wrap_u. apply Z.mod_small.
  pose proof (blen_nonneg b). lia.
Qed.

Lemma wp_arg σ s b (Q : bytes → st → Prop) :
  slice_at σ s b → Q b σ → wp (mem_read (byteToChar s) (size_t (sl_len s))) σ Q.
Proof.
  intros Hs HQ. rewrite (size_t_len σ s b Hs). destruct Hs as (E & _ & Hat).
  apply wp_mem_read_at; [|done]. unfold byteToChar. intros Hb.
  rewrite E. destruct (Z.ltb_spec 0 (blen b)); [auto|].
  destruct Hb. apply blen_0. pose proof (blen_nonneg b). lia.
Qed.

End spec.

(** Splits binds and runs what an assumption determines: loads, the reads of the
    arguments, engine calls. *)
Ltac run_step :=
  lazymatch goal with
  | |- wp (mbind _ _) _ _ => apply wp_bind
  | |- wp (mret _) _ _ => apply wp_ret
  | |- wp (go_load _ _) _ _ => eapply wp_go_load; [eassumption|reflexivity|]
  | |- wp (c_load _ _) _ _ => eapply wp_c_load; [eassumption|reflexivity|]
  | |- wp (mem_read _ _) _ _ => eapply wp_arg; [eassumption|]
  | |- wp (engine _) _ _ => eapply wp_engine; [eassumption|]
  | |- wp (engine_get _) _ _ => apply wp_engine_get
  | |- wp (engine_ _) _ _ => apply wp_engine_
  end.
Ltac run := repeat (run_step; cbn beta iota).

Section operations.
Context `{RocksDB, Libc}.

(** ** Writes *)

Lemma DB_Put_spec σ db opts key value rep wo k v s w :
  db_at σ db rep → wo_at σ opts wo → slice_at σ key k → slice_at σ value v →
  rocks_DB_Put rep wo k v (world σ) = (s, w) →
  DB_Put db opts key value σ = Ret (err_of s) (with_world w σ).
Proof.
  intros (d & Hd & Hc) (o & Ho & Hw) Hk Hv E. apply wp_eq.
  unfold DB_Put, rdb_put. run. by apply wp_status_tail.
Qed.

Lemma DB_Delete_spec σ db opts key rep wo k s w :
  db_at σ db rep → wo_at σ opts wo → slice_at σ key k →
  rocks_DB_Delete rep wo k (world σ) = (s, w) →
  DB_Delete db opts key σ = Ret (err_of s) (with_world w σ).
Proof.
  intros (d & Hd & Hc) (o & Ho & Hw) Hk E. apply wp_eq.
  unfold DB_Delete, rdb_delete. run. by apply wp_status_tail.
Qed.

Lemma DB_Write_spec σ db opts batch rep wo b s w :
  db_at σ db rep → wo_at σ opts wo → wb_at σ batch b →
  rocks_DB_Write rep wo b (world σ) = (s, w) →
  DB_Write db opts batch σ = Ret (err_of s) (with_world w σ).
Proof.
  intros (d & Hd & Hc) (o & Ho & Hw) (c & Hb & Hcb) E. apply wp_eq.
  unfold DB_Write, rdb_write. run. by apply wp_status_tail.
Qed.
(** ** Reads *)

(** Where [rdb_get] puts the value it found: a block of its own, or no block at all
    for an empty value when [malloc(0)] is null. *)
Definition copied (v : bytes) (p : ptr) (σ σ' : st) : Prop :=
  (v = [] ∧ malloc0_null = true ∧ p = Nil ∧ σ' = σ) ∨
  (∃ l, p = PC l ∧ cheap σ !! l = None ∧ σ' = on_cheap <[l := CBytes v]> σ).

Lemma wp_CopyString v σ (Q : ptr → st → Prop) :
  (∀ p σ', copied v p σ σ' → Q p σ') → wp (CopyString v) σ Q.
Proof.
  intros HQ. unfold CopyString, malloc_copy.
  destruct (Z.eqb_spec (blen v) 0) as [E|E]; simpl; [destruct malloc0_null eqn:Em|].
  - apply wp_ret, HQ. left. apply blen_0 in E. done.
  - apply wp_c_new. intros l Hl. apply HQ. right. by exists l.
  - apply wp_c_new. intros l Hl. apply HQ. right. by exists l.
Qed.

(** The state after a [*Slice] is allocated at [l]. *)
Definition with_slice (l : loc) (x : Slice) (σ : st) : st := on_gheap <[l := GSlice x]> σ.

(** What [DB.Get] returns, by the engine's answer. *)
Definition get_result (s : Status) (v : bytes) (σ : st) (r : ptr * error) (σ' : st) : Prop :=
  if status_ok s then
    ∃ l p σ1, copied v p σ σ1 ∧ gheap σ !! l = None ∧
      r = (PG l, None) ∧ σ' = with_slice l (mkSlice p (blen v) false) σ1
  else if status_IsNotFound s then
    ∃ l, gheap σ !! l = None ∧
      r = (PG l, None) ∧ σ' = with_slice l (mkSlice Nil 0 false) σ
  else r = (Nil, err_of s) ∧ σ' = σ.

Lemma wp_DB_Get σ db opts key rep ro k s v w (Q : ptr * error → st → Prop) :
  db_at σ db rep → ro_at σ opts ro → slice_at σ key k →
  rocks_DB_Get rep ro k (world σ) = (s, v, w) →
  (∀ r σ', get_result s v (with_world w σ) r σ' → Q r σ') →
  wp (DB_Get db opts key) σ Q.
Proof.
  intros (d & Hd & Hc) (o & Ho & Hw) Hk E HQ. unfold get_result in HQ.
  unfold DB_Get, rdb_get. run. destruct (status_ok s) eqn:Hs.
  { apply wp_bind, wp_CopyString. intros p σ1 Hp. apply wp_ret. cbn beta iota.
    rewrite decide_True by done. apply wp_bind, wp_go_new. intros l Hl. apply wp_ret, HQ.
    exists l, p, σ1. split_and!; try done.
    destruct Hp as [(_&_&_&->)|(?&_&_&->)]; done. }
  destruct (status_IsNotFound s) eqn:Hn.
  { apply wp_ret. cbn beta iota. rewrite decide_True by done.
    apply wp_bind, wp_go_new. intros l Hl. apply wp_ret, HQ. by exists l. }
  apply wp_bind, wp_SaveError; [congruence|]. intros _ l Hl. apply wp_ret. cbn beta iota.
  rewrite decide_False by done. apply wp_bind. eapply wp_take_error; [apply lookup_insert_eq|].
  apply wp_ret, HQ. rewrite on_cheap_alloc_free by done.
  unfold err_of. by rewrite Hs, c_str_idemp.
Qed.
(** ** Opening *)

(** What opening returns: on success a [*DB] and the struct [rdb_t] it holds; on
    failure the error, and both heaps as they were. *)
Definition open_result (s : Status) (rep : handle) (name : bytes) (opts : ptr)
    (σ : st) (r : ptr * error) (σ' : st) : Prop :=
  if status_ok s then
    ∃ l lg, cheap σ !! l = None ∧ gheap σ !! lg = None ∧ r = (PG lg, None) ∧
      σ' = on_gheap <[lg := GDB (mkDB (PC l) name opts)]> (on_cheap <[l := Crdb_t rep]> σ)
  else r = (Nil, err_of s) ∧ σ' = σ.

(** The tail the two opening functions share, the C copy of the name being [n]. *)
Lemma wp_open_tail σ s rep name opts n nb (Q : ptr * error → st → Prop) :
  cheap σ !! n = None →
  (∀ r σ', open_result s rep name opts σ r σ' → Q r σ') →
  wp (SaveError Nil s) (on_cheap <[n := CBytes nb]> σ)
    (λ y σ0, wp (let '(failed, errptr) := y in
        if failed : bool then mret (Nil, errptr) else
        result ← c_new (Crdb_t rep); mret (result, errptr)) σ0
    (λ x σ', wp (let '(db, cErr) := x in
        if decide (cErr = Nil) then
          p ← go_new (GDB (mkDB db name opts)); c_free (PC n);; mret (p, None)
        else e ← take_error cErr; c_free (PC n);; mret (Nil, e)) σ' Q)).
Proof.
  intros Hn HQ. unfold open_result in HQ. apply wp_SaveError.
  - intros Hs. rewrite Hs in HQ. apply wp_bind, wp_c_new. intros l Hl. apply wp_ret.
    cbn beta iota. rewrite decide_True by done.
    simpl in Hl. apply lookup_insert_None in Hl as [Hl Hne].
    apply wp_bind, wp_go_new. intros lg Hlg. apply wp_bind.
    eapply wp_c_delete; [simpl; rewrite lookup_insert_ne by done; apply lookup_insert_eq|done|].
    apply wp_ret, HQ. exists l, lg. split_and!; try done.
    destruct σ as [h g w p]; unfold on_cheap, on_gheap; simpl in *.
    by rewrite delete_insert_ne, delete_insert_id by done.
  - intros Hs l Hl. rewrite Hs in HQ. apply wp_ret. cbn beta iota. rewrite decide_False by done.
    apply wp_bind. eapply wp_take_error; [apply lookup_insert_eq|].
    rewrite on_cheap_alloc_free by done.
    apply wp_bind. eapply wp_c_delete; [apply lookup_insert_eq|done|].
    rewrite on_cheap_alloc_free by done. apply wp_ret, HQ.
    unfold err_of. by rewrite Hs, c_str_idemp.
Qed.

Lemma c_at_alloc σ p o l o' :
  cheap σ !! l = None → c_at σ p o → c_at (on_cheap <[l := o']> σ) p o.
Proof. destruct p; try done. simpl. intros ??. rewrite lookup_insert_ne; congruence. Qed.

Lemma go_at_alloc σ p o l o' :
  gheap σ !! l = None → go_at σ p o → go_at (on_gheap <[l := o']> σ) p o.
Proof. destruct p; try done. simpl. intros ??. rewrite lookup_insert_ne; congruence. Qed.

Lemma wp_OpenDb σ opts name o s rep w (Q : ptr * error → st → Prop) :
  opts_at σ opts o →
  rocks_DB_Open o (c_str name) (world σ) = (s, rep, w) →
  (∀ r σ', open_result s rep name opts (with_world w σ) r σ' → Q r σ') →
  wp (OpenDb opts name) σ Q.
Proof.
  intros (x & Hx & Hc) E HQ. unfold OpenDb, C_CString, rdb_open.
  apply wp_bind, wp_c_new. intros n Hn. eapply (c_at_alloc _ _ _ n) in Hc; [|done].
  run. eapply wp_c_string; [apply lookup_insert_eq|]. run. by apply (wp_open_tail (with_world w σ)).
Qed.

Lemma wp_OpenDbForReadOnly σ opts name log o s rep w (Q : ptr * error → st → Prop) :
  opts_at σ opts o →
  rocks_DB_OpenForReadOnly o (c_str name) log (world σ) = (s, rep, w) →
  (∀ r σ', open_result s rep name opts (with_world w σ) r σ' → Q r σ') →
  wp (OpenDbForReadOnly opts name log) σ Q.
Proof.
  intros (x & Hx & Hc) E HQ. unfold OpenDbForReadOnly, C_CString, rdb_open_for_read_only.
  apply wp_bind, wp_c_new. intros n Hn. eapply (c_at_alloc _ _ _ n) in Hc; [|done].
  assert (negb (boolToChar log =? 0) = log) as Hlog by (by destruct log).
  run. eapply wp_c_string; [apply lookup_insert_eq|]. rewrite Hlog. run.
  by apply (wp_open_tail (with_world w σ)).
Qed.

(** ** Properties, batches, iterators, snapshots *)

(** [GetProperty] leaves no trace in either heap. *)
Lemma DB_GetProperty_spec σ db rep name :
  db_at σ db rep →
  DB_GetProperty db name σ =
    Ret (from_option c_str [] (rocks_DB_GetProperty rep (c_str name) (world σ))) σ.
Proof.
  intros (d & Hd & Hc). apply wp_eq. unfold DB_GetProperty, C_CString, rdb_property_value.
  apply wp_bind, wp_c_new. intros n Hn. eapply (c_at_alloc _ _ _ n) in Hc; [|done].
  run. eapply wp_c_string; [apply lookup_insert_eq|]. run. simpl.
  destruct (rocks_DB_GetProperty rep (c_str name) (world σ)) as [v|]; simpl.
  - unfold strdup. apply wp_c_new. intros l Hl. unfold C_GoString.
    rewrite decide_False by done. apply wp_bind.
    eapply wp_c_string; [apply lookup_insert_eq|]. apply wp_bind.
    eapply wp_c_delete; [apply lookup_insert_eq|done|]. rewrite on_cheap_alloc_free by done.
    apply wp_bind. eapply wp_c_delete; [apply lookup_insert_eq|done|].
    rewrite on_cheap_alloc_free by done. apply wp_ret. by rewrite c_str_idemp.
  - apply wp_ret. unfold C_GoString. rewrite decide_True by done. run.
    apply wp_c_delete_nil. run.
    eapply wp_c_delete; [apply lookup_insert_eq|done|]. by rewrite on_cheap_alloc_free.
Qed.
(** ** Filter policies of table options *)

(** The policy the options alone refer to. *)
Definition own_policy (t : BlockBasedTableOptionsRep) (shared : bool) : option loc :=
  if shared then None else filter_policy t.

Definition policy_live (σ : st) (t : BlockBasedTableOptionsRep) (shared : bool) : Prop :=
  ∀ l, own_policy t shared = Some l → ∃ p, cheap σ !! l = Some (Crdb_filterpolicy_t p).

(** The blocks deleted with it. *)
Definition policy_blocks (t : BlockBasedTableOptionsRep) (shared : bool) : nat :=
  from_option (λ _, 1%nat) 0%nat (own_policy t shared).

(** Only the policy [policy] may be gone from the C heap. *)
Definition drops_policy (policy : option loc) (σ σ' : st) : Prop :=
  gheap σ' = gheap σ ∧ world σ' = world σ ∧ filterPolicies σ' = filterPolicies σ ∧
  ∀ l o, cheap σ !! l = Some o → policy ≠ Some l → cheap σ' !! l = Some o.

Lemma wp_release_policy σ t shared (Q : unit → st → Prop) :
  policy_live σ t shared →
  (∀ σ', drops_policy (own_policy t shared) σ σ' →
     (size (cheap σ') + policy_blocks t shared = size (cheap σ))%nat → Q tt σ') →
  wp (release_policy (filter_policy t) shared) σ Q.
Proof.
  unfold policy_live, policy_blocks, own_policy. intros Hl HQ.
  assert (drops_policy None σ σ) as Hnil by (by split_and!).
  destruct shared.
  { destruct (filter_policy t); apply wp_ret, HQ; (done || apply Nat.add_0_r). }
  destruct (filter_policy t) as [l|]; [|apply wp_ret, HQ; (done || apply Nat.add_0_r)].
  destruct (Hl l eq_refl) as [p Hp]. eapply wp_c_delete; [exact Hp|done|]. apply HQ.
  - split_and!; [done..|]. intros l' o Hl' Ho. cbn. rewrite lookup_delete_ne; congruence.
  - cbn. rewrite Nat.add_1_r. by apply (size_delete_S _ _ _ Hp).
Qed.
End operations.
