(* ===== verification/FilterPolicy.v ===== *)
(** * Filter policies: the callbacks from C++ into Go

    rdb/filter_policy.go exports three functions that the class
    [rdb_filterpolicy_t] of rdb/rdbc.cc calls for a policy the user registered; the
    policy is found by its index in the package variable [filterPolicies]. *)

From S2P Require Import Prelude Rocks Memory Rdbc Rdb RdbSpec.

Section filter.
Context `{RocksDB, Libc}.

(** The three methods of a [FilterPolicy] value; those of [nativeFilterPolicy] are
    stubs. *)
Definition fp_CreateFilter (fp : FilterPolicy) (keys : list bytes) : bytes :=
  match fp with nativeFilterPolicy _ => [] | userFilterPolicy c _ _ => c keys end.
Definition fp_KeyMayMatch (fp : FilterPolicy) (key filter : bytes) : bool :=
  match fp with nativeFilterPolicy _ => false | userFilterPolicy _ m _ => m key filter end.
Definition fp_Name (fp : FilterPolicy) : bytes :=
  match fp with nativeFilterPolicy _ => [] | userFilterPolicy _ _ n => n end.

(** [filterPolicies[idx]]. *)
Definition policy_at (idx : Z) : M st FilterPolicy :=
  if idx <? 0 then raise PanicIndex else
  l ← gets filterPolicies; of_option PanicIndex (l !! Z.to_nat idx).

(** [charSlice] and [sizeSlice]: the first [len] cells of a C array. *)
Definition charSlice (data : list ptr) (len : Z) : list ptr := take (Z.to_nat len) data.
Definition sizeSlice (data : list Z) (len : Z) : list Z := take (Z.to_nat len) data.

(** The filter and [*cDstLen]. *)
Definition rdbc_filterpolicy_create_filter (idx : Z) (cKeys : list ptr) (cKeysLen : list Z)
    (cNumKeys : Z) : M st (ptr * Z) :=
  let rawKeys := charSlice cKeys cNumKeys in
  let keysLen := sizeSlice cKeysLen cNumKeys in
  keys ← mapM (λ '(raw, len), sl_read (charToByte raw len)) (zip rawKeys keysLen);
  fp ← policy_at idx;
  dst ← go_bytes (fp_CreateFilter fp keys);
  r ← cByteSlice dst;
  mret (r, size_t (sl_len dst)).

Definition rdbc_filterpolicy_key_may_match (idx : Z) (cKey : ptr) (cKeyLen : Z)
    (cFilter : ptr) (cFilterLen : Z) : M st Z :=
  key ← sl_read (charToByte cKey cKeyLen);
  filter ← sl_read (charToByte cFilter cFilterLen);
  fp ← policy_at idx;
  mret (boolToChar (fp_KeyMayMatch fp key filter)).

Definition rdbc_filterpolicy_name (idx : Z) : M st ptr :=
  fp ← policy_at idx; stringToChar (fp_Name fp).

(** [rdbc_filterpolicy_delete_filter] of rdbc.cc has an empty body. *)
Definition rdbc_filterpolicy_delete_filter (v : ptr) (s : Z) : M st unit := mret tt.

(** The methods of class [rdb_filterpolicy_t] and of its subclass [Wrapper], on the
    keys as C++ [Slice]s; [dst] is appended to. *)
Definition FilterPolicy_CreateFilter (p : ptr) (keys : list (ptr * Z)) (dst : bytes) :
    M st bytes :=
  fp ← c_load as_rdb_filterpolicy_t p;
  match fp with
  | FPCallback idx =>
      '(filter, len) ← rdbc_filterpolicy_create_filter idx keys.*1 keys.*2 (blen keys);
      f ← mem_read filter len;
      rdbc_filterpolicy_delete_filter filter len;;
      mret (dst ++ f)
  | FPWrapper rep =>
      ks ← mapM (λ '(k, len), mem_read k len) keys;
      mret (rocks_Bloom_CreateFilter rep ks dst)
  end.

Definition FilterPolicy_KeyMayMatch (p key : ptr) (klen : Z) (filter : ptr) (flen : Z) :
    M st bool :=
  fp ← c_load as_rdb_filterpolicy_t p;
  match fp with
  | FPCallback idx =>
      r ← rdbc_filterpolicy_key_may_match idx key klen filter flen;
      mret (negb (r =? 0))
  | FPWrapper rep =>
      k ← mem_read key klen;
      f ← mem_read filter flen;
      mret (rocks_Bloom_KeyMayMatch rep k f)
  end.

(** The engine reads the result as a C string. *)
Definition FilterPolicy_Name (p : ptr) : M st bytes :=
  fp ← c_load as_rdb_filterpolicy_t p;
  match fp with
  | FPCallback idx => n ← rdbc_filterpolicy_name idx; c_string n
  | FPWrapper rep => mret (rocks_Bloom_Name rep)
  end.
End filter.
