(* ===== verification/Strconv.v ===== *)
(** * Decimal numbers: the parts of fmt and strconv the program uses

    [itoa] prints an unsigned number in base 10, [fmt_0d w n] is [%0wd], and
    [ParseUint] is [strconv.ParseUint(s, 10, 64)]. *)

From S2P Require Import Prelude.

(** ** Printing *)

Definition digit (d : Z) : byte :=
  default "000"%byte (Byte.of_N (48 + Z.to_N d)).

(** The digits of [u], most significant first, before [acc]. *)
Fixpoint itoa_loop (fuel : nat) (u : Z) (acc : bytes) : bytes :=
  match fuel with
  | O => acc
  | S fuel =>
      if u <? 10 then digit u :: acc
      else itoa_loop fuel (u / 10) (digit (u mod 10) :: acc)
  end.

(** One round per bit is more than one per digit. *)
Definition itoa (u : Z) : bytes := itoa_loop (S (Z.to_nat (Z.log2 u))) u [].

(** [%0wd]: zeros between the sign and the digits, up to [w] bytes in all. *)
Definition fmt_0d (w : nat) (n : Z) : bytes :=
  let ds := itoa (Z.abs n) in
  if n <? 0
  then bs "-" ++ replicate (w - 1 - length ds) (digit 0) ++ ds
  else replicate (w - length ds) (digit 0) ++ ds.

(** ** Parsing *)

Variant num_error := ErrSyntax | ErrRange.

Definition maxUint64 : Z := 2 ^ 64 - 1.

(** [maxUint64/10 + 1]: the smallest number whose product with 10 overflows. *)
Definition cutoff : Z := maxUint64 / 10 + 1.

(** The value of a digit character; a letter is a digit of a larger base. *)
Definition digit_val (c : byte) : option Z :=
  let n := Z.of_N (Byte.to_N c) in
  if (48 <=? n) && (n <=? 57) then Some (n - 48) else None.

Fixpoint ParseUint_loop (s : bytes) (n : Z) : Z * option num_error :=
  match s with
  | [] => (n, None)
  | c :: s =>
      match digit_val c with
      | None => (0, Some ErrSyntax)
      | Some d =>
          if cutoff <=? n then (maxUint64, Some ErrRange)
          else
            let n := wrap_u 64 (n * 10) in
            let n1 := wrap_u 64 (n + d) in
            if (n1 <? n) || (maxUint64 <? n1) then (maxUint64, Some ErrRange)
            else ParseUint_loop s n1
      end
  end.

Definition ParseUint (s : bytes) : Z * option num_error :=
  if decide (s = []) then (0, Some ErrSyntax) else ParseUint_loop s 0.

(** ** Facts *)

(** The number a digit string denotes. *)
Fixpoint dec_value (ds : list Z) (acc : Z) : Z :=
  match ds with
  | [] => acc
  | d :: ds => dec_value ds (acc * 10 + d)
  end.

Lemma digit_val_digit d : 0 ≤ d < 10 → digit_val (digit d) = Some d.
Proof.
  intros Hd. assert (d ∈ seqZ 0 10) as Hin by (apply elem_of_seqZ; lia).
  revert d Hin Hd. apply (Forall_forall (λ d, 0 ≤ d < 10 → digit_val (digit d) = Some d)).
  repeat constructor.
Qed.

Lemma digit_inj d e : 0 ≤ d < 10 → 0 ≤ e < 10 → digit d = digit e → d = e.
Proof. intros Hd He E. apply digit_val_digit in Hd, He. rewrite E in Hd. congruence. Qed.

Lemma digit_to_N d : 0 ≤ d < 10 → Byte.to_N (digit d) = (48 + Z.to_N d)%N.
Proof.
  intros Hd. assert (d ∈ seqZ 0 10) as Hin by (apply elem_of_seqZ; lia).
  revert d Hin Hd.
  apply (Forall_forall (λ d, 0 ≤ d < 10 → Byte.to_N (digit d) = (48 + Z.to_N d)%N)).
  repeat constructor.
Qed.

(** [w] digits of [n], the low-order ones. *)
Fixpoint digits (w : nat) (n : Z) : list Z :=
  match w with
  | O => []
  | S w => digits w (n / 10) ++ [n mod 10]
  end.

Lemma length_digits w n : length (digits w n) = w.
Proof. revert n; induction w as [|w IH]; intros n; [done|]. simpl. by rewrite length_app, IH, Nat.add_1_r. Qed.

Lemma digits_range w n : Forall (λ d, 0 ≤ d < 10) (digits w n).
Proof.
  revert n; induction w as [|w IH]; intros n; [by constructor|]. cbn [digits].
  apply Forall_app; split; [done|]. apply Forall_singleton, Z.mod_pos_bound. lia.
Qed.

Lemma dec_value_app ds es a : dec_value (ds ++ es) a = dec_value es (dec_value ds a).
Proof. revert a; induction ds as [|d ds IH]; intros a; [done|]. simpl. apply IH. Qed.

Lemma dec_value_digits w n : 0 ≤ n < 10 ^ Z.of_nat w → dec_value (digits w n) 0 = n.
Proof.
  revert n; induction w as [|w IH]; intros n Hn; [simpl in *; lia|].
  cbn [digits]. rewrite dec_value_app, IH.
  - simpl. pose proof (Z.div_mod n 10). lia.
  - rewrite Nat2Z.inj_succ, Z.pow_succ_r in Hn by lia.
    split; [apply Z.div_pos; lia|apply Z.div_lt_upper_bound; lia].
Qed.

Lemma digits_div w v n : digits (w + v) n = digits w (n / 10 ^ Z.of_nat v) ++ digits v n.
Proof.
  revert n; induction v as [|v IH]; intros n.
  - rewrite Nat.add_0_r, Z.div_1_r. by rewrite app_nil_r.
  - rewrite Nat.add_succ_r. cbn [digits]. rewrite IH, <-app_assoc. do 2 f_equal.
    by rewrite Nat2Z.inj_succ, Z.pow_succ_r, Z.div_div by lia.
Qed.

Lemma digits_0 w : digits w 0 = replicate w 0.
Proof.
  induction w as [|w IH]; [done|]. cbn [digits]. rewrite Z.div_0_l, IH by lia.
  by rewrite replicate_S_end.
Qed.

(** [itoa] prints the digits without leading zeros, so padding it to [w] bytes gives
    the [w] low-order digits. *)
Lemma itoa_loop_digits fuel u acc :
  0 ≤ u → u < 2 ^ Z.of_nat fuel →
  ∃ w, itoa_loop fuel u acc = (digit <$> digits w u) ++ acc ∧
       u < 10 ^ Z.of_nat w ∧ (fuel ≠ O → w ≠ O) ∧
       (∀ v, u < 10 ^ Z.of_nat v → v ≠ O → (w ≤ v)%nat).
Proof.
  revert u acc; induction fuel as [|fuel IH]; intros u acc Hu Hlt.
  { exists O. split_and!; [done|simpl in *; lia|done|lia]. }
  cbn [itoa_loop]. destruct (Z.ltb_spec u 10) as [Hs|Hs].
  { exists 1%nat. split_and!; [|simpl; lia|done|lia].
    cbn [digits]. simpl. by rewrite Z.mod_small by lia. }
  rewrite Nat2Z.inj_succ, Z.pow_succ_r in Hlt by lia.
  assert (0 ≤ u / 10) by (apply Z.div_pos; lia).
  assert (1 ≤ u / 10) by (apply Z.div_le_lower_bound; lia).
  destruct (IH (u / 10) (digit (u mod 10) :: acc)) as (w & -> & Hw & _ & Hmin); [done| |].
  { apply Z.div_lt_upper_bound; lia. }
  exists (S w). split_and!; [| |done|].
  - cbn [digits]. by rewrite fmap_app, <-app_assoc.
  - rewrite Nat2Z.inj_succ, Z.pow_succ_r by lia. pose proof (Z.div_mod u 10).
    pose proof (Z.mod_pos_bound u 10). lia.
  - intros [|v] Hv Hne; [done|]. rewrite Nat2Z.inj_succ, Z.pow_succ_r in Hv by lia.
    assert (w ≤ v)%nat; [|lia]. apply Hmin.
    + apply Z.div_lt_upper_bound; lia.
    + intros ->. simpl in Hv. lia.
Qed.

Lemma itoa_spec u : 0 ≤ u →
  ∃ w, itoa u = digit <$> digits w u ∧ u < 10 ^ Z.of_nat w ∧ w ≠ O ∧
       (∀ v, u < 10 ^ Z.of_nat v → v ≠ O → (w ≤ v)%nat).
Proof.
  intros Hu. unfold itoa.
  destruct (itoa_loop_digits (S (Z.to_nat (Z.log2 u))) u []) as (w & E & ? & Hne & ?); [done| |].
  - rewrite Nat2Z.inj_succ, Z2Nat.id by apply Z.log2_nonneg.
    destruct (decide (u = 0)) as [->|]; [done|]. apply Z.log2_spec. lia.
  - exists w. rewrite app_nil_r in E. auto.
Qed.

(** [%0wd] of a number that fits prints exactly its [w] digits. *)
Lemma fmt_0d_digits w n :
  w ≠ O → 0 ≤ n < 10 ^ Z.of_nat w → fmt_0d w n = digit <$> digits w n.
Proof.
  intros Hw0 [Hn Hlt]. unfold fmt_0d. rewrite Z.abs_eq by done.
  assert (n <? 0 = false) as -> by (apply Z.ltb_ge; lia).
  destruct (itoa_spec n Hn) as (v & -> & Hv & Hv0 & Hmin).
  rewrite length_fmap, length_digits. pose proof (Hmin w Hlt Hw0).
  replace w with ((w - v) + v)%nat at 2 by lia.
  rewrite digits_div, Z.div_small, digits_0 by done.
  by rewrite fmap_app, fmap_replicate.
Qed.

(** A number too wide for the padding is printed in full. *)
Lemma fmt_0d_wide w n :
  10 ^ Z.of_nat w ≤ n → fmt_0d w n = itoa n ∧ (w < length (itoa n))%nat.
Proof.
  intros Hn. assert (0 < 10 ^ Z.of_nat w) by (apply Z.pow_pos_nonneg; lia).
  unfold fmt_0d. rewrite Z.abs_eq by lia.
  assert (n <? 0 = false) as -> by (apply Z.ltb_ge; lia).
  assert (w < length (itoa n))%nat as Hlen; [|by replace (w - _)%nat with O by lia].
  destruct (itoa_spec n) as (v & -> & Hv & _ & _); [lia|].
  rewrite length_fmap, length_digits. apply Nat.nle_gt. intros Hvw.
  assert (10 ^ Z.of_nat v ≤ 10 ^ Z.of_nat w) by (apply Z.pow_le_mono_r; lia). lia.
Qed.

(** ** Parsing what was printed *)

Lemma ParseUint_loop_digits ds n :
  Forall (λ d, 0 ≤ d < 10) ds → 0 ≤ n → n ≤ maxUint64 →
  ParseUint_loop (digit <$> ds) n =
    if dec_value ds n <=? maxUint64 then (dec_value ds n, None) else (maxUint64, Some ErrRange).
Proof.
  intros Hds. revert n. induction Hds as [|d ds Hd Hds IH]; intros n Hn Hmax.
  { simpl. by rewrite (proj2 (Z.leb_le _ _) Hmax). }
  assert (∀ a, 0 ≤ a → maxUint64 < a → maxUint64 < dec_value ds a) as Hbig.
  { clear -Hds. induction Hds; simpl; [done|]. intros. apply IHHds; lia. }
  rewrite fmap_cons. cbn [ParseUint_loop dec_value]. rewrite digit_val_digit by done.
  unfold cutoff, wrap_u. change (maxUint64 / 10 + 1) with 1844674407370955162.
  change maxUint64 with 18446744073709551615 in *. change (2 ^ 64) with 18446744073709551616.
  destruct (Z.leb_spec 1844674407370955162 n).
  { rewrite (proj2 (Z.leb_gt _ _)); [done|]. apply Hbig; lia. }
  rewrite (Z.mod_small (n * 10)) by lia.
  destruct (decide (n * 10 + d ≤ 18446744073709551615)) as [Hf|Hf].
  - rewrite Z.mod_small by lia.
    rewrite (proj2 (Z.ltb_ge (n * 10 + d) _)), (proj2 (Z.ltb_ge 18446744073709551615 _)) by lia.
    apply IH; lia.
  - rewrite (proj2 (Z.leb_gt _ _)); [|apply Hbig; lia].
    replace ((n * 10 + d) mod 18446744073709551616) with (n * 10 + d - 18446744073709551616)
      by (apply Z.mod_unique with 1; lia).
    by rewrite (proj2 (Z.ltb_lt _ _)) by lia.
Qed.

Lemma dec_value_itoa u w : 0 ≤ u → u < 10 ^ Z.of_nat w → dec_value (digits w u) 0 = u.
Proof. intros. by apply dec_value_digits. Qed.

(** Printing then parsing gives the number back, or the largest [uint64]. *)
Lemma ParseUint_itoa u :
  0 ≤ u →
  ParseUint (itoa u) = if u <=? maxUint64 then (u, None) else (maxUint64, Some ErrRange).
Proof.
  intros Hu. destruct (itoa_spec u Hu) as (w & -> & Hw & Hw0 & _).
  unfold ParseUint. rewrite decide_False.
  - rewrite ParseUint_loop_digits by (done || apply digits_range).
    by rewrite dec_value_digits.
  - destruct w; [done|]. intros E%fmap_nil_inv. cbn [digits] in E. by destruct (digits _ _).
Qed.

(** A decimal form has no NUL byte. *)
Lemma itoa_no_nul u : 0 ≤ u → "000"%byte ∉ itoa u.
Proof.
  intros Hu Hin. destruct (itoa_spec u Hu) as (w & E & _). rewrite E in Hin.
  apply list_elem_of_fmap in Hin as (d & Hd & Hin).
  pose proof (digits_range w u) as Hr. rewrite Forall_forall in Hr. specialize (Hr d Hin).
  pose proof (digit_to_N d Hr) as Hn. rewrite <-Hd in Hn. simpl in Hn. lia.
Qed.

Lemma digit_not_dash d : 0 ≤ d < 10 → digit d ≠ "-"%byte.
Proof.
  intros Hd E. pose proof (digit_to_N d Hd) as Hn. rewrite E in Hn. simpl in Hn. lia.
Qed.
