(* ===== verification/Store.v ===== *)
(** * The Go package store

    One definition per function or method of store/store.go.  A [*Store] is a
    pointer into the Go heap; assignments to its fields go through [upd_Store]. *)

From S2P Require Import Prelude Rocks Memory Rdbc Rdb Strconv.

Section store.
Context `{RocksDB, Libc}.

Definition upd_Store (s : ptr) (f : Store → Store) : M st unit :=
  x ← go_load as_Store s; go_store s (GStore (f x)).

Definition Store_setOpts (s : ptr) : M st unit :=
  opt ← NewDefaultOptions;
  upd_Store s (λ x, mkStore (s_db x) opt (s_blockopt x) (s_ropt x) (s_wopt x));;
  blockopt ← NewDefaultBlockBasedTableOptions;
  upd_Store s (λ x, mkStore (s_db x) (s_opt x) blockopt (s_ropt x) (s_wopt x));;
  x ← go_load as_Store s;
  Options_SetBlockBasedTableFactory (s_opt x) (s_blockopt x);;
  x ← go_load as_Store s;
  Options_SetCreateIfMissing (s_opt x) true;;
  fp ← NewBloomFilter 16;
  x ← go_load as_Store s;
  BlockBasedTableOptions_SetFilterPolicy (s_blockopt x) fp;;
  ropt ← NewDefaultReadOptions;
  upd_Store s (λ x, mkStore (s_db x) (s_opt x) (s_blockopt x) ropt (s_wopt x));;
  wopt ← NewDefaultWriteOptions;
  upd_Store s (λ x, mkStore (s_db x) (s_opt x) (s_blockopt x) (s_ropt x) wopt);;
  x ← go_load as_Store s;
  WriteOptions_SetSync (s_wopt x) false.

(** [s := &Store{}]. *)
Definition new_Store : M st ptr := go_new (GStore (mkStore Nil Nil Nil Nil Nil)).

(** [s.db, err = open(s.opt, ...); return s, err]. *)
Definition open_into (s : ptr) (open : ptr → M st (ptr * error)) : M st (ptr * error) :=
  x ← go_load as_Store s;
  '(db, err) ← open (s_opt x);
  upd_Store s (λ x, mkStore db (s_opt x) (s_blockopt x) (s_ropt x) (s_wopt x));;
  mret (s, err).

Definition NewStore (filepath : bytes) : M st (ptr * error) :=
  s ← new_Store;
  Store_setOpts s;;
  open_into s (λ opt, OpenDb opt filepath).

Definition NewSyncStore (filepath : bytes) : M st (ptr * error) :=
  s ← new_Store;
  Store_setOpts s;;
  x ← go_load as_Store s;
  WriteOptions_SetSync (s_wopt x) true;;
  open_into s (λ opt, OpenDb opt filepath).

Definition NewReadOnlyStore (filepath : bytes) : M st (ptr * error) :=
  s ← new_Store;
  Store_setOpts s;;
  open_into s (λ opt, OpenDbForReadOnly opt filepath false).

Definition Store_Get (s : ptr) (key : goslice) : M st (ptr * error) :=
  x ← go_load as_Store s;
  '(valSlice, err) ← DB_Get (s_db x) (s_ropt x) key;
  match err with
  | Some _ => mret (Nil, err)
  | None => mret (valSlice, None)
  end.

Definition Store_SetOne (s : ptr) (k val : goslice) : M st error :=
  x ← go_load as_Store s; DB_Put (s_db x) (s_wopt x) k val.

Definition Store_Delete (s : ptr) (k : goslice) : M st error :=
  x ← go_load as_Store s; DB_Delete (s_db x) (s_wopt x) k.

Definition Store_NewIterator (s : ptr) : M st ptr :=
  ro ← NewDefaultReadOptions;
  ReadOptions_SetFillCache ro false;;
  x ← go_load as_Store s;
  DB_NewIterator (s_db x) ro.

Definition Store_Close (s : ptr) : M st unit :=
  x ← go_load as_Store s; DB_Close (s_db x).

(** The error of [strconv.ParseUint] is dropped. *)
Definition Store_MemtableSize (s : ptr) : M st Z :=
  x ← go_load as_Store s;
  p ← DB_GetProperty (s_db x) (bs "rocksdb.cur-size-all-mem-tables");
  mret (ParseUint p).1.

Definition Store_IndexFilterblockSize (s : ptr) : M st Z :=
  x ← go_load as_Store s;
  p ← DB_GetProperty (s_db x) (bs "rocksdb.estimate-table-readers-mem");
  mret (ParseUint p).1.

Definition Store_NewWriteBatch (s : ptr) : M st ptr := NewWriteBatch.

Definition Store_WriteBatch (s wb : ptr) : M st error :=
  x ← go_load as_Store s; DB_Write (s_db x) (s_wopt x) wb.

Definition Store_NewCheckpoint (s : ptr) : M st (ptr * error) :=
  x ← go_load as_Store s; DB_NewCheckpoint (s_db x).

Definition Store_NewSnapshot (s : ptr) : M st ptr :=
  x ← go_load as_Store s; DB_NewSnapshot (s_db x).

Definition Store_SetSnapshot (s snapshot : ptr) : M st unit :=
  x ← go_load as_Store s; ReadOptions_SetSnapshot (s_ropt x) snapshot.

Definition Store_GetStats (s : ptr) : M st bytes :=
  x ← go_load as_Store s; DB_GetStats (s_db x).
End store.
