(* ===== verification/StoreSpec.v ===== *)
(** * The store refines a map with snapshots

    The abstract specification of package store is a finite map with a read view:
    [kv_step] says what each operation promises.  [run_op] performs the operation on
    the concrete store the way a client does (it builds Go slices, reads the data of
    a returned [Slice] and frees it).  [store_rep] relates the two states, and
    [run_ops_refines] shows that every sequence of operations returns the results of
    the specification, without a fault, and leaks nothing. *)

From S2P Require Import Prelude Rocks Memory Rdbc Rdb RdbSpec Strconv Store.

(** ** The specification *)

Record kvstate := KV {
  kv_live : gmap bytes bytes;             (* the current contents *)
  kv_read : option (gmap bytes bytes);    (* the snapshot reads go to, if one is set *)
  kv_snaps : list (gmap bytes bytes);     (* the snapshots taken, oldest first *)
}.

Definition kv_view (a : kvstate) : gmap bytes bytes := default (kv_live a) (kv_read a).

Inductive op :=
| OpGet (k : bytes)
| OpSet (k v : bytes)
| OpDelete (k : bytes)
| OpBatch (us : list update)
| OpNewSnapshot
| OpSetSnapshot (i : option nat).

(** A result: the bytes read, and the error. *)
Abbreviation result := (bytes * error)%type.

Definition kv_step (o : op) (a : kvstate) : result * kvstate :=
  match o with
  | OpGet k => (default [] (kv_view a !! k), None, a)
  | OpSet k v => ([], None, KV (<[k := v]> (kv_live a)) (kv_read a) (kv_snaps a))
  | OpDelete k => ([], None, KV (delete k (kv_live a)) (kv_read a) (kv_snaps a))
  | OpBatch us => ([], None, KV (apply_updates us (kv_live a)) (kv_read a) (kv_snaps a))
  | OpNewSnapshot => ([], None, KV (kv_live a) (kv_read a) (kv_snaps a ++ [kv_live a]))
  | OpSetSnapshot None => ([], None, KV (kv_live a) None (kv_snaps a))
  | OpSetSnapshot (Some i) =>
      match kv_snaps a !! i with
      | Some m => ([], None, KV (kv_live a) (Some m) (kv_snaps a))
      | None => ([], None, a)
      end
  end.

(** The updates of a write. *)
Definition op_updates (o : op) : option (list update) :=
  match o with
  | OpSet k v => Some [UPut k v]
  | OpDelete k => Some [UDelete k]
  | OpBatch us => Some us
  | _ => None
  end.

Fixpoint kv_run (os : list op) (a : kvstate) : list result * kvstate :=
  match os with
  | [] => ([], a)
  | o :: os =>
      let '(r, a) := kv_step o a in
      let '(rs, a) := kv_run os a in (r :: rs, a)
  end.

(** The blocks of the C heap an operation leaves to its caller. *)
Definition op_blocks (o : op) : nat := match o with OpNewSnapshot => 1 | _ => 0 end.

(** Every length is a Go [int]. *)
Definition len_ok (b : bytes) : Prop := blen b < 2 ^ 63.
Definition map_ok (m : gmap bytes bytes) : Prop := map_Forall (λ _ v, len_ok v) m.
Definition update_ok (u : update) : Prop :=
  match u with UPut k v => len_ok k ∧ len_ok v | UDelete k => len_ok k end.
Definition op_ok (o : op) : Prop :=
  match o with
  | OpGet k => len_ok k
  | OpSet k v => len_ok k ∧ len_ok v
  | OpDelete k => len_ok k
  | OpBatch us => Forall update_ok us
  | _ => True
  end.

Record kv_ok (a : kvstate) : Prop := {
  kv_ok_live : map_ok (kv_live a);
  kv_ok_read : from_option map_ok True (kv_read a);
  kv_ok_snaps : Forall map_ok (kv_snaps a);
}.

Section client.
Context `{RocksDB, Libc}.

(** ** The client *)

(** [s.Get(k)], the bytes of the result, and its [Free]. *)
Definition client_get (s : ptr) (k : bytes) : M st result :=
  key ← go_bytes k;
  '(valSlice, err) ← Store_Get s key;
  match err with
  | Some _ => mret ([], err)
  | None =>
      d ← Slice_Data valSlice;
      b ← sl_read d;
      Slice_Free valSlice;;
      mret (b, None)
  end.

Definition client_set (s : ptr) (k v : bytes) : M st result :=
  key ← go_bytes k; val ← go_bytes v;
  e ← Store_SetOne s key val; mret ([], e).

Definition client_delete (s : ptr) (k : bytes) : M st result :=
  key ← go_bytes k; e ← Store_Delete s key; mret ([], e).

Definition batch_update (wb : ptr) (u : update) : M st unit :=
  match u with
  | UPut k v => key ← go_bytes k; val ← go_bytes v; WriteBatch_Put wb key val
  | UDelete k => key ← go_bytes k; WriteBatch_Delete wb key
  end.

Fixpoint batch_updates (wb : ptr) (us : list update) : M st unit :=
  match us with
  | [] => mret tt
  | u :: us => batch_update wb u;; batch_updates wb us
  end.

Definition client_batch (s : ptr) (us : list update) : M st result :=
  wb ← Store_NewWriteBatch s;
  batch_updates wb us;;
  e ← Store_WriteBatch s wb;
  WriteBatch_Destroy wb;;
  mret ([], e).

(** The operations, with the snapshots taken so far. *)
Definition run_op (s : ptr) (sp : list ptr) (o : op) : M st (result * list ptr) :=
  match o with
  | OpGet k => r ← client_get s k; mret (r, sp)
  | OpSet k v => r ← client_set s k v; mret (r, sp)
  | OpDelete k => r ← client_delete s k; mret (r, sp)
  | OpBatch us => r ← client_batch s us; mret (r, sp)
  | OpNewSnapshot => p ← Store_NewSnapshot s; mret ([], None, sp ++ [p])
  | OpSetSnapshot None => Store_SetSnapshot s Nil;; mret ([], None, sp)
  | OpSetSnapshot (Some i) =>
      match sp !! i with
      | Some p => Store_SetSnapshot s p;; mret ([], None, sp)
      | None => mret ([], None, sp)
      end
  end.

Fixpoint run_ops (s : ptr) (sp : list ptr) (os : list op) : M st (list result * list ptr) :=
  match os with
  | [] => mret ([], sp)
  | o :: os =>
      '(r, sp) ← run_op s sp o;
      '(rs, sp) ← run_ops s sp os;
      mret (r :: rs, sp)
  end.
End client.

Section representation.
Context `{RocksView, Libc}.

(** ** The representation relation *)

Definition view_rep (w : World) (h : handle) (ro : ReadOptionsRep)
    (view : option (gmap bytes bytes)) : Prop :=
  match view with
  | None => ro_snapshot ro = None
  | Some m => ∃ sn, ro_snapshot ro = Some sn ∧ snapshot_of w h sn = Some m
  end.

Definition snap_at (σ : st) (h : handle) (p : ptr) (m : gmap bytes bytes) : Prop :=
  ∃ y sn, go_at σ p (GSnapshot y) ∧ c_at σ (snap_c y) (Crdb_snapshot_t sn) ∧
          snapshot_of (world σ) h sn = Some m.

Record store_mem (σ : st) (s : ptr) (h : handle) (sp : list ptr) (a : kvstate)
    (x : Store) (ro : ReadOptionsRep) (wo : WriteOptionsRep) : Prop := {
  sm_store : go_at σ s (GStore x);
  sm_db : db_at σ (s_db x) h;
  sm_ro : ro_at σ (s_ropt x) ro;
  sm_wo : wo_at σ (s_wopt x) wo;
  sm_view : view_rep (world σ) h ro (kv_read a);
  sm_snaps : Forall2 (snap_at σ h) sp (kv_snaps a);
}.

(** An open store: for reading and writing ([rw]), or for reading only. *)
Record store_open (rw : bool) (σ : st) (s : ptr) (h : handle) (sp : list ptr)
    (a : kvstate) : Prop := {
  sr_faultless : faultless (world σ);
  sr_contents : contents (world σ) h = Some (kv_live a);
  sr_writable : writable (world σ) h = rw;
  sr_ok : kv_ok a;
  sr_mem : ∃ x ro wo, store_mem σ s h sp a x ro wo;
}.
End representation.

Abbreviation store_rep := (store_open true).

Section refinement.
Context `{RocksLaws, Libc}.

(** ** Growing heaps *)

Definition grows (σ σ' : st) : Prop := cheap σ ⊆ cheap σ' ∧ gheap σ ⊆ gheap σ'.

Lemma grows_refl σ : grows σ σ.
Proof. by split. Qed.

Lemma grows_trans σ1 σ2 σ3 : grows σ1 σ2 → grows σ2 σ3 → grows σ1 σ3.
Proof. intros [??] [??]. split; by etrans. Qed.

Lemma grows_c σ l o : cheap σ !! l = None → grows σ (on_cheap <[l := o]> σ).
Proof. intros. split; [by apply insert_subseteq|done]. Qed.

Lemma grows_go σ l o : gheap σ !! l = None → grows σ (on_gheap <[l := o]> σ).
Proof. intros. split; [done|by apply insert_subseteq]. Qed.

Lemma grows_world σ w : grows σ (with_world w σ).
Proof. by split. Qed.

Lemma c_at_grows σ σ' p o : grows σ σ' → c_at σ p o → c_at σ' p o.
Proof. intros [Hc _]. destruct p; try done. simpl. intros ?. by eapply lookup_weaken. Qed.

Lemma go_at_grows σ σ' p o : grows σ σ' → go_at σ p o → go_at σ' p o.
Proof. intros [_ Hg]. destruct p; try done. simpl. intros ?. by eapply lookup_weaken. Qed.

Lemma db_at_grows σ σ' p r : grows σ σ' → db_at σ p r → db_at σ' p r.
Proof. intros ? (x&?&?). exists x; split; [by eapply go_at_grows|by eapply c_at_grows]. Qed.
Lemma ro_at_grows σ σ' p r : grows σ σ' → ro_at σ p r → ro_at σ' p r.
Proof. intros ? (x&?&?). exists x; split; [by eapply go_at_grows|by eapply c_at_grows]. Qed.
Lemma wo_at_grows σ σ' p r : grows σ σ' → wo_at σ p r → wo_at σ' p r.
Proof. intros ? (x&?&?). exists x; split; [by eapply go_at_grows|by eapply c_at_grows]. Qed.

#[local] Hint Resolve grows_refl grows_c grows_go grows_world db_at_grows ro_at_grows
  wo_at_grows go_at_grows c_at_grows : core.

Lemma view_rep_stable hs w w' h ro view :
  stable hs w w' → view_rep w h ro view → view_rep w' h ro view.
Proof.
  intros Hst. destruct view as [m|]; [|done]. intros (sn & ? & Hsn). exists sn.
  split; [done|]. by eapply stable_snapshot.
Qed.

Lemma snap_at_grows hs σ σ' h p m :
  grows σ σ' → stable hs (world σ) (world σ') → snap_at σ h p m → snap_at σ' h p m.
Proof.
  intros Hg Hst (y & sn & ? & ? & ?). exists y, sn. split_and!; eauto.
  by eapply stable_snapshot.
Qed.

(** An operation that only allocates, and that changes the contents of the store's
    database to [m], keeps the relation. *)
(** The cells a store is made of, in the C heap and in the Go heap. *)
Definition store_cell (o : cobj) : bool :=
  match o with
  | Crdb_t _ | Crdb_readoptions_t _ | Crdb_writeoptions_t _ | Crdb_snapshot_t _ => true
  | _ => false
  end.
Definition store_obj (o : gobj) : bool :=
  match o with
  | GStore _ | GDB _ | GReadOptions _ | GWriteOptions _ | GSnapshot _ => true
  | _ => false
  end.

(** The relation depends on these cells only, and on what [stable] keeps. *)
Lemma store_rep_keep {rw} σ σ' s h sp a :
  store_open rw σ s h sp a →
  (∀ l o, cheap σ !! l = Some o → store_cell o = true → cheap σ' !! l = Some o) →
  (∀ l o, gheap σ !! l = Some o → store_obj o = true → gheap σ' !! l = Some o) →
  stable [] (world σ) (world σ') → store_open rw σ' s h sp a.
Proof.
  intros [Hf Hc Hw Hok (x & ro & wo & [Hx Hdb Hro Hwo Hv Hs])] Hch Hgh Hst.
  assert (∀ p o, c_at σ p o → store_cell o = true → c_at σ' p o) as Hca
    by (intros [] o; simpl; auto).
  assert (∀ p o, go_at σ p o → store_obj o = true → go_at σ' p o) as Hgo
    by (intros [] o; simpl; auto).
  split; simpl; try done.
  - by eapply stable_faultless.
  - rewrite (stable_contents _ _ _ Hst); [done|set_solver].
  - by rewrite (stable_writable _ _ _ Hst) by (by rewrite Hc).
  - destruct Hdb as (d & ? & ?), Hro as (r & ? & ?), Hwo as (y & ? & ?).
    exists x, ro, wo. split; simpl.
    + by apply Hgo.
    + exists d. auto.
    + exists r. auto.
    + exists y. auto.
    + by eapply view_rep_stable.
    + eapply Forall2_impl; [done|]. intros p m (z & sn & ? & ? & ?). exists z, sn.
      split_and!; auto. by eapply stable_snapshot.
Qed.

Lemma store_rep_grows {rw} σ σ' s h sp a m :
  store_open rw σ s h sp a → grows σ σ' → stable [h] (world σ) (world σ') →
  contents (world σ') h = Some m → map_ok m →
  store_open rw σ' s h sp (KV m (kv_read a) (kv_snaps a)).
Proof.
  intros [Hf Hc Hw [? Hr Hs] (x & ro & wo & [])] Hg Hst Hm Hok. split.
  - by eapply stable_faultless.
  - done.
  - rewrite (stable_writable _ _ _ Hst); [done|by rewrite Hc].
  - by split.
  - exists x, ro, wo. split; eauto using view_rep_stable. simpl.
    eapply Forall2_impl; [done|]. intros. by eapply snap_at_grows.
Qed.

Lemma kv_eta a : KV (kv_live a) (kv_read a) (kv_snaps a) = a.
Proof. by destruct a. Qed.

Lemma store_rep_read {rw} σ σ' s h sp a :
  store_open rw σ s h sp a → grows σ σ' → stable [] (world σ) (world σ') →
  store_open rw σ' s h sp a.
Proof.
  intros Hr Hg Hst. rewrite <-(kv_eta a). eapply store_rep_grows; try done.
  - eapply stable_weaken; [|done]. set_solver.
  - rewrite (stable_contents _ _ _ Hst); [by eapply sr_contents|set_solver].
  - apply Hr.
Qed.

Lemma store_rep_same_world {rw} σ σ' s h sp a :
  store_open rw σ s h sp a → grows σ σ' → world σ' = world σ → store_open rw σ' s h sp a.
Proof. intros ? ? Hw. eapply store_rep_read; [done|done|]. rewrite Hw. apply stable_refl. Qed.

(** ** Slices a client makes *)

Lemma wp_go_bytes σ b (Q : goslice → st → Prop) :
  len_ok b →
  (∀ sl σ', slice_at σ' sl b → grows σ σ' → cheap σ' = cheap σ → world σ' = world σ →
     Q sl σ') →
  wp (go_bytes b) σ Q.
Proof.
  intros Hb HQ. apply wp_bind, wp_go_new. intros l Hl. apply wp_ret, HQ; auto.
  split_and!; [done|done|]. intros _. exists b. split; [|by rewrite firstn_all].
  left. apply lookup_insert_eq.
Qed.

Lemma slice_at_grows σ σ' sl b : grows σ σ' → slice_at σ sl b → slice_at σ' sl b.
Proof.
  intros Hg (?&?&Hat). split_and!; [done..|]. intros Hb.
  destruct (Hat Hb) as (a & [?|?] & ?); exists a; eauto.
Qed.

(** ** Each operation *)

Lemma map_ok_insert m k v : map_ok m → len_ok v → map_ok (<[k := v]> m).
Proof. intros. by apply map_Forall_insert_2. Qed.

Lemma map_ok_delete m k : map_ok m → map_ok (delete k m).
Proof. intros. by apply map_Forall_delete. Qed.

Lemma map_ok_updates us m : Forall update_ok us → map_ok m → map_ok (apply_updates us m).
Proof.
  intros Hus. revert m. induction Hus as [|u us Hu _ IH]; intros m Hm; [done|].
  apply IH. destruct u; simpl in *; [apply map_ok_insert|apply map_ok_delete]; naive_solver.
Qed.

Lemma wrap_s_small v : len_ok v → wrap_s 64 (blen v) = blen v.
Proof.
  unfold len_ok, wrap_s. intros. pose proof (blen_nonneg v). change (64 - 1) with 63.
  rewrite Z.mod_small by lia. lia.
Qed.

(** What [Get] leaves for a value [v]: a copy, unless it is empty, and the [*Slice] at
    [l] that shows it. *)
Definition got (σ : st) (v : bytes) (l : loc) (σ' : st) : Prop :=
  ∃ p σ1,
    ((v = [] ∧ p = Nil ∧ σ1 = σ) ∨
     (∃ lc, p = PC lc ∧ cheap σ !! lc = None ∧ σ1 = on_cheap <[lc := CBytes v]> σ)) ∧
    gheap σ1 !! l = None ∧ σ' = with_slice l (mkSlice p (blen v) false) σ1.

Lemma got_grows σ v l σ' : got σ v l σ' → grows σ σ' ∧ world σ' = world σ.
Proof.
  intros (p & σ1 & Hcp & Hl & ->). split; [|by destruct Hcp as [(_&_&->)|(?&_&_&->)]].
  destruct Hcp as [(_&_&->)|(lc&_&?&->)]; split; simpl in *; try done; by apply insert_subseteq.
Qed.

Lemma got_size σ v l σ' :
  v ≠ [] → got σ v l σ' → size (cheap σ') = S (size (cheap σ)).
Proof.
  intros Hne (p & σ1 & [(->&_&->)|(lc&_&Hlc&->)] & _ & ->); [done|]. simpl.
  by rewrite map_size_insert_None.
Qed.

(** The bytes of the slice. *)
Lemma got_read σ v l σ' :
  len_ok v → got σ v l σ' →
  ∃ p, go_at σ' (PG l) (GSlice (mkSlice p (blen v) false)) ∧
    Slice_Data (PG l) σ' = Ret (Sl p (blen v) (blen v)) σ' ∧ mem_read p (blen v) σ' = Ret v σ'.
Proof.
  intros Hv (p & σ1 & Hcp & Hl & ->). exists p. set (σ2 := with_slice _ _ _).
  assert (go_at σ2 (PG l) (GSlice (mkSlice p (blen v) false))) as Hs by apply lookup_insert_eq.
  split; [done|]. split.
  - unfold Slice_Data. erewrite bind_ret; [|by eapply go_at_load].
    unfold charToByte. cbn [slice_data slice_size]. by rewrite wrap_s_small.
  - apply mem_read_at. intros Hne. exists v. split; [right|by rewrite firstn_all].
    destruct Hcp as [(?&_&_)|(lc&->&?&->)]; [done|]. apply lookup_insert_eq.
Qed.

(** The client's reads of a slice that [Get] returned: the bytes of the value, after
    which the block is gone and only a Go struct is left. *)
Lemma wp_use_slice σ σ1 v l (Q : result → st → Prop) :
  len_ok v → got σ v l σ1 →
  (∀ σ', grows σ σ' → cheap σ' = cheap σ → world σ' = world σ → Q (v, None) σ') →
  wp (d ← Slice_Data (PG l); b ← sl_read d; Slice_Free (PG l);; mret (b, None)) σ1 Q.
Proof.
  intros Hv Hgot HQ. destruct (got_read _ _ _ _ Hv Hgot) as (p & Hs & Ed & Er).
  apply wp_bind. unfold wp at 1. rewrite Ed. apply wp_bind. unfold sl_read, wp at 1. cbn [sl_ptr sl_len].
  rewrite Er. clear Ed Er. destruct Hgot as (p' & σ2 & Hcp & Hl & ->).
  unfold Slice_Free. do 2 apply wp_bind. eapply wp_go_load; [done|done|].
  assert (p' = p) as -> by (cbn in Hs; rewrite lookup_insert_eq in Hs; congruence).
  cbn [slice_freed negb slice_data]. apply wp_bind.
  destruct Hcp as [(->&->&->)|(lc&->&Hlc&->)].
  - apply wp_c_delete_nil. eapply wp_go_store; [apply lookup_insert_eq|]. apply wp_ret, HQ; try done.
    split; [done|]. simpl. rewrite insert_insert_eq. by apply insert_subseteq.
  - eapply wp_c_delete; [apply lookup_insert_eq|done|]. eapply wp_go_store; [apply lookup_insert_eq|].
    apply wp_ret, HQ; simpl.
    + split; simpl; [by rewrite delete_insert_id|]. rewrite insert_insert_eq.
      by apply insert_subseteq.
    + by rewrite delete_insert_id.
    + done.
Qed.

Lemma read_view_rep w h ro a :
  contents w h = Some (kv_live a) → view_rep w h ro (kv_read a) →
  read_view w h ro = Some (kv_view a).
Proof.
  intros Hc Hv. unfold read_view, kv_view, view_rep in *. destruct (kv_read a) as [m|]; simpl.
  - by destruct Hv as (sn & -> & ?).
  - by rewrite Hv.
Qed.

Lemma kv_view_ok a : kv_ok a → map_ok (kv_view a).
Proof. intros [? Hr _]. unfold kv_view. by destruct (kv_read a). Qed.

(** The directories are as they were. *)
Definition same_disk (σ σ' : st) : Prop :=
  ∀ d, on_disk (world σ') d = on_disk (world σ) d.

(** [Get], on a slice that shows [k]. *)
Lemma wp_Store_Get {rw} σ s h sp a key k (Q : ptr * error → st → Prop) :
  store_open rw σ s h sp a → slice_at σ key k →
  (∀ l w σ', let v := default [] (kv_view a !! k) in
     store_open rw (with_world w σ) s h sp a → same_disk σ (with_world w σ) →
     len_ok v → got (with_world w σ) v l σ' → Q (PG l, None) σ') →
  wp (Store_Get s key) σ Q.
Proof.
  intros Hr Hkey HQ. pose proof Hr as [Hf Hc _ Hok (x & ro & wo & [Hx Hdb Hro _ Hv _])].
  destruct (law_get (world σ) h ro k (kv_view a)) as (st0 & v & w & E & Hst & Hdk & _ & Hres);
    [done|by rewrite Hc|by apply read_view_rep|].
  unfold Store_Get. apply wp_bind. eapply wp_go_load; [done|done|].
  apply wp_bind. eapply wp_DB_Get; [done..|]. intros r σ2 Hget. unfold get_result in Hget.
  assert (store_open rw (with_world w σ) s h sp a) as Hr2
    by (eapply store_rep_read; [done|apply grows_world|done]).
  destruct (kv_view a !! k) as [v'|] eqn:Ek; [destruct Hres as [Hs ->]|destruct Hres as [Hs Hn]];
    cbn [default] in HQ.
  - rewrite Hs in Hget. destruct Hget as (l & p & σ3 & Hcp & Hl & -> & ->). apply wp_ret.
    apply (HQ l w); [done|done|by eapply (kv_view_ok a)|]. exists p, σ3.
    destruct Hcp as [(?&_&?&->)|(lc&?&?&->)]; (split; [|by split]); [by left|right].
    by exists lc.
  - rewrite Hs, Hn in Hget. destruct Hget as (l & Hl & -> & ->). apply wp_ret.
    apply (HQ l w); [done|done|done|]. exists Nil, (with_world w σ). by split; [left|].
Qed.

Lemma wp_client_get {rw} σ s h sp a k (Q : result → st → Prop) :
  store_open rw σ s h sp a → len_ok k →
  (∀ σ', store_open rw σ' s h sp a → cheap σ' = cheap σ → same_disk σ σ' →
     Q (default [] (kv_view a !! k), None) σ') →
  wp (client_get s k) σ Q.
Proof.
  intros Hr Hk HQ. apply wp_bind, wp_go_bytes; [done|]. intros key σ1 Hkey Hg1 Hc1 Hw1.
  apply wp_bind. eapply wp_Store_Get; [by eapply store_rep_same_world|exact Hkey|].
  intros l w σ2 v Hr2 Hd Hv Hgot. eapply wp_use_slice; [done|exact Hgot|].
  intros σ' Hg' Hc' Hw'. apply HQ; [|by rewrite Hc'|intros d; rewrite Hw', <-Hw1; apply Hd].
  by eapply store_rep_same_world.
Qed.

(** A successful write, seen through the relation. *)
Lemma store_rep_wrote σ σ' s h sp a us r :
  store_rep σ s h sp a → Forall update_ok us → wrote h (kv_live a) us (world σ) r →
  grows σ σ' → world σ' = r.2 →
  err_of r.1 = None ∧ same_disk σ σ' ∧
  store_rep σ' s h sp (KV (apply_updates us (kv_live a)) (kv_read a) (kv_snaps a)).
Proof.
  intros Hr Hus (Hs & Hst & Hc & Hd & _) Hg Hw. split; [unfold err_of; by rewrite Hs|].
  split; [intros d; by rewrite Hw|].
  eapply store_rep_grows; [done|done|by rewrite Hw|by rewrite Hw|].
  apply map_ok_updates; [done|]. apply Hr.
Qed.

(** What a write asks of the engine, and the engine's answer. *)
Definition engine_writes (h : handle) (us : list update) (w : World) (r : Status * World) : Prop :=
  (∃ wo k v, us = [UPut k v] ∧ r = rocks_DB_Put h wo k v w) ∨
  (∃ wo k, us = [UDelete k] ∧ r = rocks_DB_Delete h wo k w) ∨
  (∃ wo b, us = wb_updates b ∧ r = rocks_DB_Write h wo b w).

(** The client has nothing else from a write but Go memory. *)
Definition only_wrote (r : Status * World) (σ σ' : st) : Prop :=
  grows σ σ' ∧ cheap σ' = cheap σ ∧ world σ' = r.2.

Lemma engine_writes_ok σ σ' s h sp a us r :
  store_rep σ s h sp a → Forall update_ok us → engine_writes h us (world σ) r →
  only_wrote r σ σ' →
  err_of r.1 = None ∧ same_disk σ σ' ∧
  store_rep σ' s h sp (KV (apply_updates us (kv_live a)) (kv_read a) (kv_snaps a)).
Proof.
  intros Hr Hus Hwr (Hg & _ & Hw). eapply store_rep_wrote; try done.
  destruct Hr as [Hf Hc Hrw _ _].
  destruct Hwr as [(wo & k & v & -> & ->)|[(wo & k & -> & ->)|(wo & b & -> & ->)]];
    [by apply law_put|by apply law_delete|by apply law_write].
Qed.

(** A store that is open for reading refuses. *)
Lemma engine_writes_refused σ σ' s h sp a us r :
  store_open false σ s h sp a → engine_writes h us (world σ) r → only_wrote r σ σ' →
  is_Some (err_of r.1) ∧ store_open false σ' s h sp a.
Proof.
  intros Hr Hwr (Hg & _ & Hw). pose proof Hr as [Hf Hc Hrw _ _].
  assert (refused (world σ) r) as [Hs Hst].
  { destruct Hwr as [(wo & k & v & -> & ->)|[(wo & k & -> & ->)|(wo & b & -> & ->)]];
      destruct (law_read_only (world σ) h wo (kv_live a)) as (? & ? & ?); auto. }
  unfold err_of. rewrite Hs. split; [done|]. eapply store_rep_read; [done|done|by rewrite Hw].
Qed.

(** [SetOne], on slices that show [k] and [v]. *)
Lemma wp_SetOne {rw} σ s h sp a key val k v (Q : error → st → Prop) :
  store_open rw σ s h sp a → slice_at σ key k → slice_at σ val v →
  (∀ r, engine_writes h [UPut k v] (world σ) r → Q (err_of r.1) (with_world r.2 σ)) →
  wp (Store_SetOne s key val) σ Q.
Proof.
  intros [_ _ _ _ (x & ro & wo & [Hx Hdb _ Hwo _ _])] Hkey Hval HQ.
  destruct (rocks_DB_Put h wo k v (world σ)) as [st0 w] eqn:E.
  unfold Store_SetOne. apply wp_bind. eapply wp_go_load; [done|done|].
  unfold wp. erewrite DB_Put_spec by done. apply (HQ (st0, w)). left. by exists wo, k, v.
Qed.

Lemma wp_client_set {rw} σ s h sp a k v (Q : result → st → Prop) :
  store_open rw σ s h sp a → len_ok k → len_ok v →
  (∀ σ' r, engine_writes h [UPut k v] (world σ) r → only_wrote r σ σ' → Q ([], err_of r.1) σ') →
  wp (client_set s k v) σ Q.
Proof.
  intros Hr Hk Hv HQ. apply wp_bind, wp_go_bytes; [done|]. intros key σ1 Hkey Hg1 Hc1 Hw1.
  apply wp_bind, wp_go_bytes; [done|]. intros val σ2 Hval Hg2 Hc2 Hw2. apply wp_bind.
  eapply wp_SetOne; [|by eapply slice_at_grows|exact Hval|].
  { eapply store_rep_same_world; [|done|done]. by eapply store_rep_same_world. }
  intros r Hwr. apply wp_ret. apply HQ; [by rewrite <-Hw1, <-Hw2|].
  split_and!; [|by etrans|done]. eapply grows_trans; [done|]. by eapply grows_trans; [|apply grows_world].
Qed.

Lemma wp_client_set_rep σ s h sp a k v (Q : result → st → Prop) :
  store_rep σ s h sp a → len_ok k → len_ok v →
  (∀ σ', store_rep σ' s h sp (KV (<[k := v]> (kv_live a)) (kv_read a) (kv_snaps a)) →
     cheap σ' = cheap σ → same_disk σ σ' → Q ([], None) σ') →
  wp (client_set s k v) σ Q.
Proof.
  intros Hr Hk Hv HQ. eapply wp_client_set; [done..|]. intros σ' r Hwr Hw.
  edestruct engine_writes_ok as (-> & Hd & Hr'); [exact Hr| |exact Hwr|exact Hw|].
  { by apply Forall_singleton. }
  destruct Hw as (_ & Hc & _). by apply HQ.
Qed.

Lemma wp_client_delete {rw} σ s h sp a k (Q : result → st → Prop) :
  store_open rw σ s h sp a → len_ok k →
  (∀ σ' r, engine_writes h [UDelete k] (world σ) r → only_wrote r σ σ' → Q ([], err_of r.1) σ') →
  wp (client_delete s k) σ Q.
Proof.
  intros Hr Hk HQ. apply wp_bind, wp_go_bytes; [done|]. intros key σ1 Hkey Hg1 Hc1 Hw1.
  assert (store_open rw σ1 s h sp a) as Hr1 by (by eapply store_rep_same_world).
  pose proof Hr1 as [_ _ _ _ (x & ro & wo & [Hx Hdb _ Hwo _ _])].
  destruct (rocks_DB_Delete h wo k (world σ1)) as [st0 w] eqn:E.
  apply wp_bind. unfold Store_Delete. apply wp_bind. eapply wp_go_load; [done|done|].
  unfold wp at 1. erewrite DB_Delete_spec by done.
  apply wp_ret. apply (HQ _ (st0, w)).
  - right; left. exists wo, k. by rewrite <-E, Hw1.
  - split_and!; [|done|done]. by eapply grows_trans.
Qed.

(** ** Batches *)

Lemma c_at_insert_ne σ l o p o' :
  p ≠ PC l → c_at σ p o' → c_at (on_cheap <[l := o]> σ) p o'.
Proof. destruct p; try done. simpl. intros ??. rewrite lookup_insert_ne; congruence. Qed.

Lemma WriteBatch_Put_spec σ wb c b key value k v :
  go_at σ wb (GWriteBatch (PC c)) → cheap σ !! c = Some (Crdb_writebatch_t b) →
  slice_at σ key k → slice_at σ value v →
  WriteBatch_Put wb key value σ =
    Ret tt (on_cheap <[c := Crdb_writebatch_t (wb_Put b k v)]> σ).
Proof.
  intros Hwb Hc Hk Hv. apply wp_eq. unfold WriteBatch_Put, rdb_writebatch_put.
  apply wp_bind. eapply wp_go_load; [done|done|]. apply wp_bind.
  eapply wp_c_load; [done|done|]. apply wp_bind. eapply wp_arg; [done|]. apply wp_bind.
  eapply wp_arg; [done|]. by eapply wp_c_store.
Qed.

Lemma WriteBatch_Delete_spec σ wb c b key k :
  go_at σ wb (GWriteBatch (PC c)) → cheap σ !! c = Some (Crdb_writebatch_t b) →
  slice_at σ key k →
  WriteBatch_Delete wb key σ =
    Ret tt (on_cheap <[c := Crdb_writebatch_t (wb_Delete b k)]> σ).
Proof.
  intros Hwb Hc Hk. apply wp_eq. unfold WriteBatch_Delete, rdb_writebatch_delete.
  apply wp_bind. eapply wp_go_load; [done|done|]. apply wp_bind.
  eapply wp_c_load; [done|done|]. apply wp_bind. eapply wp_arg; [done|].
  by eapply wp_c_store.
Qed.

(** The batch at [c], behind the Go object [lw]. *)
Definition holds_batch (lw c : loc) (b : WriteBatchRep) (σ : st) : Prop :=
  gheap σ !! lw = Some (GWriteBatch (PC c)) ∧ cheap σ !! c = Some (Crdb_writebatch_t b).

(** The batch at [c] holds [b], and the rest of the C heap is that of [σ]. *)
Definition batch_state (σ σ' : st) (wb : ptr) (c : loc) (b : WriteBatchRep) : Prop :=
  cheap σ !! c = None ∧ cheap σ' = <[c := Crdb_writebatch_t b]> (cheap σ) ∧
  gheap σ ⊆ gheap σ' ∧ world σ' = world σ ∧ go_at σ' wb (GWriteBatch (PC c)).

Lemma wp_batch_updates σ σ' wb c b us (Q : unit → st → Prop) :
  batch_state σ σ' wb c b → Forall update_ok us →
  (∀ σ'' b', batch_state σ σ'' wb c b' → wb_updates b' = wb_updates b ++ us → Q tt σ'') →
  wp (batch_updates wb us) σ' Q.
Proof.
  intros Hbs Hus. revert σ' b Hbs.
  induction Hus as [|u us Hu _ IH]; intros σ' b Hbs HQ.
  { apply wp_ret. eapply HQ; [done|]. by rewrite app_nil_r. }
  apply wp_bind. destruct Hbs as (Hnone & Hch & Hgh & Hwd & Hwb).
  assert (∀ b' σ2, grows σ' σ2 → cheap σ2 = cheap σ' → world σ2 = world σ' →
    wb_updates b' = wb_updates b ++ [u] →
    wp (batch_updates wb us) (on_cheap <[c := Crdb_writebatch_t b']> σ2) Q) as Hnext.
  { intros b' σ2 Hg Hc2 Hw2 Hb'. eapply IH.
    - split_and!; [done| |by etrans; [|apply Hg]|simpl; by rewrite Hw2|].
      + simpl. by rewrite Hc2, Hch, insert_insert_eq.
      + by eapply (go_at_grows σ' σ2).
    - intros σ'' b'' Hbs Hb''. eapply HQ; [done|]. by rewrite Hb'', Hb', <-app_assoc. }
  destruct u as [k v|k]; simpl in Hu.
  - apply wp_bind, wp_go_bytes; [by apply Hu|]. intros key σ1 Hkey Hg1 Hc1 Hw1.
    apply wp_bind, wp_go_bytes; [by apply Hu|]. intros val σ2 Hval Hg2 Hc2 Hw2.
    unfold wp at 1. erewrite (WriteBatch_Put_spec _ _ c b); cycle 1.
    + eapply go_at_grows; [|done]. by eapply grows_trans.
    + rewrite Hc2, Hc1, Hch. apply lookup_insert_eq.
    + by eapply slice_at_grows.
    + done.
    + apply Hnext; [by eapply grows_trans|congruence|congruence|apply law_wb_put].
  - apply wp_bind, wp_go_bytes; [done|]. intros key σ1 Hkey Hg1 Hc1 Hw1.
    unfold wp at 1. erewrite (WriteBatch_Delete_spec _ _ c b); cycle 1.
    + by eapply go_at_grows.
    + rewrite Hc1, Hch. apply lookup_insert_eq.
    + done.
    + apply Hnext; [done|done|done|apply law_wb_delete].
Qed.

Lemma WriteBatch_Destroy_spec σ lw c b :
  gheap σ !! lw = Some (GWriteBatch (PC c)) → cheap σ !! c = Some (Crdb_writebatch_t b) →
  WriteBatch_Destroy (PG lw) σ =
    Ret tt (on_gheap <[lw := GWriteBatch Nil]> (on_cheap (delete c) σ)).
Proof.
  intros Hw Hc. apply wp_eq. unfold WriteBatch_Destroy, rdb_writebatch_destroy.
  apply wp_bind. eapply wp_go_load; [exact Hw|done|]. apply wp_bind.
  eapply wp_c_delete; [done|done|]. by eapply wp_go_store.
Qed.

Lemma wp_client_batch {rw} σ s h sp a us (Q : result → st → Prop) :
  store_open rw σ s h sp a → Forall update_ok us →
  (∀ σ' r, engine_writes h us (world σ) r → only_wrote r σ σ' → Q ([], err_of r.1) σ') →
  wp (client_batch s us) σ Q.
Proof.
  intros Hr Hus HQ. unfold client_batch, Store_NewWriteBatch, NewWriteBatch.
  do 2 apply wp_bind. apply wp_c_new. intros c Hc. apply wp_go_new. intros lw Hlw.
  apply wp_bind. eapply (wp_batch_updates σ _ (PG lw) c wb_empty); [|done|].
  { split_and!; [done|done|by apply insert_subseteq|done|apply lookup_insert_eq]. }
  intros σ1 b (_ & Hch & Hgh & Hwd & Hwb) Hb. rewrite law_wb_empty in Hb. simpl in Hb.
  assert (store_open rw σ1 s h sp a) as Hr1.
  { eapply store_rep_same_world; [done| |done]. split; [|done]. rewrite Hch.
    by apply insert_subseteq. }
  pose proof Hr1 as [_ _ _ _ (x & ro & wo & [Hx Hdb _ Hwo _ _])].
  destruct (rocks_DB_Write h wo b (world σ1)) as [st0 w] eqn:E.
  apply wp_bind. unfold Store_WriteBatch. apply wp_bind. eapply wp_go_load; [done|done|].
  unfold wp at 1. erewrite DB_Write_spec; try done.
  2:{ exists (PC c). split; [done|]. simpl. rewrite Hch. apply lookup_insert_eq. }
  apply wp_bind. unfold wp at 1.
  erewrite (WriteBatch_Destroy_spec _ lw c b); [|done|simpl; rewrite Hch; apply lookup_insert_eq].
  apply wp_ret. apply (HQ _ (st0, w)).
  - right; right. exists wo, b. by rewrite Hb, <-E, Hwd.
  - assert (delete c (cheap σ1) = cheap σ) as Ec by by rewrite Hch, delete_insert_id.
    split_and!; [split; simpl|done|done]; [by rewrite Ec|by apply insert_subseteq_r].
Qed.

(** ** Snapshots *)

Lemma wp_new_snapshot {rw} σ s h sp a (Q : ptr → st → Prop) :
  store_open rw σ s h sp a →
  (∀ p σ', store_open rw σ' s h (sp ++ [p])
             (KV (kv_live a) (kv_read a) (kv_snaps a ++ [kv_live a])) →
     size (cheap σ') = S (size (cheap σ)) → Q p σ') →
  wp (Store_NewSnapshot s) σ Q.
Proof.
  intros Hr HQ. pose proof Hr as [Hf Hc Hw Hok (x & ro & wo & [Hx Hdb Hro Hwo Hv Hs])].
  destruct (law_snapshot (world σ) h (kv_live a) Hf Hc) as (sn & w & E & Hst & _ & Hsn & _).
  destruct Hdb as (d & Hd & Hcd).
  unfold Store_NewSnapshot, DB_NewSnapshot, rdb_create_snapshot.
  apply wp_bind. eapply wp_go_load; [done|done|]. apply wp_bind.
  eapply wp_go_load; [done|done|]. do 2 apply wp_bind. eapply wp_c_load; [done|done|].
  apply wp_bind. eapply wp_engine; [done|]. apply wp_c_new. intros l Hl.
  apply wp_go_new. intros lg Hlg. apply HQ.
  - set (σ' := on_gheap _ _). assert (grows σ σ') as Hg.
    { split; simpl; by apply insert_subseteq. }
    destruct (store_rep_read σ σ' s h sp a Hr Hg Hst)
      as [Hf' Hc' Hw' [] (x' & ro' & wo' & [])].
    split; try done.
    + split; [done|done|]. simpl. apply Forall_app; split; [done|]. by apply Forall_singleton.
    + exists x', ro', wo'. split; try done. simpl. apply Forall2_app; [done|].
      constructor; [|done]. eexists (mkSnapshot _ _), sn.
      split_and!; [apply lookup_insert_eq|apply lookup_insert_eq|done].
  - simpl. rewrite map_size_insert_None; done.
Qed.

(** [SetSnapshot] on the store's own read options. *)
Lemma wp_set_snapshot {rw} σ s h sp a p view (Q : unit → st → Prop) :
  store_open rw σ s h sp a →
  match view with
  | None => p = Nil
  | Some m => snap_at σ h p m ∧ m ∈ kv_snaps a
  end →
  (∀ σ', store_open rw σ' s h sp (KV (kv_live a) view (kv_snaps a)) →
     size (cheap σ') = size (cheap σ) → Q tt σ') →
  wp (Store_SetSnapshot s p) σ Q.
Proof.
  intros Hr Hview HQ.
  pose proof Hr as [Hf Hc Hw Hok (x & ro & wo & [Hx Hdb (c & Hgc & Hcc) Hwo Hv Hs])].
  destruct c as [| |lc|]; try done.
  assert (∀ ro', view_rep (world σ) h ro' view →
    store_open rw (on_cheap <[lc := Crdb_readoptions_t ro']> σ) s h sp
      (KV (kv_live a) view (kv_snaps a)) ∧
    size (cheap (on_cheap <[lc := Crdb_readoptions_t ro']> σ)) = size (cheap σ)) as Hend.
  { intros ro' Hro'. split; [|simpl; rewrite map_size_insert_Some; done].
    destruct Hok as [Hok1 Hok2 Hok3]. split; try done.
    { split; try done. simpl. destruct view as [m|]; [|done]. simpl.
      destruct Hview as [_ Hin]. rewrite Forall_forall in Hok3. by apply Hok3. }
    assert (∀ q o, c_at σ q o → as_rdb_readoptions_t o = None →
      c_at (on_cheap <[lc := Crdb_readoptions_t ro']> σ) q o) as Hne.
    { intros q o Hq Ho. apply c_at_insert_ne; [|done]. intros ->. simpl in *. by simplify_eq. }
    exists x, ro', wo. split; try done.
    - destruct Hdb as (d & ? & ?). exists d. split; [done|]. by apply Hne.
    - exists (PC lc). split; [done|]. apply lookup_insert_eq.
    - destruct Hwo as (d & ? & ?). exists d. split; [done|]. by apply Hne.
    - eapply Forall2_impl; [done|]. intros q m' (y & sn & ? & ? & ?). exists y, sn.
      split_and!; [done|by apply Hne|done]. }
  unfold Store_SetSnapshot, ReadOptions_SetSnapshot.
  apply wp_bind. eapply wp_go_load; [done|done|]. apply wp_bind.
  eapply wp_go_load; [done|done|]. unfold rdb_readoptions_set_snapshot.
  destruct view as [m|].
  - destruct Hview as [(y & sn & Hy & Hsn & Hm) _]. rewrite decide_False by (by intros ->).
    apply wp_bind. eapply wp_go_load; [done|done|]. apply wp_bind.
    eapply wp_c_load; [done|done|]. rewrite decide_False by (by intros E; rewrite E in Hsn).
    do 2 apply wp_bind. eapply wp_c_load; [done|done|]. apply wp_ret.
    eapply wp_c_store; [done|]. apply HQ; apply Hend; by exists sn.
  - subst p. rewrite decide_True by done. apply wp_bind. eapply wp_c_load; [done|done|].
    rewrite decide_True by done. apply wp_bind, wp_ret. eapply wp_c_store; [done|].
    apply HQ; by apply Hend.
Qed.

(** ** Closing *)

Lemma wp_Store_Close σ s x h w (Q : unit → st → Prop) :
  go_at σ s (GStore x) → db_at σ (s_db x) h → rocks_DB_destroy h (world σ) = Some w →
  (∀ σ', world σ' = w → S (size (cheap σ')) = size (cheap σ) → Q tt σ') →
  wp (Store_Close s) σ Q.
Proof.
  intros Hx (d & Hd & Hc) Hw HQ.
  unfold Store_Close, DB_Close, rdb_close.
  apply wp_bind. eapply wp_go_load; [exact Hx|done|]. apply wp_bind.
  eapply wp_go_load; [exact Hd|done|]. apply wp_bind.
  eapply wp_c_load; [exact Hc|done|]. apply wp_bind. eapply wp_engine_defined; [exact Hw|].
  destruct (db_c d) as [| |lc|]; try done. eapply wp_c_delete; [exact Hc|done|].
  apply HQ; [done|]. cbn. by eapply size_delete_S.
Qed.

(** The store is closed while one of its iterators is live. *)
Lemma Store_Close_live σ s x h it :
  go_at σ s (GStore x) → db_at σ (s_db x) h → iterates (world σ) it h →
  Store_Close s σ = Fault (Undefined "DB::~DB").
Proof.
  intros Hx (d & Hd & Hc) Hit. unfold Store_Close, DB_Close, rdb_close.
  erewrite bind_ret; [|by eapply go_at_load]. erewrite bind_ret; [|by eapply go_at_load].
  erewrite bind_ret; [|by eapply c_at_load]. apply bind_fault. unfold engine_defined.
  by rewrite (law_close_live _ _ _ Hit).
Qed.

Lemma Store_Close_undefined {rw} σ s h sp a it :
  store_open rw σ s h sp a → iterates (world σ) it h →
  Store_Close s σ = Fault (Undefined "DB::~DB").
Proof. intros [_ _ _ _ (x & ro & wo & [Hx Hd _ _ _ _])]. by eapply Store_Close_live. Qed.

(** ** The refinement *)

(** A write, on any open store. *)
Lemma wp_run_write {rw} σ s h sp a o us (Q : result * list ptr → st → Prop) :
  store_open rw σ s h sp a → op_ok o → op_updates o = Some us →
  (∀ σ' r, engine_writes h us (world σ) r → only_wrote r σ σ' → Q ([], err_of r.1, sp) σ') →
  wp (run_op s sp o) σ Q.
Proof.
  intros Hr Ho Hus HQ. destruct o as [k|k v|k|us0| |[i|]]; simplify_eq/=; apply wp_bind.
  - destruct Ho. eapply wp_client_set; [done..|]. intros σ' r Hwr Hw. by apply wp_ret, HQ.
  - eapply wp_client_delete; [done..|]. intros σ' r Hwr Hw. by apply wp_ret, HQ.
  - eapply wp_client_batch; [done..|]. intros σ' r Hwr Hw. by apply wp_ret, HQ.
Qed.

(** The other operations, on any open store. *)
Lemma wp_run_read {rw} σ s h sp a o (Q : result * list ptr → st → Prop) :
  store_open rw σ s h sp a → op_ok o → op_updates o = None →
  (∀ sp' σ', store_open rw σ' s h sp' (kv_step o a).2 →
     size (cheap σ') = (op_blocks o + size (cheap σ))%nat → Q ((kv_step o a).1, sp') σ') →
  wp (run_op s sp o) σ Q.
Proof.
  intros Hr Ho Hus HQ. destruct o as [k|k v|k|us| |[i|]]; simplify_eq/=.
  - apply wp_bind. eapply wp_client_get; [done|done|]. intros σ' Hr' Hc _.
    apply wp_ret, HQ; [done|by rewrite Hc].
  - apply wp_bind. eapply wp_new_snapshot; [done|]. intros p σ' Hr' Hc. by apply wp_ret, HQ.
  - pose proof (sr_mem _ _ _ _ _ _ Hr) as (x & ro & wo & [_ _ _ _ _ Hs]).
    destruct (sp !! i) as [p|] eqn:Ep.
    + eapply Forall2_lookup_l in Hs as (m & Em & Hm); [|done]. rewrite Em in HQ.
      apply wp_bind. eapply (wp_set_snapshot _ _ _ _ _ _ (Some m)); [done| |].
      { split; [done|]. by eapply list_elem_of_lookup_2. }
      intros σ' Hr' Hc. by apply wp_ret, HQ.
    + assert (kv_snaps a !! i = None) as Em.
      { apply lookup_ge_None. apply lookup_ge_None in Ep. by rewrite <-(Forall2_length _ _ _ Hs). }
      rewrite Em in HQ. by apply wp_ret, HQ.
  - apply wp_bind. eapply (wp_set_snapshot _ _ _ _ _ _ None); [done|done|].
    intros σ' Hr' Hc. by apply wp_ret, HQ.
Qed.

Lemma kv_step_updates o us a :
  op_updates o = Some us →
  kv_step o a = ([], None, KV (apply_updates us (kv_live a)) (kv_read a) (kv_snaps a)).
Proof. by destruct o as [| | | | |[]]; intros [= <-]. Qed.

Lemma op_ok_updates o us : op_ok o → op_updates o = Some us → Forall update_ok us.
Proof. destruct o as [| | | | |[]]; intros Ho [= <-]; try done; by apply Forall_singleton. Qed.

Lemma op_blocks_updates o us : op_updates o = Some us → op_blocks o = 0%nat.
Proof. by destruct o as [| | | | |[]]. Qed.

Lemma wp_run_op σ s h sp a o (Q : result * list ptr → st → Prop) :
  store_rep σ s h sp a → op_ok o →
  (∀ sp' σ', store_rep σ' s h sp' (kv_step o a).2 →
     size (cheap σ') = (op_blocks o + size (cheap σ))%nat → Q ((kv_step o a).1, sp') σ') →
  wp (run_op s sp o) σ Q.
Proof.
  intros Hr Ho HQ. destruct (op_updates o) as [us|] eqn:Eu; [|by eapply wp_run_read].
  eapply wp_run_write; [done..|]. intros σ' r Hwr Hw.
  rewrite (kv_step_updates _ _ _ Eu), (op_blocks_updates _ _ Eu) in HQ.
  destruct (engine_writes_ok σ σ' s h sp a us r Hr (op_ok_updates _ _ Ho Eu) Hwr Hw)
    as (-> & _ & Hr'). apply HQ; [done|]. by destruct Hw as (_ & -> & _).
Qed.

Lemma wp_run_ops os σ s h sp a (Q : list result * list ptr → st → Prop) :
  store_rep σ s h sp a → Forall op_ok os →
  (∀ sp' σ', store_rep σ' s h sp' (kv_run os a).2 →
     size (cheap σ') = (sum_list (op_blocks <$> os) + size (cheap σ))%nat →
     Q ((kv_run os a).1, sp') σ') →
  wp (run_ops s sp os) σ Q.
Proof.
  intros Hr Hos. revert σ sp a Q Hr. induction Hos as [|o os Ho _ IH]; intros σ sp a Q Hr HQ.
  { by apply wp_ret, HQ. }
  apply wp_bind. eapply wp_run_op; [done|done|]. intros sp1 σ1 Hr1 Hc1.
  apply wp_bind. eapply IH; [done|]. intros sp2 σ2 Hr2 Hc2. apply wp_ret.
  simpl in HQ. destruct (kv_step o a) as [r a1]. simpl in *.
  destruct (kv_run os a1) as [rs a2]. simpl in *. apply HQ; [done|]. unfold fmap in Hc2. lia.
Qed.
End refinement.
