(* ===== verification/StoreOpen.v ===== *)
(** * Opening a store: [setOpts] and the three constructors of store.go

    The options a new store hands to the engine, and the state it starts from. *)

From S2P Require Import Prelude Rocks Memory Rdbc Rdb RdbSpec Strconv Store StoreSpec.

(** Symbolic execution on explicit heaps.  [fresh_facts] turns the freshness of a new
    location into inequalities; [lk] finds a cell among the insertions; [exec] runs
    allocations, loads and stores. *)
Ltac fresh_facts :=
  repeat match goal with
  | H : <[_ := _]> _ !! _ = None |- _ => apply lookup_insert_None in H as [? ?]
  end.
Ltac lk :=
  cbn; repeat first [ apply lookup_insert_eq | eassumption
                    | rewrite lookup_insert_ne by congruence ].
Ltac exec_step :=
  lazymatch goal with
  | |- wp (mbind _ _) _ _ => apply wp_bind
  | |- wp (mret _) _ _ => apply wp_ret
  | |- wp (c_new _) _ _ =>
      let l := fresh "l" in let Hl := fresh "Hl" in
      apply wp_c_new; intros l Hl; cbn in Hl; fresh_facts
  | |- wp (go_new _) _ _ =>
      let l := fresh "l" in let Hl := fresh "Hl" in
      apply wp_go_new; intros l Hl; cbn in Hl; fresh_facts
  | |- wp (go_load _ _) _ _ => eapply wp_go_load; [by lk|reflexivity|]
  | |- wp (c_load _ _) _ _ => eapply wp_c_load; [by lk|reflexivity|]
  | |- wp (go_store _ _) _ _ => eapply wp_go_store; [by lk|]
  | |- wp (c_store _ _) _ _ => eapply wp_c_store; [by lk|]
  | |- wp (if decide (_ = Nil) then _ else _) _ _ =>
      first [rewrite decide_False by done|rewrite decide_True by done]
  end.
Ltac exec := repeat (exec_step; cbn [on_cheap on_gheap on_world cheap gheap world filterPolicies
  s_db s_opt s_blockopt s_ropt s_wopt opts_c opts_bbto bbto_c bbto_cache bbto_compCache bbto_cFp]).

(** Inclusion and size of a heap after allocations. *)
Ltac sub := repeat (apply insert_subseteq_r; [assumption|]); reflexivity.
Ltac lk_none := repeat (rewrite lookup_insert_ne by congruence); assumption.
Ltac sizes :=
  repeat first [ rewrite map_size_insert_None by lk_none
               | rewrite map_size_insert_Some by (eexists; lk) ].

Section open.
Context `{RocksDB, Libc}.

(** The options the engine is opened with. *)
Definition store_options : OptionsRep :=
  {| create_if_missing := true;
     table_factory := NewBlockBasedTableFactory new_BlockBasedTableOptions |}.

(** The filter policy [setOpts] creates. *)
Definition store_filter : filterpolicy := FPWrapper (NewBloomFilterPolicy 16 true).

(** A store whose options are set, with no database yet. *)
Record store_opts (σ : st) (s : ptr) (x : Store) (sync : bool) : Prop := {
  so_store : go_at σ s (GStore x);
  so_opt : opts_at σ (s_opt x) store_options;
  so_ro : ro_at σ (s_ropt x) new_ReadOptions;
  so_wo : wo_at σ (s_wopt x) {| wo_sync := sync |};
  (* [opts.bbto] and [s.blockopt] are the same struct *)
  so_alias : ∃ c, go_at σ (s_opt x) (GOptions (mkOptions c (s_blockopt x)));
  so_filter : ∃ b t lf, go_at σ (s_blockopt x) (GBlockBasedTableOptions b) ∧
    c_at σ (bbto_c b) (Crdb_block_based_table_options_t t false) ∧
    bbto_cFp b = PC lf ∧ filter_policy t = Some lf ∧
    c_at σ (PC lf) (Crdb_filterpolicy_t store_filter);
}.

(** A new store: a fresh location, and nothing else changed. *)
Definition made (σ σ' : st) (s : ptr) (x : Store) : Prop :=
  grows σ σ' ∧ world σ' = world σ ∧ (∃ ls, s = PG ls ∧ gheap σ !! ls = None) ∧
  ∃ c, go_at σ' (s_wopt x) (GWriteOptions (PC c)) ∧ cheap σ !! c = None.

(** The C blocks the options of a store take. *)
Definition opts_blocks : nat := 5.

Lemma wp_new_setOpts σ {A} (k : ptr → M st A) (Q : A → st → Prop) :
  (∀ s x σ', made σ σ' s x → store_opts σ' s x false →
     size (cheap σ') = (opts_blocks + size (cheap σ))%nat → wp (k s) σ' Q) →
  wp (s ← new_Store; Store_setOpts s;; k s) σ Q.
Proof.
  intros HQ. destruct σ as [h g w fps]. unfold new_Store. exec.
  unfold Store_setOpts, upd_Store, NewDefaultOptions, NewNativeOptions, rdb_options_create,
    NewDefaultBlockBasedTableOptions, NewNativeBlockBasedTableOptions,
    rdb_block_based_options_create, Options_SetBlockBasedTableFactory,
    rdb_options_set_block_based_table_factory, Options_SetCreateIfMissing,
    rdb_options_set_create_if_missing, NewBloomFilter, rdb_filterpolicy_create_bloom,
    rdb_filterpolicy_create_bloom_format, NewNativeFilterPolicy,
    BlockBasedTableOptions_SetFilterPolicy, rdb_block_based_options_set_filter_policy,
    set_bbto, NewDefaultReadOptions, NewNativeReadOptions, rdb_readoptions_create,
    NewDefaultWriteOptions, NewNativeWriteOptions, rdb_writeoptions_create,
    WriteOptions_SetSync, rdb_writeoptions_set_sync.
  exec. rewrite new_BlockBasedTableOptions_filter. cbn [release_policy]. exec.
  eapply HQ with (x := mkStore Nil _ _ _ _); cycle 1.
  - split; cbn.
    + lk.
    + eexists. split; [lk|]. lk.
    + eexists. split; [lk|]. lk.
    + eexists. split; [lk|]. lk.
    + eexists. lk.
    + do 3 eexists. split; [lk|]. split; [lk|]. split; [done|]. split; [done|]. lk.
  - cbn. sizes. reflexivity.
  - split; [split; cbn; sub|]. split; [done|]. split; [by exists l|].
    eexists. split; [lk|]. assumption.
Qed.

(** ** The constructors *)

(** The state of a store after its constructor, by the engine's answer [st]: on
    success a database handle; on failure the error, and a nil [db]. *)
Definition constructed (st0 : Status) (rep : handle) (sync : bool) (w : World)
    (σ : st) (r : ptr * error) (σ' : st) : Prop :=
  ∃ x, grows σ σ' ∧ world σ' = w ∧ r.2 = err_of st0 ∧ store_opts σ' r.1 x sync ∧
    if status_ok st0
    then db_at σ' (s_db x) rep ∧ size (cheap σ') = (1 + opts_blocks + size (cheap σ))%nat
    else s_db x = Nil ∧ size (cheap σ') = (opts_blocks + size (cheap σ))%nat.

(** [setOpts] and the constructors only touch the new store and what they allocate:
    a change of the store's own cell at [s] keeps the rest of its options. *)
Lemma store_opts_set_db σ ls x sync db :
  store_opts σ (PG ls) x sync →
  store_opts (on_gheap <[ls := GStore (mkStore db (s_opt x) (s_blockopt x) (s_ropt x) (s_wopt x))]> σ)
    (PG ls) (mkStore db (s_opt x) (s_blockopt x) (s_ropt x) (s_wopt x)) sync.
Proof.
  intros [Hs Ho Hr Hw Ha Hf].
  assert (∀ p o, go_at σ p o → as_Store o = None →
    go_at (on_gheap <[ls := GStore (mkStore db (s_opt x) (s_blockopt x) (s_ropt x) (s_wopt x))]> σ) p o)
    as Hne.
  { intros [|l| |] o Hp Hn; try done. simpl in *. rewrite lookup_insert_ne; [done|].
    intros ->. by simplify_eq. }
  split; simpl.
  - apply lookup_insert_eq.
  - destruct Ho as (y & ? & ?). exists y. split; [by apply Hne|done].
  - destruct Hr as (y & ? & ?). exists y. split; [by apply Hne|done].
  - destruct Hw as (y & ? & ?). exists y. split; [by apply Hne|done].
  - destruct Ha as (y & ?). exists y. by apply Hne.
  - destruct Hf as (b & t & lf & ? & ? & ? & ? & ?). exists b, t, lf.
    split_and!; try done. by apply Hne.
Qed.

Lemma store_opts_grows σ σ' s x sync :
  grows σ σ' → store_opts σ s x sync → store_opts σ' s x sync.
Proof.
  intros Hg [Hs Ho Hr Hw Ha Hf]. split.
  - by eapply go_at_grows.
  - destruct Ho as (y & ? & ?). exists y.
    split; [by eapply go_at_grows|by eapply c_at_grows].
  - by eapply ro_at_grows.
  - by eapply wo_at_grows.
  - destruct Ha as (y & ?). exists y. by eapply go_at_grows.
  - destruct Hf as (b & t & lf & ? & ? & ? & ? & ?). exists b, t, lf.
    split_and!; try done; first [by eapply go_at_grows|by eapply c_at_grows].
Qed.

Lemma wp_open_into σ0 σ s x sync open name st0 rep w (Q : ptr * error → st → Prop) :
  made σ0 σ s x → store_opts σ s x sync →
  size (cheap σ) = (opts_blocks + size (cheap σ0))%nat →
  (∀ P : ptr * error → st → Prop,
     (∀ r σ', open_result st0 rep name (s_opt x) (with_world w σ) r σ' → P r σ') →
     wp (open (s_opt x)) σ P) →
  (∀ r σ', constructed st0 rep sync w σ0 r σ' → Q r σ') →
  wp (open_into s open) σ Q.
Proof.
  intros (Hg & Hw & (ls & -> & Hls) & _) Hso Hsz Hopen HQ. unfold open_into, upd_Store.
  pose proof (so_store _ _ _ _ Hso) as Hs.
  apply wp_bind. eapply wp_go_load; [done|done|]. apply wp_bind, Hopen.
  intros r σ' Hres. unfold open_result in Hres. unfold constructed in HQ.
  destruct (status_ok st0) eqn:Eok.
  - destruct Hres as (l & lg & Hl & Hlg & -> & ->).
    set (σ1 := on_gheap <[lg := _]> _).
    assert (grows σ σ1) as Hg1 by (split; simpl; by apply insert_subseteq).
    eapply (store_opts_grows σ σ1) in Hso; [|done].
    pose proof (so_store _ _ _ _ Hso) as Hs1.
    do 2 apply wp_bind. eapply wp_go_load; [done|done|]. eapply wp_go_store; [exact Hs1|].
    apply wp_ret, HQ. eexists. split_and!.
    + destruct Hg, Hg1. split; simpl; [by etrans|]. apply insert_subseteq_r; [done|by etrans].
    + done.
    + simpl. unfold err_of. by rewrite Eok.
    + by apply store_opts_set_db.
    + exists (mkDB (PC l) name (s_opt x)). split; [|apply lookup_insert_eq]. simpl.
      rewrite lookup_insert_ne; [apply lookup_insert_eq|].
      intros ->. simpl in *. rewrite Hlg in Hs. done.
    + simpl. rewrite map_size_insert_None by done. by rewrite Hsz.
  - destruct Hres as [-> ->].
    eapply (store_opts_grows σ (with_world w σ)) in Hso; [|apply grows_world].
    do 2 apply wp_bind. eapply wp_go_load; [done|done|]. eapply wp_go_store; [exact Hs|].
    apply wp_ret, HQ. eexists. split_and!.
    + destruct Hg. split; simpl; [done|]. by apply insert_subseteq_r.
    + done.
    + done.
    + by apply store_opts_set_db.
    + done.
    + done.
Qed.

Lemma wp_NewStore σ path st0 rep w (Q : ptr * error → st → Prop) :
  rocks_DB_Open store_options (c_str path) (world σ) = (st0, rep, w) →
  (∀ r σ', constructed st0 rep false w σ r σ' → Q r σ') →
  wp (NewStore path) σ Q.
Proof.
  intros E HQ. apply wp_new_setOpts. intros s x σ1 Hm Hso Hsz.
  eapply wp_open_into; [done..| |done]. intros P HP.
  eapply wp_OpenDb; [apply Hso| |done]. by destruct Hm as (_ & -> & _).
Qed.

Lemma wp_NewReadOnlyStore σ path st0 rep w (Q : ptr * error → st → Prop) :
  rocks_DB_OpenForReadOnly store_options (c_str path) false (world σ) = (st0, rep, w) →
  (∀ r σ', constructed st0 rep false w σ r σ' → Q r σ') →
  wp (NewReadOnlyStore path) σ Q.
Proof.
  intros E HQ. apply wp_new_setOpts. intros s x σ1 Hm Hso Hsz.
  eapply wp_open_into; [done..| |done]. intros P HP.
  eapply wp_OpenDbForReadOnly; [apply Hso| |done]. by destruct Hm as (_ & -> & _).
Qed.

Lemma store_opts_set_sync σ s x sync sync' c :
  store_opts σ s x sync → go_at σ (s_wopt x) (GWriteOptions (PC c)) →
  store_opts (on_cheap <[c := Crdb_writeoptions_t {| wo_sync := sync' |}]> σ) s x sync'.
Proof.
  intros [Hs Ho Hr (c' & Hw & Hcw) Ha Hf] Hc.
  assert (c' = PC c) as ->.
  { destruct (s_wopt x); try done. simpl in *. congruence. }
  assert (∀ p o, c_at σ p o → as_rdb_writeoptions_t o = None →
    c_at (on_cheap <[c := Crdb_writeoptions_t {| wo_sync := sync' |}]> σ) p o) as Hne.
  { intros p o Hp Hn. apply c_at_insert_ne; [|done]. intros ->. simpl in *. by simplify_eq. }
  split; try done.
  - destruct Ho as (y & ? & ?). exists y. split; [done|by apply Hne].
  - destruct Hr as (y & ? & ?). exists y. split; [done|by apply Hne].
  - exists (PC c). split; [done|]. apply lookup_insert_eq.
  - destruct Hf as (b & t & lf & ? & ? & ? & ? & ?). exists b, t, lf.
    split_and!; try done; by apply Hne.
Qed.

Lemma wp_NewSyncStore σ path st0 rep w (Q : ptr * error → st → Prop) :
  rocks_DB_Open store_options (c_str path) (world σ) = (st0, rep, w) →
  (∀ r σ', constructed st0 rep true w σ r σ' → Q r σ') →
  wp (NewSyncStore path) σ Q.
Proof.
  intros E HQ. apply wp_new_setOpts. intros s x σ1 (Hg & Hw & Hls & c & Hc & Hnew) Hso Hsz.
  pose proof Hso as [Hs _ _ (c' & Hwo & Hc') _ _].
  assert (c' = PC c) as -> by (destruct (s_wopt x); try done; simpl in *; congruence).
  apply wp_bind. eapply wp_go_load; [done|done|].
  unfold WriteOptions_SetSync, rdb_writeoptions_set_sync.
  do 2 apply wp_bind. eapply wp_go_load; [done|done|]. apply wp_bind.
  eapply wp_c_load; [done|done|]. eapply wp_c_store; [done|].
  change (negb (boolToChar true =? 0)) with true.
  eapply (wp_open_into σ _ s x true); [| | | |done].
  - split; [|split; [done|split; [done|by exists c]]]. destruct Hg.
    split; simpl; [by apply insert_subseteq_r|done].
  - by eapply store_opts_set_sync.
  - simpl. by rewrite map_size_insert_Some.
  - intros P HP. eapply wp_OpenDb; [|simpl; by rewrite Hw|done].
    by eapply store_opts_set_sync.
Qed.
End open.
