(* ===== verification/IterSpec.v ===== *)
(** * Iterators over a store

    What [Store.NewIterator] and the methods of [Iterator] do, in terms of the
    entries from the iterator's position on. *)

From S2P Require Import Prelude Rocks Memory Rdbc Rdb RdbSpec Strconv Store StoreSpec StoreOpen.

Section iter.
Context `{RocksLaws, Libc} {rw : bool}.

(** The iterator [p] of the database [h], of view [m], stands before the entries [l]; the C struct is at
    [lc], and [gen] moves were made. *)
Definition iter_on (σ : st) (p : ptr) (lc : loc) (it h : handle) (gen : nat)
    (m : gmap bytes bytes) : Prop :=
  go_at σ p (GIterator (PC lc)) ∧ cheap σ !! lc = Some (Crdb_iterator_t it gen) ∧
  iter_view (world σ) it = Some m ∧ iterates (world σ) it h.

Definition iter_before (σ : st) (p : ptr) (lc : loc) (it h : handle) (gen : nat)
    (m : gmap bytes bytes) (l : list (bytes * bytes)) : Prop :=
  iter_on σ p lc it h gen m ∧ remaining (world σ) it = Some l.

(** A change of a cell that is not part of a store keeps the relation. *)
Lemma store_rep_upd σ σ' s h sp a l o o' :
  store_open rw σ s h sp a → cheap σ !! l = Some o → store_cell o = false →
  cheap σ' = <[l := o']> (cheap σ) → gheap σ ⊆ gheap σ' →
  stable [] (world σ) (world σ') → store_open rw σ' s h sp a.
Proof.
  intros Hr Hl Ho Hch Hgh Hst. eapply store_rep_keep; [done| | |done].
  - intros l' o'' Hl' Ho'. rewrite Hch, lookup_insert_ne; [done|]. intros ->. congruence.
  - intros l' o'' Hl' _. by eapply lookup_weaken.
Qed.

Lemma wp_Store_NewIterator σ s h sp a (Q : ptr → st → Prop) :
  store_open rw σ s h sp a →
  (∀ p lc it σ', store_open rw σ' s h sp a → iter_on σ' p lc it h 0 (kv_live a) → grows σ σ' →
     size (cheap σ') = (2 + size (cheap σ))%nat → Q p σ') →
  wp (Store_NewIterator s) σ Q.
Proof.
  intros Hr HQ. pose proof Hr as [Hf Hc Hw Hok (x & ro & wo & [Hx (d&Hd&Hcd) Hro Hwo Hv Hs])].
  set (ro' := {| fill_cache := false; ro_snapshot := ro_snapshot new_ReadOptions |}).
  destruct (law_iterator (world σ) h ro' (kv_live a)) as (it & w & E & Hst & Hit & Hdb);
    [done|by rewrite Hc|by unfold read_view; simpl; rewrite law_new_ReadOptions|].
  destruct s as [|ls| |]; try done. destruct x as [sdb sopt sblock sro swo]. cbn in Hd.
  destruct sdb as [|ldb| |]; try done.
  destruct d as [dc dn dop]. cbn in Hcd. destruct dc as [| |ldc|]; try done.
  unfold Store_NewIterator, NewDefaultReadOptions, rdb_readoptions_create, NewNativeReadOptions,
    ReadOptions_SetFillCache, rdb_readoptions_set_fill_cache, DB_NewIterator,
    rdb_create_iterator, NewNativeIterator.
  cbn in Hx, Hcd, Hd. exec.
  eapply wp_engine; [exact E|]. exec. apply HQ with l1 it.
  - eapply store_rep_read; [done| |done]. split; cbn; sub.
  - split; [apply lookup_insert_eq|]. split; [lk|done].
  - split; cbn; sub.
  - cbn. by sizes.
Qed.

(** A move of the iterator [it] by the engine function [f]. *)
Lemma wp_iter_move_on σ s h sp a p lc it gen m f (Q : unit → st → Prop) :
  store_open rw σ s h sp a → iter_on σ p lc it h gen m → moved (world σ) (f it (world σ)) it →
  (∀ σ', store_open rw σ' s h sp a → iter_on σ' p lc it h (S gen) m → world σ' = f it (world σ) →
     cheap σ' = <[lc := Crdb_iterator_t it (S gen)]> (cheap σ) → gheap σ' = gheap σ → Q tt σ') →
  wp (iter_move f (PC lc)) σ Q.
Proof.
  intros Hr (Hp & Hlc & Hv & Hdb) (Hst & Hiv & Hkeep) HQ. unfold iter_move. apply wp_bind.
  eapply wp_c_load; [exact Hlc|done|]. cbn beta iota. apply wp_bind, wp_engine_.
  eapply wp_c_store; [exact Hlc|]. apply HQ; try done.
  - eapply store_rep_upd; [done|exact Hlc|done|done|done|done].
  - split; [done|]. split; [apply lookup_insert_eq|]. simpl. rewrite Hiv. split; [done|by apply Hkeep].
Qed.

(** The methods of [Iterator] load the pointer to the struct first. *)
Lemma wp_iter_load {A} σ p lc it h gen m (k : ptr → M st A) (Q : A → st → Prop) :
  iter_on σ p lc it h gen m → wp (k (PC lc)) σ Q → wp (c ← go_load as_Iterator p; k c) σ Q.
Proof. intros (Hp & _) HQ. apply wp_bind. by eapply wp_go_load. Qed.

(** A move to the entries [l']. *)
Lemma wp_iter_move σ s h sp a p lc it gen m f l' (Q : unit → st → Prop) :
  store_open rw σ s h sp a → iter_on σ p lc it h gen m →
  moved (world σ) (f it (world σ)) it → remaining (f it (world σ)) it = Some l' →
  (∀ σ', store_open rw σ' s h sp a → iter_before σ' p lc it h (S gen) m l' →
     cheap σ' = <[lc := Crdb_iterator_t it (S gen)]> (cheap σ) → gheap σ' = gheap σ → Q tt σ') →
  wp (c ← go_load as_Iterator p; iter_move f c) σ Q.
Proof.
  intros Hr Hit Hmv Hrem HQ. eapply wp_iter_load; [exact Hit|].
  eapply wp_iter_move_on; [done|done|done|]. intros σ' Hr' Hit' Hw Hc Hg.
  apply HQ; try done. split; [done|]. by rewrite Hw.
Qed.

Lemma wp_SeekToFirst σ s h sp a p lc it gen m (Q : unit → st → Prop) :
  store_open rw σ s h sp a → iter_on σ p lc it h gen m →
  (∀ l σ', is_scan m l → store_open rw σ' s h sp a → iter_before σ' p lc it h (S gen) m l →
     cheap σ' = <[lc := Crdb_iterator_t it (S gen)]> (cheap σ) → gheap σ' = gheap σ → Q tt σ') →
  wp (Iterator_SeekToFirst p) σ Q.
Proof.
  intros Hr Hit HQ. pose proof Hit as (_ & _ & Hv & _).
  destruct (law_seek_first (world σ) it m) as (Hmv & l & Hl & Hrem); [apply Hr|done|].
  eapply wp_iter_move; [done|done|done|done|]. eauto.
Qed.

Lemma wp_Next σ s h sp a p lc it gen m e l (Q : unit → st → Prop) :
  store_open rw σ s h sp a → iter_before σ p lc it h gen m (e :: l) →
  (∀ σ', store_open rw σ' s h sp a → iter_before σ' p lc it h (S gen) m l →
     cheap σ' = <[lc := Crdb_iterator_t it (S gen)]> (cheap σ) → gheap σ' = gheap σ → Q tt σ') →
  wp (Iterator_Next p) σ Q.
Proof.
  intros Hr [Hit Hrem] HQ.
  destruct (law_next (world σ) it e l) as [Hmv Hrem']; [apply Hr|done|].
  eapply wp_iter_move; [done|done|done|done|]. eauto.
Qed.

Lemma wp_Valid σ p lc it h gen m l (Q : bool → st → Prop) :
  iter_before σ p lc it h gen m l → Q (bool_decide (l ≠ [])) σ → wp (Iterator_Valid p) σ Q.
Proof.
  intros [(Hp & Hlc & Hv) Hrem] HQ. unfold Iterator_Valid, rdb_iter_valid.
  apply wp_bind. eapply wp_go_load; [done|done|]. do 2 apply wp_bind.
  eapply wp_c_load; [exact Hlc|done|]. apply wp_bind, wp_engine_get, wp_ret, wp_ret.
  rewrite (law_valid _ _ _ Hrem). by case_bool_decide.
Qed.

(** What [Key] and [Value] return: a slice into the current entry. *)
Definition entry_slice (lc : loc) (gen : nat) (val : bool) (b : bytes) : gobj :=
  GSlice (mkSlice (PIter lc gen val) (blen b) true).

Lemma wp_Key σ p lc it h gen m e l (Q : ptr → st → Prop) :
  iter_before σ p lc it h gen m (e :: l) →
  (∀ lk, gheap σ !! lk = None →
     Q (PG lk) (on_gheap <[lk := entry_slice lc gen false e.1]> σ)) →
  wp (Iterator_Key p) σ Q.
Proof.
  intros [(Hp & Hlc & Hv) Hrem] HQ. unfold Iterator_Key, rdb_iter_key.
  apply wp_bind. eapply wp_go_load; [done|done|]. do 2 apply wp_bind.
  eapply wp_c_load; [exact Hlc|done|]. apply wp_bind, wp_engine_get, wp_ret. cbn beta iota.
  rewrite decide_False by done. apply wp_go_new. intros lk Hlk.
  rewrite (law_key _ _ _ _ Hrem). by apply HQ.
Qed.

Lemma wp_Value σ p lc it h gen m e l (Q : ptr → st → Prop) :
  iter_before σ p lc it h gen m (e :: l) →
  (∀ lk, gheap σ !! lk = None →
     Q (PG lk) (on_gheap <[lk := entry_slice lc gen true e.2]> σ)) →
  wp (Iterator_Value p) σ Q.
Proof.
  intros [(Hp & Hlc & Hv) Hrem] HQ. unfold Iterator_Value, rdb_iter_value.
  apply wp_bind. eapply wp_go_load; [done|done|]. do 2 apply wp_bind.
  eapply wp_c_load; [exact Hlc|done|]. apply wp_bind, wp_engine_get, wp_ret. cbn beta iota.
  rewrite decide_False by done. apply wp_go_new. intros lk Hlk.
  rewrite (law_value _ _ _ _ Hrem). by apply HQ.
Qed.

(** The bytes behind such a slice, as long as the iterator has not moved. *)
Lemma sl_read_entry σ p lc it h gen m e l (val : bool) b :
  iter_before σ p lc it h gen m (e :: l) → b = (if val then e.2 else e.1) → len_ok b →
  sl_read (charToByte (PIter lc gen val) (blen b)) σ = Ret b σ.
Proof.
  intros [(Hp & Hlc & Hv) Hrem] -> Hb. unfold sl_read, charToByte, mem_read.
  cbn [sl_ptr sl_len]. rewrite wrap_s_small by done.
  set (v := if val then e.2 else e.1) in *.
  destruct (Z.eqb_spec (blen v) 0) as [E0|_]; [apply blen_0 in E0; by rewrite E0|].
  erewrite bind_ret; [|apply wp_eq; apply wp_bind; eapply wp_c_load; [exact Hlc|done|];
    cbn beta iota; rewrite decide_True by done; apply wp_engine_get; split; reflexivity].
  assert ((if val then rocks_Iterator_value it else rocks_Iterator_key it) (world σ) = v) as ->.
  { unfold v. destruct val; [by eapply law_value|by eapply law_key]. }
  rewrite Z.leb_refl, (proj2 (Z.leb_le 0 _)) by apply blen_nonneg. simpl.
  unfold blen. by rewrite Nat2Z.id, firstn_all.
Qed.

(** ... and a stale slice once it has: a non-empty read is a fault. *)
Lemma sl_read_stale σ lc it gen gen' val n :
  cheap σ !! lc = Some (Crdb_iterator_t it gen') → gen ≠ gen' → wrap_s 64 n ≠ 0 →
  sl_read (charToByte (PIter lc gen val) n) σ = Fault BadRead.
Proof.
  intros Hlc Hne Hn. unfold sl_read, charToByte, mem_read. cbn [sl_ptr sl_len].
  rewrite (proj2 (Z.eqb_neq _ _) Hn). apply bind_fault.
  erewrite bind_ret; [|by eapply c_at_load]. cbn beta iota. by rewrite decide_False.
Qed.

(** Allocations on the Go heap disturb neither the store nor the iterator. *)
Lemma iter_before_grows σ σ' p lc it h gen m l :
  grows σ σ' → world σ' = world σ → iter_before σ p lc it h gen m l →
  iter_before σ' p lc it h gen m l.
Proof.
  intros Hg Hw [(Hp & Hlc & Hv) Hrem]. split; [split; [|split]|].
  - by eapply go_at_grows.
  - destruct Hg as [Hg _]. by eapply lookup_weaken.
  - by rewrite Hw.
  - by rewrite Hw.
Qed.
End iter.
