(* ===== verification/CheckpointSpec.v ===== *)
(** * Checkpoints of a store

    [Store.NewCheckpoint] and the methods of [Checkpoint], on a store in its
    representation relation; and the store opened on a database that was closed, for
    reading and writing or for reading only. *)

From S2P Require Import Prelude Rocks Memory Rdbc Rdb RdbSpec Strconv Store StoreSpec StoreOpen.

Section ckpt.
Context `{RocksLaws, Libc}.

(** The Go object at [p] holds the C struct at [lc], a checkpoint [c] of [h]. *)
Definition ckpt_on (σ : st) (p : ptr) (lc : loc) (c h : handle) : Prop :=
  (∃ y, go_at σ p (GCheckpoint y) ∧ ckpt_c y = PC lc) ∧
  cheap σ !! lc = Some (Crdb_checkpoint_t c) ∧ checkpoint_db (world σ) c = Some h.

Lemma wp_NewCheckpoint σ s h sp a (Q : ptr * error → st → Prop) :
  store_rep σ s h sp a →
  (∀ p lc c σ', store_rep σ' s h sp a → grows σ σ' → ckpt_on σ' p lc c h →
     (∀ d, on_disk (world σ') d = on_disk (world σ) d) →
     size (cheap σ') = S (size (cheap σ)) → Q (p, None) σ') →
  wp (Store_NewCheckpoint s) σ Q.
Proof.
  intros Hr HQ. pose proof Hr as [Hf Hc Hw Hok (x & ro & wo & [Hx (d&Hd&Hcd) _ _ _ _])].
  destruct (law_checkpoint (world σ) h (kv_live a) Hf Hc) as (st0 & c & w & E & Hs & Hst & Hck & Hdk).
  unfold Store_NewCheckpoint, DB_NewCheckpoint, rdb_create_checkpoint.
  apply wp_bind. eapply wp_go_load; [done|done|]. apply wp_bind.
  eapply wp_go_load; [done|done|]. do 2 apply wp_bind. eapply wp_c_load; [done|done|].
  apply wp_bind. eapply wp_engine; [done|]. cbn beta iota.
  apply wp_bind, wp_SaveError; [intros _|congruence]. cbn beta iota.
  apply wp_bind, wp_c_new. intros l Hl. apply wp_ret. cbn beta iota.
  rewrite decide_True by done. apply wp_bind, wp_go_new. intros lg Hlg.
  apply wp_ret. apply (HQ (PG lg) l c).
  - eapply store_rep_read; [done| |done]. split; simpl; by apply insert_subseteq.
  - split; simpl; by apply insert_subseteq.
  - split; [|split; [apply lookup_insert_eq|done]].
    eexists. split; [apply lookup_insert_eq|done].
  - done.
  - simpl. by rewrite map_size_insert_None.
Qed.

(** [Save] into a directory that does not exist.  The C copy of its name is freed. *)
Lemma wp_Checkpoint_Save σ s h sp a p lc c dir (Q : error → st → Prop) :
  store_rep σ s h sp a → ckpt_on σ p lc c h → on_disk (world σ) (c_str dir) = Absent →
  (∀ σ', store_rep σ' s h sp a → ckpt_on σ' p lc c h → cheap σ' = cheap σ →
     on_disk (world σ') (c_str dir) = Closed (kv_live a) →
     (∀ d, d ≠ c_str dir → on_disk (world σ') d = on_disk (world σ) d) → Q None σ') →
  wp (Checkpoint_Save p dir) σ Q.
Proof.
  intros Hr ((y & Hy & Hyc) & Hlc & Hck) Hdir HQ.
  destruct (law_create_checkpoint (world σ) c h (c_str dir) (kv_live a))
    as (st0 & w & E & Hs & Hst & Hd & Hd'); [apply Hr|done|apply Hr|done|].
  unfold Checkpoint_Save, C_CString, rdb_open_checkpoint.
  apply wp_bind, wp_c_new. intros n Hn.
  assert (c_at (on_cheap <[n := CBytes (dir ++ [NUL])]> σ) (PC lc) (Crdb_checkpoint_t c))
    as Hlc' by (by apply c_at_alloc).
  apply wp_bind. eapply wp_go_load; [done|done|]. rewrite Hyc.
  apply wp_bind. apply wp_bind. eapply wp_c_load; [done|done|].
  apply wp_bind. eapply wp_c_string; [apply lookup_insert_eq|].
  apply wp_bind. eapply wp_engine; [done|]. apply wp_bind, wp_status_tail_k.
  unfold err_of. rewrite Hs. apply wp_bind.
  eapply wp_c_delete; [apply lookup_insert_eq|done|].
  apply wp_ret. set (σ' := on_cheap _ _).
  assert (σ' = with_world w σ) as ->.
  { unfold σ'. destruct σ as [? ? ? ?]; unfold on_cheap, on_world, with_world; simpl in *.
    by rewrite delete_insert_id. }
  apply HQ; [| |done..].
  - eapply store_rep_read; [done|apply grows_world|done].
  - split; [by exists y|]. split; [done|]. by eapply stable_checkpoint.
Qed.

(** [Destroy]: the C heap is exactly what it was. *)
Lemma wp_Checkpoint_Destroy σ s h sp a p lc c (Q : unit → st → Prop) :
  store_rep σ s h sp a → ckpt_on σ p lc c h →
  (∀ σ', store_rep σ' s h sp a → cheap σ' = cheap σ →
     (∀ d, on_disk (world σ') d = on_disk (world σ) d) → Q tt σ') →
  wp (Checkpoint_Destroy p) σ Q.
Proof.
  intros Hr ((y & Hy & Hyc) & Hlc & Hck) HQ. destruct p as [|lp| |]; try done.
  unfold Checkpoint_Destroy, rdb_destroy_checkpoint.
  apply wp_bind. eapply wp_go_load; [exact Hy|done|]. rewrite Hyc.
  do 2 apply wp_bind. eapply wp_c_load; [exact Hlc|done|]. apply wp_engine_.
  eapply wp_go_store; [exact Hy|]. apply HQ.
  - destruct Hr as [Hf Hc Hw Hok (x & ro & wo & [Hx (d&?&?) (r&?&?) (o&?&?) Hv Hs])].
    set (σ' := on_gheap _ _).
    assert (∀ q o', go_at σ q o' → as_Checkpoint o' = None → go_at σ' q o') as Hgo.
    { intros [|lq| |] o' Hq Hn; try done. simpl in *. rewrite lookup_insert_ne; [done|].
      intros ->. rewrite Hy in Hq. by simplify_eq. }
    destruct (law_checkpoint_destroy (world σ) c h) as (Ec & Ew & Es & _ & Ef).
    split; simpl; [by apply Ef|by rewrite Ec|by rewrite Ew|done|].
    exists x, ro, wo. split; simpl.
    + by apply Hgo.
    + exists d. split; [by apply Hgo|done].
    + exists r. split; [by apply Hgo|done].
    + exists o. split; [by apply Hgo|done].
    + destruct (kv_read a); simpl in *; [|done]. destruct Hv as (sn & ? & ?). exists sn.
      by rewrite Es.
    + eapply Forall2_impl; [done|]. intros q m (z & sn & ? & ? & ?). exists z, sn.
      split_and!; [by apply Hgo|done|]. simpl. by rewrite Es.
  - done.
  - intros d. simpl. by destruct (law_checkpoint_destroy (world σ) c h) as (_ & _ & _ & -> & _).
Qed.

(** A store opened on a closed database, or on a new one. *)
Lemma wp_NewStore_rep σ path m (Q : ptr * error → st → Prop) :
  faultless (world σ) → map_ok m →
  on_disk (world σ) (c_str path) = Closed m ∨
    (on_disk (world σ) (c_str path) = Absent ∧ m = ∅) →
  (∀ s h σ', store_rep σ' s h [] (KV m None []) → grows σ σ' →
     size (cheap σ') = (1 + opts_blocks + size (cheap σ))%nat →
     stable [h] (world σ) (world σ') → contents (world σ) h = None →
     on_disk (world σ') (c_str path) = InUse →
     (∀ d, d ≠ c_str path → on_disk (world σ') d = on_disk (world σ) d) →
     closable (world σ') h (c_str path) → Q (s, None) σ') →
  wp (NewStore path) σ Q.
Proof.
  intros Hf Hok Hd HQ.
  destruct (law_open (world σ) store_options (c_str path) m)
    as (st0 & h & w & E & Hs & Hst & Hnone & Hc & Hw & Hin & Hother & Hcl); [done|naive_solver|].
  eapply wp_NewStore; [done|]. intros [s e] σ' (x & Hg & Hwd & He & Hso & Hres).
  rewrite Hs in Hres. destruct Hres as [Hdb Hsz]. unfold err_of in He. rewrite Hs in He.
  simpl in *. subst e w. apply (HQ s h); try done.
  split; simpl; try done.
  - by eapply stable_faultless.
  - exists x, new_ReadOptions, {| wo_sync := false |}.
    destruct Hso. by split; simpl; [..|apply law_new_ReadOptions|constructor].
Qed.

(** A store opened for reading on a closed database. *)
Lemma wp_NewReadOnlyStore_rep σ path m (Q : ptr * error → st → Prop) :
  faultless (world σ) → map_ok m → on_disk (world σ) (c_str path) = Closed m →
  (∀ s h σ', store_open false σ' s h [] (KV m None []) →
     quiet (world σ') h →
     size (cheap σ') = (1 + opts_blocks + size (cheap σ))%nat → Q (s, None) σ') →
  wp (NewReadOnlyStore path) σ Q.
Proof.
  intros Hf Hok Hd HQ.
  destruct (law_open_read_only (world σ) store_options (c_str path) false m)
    as (st0 & h & w & E & Hs & Hst & _ & Hc & Hw & Hq); [done..|].
  eapply wp_NewReadOnlyStore; [done|]. intros [s e] σ' (x & Hg & Hwd & He & Hso & Hres).
  rewrite Hs in Hres. destruct Hres as [Hdb Hsz]. unfold err_of in He. rewrite Hs in He.
  simpl in *. subst e w. apply (HQ s h); [|done|done].
  split; simpl; try done.
  - by eapply stable_faultless.
  - exists x, new_ReadOptions, {| wo_sync := false |}.
    destruct Hso. by split; simpl; [..|apply law_new_ReadOptions|constructor].
Qed.
End ckpt.
