(* ===== verification/Scenario.v ===== *)
(** * A concrete starting point

    An empty program state over the in-memory engine, on a platform whose
    [malloc(0)] is not null: what the theorems are instantiated at. *)

From S2P Require Import Prelude Rocks MemRocks Memory Rdbc Rdb RdbSpec Strconv Store StoreSpec.

#[export] Instance glibc : Libc := {| malloc0_null := false |}.

Definition sigma0 : st := St ∅ ∅ mem_world0 [].

(** A state with one open database [h = 1] of contents [m], and one object of each
    kind, at fixed locations of the two heaps: a [*DB] at 1, read options at 2, write
    options at 3, a store at 4, a key at 5, a write batch at 6, an iterator at 7, a
    snapshot at 8, a checkpoint at 9, and at 10 a [*Slice] of the C block 8. *)
Definition sigma_db (m : gmap bytes bytes) : st :=
  St (list_to_map [
        (1%positive, Crdb_t 1%positive);
        (2%positive, Crdb_readoptions_t new_ReadOptions);
        (3%positive, Crdb_writeoptions_t new_WriteOptions);
        (4%positive, Crdb_writebatch_t [UDelete (bs "key")]);
        (5%positive, Crdb_iterator_t 1%positive 0);
        (6%positive, Crdb_snapshot_t 1%positive);
        (7%positive, Crdb_checkpoint_t 1%positive);
        (8%positive, CBytes (bs "val"))])
     (list_to_map [
        (1%positive, GDB (mkDB (PC 1) (bs "d") Nil));
        (2%positive, GReadOptions (PC 2));
        (3%positive, GWriteOptions (PC 3));
        (4%positive, GStore (mkStore (PG 1) Nil Nil (PG 2) (PG 3)));
        (5%positive, GBytes (bs "key"));
        (6%positive, GWriteBatch (PC 4));
        (7%positive, GIterator (PC 5));
        (8%positive, GSnapshot (mkSnapshot (PC 6) (PC 1)));
        (9%positive, GCheckpoint (mkCheckpoint (PC 7) (PC 1)));
        (10%positive, GSlice (mkSlice (PC 8) 3 false))])
     (MWorld {[1%positive := MDb (bs "d") m true]} {[bs "d" := InUse]}
        {[1%positive := (1%positive, m)]} {[1%positive := 1%positive]}
        {[1%positive := MIter (Some 1%positive) m 0]} ∅ ∅)
     [].

(** The key [key] as a Go slice of that state. *)
Definition sl_key : goslice := Sl (PG 5) 3 3.

(** That state represents the map [m]. *)
Lemma sigma_db_rep m : map_ok m → store_rep (sigma_db m) (PG 4) 1 [] (KV m None []).
Proof.
  intros Hm. split; [done|done|done|by split|].
  exists (mkStore (PG 1) Nil Nil (PG 2) (PG 3)), new_ReadOptions, new_WriteOptions.
  split; [done|by eexists|by eexists|by eexists|done|constructor].
Qed.

Lemma sl_key_at m : slice_at (sigma_db m) sl_key (bs "key").
Proof. split_and!; [done|done|]. intros _. exists (bs "key"). by split; [left|]. Qed.
