(* ===== verification/IterScan.v ===== *)
(** * Scans with an iterator

    The loops the comment on [Iterator] in rdb/iterator.go shows: forwards from
    [Seek] as long as [ValidForPrefix], and backwards from [SeekForPrev] or
    [SeekToLast] as long as [Valid]; and what they read. *)

From S2P Require Import Prelude Rocks MemRocks Memory Rdbc Rdb RdbSpec Strconv Store StoreSpec StoreOpen IterSpec Scenario.
From stdpp Require Import sorting.
From Stdlib Require Import Sorting.Sorted.

(** ** The loops *)

Section loops.
Context `{RocksDB, Libc}.

(** [it.Key().Data()] and [it.Value().Data()], read before the iterator moves. *)
Definition read_entry (it : ptr) : M st (bytes * bytes) :=
  k ← Iterator_Key it;
  kd ← Slice_Data k;
  kb ← sl_read kd;
  v ← Iterator_Value it;
  vd ← Slice_Data v;
  vb ← sl_read vd;
  mret (kb, vb).

(** [for ; valid(); move() { read the entry }]; the fuel is the number of passes. *)
Fixpoint scan_loop (valid : M st bool) (move : M st unit) (fuel : nat) (it : ptr) :
    M st (list (bytes * bytes)) :=
  match fuel with
  | O => raise OutOfFuel
  | S fuel =>
      v ← valid;
      if v : bool then
        e ← read_entry it;
        move;;
        es ← scan_loop valid move fuel it;
        mret (e :: es)
      else mret []
  end.

(** The entries, and the result of [it.Err()]; the iterator is closed. *)
Definition finish (it : ptr) (es : list (bytes * bytes)) :
    M st (list (bytes * bytes) * error) :=
  err ← Iterator_Err it;
  Iterator_Close it;;
  mret (es, err).

Definition prefix_scan (fuel : nat) (s : ptr) (prefix : goslice) :
    M st (list (bytes * bytes) * error) :=
  it ← Store_NewIterator s;
  Iterator_Seek it prefix;;
  es ← scan_loop (Iterator_ValidForPrefix it prefix) (Iterator_Next it) fuel it;
  finish it es.

(** From the last key that is not after [from], or from the last key. *)
Definition reverse_scan (fuel : nat) (s : ptr) (from : option goslice) :
    M st (list (bytes * bytes) * error) :=
  it ← Store_NewIterator s;
  match from with
  | Some k => Iterator_SeekForPrev it k
  | None => Iterator_SeekToLast it
  end;;
  es ← scan_loop (Iterator_Valid it) (Iterator_Prev it) fuel it;
  finish it es.
End loops.

Lemma Forall_filter_sub {A} (P Q : A → Prop) `{!∀ x, Decision (Q x)} l :
  Forall P l → Forall P (filter Q l).
Proof. rewrite !Forall_forall. intros HP x []%list_elem_of_filter. auto. Qed.

(** ** Keys with a prefix *)

Lemma HasPrefix_app p r : HasPrefix (p ++ r) p = true.
Proof. unfold HasPrefix. apply bool_decide_eq_true_2. by rewrite take_app_length. Qed.

Lemma HasPrefix_inv k p : HasPrefix k p = true → ∃ r, k = p ++ r.
Proof.
  unfold HasPrefix. intros E%bool_decide_eq_true_1. exists (drop (length p) k).
  rewrite <-E at 1. by rewrite take_drop.
Qed.

(** A key with a prefix is not before it. *)
Lemma prefix_not_before p r : bytes_ltb (p ++ r) p = false.
Proof.
  induction p as [|x p IH]; [by destruct r|]. simpl. by rewrite N.compare_refl.
Qed.

(** Between a prefix and a key that has it, every key has it. *)
Lemma prefix_between p a r :
  bytes_ltb a p = false → bytes_ltb a (p ++ r) = true → HasPrefix a p = true.
Proof.
  revert a. induction p as [|x p IH]; intros [|y a]; simpl; try done.
  destruct (N.compare_spec (Byte.to_N y) (Byte.to_N x)) as [E|?|?]; try done.
  intros H1 H2. apply byte_to_N_inj in E as ->. specialize (IH a H1 H2).
  apply HasPrefix_inv in IH as [q ->]. exact (HasPrefix_app (x :: p) q).
Qed.

(** The entries from the prefix on: first those that have it. *)
Lemma prefix_run p (l : list (bytes * bytes)) :
  StronglySorted bytes_lt l.*1 → (∀ e, e ∈ l → bytes_ltb e.1 p = false) →
  l = filter (λ e, HasPrefix e.1 p = true) l ++ filter (λ e, HasPrefix e.1 p = false) l.
Proof.
  intros Hs Hge. induction l as [|e l IH]; [done|].
  rewrite fmap_cons in Hs. apply StronglySorted_inv in Hs as [Hs He]. rewrite !filter_cons.
  specialize (IH Hs (λ e' H, Hge e' (list_elem_of_further _ _ _ H))).
  destruct (HasPrefix e.1 p) eqn:E.
  - rewrite decide_True, decide_False by done. cbn [app]. by f_equal.
  - rewrite decide_False, decide_True by done.
    assert (filter (λ e, HasPrefix e.1 p = true) l = []) as Hnil.
    { destruct (filter _ l) as [|x l'] eqn:F; [done|]. exfalso.
      assert (x ∈ filter (λ e, HasPrefix e.1 p = true) l) as [Hpx Hx]%list_elem_of_filter
        by (rewrite F; left).
      rewrite Forall_forall in He. specialize (He x.1 (list_elem_of_fmap_2 _ _ _ Hx)).
      apply HasPrefix_inv in Hpx as [r Er]. unfold bytes_lt in He. rewrite Er in He.
      rewrite (prefix_between p e.1 r) in E; [done| |done]. apply Hge. left. }
    rewrite Hnil in *. cbn [app] in *. by rewrite <-IH.
Qed.

(** ** Reading entries *)

Section scans.
Context `{RocksLaws, Libc} {rw : bool}.

(** A loop whose states [P σ es] have the entries [es] still to read. *)
Lemma wp_scan_loop valid move it (P : st → list (bytes * bytes) → Prop) (R : st → Prop) :
  (∀ σ, P σ [] → wp valid σ (λ v σ', v = false ∧ R σ')) →
  (∀ σ e es, P σ (e :: es) → wp valid σ (λ v σ', v = true ∧
     wp (read_entry it) σ' (λ e' σ', e' = e ∧ wp move σ' (λ _ σ', P σ' es)))) →
  ∀ fuel σ es, P σ es → (length es < fuel)%nat →
  wp (scan_loop valid move fuel it) σ (λ r σ', r = es ∧ R σ').
Proof.
  intros Hstop Hgo. induction fuel as [|fuel IH]; intros σ es HP Hf; [lia|].
  cbn [scan_loop]. apply wp_bind. destruct es as [|e es].
  - eapply wp_mono; [by apply Hstop|]. cbn. intros v σ' [-> HR]. by apply wp_ret.
  - eapply wp_mono; [by apply Hgo|]. cbn beta. intros v σ1 [-> HA]. apply wp_bind.
    eapply wp_mono; [exact HA|]. cbn beta. intros e' σ2 [-> HB]. apply wp_bind.
    eapply wp_mono; [exact HB|]. cbn beta. intros _ σ3 HP3. apply wp_bind.
    eapply wp_mono; [apply IH; [exact HP3|simpl in Hf; lia]|]. cbn beta. intros r σ4 [-> HR].
    by apply wp_ret.
Qed.

Lemma wp_slice_data σ lk x (Q : goslice → st → Prop) :
  gheap σ !! lk = Some (GSlice x) → Q (charToByte (slice_data x) (slice_size x)) σ →
  wp (Slice_Data (PG lk)) σ Q.
Proof. intros Hl HQ. unfold Slice_Data. apply wp_bind. by eapply wp_go_load. Qed.

Lemma wp_sl_read σ sl b (Q : bytes → st → Prop) :
  sl_read sl σ = Ret b σ → Q b σ → wp (sl_read sl) σ Q.
Proof. intros E HQ. unfold wp. by rewrite E. Qed.

(** Changes by allocations of the Go program only. *)
Definition goes_on (σ σ' : st) : Prop :=
  gheap σ ⊆ gheap σ' ∧ cheap σ' = cheap σ ∧ world σ' = world σ.

Lemma goes_on_grows σ σ' : goes_on σ σ' → grows σ σ'.
Proof. intros (? & E & _). split; [by rewrite E|done]. Qed.

(** The key, and the bytes it shows. *)
Lemma wp_read_key {A} σ p lc it h gen m e l (k : bytes → M st A) (Q : A → st → Prop) :
  iter_before σ p lc it h gen m (e :: l) → len_ok e.1 →
  (∀ σ', goes_on σ σ' → wp (k e.1) σ' Q) →
  wp (s ← Iterator_Key p; d ← Slice_Data s; b ← sl_read d; k b) σ Q.
Proof.
  intros Hit Hl HQ. apply wp_bind. eapply wp_Key; [exact Hit|]. intros lk Hlk.
  apply wp_bind. eapply wp_slice_data; [apply lookup_insert_eq|]. apply wp_bind.
  eapply wp_sl_read.
  { eapply (sl_read_entry _ _ _ _ _ _ _ e l false); [|done|done].
    eapply (iter_before_grows σ); [by apply grows_go|done|exact Hit]. }
  apply HQ. split; [by apply insert_subseteq|done].
Qed.

Lemma wp_read_value {A} σ p lc it h gen m e l (k : bytes → M st A) (Q : A → st → Prop) :
  iter_before σ p lc it h gen m (e :: l) → len_ok e.2 →
  (∀ σ', goes_on σ σ' → wp (k e.2) σ' Q) →
  wp (s ← Iterator_Value p; d ← Slice_Data s; b ← sl_read d; k b) σ Q.
Proof.
  intros Hit Hl HQ. apply wp_bind. eapply wp_Value; [exact Hit|]. intros lk Hlk.
  apply wp_bind. eapply wp_slice_data; [apply lookup_insert_eq|]. apply wp_bind.
  eapply wp_sl_read.
  { eapply (sl_read_entry _ _ _ _ _ _ _ e l true); [|done|done].
    eapply (iter_before_grows σ); [by apply grows_go|done|exact Hit]. }
  apply HQ. split; [by apply insert_subseteq|done].
Qed.

Lemma goes_on_trans σ1 σ2 σ3 : goes_on σ1 σ2 → goes_on σ2 σ3 → goes_on σ1 σ3.
Proof. intros (? & ? & ?) (? & ? & ?). split_and!; [by etrans|congruence|congruence]. Qed.

Lemma iter_before_goes_on σ σ' p lc it h gen m l :
  goes_on σ σ' → iter_before σ p lc it h gen m l → iter_before σ' p lc it h gen m l.
Proof.
  intros Hg. apply iter_before_grows; [by apply goes_on_grows|by destruct Hg as (_ & _ & ->)].
Qed.

Lemma store_rep_goes_on σ σ' s h sp a :
  goes_on σ σ' → store_open rw σ s h sp a → store_open rw σ' s h sp a.
Proof.
  intros Hg Hr. eapply store_rep_same_world; [done|by apply goes_on_grows|].
  by destruct Hg as (_ & _ & ->).
Qed.

Lemma wp_read_entry σ p lc it h gen m e l (Q : bytes * bytes → st → Prop) :
  iter_before σ p lc it h gen m (e :: l) → len_ok e.1 → len_ok e.2 →
  (∀ σ', goes_on σ σ' → Q e σ') → wp (read_entry p) σ Q.
Proof.
  intros Hit Hk Hv HQ. unfold read_entry. eapply wp_read_key; [exact Hit|done|].
  intros σ1 HA. eapply wp_read_value; [by eapply iter_before_goes_on|done|].
  intros σ2 HB. apply wp_ret. rewrite <-surjective_pairing. apply HQ. by eapply goes_on_trans.
Qed.

Lemma wp_ValidForPrefix σ p lc it h gen m l prefix pb (Q : bool → st → Prop) :
  iter_before σ p lc it h gen m l → slice_at σ prefix pb → Forall (λ e, len_ok e.1) l →
  (∀ σ', goes_on σ σ' → Q (from_option (λ e, HasPrefix e.1 pb) false (head l)) σ') →
  wp (Iterator_ValidForPrefix p prefix) σ Q.
Proof.
  intros Hit Hp Hl HQ. unfold Iterator_ValidForPrefix. apply wp_bind.
  eapply wp_Valid; [exact Hit|]. destruct l as [|e l].
  - rewrite bool_decide_eq_false_2 by (intros E; by apply E). apply wp_ret. by apply HQ.
  - rewrite bool_decide_eq_true_2 by done. apply Forall_cons in Hl as [Hk _].
    eapply wp_read_key; [exact Hit|done|]. intros σ1 HA. apply wp_bind.
    eapply wp_sl_read; [|by apply wp_ret, HQ]. apply sl_read_at.
    eapply slice_at_grows; [by apply goes_on_grows|done].
Qed.

(** ** Moves *)

(** What a move of the iterator leaves: the store, the slices of the program, and the
    size of the C heap. *)
Definition moves_on (lc : loc) (it : handle) (σ σ' : st) : Prop :=
  gheap σ' = gheap σ ∧ (∃ gen gen', cheap σ !! lc = Some (Crdb_iterator_t it gen) ∧
    cheap σ' = <[lc := Crdb_iterator_t it gen']> (cheap σ)).

Lemma moves_on_size lc it σ σ' : moves_on lc it σ σ' → size (cheap σ') = size (cheap σ).
Proof. intros (_ & gen & gen' & Hl & ->). by rewrite map_size_insert, Hl. Qed.

Lemma moves_on_slice lc it σ σ' sl b : moves_on lc it σ σ' → slice_at σ sl b → slice_at σ' sl b.
Proof.
  intros (Eg & gen & gen' & Hl & Ec) (? & ? & Hat). split_and!; [done..|]. intros Hb.
  destruct (Hat Hb) as (a & Ha & Ht). exists a. split; [|done].
  destruct Ha as [Ha|Ha]; [left|right]; destruct (sl_ptr sl); simpl in *; try done.
  - by rewrite Eg.
  - rewrite Ec, lookup_insert_ne; [done|]. intros ->. congruence.
Qed.

Lemma wp_Seek σ s h sp a p lc it gen m key k (Q : unit → st → Prop) :
  store_open rw σ s h sp a → iter_on σ p lc it h gen m → slice_at σ key k →
  (∀ l σ', is_scan m l → store_open rw σ' s h sp a →
     iter_before σ' p lc it h (S gen) m (filter (λ e, bytes_ltb e.1 k = false) l) →
     moves_on lc it σ σ' → Q tt σ') →
  wp (Iterator_Seek p key) σ Q.
Proof.
  intros Hr Hit Hk HQ. pose proof Hit as (_ & Hlc & Hv & _).
  destruct (law_seek (world σ) it m k) as (Hmv & l & Hl & Hrem); [apply Hr|done|].
  eapply wp_iter_load; [exact Hit|]. unfold rdb_iter_seek. apply wp_bind.
  eapply wp_arg; [exact Hk|]. eapply wp_iter_move_on; [done|done|done|].
  intros σ' Hr' Hit' Hw Hc Hg. eapply HQ; [done|done| |by split; [|eauto]].
  split; [done|]. by rewrite Hw.
Qed.

(** The iterator stands at the last entry of [before]. *)
Definition iter_at_last (σ : st) (p : ptr) (lc : loc) (it h : handle)
    (m : gmap bytes bytes) (before after : list (bytes * bytes)) : Prop :=
  (∃ gen, iter_on σ p lc it h gen m) ∧ at_last (world σ) it before after.

Lemma wp_SeekForPrev σ s h sp a p lc it gen m key k (Q : unit → st → Prop) :
  store_open rw σ s h sp a → iter_on σ p lc it h gen m → slice_at σ key k →
  (∀ l σ', is_scan m l → store_open rw σ' s h sp a →
     iter_at_last σ' p lc it h m (filter (λ e, bytes_ltb k e.1 = false) l)
       (filter (λ e, bytes_ltb k e.1 = true) l) →
     moves_on lc it σ σ' → Q tt σ') →
  wp (Iterator_SeekForPrev p key) σ Q.
Proof.
  intros Hr Hit Hk HQ. pose proof Hit as (_ & Hlc & Hv & _).
  destruct (law_seek_for_prev (world σ) it m k) as (Hmv & l & Hl & Hat); [apply Hr|done|].
  eapply wp_iter_load; [exact Hit|]. unfold rdb_iter_seek_for_prev. apply wp_bind.
  eapply wp_arg; [exact Hk|]. eapply wp_iter_move_on; [done|done|done|].
  intros σ' Hr' Hit' Hw Hc Hg. eapply HQ; [done|done| |by split; [|eauto]].
  split; [eauto|]. by rewrite Hw.
Qed.

Lemma wp_SeekToLast σ s h sp a p lc it gen m (Q : unit → st → Prop) :
  store_open rw σ s h sp a → iter_on σ p lc it h gen m →
  (∀ l σ', is_scan m l → store_open rw σ' s h sp a → iter_at_last σ' p lc it h m l [] →
     moves_on lc it σ σ' → Q tt σ') →
  wp (Iterator_SeekToLast p) σ Q.
Proof.
  intros Hr Hit HQ. pose proof Hit as (_ & Hlc & Hv & _).
  destruct (law_seek_last (world σ) it m) as (Hmv & l & Hl & Hat); [apply Hr|done|].
  eapply wp_iter_load; [exact Hit|]. eapply wp_iter_move_on; [done|done|done|].
  intros σ' Hr' Hit' Hw Hc Hg. eapply HQ; [done|done| |by split; [|eauto]].
  split; [eauto|]. by rewrite Hw.
Qed.

Lemma wp_Prev σ s h sp a p lc it m b e after (Q : unit → st → Prop) :
  store_open rw σ s h sp a → iter_at_last σ p lc it h m (b ++ [e]) after →
  (∀ σ', store_open rw σ' s h sp a → iter_at_last σ' p lc it h m b (e :: after) →
     moves_on lc it σ σ' → Q tt σ') →
  wp (Iterator_Prev p) σ Q.
Proof.
  intros Hr ((gen & Hit) & _ & Hat) HQ. pose proof Hit as (_ & Hlc & Hv & _).
  destruct (Hat b e eq_refl) as [Hrem Hpas].
  destruct (law_prev (world σ) it e after b) as [Hmv Hat']; [apply Hr|done|done|].
  eapply wp_iter_load; [exact Hit|]. eapply wp_iter_move_on; [done|done|done|].
  intros σ' Hr' Hit' Hw Hc Hg. eapply HQ; [done| |by split; [|eauto]].
  split; [eauto|]. by rewrite Hw.
Qed.

(** ** The end of a scan *)

Lemma wp_finish σ s h sp a p lc it gen m es (Q : list (bytes * bytes) * error → st → Prop) :
  store_open rw σ s h sp a → iter_on σ p lc it h gen m →
  (∀ σ', store_open rw σ' s h sp a → size (cheap σ) = S (size (cheap σ')) → Q (es, None) σ') →
  wp (finish p es) σ Q.
Proof.
  intros Hr (Hp & Hlc & Hv & _) HQ. pose proof (sr_faultless _ _ _ _ _ _ Hr) as Hf.
  destruct p as [|lp| |]; try done. simpl in Hp.
  unfold finish, Iterator_Err, rdb_iter_get_error, Iterator_Close, rdb_iter_destroy.
  run. unfold SaveError. rewrite (law_iterator_status _ _ _ Hf Hv). run.
  apply (wp_ret None). run.
  eapply wp_c_delete; [exact Hlc|done|]. eapply wp_go_store; [exact Hp|]. apply wp_ret.
  apply HQ.
  - eapply store_rep_keep; [done| | |by eapply law_iterator_destroy].
    + intros l o Hl Ho. cbn. rewrite lookup_delete_ne; [done|]. intros ->.
      rewrite Hlc in Hl. by simplify_eq.
    + intros l o Hl Ho. cbn. rewrite lookup_insert_ne; [done|]. intros ->.
      rewrite Hp in Hl. by simplify_eq.
  - cbn. symmetry. by eapply size_delete_S.
Qed.

(** ** The scans *)

(** The keys of the store fit a Go [int]; the lengths of its values do anyway. *)
Definition keys_ok (m : gmap bytes bytes) : Prop := map_Forall (λ k _, len_ok k) m.

Lemma scan_lens m l : keys_ok m → map_ok m → is_scan m l → Forall (λ e, len_ok e.1 ∧ len_ok e.2) l.
Proof.
  intros Hk Hv [Hp _]. apply Forall_forall. intros [k v] Hin. rewrite Hp in Hin.
  apply elem_of_map_to_list in Hin. split; [by eapply Hk|by eapply Hv].
Qed.

(** Between two passes, with the entries [es] to read and [n] C blocks; at the end. *)
Definition scan_end (s : ptr) h sp a p lc it (n : nat) (σ : st) : Prop :=
  store_open rw σ s h sp a ∧ (∃ gen, iter_on σ p lc it h gen (kv_live a)) ∧ size (cheap σ) = n.

Definition forward_at (s : ptr) h sp a p lc it prefix (pb : bytes) n (σ : st)
    (es : list (bytes * bytes)) : Prop :=
  ∃ gen rest, store_open rw σ s h sp a ∧ iter_before σ p lc it h gen (kv_live a) (es ++ rest) ∧
    slice_at σ prefix pb ∧ size (cheap σ) = n ∧
    Forall (λ e, len_ok e.1 ∧ len_ok e.2) (es ++ rest) ∧
    Forall (λ e, HasPrefix e.1 pb = true) es ∧
    from_option (λ e, HasPrefix e.1 pb) false (head rest) = false.

Lemma wp_forward_loop s h sp a p lc it prefix pb n fuel σ es :
  forward_at s h sp a p lc it prefix pb n σ es → (length es < fuel)%nat →
  wp (scan_loop (Iterator_ValidForPrefix p prefix) (Iterator_Next p) fuel p) σ
    (λ r σ', r = es ∧ scan_end s h sp a p lc it n σ').
Proof.
  apply wp_scan_loop; clear σ es.
  - intros σ (gen & rest & Hr & Hit & Hp & Hn & Hl & _ & Hh). cbn [app] in *.
    eapply wp_ValidForPrefix; [exact Hit|exact Hp|by eapply Forall_impl; [exact Hl|intros ? []]|].
    intros σ1 Hg. split; [done|]. split; [by eapply store_rep_goes_on|].
    split; [exists gen; by eapply iter_before_goes_on|]. by destruct Hg as (_ & -> & _).
  - intros σ e es (gen & rest & Hr & Hit & Hp & Hn & Hl & Hpre & Hh). cbn [app] in *.
    eapply wp_ValidForPrefix; [exact Hit|exact Hp|by eapply Forall_impl; [exact Hl|intros ? []]|].
    intros σ1 Hg1. apply Forall_cons in Hl as [[Hk Hv] Hl].
    apply Forall_cons in Hpre as [He Hpre]. split; [done|].
    eapply wp_read_entry; [by eapply iter_before_goes_on|done|done|]. intros σ2 Hg2.
    split; [done|]. pose proof (goes_on_trans _ _ _ Hg1 Hg2) as Hg. clear Hg1 Hg2 σ1.
    pose proof Hg as (_ & Ec & _).
    eapply wp_Next; [by eapply store_rep_goes_on|by eapply iter_before_goes_on|].
    intros σ3 Hr3 Hit3 Ec3 Eg3.
    assert (moves_on lc it σ2 σ3) as Hmv.
    { split; [done|]. exists gen, (S gen). split; [|done]. rewrite Ec. apply Hit. }
    exists (S gen), rest. split_and!; try done.
    + eapply moves_on_slice, slice_at_grows; [done|by apply goes_on_grows|done].
    + rewrite (moves_on_size _ _ _ _ Hmv). by rewrite Ec.
Qed.

Definition backward_at (s : ptr) h sp a p lc it n (σ : st) (es : list (bytes * bytes)) : Prop :=
  ∃ after, store_open rw σ s h sp a ∧ iter_at_last σ p lc it h (kv_live a) (reverse es) after ∧
    size (cheap σ) = n ∧ Forall (λ e, len_ok e.1 ∧ len_ok e.2) es.

Lemma wp_backward_loop s h sp a p lc it n fuel σ es :
  backward_at s h sp a p lc it n σ es → (length es < fuel)%nat →
  wp (scan_loop (Iterator_Valid p) (Iterator_Prev p) fuel p) σ
    (λ r σ', r = es ∧ scan_end s h sp a p lc it n σ').
Proof.
  apply wp_scan_loop; clear σ es.
  - intros σ (after & Hr & ((gen & Hit) & Hat & _) & Hn & _).
    eapply (wp_Valid _ _ _ _ _ _ _ []); [by split; [|apply Hat]|].
    rewrite bool_decide_eq_false_2 by (intros E; by apply E).
    split; [done|]. split; [done|]. by split; [exists gen|].
  - intros σ e es (after & Hr & ((gen & Hit) & _ & Hat) & Hn & Hl). rewrite reverse_cons in Hat.
    destruct (Hat _ _ eq_refl) as [Hrem Hpas].
    apply Forall_cons in Hl as [[Hk Hv] Hl].
    assert (iter_before σ p lc it h gen (kv_live a) (e :: after)) as Hbe by done.
    eapply wp_Valid; [exact Hbe|]. rewrite bool_decide_eq_true_2 by done. split; [done|].
    eapply wp_read_entry; [exact Hbe|done|done|]. intros σ1 Hg. split; [done|].
    pose proof Hg as (_ & Ec & Ew).
    eapply (wp_Prev _ s h sp a p lc it (kv_live a) (reverse es) e after);
      [by eapply store_rep_goes_on| |].
    { split; [exists gen; by eapply iter_before_goes_on|]. rewrite Ew. split; [|exact Hat].
      intros E. by destruct (reverse es). }
    intros σ2 Hr2 Hit2 Hmv. exists (e :: after). split_and!; [done|done| |done].
    rewrite (moves_on_size _ _ _ _ Hmv). by rewrite Ec.
Qed.

(** C37: a forward scan with [Seek] and [ValidForPrefix] reads exactly the entries of
    the store whose keys have the prefix, in the order of the keys, and no error; a
    pass for each entry and one more is enough fuel.  When the iterator is closed,
    the C heap has one block more than before: the read options
    [Store.NewIterator] made. *)
Theorem prefix_scan_complete fuel σ s h sp a prefix pb :
  store_open rw σ s h sp a → keys_ok (kv_live a) → slice_at σ prefix pb →
  (size (kv_live a) < fuel)%nat →
  wp (prefix_scan fuel s prefix) σ (λ '(es, err) σ', err = None ∧
    (∃ l, is_scan (kv_live a) l ∧ es = filter (λ e, HasPrefix e.1 pb = true) l) ∧
    store_open rw σ' s h sp a ∧ size (cheap σ') = S (size (cheap σ))).
Proof.
  intros Hr Hk Hp Hf. unfold prefix_scan. apply wp_bind.
  eapply wp_Store_NewIterator; [exact Hr|]. intros p lc it σ1 Hr1 Hit1 Hg1 Hn1.
  apply wp_bind. eapply wp_Seek; [exact Hr1|exact Hit1|by eapply slice_at_grows|].
  intros l σ2 Hl Hr2 Hit2 Hmv. pose proof (moves_on_size _ _ _ _ Hmv) as Hn2.
  pose proof (scan_lens _ _ Hk (kv_ok_live _ (sr_ok _ _ _ _ _ _ Hr)) Hl) as Hlens.
  pose proof Hl as [Hperm Hsort].
  set (ge := filter (λ e, bytes_ltb e.1 pb = false) l) in *.
  set (es := filter (λ e, HasPrefix e.1 pb = true) ge).
  assert (es = filter (λ e, HasPrefix e.1 pb = true) l) as Ees.
  { unfold es, ge. rewrite list_filter_filter. apply list_filter_iff. intros [k v]. cbn.
    split; [by intros []|]. intros Hpre. split; [done|].
    apply HasPrefix_inv in Hpre as [r ->]. apply prefix_not_before. }
  assert (StronglySorted bytes_lt ge.*1) as Hge.
  { pose proof (filter_sorted (λ k, bytes_ltb k pb) l Hsort) as E.
    rewrite E, fmap_app in Hsort by (intros ?? ?; by apply bytes_ltb_trans).
    by eapply StronglySorted_app_1_r. }
  pose proof (prefix_run pb ge Hge) as Hrun. fold es in Hrun.
  apply wp_bind. eapply wp_mono.
  { eapply (wp_forward_loop s h sp a p lc it prefix pb (size (cheap σ2)) fuel σ2 es).
    - specialize (Hrun (λ e He, proj1 (proj1 (list_elem_of_filter _ _ _) He))).
      exists 1%nat, (filter (λ e, HasPrefix e.1 pb = false) ge). rewrite <-Hrun.
      split; [done|]. split; [done|]. split; [|split; [done|split_and!]].
      + eapply moves_on_slice; [done|by eapply slice_at_grows].
      + by apply Forall_filter_sub.
      + apply Forall_forall. intros e He. by apply list_elem_of_filter in He as [? _].
      + destruct (head (filter (λ e, HasPrefix e.1 pb = false) ge)) as [e|] eqn:F; [|done].
        cbn. by apply head_Some_elem_of, list_elem_of_filter in F as [? _].
    - rewrite Ees. eapply Nat.le_lt_trans; [apply length_filter|].
      rewrite Hperm, length_map_to_list. done. }
  cbn beta. intros r σ3 (-> & Hr3 & (gen & Hit3) & Hn3).
  eapply wp_finish; [exact Hr3|exact Hit3|]. intros σ4 Hr4 Hn4. split_and!; [done| |done|lia].
  by exists l.
Qed.

(** C38: a backward scan with [SeekForPrev] and [Prev] reads the entries whose keys are
    not after the given one, and one with [SeekToLast] all entries, in descending
    order of the keys, and no error. *)
Theorem reverse_scan_complete fuel σ s h sp a from :
  store_open rw σ s h sp a → keys_ok (kv_live a) →
  (size (kv_live a) < fuel)%nat →
  from_option (λ '(key, k), slice_at σ key k) True from →
  wp (reverse_scan fuel s (fst <$> from)) σ (λ '(es, err) σ', err = None ∧
    (∃ l, is_scan (kv_live a) l ∧
       es = reverse (match from with
                     | Some (_, k) => filter (λ e, bytes_ltb k e.1 = false) l
                     | None => l
                     end)) ∧
    store_open rw σ' s h sp a).
Proof.
  intros Hr Hk Hf Hfrom. unfold reverse_scan. apply wp_bind.
  eapply wp_Store_NewIterator; [exact Hr|]. intros p lc it σ1 Hr1 Hit1 Hg1 Hn1.
  pose proof (kv_ok_live _ (sr_ok _ _ _ _ _ _ Hr)) as Hv.
  set (es (l : list (bytes * bytes)) := reverse (match from with
    | Some (_, k) => filter (λ e, bytes_ltb k e.1 = false) l | None => l end)).
  apply wp_bind. apply (wp_mono _ _ (λ _ σ2, ∃ l after, is_scan (kv_live a) l ∧
    store_open rw σ2 s h sp a ∧ iter_at_last σ2 p lc it h (kv_live a) (reverse (es l)) after)).
  { unfold es. destruct from as [[key k]|]; cbn [fmap option_fmap option_map fst].
    - eapply wp_SeekForPrev; [exact Hr1|exact Hit1|by eapply slice_at_grows|].
      intros l σ2 Hl Hr2 Hit2 _. eexists l, _. rewrite reverse_involutive. done.
    - eapply wp_SeekToLast; [exact Hr1|exact Hit1|].
      intros l σ2 Hl Hr2 Hit2 _. eexists l, _. by rewrite reverse_involutive. }
  intros _ σ2 (l & after & Hl & Hr2 & Hit2). apply wp_bind. eapply wp_mono.
  { apply (wp_backward_loop s h sp a p lc it (size (cheap σ2)) fuel σ2 (es l)).
    - exists after. split_and!; try done. unfold es. apply Forall_reverse.
      pose proof (scan_lens _ _ Hk Hv Hl). destruct from as [[]|]; [by apply Forall_filter_sub|done].
    - eapply Nat.le_lt_trans; [|exact Hf]. destruct Hl as [Hperm _].
      rewrite <-(length_map_to_list (kv_live a)), <-Hperm. unfold es. rewrite length_reverse.
      destruct from as [[]|]; [apply length_filter|done]. }
  cbn beta. intros r σ3 (-> & Hr3 & (gen & Hit3) & _).
  eapply wp_finish; [exact Hr3|exact Hit3|]. intros σ4 Hr4 _. split_and!; [done| |done].
  by exists l.
Qed.
End scans.

(** ** Witnesses *)

Definition demo_map : gmap bytes bytes :=
  list_to_map [(bs "ab", bs "1"); (bs "abc", bs "2"); (bs "b", bs "3")].

Lemma demo_map_ok : keys_ok demo_map ∧ map_ok demo_map.
Proof.
  split; repeat (apply map_Forall_insert_2; [done|]); apply map_Forall_empty.
Qed.

Lemma prefix_scan_complete_witness :
  wp (prefix_scan 5 (PG 4) sl_key) (sigma_db demo_map) (λ '(es, err) σ', err = None ∧
    (∃ l, is_scan demo_map l ∧ es = filter (λ e, HasPrefix e.1 (bs "key") = true) l) ∧
    store_rep σ' (PG 4) 1 [] (KV demo_map None []) ∧
    size (cheap σ') = S (size (cheap (sigma_db demo_map)))).
Proof.
  apply (prefix_scan_complete 5 _ (PG 4) 1 [] (KV demo_map None []) sl_key (bs "key"));
    [apply sigma_db_rep, demo_map_ok|apply demo_map_ok|apply sl_key_at|vm_compute; lia].
Defined.

Lemma reverse_scan_complete_witness :
  wp (reverse_scan 5 (PG 4) (Some sl_key)) (sigma_db demo_map) (λ '(es, err) σ', err = None ∧
    (∃ l, is_scan demo_map l ∧ es = reverse (filter (λ e, bytes_ltb (bs "key") e.1 = false) l)) ∧
    store_rep σ' (PG 4) 1 [] (KV demo_map None [])).
Proof.
  apply (reverse_scan_complete 5 _ (PG 4) 1 [] (KV demo_map None []) (Some (sl_key, bs "key")));
    [apply sigma_db_rep, demo_map_ok|apply demo_map_ok|vm_compute; lia|apply sl_key_at].
Defined.
