(* ===== verification/StoreTheorems.v ===== *)
(** * Theorems on package store

    The properties of the store as a whole: the refinement of a map with snapshots,
    the outcome of each operation for every answer of the engine, the options a
    store is opened with, checkpoints, and the size statistics. *)

From S2P Require Import Prelude Rocks MemRocks Memory Rdbc Rdb RdbSpec Strconv Store StoreSpec StoreOpen IterSpec CheckpointSpec Scenario.

(** A client session: open a store, then perform the operations. *)
Definition session `{RocksDB, Libc} (path : bytes) (os : list op) :
    M st (error * list result) :=
  '(s, err) ← NewStore path;
  '(rs, _) ← run_ops s [] os;
  mret (err, rs).

Section theorems.
Context `{RocksLaws, Libc}.

(** The directory holds a database of contents [m], or nothing and [m] is empty. *)
Definition holds (w : World) (dir : bytes) (m : gmap bytes bytes) : Prop :=
  on_disk w (c_str dir) = Closed m ∨ (on_disk w (c_str dir) = Absent ∧ m = ∅).

(** C1: a store opened with [NewStore] refines a map with snapshots: every
    sequence of gets, sets, deletes, batches, snapshots and snapshot selections runs
    without a fault, returns exactly the results of the specification [kv_run], and
    leaves on the C heap only the store's own blocks and one per snapshot. *)
Theorem store_refines_map σ path m os :
  faultless (world σ) → map_ok m → holds (world σ) path m → Forall op_ok os →
  wp (session path os) σ (λ '(err, rs) σ',
    err = None ∧ rs = (kv_run os (KV m None [])).1 ∧
    size (cheap σ') =
      (1 + opts_blocks + sum_list (op_blocks <$> os) + size (cheap σ))%nat).
Proof.
  intros Hf Hm Hd Hos. apply wp_bind. eapply wp_NewStore_rep; [done..|].
  intros s h σ1 Hr _ Hsz _ _ _ _ _. apply wp_bind. eapply wp_run_ops; [done|done|].
  intros sp σ2 _ Hsz2. apply wp_ret. split_and!; [done|done|lia].
Qed.

(** The snapshot scenario of store_test.go, for every key and all values: a
    get follows the last set until a snapshot is selected, then returns the value at
    the time of the snapshot, and the last set again once it is cleared. *)
Theorem snapshot_isolates σ path m k v1 v2 :
  faultless (world σ) → map_ok m → holds (world σ) path m →
  len_ok k → len_ok v1 → len_ok v2 →
  wp (session path [OpSet k v1; OpNewSnapshot; OpSet k v2; OpGet k;
                    OpSetSnapshot (Some 0%nat); OpGet k; OpSetSnapshot None; OpGet k]) σ
    (λ '(err, rs) _, err = None ∧ (rs !! 3%nat) = Some (v2, None) ∧
       (rs !! 5%nat) = Some (v1, None) ∧ (rs !! 7%nat) = Some (v2, None)).
Proof.
  intros Hf Hm Hd Hk Hv1 Hv2. apply wp_bind. eapply wp_NewStore_rep; [done..|].
  intros s h σ1 Hr _ _ _ _ _ _ _. apply wp_bind. eapply wp_run_ops; [done|by repeat constructor|].
  intros sp σ2 _ _. apply wp_ret. cbn. unfold kv_view. cbn.
  by rewrite !lookup_insert_eq.
Qed.

(** A client that keeps a checkpoint of the state after the first set. *)
Definition checkpoint_session (path dir k v1 v2 : bytes) : M st (list result) :=
  '(s, _) ← NewStore path;
  _ ← client_set s k v1;
  '(c, _) ← Store_NewCheckpoint s;
  _ ← Checkpoint_Save c dir;
  Checkpoint_Destroy c;;
  _ ← client_set s k v2;
  r1 ← client_get s k;
  '(s2, _) ← NewStore dir;
  r2 ← client_get s2 k;
  mret [r1; r2].

(** C21: the checkpoint scenario of store_test.go, for every key and all values: the
    original store goes on with the new value, and a store opened on the saved
    checkpoint has the old one.  The C heap holds one block more than the two
    stores need: the struct [Checkpoint.Destroy] does not free. *)
Theorem checkpoint_preserves σ path dir m k v1 v2 :
  faultless (world σ) → map_ok m → holds (world σ) path m →
  on_disk (world σ) (c_str dir) = Absent → c_str dir ≠ c_str path →
  len_ok k → len_ok v1 → len_ok v2 →
  wp (checkpoint_session path dir k v1 v2) σ (λ rs σ',
    rs = [(v2, None); (v1, None)] ∧
    size (cheap σ') = (2 * (1 + opts_blocks) + 1 + size (cheap σ))%nat).
Proof.
  intros Hf Hm Hd Hdir Hne Hk Hv1 Hv2. apply wp_bind. eapply wp_NewStore_rep; [done..|].
  intros s h σ1 Hr1 _ Hsz1 _ _ Hin1 Hd1 _. apply wp_bind. eapply wp_client_set_rep; [done..|].
  intros σ2 Hr2 Hc2 Hd2. apply wp_bind. eapply wp_NewCheckpoint; [done|].
  intros c lc ck σ3 Hr3 _ Hck3 Hd3 Hsz3. apply wp_bind. eapply wp_Checkpoint_Save; [done|done| |].
  { by rewrite Hd3, Hd2, Hd1. }
  intros σ4 Hr4 Hck4 Hc4 Hdir4 _. apply wp_bind. eapply wp_Checkpoint_Destroy; [done|done|].
  intros σ5 Hr5 Hc5 Hd5. apply wp_bind. eapply wp_client_set_rep; [done..|].
  intros σ6 Hr6 Hc6 Hd6. apply wp_bind. eapply wp_client_get; [done..|].
  intros σ7 Hr7 Hc7 Hd7. apply wp_bind. eapply (wp_NewStore_rep _ _ (<[k := v1]> m)).
  { apply Hr7. }
  { by apply map_ok_insert. }
  { left. by rewrite Hd7, Hd6, Hd5. }
  intros s2 h2 σ8 Hr8 _ Hsz8 _ _ _ _ _. apply wp_bind. eapply wp_client_get; [done..|].
  intros σ9 _ Hc9 _. apply wp_ret. unfold kv_view. cbn. rewrite !lookup_insert_eq.
  split; [done|]. rewrite Hc9, Hsz8, Hc7, Hc6, Hc5, Hc4, Hsz3, Hc2, Hsz1. unfold opts_blocks. lia.
Qed.
End theorems.

Section outcomes.
Context `{RocksDB, Libc}.

(** The parse of a property in decimal. *)
Lemma ParseUint_property (m : option Z) (σ : st) :
  from_option (Z.le 0) True m →
  (mret (ParseUint (from_option c_str [] (itoa <$> m))).1 : M st Z) σ =
    Ret (from_option (Z.min maxUint64) 0 m) σ.
Proof.
  destruct m as [n|]; simpl; [|done]. intros Hn.
  rewrite c_str_id by by apply itoa_no_nul. rewrite ParseUint_itoa by done.
  destruct (Z.leb_spec n maxUint64); simpl; do 2 f_equal; lia.
Qed.

(** The store at [s]: its Go struct, its database and its options. *)
Definition store_handles (σ : st) (s : ptr) (h : handle) (ro : ReadOptionsRep)
    (wo : WriteOptionsRep) : Prop :=
  ∃ x, go_at σ s (GStore x) ∧ db_at σ (s_db x) h ∧ ro_at σ (s_ropt x) ro ∧
       wo_at σ (s_wopt x) wo.

(** C2: [Get], for whatever the engine answers: a found value is copied into a
    [*Slice] of its own; a key that is not found gives a [*Slice] of size 0 and no
    error; any other status gives its message as the error and leaves both heaps as
    they were. *)
Theorem Store_Get_outcome σ s h ro wo key k st0 v w :
  store_handles σ s h ro wo → slice_at σ key k →
  rocks_DB_Get h ro k (world σ) = (st0, v, w) →
  wp (Store_Get s key) σ (λ r σ', get_result st0 v (with_world w σ) r σ').
Proof.
  intros (x & Hs & Hdb & Hro & _) Hk E. unfold Store_Get. apply wp_bind.
  eapply wp_go_load; [done|done|]. apply wp_bind. eapply wp_DB_Get; [done..|].
  intros r σ' Hres. pose proof Hres as Hres'. unfold get_result, err_of in Hres'.
  destruct (status_ok st0); [|destruct (status_IsNotFound st0)].
  - destruct Hres' as (l & p & σ1 & _ & _ & -> & _). by apply wp_ret.
  - destruct Hres' as (l & _ & -> & _). by apply wp_ret.
  - destruct Hres' as [-> _]. by apply wp_ret.
Qed.

(** C24: the three write operations of a store return the engine's status as a Go
    error, whatever it is, and change nothing but the engine: the C strings and
    error messages they allocate are freed again. *)
Theorem store_writes_outcome σ s h ro wo key k val v batch b :
  store_handles σ s h ro wo → slice_at σ key k → slice_at σ val v → wb_at σ batch b →
  let ret r := Ret (err_of r.1) (with_world r.2 σ) in
  Store_SetOne s key val σ = ret (rocks_DB_Put h wo k v (world σ)) ∧
  Store_Delete s key σ = ret (rocks_DB_Delete h wo k (world σ)) ∧
  Store_WriteBatch s batch σ = ret (rocks_DB_Write h wo b (world σ)).
Proof.
  intros (x & Hs & Hdb & _ & Hwo) Hk Hv Hb. unfold Store_SetOne, Store_Delete, Store_WriteBatch.
  split_and!; (erewrite bind_ret; [|by eapply go_at_load]).
  - destruct (rocks_DB_Put h wo k v (world σ)) eqn:E. by erewrite DB_Put_spec.
  - destruct (rocks_DB_Delete h wo k (world σ)) eqn:E. by erewrite DB_Delete_spec.
  - destruct (rocks_DB_Write h wo b (world σ)) eqn:E. by erewrite DB_Write_spec.
Qed.

(** C22: the three constructors, for whatever the engine answers: a store whose
    options are set (synchronous writes in [NewSyncStore] only), with the database
    on success, and with a nil [db] and the engine's message on failure; five C
    blocks for the options, one more for the database. *)
Theorem constructors_outcome σ path :
  wp (NewStore path) σ (λ r σ',
    let '(st0, rep, w) := rocks_DB_Open store_options (c_str path) (world σ) in
    constructed st0 rep false w σ r σ') ∧
  wp (NewSyncStore path) σ (λ r σ',
    let '(st0, rep, w) := rocks_DB_Open store_options (c_str path) (world σ) in
    constructed st0 rep true w σ r σ') ∧
  wp (NewReadOnlyStore path) σ (λ r σ',
    let '(st0, rep, w) :=
      rocks_DB_OpenForReadOnly store_options (c_str path) false (world σ) in
    constructed st0 rep false w σ r σ').
Proof.
  destruct (rocks_DB_Open _ _ _) as [[st0 rep] w] eqn:E.
  destruct (rocks_DB_OpenForReadOnly _ _ _ _) as [[st1 rep1] w1] eqn:E1.
  split_and!; [eapply wp_NewStore|eapply wp_NewSyncStore|eapply wp_NewReadOnlyStore]; eauto.
Qed.

(** C23: [setOpts] sets the Bloom filter on the block-based table options after the
    table factory was built from a copy of them: the options the database is
    opened with carry the factory of the default options, which have no filter
    policy; and the filter is held by the struct of the store alone, no factory
    shares it. *)
Theorem setOpts_drops_bloom_filter σ :
  wp (s ← new_Store; Store_setOpts s;; mret s) σ (λ s σ', ∃ x b t lf,
    go_at σ' s (GStore x) ∧
    opts_at σ' (s_opt x) {| create_if_missing := true;
      table_factory := NewBlockBasedTableFactory new_BlockBasedTableOptions |} ∧
    filter_policy new_BlockBasedTableOptions = None ∧
    go_at σ' (s_blockopt x) (GBlockBasedTableOptions b) ∧
    c_at σ' (bbto_c b) (Crdb_block_based_table_options_t t false) ∧
    filter_policy t = Some lf ∧
    c_at σ' (PC lf) (Crdb_filterpolicy_t (FPWrapper (NewBloomFilterPolicy 16 true)))).
Proof.
  apply wp_new_setOpts. intros s x σ' _ [Hs Ho _ _ _ (b & t & lf & Hb & Ht & _ & Hf & Hlf)] _.
  apply wp_ret. exists x, b, t, lf. pose proof new_BlockBasedTableOptions_filter. by split_and!.
Qed.

(** [MemtableSize] and [IndexFilterblockSize] change nothing.  When the engine
    answers with the decimal form of a number they return that number, or the
    largest [uint64] if it does not fit; a property the engine does not have gives 0,
    because the error of the parse is dropped. *)
Theorem store_sizes_value σ s h ro wo mem index :
  store_handles σ s h ro wo → from_option (Z.le 0) True mem → from_option (Z.le 0) True index →
  rocks_DB_GetProperty h (bs "rocksdb.cur-size-all-mem-tables") (world σ) = itoa <$> mem →
  rocks_DB_GetProperty h (bs "rocksdb.estimate-table-readers-mem") (world σ) = itoa <$> index →
  Store_MemtableSize s σ = Ret (from_option (Z.min maxUint64) 0 mem) σ ∧
  Store_IndexFilterblockSize s σ = Ret (from_option (Z.min maxUint64) 0 index) σ.
Proof.
  intros (x & Hs & Hdb & _) Hm Hi Em Ei. unfold Store_MemtableSize, Store_IndexFilterblockSize.
  split; (erewrite bind_ret; [|by eapply go_at_load]);
    (erewrite bind_ret; [|by eapply DB_GetProperty_spec]).
  - change (c_str (bs "rocksdb.cur-size-all-mem-tables"))
      with (bs "rocksdb.cur-size-all-mem-tables"). rewrite Em. by apply ParseUint_property.
  - change (c_str (bs "rocksdb.estimate-table-readers-mem"))
      with (bs "rocksdb.estimate-table-readers-mem"). rewrite Ei. by apply ParseUint_property.
Qed.
End outcomes.

(** ** Witnesses: the in-memory engine *)

Lemma sigma_db_handles m :
  store_handles (sigma_db m) (PG 4) 1%positive new_ReadOptions new_WriteOptions.
Proof.
  exists (mkStore (PG 1) Nil Nil (PG 2) (PG 3)). split_and!; [done|eexists; split; done..].
Qed.

Definition demo_ops : list op :=
  [OpSet (bs "k") (bs "v"); OpNewSnapshot; OpDelete (bs "k"); OpGet (bs "k");
   OpSetSnapshot (Some 0%nat); OpGet (bs "k")].

Lemma store_refines_map_witness :
  (kv_run demo_ops (KV ∅ None [])).1 !! 5%nat = Some (bs "v", None) ∧
  wp (session (bs "d") demo_ops) sigma0 (λ '(err, rs) σ',
    err = None ∧ rs = (kv_run demo_ops (KV ∅ None [])).1 ∧
    size (cheap σ') =
      (1 + opts_blocks + sum_list (op_blocks <$> demo_ops) + size (cheap sigma0))%nat).
Proof.
  split; [vm_compute; reflexivity|].
  apply (store_refines_map sigma0 (bs "d") ∅); [done|done|by right|].
  by repeat constructor.
Defined.

Lemma snapshot_isolates_witness :
  wp (session (bs "d") [OpSet (bs "k") (bs "1"); OpNewSnapshot; OpSet (bs "k") (bs "2");
                        OpGet (bs "k"); OpSetSnapshot (Some 0%nat); OpGet (bs "k");
                        OpSetSnapshot None; OpGet (bs "k")]) sigma0
    (λ '(err, rs) _, err = None ∧ (rs !! 3%nat) = Some (bs "2", None) ∧
       (rs !! 5%nat) = Some (bs "1", None) ∧ (rs !! 7%nat) = Some (bs "2", None)).
Proof.
  by apply (snapshot_isolates sigma0 (bs "d") ∅ (bs "k") (bs "1") (bs "2")); [|done|right|..].
Defined.

Lemma checkpoint_preserves_witness :
  wp (checkpoint_session (bs "d") (bs "c") (bs "k") (bs "1") (bs "2")) sigma0 (λ rs σ',
    rs = [(bs "2", None); (bs "1", None)] ∧
    size (cheap σ') = (2 * (1 + opts_blocks) + 1 + size (cheap sigma0))%nat).
Proof.
  by apply (checkpoint_preserves sigma0 (bs "d") (bs "c") ∅); [|done|right|..].
Defined.

Lemma Store_Get_outcome_witness :
  wp (Store_Get (PG 4) sl_key) (sigma_db {[bs "key" := bs "val"]}) (λ r σ',
    get_result MOk (bs "val") (with_world (world (sigma_db {[bs "key" := bs "val"]}))
      (sigma_db {[bs "key" := bs "val"]})) r σ').
Proof.
  apply (Store_Get_outcome _ (PG 4) 1%positive new_ReadOptions new_WriteOptions sl_key (bs "key"));
    [apply sigma_db_handles|apply sl_key_at|vm_compute; reflexivity].
Defined.

Lemma store_writes_outcome_witness :
  let σ := sigma_db ∅ in
  let ret r := Ret (err_of r.1) (with_world r.2 σ) in
  Store_SetOne (PG 4) sl_key sl_key σ =
    ret (rocks_DB_Put 1%positive new_WriteOptions (bs "key") (bs "key") (world σ)) ∧
  Store_Delete (PG 4) sl_key σ =
    ret (rocks_DB_Delete 1%positive new_WriteOptions (bs "key") (world σ)) ∧
  Store_WriteBatch (PG 4) (PG 6) σ =
    ret (rocks_DB_Write 1%positive new_WriteOptions [UDelete (bs "key")] (world σ)).
Proof.
  apply (store_writes_outcome (sigma_db ∅) (PG 4) 1%positive new_ReadOptions);
    [apply sigma_db_handles|apply sl_key_at|apply sl_key_at|].
  by exists (PC 4).
Defined.

Lemma store_sizes_value_witness :
  Store_MemtableSize (PG 4) (sigma_db ∅) = Ret 2048 (sigma_db ∅) ∧
  Store_IndexFilterblockSize (PG 4) (sigma_db ∅) = Ret 0 (sigma_db ∅).
Proof.
  by apply (store_sizes_value (sigma_db ∅) (PG 4) 1%positive new_ReadOptions new_WriteOptions
    (Some 2048) None); [apply sigma_db_handles|..].
Defined.
