(* ===== verification/ReadOnly.v ===== *)
(** * A store opened for reading only

    The third constructor of store.go, [NewReadOnlyStore], on a database that was
    closed.  Its clients may call everything; [ro_run] is the specification: writes
    err and change nothing, and the rest is as for any store ([StoreSpec.kv_step]). *)

From S2P Require Import Prelude Rocks MemRocks Memory Rdbc Rdb RdbSpec Strconv Store StoreSpec StoreOpen CheckpointSpec Scenario.

(** The operations on a read-only store, with their results. *)
Inductive ro_run : list op → kvstate → list result → kvstate → Prop :=
| ro_nil a : ro_run [] a [] a
| ro_write o us e os a rs a' :
    op_updates o = Some us → ro_run os a rs a' →
    ro_run (o :: os) a (([], Some e) :: rs) a'
| ro_read o os a rs a' :
    op_updates o = None → ro_run os (kv_step o a).2 rs a' →
    ro_run (o :: os) a ((kv_step o a).1 :: rs) a'.

Lemma ro_run_live os a rs a' : ro_run os a rs a' → kv_live a' = kv_live a.
Proof.
  induction 1 as [|o us e os a rs a' Hu _ IH|o os a rs a' Hu _ IH]; [done|done|].
  rewrite IH. destruct o as [| | | | |[i|]]; try done. simpl. by destruct (kv_snaps a !! i).
Qed.

Section read_only.
Context `{RocksLaws, Libc}.

(** Open a store for reading, and run the operations. *)
Definition read_only_session (path : bytes) (os : list op) : M st (error * list result) :=
  '(s, err) ← NewReadOnlyStore path;
  '(rs, _) ← run_ops s [] os;
  mret (err, rs).

Lemma wp_ro_run os σ s h sp a (Q : list result * list ptr → st → Prop) :
  store_open false σ s h sp a → Forall op_ok os →
  (∀ rs sp' a' σ', ro_run os a rs a' → store_open false σ' s h sp' a' →
     size (cheap σ') = (sum_list (op_blocks <$> os) + size (cheap σ))%nat → Q (rs, sp') σ') →
  wp (run_ops s sp os) σ Q.
Proof.
  intros Hr Hos. revert σ sp a Q Hr. induction Hos as [|o os Ho _ IH]; intros σ sp a Q Hr HQ.
  { apply wp_ret. by eapply HQ; [constructor|..]. }
  apply wp_bind. destruct (op_updates o) as [us|] eqn:Eu.
  - eapply wp_run_write; [done..|]. intros σ1 r Hwr Hw.
    destruct (engine_writes_refused σ σ1 s h sp a us r Hr Hwr Hw) as [[e ->] Hr1].
    apply wp_bind. eapply IH; [done|]. intros rs sp2 a2 σ2 Hrun Hr2 Hc2. apply wp_ret.
    eapply HQ; [by eapply ro_write|done|]. rewrite Hc2. destruct Hw as (_ & -> & _).
    cbn [fmap list_fmap sum_list]. by rewrite (op_blocks_updates _ _ Eu).
  - eapply wp_run_read; [done..|]. intros sp1 σ1 Hr1 Hc1.
    apply wp_bind. eapply IH; [done|]. intros rs sp2 a2 σ2 Hrun Hr2 Hc2. apply wp_ret.
    eapply HQ; [by eapply ro_read|done|]. rewrite Hc2, Hc1, fmap_cons.
    change (sum_list (?x :: ?l)) with (x + sum_list l)%nat. lia.
Qed.

(** C14: a store opened with [NewReadOnlyStore] on a closed database: every sequence of
    operations runs without a fault; each set, delete and batch returns an error and
    changes nothing, and the gets and snapshots between them return what the
    specification says of the contents the database had; the C heap is left with
    the store's own blocks and one per snapshot, refused batches included. *)
Theorem read_only_store_refines σ path m os :
  faultless (world σ) → map_ok m → on_disk (world σ) (c_str path) = Closed m → Forall op_ok os →
  wp (read_only_session path os) σ (λ '(err, rs) σ',
    err = None ∧ (∃ a, ro_run os (KV m None []) rs a ∧ kv_live a = m) ∧
    size (cheap σ') =
      (1 + opts_blocks + sum_list (op_blocks <$> os) + size (cheap σ))%nat).
Proof.
  intros Hf Hm Hd Hos. apply wp_bind. eapply wp_NewReadOnlyStore_rep; [done..|].
  intros s h σ1 Hr _ Hsz. apply wp_bind. eapply wp_ro_run; [done|done|].
  intros rs sp a σ2 Hrun _ Hsz2. apply wp_ret. split_and!; [done| |lia].
  exists a. split; [done|]. by apply ro_run_live in Hrun.
Qed.
End read_only.

(** A directory with one key; a batch and a delete between two gets. *)
Definition sigma_closed : st :=
  St ∅ ∅ (MWorld ∅ {[bs "d" := Closed {[bs "key" := bs "value"]}]} ∅ ∅ ∅ ∅ ∅) [].

Definition ro_ops : list op :=
  [OpBatch [UPut (bs "key") (bs "other")]; OpGet (bs "key"); OpDelete (bs "key"); OpGet (bs "key")].

Lemma read_only_store_refines_witness :
  wp (read_only_session (bs "d") ro_ops) sigma_closed (λ '(err, rs) σ',
    err = None ∧
    (∃ a, ro_run ro_ops (KV {[bs "key" := bs "value"]} None []) rs a ∧
       kv_live a = {[bs "key" := bs "value"]}) ∧
    size (cheap σ') = (1 + opts_blocks + 0 + 0)%nat).
Proof.
  apply (read_only_store_refines sigma_closed (bs "d") {[bs "key" := bs "value"]} ro_ops).
  - done.
  - by apply map_Forall_singleton.
  - by vm_compute.
  - by repeat constructor.
Defined.
