(* ===== verification/RdbTheorems.v ===== *)
(** * Theorems on package rdb

    Ownership of C memory as the bindings manage it: slices, iterators, write
    batches, the handles that are closed, values copied to Go, and filter policies
    called back from C++. *)

From S2P Require Import Prelude Rocks MemRocks Memory Rdbc Rdb RdbSpec FilterPolicy Strconv Store StoreSpec StoreOpen IterSpec Scenario.

Section slices.
Context `{RocksDB, Libc}.

(** [Slice.Free] frees the C block of a slice exactly once: the block is the
    only change of the C heap, further calls of [Free] do nothing, and reading the
    data of a freed slice is a use after free. *)
Theorem Slice_Free_once σ ls lc v n :
  gheap σ !! ls = Some (GSlice (mkSlice (PC lc) n false)) →
  cheap σ !! lc = Some (CBytes v) → wrap_s 64 n ≠ 0 →
  ∃ σ', Slice_Free (PG ls) σ = Ret tt σ' ∧
    cheap σ' = delete lc (cheap σ) ∧ world σ' = world σ ∧
    Slice_Free (PG ls) σ' = Ret tt σ' ∧
    (d ← Slice_Data (PG ls); sl_read d) σ' = Fault BadRead.
Proof.
  intros Hs Hc Hn.
  set (σ' := on_gheap <[ls := GSlice (mkSlice (PC lc) n true)]> (on_cheap (delete lc) σ)).
  exists σ'. assert (gheap σ' !! ls = Some (GSlice (mkSlice (PC lc) n true))) as Hs'
    by apply lookup_insert_eq.
  split_and!; [|done|done| |].
  - apply wp_eq. unfold Slice_Free. apply wp_bind. eapply wp_go_load; [exact Hs|done|].
    cbn. apply wp_bind. eapply wp_c_delete; [done|done|]. by eapply wp_go_store.
  - apply wp_eq. unfold Slice_Free. apply wp_bind. by eapply wp_go_load; [exact Hs'|done|].
  - unfold Slice_Data. erewrite bind_ret;
      [|erewrite bind_ret; [reflexivity|by eapply go_at_load; [exact Hs'|]]].
    unfold sl_read, charToByte, mem_read. cbn [sl_len sl_ptr slice_size slice_data].
    rewrite (proj2 (Z.eqb_neq _ _) Hn). apply bind_fault. unfold c_load. cbn.
    by rewrite lookup_delete_eq.
Qed.

(** [WriteBatch.Destroy], [ReadOptions.Destroy] and [WriteOptions.Destroy] may
    be called any number of times: the first call deletes the C struct, and the
    next ones find a null pointer and change nothing. *)
Theorem Destroy_idempotent σ lb lr lw cb cr cw b r w :
  gheap σ !! lb = Some (GWriteBatch (PC cb)) → cheap σ !! cb = Some (Crdb_writebatch_t b) →
  gheap σ !! lr = Some (GReadOptions (PC cr)) → cheap σ !! cr = Some (Crdb_readoptions_t r) →
  gheap σ !! lw = Some (GWriteOptions (PC cw)) → cheap σ !! cw = Some (Crdb_writeoptions_t w) →
  let destroyed f σ l c := ∃ σ', f (PG l) σ = Ret tt σ' ∧ f (PG l) σ' = Ret tt σ' ∧
                             cheap σ' = delete c (cheap σ) in
  destroyed WriteBatch_Destroy σ lb cb ∧ destroyed ReadOptions_Destroy σ lr cr ∧
  destroyed WriteOptions_Destroy σ lw cw.
Proof.
  intros Hb Hcb Hr Hcr Hw Hcw. cbn.
  unfold WriteBatch_Destroy, rdb_writebatch_destroy, ReadOptions_Destroy,
    rdb_readoptions_destroy, WriteOptions_Destroy, rdb_writeoptions_destroy, mbind, M_bind,
    go_load, c_delete, go_store.
  split_and!; eexists;
    (split; [rewrite ?Hb, ?Hr, ?Hw; cbn; rewrite ?Hcb, ?Hcr, ?Hcw; cbn;
             rewrite ?Hb, ?Hr, ?Hw; reflexivity|]).
  all: split; [|done]; cbn; rewrite !lookup_insert_eq; cbn; rewrite !lookup_insert_eq;
    unfold on_gheap; cbn; by rewrite insert_insert_eq.
Qed.

(** C39: the other handles must be closed once.  A second [Iterator.Close],
    [Snapshot.Release] or [Checkpoint.Destroy] dereferences a null pointer in C++;
    a second [DB.Close] reads the deleted struct, whose address the Go struct still
    holds. *)
Theorem Close_twice_faults σ li ci it gen ls cs sn lk ck c ld cd name o rep :
  gheap σ !! li = Some (GIterator (PC ci)) → cheap σ !! ci = Some (Crdb_iterator_t it gen) →
  gheap σ !! ls = Some (GSnapshot (mkSnapshot (PC cs) (PC cd))) →
  cheap σ !! cs = Some (Crdb_snapshot_t sn) →
  gheap σ !! lk = Some (GCheckpoint (mkCheckpoint (PC ck) (PC cd))) →
  cheap σ !! ck = Some (Crdb_checkpoint_t c) →
  gheap σ !! ld = Some (GDB (mkDB (PC cd) name o)) → cheap σ !! cd = Some (Crdb_t rep) →
  is_Some (rocks_DB_destroy rep (world σ)) →
  let once (f : ptr → M st unit) l := ∃ σ', f (PG l) σ = Ret tt σ' in
  (once Iterator_Close li ∧ (Iterator_Close (PG li);; Iterator_Close (PG li)) σ = Fault SegFault) ∧
  (once Snapshot_Release ls ∧ (Snapshot_Release (PG ls);; Snapshot_Release (PG ls)) σ = Fault SegFault) ∧
  (once Checkpoint_Destroy lk ∧
     (Checkpoint_Destroy (PG lk);; Checkpoint_Destroy (PG lk)) σ = Fault SegFault) ∧
  (once DB_Close ld ∧ (DB_Close (PG ld);; DB_Close (PG ld)) σ = Fault BadRead).
Proof.
  intros Hi Hci Hs Hcs Hk Hck Hd Hcd [w Hw]. cbn.
  unfold Iterator_Close, rdb_iter_destroy, Snapshot_Release, rdb_release_snapshot,
    Checkpoint_Destroy, rdb_destroy_checkpoint, DB_Close, rdb_close, engine_defined, mbind, M_bind, go_load,
    c_load, engine_, modS, c_delete, go_store.
  split_and!;
    repeat first [rewrite Hi|rewrite Hci|rewrite Hs|rewrite Hcs|rewrite Hk|rewrite Hck
                 |rewrite Hd|rewrite Hcd|rewrite Hw|rewrite lookup_insert_eq|rewrite lookup_delete_eq
                 |progress cbn]; eauto.
Qed.
End slices.

Section filters.
Context `{RocksDB, Libc}.

Lemma until_nul_no_nul b : NUL ∉ b → until_nul b = None.
Proof.
  intros Hb. destruct (until_nul b) eqn:E; [|done].
  apply until_nul_Some in E as (_ & d & ->). set_solver.
Qed.

(** A read-only map over a list. *)
Lemma mapM_read {A B} (f : A → M st B) l l' σ :
  Forall2 (λ x y, f x σ = Ret y σ) l l' → mapM f l σ = Ret l' σ.
Proof.
  induction 1 as [|x y l l' E _ IH]; [done|]. cbn [mapM].
  erewrite bind_ret; [|exact E]. by erewrite bind_ret; [|exact IH].
Qed.

(** A memory range the engine passes to a policy: a C block that holds [k]. *)
Definition range_at (h : gmap loc cobj) (r : ptr * Z) (k : bytes) : Prop :=
  ∃ l, r = (PC l, blen k) ∧ h !! l = Some (CBytes k) ∧ len_ok k.

Lemma range_read σ r k : range_at (cheap σ) r k → sl_read (charToByte r.1 r.2) σ = Ret k σ.
Proof.
  intros (l & -> & Hl & Hk). unfold sl_read, charToByte. cbn [sl_ptr sl_len fst snd].
  rewrite wrap_s_small by done. apply mem_read_at. intros _. exists k.
  split; [by right|apply firstn_all].
Qed.

Lemma range_at_insert h r k l o o' :
  h !! l = o → from_option as_CBytes None o = None → range_at h r k → range_at (<[l := o']> h) r k.
Proof.
  intros Hl Ho (lk & -> & Hlk & ?). exists lk. split_and!; try done.
  rewrite lookup_insert_ne; [done|]. intros ->. rewrite Hlk in Hl. by subst.
Qed.

Lemma zip_fst_snd {A B} (l : list (A * B)) : zip l.*1 l.*2 = l.
Proof. induction l as [|[a b] l IH]; [done|]. simpl. by f_equal. Qed.

(** The call of [CreateFilter] on a callback policy. *)
Lemma wp_CreateFilter_callback σ lf idx c m n keys ks dst (Q : bytes → st → Prop) :
  cheap σ !! lf = Some (Crdb_filterpolicy_t (FPCallback (Z.of_nat idx))) →
  filterPolicies σ !! idx = Some (userFilterPolicy c m n) →
  Forall2 (range_at (cheap σ)) keys ks → 0 < blen (c ks) ≤ 2 ^ 24 →
  (∀ l g, cheap σ !! l = None → gheap σ ⊆ g → Q (dst ++ c ks)
     (St (<[l := CBytes (c ks)]> (cheap σ)) g (world σ) (filterPolicies σ))) →
  wp (FilterPolicy_CreateFilter (PC lf) keys dst) σ Q.
Proof.
  intros Hlf Hidx Hks Hlen HQ. unfold FilterPolicy_CreateFilter, rdbc_filterpolicy_create_filter.
  apply wp_bind. eapply wp_c_load; [exact Hlf|done|]. cbn beta iota.
  apply wp_bind, wp_bind. unfold charSlice, sizeSlice, blen.
  rewrite Nat2Z.id, !firstn_all2, zip_fst_snd by (by rewrite length_fmap).
  unfold wp at 1. rewrite (mapM_read _ _ ks); cycle 1.
  { eapply Forall2_impl; [done|]. intros [p l] k. apply range_read. }
  apply wp_bind. unfold policy_at. rewrite (proj2 (Z.ltb_ge _ _)) by lia.
  apply wp_bind, wp_gets. rewrite Nat2Z.id. eapply wp_of_option; [done|].
  apply wp_bind, wp_bind, wp_go_new. intros lg Hlg. apply wp_ret. cbn [fp_CreateFilter].
  apply wp_bind. unfold cByteSlice. cbn [sl_len]. rewrite (proj2 (Z.ltb_lt 0 _)) by lia.
  apply wp_bind. unfold sl_read. cbn [sl_ptr sl_len]. apply wp_mem_read_at.
  { intros _. exists (c ks). split; [left; apply lookup_insert_eq|apply firstn_all]. }
  apply wp_bind. unfold malloc_copy. rewrite (proj2 (Z.eqb_neq _ _)) by lia. cbn [andb].
  apply wp_c_new. intros lc Hlc. rewrite (proj2 (Z.ltb_ge _ _)) by lia.
  apply wp_ret, wp_ret. cbn beta iota. apply wp_bind.
  assert (size_t (blen (c ks)) = blen (c ks)) as ->.
  { unfold size_t, wrap_u. apply Z.mod_small. lia. }
  apply wp_mem_read_at.
  { intros _. exists (c ks). split; [right; apply lookup_insert_eq|apply firstn_all]. }
  apply wp_bind, wp_ret, wp_ret. apply HQ; [done|]. by apply insert_subseteq.
Qed.

(** The call of [KeyMayMatch]. *)
Lemma wp_KeyMayMatch_callback σ lf idx c m n rk rf k f (Q : bool → st → Prop) :
  cheap σ !! lf = Some (Crdb_filterpolicy_t (FPCallback (Z.of_nat idx))) →
  filterPolicies σ !! idx = Some (userFilterPolicy c m n) →
  range_at (cheap σ) rk k → range_at (cheap σ) rf f →
  Q (m k f) σ → wp (FilterPolicy_KeyMayMatch (PC lf) rk.1 rk.2 rf.1 rf.2) σ Q.
Proof.
  intros Hlf Hidx Hk Hf HQ. unfold FilterPolicy_KeyMayMatch, rdbc_filterpolicy_key_may_match.
  apply wp_bind. eapply wp_c_load; [exact Hlf|done|]. cbn beta iota.
  apply wp_bind, wp_bind. unfold wp at 1. rewrite (range_read _ _ _ Hk).
  apply wp_bind. unfold wp at 1. rewrite (range_read _ _ _ Hf).
  apply wp_bind. unfold policy_at. rewrite (proj2 (Z.ltb_ge _ _)) by lia.
  apply wp_bind, wp_gets. rewrite Nat2Z.id. eapply wp_of_option; [done|].
  apply wp_ret, wp_ret. cbn [fp_KeyMayMatch]. by destruct (m k f).
Qed.

(** What [SetFilterPolicy] with a Go policy leaves: the policy at [lf], in the options
    at [lp]; of the rest, only the policy the options owned is gone. *)
Record policy_set (σ : st) (lo lp lf : loc) (t : BlockBasedTableOptionsRep) (shared : bool)
    (fp : FilterPolicy) (σ' : st) : Prop := {
  ps_go : ∃ x, gheap σ' !! lo = Some (GBlockBasedTableOptions x) ∧ bbto_cFp x = PC lf;
  ps_policies : filterPolicies σ' = filterPolicies σ ++ [fp];
  ps_policy : cheap σ' !! lf = Some (Crdb_filterpolicy_t (FPCallback (blen (filterPolicies σ))));
  ps_struct : ∃ t', cheap σ' !! lp = Some (Crdb_block_based_table_options_t t' false) ∧
    filter_policy t' = Some lf;
  ps_rest l o : cheap σ !! l = Some o → l ≠ lp → own_policy t shared ≠ Some l →
    cheap σ' !! l = Some o;
  ps_size : (size (cheap σ') + policy_blocks t shared = 1 + size (cheap σ))%nat;
}.

Lemma wp_SetFilterPolicy_user σ lo x lp t shared c m n (Q : unit → st → Prop) :
  let fp := userFilterPolicy c m n in
  gheap σ !! lo = Some (GBlockBasedTableOptions x) → bbto_c x = PC lp →
  cheap σ !! lp = Some (Crdb_block_based_table_options_t t shared) → policy_live σ t shared →
  (∀ lf σ', policy_set σ lo lp lf t shared fp σ' → Q tt σ') →
  wp (BlockBasedTableOptions_SetFilterPolicy (PG lo) fp) σ Q.
Proof.
  intros fp Hx Hxp Hp Hlive HQ.
  unfold fp, BlockBasedTableOptions_SetFilterPolicy, registerFilterPolicy,
    rdbc_filterpolicy_create, rdb_filterpolicy_create, rdb_block_based_options_set_filter_policy, set_bbto.
  apply wp_bind, wp_bind, wp_bind, wp_modS, wp_gets. cbn [filterPolicies on_policies].
  replace (blen (filterPolicies σ ++ _) - 1) with (blen (filterPolicies σ))
    by (unfold blen; rewrite length_app; simpl; lia).
  apply wp_c_new. intros lf Hlf. cbn in Hlf.
  apply wp_bind. eapply wp_go_load; [exact Hx|done|]. apply wp_bind.
  eapply wp_go_store; [exact Hx|]. apply wp_bind. rewrite Hxp.
  assert (lf ≠ lp) as Hne by (intros ->; congruence).
  eapply wp_c_load; [cbn; rewrite lookup_insert_ne by done; exact Hp|done|].
  cbn beta iota. apply wp_bind.
  eapply wp_c_store; [cbn; rewrite lookup_insert_ne by done; exact Hp|].
  set (σ0 := on_cheap <[lp := _]> _).
  assert (∀ l o, cheap σ !! l = Some o → l ≠ lp → cheap σ0 !! l = Some o) as Hkeep0.
  { intros l o Hl Hlp. cbn. rewrite !lookup_insert_ne by congruence. exact Hl. }
  assert (∀ l, own_policy t shared = Some l → l ≠ lp ∧ l ≠ lf) as Hown.
  { intros l [p Hl]%Hlive. split; congruence. }
  eapply (wp_release_policy σ0).
  { intros l Hl. destruct (Hlive l Hl) as [p Hlp]. exists p. apply Hkeep0; [done|by apply Hown]. }
  intros σ1 (Eg & Ew & Ef & Hkeep) Hsz. apply (HQ lf). split.
  - eexists. rewrite Eg. split; [apply lookup_insert_eq|done].
  - exact Ef.
  - apply Hkeep; [cbn; rewrite lookup_insert_ne by done; apply lookup_insert_eq|].
    intros E. by apply Hown in E as [_ []].
  - eexists. split; [apply Hkeep; [apply lookup_insert_eq|]|done].
    intros E. by apply Hown in E as [[] _].
  - intros l o Hl Hlp Ho. apply Hkeep; [by apply Hkeep0|done].
  - etrans; [exact Hsz|]. cbn.
    rewrite map_size_insert_Some by (rewrite lookup_insert_ne by done; by rewrite Hp).
    by rewrite map_size_insert_None.
Qed.

(** C30: a filter policy written in Go: [SetFilterPolicy] appends it to
    [filterPolicies] and puts a C++ policy with its index in the options; the policy
    the options had before is deleted, unless a table factory shares it; when the
    engine then asks that policy for a filter of the keys [ks], or whether a key may
    match, the Go methods are called on exactly those bytes, and the filter is
    appended to the engine's string.  The C block the filter was copied to is never
    freed, as [rdbc_filterpolicy_delete_filter] is empty: beside the policy itself,
    each non-empty filter leaves one block behind. *)
Theorem user_filter_called_back σ lo x lp t shared c m n keys ks rk k rf f dst :
  gheap σ !! lo = Some (GBlockBasedTableOptions x) → bbto_c x = PC lp →
  cheap σ !! lp = Some (Crdb_block_based_table_options_t t shared) → policy_live σ t shared →
  Forall2 (range_at (cheap σ)) keys ks → range_at (cheap σ) rk k → range_at (cheap σ) rf f →
  0 < blen (c ks) ≤ 2 ^ 24 →
  wp (BlockBasedTableOptions_SetFilterPolicy (PG lo) (userFilterPolicy c m n);;
      o ← go_load as_BlockBasedTableOptions (PG lo);
      filter ← FilterPolicy_CreateFilter (bbto_cFp o) keys dst;
      matches ← FilterPolicy_KeyMayMatch (bbto_cFp o) rk.1 rk.2 rf.1 rf.2;
      mret (filter, matches)) σ
    (λ r σ', r = (dst ++ c ks, m k f) ∧
       filterPolicies σ' = filterPolicies σ ++ [userFilterPolicy c m n] ∧
       (∃ t', cheap σ' !! lp = Some (Crdb_block_based_table_options_t t' false) ∧
          ∃ lf, filter_policy t' = Some lf ∧
            cheap σ' !! lf = Some (Crdb_filterpolicy_t (FPCallback (blen (filterPolicies σ))))) ∧
       (size (cheap σ') + policy_blocks t shared = 2 + size (cheap σ))%nat).
Proof.
  intros Hx Hxp Hp Hlive Hks Hk Hf Hlen. apply wp_bind.
  eapply wp_SetFilterPolicy_user; [done..|].
  intros lf σ1 [(x' & Hx' & Hxf) Ef Hlf (t' & Ht & Htf) Hkeep Hsz]. apply wp_bind.
  eapply wp_go_load; [exact Hx'|done|]. rewrite Hxf.
  assert (filterPolicies σ1 !! length (filterPolicies σ) = Some (userFilterPolicy c m n)) as Hidx
    by (rewrite Ef; by apply list_lookup_middle).
  assert (∀ r b, range_at (cheap σ) r b → range_at (cheap σ1) r b) as Hrange.
  { intros r b (lr & -> & Hlr & Hb). exists lr. split_and!; [done| |done].
    apply Hkeep; [done|congruence|]. intros [p E]%Hlive. congruence. }
  apply wp_bind. eapply wp_CreateFilter_callback; [exact Hlf|exact Hidx| |done|].
  { eapply Forall2_impl; [exact Hks|]. intros r b. apply Hrange. }
  intros l g Hl Hg. set (σ2 := St _ _ _ _).
  assert (∀ l' o, cheap σ1 !! l' = Some o → cheap σ2 !! l' = Some o) as Hkeep2.
  { intros l' o Ho. cbn. rewrite lookup_insert_ne; congruence. }
  assert (∀ r b, range_at (cheap σ) r b → range_at (cheap σ2) r b) as Hrange2.
  { intros r b Hr. cbn. eapply range_at_insert; [exact Hl|done|by apply Hrange]. }
  apply wp_bind. eapply wp_KeyMayMatch_callback; [by apply Hkeep2|exact Hidx|by apply Hrange2..|].
  apply wp_ret. split; [done|]. split; [done|]. split.
  - eexists. split; [by apply Hkeep2|]. exists lf. split; [done|by apply Hkeep2].
  - cbn. rewrite map_size_insert_None by done. rewrite Nat.add_succ_l, Hsz. done.
Qed.

(** C31: the engine reads the name of a Go filter policy as a C string, but the
    pointer it gets is that of a Go string, which has no terminating NUL: reading
    it runs past the end of the string. *)
Theorem user_filter_name_unterminated σ lf idx c m n :
  cheap σ !! lf = Some (Crdb_filterpolicy_t (FPCallback (Z.of_nat idx))) →
  filterPolicies σ !! idx = Some (userFilterPolicy c m n) → n ≠ [] → NUL ∉ n →
  FilterPolicy_Name (PC lf) σ = Fault BadRead.
Proof.
  intros Hlf Hidx Hn Hnul. unfold FilterPolicy_Name.
  erewrite bind_ret; [|by eapply c_at_load]. cbn beta iota.
  unfold rdbc_filterpolicy_name, policy_at. rewrite (proj2 (Z.ltb_ge _ _)) by lia.
  rewrite Nat2Z.id. unfold stringToChar, c_string, mbind, M_bind, gets, of_option.
  rewrite Hidx. cbn [fp_Name mret M_ret]. rewrite decide_False by done. cbn.
  rewrite lookup_insert_eq. cbn. rewrite (until_nul_no_nul n) by done. done.
Qed.
End filters.

Section values.
Context `{RocksDB, Libc}.



End values.

Section laws.
Context `{RocksLaws, Libc}.

(** C28: the slices of an iterator belong to the engine: the data of [Key] is that
    of the current entry, [Free] on it does nothing, so that it can still be read,
    and the next move of the iterator makes it stale: a later read of a non-empty
    key is a use after free. *)
Theorem iterator_slice_lifetime σ s h sp a p lc it gen m e l :
  store_rep σ s h sp a → iter_before σ p lc it h gen m (e :: l) → len_ok e.1 → e.1 ≠ [] →
  wp (k ← Iterator_Key p;
      d ← Slice_Data k;
      b1 ← sl_read d;
      Slice_Free k;;
      b2 ← sl_read d;
      Iterator_Next p;;
      mret (b1, b2, d)) σ
    (λ '(b1, b2, d) σ', b1 = e.1 ∧ b2 = e.1 ∧ iter_before σ' p lc it h (S gen) m l ∧
       size (cheap σ') = size (cheap σ) ∧ sl_read d σ' = Fault BadRead).
Proof.
  intros Hr Hit Hlen Hne. apply wp_bind. eapply wp_Key; [done|]. intros lk Hlk.
  set (σ1 := on_gheap _ σ). assert (grows σ σ1) as Hg by by apply grows_go.
  eapply (iter_before_grows σ σ1) in Hit; [|done|done].
  assert (gheap σ1 !! lk = Some (entry_slice lc gen false e.1)) as Hk by apply lookup_insert_eq.
  assert (sl_read (charToByte (PIter lc gen false) (blen e.1)) σ1 = Ret e.1 σ1) as Hread
    by by eapply sl_read_entry.
  apply wp_bind. unfold Slice_Data. apply wp_bind. eapply wp_go_load; [exact Hk|done|].
  apply wp_ret. cbn [slice_data slice_size]. apply wp_bind. unfold wp at 1. rewrite Hread.
  apply wp_bind. unfold Slice_Free. apply wp_bind. eapply wp_go_load; [exact Hk|done|].
  cbn. apply wp_ret. apply wp_bind. unfold wp at 1. rewrite Hread.
  apply wp_bind. eapply wp_Next; [|done|].
  { eapply store_rep_same_world; [exact Hr|exact Hg|done]. }
  intros σ2 Hr2 Hit2 Ech _. apply wp_ret. split_and!; [done|done|done| |].
  { rewrite Ech. destruct Hit as [(_ & Hlc & _) _]. apply map_size_insert_Some. by exists (Crdb_iterator_t it gen). }
  destruct Hit2 as [(_ & Hlc & _) _]. eapply sl_read_stale; [exact Hlc|lia|].
  rewrite wrap_s_small by done. intros E. apply Hne. by apply blen_0.
Qed.

(** A write batch filled with [us] counts its updates; [Clear] empties it; and
    [Destroy] leaves the C heap as it was before [NewWriteBatch]. *)
Theorem WriteBatch_counts σ us :
  Forall update_ok us → blen us < 2 ^ 31 →
  wp (wb ← NewWriteBatch;
      batch_updates wb us;;
      n ← WriteBatch_Count wb;
      WriteBatch_Clear wb;;
      z ← WriteBatch_Count wb;
      WriteBatch_Destroy wb;;
      mret (n, z)) σ
    (λ '(n, z) σ', n = blen us ∧ z = 0 ∧ cheap σ' = cheap σ ∧ world σ' = world σ).
Proof.
  intros Hus Hlen. unfold NewWriteBatch. do 2 apply wp_bind. apply wp_c_new. intros c Hc.
  apply wp_go_new. intros lw Hlw. apply wp_bind.
  eapply (wp_batch_updates σ _ (PG lw) c wb_empty); [|done|].
  { split_and!; [done|done|by apply insert_subseteq|done|apply lookup_insert_eq]. }
  intros σ1 b (_ & Hch & Hgh & Hwd & Hwb) Hb. rewrite law_wb_empty in Hb. simpl in Hb.
  assert (cheap σ1 !! c = Some (Crdb_writebatch_t b)) as Hcb by (rewrite Hch; apply lookup_insert_eq).
  unfold WriteBatch_Count, WriteBatch_Clear, rdb_writebatch_count, rdb_writebatch_clear.
  do 2 apply wp_bind. eapply wp_go_load; [done|done|]. apply wp_bind.
  eapply wp_c_load; [exact Hcb|done|]. apply wp_ret.
  do 2 apply wp_bind. eapply wp_go_load; [done|done|]. apply wp_bind.
  eapply wp_c_load; [exact Hcb|done|]. eapply wp_c_store; [exact Hcb|].
  set (σ2 := on_cheap _ σ1).
  assert (cheap σ2 !! c = Some (Crdb_writebatch_t (wb_Clear b))) as Hcb2 by apply lookup_insert_eq.
  do 2 apply wp_bind. eapply wp_go_load; [done|done|]. apply wp_bind.
  eapply wp_c_load; [exact Hcb2|done|]. apply wp_ret, wp_bind. unfold wp at 1.
  erewrite (WriteBatch_Destroy_spec σ2 lw c); [|done|done]. apply wp_ret. split_and!.
  - rewrite law_wb_count; by rewrite Hb.
  - rewrite law_wb_count; by rewrite law_wb_clear.
  - simpl. rewrite Hch, insert_insert_eq. by apply delete_insert_id.
  - done.
Qed.
End laws.

(** ** Witnesses *)

Lemma Slice_Free_once_witness :
  ∃ σ', Slice_Free (PG 10) (sigma_db ∅) = Ret tt σ' ∧
    cheap σ' = delete 8%positive (cheap (sigma_db ∅)) ∧ world σ' = world (sigma_db ∅) ∧
    Slice_Free (PG 10) σ' = Ret tt σ' ∧
    (d ← Slice_Data (PG 10); sl_read d) σ' = Fault BadRead.
Proof. by apply (Slice_Free_once (sigma_db ∅) 10 8 (bs "val") 3). Defined.

Lemma Destroy_idempotent_witness :
  let σ := sigma_db ∅ in
  let destroyed f (σ : st) l c := ∃ σ', f (PG l) σ = Ret tt σ' ∧ f (PG l) σ' = Ret tt σ' ∧
                             cheap σ' = delete c (cheap σ) in
  destroyed WriteBatch_Destroy σ 6%positive 4%positive ∧
  destroyed ReadOptions_Destroy σ 2%positive 2%positive ∧
  destroyed WriteOptions_Destroy σ 3%positive 3%positive.
Proof. by eapply (Destroy_idempotent (sigma_db ∅)). Defined.

(** The database of that state without an iterator: the one there is, is of another. *)
Definition sigma_iter : st :=
  with_world (m_on_iters (λ _, {[1%positive := MIter None ∅ 0]}) (world (sigma_db ∅))) (sigma_db ∅).

Lemma Close_twice_faults_witness :
  let σ := sigma_iter in
  let once (f : ptr → M st unit) l := ∃ σ', f (PG l) σ = Ret tt σ' in
  (once Iterator_Close 7%positive ∧ (Iterator_Close (PG 7);; Iterator_Close (PG 7)) σ = Fault SegFault) ∧
  (once Snapshot_Release 8%positive ∧ (Snapshot_Release (PG 8);; Snapshot_Release (PG 8)) σ = Fault SegFault) ∧
  (once Checkpoint_Destroy 9%positive ∧
     (Checkpoint_Destroy (PG 9);; Checkpoint_Destroy (PG 9)) σ = Fault SegFault) ∧
  (once DB_Close 1%positive ∧ (DB_Close (PG 1);; DB_Close (PG 1)) σ = Fault BadRead).
Proof. by eapply (Close_twice_faults sigma_iter); [..|eexists; reflexivity]. Defined.

(** Table options that hold a Bloom filter policy. *)
Definition old_table : BlockBasedTableOptionsRep :=
  {| block_size := 4096; filter_policy := Some 5%positive; no_block_cache := false;
     block_cache := None; block_cache_compressed := None; whole_key_filtering := true |}.

(** A state with these options, a policy at index 0, and three keys in C memory. *)
Definition sigma_filter : st :=
  St (list_to_map [
        (1%positive, Crdb_block_based_table_options_t old_table false);
        (2%positive, CBytes (bs "a")); (3%positive, CBytes (bs "bc"));
        (4%positive, Crdb_filterpolicy_t (FPCallback 0));
        (5%positive, Crdb_filterpolicy_t (FPWrapper (10, true)))])
     {[1%positive := GBlockBasedTableOptions (mkBBTO (PC 1) Nil Nil Nil)]}
     mem_world0
     [userFilterPolicy (λ ks, concat ks) (λ k f, bool_decide (k = f)) (bs "mine")].

Lemma user_filter_called_back_witness :
  wp (BlockBasedTableOptions_SetFilterPolicy (PG 1)
        (userFilterPolicy (λ ks, concat ks) (λ k f, bool_decide (k = f)) (bs "mine"));;
      o ← go_load as_BlockBasedTableOptions (PG 1);
      filter ← FilterPolicy_CreateFilter (bbto_cFp o) [(PC 2, 1); (PC 3, 2)] (bs "x");
      matches ← FilterPolicy_KeyMayMatch (bbto_cFp o) (PC 2) 1 (PC 2) 1;
      mret (filter, matches)) sigma_filter
    (λ r σ', r = (bs "x" ++ concat [bs "a"; bs "bc"], bool_decide (bs "a" = bs "a")) ∧
       filterPolicies σ' = filterPolicies sigma_filter ++
         [userFilterPolicy (λ ks, concat ks) (λ k f, bool_decide (k = f)) (bs "mine")] ∧
       (∃ t', cheap σ' !! 1%positive = Some (Crdb_block_based_table_options_t t' false) ∧
          ∃ lf, filter_policy t' = Some lf ∧
            cheap σ' !! lf = Some (Crdb_filterpolicy_t (FPCallback (blen (filterPolicies sigma_filter))))) ∧
       (size (cheap σ') + policy_blocks old_table false = 2 + size (cheap sigma_filter))%nat).
Proof.
  apply (user_filter_called_back sigma_filter 1 (mkBBTO (PC 1) Nil Nil Nil) 1
    old_table false (λ ks, concat ks) (λ k f, bool_decide (k = f)) (bs "mine")
    [(PC 2, 1); (PC 3, 2)] [bs "a"; bs "bc"] (PC 2, 1) (bs "a") (PC 2, 1) (bs "a") (bs "x"));
    [done|done|done| | |by exists 2%positive|by exists 2%positive|done].
  { intros l [= <-]. by eexists. }
  by repeat constructor; [exists 2%positive|exists 3%positive].
Defined.

Lemma user_filter_name_unterminated_witness :
  FilterPolicy_Name (PC 4) sigma_filter = Fault BadRead.
Proof.
  by eapply (user_filter_name_unterminated sigma_filter 4 0); [done|done|done|apply (bool_decide_unpack _); vm_compute].
Defined.


Lemma iterator_slice_lifetime_witness :
  wp (k ← Iterator_Key (PG 7);
      d ← Slice_Data k;
      b1 ← sl_read d;
      Slice_Free k;;
      b2 ← sl_read d;
      Iterator_Next (PG 7);;
      mret (b1, b2, d)) (sigma_db {[bs "key" := bs "val"]})
    (λ '(b1, b2, d) σ', b1 = bs "key" ∧ b2 = bs "key" ∧
       iter_before σ' (PG 7) 5 1 1 1 {[bs "key" := bs "val"]} [] ∧
       size (cheap σ') = size (cheap (sigma_db {[bs "key" := bs "val"]})) ∧
       sl_read d σ' = Fault BadRead).
Proof.
  apply (iterator_slice_lifetime _ (PG 4) 1 [] (KV {[bs "key" := bs "val"]} None []) (PG 7) 5 1 0
    {[bs "key" := bs "val"]} (bs "key", bs "val") []).
  - apply sigma_db_rep. by apply map_Forall_singleton.
  - split; [split; [done|by split_and!]|by vm_compute].
  - done.
  - done.
Defined.

Lemma WriteBatch_counts_witness :
  wp (wb ← NewWriteBatch;
      batch_updates wb [UPut (bs "a") (bs "1"); UDelete (bs "b")];;
      n ← WriteBatch_Count wb;
      WriteBatch_Clear wb;;
      z ← WriteBatch_Count wb;
      WriteBatch_Destroy wb;;
      mret (n, z)) sigma0
    (λ '(n, z) σ', n = 2 ∧ z = 0 ∧ cheap σ' = cheap sigma0 ∧ world σ' = world sigma0).
Proof.
  by apply (WriteBatch_counts sigma0 [UPut (bs "a") (bs "1"); UDelete (bs "b")]);
    [repeat constructor|].
Defined.
