(* ===== verification/OptionsTheorems.v ===== *)
(** * Table options

    The setters of rdb/options_block_based_table.go against an abstract
    configuration: what the engine is given when the options are made into a table
    factory, for every sequence of setter calls. *)

From S2P Require Import Prelude Rocks MemRocks Memory Rdbc Rdb RdbSpec Strconv Store StoreSpec StoreOpen Scenario.

Section options.
Context `{RocksDB, Libc}.

(** ** The specification *)

(** The calls a client makes.  A cache is made for the call, and its handle is
    destroyed afterwards: the options keep a reference of their own. *)
Variant setter :=
| SBlockSize (n : Z)
| SBloomFilter (bits : Z)
| SNoBlockCache (b : bool)
| SBlockCache (capacity : Z)
| SBlockCacheCompressed (capacity : Z)
| SWholeKeyFiltering (b : bool).

(** What table options amount to: as [BlockBasedTableOptionsRep], with the filter
    policy itself in the place of a pointer to it. *)
Record config := Config {
  cfg_block_size : Z;
  cfg_filter : option BloomPolicy;
  cfg_no_cache : bool;
  cfg_cache : option CacheRep;
  cfg_compressed : option CacheRep;
  cfg_whole : bool;
}.

(** One call, in the state of the engine, which makes the caches. *)
Definition set_config (cw : config * World) (f : setter) : config * World :=
  let '(c, w) := cw in
  match f with
  | SBlockSize n =>
      (Config (size_t n) (cfg_filter c) (cfg_no_cache c) (cfg_cache c) (cfg_compressed c)
         (cfg_whole c), w)
  | SBloomFilter bits =>
      (Config (cfg_block_size c) (Some (NewBloomFilterPolicy (wrap_s 32 bits) true))
         (cfg_no_cache c) (cfg_cache c) (cfg_compressed c) (cfg_whole c), w)
  | SNoBlockCache b =>
      (Config (cfg_block_size c) (cfg_filter c) b (cfg_cache c) (cfg_compressed c)
         (cfg_whole c), w)
  | SBlockCache n =>
      let '(r, w) := NewLRUCacheRep (size_t n) w in
      (Config (cfg_block_size c) (cfg_filter c) (cfg_no_cache c) (Some r) (cfg_compressed c)
         (cfg_whole c), w)
  | SBlockCacheCompressed n =>
      let '(r, w) := NewLRUCacheRep (size_t n) w in
      (Config (cfg_block_size c) (cfg_filter c) (cfg_no_cache c) (cfg_cache c) (Some r)
         (cfg_whole c), w)
  | SWholeKeyFiltering b =>
      (Config (cfg_block_size c) (cfg_filter c) (cfg_no_cache c) (cfg_cache c)
         (cfg_compressed c) b, w)
  end.

Definition default_config : config :=
  let t := new_BlockBasedTableOptions in
  Config (block_size t) None (no_block_cache t) (block_cache t) (block_cache_compressed t)
    (whole_key_filtering t).

(** ** The client *)

Definition with_cache (capacity : Z) (set : ptr → M st unit) : M st unit :=
  c ← NewLRUCache capacity;
  set c;;
  Cache_Destroy c.

Definition run_setter (opts : ptr) (f : setter) : M st unit :=
  match f with
  | SBlockSize n => BlockBasedTableOptions_SetBlockSize opts n
  | SBloomFilter bits =>
      fp ← NewBloomFilter bits; BlockBasedTableOptions_SetFilterPolicy opts fp
  | SNoBlockCache b => BlockBasedTableOptions_SetNoBlockCache opts b
  | SBlockCache n => with_cache n (BlockBasedTableOptions_SetBlockCache opts)
  | SBlockCacheCompressed n => with_cache n (BlockBasedTableOptions_SetBlockCacheCompressed opts)
  | SWholeKeyFiltering b => BlockBasedTableOptions_SetWholeKeyFiltering opts b
  end.

(** New table options, the calls, then options with the table factory of these. *)
Definition configure (fs : list setter) : M st ptr :=
  b ← NewDefaultBlockBasedTableOptions;
  for_each (run_setter b) fs;;
  o ← NewDefaultOptions;
  Options_SetBlockBasedTableFactory o b;;
  mret o.

(** ** The relation *)

(** The struct [t] amounts to [c]. *)
Definition shows_config (σ : st) (t : BlockBasedTableOptionsRep) (c : config) : Prop :=
  block_size t = cfg_block_size c ∧ no_block_cache t = cfg_no_cache c ∧
  block_cache t = cfg_cache c ∧ block_cache_compressed t = cfg_compressed c ∧
  whole_key_filtering t = cfg_whole c ∧
  match cfg_filter c with
  | None => filter_policy t = None
  | Some p => ∃ lf, filter_policy t = Some lf ∧
      cheap σ !! lf = Some (Crdb_filterpolicy_t (FPWrapper p))
  end.

Definition bbto_shows (σ : st) (b : ptr) (c : config) : Prop :=
  ∃ lb x lc t shared, b = PG lb ∧ gheap σ !! lb = Some (GBlockBasedTableOptions x) ∧
    bbto_c x = PC lc ∧ cheap σ !! lc = Some (Crdb_block_based_table_options_t t shared) ∧
    shows_config σ t c.

(** The filter policy of the configuration is there. *)
Lemma shows_config_live σ t c shared : shows_config σ t c → policy_live σ t shared.
Proof.
  intros (_ & _ & _ & _ & _ & Hf) l. unfold own_policy. destruct shared; [done|]. intros El.
  destruct (cfg_filter c) as [p|]; [|congruence]. destruct Hf as (lf & E & Hlf).
  exists (FPWrapper p). congruence.
Qed.

(** Filter policies stay where they are. *)
Definition keeps_policies (σ σ' : st) : Prop :=
  ∀ l p, cheap σ !! l = Some (Crdb_filterpolicy_t p) → cheap σ' !! l = Some (Crdb_filterpolicy_t p).

Lemma shows_config_heap σ σ' t c : keeps_policies σ σ' → shows_config σ t c → shows_config σ' t c.
Proof.
  intros Hh (? & ? & ? & ? & ? & Hf). split_and!; try done.
  destruct (cfg_filter c); [|done]. destruct Hf as (lf & ? & ?). exists lf. auto.
Qed.

(** A new struct [t'], which shows [c'] in the old heap or in the new one. *)
Lemma bbto_shows_update σ σ' lb x lc t' shared c' :
  gheap σ' !! lb = Some (GBlockBasedTableOptions x) → bbto_c x = PC lc →
  cheap σ' !! lc = Some (Crdb_block_based_table_options_t t' shared) → keeps_policies σ σ' →
  shows_config σ t' c' → bbto_shows σ' (PG lb) c'.
Proof.
  intros Hb Hx Hc Hk Hs. exists lb, x, lc, t', shared. split_and!; try done. by eapply shows_config_heap.
Qed.

Lemma boolToChar_true b : negb (boolToChar b =? 0) = b.
Proof. by destruct b. Qed.
End options.

(** The change of a cell that is no filter policy. *)
Ltac keep_policies :=
  let l := fresh "l" in let p := fresh "p" in let E := fresh "E" in
  intros l p E; cbn in *;
  repeat first [ rewrite lookup_insert_ne by (intros ->; congruence)
               | rewrite lookup_delete_ne by (intros ->; congruence) ]; exact E.

(** A setter of a field: the new struct, and the new configuration. *)
Ltac fields Hb :=
  match goal with
  | Hs : shows_config ?σ _ _ |- _ =>
      eapply (bbto_shows_update σ);
        [exact Hb|done|apply lookup_insert_eq|keep_policies|
         destruct Hs as (?&?&?&?&?&?); split_and!; try done]
  end.

Section refinement.
Context `{RocksDB, Libc}.

(** The setters of one field, and of the filter policy. *)
Lemma wp_run_setter σ b c f :
  bbto_shows σ b c →
  wp (run_setter b f) σ (λ _ σ', bbto_shows σ' b (set_config (c, world σ) f).1 ∧
    world σ' = (set_config (c, world σ) f).2).
Proof.
  intros (lb & x & lc & t & shared & -> & Hb & Hx & Hc & Hs). destruct x as [bc bca bco bf]. cbn in Hx. subst bc.
  destruct σ as [ch gh w fps]; cbn in Hb, Hc.
  destruct f; cbn [run_setter set_config fst snd];
    unfold BlockBasedTableOptions_SetBlockSize, rdb_block_based_options_set_block_size,
      NewBloomFilter, rdb_filterpolicy_create_bloom, rdb_filterpolicy_create_bloom_format,
      NewNativeFilterPolicy, BlockBasedTableOptions_SetFilterPolicy,
      rdb_block_based_options_set_filter_policy,
      BlockBasedTableOptions_SetNoBlockCache, rdb_block_based_options_set_no_block_cache,
      BlockBasedTableOptions_SetWholeKeyFiltering,
      rdb_block_based_options_set_whole_key_filtering, set_bbto.
  1: exec; split; [|done]; fields Hb.
  2: exec; split; [|done]; fields Hb; by rewrite boolToChar_true.
  4: exec; split; [|done]; fields Hb; by rewrite boolToChar_true.
  { exec. assert (policy_live (St ch gh w fps) t shared) as Hlive by by eapply shows_config_live.
    assert (∀ l', own_policy t shared = Some l' → l' ≠ lc ∧ l' ≠ l) as Hown.
    { intros l' [p Hl']%Hlive. cbn in Hl'. split; congruence. }
    eapply (wp_release_policy (St _ _ _ _)).
    { intros l' Hl'. destruct (Hlive l' Hl') as [p Hp]. exists p.
      destruct (Hown l' Hl'). cbn. by rewrite !lookup_insert_ne. }
    intros σ' (Eg & Ew & Ef & Hkeep) _. split; [|exact Ew].
    eapply (bbto_shows_update σ') with (x := mkBBTO (PC lc) bca bco (PC l)).
    - rewrite Eg. apply lookup_insert_eq.
    - done.
    - apply Hkeep; [apply lookup_insert_eq|]. intros E. by apply Hown in E as [[] _].
    - by intros ?.
    - destruct Hs as (?&?&?&?&?&_). split_and!; try done. exists l. split; [done|].
      apply Hkeep; [cbn; rewrite lookup_insert_ne by congruence; apply lookup_insert_eq|].
      intros E. by apply Hown in E as [_ []]. }
  all: destruct (NewLRUCacheRep (size_t capacity) w) as [r w'] eqn:E; cbn [world]; rewrite E;
    unfold with_cache, NewLRUCache, rdb_cache_create_lru, NewNativeCache, Cache_Destroy,
      rdb_cache_destroy, BlockBasedTableOptions_SetBlockCache,
      rdb_block_based_options_set_block_cache, BlockBasedTableOptions_SetBlockCacheCompressed,
      rdb_block_based_options_set_block_cache_compressed, set_bbto;
    exec; (eapply wp_engine; [exact E|]); exec;
    (eapply (wp_c_delete as_rdb_cache_t); [by lk|reflexivity|]); exec;
    (split; [|done]);
    match goal with
    | Hs : shows_config ?σ _ _ |- _ =>
        eapply (bbto_shows_update σ);
          [cbn; rewrite lookup_insert_ne by congruence; apply lookup_insert_eq|done
          |cbn; rewrite lookup_delete_ne by congruence; apply lookup_insert_eq
          |keep_policies|destruct Hs as (?&?&?&?&?&?); by split_and!]
    end.
Qed.

Lemma wp_run_setters σ b c fs :
  bbto_shows σ b c →
  wp (for_each (run_setter b) fs) σ (λ _ σ',
    bbto_shows σ' b (foldl set_config (c, world σ) fs).1 ∧
    world σ' = (foldl set_config (c, world σ) fs).2).
Proof.
  revert σ c. induction fs as [|f fs IH]; intros σ c Hb; [by apply wp_ret|].
  cbn [for_each foldl]. apply wp_bind. eapply wp_mono; [by apply wp_run_setter|].
  cbn. intros _ σ1 [Hb1 Hw1]. specialize (IH σ1 _ Hb1). rewrite Hw1 in IH.
  by rewrite <-surjective_pairing in IH.
Qed.

(** C36: the table options the engine gets: after any sequence of setter calls, the
    table factory [SetBlockBasedTableFactory] makes is that of a struct with exactly
    the values set last, each converted to its C type; a cache that was set stays
    in the options when the handle of the client is destroyed. *)
Theorem setters_configure_table σ fs :
  wp (configure fs) σ (λ o σ', ∃ t,
    let cw := foldl set_config (default_config, world σ) fs in
    opts_at σ' o {| create_if_missing := create_if_missing new_Options;
                    table_factory := NewBlockBasedTableFactory t |} ∧
    shows_config σ' t cw.1 ∧ world σ' = cw.2).
Proof.
  pose proof new_BlockBasedTableOptions_filter as Hnull. unfold configure, NewDefaultBlockBasedTableOptions,
    rdb_block_based_options_create, NewNativeBlockBasedTableOptions. destruct σ as [ch gh w fps].
  exec. eapply wp_mono; [apply (wp_run_setters _ _ default_config)|].
  { exists l0, (mkBBTO (PC l) Nil Nil Nil), l, new_BlockBasedTableOptions, false.
    split_and!; [done|apply lookup_insert_eq|done|apply lookup_insert_eq|by split_and!]. }
  cbn. intros _ [ch' gh' w' fps'] [(lb & x & lc & t & shared & [= <-] & Hb & Hx & Hc & Hs) Hw].
  destruct x as [bc bca bco bf]. cbn in Hx, Hb, Hc, Hw. subst bc.
  unfold NewDefaultOptions, rdb_options_create, NewNativeOptions, Options_SetBlockBasedTableFactory,
    rdb_options_set_block_based_table_factory. exec.
  exists t. split_and!; [|eapply shows_config_heap; [|exact Hs]; keep_policies|done].
  eexists. split; [lk|]. lk.
Qed.
End refinement.

Lemma setters_configure_table_witness :
  let fs := [SBlockSize 8192; SBloomFilter 10; SBlockCache 64; SBlockSize (-1)] in
  wp (configure fs) sigma0 (λ o σ', ∃ t,
    let cw := foldl set_config (default_config, world sigma0) fs in
    opts_at σ' o {| create_if_missing := false; table_factory := NewBlockBasedTableFactory t |} ∧
    shows_config σ' t cw.1 ∧ world σ' = cw.2).
Proof.
  exact (setters_configure_table sigma0
    [SBlockSize 8192; SBloomFilter 10; SBlockCache 64; SBlockSize (-1)]).
Defined.
