(* ===== verification/Float64.v ===== *)
(** * The float64 arithmetic of the benchmarks

    A finite [float64] is a multiple of 2^-1074: [Fin k] is the number k * 2^-1074.
    An operation is the exact result rounded once, to nearest with ties to even, to
    53 significant bits (IEEE 754 binary64, which Go prescribes); the one rounding
    function is [rnd_ratio].  The two zeros are identified: the programs never
    divide by a zero of negative sign, nor print one. *)

From S2P Require Import Prelude.

Inductive float64 :=
| Fin (k : Z)
| Inf (neg : bool)
| NaN.

#[export] Instance float64_eq_decision : EqDecision float64.
Proof. solve_decision. Defined.

(** [2^1074]: the number 1 in units of the last place of a subnormal. *)
Definition one : Z := 2 ^ 1074.

(** [n / d] to the nearest integer, ties to even; [n] and [d] are not negative. *)
Definition div_rne (n d : Z) : Z :=
  let q := n / d in
  match 2 * (n mod d) ?= d with
  | Lt => q
  | Gt => q + 1
  | Eq => if Z.even q then q else q + 1
  end.

(** The bits of [n / d] beyond the 53 a significand holds, at least 0. *)
Definition excess (n d : Z) : Z := Z.max 0 (Z.log2 (n / d) - 52).

(** [n / d], [0 <= n] and [0 < d], rounded to 53 significant bits. *)
Definition rnd_pos (n d : Z) : Z :=
  let s := excess n d in div_rne n (d * 2 ^ s) * 2 ^ s.

Definition rnd_ratio (n d : Z) : float64 :=
  let k := rnd_pos (Z.abs n) d in
  if 2 ^ 1024 * one <=? k then Inf (n <? 0) else Fin (if n <? 0 then - k else k).

(** [float64(z)] of an integer. *)
Definition f64_of_Z (z : Z) : float64 := rnd_ratio (z * one) 1.

Definition f64_add (x y : float64) : float64 :=
  match x, y with
  | Fin a, Fin b => rnd_ratio (a + b) 1
  | NaN, _ | _, NaN => NaN
  | Inf s, Inf t => if Bool.eqb s t then Inf s else NaN
  | Inf s, _ | _, Inf s => Inf s
  end.

Definition is_neg (x : float64) : bool :=
  match x with Fin a => a <? 0 | Inf s => s | NaN => false end.

Definition f64_mul (x y : float64) : float64 :=
  match x, y with
  | Fin a, Fin b => rnd_ratio (a * b) one
  | NaN, _ | _, NaN => NaN
  | Fin 0, Inf _ | Inf _, Fin 0 => NaN
  | _, _ => Inf (xorb (is_neg x) (is_neg y))
  end.

Definition f64_div (x y : float64) : float64 :=
  match x, y with
  | NaN, _ | _, NaN => NaN
  | Fin 0, Fin 0 | Inf _, Inf _ => NaN
  | Fin a, Fin 0 => Inf (a <? 0)
  | Fin a, Fin b => rnd_ratio (if b <? 0 then - (a * one) else a * one) (Z.abs b)
  | Fin _, Inf _ => Fin 0
  | Inf s, _ => Inf (xorb s (is_neg y))
  end.

(** [x < y]. *)
Definition f64_ltb (x y : float64) : bool :=
  match x, y with
  | Fin a, Fin b => a <? b
  | NaN, _ | _, NaN => false
  | Inf s, Inf t => s && negb t
  | Inf s, _ => s
  | _, Inf t => negb t
  end.

(** The conversion [int(x)] truncates; for a number that does not fit, the result
    depends on the processor (Go specification, "Conversions"). *)
Class Arch := { int_of_large : float64 → Z }.

(** On amd64 it is the least integer. *)
Definition amd64 : Arch := {| int_of_large := λ _, - 2 ^ 63 |}.

Definition int_of_f64 `{Arch} (x : float64) : Z :=
  match x with
  | Fin k => let z := Z.quot k one in
             if (- 2 ^ 63 <=? z) && (z <? 2 ^ 63) then z else int_of_large x
  | _ => int_of_large x
  end.

(** ** Exact results *)

Lemma one_pos : 0 < one.
Proof. unfold one. by apply Z.pow_pos_nonneg. Qed.

Lemma div_rne_exact q d : 0 < d → div_rne (q * d) d = q.
Proof.
  intros Hd. unfold div_rne. rewrite Z_mod_mult, Z.div_mul by lia.
  by rewrite Z.mul_0_r, (proj2 (Z.compare_lt_iff _ _)).
Qed.

(** A multiple of [2^s] whose quotient has at most 53 bits is exact. *)
Lemma rnd_pos_exact q d m s :
  0 < d → 0 ≤ s → 0 ≤ m < 2 ^ 53 → q = m * 2 ^ s → rnd_pos (q * d) d = q.
Proof.
  intros Hd Hs Hm ->. unfold rnd_pos, excess. rewrite Z.div_mul by lia.
  assert (0 < 2 ^ s) as H2s by by apply Z.pow_pos_nonneg.
  set (t := Z.max 0 _). assert (t ≤ s) as Hts.
  { unfold t. destruct (decide (m = 0)) as [->|Hm0]; [rewrite Z.mul_0_l; simpl; lia|].
    rewrite Z.log2_mul_pow2 by lia. assert (Z.log2 m < 53); [|lia].
    apply Z.log2_lt_pow2; lia. }
  assert (0 ≤ t) as Ht by (unfold t; lia). clearbody t.
  assert (0 < 2 ^ t) by by apply Z.pow_pos_nonneg.
  replace s with ((s - t) + t) by lia. rewrite Z.pow_add_r by lia.
  replace (m * (2 ^ (s - t) * 2 ^ t) * d) with (m * 2 ^ (s - t) * (d * 2 ^ t)) by ring.
  rewrite div_rne_exact by nia. ring.
Qed.

Lemma rnd_ratio_exact q d m s :
  0 < d → 0 ≤ s → 0 ≤ m < 2 ^ 53 → s + 53 ≤ 2098 → q = m * 2 ^ s → rnd_ratio (q * d) d = Fin q.
Proof.
  intros Hd Hs Hm Hov Hq. assert (0 < 2 ^ s) by by apply Z.pow_pos_nonneg.
  assert (0 ≤ q) by nia. unfold rnd_ratio. rewrite Z.abs_eq by nia.
  rewrite (rnd_pos_exact q d m s) by done.
  assert (q * d <? 0 = false) as -> by (apply Z.ltb_ge; nia).
  assert (q < 2 ^ 2098) as Hlt.
  { apply Z.lt_le_trans with (2 ^ (53 + s)); [|by apply Z.pow_le_mono_r; lia].
    rewrite Z.pow_add_r by lia. nia. }
  unfold one. rewrite <-Z.pow_add_r by lia. change (1024 + 1074) with 2098.
  by rewrite (proj2 (Z.leb_gt _ _)).
Qed.

(** The integers up to 2^53 are exact, and so are their sums. *)
Lemma f64_of_Z_small z : 0 ≤ z ≤ 2 ^ 53 → f64_of_Z z = Fin (z * one).
Proof.
  intros Hz. unfold f64_of_Z. rewrite <-(Z.mul_1_r (z * one)).
  destruct (decide (z = 2 ^ 53)) as [->|Hne].
  - rewrite (rnd_ratio_exact _ 1 1 (53 + 1074)); try lia.
    + unfold one. by rewrite Z.mul_1_r.
    + unfold one. rewrite Z.mul_1_l, Z.pow_add_r by lia. lia.
  - rewrite (rnd_ratio_exact _ 1 z 1074); try lia; [by rewrite Z.mul_1_r|done].
Qed.

Lemma f64_add_small a b :
  0 ≤ a → 0 ≤ b → a + b ≤ 2 ^ 53 → f64_add (f64_of_Z a) (f64_of_Z b) = f64_of_Z (a + b).
Proof.
  intros Ha Hb Hab. rewrite !f64_of_Z_small by lia. cbn [f64_add].
  rewrite <-Z.mul_add_distr_r. change (rnd_ratio ((a + b) * one) 1) with (f64_of_Z (a + b)).
  by rewrite f64_of_Z_small by lia.
Qed.

(** Division of an integer by a power of two is exact. *)
Lemma f64_div_pow2 a p :
  0 ≤ a < 2 ^ 53 → 0 ≤ p ≤ 52 →
  f64_div (f64_of_Z a) (f64_of_Z (2 ^ p)) = Fin (a * 2 ^ (1074 - p)).
Proof.
  intros Ha Hp. assert (0 < 2 ^ p) as H2p by by apply Z.pow_pos_nonneg; lia.
  assert (2 ^ p ≤ 2 ^ 53) by (apply Z.pow_le_mono_r; lia).
  rewrite !f64_of_Z_small by lia.
  assert (a * one * one = a * 2 ^ (1074 - p) * (2 ^ p * one)) as E.
  { rewrite <-!Z.mul_assoc. f_equal. rewrite (Z.mul_assoc (2 ^ (1074 - p))), <-Z.pow_add_r by lia.
    by replace (1074 - p + p) with 1074 by lia. }
  pose proof one_pos as H1.
  assert (0 < 2 ^ p * one) as Hd by nia.
  assert (rnd_ratio (a * one * one) (2 ^ p * one) = Fin (a * 2 ^ (1074 - p))) as Hr.
  { rewrite E. apply (rnd_ratio_exact _ _ a (1074 - p)); lia. }
  unfold f64_div. destruct (2 ^ p * one) as [|d|d] eqn:Ed; try lia. cbn [Z.ltb Z.compare Z.abs].
  destruct (a * one) as [|k|k] eqn:Ek; try exact Hr.
Qed.

(** ** Rounding errors *)

Lemma div_rne_error n d : 0 ≤ n → 0 < d → 2 * Z.abs (div_rne n d * d - n) ≤ d.
Proof.
  intros Hn Hd. unfold div_rne. pose proof (Z.div_mod n d ltac:(lia)) as Hdm.
  pose proof (Z.mod_pos_bound n d Hd). set (q := n / d) in *. set (r := n mod d) in *.
  destruct (Z.compare_spec (2 * r) d); [destruct (Z.even q)| |]; nia.
Qed.

(** The relative error of a rounding is at most 2^-53, unless the result is so small
    that it is a subnormal number. *)
Lemma rnd_pos_error n d :
  0 < d → 2 ^ 52 ≤ n / d → 2 ^ 53 * Z.abs (rnd_pos n d * d - n) ≤ n.
Proof.
  intros Hd Hq. assert (0 ≤ n) as Hn.
  { destruct (decide (n < 0)); [|lia]. assert (n / d < 0) by (by apply Z.div_lt_upper_bound; lia). lia. }
  unfold rnd_pos. set (s := excess n d).
  assert (s = Z.log2 (n / d) - 52) as Es.
  { unfold s, excess. apply (Z.log2_le_mono (2 ^ 52)) in Hq. rewrite Z.log2_pow2 in Hq by lia. lia. }
  assert (0 ≤ s) by (unfold s, excess; lia). assert (0 < 2 ^ s) by by apply Z.pow_pos_nonneg.
  assert (2 ^ s * 2 ^ 52 ≤ n / d) as Hs.
  { rewrite <-Z.pow_add_r by lia. replace (s + 52) with (Z.log2 (n / d)) by lia.
    apply Z.log2_spec. lia. }
  pose proof (Z.mul_div_le n d Hd).
  pose proof (div_rne_error n (d * 2 ^ s) Hn ltac:(nia)) as He.
  replace (div_rne n (d * 2 ^ s) * 2 ^ s * d) with (div_rne n (d * 2 ^ s) * (d * 2 ^ s)) by ring.
  set (x := Z.abs _) in *. clearbody x s. nia.
Qed.

Lemma f64_div_pos a b : 0 < b → f64_div (Fin a) (Fin b) = rnd_ratio (a * one) b.
Proof. intros Hb. destruct b as [|b|b]; try lia. by destruct a. Qed.
