(* ===== verification/Populate.v ===== *)
(** * The program populate: entries and batches

    populate/main.go writes random entries to one of five stores.  This file has the
    data path: [fillEntry], [writeBatch] and [humanize].  The other stores (badger,
    leveldb, bolt, lmdb) are libraries: their operations are a parameter, the class
    [Stores].  Random numbers are arguments: a [draw] per call of [fillEntry].  The
    workers are in [Workers.v]. *)

From S2P Require Import Prelude Rocks Memory Rdbc Rdb Strconv Store Float64.

(** ** The other stores *)

(** The calls of the four libraries that [writeBatch] makes; each may read the
    program's memory, and change it. *)
Class Stores `{RocksDB} := {
  badger_DB : Type; badger_Txn : Type;
  badger_NewTransaction : badger_DB → bool → M st badger_Txn;
  badger_Set : badger_Txn → goslice → goslice → M st error;
  badger_Commit : badger_Txn → M st error;
  leveldb_DB : Type; leveldb_Batch : Type;
  leveldb_NewBatch : M st leveldb_Batch;
  leveldb_Put : leveldb_Batch → goslice → goslice → M st unit;
  leveldb_Write : leveldb_DB → leveldb_Batch → bool → M st error;
  bolt_DB : Type; bolt_Tx : Type; bolt_Bucket : Type;
  bolt_Batch : bolt_DB → (bolt_Tx → M st error) → M st error;
  bolt_GetBucket : bolt_Tx → bytes → M st (option bolt_Bucket);
  bolt_Put : bolt_Bucket → goslice → goslice → M st error;
  lmdb_Env : Type; lmdb_DBI : Type; lmdb_Txn : Type;
  lmdb_Update : lmdb_Env → (lmdb_Txn → M st error) → M st error;
  lmdb_Put : lmdb_Txn → lmdb_DBI → goslice → goslice → Z → M st error;
}.

(** One use of package rand in [fillEntry]: the result of [rand.Int()], that of
    [rand.Intn(n)], and the bytes [rand.Read] writes into a slice of a given length. *)
Record draw := Draw { rand_Int : Z; rand_Intn : Z → Z; rand_Read : Z → bytes }.

(** The documented ranges. *)
Definition draw_ok (r : draw) : Prop :=
  0 ≤ rand_Int r < 2 ^ 63 ∧ (∀ n, 0 < n → 0 ≤ rand_Intn r n < n) ∧
  ∀ n, 0 ≤ n → blen (rand_Read r n) = n.

(** The flags [-keys_mil] and [-valsz]. *)
Record flags := Flags { numKeys : float64; valueSize : Z }.

Definition mil : float64 := f64_of_Z 1000000.

(** [fmt.Sprintf("vsz=%05d-k=%010d", valueSize, k)]. *)
Definition key_of (vsz k : Z) : bytes :=
  bs "vsz=" ++ fmt_0d 5 vsz ++ bs "-k=" ++ fmt_0d 10 k.

(** ** fillEntry *)

Section entries.
Context `{RocksDB}.

Definition upd_entry (e : ptr) (f : entry → entry) : M st unit :=
  x ← go_load as_entry e; go_store e (GEntry (f x)).

(** [fillEntry] from the key on, which is the same code in both programs. *)
Definition set_entry (e : ptr) (key : bytes) (r : draw) : M st unit :=
  x ← go_load as_entry e;
  (if sl_cap (e_Key x) <? blen key then
     s ← go_make (2 * blen key);
     upd_entry e (λ x, mkEntry s (e_Value x) (e_Meta x))
   else mret tt);;
  x ← go_load as_entry e;
  s ← go_reslice (e_Key x) (blen key);
  upd_entry e (λ x, mkEntry s (e_Value x) (e_Meta x));;
  go_copy s key;;
  x ← go_load as_entry e;
  go_copy (e_Value x) (rand_Read r (sl_len (e_Value x)));;
  upd_entry e (λ x, mkEntry (e_Key x) (e_Value x) 0).

(** [new(entry)], with its two arrays; the value has [vsz] bytes. *)
Definition new_entry (vsz : Z) : M st ptr :=
  e ← go_new (GEntry (mkEntry nilslice nilslice 0));
  k ← go_make 22;
  upd_entry e (λ x, mkEntry k (e_Value x) (e_Meta x));;
  v ← go_make vsz;
  upd_entry e (λ x, mkEntry (e_Key x) v (e_Meta x));;
  mret e.

(** [make([]*entry, n)] and the loop that fills it, which is the same code in both
    programs. *)
Fixpoint new_entries (vsz : Z) (n : nat) : M st (list ptr) :=
  match n with
  | O => mret []
  | S n => e ← new_entry vsz; es ← new_entries vsz n; mret (e :: es)
  end.
End entries.

Section populate.
Context `{RocksDB, Libc, Arch}.
Context (fl : flags).

(** [int( *numKeys * mil )]. *)
Definition key_space : Z := int_of_f64 (f64_mul (numKeys fl) mil).

Definition fillEntry (e : ptr) (r : draw) : M st unit :=
  if key_space =? 0 then raise PanicDivide else
  let k := Z.rem (rand_Int r) key_space in
  let key := key_of (valueSize fl) k in
  set_entry e key r.

(** ** writeBatch *)

Context `{!Stores}.

(** The package variables; a nil handle is [None], or [Nil] for the rocks store. *)
Record globals := Globals {
  bdb : option badger_DB;
  rdb : ptr;
  boltdb : option bolt_DB;
  ldb : option leveldb_DB;
  lmdbEnv : option lmdb_Env;
  lmdbDBI : lmdb_DBI;
}.

(** [for _, e := range entries { put(e.Key, e.Value) }]. *)
Definition put_entries (put : goslice → goslice → M st unit) (entries : list ptr) : M st unit :=
  for_each (λ e, x ← go_load as_entry e; put (e_Key x) (e_Value x)) entries.

(** The same loop with an early return of the first error. *)
Fixpoint put_until_error (put : goslice → goslice → M st error) (entries : list ptr) :
    M st error :=
  match entries with
  | [] => mret None
  | e :: entries =>
      x ← go_load as_entry e;
      err ← put (e_Key x) (e_Value x);
      match err with
      | Some _ => mret err
      | None => put_until_error put entries
      end
  end.

Definition write_badger (db : badger_DB) (entries : list ptr) : M st unit :=
  txn ← badger_NewTransaction db true;
  put_entries (λ k v, err ← badger_Set txn k v; check_error "y.Check" err) entries;;
  err ← badger_Commit txn;
  check_error "y.Check" err.

Definition write_leveldb (db : leveldb_DB) (entries : list ptr) : M st unit :=
  batch ← leveldb_NewBatch;
  put_entries (leveldb_Put batch) entries;;
  err ← leveldb_Write db batch true;
  check_error "y.Check" err.

(** Returns the batch, which a deferred call destroys. *)
Definition write_rocks (db : ptr) (entries : list ptr) : M st ptr :=
  rb ← Store_NewWriteBatch db;
  put_entries (WriteBatch_Put rb) entries;;
  err ← Store_WriteBatch db rb;
  check_error "y.Check" err;;
  mret rb.

Definition write_bolt (db : bolt_DB) (entries : list ptr) : M st unit :=
  err ← bolt_Batch db (λ txn,
    boltBkt ← bolt_GetBucket txn (bs "bench");
    match boltBkt with
    | None => raise (Fatal "y.AssertTrue")
    | Some boltBkt => put_until_error (bolt_Put boltBkt) entries
    end);
  check_error "y.Check" err.

Definition write_lmdb (env : lmdb_Env) (dbi : lmdb_DBI) (entries : list ptr) :
    M st unit :=
  err ← lmdb_Update env (λ txn,
    put_until_error (λ k v, lmdb_Put txn dbi k v 0) entries);
  check_error "y.Check" err.

Definition when_some {A} (o : option A) (f : A → M st unit) : M st unit :=
  match o with Some a => f a | None => mret tt end.

Definition writeBatch (g : globals) (entries : list ptr) (rs : list draw) : M st Z :=
  for_each (λ '(e, r), fillEntry e r) (zip entries rs);;
  when_some (bdb g) (λ db, write_badger db entries);;
  when_some (ldb g) (λ db, write_leveldb db entries);;
  rb ← (if decide (rdb g = Nil) then mret Nil else write_rocks (rdb g) entries);
  when_some (boltdb g) (λ db, write_bolt db entries);;
  when_some (lmdbEnv g) (λ env, write_lmdb env (lmdbDBI g) entries);;
  (if decide (rdb g = Nil) then mret tt else WriteBatch_Destroy rb);;
  mret (blen entries).

(** ** humanize *)

(** [%w.2f]: the value rounded to hundredths, ties to even, padded with spaces. *)
Definition fmt_2f (w : nat) (x : float64) : bytes :=
  let pad b := replicate (w - length b) " "%byte ++ b in
  match x with
  | Fin k =>
      let h := div_rne (Z.abs k * 100) one in
      pad ((if k <? 0 then bs "-" else []) ++ itoa (h / 100) ++ bs "." ++ fmt_0d 2 (h mod 100))
  | Inf false => pad (bs "+Inf")
  | Inf true => pad (bs "-Inf")
  | NaN => pad (bs "NaN")
  end.

Definition humanize (n : Z) : bytes :=
  if 1000000 <=? n then fmt_2f 6 (f64_div (f64_of_Z n) (f64_of_Z 1000000)) ++ bs "M" else
  if 1000 <=? n then fmt_2f 6 (f64_div (f64_of_Z n) (f64_of_Z 1000)) ++ bs "K" else
  fmt_2f 5 (f64_of_Z n).
End populate.
