(* ===== verification/PopulateMain.v ===== *)
(** * The program populate: opening and closing the store

    [main] of populate/main.go empties a directory below [-dir], opens in it the
    store that [-kv] names, and closes at the end what it has opened.  [open_stores]
    is the part before the workers are started, [close_stores] the part after
    [main] has waited for them.  The calls of the four libraries are the class
    [Openers]. *)

From S2P Require Import Prelude Rocks MemRocks Memory Files Rdbc Rdb Strconv Store Float64 Populate.

(** ** The calls that open and close the other stores *)

Class Openers `{Stores} := {
  badger_Options : Type;
  badger_DefaultOptions : bytes → badger_Options;
  badger_set_TableLoadingMode : Z → badger_Options → badger_Options;
  badger_set_SyncWrites : bool → badger_Options → badger_Options;
  options_MemoryMap : Z;
  badger_Open : badger_Options → M st (option badger_DB * error);
  badger_Close : badger_DB → M st error;
  leveldb_OpenFile : bytes → M st (option leveldb_DB * error);
  leveldb_Close : leveldb_DB → M st error;
  bolt_Open : bytes → Z → M st (option bolt_DB * error);
  bolt_set_NoSync : bolt_DB → bool → M st unit;
  bolt_Update : bolt_DB → (bolt_Tx → M st error) → M st error;
  bolt_CreateBucketIfNotExists : bolt_Tx → bytes → M st (option bolt_Bucket * error);
  bolt_Close : bolt_DB → M st error;
  lmdb_NewEnv : M st (option lmdb_Env * error);
  lmdb_SetMaxDBs : lmdb_Env → Z → M st error;
  lmdb_SetMapSize : lmdb_Env → Z → M st error;
  lmdb_Open : lmdb_Env → bytes → Z → Z → M st error;
  (* [Update] with a callback that assigns a captured variable: its value before and
     after *)
  lmdb_Update_var {V} : lmdb_Env → V → (lmdb_Txn → V → M st (V * error)) → M st (V * error);
  lmdb_CreateDBI : lmdb_Txn → bytes → M st (lmdb_DBI * error);
  lmdb_CloseDBI : lmdb_Env → lmdb_DBI → M st unit;
  lmdb_Close : lmdb_Env → M st error;
  (* the value of [lmdbDBI] before any assignment *)
  lmdb_zeroDBI : lmdb_DBI;
}.

Section main.
Context `{RocksDB, Libc, !OS, !Stores, !Openers}.

(** The package variables before any assignment. *)
Definition globals0 : globals := Globals None Nil None None None lmdb_zeroDBI.

(** [os.RemoveAll(path); os.MkdirAll(path, 0777)], their errors dropped. *)
Definition empty_dir (path : bytes) : M st unit :=
  os_RemoveAll path;; os_MkdirAll path 511;; mret tt.

Definition open_badger (dir : bytes) : M st globals :=
  let opt := badger_set_SyncWrites true
    (badger_set_TableLoadingMode options_MemoryMap
       (badger_DefaultOptions (dir ++ bs "/badger"))) in
  err ← os_RemoveAll (dir ++ bs "/badger");
  check_error "y.Check" err;;
  os_MkdirAll (dir ++ bs "/badger") 511;;
  '(db, err) ← badger_Open opt;
  check_error "while opening badger" err;;
  mret (Globals db Nil None None None lmdb_zeroDBI).

Definition open_rocks (dir : bytes) : M st globals :=
  empty_dir (dir ++ bs "/rocks");;
  '(s, err) ← NewStore (dir ++ bs "/rocks");
  check_error "y.Check" err;;
  mret (Globals None s None None None lmdb_zeroDBI).

(** A method call on a nil [*bolt.DB] or [*lmdb.Env] panics. *)
Definition open_bolt (dir : bytes) : M st globals :=
  empty_dir (dir ++ bs "/bolt");;
  '(db, err) ← bolt_Open (dir ++ bs "/bolt/bolt.db") 511;
  check_error "y.Check" err;;
  db ← of_option PanicNil db;
  bolt_set_NoSync db false;;
  err ← bolt_Update db (λ txn,
    '(_, err) ← bolt_CreateBucketIfNotExists txn (bs "bench"); mret err);
  check_error "y.Check" err;;
  mret (Globals None Nil (Some db) None None lmdb_zeroDBI).

Definition open_leveldb (dir : bytes) : M st globals :=
  empty_dir (dir ++ bs "/level");;
  '(db, err) ← leveldb_OpenFile (dir ++ bs "/level/l.db");
  check_error "y.Check" err;;
  mret (Globals None Nil None db None lmdb_zeroDBI).

Definition open_lmdb (dir : bytes) : M st globals :=
  empty_dir (dir ++ bs "/lmdb");;
  '(env, err) ← lmdb_NewEnv;
  check_error "y.Check" err;;
  env ← of_option PanicNil env;
  err ← lmdb_SetMaxDBs env 1;
  check_error "y.Check" err;;
  err ← lmdb_SetMapSize env (2 ^ 38);
  check_error "y.Check" err;;
  err ← lmdb_Open env (dir ++ bs "/lmdb") 0 511;
  check_error "y.Check" err;;
  '(dbi, err) ← lmdb_Update_var env lmdb_zeroDBI (λ txn _, lmdb_CreateDBI txn (bs "bench"));
  check_error "y.Check" err;;
  mret (Globals None Nil None None (Some env) dbi).

(** The chain of comparisons with the value of [-kv], and the check of [init] that
    follows it. *)
Definition open_stores (which dir : bytes) : M st globals :=
  '(g, init) ←
    (if decide (which = bs "badger") then g ← open_badger dir; mret (g, true) else
     if decide (which = bs "rocksdb") then g ← open_rocks dir; mret (g, true) else
     if decide (which = bs "bolt") then g ← open_bolt dir; mret (g, true) else
     if decide (which = bs "leveldb") then g ← open_leveldb dir; mret (g, true) else
     if decide (which = bs "lmdb") then g ← open_lmdb dir; mret (g, true) else
     raise (Fatal "Invalid value for option kv"));
  if init : bool then mret g else raise (Fatal "Unable to init any store").

(** The errors of the [Close] methods are dropped. *)
Definition close_stores (g : globals) : M st unit :=
  when_some (bdb g) (λ db, badger_Close db;; mret tt);;
  (if decide (rdb g = Nil) then mret tt else Store_Close (rdb g));;
  when_some (ldb g) (λ db, leveldb_Close db;; mret tt);;
  when_some (boltdb g) (λ db, bolt_Close db;; mret tt);;
  when_some (lmdbEnv g) (λ env,
    lmdb_CloseDBI env (lmdbDBI g);;
    lmdb_Close env;; mret tt).
End main.

(** ** The choice of the store *)

(** The values of [-kv], and whether [main] left the store of that name open. *)
Definition kv_names : list bytes := bs <$> ["badger"; "rocksdb"; "bolt"; "leveldb"; "lmdb"]%string.

Definition is_open `{Stores} (g : globals) (name : bytes) : bool :=
  if decide (name = bs "badger") then bool_decide (is_Some (bdb g)) else
  if decide (name = bs "rocksdb") then bool_decide (rdb g ≠ Nil) else
  if decide (name = bs "bolt") then bool_decide (is_Some (boltdb g)) else
  if decide (name = bs "leveldb") then bool_decide (is_Some (ldb g)) else
  bool_decide (is_Some (lmdbEnv g)).

(** Documented: a call without an error returns a database. *)
Class OpenerLaws `{Openers} : Prop := {
  law_badger_Open o σ r σ' : badger_Open o σ = Ret (r, None) σ' → is_Some r;
  law_leveldb_OpenFile d σ r σ' : leveldb_OpenFile d σ = Ret (r, None) σ' → is_Some r;
}.
