(* ===== verification/Libraries.v ===== *)
(** * What the other stores promise

    badger, goleveldb, bolt and lmdb are libraries.  [Populate.Stores] has the calls
    [writeBatch] makes; here is what their documentation says of these calls, on an
    abstract view: the contents of a database, and the updates a transaction or a
    batch has collected.  A call may allocate, and touches no memory of the program.
    As for RocksDB, there is no I/O fault.  A transaction can be refused.  In badger and
    bolt this depends on its updates (their number, the sizes of keys and values): the
    predicate [accepts].  In lmdb it also depends on what the database holds, as its
    memory map, of the size given to [SetMapSize], may have no room left
    ([MDB_MAP_FULL]): [lmdb_accepts], of the environment the transaction begins in. *)

From S2P Require Import Prelude Rocks Memory Populate.

(** The libraries whose transactions have limits of their own. *)
Variant library := Badger | Bolt.

Class StoresView `{Stores} := {
  (* the updates that fit in one transaction *)
  accepts : library → list update → bool;
  (* the updates lmdb takes in one transaction that begins now: the keys and values have
     sizes it allows, and its map has room for all of them *)
  lmdb_accepts : World → lmdb_Env → lmdb_DBI → list update → bool;
  (* an open database, and its contents; for bolt, those of the bucket [bench] *)
  badger_holds : World → badger_DB → gmap bytes bytes → Prop;
  leveldb_holds : World → leveldb_DB → gmap bytes bytes → Prop;
  bolt_holds : World → bolt_DB → gmap bytes bytes → Prop;
  lmdb_holds : World → lmdb_Env → lmdb_DBI → gmap bytes bytes → Prop;
  (* an open transaction on a database of these contents, and the updates it would
     commit now; badger and bolt may hold the slices they were given, so this depends
     on the memory of the program *)
  badger_tx : st → badger_Txn → badger_DB → gmap bytes bytes → list update → Prop;
  (* an open transaction that reads these contents *)
  badger_reads : World → badger_Txn → badger_DB → gmap bytes bytes → Prop;
  leveldb_batch : st → leveldb_Batch → list update → Prop;
  bolt_tx : st → bolt_Tx → bolt_DB → gmap bytes bytes → list update → Prop;
  bolt_tx_of : bolt_Bucket → bolt_Tx;
  (* also the updates it would take, as of its beginning *)
  lmdb_tx : st → lmdb_Txn → lmdb_Env → lmdb_DBI → gmap bytes bytes →
    (list update → bool) → list update → Prop;
}.

(** The slice is in the Go heap. *)
Definition go_slice (s : goslice) : Prop := ∃ l, sl_ptr s = PG l.

(** What a call of a library leaves alone: the memory of the program, and the stores of
    RocksDB. *)
Record lib_step `{RocksView} (σ σ' : st) : Prop := {
  ls_cheap : cheap σ' = cheap σ;
  ls_gheap : gheap σ ⊆ gheap σ';
  ls_stable : stable [] (world σ) (world σ');
  ls_disk : ∀ d, on_disk (world σ') d = on_disk (world σ) d;
}.

(** What a put of [u] after the updates [us] of the same transaction returns: it is
    added, or refused with an error, and then the transaction [acc]epts no updates that
    begin like this. *)
Definition put_result (acc : list update → bool) (pending : list update → Prop)
    (us : list update) (u : update) (err : error) : Prop :=
  match err with
  | None => pending (us ++ [u])
  | Some _ => ∀ vs, acc (us ++ u :: vs) = false
  end.

Class StoresLaws `{RocksView, !Stores, !StoresView} : Prop := {
  law_badger_NewTransaction σ db m :
    badger_holds (world σ) db m →
    wp (badger_NewTransaction db true) σ (λ txn σ', lib_step σ σ' ∧ badger_tx σ' txn db m []);
  law_badger_Set σ txn db m us k v kb vb :
    badger_tx σ txn db m us → go_slice k → go_slice v →
    slice_at σ k kb → slice_at σ v vb →
    wp (badger_Set txn k v) σ (λ err σ', lib_step σ σ' ∧
      put_result (accepts Badger) (λ us, badger_tx σ' txn db m us) us (UPut kb vb) err);
  law_badger_fits σ txn db m us : badger_tx σ txn db m us → accepts Badger us = true;
  law_badger_Commit σ txn db m us :
    badger_tx σ txn db m us →
    wp (badger_Commit txn) σ (λ err σ',
      err = None ∧ lib_step σ σ' ∧ badger_holds (world σ') db (apply_updates us m));

  law_badger_reader σ db m :
    badger_holds (world σ) db m →
    wp (badger_NewTransaction db false) σ (λ txn σ',
      lib_step σ σ' ∧ badger_reads (world σ') txn db m);

  law_leveldb_NewBatch σ db m :
    leveldb_holds (world σ) db m →
    wp leveldb_NewBatch σ (λ b σ',
      lib_step σ σ' ∧ leveldb_batch σ' b [] ∧ leveldb_holds (world σ') db m);
  law_leveldb_Put σ b db m us k v kb vb :
    leveldb_batch σ b us → leveldb_holds (world σ) db m → slice_at σ k kb → slice_at σ v vb →
    wp (leveldb_Put b k v) σ (λ _ σ',
      lib_step σ σ' ∧ leveldb_batch σ' b (us ++ [UPut kb vb]) ∧ leveldb_holds (world σ') db m);
  law_leveldb_Write σ b db m us sync :
    leveldb_batch σ b us → leveldb_holds (world σ) db m →
    wp (leveldb_Write db b sync) σ (λ err σ',
      err = None ∧ lib_step σ σ' ∧ leveldb_holds (world σ') db (apply_updates us m));

  (* [Batch] and [Update] commit what a function that returns no error has put, however
     often they call it, and whatever they do before *)
  law_bolt_Batch σ db m us f :
    bolt_holds (world σ) db m →
    (∀ txn σ1, lib_step σ σ1 → bolt_tx σ1 txn db m [] →
       wp (f txn) σ1 (λ err σ2, err = None ∧ lib_step σ1 σ2 ∧ bolt_tx σ2 txn db m us)) →
    wp (bolt_Batch db f) σ (λ err σ',
      err = None ∧ lib_step σ σ' ∧ bolt_holds (world σ') db (apply_updates us m));
  (* an error of the function is the result *)
  law_bolt_Batch_error σ db m f :
    bolt_holds (world σ) db m →
    (∀ txn σ1, lib_step σ σ1 → bolt_tx σ1 txn db m [] →
       wp (f txn) σ1 (λ err σ2, is_Some err ∧ lib_step σ1 σ2)) →
    wp (bolt_Batch db f) σ (λ err σ', is_Some err ∧ lib_step σ σ');
  law_bolt_fits σ txn db m us : bolt_tx σ txn db m us → accepts Bolt us = true;
  law_bolt_GetBucket σ txn db m us :
    bolt_tx σ txn db m us →
    wp (bolt_GetBucket txn (bs "bench")) σ (λ b σ',
      lib_step σ σ' ∧ bolt_tx σ' txn db m us ∧ ∃ bkt, b = Some bkt ∧ bolt_tx_of bkt = txn);
  law_bolt_Put σ bkt db m us k v kb vb :
    bolt_tx σ (bolt_tx_of bkt) db m us → slice_at σ k kb → slice_at σ v vb →
    wp (bolt_Put bkt k v) σ (λ err σ', lib_step σ σ' ∧
      put_result (accepts Bolt) (λ us, bolt_tx σ' (bolt_tx_of bkt) db m us) us (UPut kb vb) err);

  (* a function that returns no error has its puts committed, if the environment takes
     them; otherwise, and if the function returns an error, [Update] returns one *)
  law_lmdb_Update σ env dbi m us f :
    lmdb_holds (world σ) env dbi m →
    let acc := lmdb_accepts (world σ) env dbi in
    (∀ txn σ1, lib_step σ σ1 → lmdb_tx σ1 txn env dbi m acc [] →
       wp (f txn) σ1 (λ err σ2, lib_step σ1 σ2 ∧
         match err with None => lmdb_tx σ2 txn env dbi m acc us | Some _ => acc us = false end)) →
    wp (lmdb_Update env f) σ (λ err σ', lib_step σ σ' ∧
      if acc us then err = None ∧ lmdb_holds (world σ') env dbi (apply_updates us m)
      else is_Some err);
  law_lmdb_Put σ txn env dbi m acc us k v kb vb :
    lmdb_tx σ txn env dbi m acc us → slice_at σ k kb → slice_at σ v vb →
    wp (lmdb_Put txn dbi k v 0) σ (λ err σ', lib_step σ σ' ∧
      put_result acc (λ us, lmdb_tx σ' txn env dbi m acc us) us (UPut kb vb) err);
}.

#[export] Instance lib_step_preorder `{RocksView} : PreOrder lib_step.
Proof.
  split.
  - by split.
  - intros σ1 σ2 σ3 [? ? ? ?] [? ? ? E]. split; [congruence|by etrans| |].
    + by eapply stable_nil_trans.
    + intros d. by rewrite E.
Qed.
