(* ===== verification/KeyFormat.v ===== *)
(** * The keys of the benchmarks

    populate, rw-bench and bench_test.go print keys with the same format,
    [vsz=%05d-k=%010d] ([Populate.key_of]).  What the programs rely on: the length,
    that different numbers give different keys, and that the order of keys is that of
    the numbers. *)

From S2P Require Import Prelude Rocks Memory Strconv Float64 Populate.

(** ** Decimal forms *)

Lemma pow10_pos w : 0 < 10 ^ Z.of_nat w.
Proof. apply Z.pow_pos_nonneg; lia. Qed.

(** A padded number: its digits, in the least number of places from [w] on. *)
Lemma fmt_0d_form w n :
  w ≠ O → 0 ≤ n →
  ∃ w', fmt_0d w n = digit <$> digits w' n ∧ n < 10 ^ Z.of_nat w' ∧
    (n < 10 ^ Z.of_nat w → w' = w) ∧ (10 ^ Z.of_nat w ≤ n → (w < w')%nat).
Proof.
  intros Hw Hn. destruct (decide (n < 10 ^ Z.of_nat w)) as [Hlt|Hge].
  - exists w. split; [by apply fmt_0d_digits|]. split_and!; [done|done|lia].
  - destruct (fmt_0d_wide w n) as [-> Hlen]; [lia|].
    destruct (itoa_spec n Hn) as (w' & E & Hw' & _). rewrite E in *. exists w'.
    rewrite length_fmap, length_digits in Hlen. split_and!; [done|done|lia|lia].
Qed.

Lemma digits_inj w n w' n' :
  n < 10 ^ Z.of_nat w → n' < 10 ^ Z.of_nat w' → 0 ≤ n → 0 ≤ n' →
  digit <$> digits w n = digit <$> digits w' n' → n = n'.
Proof.
  intros Hw Hw' Hn Hn' E. assert (digits w n = digits w' n') as Ed.
  { pose proof (digits_range w n) as Hr. pose proof (digits_range w' n') as Hr'.
    revert E Hr Hr'. generalize (digits w n) (digits w' n'). intros l.
    induction l as [|d l IH]; intros [|e l'] E Hr Hr'; try done.
    simpl in E. simplify_eq. inversion Hr; inversion Hr'; simplify_eq.
    f_equal; [by apply digit_inj|by apply IH]. }
  by rewrite <-(dec_value_digits w n), Ed, dec_value_digits by lia.
Qed.

(** ** The order of bytes *)

Lemma bytes_ltb_app p q a b :
  length p = length q →
  bytes_ltb (p ++ a) (q ++ b) = if decide (p = q) then bytes_ltb a b else bytes_ltb p q.
Proof.
  revert q; induction p as [|x p IH]; intros [|y q] Hl; try done. cbn [app bytes_ltb].
  destruct (N.compare_spec (Byte.to_N x) (Byte.to_N y)) as [E|Hlt|Hgt].
  - apply byte_to_N_inj in E as ->. rewrite IH by (simpl in Hl; lia).
    destruct (decide (p = q)) as [->|Hne]; [by rewrite decide_True|].
    rewrite decide_False by congruence. done.
  - rewrite decide_False; [done|]. intros [= -> ->]. lia.
  - rewrite decide_False; [done|]. intros [= -> ->]. lia.
Qed.

Lemma digits_ltb w a b :
  0 ≤ a < 10 ^ Z.of_nat w → 0 ≤ b < 10 ^ Z.of_nat w →
  bytes_ltb (digit <$> digits w a) (digit <$> digits w b) = (a <? b).
Proof.
  revert a b; induction w as [|w IH]; intros a b Ha Hb.
  { simpl in *. replace a with b by lia. by rewrite Z.ltb_irrefl. }
  assert (10 ^ Z.of_nat (S w) = 10 * 10 ^ Z.of_nat w) as E10
    by (rewrite Nat2Z.inj_succ, Z.pow_succ_r by lia; done).
  pose proof (Z.div_mod a 10). pose proof (Z.div_mod b 10).
  pose proof (Z.mod_pos_bound a 10). pose proof (Z.mod_pos_bound b 10).
  cbn [digits]. rewrite !fmap_app, bytes_ltb_app by by rewrite !length_fmap, !length_digits.
  case_decide as Heq.
  - apply digits_inj in Heq; try lia. simpl. rewrite !digit_to_N by lia.
    destruct (N.compare_spec (48 + Z.to_N (a mod 10)) (48 + Z.to_N (b mod 10)));
      symmetry; [apply Z.ltb_ge|apply Z.ltb_lt|apply Z.ltb_ge]; lia.
  - rewrite IH by lia. assert (a / 10 ≠ b / 10) by congruence.
    destruct (Z.ltb_spec (a / 10) (b / 10)); symmetry; [apply Z.ltb_lt|apply Z.ltb_ge]; lia.
Qed.

(** ** Keys *)

(** A key has the 22 bytes the source announces exactly when the value size has
    at most five digits and the number at most ten. *)
Theorem key_of_length vsz k :
  0 ≤ vsz → 0 ≤ k → blen (key_of vsz k) = 22 ↔ vsz < 10 ^ 5 ∧ k < 10 ^ 10.
Proof.
  intros Hv Hk.
  destruct (fmt_0d_form 5 vsz) as (w1 & E1 & _ & Hs1 & Hl1); [done|done|].
  destruct (fmt_0d_form 10 k) as (w2 & E2 & _ & Hs2 & Hl2); [done|done|].
  unfold key_of, blen. rewrite E1, E2, !length_app, !length_fmap, !length_digits.
  change (length (bs "vsz=")) with 4%nat. change (length (bs "-k=")) with 3%nat.
  change (Z.of_nat 5) with 5 in *. change (Z.of_nat 10) with 10 in *. lia.
Qed.

(** Two keys are equal only when they were printed from the same value size and
    the same number, also when these are too large for the padding. *)
Theorem key_of_inj vsz k vsz' k' :
  0 ≤ vsz → 0 ≤ k → 0 ≤ vsz' → 0 ≤ k' →
  key_of vsz k = key_of vsz' k' → vsz = vsz' ∧ k = k'.
Proof.
  intros Hv Hk Hv' Hk' E.
  destruct (fmt_0d_form 5 vsz) as (w1 & E1 & Hw1 & _); [done|done|].
  destruct (fmt_0d_form 10 k) as (w2 & E2 & Hw2 & _); [done|done|].
  destruct (fmt_0d_form 5 vsz') as (w1' & E1' & Hw1' & _); [done|done|].
  destruct (fmt_0d_form 10 k') as (w2' & E2' & Hw2' & _); [done|done|].
  unfold key_of in E. rewrite E1, E2, E1', E2' in E. apply (app_inv_head (bs "vsz=")) in E.
  assert (digits w1 vsz = digits w1' vsz' ∧ digit <$> digits w2 k = digit <$> digits w2' k')
    as [Ev Ek].
  { pose proof (digits_range w1 vsz) as Hr. pose proof (digits_range w1' vsz') as Hr'.
    revert E Hr Hr'. generalize (digits w1 vsz) (digits w1' vsz').
    intros l. induction l as [|d l IH]; intros [|e l'] E Hr Hr'; simpl in E.
    - by simplify_eq.
    - inversion Hr'; simplify_eq. exfalso. by eapply (digit_not_dash e).
    - inversion Hr; simplify_eq. exfalso. by eapply (digit_not_dash d).
    - inversion Hr; inversion Hr'; simplify_eq.
      destruct (IH l') as [-> ?]; [done..|]. split; [|done]. f_equal. by apply digit_inj. }
  split; [|by eapply digits_inj].
  by rewrite <-(dec_value_digits w1 vsz), Ev, dec_value_digits by lia.
Qed.

(** For one value size, and as long as the numbers have at most ten digits, the
    bytewise order of keys is the order of the numbers: an iterator visits the keys
    in the order of [k]. *)
Theorem key_of_order vsz k k' :
  0 ≤ vsz → 0 ≤ k < 10 ^ 10 → 0 ≤ k' < 10 ^ 10 →
  bytes_ltb (key_of vsz k) (key_of vsz k') = (k <? k').
Proof.
  intros Hv Hk Hk'. unfold key_of. rewrite !app_assoc.
  rewrite bytes_ltb_app, decide_True by done.
  rewrite !fmt_0d_digits by done. by apply digits_ltb.
Qed.

Lemma key_of_length_witness : blen (key_of 128 42) = 22 ↔ 128 < 10 ^ 5 ∧ 42 < 10 ^ 10.
Proof. apply (key_of_length 128 42); lia. Defined.

Lemma key_of_inj_witness : 128 = 128 ∧ 123456789012 = 123456789012.
Proof. by apply (key_of_inj 128 123456789012 128 123456789012). Defined.

Lemma key_of_order_witness :
  bytes_ltb (key_of 128 99) (key_of 128 100) = true.
Proof. by apply (key_of_order 128 99 100). Defined.
