(* ===== verification/HumanizeSpec.v ===== *)
(** * What humanize prints

    The progress lines of populate/main.go print counts in millions or thousands,
    through a float64 division and a rounding to hundredths. *)

From S2P Require Import Prelude Strconv Float64 Populate.

(** [%w.2f] of a number of hundredths. *)
Definition hundredths (w : nat) (h : Z) : bytes :=
  let b := itoa (h / 100) ++ bs "." ++ fmt_0d 2 (h mod 100) in
  replicate (w - length b) " "%byte ++ b.

(** The unit a count is printed in, the width, and the letter. *)
Definition scale_of (n : Z) : Z * nat * bytes :=
  if 1000000 <=? n then (1000000, 6%nat, bs "M")
  else if 1000 <=? n then (1000, 6%nat, bs "K") else (1, 5%nat, []).

Lemma fmt_2f_Fin w k :
  0 ≤ k → fmt_2f w (Fin k) = hundredths w (div_rne (k * 100) one).
Proof.
  intros Hk. unfold fmt_2f, hundredths. rewrite Z.abs_eq by done.
  by rewrite (proj2 (Z.ltb_ge k 0)).
Qed.

(** The quotient of two integers, then rounded to hundredths: both roundings together
    are as good as one. *)
Lemma quotient_hundredths w n u :
  100 ≤ u → u mod 200 = 0 → u ≤ n < 2 ^ 53 → u < 2 ^ 53 →
  ∃ h, fmt_2f w (f64_div (f64_of_Z n) (f64_of_Z u)) = hundredths w h ∧
    2 * Z.abs (100 * n - h * u) ≤ u.
Proof.
  intros Hu Hu200 Hn Hu53. pose proof one_pos as H1. rewrite !f64_of_Z_small by lia.
  rewrite f64_div_pos by nia. set (k := rnd_pos (n * one * one) (u * one)).
  assert (2 ^ 52 ≤ n * one * one / (u * one)) as Hq.
  { rewrite Z.div_mul_cancel_r by lia. apply Z.le_trans with one; [by vm_compute|].
    apply Z.div_le_lower_bound; nia. }
  pose proof (rnd_pos_error _ (u * one) ltac:(nia) Hq) as He. fold k in He.
  assert (2 ^ 53 * Z.abs (k * u - n * one) ≤ n * one) as Hk.
  { replace (k * (u * one) - n * one * one) with ((k * u - n * one) * one) in He by ring.
    rewrite Z.abs_mul, (Z.abs_eq one) in He by lia. nia. }
  clear He Hq. assert (0 ≤ k) as Hk0 by nia.
  assert (rnd_ratio (n * one * one) (u * one) = Fin k) as ->.
  { unfold rnd_ratio. rewrite (Z.abs_eq (n * one * one)) by nia. fold k.
    rewrite (proj2 (Z.ltb_ge (n * one * one) 0)) by nia.
    rewrite (proj2 (Z.leb_gt _ _)); [done|]. assert (2 ^ 54 ≤ 2 ^ 1024) by (by apply Z.pow_le_mono_r).
    assert (k < 2 ^ 54 * one); nia. }
  exists (div_rne (k * 100) one). split; [by apply fmt_2f_Fin|].
  pose proof (div_rne_error (k * 100) one ltac:(nia) H1) as Hh.
  set (h := div_rne (k * 100) one) in *. clearbody h k.
  assert (one * Z.abs (100 * n - h * u) * 2 < one * (u + 200)) as Hlt.
  { assert (one * Z.abs (100 * n - h * u) ≤
            100 * Z.abs (k * u - n * one) + u * Z.abs (h * one - k * 100)) by nia.
    assert (100 * Z.abs (k * u - n * one) < 100 * one) by nia. nia. }
  assert (Z.abs (100 * n - h * u) * 2 < u + 200) as Hlt' by nia.
  assert (∃ j, 100 * n - h * u = 100 * j) as [j Ej].
  { exists (n - h * (u / 100)). assert (u = 100 * (u / 100)); [|lia].
    apply Z.div_exact; [lia|]. apply Z.mod_divide; [lia|].
    apply Z.mod_divide in Hu200 as [c ->]; [|lia]. exists (c * 2). lia. }
  rewrite Ej in *. apply Z.mod_divide in Hu200 as [c Ec]; [|lia]. lia.
Qed.

(** C40: [humanize] prints a count below 2^53 as the nearest number of hundredths of
    its unit (a million, a thousand or one): the float64 division and the rounding
    of [Sprintf] are together as exact as a single rounding. *)
Theorem humanize_nearest n :
  0 ≤ n < 2 ^ 53 →
  let '(u, w, suffix) := scale_of n in
  ∃ h, humanize n = hundredths w h ++ suffix ∧ 2 * Z.abs (100 * n - h * u) ≤ u.
Proof.
  intros Hn. unfold scale_of, humanize.
  destruct (Z.leb_spec 1000000 n); [|destruct (Z.leb_spec 1000 n)]; cbn beta iota.
  - destruct (quotient_hundredths 6 n 1000000) as (h & -> & Hh); [done|done|lia|done|]. by exists h.
  - destruct (quotient_hundredths 6 n 1000) as (h & -> & Hh); [done|done|lia|done|]. by exists h.
  - exists (100 * n). rewrite f64_of_Z_small by lia. pose proof one_pos.
    rewrite fmt_2f_Fin by nia. rewrite app_nil_r.
    replace (n * one * 100) with (100 * n * one) by ring. rewrite div_rne_exact by done.
    split; [done|]. lia.
Qed.

Lemma humanize_nearest_witness :
  let '(u, w, suffix) := scale_of 1234567 in
  ∃ h, humanize 1234567 = hundredths w h ++ suffix ∧ 2 * Z.abs (100 * 1234567 - h * u) ≤ u.
Proof. apply (humanize_nearest 1234567). split; lia. Defined.
