(* ===== verification/PopulateSpec.v ===== *)
(** * What populate writes

    The memory of the entries a worker owns, and the effect of [fillEntry] and
    [writeBatch] on them and on the rocks store. *)

From S2P Require Import Prelude Rocks MemRocks Memory Rdbc Rdb RdbSpec Strconv Store StoreSpec Float64 Populate Scenario.

(** ** The entries of a worker *)

(** The locations of an entry: the struct, its key array and its value array. *)
Record ecell := EC { c_e : loc; c_k : loc; c_v : loc }.

Definition ec_locs (c : ecell) : list loc := [c_e c; c_k c; c_v c].

(** No array is shared, within an entry or between two. *)
Definition separated (cs : list ecell) : Prop := NoDup (cs ≫= ec_locs).

Section entries.
Context `{RocksDB}.
(** The size of the values. *)
Context (vsz : Z).

(** An entry as the worker makes it, or as [fillEntry] left it. *)
Definition entry_at (σ : st) (c : ecell) : Prop :=
  ∃ n a v meta,
    gheap σ !! c_e c = Some (GEntry (mkEntry (Sl (PG (c_k c)) n (blen a))
                                             (Sl (PG (c_v c)) (vsz) (vsz)) meta)) ∧
    gheap σ !! c_k c = Some (GBytes a) ∧ gheap σ !! c_v c = Some (GBytes v) ∧
    blen v = vsz ∧ n ≤ blen a.

(** The entry shows the key and the value. *)
Definition entry_shows (σ : st) (c : ecell) (k v : bytes) : Prop :=
  ∃ x, gheap σ !! c_e c = Some (GEntry x) ∧ slice_at σ (e_Key x) k ∧ slice_at σ (e_Value x) v.

(** Of the Go heap, every cell other than those in [ls] is kept, and no cell is
    removed. *)
Definition go_frame (ls : list loc) (σ σ' : st) : Prop :=
  dom (gheap σ) ⊆ dom (gheap σ') ∧
  ∀ l o, l ∉ ls → gheap σ !! l = Some o → gheap σ' !! l = Some o.

(** What [fillEntry] leaves alone: everything but the Go heap, and there every cell
    other than those in [ls]. *)
Definition frame (ls : list loc) (σ σ' : st) : Prop :=
  (cheap σ' = cheap σ ∧ world σ' = world σ ∧ filterPolicies σ' = filterPolicies σ) ∧
  go_frame ls σ σ'.

Lemma go_frame_refl ls σ : go_frame ls σ σ.
Proof. by split. Qed.

Lemma frame_refl ls σ : frame ls σ σ.
Proof. split; [done|apply go_frame_refl]. Qed.

Lemma go_frame_trans ls σ1 σ2 σ3 : go_frame ls σ1 σ2 → go_frame ls σ2 σ3 → go_frame ls σ1 σ3.
Proof. intros [D1 G1] [D2 G2]. split; [by etrans|eauto]. Qed.

Lemma frame_trans ls σ1 σ2 σ3 : frame ls σ1 σ2 → frame ls σ2 σ3 → frame ls σ1 σ3.
Proof.
  intros [(C1 & W1 & P1) G1] [(C2 & W2 & P2) G2].
  split; [split_and!; congruence|by eapply go_frame_trans].
Qed.

Lemma frame_insert ls σ l o :
  l ∈ ls ∨ gheap σ !! l = None → frame ls σ (on_gheap <[l := o]> σ).
Proof.
  intros Hl. split; [done|]. split; [simpl; rewrite dom_insert; set_solver|].
  intros l' o' Hl' Hg. simpl.
  rewrite lookup_insert_ne; [done|]. intros ->. destruct Hl; [done|congruence].
Qed.

Lemma go_frame_weaken ls ls' σ σ' : ls ⊆ ls' → go_frame ls σ σ' → go_frame ls' σ σ'.
Proof. intros Hsub [? Hg]. split; [done|]. intros l o Hl. apply Hg. set_solver. Qed.

Lemma go_frame_fresh ls σ σ' l : go_frame ls σ σ' → gheap σ' !! l = None → gheap σ !! l = None.
Proof. intros [Hd _] Hl. apply not_elem_of_dom in Hl. apply not_elem_of_dom. set_solver. Qed.

Lemma go_at_frame ls σ σ' p o :
  go_frame ls σ σ' → (∀ l, p = PG l → l ∉ ls) → go_at σ p o → go_at σ' p o.
Proof. intros [_ Hg] Hl. destruct p; try done. simpl. auto. Qed.

(** An entry depends on its three cells only. *)
Lemma entry_at_keep σ σ' c :
  (∀ l o, l ∈ ec_locs c → gheap σ !! l = Some o → gheap σ' !! l = Some o) →
  entry_at σ c → entry_at σ' c.
Proof.
  intros Hg (n & a & v & meta & ? & ? & ? & ? & ?). exists n, a, v, meta.
  split_and!; try done; apply Hg; try done; unfold ec_locs; set_solver.
Qed.

Lemma entry_shows_keep σ σ' c k v :
  (∀ l o, l ∈ ec_locs c → gheap σ !! l = Some o → gheap σ' !! l = Some o) →
  entry_at σ c → entry_shows σ c k v → entry_shows σ' c k v.
Proof.
  intros Hg (n & a & v' & meta & He & _) (x & Hx & Hk & Hv).
  rewrite He in Hx. injection Hx as <-.
  assert (∀ l m cap b, l ∈ ec_locs c → slice_at σ (Sl (PG l) m cap) b →
    slice_at σ' (Sl (PG l) m cap) b) as Hsl.
  { intros l m cap b Hl (? & ? & Hat). split_and!; [done..|]. intros Hb.
    destruct (Hat Hb) as (a' & [Ha|[]] & ?). exists a'. split; [left|done].
    cbn in *. by apply Hg. }
  unfold ec_locs in *. eexists. split; [apply Hg; [set_solver|exact He]|].
  split; (apply Hsl; [set_solver|done]).
Qed.

Lemma frame_keep ls σ σ' c :
  go_frame ls σ σ' → (∀ l, l ∈ ec_locs c → l ∉ ls) →
  ∀ l o, l ∈ ec_locs c → gheap σ !! l = Some o → gheap σ' !! l = Some o.
Proof. intros [_ Hg] Hl l o Hin. apply Hg. by apply Hl. Qed.

Lemma entry_at_frame ls σ σ' c :
  go_frame ls σ σ' → (∀ l, l ∈ ec_locs c → l ∉ ls) → entry_at σ c → entry_at σ' c.
Proof. intros. eapply entry_at_keep; [by eapply frame_keep|done]. Qed.

Lemma entry_shows_frame ls σ σ' c k v :
  go_frame ls σ σ' → (∀ l, l ∈ ec_locs c → l ∉ ls) → entry_at σ c →
  entry_shows σ c k v → entry_shows σ' c k v.
Proof. intros. eapply entry_shows_keep; [by eapply frame_keep|done|done]. Qed.

(** ** fillEntry *)

Lemma wp_go_copy σ l n cap a src (Q : unit → st → Prop) :
  gheap σ !! l = Some (GBytes a) → blen src = n →
  (Q tt (on_gheap <[l := GBytes (src ++ drop (length src) a)]> σ)) →
  wp (go_copy (Sl (PG l) n cap) src) σ Q.
Proof.
  intros Hl Hn HQ. unfold go_copy. cbn [sl_len sl_ptr]. rewrite Z.min_l, <-Hn by lia.
  unfold blen. rewrite Nat2Z.id. case_decide as E.
  - apply nil_length_inv in E. subst src. simpl in HQ. apply wp_ret. rewrite drop_0 in HQ.
    unfold on_gheap in HQ. rewrite insert_id in HQ by done. by destruct σ.
  - apply wp_bind. eapply wp_go_load; [exact Hl|done|]. eapply wp_go_store; [exact Hl|].
    by rewrite firstn_all.
Qed.

Lemma wp_upd_entry σ l x f (Q : unit → st → Prop) :
  gheap σ !! l = Some (GEntry x) → Q tt (on_gheap <[l := GEntry (f x)]> σ) →
  wp (upd_entry (PG l) f) σ Q.
Proof.
  intros Hl HQ. unfold upd_entry. apply wp_bind. eapply wp_go_load; [exact Hl|done|].
  by eapply wp_go_store.
Qed.

(** The part of [fillEntry] after the key array was grown, the array being [lk]. *)
Definition fill_tail (e : ptr) (r : draw) (key : bytes) : M st unit :=
  x ← go_load as_entry e;
  s ← go_reslice (e_Key x) (blen key);
  upd_entry e (λ x, mkEntry s (e_Value x) (e_Meta x));;
  go_copy s key;;
  x ← go_load as_entry e;
  go_copy (e_Value x) (rand_Read r (sl_len (e_Value x)));;
  upd_entry e (λ x, mkEntry (e_Key x) (e_Value x) 0).

Lemma wp_fill_tail σ c r key a (Q : unit → st → Prop) :
  entry_at σ c → draw_ok r → NoDup (ec_locs c) →
  gheap σ !! c_k c = Some (GBytes a) → blen key ≤ blen a → len_ok key →
  0 ≤ vsz < 2 ^ 63 →
  (∀ σ', frame (ec_locs c) σ σ' → entry_at σ' c → entry_shows σ' c key (rand_Read r vsz) → Q tt σ') →
  wp (fill_tail (PG (c_e c)) r key) σ Q.
Proof.
  intros (n & a' & v & meta & He & Hk & Hv & Hvl & Hn) (_ & _ & Hr) Hnd Hka Hkey Hlen Hvs HQ.
  assert (a' = a) as -> by congruence. destruct c as [e lk lv]. unfold ec_locs in *; cbn [c_e c_k c_v] in *.
  apply NoDup_cons in Hnd as [Hnd1 Hnd2]. apply NoDup_cons in Hnd2 as [Hnd2 _].
  assert (e ≠ lk) by set_solver. assert (e ≠ lv) by set_solver. assert (lk ≠ lv) by set_solver.
  pose proof (Hr (vsz) ltac:(lia)) as Hrl.
  unfold fill_tail. apply wp_bind. eapply wp_go_load; [exact He|done|].
  apply wp_bind. unfold go_reslice. cbn [e_Key sl_cap sl_ptr].
  rewrite (proj2 (Z.leb_le 0 _)), (proj2 (Z.leb_le _ (blen a))) by (done || apply blen_nonneg).
  apply wp_ret. apply wp_bind. eapply wp_upd_entry; [exact He|]. cbn [e_Value e_Meta].
  apply wp_bind. eapply wp_go_copy; [cbn; by rewrite lookup_insert_ne|done|].
  apply wp_bind. eapply wp_go_load; [cbn; rewrite lookup_insert_ne by done; apply lookup_insert_eq|done|].
  cbn [e_Value sl_len]. apply wp_bind.
  eapply wp_go_copy; [cbn; by rewrite !lookup_insert_ne|by rewrite Hrl|].
  eapply wp_upd_entry; [cbn; rewrite !lookup_insert_ne by done; apply lookup_insert_eq|].
  cbn [e_Key e_Value]. 
  set (key' := key ++ drop (length key) a). set (val' := rand_Read r vsz ++ drop _ v).
  assert (blen key' = blen a) as Hkl.
  { unfold key', blen in *. rewrite length_app, length_drop. lia. }
  assert (val' = rand_Read r vsz) as ->.
  { unfold val'. rewrite drop_ge, app_nil_r; [done|]. unfold blen in *. lia. }
  apply HQ.
  - eapply frame_trans; [eapply frame_trans; [eapply frame_trans|]|];
      apply frame_insert; left; set_solver.
  - exists (blen key), key', (rand_Read r vsz), 0. cbn. rewrite Hkl. split_and!; try done.
    + by rewrite lookup_insert_eq.
    + rewrite lookup_insert_ne, lookup_insert_ne by done. apply lookup_insert_eq.
    + rewrite lookup_insert_ne by done. apply lookup_insert_eq.
  - eexists. split; [apply lookup_insert_eq|]. cbn [e_Key e_Value]. split.
    + split_and!; [done|done|]. intros _. exists key'. split.
      * left. cbn. rewrite lookup_insert_ne, lookup_insert_ne by done. apply lookup_insert_eq.
      * unfold key'. by rewrite take_app_length.
    + split_and!; cbn [sl_len]; [done|by rewrite Hrl; lia|]. intros _. exists (rand_Read r vsz). split.
      * left. cbn. rewrite lookup_insert_ne by done. apply lookup_insert_eq.
      * by rewrite firstn_all.
Qed.

(** Keys are short. *)
Lemma fmt_0d_length w n : (w ≤ 20)%nat → Z.abs n < 2 ^ 63 → (length (fmt_0d w n) ≤ 20)%nat.
Proof.
  intros Hw Hn. destruct (itoa_spec (Z.abs n)) as (w' & E & _ & _ & Hmin); [lia|].
  specialize (Hmin 19%nat ltac:(lia) ltac:(done)). unfold fmt_0d. rewrite E.
  destruct (n <? 0); rewrite ?length_app, length_replicate, !length_fmap, length_digits;
    simpl; lia.
Qed.

Lemma key_of_len_ok size k : Z.abs size < 2 ^ 63 → Z.abs k < 2 ^ 63 → len_ok (key_of size k).
Proof.
  intros Hv Hk. pose proof (fmt_0d_length 5 size ltac:(lia) Hv).
  pose proof (fmt_0d_length 10 k ltac:(lia) Hk). unfold len_ok, key_of, blen.
  rewrite !length_app. simpl. lia.
Qed.

Lemma rem_small r n : 0 ≤ r < 2 ^ 63 → n ≠ 0 → Z.abs (Z.rem r n) < 2 ^ 63.
Proof.
  intros Hr Hn. rewrite <-(Z.rem_abs_r r n Hn), Z.rem_mod_nonneg by lia.
  pose proof (Z.mod_le r (Z.abs n)). pose proof (Z.mod_pos_bound r (Z.abs n)). lia.
Qed.

Lemma wp_set_entry σ c key r (Q : unit → st → Prop) :
  entry_at σ c → draw_ok r → NoDup (ec_locs c) → len_ok key → 0 ≤ vsz < 2 ^ 63 →
  (∀ lk σ', lk = c_k c ∨ gheap σ !! lk = None →
     frame (ec_locs c) σ σ' → entry_at σ' (EC (c_e c) lk (c_v c)) →
     entry_shows σ' (EC (c_e c) lk (c_v c)) key (rand_Read r vsz) → Q tt σ') →
  wp (set_entry (PG (c_e c)) key r) σ Q.
Proof.
  intros Hat Hr Hnd Hlen Hvs HQ. change (wp (x ← go_load as_entry (PG (c_e c));
    (if sl_cap (e_Key x) <? blen key then
       s ← go_make (2 * blen key); upd_entry (PG (c_e c)) (λ x, mkEntry s (e_Value x) (e_Meta x))
     else mret tt);; fill_tail (PG (c_e c)) r key) σ Q).
  pose proof Hat as (n & a & v & meta & He & Hk & Hv & Hvl & Hn).
  apply wp_bind. eapply wp_go_load; [exact He|done|]. cbn [e_Key sl_cap].
  destruct (Z.ltb_spec (blen a) (blen key)) as [Hcap|Hcap].
  - do 2 apply wp_bind. unfold go_make. pose proof (blen_nonneg key).
    rewrite (proj2 (Z.ltb_ge _ _)) by lia. apply wp_bind, wp_go_new. intros lk Hlk.
    apply wp_ret. set (z := replicate _ _). assert (blen z = 2 * blen key) as Hz.
    { unfold z, blen in *. rewrite length_replicate. lia. }
    rewrite <-Hz. eapply wp_upd_entry; [cbn; rewrite lookup_insert_ne; [exact He|congruence]|].
    cbn [e_Value e_Meta]. set (σ1 := on_gheap <[c_e c := _]> _).
    assert (lk ≠ c_e c ∧ lk ≠ c_k c ∧ lk ≠ c_v c) as (Hne1 & Hne2 & Hne3)
      by (split_and!; congruence).
    assert (c_e c ≠ c_v c) by (unfold ec_locs in Hnd; inversion Hnd; set_solver).
    assert (frame (ec_locs c) σ σ1) as Hf.
    { eapply frame_trans; [apply (frame_insert _ _ lk); by right|].
      apply frame_insert. left. unfold ec_locs. set_solver. }
    apply (wp_fill_tail σ1 (EC (c_e c) lk (c_v c)) r key z); cbn [c_e c_k c_v].
    + exists (blen z), z, v, meta. cbn [c_e c_k c_v]. split_and!; try done.
      * apply lookup_insert_eq.
      * cbn. rewrite lookup_insert_ne by done. apply lookup_insert_eq.
      * cbn. rewrite !lookup_insert_ne by done. done.
    + done.
    + unfold ec_locs in *; cbn [c_e c_k c_v] in *. repeat constructor; set_solver.
    + cbn. rewrite lookup_insert_ne by done. apply lookup_insert_eq.
    + lia.
    + done.
    + done.
    + intros σ' Hf' Hat' Hsh. apply (HQ lk); [by right| |done|done].
      destruct Hf as [(C1 & W1 & P1) [D1 G1]], Hf' as [(C2 & W2 & P2) [D2 G2]].
      split; [split_and!; congruence|]. split; [by etrans|]. intros l o Hl Ho. apply G2; [|by apply G1].
      unfold ec_locs in *; cbn [c_e c_k c_v] in *. assert (l ≠ lk) by congruence. set_solver.
  - apply wp_bind, wp_ret. destruct c as [e lk lv].
    eapply wp_fill_tail; [done|done|done|exact Hk|done|done|done|]. cbn [c_k].
    intros σ' Hf Hat' Hsh. apply (HQ lk); [by left|done|done|done].
Qed.

(** ** All the entries of a worker *)

Lemma separated_cons c cs :
  separated (c :: cs) ↔ NoDup (ec_locs c) ∧ (∀ l, l ∈ ec_locs c → l ∉ cs ≫= ec_locs) ∧ separated cs.
Proof. unfold separated. cbn [mbind list_bind]. apply NoDup_app. Qed.

Lemma entry_at_live σ c l : entry_at σ c → l ∈ ec_locs c → gheap σ !! l ≠ None.
Proof. intros (n & a & v & meta & ? & ? & ? & _) Hl. unfold ec_locs in Hl. set_solver. Qed.

Lemma regrown_NoDup σ c lk :
  entry_at σ c → NoDup (ec_locs c) → lk = c_k c ∨ gheap σ !! lk = None →
  NoDup (ec_locs (EC (c_e c) lk (c_v c))).
Proof.
  intros Hat Hnd [->|Hlk]; [by destruct c|].
  assert (∀ l, l ∈ ec_locs c → l ≠ lk) as Hne by (intros l Hl ->; by eapply entry_at_live).
  unfold ec_locs in *; cbn in *. inversion Hnd.
  pose proof (Hne (c_e c) ltac:(set_solver)). pose proof (Hne (c_v c) ltac:(set_solver)).
  repeat constructor; set_solver.
Qed.

Lemma entry_at_gheap σ σ' c : gheap σ ⊆ gheap σ' → entry_at σ c → entry_at σ' c.
Proof. intros Hg. apply entry_at_keep. intros. by eapply lookup_weaken. Qed.

(** The entries show the keys and the values made of the draws. *)
Definition entries_show (kf vf : draw → bytes) (σ : st) (cs : list ecell) (rs : list draw) : Prop :=
  Forall2 (λ c r, entry_shows σ c (kf r) (vf r)) cs rs.

Lemma entries_show_gheap kf vf σ σ' cs rs :
  Forall (entry_at σ) cs → entries_show kf vf σ cs rs → gheap σ ⊆ gheap σ' →
  entries_show kf vf σ' cs rs.
Proof.
  intros Hat Hsh Eg. unfold entries_show in *. induction Hsh; [constructor|].
  apply Forall_cons in Hat as [? ?]. constructor; [|auto].
  eapply (entry_shows_keep σ); [|done|done]. intros. by eapply lookup_weaken.
Qed.

(** ** A loop over entries and draws *)

(** [body] fills an entry with the key and the value made of a draw; [inv] is what it
    keeps besides, with the draws so far. *)
Definition sets_entry (kf vf : draw → bytes) (inv : list draw → st → Prop)
    (body : ptr → draw → M st unit) : Prop :=
  ∀ c r ds σ (Q : unit → st → Prop),
    entry_at σ c → draw_ok r → NoDup (ec_locs c) → inv ds σ →
    (∀ lk σ', lk = c_k c ∨ gheap σ !! lk = None → go_frame (ec_locs c) σ σ' →
       entry_at σ' (EC (c_e c) lk (c_v c)) →
       entry_shows σ' (EC (c_e c) lk (c_v c)) (kf r) (vf r) → inv (ds ++ [r]) σ' → Q tt σ') →
    wp (body (PG (c_e c)) r) σ Q.

Lemma wp_entries_loop kf vf inv body cs rs ds σ (Q : unit → st → Prop) :
  sets_entry kf vf inv body →
  length cs = length rs → Forall (entry_at σ) cs → Forall draw_ok rs → separated cs →
  inv ds σ →
  (∀ cs' σ', go_frame (cs ≫= ec_locs) σ σ' → c_e <$> cs' = c_e <$> cs →
     (∀ l, l ∈ cs' ≫= ec_locs → l ∈ cs ≫= ec_locs ∨ gheap σ !! l = None) →
     Forall (entry_at σ') cs' → separated cs' →
     entries_show kf vf σ' cs' rs → inv (ds ++ rs) σ' → Q tt σ') →
  wp (for_each (λ '(e, r), body e r) (zip ((λ c, PG (c_e c)) <$> cs) rs)) σ Q.
Proof.
  intros Hbody Hlen Hat Hrs Hsep. revert rs ds σ Q Hlen Hat Hrs Hsep.
  induction cs as [|c cs IH]; intros [|r rs] ds σ Q Hlen Hat Hrs Hsep Hinv HQ; try done.
  { apply wp_ret, (HQ []); [apply go_frame_refl|done|set_solver|done|constructor|constructor|].
    by rewrite app_nil_r. }
  apply Forall_cons in Hat as [Hc Hat], Hrs as [Hr Hrs].
  apply separated_cons in Hsep as (Hnd & Hdis & Hsep). cbn [fmap list_fmap zip zip_with for_each].
  apply wp_bind. eapply Hbody; [done..|]. intros lk σ1 Hlk Hf1 Hat1 Hsh1 Hinv1.
  set (c1 := EC (c_e c) lk (c_v c)) in *.
  assert (∀ l, l ∈ ec_locs c1 → l ∈ ec_locs c ∨ gheap σ !! l = None) as Hl1.
  { unfold ec_locs; cbn. destruct Hlk; intros l; set_solver. }
  assert (∀ c2, c2 ∈ cs → ∀ l, l ∈ ec_locs c2 → gheap σ !! l ≠ None) as Hlive.
  { intros c2 Hc2 l. rewrite Forall_forall in Hat. eapply entry_at_live. by apply Hat. }
  assert (∀ l, l ∈ ec_locs c1 → l ∉ cs ≫= ec_locs) as Hdis1.
  { intros l Hl Hin. destruct (Hl1 l Hl) as [Hl'|Hn]; [by eapply Hdis|].
    apply list_elem_of_bind in Hin as (c2 & Hl2 & Hc2). by eapply Hlive. }
  eapply IH; [simpl in Hlen; lia| |done|done|exact Hinv1|].
  { apply Forall_forall. intros c2 Hc2. rewrite Forall_forall in Hat.
    eapply entry_at_frame; [exact Hf1| |by apply Hat]. intros l Hl Hin.
    apply (Hdis l Hin). apply list_elem_of_bind. by exists c2. }
  intros cs' σ' Hf2 Ee Hl2 Hat2 Hsep2 Hsh2 Hinv2. rewrite <-app_assoc in Hinv2.
  assert (∀ l, l ∈ ec_locs c1 → l ∉ cs ≫= ec_locs ∧ l ∉ cs' ≫= ec_locs) as Hdis2.
  { intros l Hl. split; [by apply Hdis1|]. intros Hin. destruct (Hl2 l Hin) as [Hin'|Hn].
    - by eapply Hdis1.
    - by eapply (entry_at_live σ1 c1 l). }
  apply (HQ (c1 :: cs')); [|by rewrite !fmap_cons, Ee| | | | |exact Hinv2].
  - eapply go_frame_trans; eapply go_frame_weaken; [|exact Hf1| |exact Hf2];
      intros l Hl; apply elem_of_app; [by left|by right].
  - cbn [mbind list_bind]. intros l [Hl|Hl]%elem_of_app.
    + destruct (Hl1 l Hl); [left; apply elem_of_app; by left|by right].
    + destruct (Hl2 l Hl) as [?|Hn]; [left; apply elem_of_app; by right|right].
      by eapply go_frame_fresh.
  - constructor; [|done]. eapply entry_at_frame; [exact Hf2| |done]. intros l Hl. by apply Hdis2.
  - apply separated_cons. split_and!; [|intros l Hl; by apply Hdis2|done].
    by eapply (regrown_NoDup σ).
  - constructor; [|done]. eapply entry_shows_frame; [exact Hf2| |done|done].
    intros l Hl. by apply Hdis2.
Qed.
End entries.

Section populate.
Context `{RocksDB, Libc, Arch}.
Context (fl : flags).
#[local] Abbreviation entry_at := (entry_at (valueSize fl)).

(** The key and value [fillEntry] makes of a draw. *)
Definition draw_key (r : draw) : bytes :=
  key_of (valueSize fl) (Z.rem (rand_Int r) (key_space fl)).
Definition draw_value (r : draw) : bytes := rand_Read r (valueSize fl).

Lemma wp_fillEntry σ c r (Q : unit → st → Prop) :
  entry_at σ c → draw_ok r → NoDup (ec_locs c) → key_space fl ≠ 0 → 0 ≤ valueSize fl < 2 ^ 63 →
  (∀ lk σ', lk = c_k c ∨ gheap σ !! lk = None →
     frame (ec_locs c) σ σ' → entry_at σ' (EC (c_e c) lk (c_v c)) →
     entry_shows σ' (EC (c_e c) lk (c_v c)) (draw_key r) (draw_value r) → Q tt σ') →
  wp (fillEntry fl (PG (c_e c)) r) σ Q.
Proof.
  intros Hat Hr Hnd Hks Hvs HQ. unfold fillEntry. rewrite (proj2 (Z.eqb_neq _ _)) by done.
  eapply wp_set_entry; [done..| |done|done].
  apply key_of_len_ok; [lia|]. apply rem_small; [apply Hr|done].
Qed.

Definition shows (σ : st) (cs : list ecell) (rs : list draw) : Prop :=
  entries_show draw_key draw_value σ cs rs.

Lemma wp_fill_entries cs rs σ (Q : unit → st → Prop) :
  length cs = length rs → Forall (entry_at σ) cs → Forall draw_ok rs → separated cs →
  key_space fl ≠ 0 → 0 ≤ valueSize fl < 2 ^ 63 →
  (∀ cs' σ', frame (cs ≫= ec_locs) σ σ' → c_e <$> cs' = c_e <$> cs →
     (∀ l, l ∈ cs' ≫= ec_locs → l ∈ cs ≫= ec_locs ∨ gheap σ !! l = None) →
     Forall (entry_at σ') cs' → separated cs' → shows σ' cs' rs → Q tt σ') →
  wp (for_each (λ '(e, r), fillEntry fl e r) (zip ((λ c, PG (c_e c)) <$> cs) rs)) σ Q.
Proof.
  intros Hlen Hat Hrs Hsep Hks Hvs HQ.
  eapply (wp_entries_loop (valueSize fl) draw_key draw_value (λ _ σ',
    cheap σ' = cheap σ ∧ world σ' = world σ ∧ filterPolicies σ' = filterPolicies σ) _ _ _ []);
    [|done..|].
  - intros c r ds σ1 Q1 Hc Hr Hnd (Ec & Ew & Ep) HQ1. eapply wp_fillEntry; [done..|].
    intros lk σ2 Hlk [(Ec2 & Ew2 & Ep2) Hg2] Hat2 Hsh2. eapply HQ1; [done..|].
    split_and!; congruence.
  - intros cs' σ' Hg Ee Hl Hat' Hsep' Hsh' Hinv. by apply (HQ cs').
Qed.
End populate.

Section rocks.
Context `{RocksLaws, Libc, Arch}.
Context (fl : flags).

(** The cells the representation of a store is not made of. *)
Definition data_cell (o : gobj) : bool :=
  match o with GBytes _ | GEntry _ => true | _ => false end.

(** A store survives changes of the data cells, and allocations in both heaps. *)
Lemma store_rep_cells {rw} σ σ' s h sp a :
  store_open rw σ s h sp a → cheap σ ⊆ cheap σ' → world σ' = world σ →
  (∀ l o, gheap σ !! l = Some o → data_cell o = false → gheap σ' !! l = Some o) →
  store_open rw σ' s h sp a.
Proof.
  intros Hr Ec Ew Hg. eapply store_rep_keep; [done| | |by rewrite Ew].
  - intros l o Hl _. by eapply lookup_weaken.
  - intros l o Hl Ho. apply Hg; [done|]. by destruct o.
Qed.

Lemma store_rep_data (ls : list loc) σ σ' s h sp a :
  store_rep σ s h sp a → cheap σ ⊆ cheap σ' → world σ' = world σ →
  (∀ l o, l ∉ ls → gheap σ !! l = Some o → gheap σ' !! l = Some o) →
  (∀ l o, l ∈ ls → gheap σ !! l = Some o → data_cell o = true) → store_rep σ' s h sp a.
Proof.
  intros Hr Ec Ew Hg Hls. eapply store_rep_cells; [done..|]. intros l o Hl Ho.
  apply Hg; [|done]. intros Hin. rewrite (Hls _ _ Hin Hl) in Ho. done.
Qed.

Lemma store_rep_frame ls σ σ' s h sp a :
  store_rep σ s h sp a → frame ls σ σ' →
  (∀ l o, l ∈ ls → gheap σ !! l = Some o → data_cell o = true) → store_rep σ' s h sp a.
Proof.
  intros Hr [(Ec & Ew & _) [_ Hg]] Hls. eapply store_rep_data; [done|by rewrite Ec|done|done|done].
Qed.

Lemma entries_data vsz σ cs l o :
  Forall (entry_at vsz σ) cs → l ∈ cs ≫= ec_locs → gheap σ !! l = Some o → data_cell o = true.
Proof.
  intros Hat (c & Hl & Hc)%list_elem_of_bind Ho. rewrite Forall_forall in Hat.
  destruct (Hat c Hc) as (n & a & v & meta & E1 & E2 & E3 & _).
  unfold ec_locs in Hl. repeat (apply elem_of_cons in Hl as [->|Hl]; [congruence || (simplify_eq; done)|]).
  by apply elem_of_nil in Hl.
Qed.

(** The update a filled entry becomes. *)
Definition draw_update (r : draw) : update := UPut (draw_key fl r) (draw_value fl r).

Lemma draw_update_ok r :
  draw_ok r → key_space fl ≠ 0 → 0 ≤ valueSize fl < 2 ^ 63 → update_ok (draw_update r).
Proof.
  intros (Hr & _ & Hl) Hks Hvs. split.
  - apply key_of_len_ok; [lia|]. by apply rem_small.
  - unfold len_ok, draw_value. rewrite Hl; lia.
Qed.

Lemma shows_gheap σ σ' cs rs :
  Forall (entry_at (valueSize fl) σ) cs → shows fl σ cs rs → gheap σ ⊆ gheap σ' → shows fl σ' cs rs.
Proof. apply entries_show_gheap. Qed.

Lemma wp_put_batch σ σ1 wb c b cs rs (Q : unit → st → Prop) :
  batch_state σ σ1 wb c b → Forall (entry_at (valueSize fl) σ1) cs → shows fl σ1 cs rs →
  (∀ σ2 b', batch_state σ σ2 wb c b' → gheap σ2 = gheap σ1 →
     wb_updates b' = wb_updates b ++ (draw_update <$> rs) → Q tt σ2) →
  wp (put_entries (WriteBatch_Put wb) ((λ c, PG (c_e c)) <$> cs)) σ1 Q.
Proof.
  revert rs σ1 b. induction cs as [|ce cs IH]; intros rs σ1 b Hbs Hat Hsh HQ.
  { inversion Hsh; simplify_eq. apply wp_ret. eapply HQ; [done|done|]. by rewrite app_nil_r. }
  unfold put_entries. cbn [fmap list_fmap for_each]. apply wp_bind.
  apply Forall_cons in Hat as [Hat1 Hat]. inversion Hsh as [|? r ? rs' Hce Hsh']; simplify_eq.
  destruct Hce as (x & Hx & Hk & Hv).
  apply wp_bind. eapply wp_go_load; [exact Hx|done|].
  destruct Hbs as (Hnone & Hch & Hgh & Hwd & Hwb). unfold wp at 1.
  erewrite (WriteBatch_Put_spec _ _ c b); [|done|rewrite Hch; apply lookup_insert_eq|done|done].
  set (σ2 := on_cheap _ σ1). assert (gheap σ2 = gheap σ1) as Eg by done.
  eapply (IH rs' σ2); clear IH.
  - split_and!; [done| |done|done|done]. simpl. by rewrite Hch, insert_insert_eq.
  - exact Hat.
  - by eapply (shows_gheap σ1).
  - intros σ3 b3 Hbs3 Hg3 Hu3. eapply HQ; [done|by rewrite Hg3|].
    by rewrite Hu3, law_wb_put, <-app_assoc.
Qed.

(** ** A batch of populate -kv rocksdb *)

(** The globals when only the rocks store [s] is open. *)
Definition only_rocks `{!Stores} (dbi : lmdb_DBI) (s : ptr) : globals :=
  Globals None s None None None dbi.

Lemma wp_Store_WriteBatch σ σ1 s h sp a wb c b us (Q : error → st → Prop) :
  store_rep σ s h sp a → batch_state σ σ1 wb c b → wb_updates b = us → Forall update_ok us →
  (∀ w, store_rep (with_world w σ) s h sp
          (KV (apply_updates us (kv_live a)) (kv_read a) (kv_snaps a)) →
     (∀ d, closable (world σ) h d → closable w h d) → Q None (with_world w σ1)) →
  wp (Store_WriteBatch s wb) σ1 Q.
Proof.
  intros Hr (Hc & Hch & Hgh & Hwd & Hwb) Hb Hus HQ.
  assert (grows σ σ1) as Hg by (split; [rewrite Hch; by apply insert_subseteq|done]).
  assert (store_rep σ1 s h sp a) as Hr1 by (by eapply store_rep_same_world).
  pose proof Hr1 as [Hf Hco Hwr _ (x & ro & wo & [Hx Hdb _ Hwo _ _])].
  pose proof (law_write (world σ1) h wo b (kv_live a) Hf Hco Hwr) as Hput. rewrite Hb in Hput.
  destruct (rocks_DB_Write h wo b (world σ1)) as [st0 w] eqn:E.
  rewrite Hwd in Hput. pose proof Hput as (_ & _ & _ & _ & Hcl).
  eapply (store_rep_wrote _ (with_world w σ)) in Hput as (Herr & _ & Hr2); [|done..|by apply grows_world|done].
  unfold Store_WriteBatch. apply wp_bind. eapply wp_go_load; [exact Hx|done|].
  unfold wp. erewrite DB_Write_spec; try done.
  - simpl in Herr. rewrite Herr. by apply HQ.
  - exists (PC c). split; [done|]. simpl. rewrite Hch. apply lookup_insert_eq.
Qed.

(** C18: one call of [writeBatch] with an open rocks store: the entries are filled
    with the keys and values of the draws, and exactly these updates, in order, are
    applied to the store; the C heap is as before (the batch was destroyed); the
    entries stay usable, none sharing an array with another, whether or not a key
    array had to grow; the result is their number. *)
Theorem writeBatch_rocks `{!Stores} dbi σ s h sp a cs rs :
  store_rep σ s h sp a → length cs = length rs → Forall (entry_at (valueSize fl) σ) cs →
  separated cs → Forall draw_ok rs → key_space fl ≠ 0 → 0 ≤ valueSize fl < 2 ^ 63 →
  wp (writeBatch fl (only_rocks dbi s) ((λ c, PG (c_e c)) <$> cs) rs) σ (λ n σ',
    n = blen cs ∧ cheap σ' = cheap σ ∧
    store_rep σ' s h sp (KV (apply_updates (draw_update <$> rs) (kv_live a)) (kv_read a) (kv_snaps a)) ∧
    ∃ cs', c_e <$> cs' = c_e <$> cs ∧ Forall (entry_at (valueSize fl) σ') cs' ∧ separated cs').
Proof.
  intros Hr Hlen Hat Hsep Hrs Hks Hvs. unfold writeBatch. cbn [bdb ldb rdb boltdb lmdbEnv only_rocks].
  apply wp_bind. eapply wp_fill_entries; [done..|]. intros cs' σ1 Hf Ee Hl Hat1 Hsep1 Hsh1.
  eapply (store_rep_frame _ σ σ1) in Hr; [|exact Hf|]; cycle 1.
  { intros l o Hin Ho. exact (entries_data _ σ cs l o Hat Hin Ho). }
  destruct Hf as [(Ec1 & Ew1 & _) _].
  do 2 (apply wp_bind, wp_ret). apply wp_bind.
  assert (s ≠ Nil) as Hs. { destruct Hr as [_ _ _ _ (x & ? & ? & [Hx _ _ _ _ _])]. by intros ->. }
  rewrite decide_False by done.
  unfold write_rocks, Store_NewWriteBatch, NewWriteBatch.
  apply wp_bind, wp_bind, wp_c_new. intros c Hc. apply wp_go_new. intros lw Hlw. apply wp_bind.
  assert ((λ c, PG (c_e c)) <$> cs = (λ c, PG (c_e c)) <$> cs') as ->.
  { trans (PG <$> (c_e <$> cs)); [apply (list_fmap_compose c_e PG)|].
    rewrite <-Ee. symmetry. apply (list_fmap_compose c_e PG). }
  set (σ2 := on_gheap _ _).
  assert (gheap σ1 ⊆ gheap σ2) as Hg2 by (by apply insert_subseteq).
  assert (Forall (entry_at (valueSize fl) σ2) cs') as Hat2
    by (eapply Forall_impl; [exact Hat1|]; intros; by eapply entry_at_gheap).
  eapply (wp_put_batch σ1 σ2 (PG lw) c wb_empty cs' rs).
  { split_and!; [done|done|done|done|apply lookup_insert_eq]. }
  { exact Hat2. }
  { exact (shows_gheap σ1 σ2 cs' rs Hat1 Hsh1 Hg2). }
  intros σ3 b Hbs Eg3 Hu. rewrite law_wb_empty in Hu. simpl in Hu.
  apply wp_bind. eapply wp_Store_WriteBatch; [exact Hr|exact Hbs|exact Hu| |].
  { apply Forall_fmap. eapply Forall_impl; [exact Hrs|]. intros r Hr'. by apply draw_update_ok. }
  intros w Hr4 _. apply wp_bind, wp_ret, wp_ret. do 2 (apply wp_bind, wp_ret).
  destruct Hbs as (_ & Hch & Hgh & _ & Hwb). apply wp_bind.
  rewrite decide_False by done. unfold wp at 1.
  erewrite (WriteBatch_Destroy_spec _ lw c b); [|exact Hwb|simpl; rewrite Hch; apply lookup_insert_eq].
  apply wp_ret. split_and!.
  - unfold blen. by rewrite length_fmap, <-(length_fmap c_e cs), <-Ee, length_fmap.
  - simpl. rewrite Hch, delete_insert_id by done. done.
  - eapply store_rep_same_world; [exact Hr4| |done]. split; simpl.
    + by rewrite Hch, delete_insert_id.
    + rewrite Eg3. unfold σ2. cbn. rewrite insert_insert_eq. by apply insert_subseteq.
  - exists cs'. split_and!; [done| |done]. eapply Forall_impl; [exact Hat1|]. intros c'.
    apply entry_at_gheap. cbn. rewrite Eg3. unfold σ2. cbn. rewrite insert_insert_eq.
    by apply insert_subseteq.
Qed.
End rocks.

(** ** The entries a program makes *)

Section new_entries.
Context `{RocksDB}.
Context (vsz : Z) (Hvsz : 0 ≤ vsz < 2 ^ 63).

Lemma wp_new_entry σ (Q : ptr → st → Prop) :
  (∀ c σ', grows σ σ' → cheap σ' = cheap σ → world σ' = world σ → entry_at vsz σ' c →
     NoDup (ec_locs c) → (∀ l, l ∈ ec_locs c → gheap σ !! l = None) → Q (PG (c_e c)) σ') →
  wp (new_entry vsz) σ Q.
Proof.
  intros HQ. unfold new_entry, go_make. rewrite (proj2 (Z.ltb_ge vsz 0)) by lia.
  cbn [Z.ltb Z.compare]. apply wp_bind, wp_go_new. intros le Hle.
  do 2 apply wp_bind. apply wp_go_new. intros lk Hlk. apply wp_ret. cbn in Hlk.
  apply lookup_insert_None in Hlk as [Hlk Hlk'].
  apply wp_bind. eapply wp_upd_entry; [cbn; rewrite lookup_insert_ne by done; apply lookup_insert_eq|].
  do 2 apply wp_bind. apply wp_go_new. intros lv Hlv. apply wp_ret. cbn in Hlv.
  rewrite !lookup_insert_None in Hlv. destruct Hlv as [[[Hlv Hv1] Hv2] _].
  apply wp_bind. eapply wp_upd_entry;
    [cbn; rewrite lookup_insert_ne by done; apply lookup_insert_eq|]. apply wp_ret.
  cbn [e_Value e_Meta e_Key]. set (σ' := on_gheap _ _).
  assert (blen (replicate (Z.to_nat 22) "000"%byte) = 22) as E22 by done.
  set (z := replicate (Z.to_nat vsz) "000"%byte) in *.
  assert (blen z = vsz) as Ez by (unfold z, blen; rewrite length_replicate; lia).
  apply (HQ (EC le lk lv)).
  - split; [done|]. apply map_subseteq_spec. intros l o Hl. cbn.
    rewrite !lookup_insert_ne by congruence. done.
  - done.
  - done.
  - exists 22, (replicate (Z.to_nat 22) "000"%byte), z, 0. rewrite E22. cbn.
    split_and!; [apply lookup_insert_eq| | |done|done].
    + rewrite !(lookup_insert_ne _ _ lk) by congruence. apply lookup_insert_eq.
    + rewrite lookup_insert_ne by congruence. apply lookup_insert_eq.
  - unfold ec_locs; cbn. repeat constructor; set_solver.
  - unfold ec_locs; cbn. intros l. set_solver.
Qed.

Lemma wp_new_entries n σ (Q : list ptr → st → Prop) :
  (∀ cs σ', length cs = n → grows σ σ' → cheap σ' = cheap σ → world σ' = world σ →
     Forall (entry_at vsz σ') cs → separated cs →
     (∀ l, l ∈ cs ≫= ec_locs → gheap σ !! l = None) → Q ((λ c, PG (c_e c)) <$> cs) σ') →
  wp (new_entries vsz n) σ Q.
Proof.
  revert σ Q. induction n as [|n IH]; intros σ Q HQ.
  { apply wp_ret. apply (HQ []); [done|apply grows_refl|done|done|done|constructor|].
    intros l Hl. by apply elem_of_nil in Hl. }
  cbn [new_entries]. apply wp_bind, wp_new_entry. intros c σ1 Hg1 Ec1 Ew1 Hat1 Hnd1 Hl1.
  apply wp_bind, IH. intros cs σ2 Hlen Hg2 Ec2 Ew2 Hat2 Hsep2 Hl2. apply wp_ret.
  apply (HQ (c :: cs)).
  - simpl. by rewrite Hlen.
  - by eapply grows_trans.
  - congruence.
  - congruence.
  - constructor; [|done]. eapply entry_at_gheap; [apply Hg2|done].
  - apply separated_cons. split_and!; [done| |done]. intros l Hl Hin.
    by eapply (entry_at_live _ σ1 c l), Hl2.
  - cbn [mbind list_bind]. intros l [Hl|Hl]%elem_of_app; [by apply Hl1|].
    specialize (Hl2 l Hl). destruct (gheap σ !! l) as [o|] eqn:E; [|done].
    destruct Hg1 as [_ Hg1]. eapply lookup_weaken in E; [|exact Hg1]. congruence.
Qed.
End new_entries.

(** ** A concrete batch *)

#[local] Existing Instance amd64.

(** Libraries that are never called. *)
#[export] Instance no_stores : Stores := {|
  badger_DB := unit; badger_Txn := unit;
  badger_NewTransaction := λ _ _, mret tt;
  badger_Set := λ _ _ _, mret None;
  badger_Commit := λ _, mret None;
  leveldb_DB := unit; leveldb_Batch := unit;
  leveldb_NewBatch := mret tt;
  leveldb_Put := λ _ _ _, mret tt;
  leveldb_Write := λ _ _ _, mret None;
  bolt_DB := unit; bolt_Tx := unit; bolt_Bucket := unit;
  bolt_Batch := λ _ f, f tt;
  bolt_GetBucket := λ _ _, mret (Some tt);
  bolt_Put := λ _ _ _, mret None;
  lmdb_Env := unit; lmdb_DBI := unit; lmdb_Txn := unit;
  lmdb_Update := λ _ f, f tt;
  lmdb_Put := λ _ _ _ _ _, mret None;
|}.

(** One million keys, values of four bytes. *)
Definition demo_flags : flags := Flags (f64_of_Z 1) 4.

(** Two entries: the first as [main] makes it, the second with a key array that is
    too small. *)
Definition sigma_entries : st :=
  on_gheap (λ g, list_to_map [
      (11%positive, GEntry (mkEntry (Sl (PG 12) 22 22) (Sl (PG 13) 4 4) 0));
      (12%positive, GBytes (replicate 22 "000"%byte)); (13%positive, GBytes (bs "0000"));
      (14%positive, GEntry (mkEntry (Sl (PG 15) 3 3) (Sl (PG 16) 4 4) 0));
      (15%positive, GBytes (bs "abc")); (16%positive, GBytes (bs "0000"))] ∪ g)
    (sigma_db ∅).

Definition demo_dbi : @lmdb_DBI _ _ no_stores := tt.

Definition demo_draw (r : Z) : draw := Draw r (λ n, r mod n) (λ n, replicate (Z.to_nat n) "x"%byte).

Lemma demo_draw_ok r : 0 ≤ r < 2 ^ 63 → draw_ok (demo_draw r).
Proof.
  intros Hr. split_and!; [apply Hr..| |]; cbn.
  - intros n Hn. by apply Z.mod_pos_bound.
  - intros n Hn. unfold blen. rewrite length_replicate. lia.
Qed.

Lemma writeBatch_rocks_witness :
  wp (writeBatch demo_flags (only_rocks demo_dbi (PG 4)) [PG 11; PG 14] [demo_draw 7; demo_draw 1000009])
    sigma_entries (λ n σ', n = 2 ∧ cheap σ' = cheap sigma_entries ∧
      store_rep σ' (PG 4) 1 [] (KV (apply_updates
        [UPut (bs "vsz=00004-k=0000000007") (bs "xxxx");
         UPut (bs "vsz=00004-k=0000000009") (bs "xxxx")] ∅) None []) ∧
      ∃ cs', c_e <$> cs' = [11%positive; 14%positive] ∧ Forall (entry_at 4 σ') cs' ∧
             separated cs').
Proof.
  assert (draw_update demo_flags <$> [demo_draw 7; demo_draw 1000009] =
    [UPut (bs "vsz=00004-k=0000000007") (bs "xxxx");
     UPut (bs "vsz=00004-k=0000000009") (bs "xxxx")]) as <- by (vm_compute; reflexivity).
  apply (writeBatch_rocks demo_flags demo_dbi sigma_entries (PG 4) 1%positive [] (KV ∅ None [])
    [EC 11 12 13; EC 14 15 16] [demo_draw 7; demo_draw 1000009]).
  - split; [done|done|done|by split|].
    exists (mkStore (PG 1) Nil Nil (PG 2) (PG 3)), new_ReadOptions, new_WriteOptions.
    split; [done|by eexists|by eexists|by eexists|done|constructor].
  - done.
  - apply Forall_cons; split; [|apply Forall_singleton].
    + by exists 22, (replicate 22 "000"%byte), (bs "0000"), 0.
    + by exists 3, (bs "abc"), (bs "0000"), 0.
  - apply (bool_decide_unpack _). vm_compute. done.
  - repeat constructor; apply demo_draw_ok; lia.
  - intros E. assert (1000000 = 0) by (etrans; [|exact E]; vm_compute; reflexivity). lia.
  - simpl. lia.
Defined.
