(* ===== verification/MemStores.v ===== *)
(** * The other stores in memory

    An instance of the four libraries that satisfies the laws of [Libraries.v]: a
    database is a map in the world of [MemRocks.v], and a transaction collects copies
    of what it is given. *)

From S2P Require Import Prelude Rocks MemRocks Memory Populate Libraries.

Definition t_begin (db : handle) : M st handle :=
  t ← gets (λ σ, fresh (dom (w_txns (world σ))));
  modS (on_world (m_on_txns <[t := (db, [])]>));;
  mret t.

(** The updates [t] has collected. *)
Definition t_pending (w : mworld) (t : handle) : list update := from_option snd [] (w_txns w !! t).

Definition t_add (t : handle) (u : update) : M st unit :=
  modS (on_world (m_on_txns (alter (λ x, (x.1, x.2 ++ [u])) t))).

(** A transaction takes three updates. *)
Definition t_fits (us : list update) : bool := (length us <=? 3)%nat.

(** And lmdb has room for six entries in all. *)
Definition t_room (m : gmap bytes bytes) (us : list update) : bool :=
  t_fits us && (size m + length us <=? 6)%nat.

Definition t_put (t : handle) (k v : goslice) : M st error :=
  kb ← sl_read k;
  vb ← sl_read v;
  us ← gets (λ σ, t_pending (world σ) t);
  if t_fits (us ++ [UPut kb vb]) then t_add t (UPut kb vb);; mret None
  else mret (Some (bs "Txn is too big to fit into one request")).

(** What [t] has collected goes to [db]. *)
Definition t_write (db t : handle) : M st error :=
  us ← gets (λ σ, t_pending (world σ) t);
  modS (on_world (m_on_kvs (alter (apply_updates us) db)));;
  mret None.

Definition t_commit (t : handle) : M st error :=
  db ← gets (λ σ, from_option fst 1%positive (w_txns (world σ) !! t));
  t_write db t.

Definition t_update (db : handle) (f : handle → M st error) : M st error :=
  t ← t_begin db;
  err ← f t;
  match err with Some _ => mret err | None => t_commit t end.

(** An update of lmdb finds out whether there is room when it commits. *)
Definition t_update_room (db : handle) (f : handle → M st error) : M st error :=
  m ← gets (λ σ, default ∅ (w_kvs (world σ) !! db));
  t ← t_begin db;
  err ← f t;
  us ← gets (λ σ, t_pending (world σ) t);
  match err with
  | Some _ => mret err
  | None => if t_room m us then t_commit t else mret (Some (bs "MDB_MAP_FULL"))
  end.

#[export] Instance mem_stores : Stores := {|
  badger_DB := bytes * handle; badger_Txn := handle;
  badger_NewTransaction := λ db _, t_begin db.2;
  badger_Set := t_put;
  badger_Commit := t_commit;
  leveldb_DB := handle; leveldb_Batch := handle;
  leveldb_NewBatch := t_begin 1%positive;
  leveldb_Put := λ b k v, kb ← sl_read k; vb ← sl_read v; t_add b (UPut kb vb);
  leveldb_Write := λ db b _, t_write db b;
  bolt_DB := handle; bolt_Tx := handle; bolt_Bucket := handle;
  bolt_Batch := t_update;
  bolt_GetBucket := λ t name, mret (if decide (name = bs "bench") then Some t else None);
  bolt_Put := t_put;
  lmdb_Env := handle; lmdb_DBI := unit; lmdb_Txn := handle;
  lmdb_Update := t_update_room;
  lmdb_Put := λ t _ k v _, t_put t k v;
|}.

(** A database of contents [m], and a transaction on it with the updates [us]. *)
Definition t_holds (w : mworld) (db : handle) (m : gmap bytes bytes) : Prop :=
  w_kvs w !! db = Some m.
Definition t_tx (σ : st) (t db : handle) (m : gmap bytes bytes) (us : list update) : Prop :=
  w_txns (world σ) !! t = Some (db, us) ∧ t_holds (world σ) db m.

(** A transaction that reads a database of contents [m]. *)
Definition t_reads (w : mworld) (t db : handle) (m : gmap bytes bytes) : Prop :=
  (∃ us, w_txns w !! t = Some (db, us)) ∧ t_holds w db m.

#[export] Instance mem_stores_view : StoresView := {|
  accepts := λ _, t_fits;
  lmdb_accepts := λ w env _, t_room (default ∅ (w_kvs w !! env));
  badger_holds := λ w db, t_holds w db.2;
  leveldb_holds := t_holds;
  bolt_holds := t_holds;
  lmdb_holds := λ w env _, t_holds w env;
  badger_tx := λ σ t db m us, t_tx σ t db.2 m us ∧ t_fits us = true;
  badger_reads := λ w t db, t_reads w t db.2;
  leveldb_batch := λ σ b us, ∃ db, w_txns (world σ) !! b = Some (db, us);
  bolt_tx := λ σ t db m us, t_tx σ t db m us ∧ t_fits us = true;
  bolt_tx_of := λ b, b;
  lmdb_tx := λ σ t env _ m acc us, t_tx σ t env m us ∧ acc = t_room m;
|}.

Lemma wp_t_begin σ db m (Q : handle → st → Prop) :
  t_holds (world σ) db m →
  (∀ t σ', lib_step σ σ' → t_tx σ' t db m [] → Q t σ') → wp (t_begin db) σ Q.
Proof. intros Hm HQ. apply HQ; [by split|]. split; [apply lookup_insert_eq|done]. Qed.

Lemma wp_t_add σ t db us u (Q : unit → st → Prop) :
  w_txns (world σ) !! t = Some (db, us) →
  (∀ σ', lib_step σ σ' → w_txns (world σ') !! t = Some (db, us ++ [u]) →
     w_kvs (world σ') = w_kvs (world σ) → Q tt σ') →
  wp (t_add t u) σ Q.
Proof. intros Ht HQ. apply HQ; [by split| |done]. cbn. by rewrite lookup_alter_eq, Ht. Qed.

(** Reading a key and a value. *)
Lemma wp_sl_reads {A} σ k v kb vb (f : bytes → bytes → M st A) (Q : A → st → Prop) :
  slice_at σ k kb → slice_at σ v vb → wp (f kb vb) σ Q →
  wp (kb ← sl_read k; vb ← sl_read v; f kb vb) σ Q.
Proof.
  intros Hk Hv HQ. apply wp_bind. unfold wp at 1. rewrite (sl_read_at _ _ _ Hk). apply wp_bind.
  unfold wp at 1. by rewrite (sl_read_at _ _ _ Hv).
Qed.

Lemma wp_tx_put σ t db m us k v kb vb :
  t_tx σ t db m us → slice_at σ k kb → slice_at σ v vb →
  wp (t_put t k v) σ (λ err σ', lib_step σ σ' ∧
    put_result t_fits (λ us, t_tx σ' t db m us ∧ t_fits us = true) us (UPut kb vb) err).
Proof.
  intros [Ht Hm] Hk Hv. eapply wp_sl_reads; [done..|]. apply wp_bind, wp_gets.
  unfold put_result, t_pending. rewrite Ht. cbn [from_option snd]. destruct (t_fits _) eqn:E.
  - apply wp_bind. eapply wp_t_add; [done|]. intros σ' Hs Ht' Ew. apply wp_ret.
    split_and!; [done| |done]. split; [done|]. unfold t_holds. by rewrite Ew.
  - apply wp_ret. split; [done|]. intros vs. apply Nat.leb_gt in E. apply Nat.leb_gt.
    rewrite !length_app in *. simpl in *. lia.
Qed.

Lemma t_room_fits m us : t_fits us = false → t_room m us = false.
Proof. unfold t_room. by intros ->. Qed.

Lemma wp_t_write σ t db db' m us (Q : error → st → Prop) :
  w_txns (world σ) !! t = Some (db', us) → t_holds (world σ) db m →
  (∀ σ', lib_step σ σ' → t_holds (world σ') db (apply_updates us m) → Q None σ') →
  wp (t_write db t) σ Q.
Proof.
  intros Ht Hm HQ. unfold t_write, wp, mbind, M_bind, gets, t_pending. rewrite Ht. apply HQ; [by split|].
  unfold t_holds in *. cbn. by rewrite lookup_alter_eq, Hm.
Qed.

Lemma wp_t_commit σ t db m us (Q : error → st → Prop) :
  t_tx σ t db m us →
  (∀ σ', lib_step σ σ' → t_holds (world σ') db (apply_updates us m) → Q None σ') →
  wp (t_commit t) σ Q.
Proof.
  intros [Ht Hm] HQ. unfold t_commit. apply wp_bind, wp_gets. rewrite Ht. by eapply (wp_t_write _ t db db m us).
Qed.

Lemma wp_t_update σ db m us f (Q : error → st → Prop) :
  t_holds (world σ) db m →
  (∀ t σ1, lib_step σ σ1 → t_tx σ1 t db m [] →
     wp (f t) σ1 (λ err σ2, err = None ∧ lib_step σ1 σ2 ∧ t_tx σ2 t db m us)) →
  (∀ σ', lib_step σ σ' → t_holds (world σ') db (apply_updates us m) → Q None σ') →
  wp (t_update db f) σ Q.
Proof.
  intros Hm Hf HQ. apply wp_bind. eapply wp_t_begin; [exact Hm|]. intros t σ1 H1 Ht.
  apply wp_bind. eapply wp_mono; [by eapply Hf|]. intros err σ2 (-> & H2 & Ht2).
  eapply wp_t_commit; [exact Ht2|]. intros σ3 H3 Hm3. apply HQ; [|done].
  etrans; [exact H1|]. by etrans.
Qed.

Lemma wp_t_update_error σ db m f :
  t_holds (world σ) db m →
  (∀ t σ1, lib_step σ σ1 → t_tx σ1 t db m [] →
     wp (f t) σ1 (λ err σ2, is_Some err ∧ lib_step σ1 σ2)) →
  wp (t_update db f) σ (λ err σ', is_Some err ∧ lib_step σ σ').
Proof.
  intros Hm Hf. apply wp_bind. eapply wp_t_begin; [exact Hm|]. intros t σ1 Hs1 Ht.
  apply wp_bind. eapply wp_mono; [by eapply Hf|]. intros err σ2 [[e ->] Hs2].
  apply wp_ret. split; [by eexists|by etrans].
Qed.

Lemma wp_t_update_room σ db m us f :
  t_holds (world σ) db m →
  (∀ t σ1, lib_step σ σ1 → t_tx σ1 t db m [] →
     wp (f t) σ1 (λ err σ2, lib_step σ1 σ2 ∧
       match err with None => t_tx σ2 t db m us | Some _ => t_room m us = false end)) →
  wp (t_update_room db f) σ (λ err σ', lib_step σ σ' ∧
    if t_room m us then err = None ∧ t_holds (world σ') db (apply_updates us m) else is_Some err).
Proof.
  intros Hm Hf. unfold t_update_room. apply wp_bind, wp_gets. unfold t_holds in Hm. rewrite Hm.
  cbn [default id]. apply wp_bind. eapply wp_t_begin; [exact Hm|]. intros t σ1 Hs1 Ht.
  apply wp_bind. eapply wp_mono; [by eapply Hf|]. intros err σ2 [Hs2 Hres].
  apply wp_bind, wp_gets. destruct err as [e|].
  - apply wp_ret. rewrite Hres. split; [by etrans|by eexists].
  - destruct Hres as [Ht2 Hm2]. unfold t_pending. rewrite Ht2. cbn [from_option snd].
    destruct (t_room m us).
    + eapply wp_t_commit; [by split|]. intros σ3 Hs3 Hm3. split; [|done].
      etrans; [exact Hs1|]. by etrans.
    + apply wp_ret. split; [by etrans|by eexists].
Qed.

#[export] Instance mem_stores_laws : StoresLaws.
Proof.
  split; cbn; try done.
  - intros σ db m Hm. eapply wp_t_begin; [exact Hm|]. by intros.
  - intros σ t db m us k v kb vb [Ht _] _ _ Hk Hv. by apply wp_tx_put.
  - by intros σ t db m us [_ E].
  - intros σ t db m us [Ht _]. eapply wp_t_commit; [done|]. by intros.
  - intros σ db m Hm. eapply wp_t_begin; [exact Hm|]. intros t σ' Hs [Ht Hm']. split; [done|].
    split; [by eexists|done].
  - intros σ db m Hm. split; [by split|]. split; [|done]. exists 1%positive. apply lookup_insert_eq.
  - intros σ b db m us k v kb vb (db' & Ht) Hm Hk Hv. eapply wp_sl_reads; [done..|].
    eapply wp_t_add; [done|]. intros σ' Hs Ht' Ew. split_and!; [done|by exists db'|].
    unfold t_holds. by rewrite Ew.
  - intros σ b db m us _ (db' & Ht) Hm. eapply wp_t_write; [done..|]. by intros.
  - intros σ db m us f Hm Hf. eapply wp_t_update; [done| |by intros]. intros t σ1 Hs1 Ht.
    eapply wp_mono; [by eapply Hf|]. by intros err σ2 (? & ? & ? & _).
  - intros σ db m f Hm Hf. eapply wp_t_update_error; [exact Hm|]. intros t σ1 Hs1 Ht. by apply Hf.
  - by intros σ t db m us [_ E].
  - intros σ t db m us Ht. apply wp_ret. rewrite decide_True by done. split; [done|split; [exact Ht|by exists t]].
  - intros σ t db m us k v kb vb [Ht _] Hk Hv. by apply wp_tx_put.
  - intros σ env _ m us f Hm. pose proof Hm as Em. unfold t_holds in Em. rewrite Em. cbn [default id].
    intros Hf. apply wp_t_update_room; [exact Hm|]. intros t σ1 Hs1 Ht.
    eapply wp_mono; [by eapply Hf|]. intros [e|] σ2 [Hs2 Hres]; [done|]. by destruct Hres.
  - intros σ t env _ m acc us k v kb vb [Ht ->] Hk Hv. eapply wp_mono; [by eapply wp_tx_put|].
    intros [e|] σ' [Hs Hres]; split; [done| |done|].
    + intros vs. by apply t_room_fits, Hres.
    + by destruct Hres.
Qed.
