(* ===== verification/OtherStores.v ===== *)
(** * What populate writes to the other stores

    [writeBatch] with badger, leveldb, bolt or lmdb open: each has its own loop and its
    own transaction ([Populate.write_badger] and the others), and all of them apply
    the same updates, those of the draws in their order, under the laws of
    [Libraries.v].  For the rocks store the theorem is [PopulateSpec.writeBatch_rocks]. *)

From S2P Require Import Prelude Rocks MemRocks Memory Rdb Strconv Store StoreSpec Float64 Populate PopulateMain PopulateSpec Libraries MemStores Scenario.

Section loops.
Context `{StoresLaws, Libc}.
(** The size of the values, and the key and the value made of a draw. *)
Context (vsz : Z) (kf vf : draw → bytes).

Definition put_of (r : draw) : update := UPut (kf r) (vf r).

Abbreviation updates rs := (put_of <$> rs).
Abbreviation ptrs cs := ((λ c, PG (c_e c)) <$> cs).

(** The entries [cs] of the program, filled from the draws [rs]. *)
Definition ready (σ : st) (cs : list ecell) (rs : list draw) : Prop :=
  Forall (entry_at vsz σ) cs ∧ entries_show kf vf σ cs rs.

Lemma ready_gheap σ σ' cs rs : gheap σ ⊆ gheap σ' → ready σ cs rs → ready σ' cs rs.
Proof.
  intros Hg [Hat Hsh]. split.
  - eapply Forall_impl; [exact Hat|]. intros. by eapply entry_at_gheap.
  - by eapply entries_show_gheap.
Qed.

Lemma ready_step σ σ' cs rs : lib_step σ σ' → ready σ cs rs → ready σ' cs rs.
Proof. intros [_ Hg _ _]. by apply ready_gheap. Qed.

(** ** The two loops *)

(** The loop without errors is the one with early returns, of puts that do not err. *)
Lemma put_entries_until (put : goslice → goslice → M st unit) es σ :
  put_entries put es σ = (put_until_error (λ k v, put k v;; mret None) es;; mret tt) σ.
Proof.
  revert σ. induction es as [|e es IH]; intros σ; [done|].
  unfold put_entries in *. cbn [for_each put_until_error]. unfold mbind, M_bind, mret, M_ret in *.
  destruct (go_load as_entry e σ) as [x σ1|]; [|done].
  destruct (put (e_Key x) (e_Value x) σ1) as [[] σ2|]; [|done]. by rewrite IH.
Qed.

(** The loop that checks every error is the one with early returns, checked once. *)
Lemma put_entries_check (put : goslice → goslice → M st error) es σ :
  put_entries (λ k v, err ← put k v; check_error "y.Check" err) es σ =
    (err ← put_until_error put es; check_error "y.Check" err) σ.
Proof.
  revert σ. induction es as [|e es IH]; intros σ; [done|].
  unfold put_entries in *. cbn [for_each put_until_error]. unfold mbind, M_bind in *.
  destruct (go_load as_entry e σ) as [x σ1|]; [|done].
  destruct (put (e_Key x) (e_Value x) σ1) as [[err|] σ2|]; [done| |done]. cbn. by rewrite IH.
Qed.

(** A put adds to what is [pending], or returns an error, which it does only to updates
    the transaction does not [acc]ept. *)
Definition put_adds (acc : list update → bool) (pending : st → list update → Prop)
    (put : goslice → goslice → M st error) : Prop :=
  ∀ σ us k v kb vb, pending σ us → go_slice k → go_slice v → slice_at σ k kb → slice_at σ v vb →
    wp (put k v) σ (λ err σ', lib_step σ σ' ∧ put_result acc (pending σ') us (UPut kb vb) err).

Lemma wp_put_until acc pending put cs rs us σ :
  put_adds acc pending put → ready σ cs rs → pending σ us →
  wp (put_until_error put (ptrs cs)) σ (λ err σ', lib_step σ σ' ∧
    match err with
    | None => pending σ' (us ++ updates rs)
    | Some _ => acc (us ++ updates rs) = false
    end).
Proof.
  intros Hput. revert rs us σ. induction cs as [|c cs IH]; intros rs us σ [Hat Hsh] Hp.
  { inversion Hsh; simplify_eq. apply wp_ret. cbn. by rewrite app_nil_r. }
  inversion Hsh as [|? r ? rs' (x & Hx & Hk & Hv) Hsh']; simplify_eq. clear Hsh.
  apply Forall_cons in Hat as [Hc Hat]. cbn [fmap list_fmap put_until_error].
  assert (go_slice (e_Key x) ∧ go_slice (e_Value x)) as [Hgk Hgv].
  { destruct Hc as (n & a & v & meta & He & _). rewrite He in Hx. injection Hx as <-.
    by split; eexists. }
  apply wp_bind. eapply wp_go_load; [exact Hx|done|]. apply wp_bind.
  eapply wp_mono; [by apply (Hput σ us)|]. intros [e|] σ1 [Hs1 Hres]; cbn [put_result] in Hres.
  - apply wp_ret. split; [exact Hs1|]. apply (Hres (updates rs')).
  - rewrite cons_middle, (assoc_L (++)). eapply wp_mono.
    { apply (IH rs'); [by apply (ready_step σ)|exact Hres]. }
    intros err σ2 [Hs2 Hres2]. split; [by etrans|exact Hres2].
Qed.

Lemma wp_put_entries pending put cs rs σ (Q : unit → st → Prop) :
  put_adds (λ _, true) pending (λ k v, put k v;; mret None) → ready σ cs rs → pending σ [] →
  (∀ σ', lib_step σ σ' → pending σ' (updates rs) → Q tt σ') →
  wp (put_entries put (ptrs cs)) σ Q.
Proof.
  intros Hput Hr Hp HQ. unfold wp. rewrite put_entries_until. apply wp_bind.
  eapply wp_mono; [by eapply (wp_put_until (λ _, true))|]. intros [e|] σ' [Hs Hp']; [done|].
  by apply wp_ret, HQ.
Qed.

(** [y.Check] is reached with an error exactly when the updates [us] are refused. *)
Definition stops_if_refused (acc : list update → bool) (us : list update) (e : fault) : Prop :=
  acc us = false ∧ e = Fatal "y.Check".

(** badger's loop, of populate and of rw-bench, checks every error. *)
Definition put_badger (txn : badger_Txn) (k v : goslice) : M st unit :=
  err ← badger_Set txn k v; check_error "y.Check" err.

Lemma wp_put_badger σ txn db m cs rs (Q : unit → st → Prop) :
  badger_tx σ txn db m [] → ready σ cs rs →
  (∀ σ', accepts Badger (updates rs) = true → lib_step σ σ' →
     badger_tx σ' txn db m (updates rs) → Q tt σ') →
  wpf (put_entries (put_badger txn) (ptrs cs)) σ Q
    (stops_if_refused (accepts Badger) (updates rs)).
Proof.
  intros Ht Hr HQ. unfold wpf, put_badger. rewrite put_entries_check.
  eapply (wpf_bind (λ err, check_error "y.Check" err)).
  eapply wp_mono.
  { apply (wp_put_until (accepts Badger) (λ σ us, badger_tx σ txn db m us) _ cs rs []);
      [|exact Hr|exact Ht].
    intros σ2 us k v kb vb Ht2 Hgk Hgv Hk Hv. by apply law_badger_Set. }
  intros [e|] σ1 [Hs1 Hres]; cbn [app] in Hres.
  - by apply wpf_check_error.
  - apply HQ; [by eapply law_badger_fits|done|done].
Qed.

(** An update function that returns what its puts return. *)
Lemma wpf_update_check (acc : list update → bool) us (m : M st error) σ (Q : unit → st → Prop) :
  wp m σ (λ err σ', if acc us then err = None ∧ Q tt σ' else is_Some err) →
  wpf (err ← m; check_error "y.Check" err) σ (λ u σ', acc us = true ∧ Q u σ')
    (stops_if_refused acc us).
Proof.
  intros Hm. apply wpf_bind. eapply wp_mono; [exact Hm|]. intros err σ' Hres.
  destruct (acc us) eqn:E.
  - by destruct Hres as [-> ?].
  - apply wpf_check_error; [|done]. intros ->. by destruct Hres.
Qed.
End loops.

Section stores.
Context `{StoresLaws, Libc, Arch}.
Context (fl : flags).

Abbreviation updates rs := (draw_update fl <$> rs).
Abbreviation ptrs cs := ((λ c, PG (c_e c)) <$> cs).
#[local] Abbreviation ready := (ready (valueSize fl) (draw_key fl) (draw_value fl)).
#[local] Abbreviation wp_put_until := (wp_put_until (valueSize fl) (draw_key fl) (draw_value fl)).
#[local] Abbreviation wp_put_entries := (wp_put_entries (valueSize fl) (draw_key fl) (draw_value fl)).

(** ** The four writes *)

Context (rs : list draw).

Lemma wp_write_badger σ db m cs :
  badger_holds (world σ) db m → ready σ cs rs →
  wpf (write_badger db (ptrs cs)) σ (λ _ σ', accepts Badger (updates rs) = true ∧
    lib_step σ σ' ∧ badger_holds (world σ') db (apply_updates (updates rs) m))
    (stops_if_refused (accepts Badger) (updates rs)).
Proof.
  intros Hm Hr. apply wpf_bind. eapply wp_mono; [by apply law_badger_NewTransaction|].
  intros txn σ1 [Hs1 Ht1]. apply wpf_bind_stop.
  eapply (wp_put_badger (valueSize fl) (draw_key fl) (draw_value fl));
    [exact Ht1|by eapply ready_step|].
  intros σ2 Ha Hs2 Ht2. apply wpf_wp, wp_bind. eapply wp_mono; [by eapply law_badger_Commit|].
  intros err σ3 (-> & Hs3 & Hm3). apply wp_ret. split_and!; [done| |done].
  etrans; [exact Hs1|]. by etrans.
Qed.

Lemma wp_write_leveldb σ db m cs :
  leveldb_holds (world σ) db m → ready σ cs rs →
  wp (write_leveldb db (ptrs cs)) σ (λ _ σ',
    lib_step σ σ' ∧ leveldb_holds (world σ') db (apply_updates (updates rs) m)).
Proof.
  intros Hm Hr. apply wp_bind. eapply wp_mono; [by apply law_leveldb_NewBatch|].
  intros b σ1 (Hs1 & Hb1 & Hm1). apply wp_bind.
  apply (wp_put_entries (λ σ us, leveldb_batch σ b us ∧ leveldb_holds (world σ) db m) _ cs rs);
    [|by eapply ready_step|done|].
  - intros σ2 us k v kb vb [Hb2 Hm2] _ _ Hk Hv. apply wp_bind.
    eapply wp_mono; [by eapply law_leveldb_Put|]. intros _ σ3 (Hs3 & Hb3 & Hm3). by apply wp_ret.
  - intros σ2 Hs2 [Hb2 Hm2]. apply wp_bind. eapply wp_mono; [by eapply law_leveldb_Write|].
    intros err σ3 (-> & Hs3 & Hm3). apply wp_ret. split; [|done]. etrans; [exact Hs1|]. by etrans.
Qed.

(** The puts of bolt and of lmdb, in a transaction [tx]. *)
Lemma wp_tx_puts acc tx put cs σ :
  put_adds acc tx put → ready σ cs rs → tx σ [] →
  wp (put_until_error put (ptrs cs)) σ (λ err σ', lib_step σ σ' ∧
    match err with None => tx σ' (updates rs) | Some _ => acc (updates rs) = false end).
Proof. intros Hput Hr Ht. by apply (wp_put_until acc tx put cs rs []). Qed.

Lemma wp_write_bolt σ db m cs :
  bolt_holds (world σ) db m → ready σ cs rs →
  wpf (write_bolt db (ptrs cs)) σ (λ _ σ', accepts Bolt (updates rs) = true ∧
    lib_step σ σ' ∧ bolt_holds (world σ') db (apply_updates (updates rs) m))
    (stops_if_refused (accepts Bolt) (updates rs)).
Proof.
  intros Hm Hr.
  assert (∀ txn σ1, lib_step σ σ1 → bolt_tx σ1 txn db m [] →
    wp (boltBkt ← bolt_GetBucket txn (bs "bench");
        match boltBkt with
        | None => raise (Fatal "y.AssertTrue")
        | Some boltBkt => put_until_error (bolt_Put boltBkt) (ptrs cs)
        end) σ1 (λ err σ2, lib_step σ1 σ2 ∧
          match err with
          | None => bolt_tx σ2 txn db m (updates rs)
          | Some _ => accepts Bolt (updates rs) = false
          end)) as Hf.
  { intros txn σ1 Hs1 Ht1. apply wp_bind. eapply wp_mono; [by eapply law_bolt_GetBucket|].
    intros b σ2 (Hs2 & Ht2 & bkt & -> & <-). eapply wp_mono.
    { apply (wp_tx_puts (accepts Bolt) (λ σ us, bolt_tx σ (bolt_tx_of bkt) db m us));
        [|eapply ready_step; [|exact Hr]; by etrans|done].
      intros σ3 us k v kb vb Ht3 _ _ Hk Hv. by apply law_bolt_Put. }
    intros err σ3 [Hs3 Hres]. split; [by etrans|exact Hres]. }
  apply (wpf_update_check (accepts Bolt) (updates rs)). destruct (accepts Bolt (updates rs)) eqn:E.
  - eapply wp_mono; [eapply (law_bolt_Batch _ _ _ (updates rs)); [exact Hm|]|done].
    intros txn σ1 Hs1 Ht1. eapply wp_mono; [by apply Hf|]. by intros [e|] σ2 [? ?].
  - eapply wp_mono; [eapply law_bolt_Batch_error; [exact Hm|]|by intros err σ2 [? _]].
    intros txn σ1 Hs1 Ht1. eapply wp_mono; [by apply Hf|]. intros [e|] σ2 [? Ht2]; [done|].
    apply law_bolt_fits in Ht2. congruence.
Qed.

Lemma wp_write_lmdb σ env dbi m cs :
  lmdb_holds (world σ) env dbi m → ready σ cs rs →
  let acc := lmdb_accepts (world σ) env dbi in
  wpf (write_lmdb env dbi (ptrs cs)) σ (λ _ σ', acc (updates rs) = true ∧
    lib_step σ σ' ∧ lmdb_holds (world σ') env dbi (apply_updates (updates rs) m))
    (stops_if_refused acc (updates rs)).
Proof.
  intros Hm Hr acc. apply (wpf_update_check acc (updates rs)).
  eapply wp_mono; [apply (law_lmdb_Update σ env dbi m (updates rs)); [exact Hm|]|].
  - intros txn σ1 Hs1 Ht1. apply (wp_tx_puts acc (λ σ us, lmdb_tx σ txn env dbi m acc us));
      [|by eapply ready_step|done].
    intros σ3 us k v kb vb Ht3 _ _ Hk Hv. by apply law_lmdb_Put.
  - intros err σ' [Hs Hres]. fold acc in Hres. destruct (acc _); [|done]. by destruct Hres.
Qed.

(** ** The batch *)

(** The handles when [main] has opened one of the four, what holds of the world with
    contents [m], and the updates a batch that is written in a world may have. *)
Variant open_library :
    globals → (World → gmap bytes bytes → Prop) → (World → list update → bool) → Prop :=
| open_badger_db db dbi :
    open_library (Globals (Some db) Nil None None None dbi)
      (λ w, badger_holds w db) (λ _, accepts Badger)
| open_leveldb_db db dbi :
    open_library (Globals None Nil None (Some db) None dbi)
      (λ w, leveldb_holds w db) (λ _ _, true)
| open_bolt_db db dbi :
    open_library (Globals None Nil (Some db) None None dbi)
      (λ w, bolt_holds w db) (λ _, accepts Bolt)
| open_lmdb_env env dbi :
    open_library (Globals None Nil None None (Some env) dbi)
      (λ w, lmdb_holds w env dbi) (λ w, lmdb_accepts w env dbi).

(** Past the stores that are not open. *)
#[local] Ltac skip_closed :=
  repeat (try rewrite decide_True by done;
    lazymatch goal with
    | |- wpf (mbind _ (mret _)) _ _ _ => apply wpf_bind, wp_ret
    | |- wpf (mret _) _ _ _ => apply wpf_wp, wp_ret
    end).

(** What [writeBatch] does after it has filled the entries. *)
Lemma wp_library_write g holds accepted σ m cs (Q : Z → st → Prop) :
  open_library g holds accepted → holds (world σ) m → ready σ cs rs →
  (∀ σ', accepted (world σ) (updates rs) = true → lib_step σ σ' →
     holds (world σ') (apply_updates (updates rs) m) → Q (blen (ptrs cs)) σ') →
  wpf (when_some (bdb g) (λ db, write_badger db (ptrs cs));;
       when_some (ldb g) (λ db, write_leveldb db (ptrs cs));;
       rb ← (if decide (rdb g = Nil) then mret Nil else write_rocks (rdb g) (ptrs cs));
       when_some (boltdb g) (λ db, write_bolt db (ptrs cs));;
       when_some (lmdbEnv g) (λ env, write_lmdb env (lmdbDBI g) (ptrs cs));;
       (if decide (rdb g = Nil) then mret tt else WriteBatch_Destroy rb);;
       mret (blen (ptrs cs))) σ Q (stops_if_refused (accepted (world σ)) (updates rs)).
Proof.
  intros Hg Hm Hr HQ.
  destruct Hg; cbn [bdb ldb rdb boltdb lmdbEnv lmdbDBI when_some]; skip_closed;
    (eapply wpf_bind_stop, wpf_mono;
      [first [by apply wp_write_badger | by apply wpf_wp, wp_write_leveldb
             |by apply wp_write_bolt | by apply wp_write_lmdb]|]).
  - intros _ σ2 (Ha & Hs & Hm2). skip_closed. by apply HQ.
  - intros _ σ2 (Hs & Hm2). skip_closed. by apply HQ.
  - intros _ σ2 (Ha & Hs & Hm2). skip_closed. by apply HQ.
  - intros _ σ2 (Ha & Hs & Hm2). skip_closed. by apply HQ.
Qed.

(** One call of [writeBatch], and the memory it touches. *)
Lemma wp_writeBatch_library g holds accepted σ m cs (Q : Z → st → Prop) :
  open_library g holds accepted → holds (world σ) m →
  length cs = length rs → Forall (entry_at (valueSize fl) σ) cs → separated cs →
  Forall draw_ok rs → key_space fl ≠ 0 → 0 ≤ valueSize fl < 2 ^ 63 →
  (∀ cs' σ', accepted (world σ) (updates rs) = true → holds (world σ') (apply_updates (updates rs) m) →
     cheap σ' = cheap σ → go_frame (cs ≫= ec_locs) σ σ' → c_e <$> cs' = c_e <$> cs →
     (∀ l, l ∈ cs' ≫= ec_locs → l ∈ cs ≫= ec_locs ∨ gheap σ !! l = None) →
     Forall (entry_at (valueSize fl) σ') cs' → separated cs' → Q (blen cs) σ') →
  wpf (writeBatch fl g (ptrs cs) rs) σ Q (stops_if_refused (accepted (world σ)) (updates rs)).
Proof.
  intros Hg Hm Hlen Hat Hsep Hrs Hks Hvs HQ. unfold writeBatch. apply wpf_bind.
  eapply wp_fill_entries; [done..|]. intros cs' σ1 Hf Ee Hl Hat1 Hsep1 Hsh1.
  destruct Hf as [(Ec1 & Ew1 & _) Hf].
  assert (ptrs cs = ptrs cs') as Eptrs.
  { trans (PG <$> (c_e <$> cs)); [apply (list_fmap_compose c_e PG)|].
    rewrite <-Ee. symmetry. apply (list_fmap_compose c_e PG). }
  assert (blen (ptrs cs') = blen cs) as Eb by (rewrite <-Eptrs; unfold blen; by rewrite length_fmap).
  rewrite Eptrs. assert (ready σ1 cs' rs) as Hr by done. rewrite <-Ew1 in *.
  eapply wp_library_write; [exact Hg|exact Hm|exact Hr|]. intros σ2 Ha Hs2 Hm2.
  destruct (ready_step _ _ _ _ _ _ _ Hs2 Hr) as [Hat2 _]. destruct Hs2 as [Ec2 Hg2 _ _].
  rewrite Eb. apply (HQ cs'); [done|done|congruence| |done..].
  destruct Hf as [Hd Hf]. split.
  - etrans; [exact Hd|]. by apply subseteq_dom.
  - intros l o Hn Ho. eapply lookup_weaken; [by apply Hf|exact Hg2].
Qed.

(** C19: one call of [writeBatch], whichever of the other four stores is open: it either
    applies to that store exactly the updates of the draws, in their order, in one
    transaction, touches no C memory, keeps the entries usable and returns their
    number; or the store cannot take all the updates in one transaction, and the program
    stops in [y.Check].  There is no third outcome.  Which one it is depends on the
    updates and, with lmdb, on the store as it is before the call: its map may be full. *)
Theorem writeBatch_library g holds accepted σ m cs :
  open_library g holds accepted → holds (world σ) m →
  length cs = length rs → Forall (entry_at (valueSize fl) σ) cs → separated cs →
  Forall draw_ok rs → key_space fl ≠ 0 → 0 ≤ valueSize fl < 2 ^ 63 →
  wpf (writeBatch fl g (ptrs cs) rs) σ (λ n σ', accepted (world σ) (updates rs) = true ∧
    n = blen cs ∧ cheap σ' = cheap σ ∧ holds (world σ') (apply_updates (updates rs) m) ∧
    ∃ cs', c_e <$> cs' = c_e <$> cs ∧ Forall (entry_at (valueSize fl) σ') cs' ∧ separated cs')
  (λ e, accepted (world σ) (updates rs) = false ∧ e = Fatal "y.Check").
Proof.
  intros Hg Hm Hlen Hat Hsep Hrs Hks Hvs. eapply wp_writeBatch_library; [exact Hg|exact Hm|done..|].
  intros cs' σ' Ha Hm' Ec _ Ee _ Hat' Hsep'. split_and!; [done..|]. by exists cs'.
Qed.
End stores.

(** ** A concrete batch *)

#[local] Existing Instance amd64.
#[local] Existing Instance mem_stores.

(** The two entries of [sigma_entries], two more, and an empty database. *)
Definition sigma_kvs : st :=
  on_world (m_on_kvs <[1%positive := ∅]>)
    (on_gheap (λ g, list_to_map [
        (21%positive, GEntry (mkEntry (Sl (PG 22) 3 3) (Sl (PG 23) 4 4) 0));
        (22%positive, GBytes (bs "abc")); (23%positive, GBytes (bs "0000"));
        (24%positive, GEntry (mkEntry (Sl (PG 25) 3 3) (Sl (PG 26) 4 4) 0));
        (25%positive, GBytes (bs "abc")); (26%positive, GBytes (bs "0000"))] ∪ g) sigma_entries).

Definition demo_cells : list ecell := [EC 11 12 13; EC 14 15 16; EC 21 22 23; EC 24 25 26].
Definition demo_draws : list draw :=
  [demo_draw 7; demo_draw 1000009; demo_draw 7; demo_draw 8].

(** A bolt store, and a badger store. *)
Definition demo_bolt : globals := Globals None Nil (Some 1%positive) None None tt.
Definition demo_badger : globals := Globals (Some (bs "data/badger", 1%positive)) Nil None None None tt.

(** An lmdb store whose map has room for one more entry. *)
Definition demo_lmdb : globals := Globals None Nil None None (Some 1%positive) tt.
Definition full_map : gmap bytes bytes :=
  list_to_map [(bs "a", []); (bs "b", []); (bs "c", []); (bs "d", []); (bs "e", [])].
Definition sigma_full : st := on_world (m_on_kvs <[1%positive := full_map]>) sigma_kvs.

(** The first two entries are written. *)
Definition demo_written (n : Z) (σ' : st) : Prop :=
  n = 2 ∧ cheap σ' = cheap sigma_kvs ∧
  t_holds (world σ') 1%positive
    (apply_updates (draw_update demo_flags <$> take 2 demo_draws) ∅) ∧
  ∃ cs', c_e <$> cs' = [11%positive; 14%positive] ∧ Forall (entry_at 4 σ') cs' ∧ separated cs'.

Lemma sigma_kvs_entries : Forall (entry_at 4 sigma_kvs) demo_cells.
Proof.
  repeat (apply Forall_cons; split); [..|done].
  - by exists 22, (replicate 22 "000"%byte), (bs "0000"), 0.
  - by exists 3, (bs "abc"), (bs "0000"), 0.
  - by exists 3, (bs "abc"), (bs "0000"), 0.
  - by exists 3, (bs "abc"), (bs "0000"), 0.
Qed.

Lemma t_fits_length us : t_fits us = (length us <=? 3)%nat.
Proof. done. Qed.

Lemma sigma_full_room us :
  length us = 2%nat → t_room (default ∅ (w_kvs (world sigma_full) !! 1%positive)) us = false.
Proof.
  intros E. unfold t_room. rewrite E.
  change (default ∅ (w_kvs (world sigma_full) !! 1%positive)) with full_map.
  change (size full_map) with 5%nat. apply andb_false_r.
Qed.

(** A batch of two in bolt and in badger; a batch of four, too many for one transaction
    of the model in memory; and the batch of two in an lmdb store that is almost full. *)
Lemma writeBatch_library_witness :
  wp (writeBatch demo_flags demo_bolt [PG 11; PG 14] (take 2 demo_draws))
    sigma_kvs demo_written ∧
  wp (writeBatch demo_flags demo_badger [PG 11; PG 14] (take 2 demo_draws))
    sigma_kvs demo_written ∧
  writeBatch demo_flags demo_bolt [PG 11; PG 14; PG 21; PG 24] demo_draws sigma_kvs =
    Fault (Fatal "y.Check") ∧
  writeBatch demo_flags demo_lmdb [PG 11; PG 14] (take 2 demo_draws) sigma_full =
    Fault (Fatal "y.Check").
Proof.
  assert (key_space demo_flags ≠ 0) as Hks.
  { intros E. assert (1000000 = 0) by (etrans; [|exact E]; vm_compute; reflexivity). lia. }
  assert (separated demo_cells) as Hsep by (apply (bool_decide_unpack _); vm_compute; done).
  assert (separated (take 2 demo_cells)) as Hsep2
    by (apply (bool_decide_unpack _); vm_compute; done).
  assert (Forall draw_ok demo_draws) as Hdr by (repeat constructor; apply demo_draw_ok; lia).
  assert (open_library demo_bolt (λ w, t_holds w 1%positive) (λ _, t_fits)) as Hbolt
    by exact (@open_bolt_db _ _ _ mem_stores_view 1%positive tt).
  assert (open_library demo_badger (λ w, t_holds w 1%positive) (λ _, t_fits)) as Hbadger
    by exact (@open_badger_db _ _ _ mem_stores_view (bs "data/badger", 1%positive) tt).
  assert (open_library demo_lmdb (λ w, t_holds w 1%positive)
    (λ w, t_room (default ∅ (w_kvs w !! 1%positive)))) as Hlmdb
    by exact (@open_lmdb_env _ _ _ mem_stores_view 1%positive tt).
  assert (0 ≤ valueSize demo_flags < 2 ^ 63) as Hvs by (simpl; lia).
  assert (Forall (entry_at 4 sigma_kvs) (take 2 demo_cells)) as Hat
    by apply Forall_take, sigma_kvs_entries.
  assert (Forall draw_ok (take 2 demo_draws)) as Hdr2 by by apply Forall_take.
  split_and!.
  - eapply wp_mono; [eapply wpf_returns|].
    + exact (writeBatch_library demo_flags (take 2 demo_draws) _ _ _ sigma_kvs ∅
        (take 2 demo_cells) Hbolt eq_refl eq_refl Hat Hsep2 Hdr2 Hks Hvs).
    + intros e [E _]. rewrite t_fits_length, length_fmap in E. simpl in E. congruence.
    + by intros n σ' [_ H].
  - eapply wp_mono; [eapply wpf_returns|].
    + exact (writeBatch_library demo_flags (take 2 demo_draws) _ _ _ sigma_kvs ∅
        (take 2 demo_cells) Hbadger eq_refl eq_refl Hat Hsep2 Hdr2 Hks Hvs).
    + intros e [E _]. rewrite t_fits_length, length_fmap in E. simpl in E. congruence.
    + by intros n σ' [_ H].
  - pose proof (writeBatch_library demo_flags demo_draws _ _ _ sigma_kvs ∅ demo_cells Hbolt
      eq_refl eq_refl sigma_kvs_entries Hsep Hdr Hks Hvs) as Hw.
    change (writeBatch demo_flags demo_bolt [PG 11; PG 14; PG 21; PG 24] demo_draws sigma_kvs)
      with (writeBatch demo_flags demo_bolt ((λ c, PG (c_e c)) <$> demo_cells) demo_draws sigma_kvs).
    unfold wpf in Hw. destruct (writeBatch _ _ _ _ _).
    + destruct Hw as [E _]. rewrite t_fits_length, length_fmap in E. simpl in E. congruence.
    + by destruct Hw as [_ ->].
  - pose proof (writeBatch_library demo_flags (take 2 demo_draws) _ _ _ sigma_full full_map
      (take 2 demo_cells) Hlmdb eq_refl eq_refl Hat Hsep2 Hdr2 Hks Hvs) as Hw.
    change [PG 11; PG 14] with ((λ c, PG (c_e c)) <$> take 2 demo_cells).
    unfold wpf in Hw. destruct (writeBatch _ _ _ _ _).
    + destruct Hw as [E _]. rewrite sigma_full_room in E by (by rewrite length_fmap). congruence.
    + by destruct Hw as [_ ->].
Defined.
