(* ===== verification/PopulateOpen.v ===== *)
(** * Which store populate opens

    The choice [open_stores] makes, for every store, and the rocks store it opens
    and closes. *)

From S2P Require Import Prelude Rocks MemRocks Memory Files Rdbc Rdb RdbSpec Strconv Store StoreSpec StoreOpen CheckpointSpec Float64 Populate PopulateMain PopulateSpec Scenario.

(** A result of a sequence of actions: split it into the results of its parts. *)
Ltac inv_ret :=
  repeat match goal with
  | H : (_ ≫= _) _ = Ret _ _ |- _ =>
      apply bind_ret_inv in H as (? & ? & ? & H); cbn beta iota in *
  | H : mret _ _ = Ret _ _ |- _ => injection H as <- <-
  | H : context [match ?x with (_, _) => _ end _] |- _ => destruct x; cbn beta iota in *
  end.

Section selects.
Context `{RocksDB, Libc, !OS, !Stores, !Openers}.

Lemma check_error_ret {E} who (err : option E) (σ σ' : st) u :
  check_error who err σ = Ret u σ' → err = None ∧ σ' = σ.
Proof. destruct err; [done|]. by injection 1 as _ ->. Qed.

(** The constructor returns the address of a new struct, with an error or without. *)
Lemma NewStore_not_nil path σ s err σ' : NewStore path σ = Ret (s, err) σ' → s ≠ Nil.
Proof.
  unfold NewStore, new_Store, go_new, open_into. intros E. inv_ret. by simplify_eq/=.
Qed.

(** Each branch opens its own store only. *)
Lemma open_badger_ret `{!OpenerLaws} dir σ g σ' :
  open_badger dir σ = Ret g σ' →
  ∃ db, g = Globals (Some db) Nil None None None lmdb_zeroDBI.
Proof.
  unfold open_badger. intros E. inv_ret.
  match goal with H : check_error "while opening badger" _ _ = _ |- _ =>
    apply check_error_ret in H as [-> ->] end.
  match goal with H : badger_Open _ _ = _ |- _ =>
    apply law_badger_Open in H as [db ->] end.
  by exists db.
Qed.

Lemma open_rocks_ret dir σ g σ' :
  open_rocks dir σ = Ret g σ' → ∃ s, s ≠ Nil ∧ g = Globals None s None None None lmdb_zeroDBI.
Proof.
  unfold open_rocks. intros E. inv_ret.
  match goal with H : NewStore _ _ = _ |- _ => apply NewStore_not_nil in H end. eauto.
Qed.

Lemma open_bolt_ret dir σ g σ' :
  open_bolt dir σ = Ret g σ' → ∃ db, g = Globals None Nil (Some db) None None lmdb_zeroDBI.
Proof. unfold open_bolt. intros E. inv_ret. eauto. Qed.

Lemma open_leveldb_ret `{!OpenerLaws} dir σ g σ' :
  open_leveldb dir σ = Ret g σ' → ∃ db, g = Globals None Nil None (Some db) None lmdb_zeroDBI.
Proof.
  unfold open_leveldb. intros E. inv_ret.
  match goal with H : check_error _ _ _ = _ |- _ => apply check_error_ret in H as [-> ->] end.
  match goal with H : leveldb_OpenFile _ _ = _ |- _ =>
    apply law_leveldb_OpenFile in H as [db ->] end.
  by exists db.
Qed.

Lemma open_lmdb_ret dir σ g σ' :
  open_lmdb dir σ = Ret g σ' → ∃ env dbi, g = Globals None Nil None None (Some env) dbi.
Proof. unfold open_lmdb. intros E. inv_ret. eauto. Qed.

(** C16: [main] opens exactly the store that [-kv] names: when it goes on, the handle of
    that store is not nil and the handles of the four others are; a value that names
    no store stops the program before any directory is touched. *)
Theorem open_stores_selects `{!OpenerLaws} which dir σ :
  (which ∉ kv_names →
     open_stores which dir σ = Fault (Fatal "Invalid value for option kv")) ∧
  ∀ g σ', open_stores which dir σ = Ret g σ' →
    which ∈ kv_names ∧
    ∀ name, name ∈ kv_names → is_open g name = bool_decide (name = which).
Proof.
  assert (∀ g, (∀ name, name ∈ kv_names → is_open g name = bool_decide (name = which)) ↔
    Forall (λ name, is_open g name = bool_decide (name = which)) kv_names) as Hall
    by (intros g; by rewrite Forall_forall).
  unfold open_stores. split.
  - intros Hn. unfold kv_names in Hn. cbn [fmap list_fmap] in Hn.
    rewrite !decide_False by set_solver. done.
  - intros g σ' E. rewrite Hall. unfold kv_names. cbn [fmap list_fmap].
    repeat case_decide; [..|by inv_ret]; subst which; (split; [by apply (bool_decide_unpack _)|]).
    + inv_ret. edestruct open_badger_ret as [db ->]; [eassumption|].
      by repeat constructor.
    + inv_ret. edestruct open_rocks_ret as (s & Hs & ->); [eassumption|].
      destruct s; [done|..]; by repeat constructor.
    + inv_ret. edestruct open_bolt_ret as [db ->]; [eassumption|]. by repeat constructor.
    + inv_ret. edestruct open_leveldb_ret as [db ->]; [eassumption|]. by repeat constructor.
    + inv_ret. edestruct open_lmdb_ret as (env & dbi & ->); [eassumption|].
      by repeat constructor.
Qed.
End selects.

(** ** The rocks store *)

Lemma c_str_NUL_free d : NUL_free d → c_str d = d.
Proof.
  intros Hd. unfold c_str. assert (until_nul d = None) as ->; [|done]. unfold NUL_free in Hd.
  induction d as [|x d IH]; [done|]. apply not_elem_of_cons in Hd as [Hx Hd]. simpl.
  rewrite decide_False by congruence. by rewrite IH.
Qed.

Section rocks.
Context `{RocksLaws, Libc, !OS, !OSLaws, !Stores, !Openers}.

(** [main] with [-kv rocksdb], whatever the directory held before. *)
Lemma wp_open_rocksdb dir σ (Q : globals → st → Prop) :
  faultless (world σ) → NUL_free (dir ++ bs "/rocks") → unused (world σ) (dir ++ bs "/rocks") →
  (∀ s h σ', store_rep σ' s h [] (KV ∅ None []) → closable (world σ') h (dir ++ bs "/rocks") →
     size (cheap σ') = (1 + opts_blocks + size (cheap σ))%nat →
     Q (only_rocks lmdb_zeroDBI s) σ') →
  wp (open_stores (bs "rocksdb") dir) σ Q.
Proof.
  intros Hf Hn Hu HQ. unfold open_stores. rewrite decide_False, decide_True by done.
  set (path := dir ++ bs "/rocks") in *. apply wp_bind, wp_bind. unfold open_rocks, empty_dir. fold path.
  destruct (law_RemoveAll (world σ) path Hf Hn Hu) as (w1 & E1 & Hst1 & Hd1 & _).
  assert (faultless w1) as Hf1 by by eapply stable_faultless.
  destruct (law_MkdirAll w1 path 511 Hf1) as (e & w2 & E2 & Hst2 & Hd2).
  apply wp_bind, wp_bind. eapply wp_engine; [exact E1|].
  apply wp_bind. eapply wp_engine; [exact E2|]. apply wp_ret.
  apply wp_bind. eapply (wp_NewStore_rep _ _ ∅); rewrite ?c_str_NUL_free by done.
  - by eapply stable_faultless.
  - by apply map_Forall_empty.
  - right. split; [|done]. cbn [world on_world]. by rewrite Hd2.
  - intros s h σ1 Hr1 _ Hsz _ _ _ _ Hcl. apply wp_bind, wp_ret, wp_ret, wp_ret. by eapply HQ.
Qed.

(** The end of [main]: what the store held is in its directory. *)
Lemma wp_close_rocksdb dbi σ s h sp a d (Q : unit → st → Prop) :
  store_rep σ s h sp a → closable (world σ) h d →
  (∀ σ', faultless (world σ') → on_disk (world σ') d = Closed (kv_live a) →
     S (size (cheap σ')) = size (cheap σ) → Q tt σ') →
  wp (close_stores (only_rocks dbi s)) σ Q.
Proof.
  intros [Hf Hc _ _ (x & ro & wo & [Hx Hdb _ _ _ _])] Hcl HQ.
  destruct (law_close (world σ) h d (kv_live a) Hf Hc Hcl) as (w & Ew & Hf' & Hd & _ & _).
  unfold close_stores, only_rocks. cbn [bdb rdb ldb boltdb lmdbEnv when_some].
  apply wp_bind, wp_ret. rewrite decide_False by (by intros ->).
  apply wp_bind. eapply wp_Store_Close; [exact Hx|exact Hdb|exact Ew|]. intros σ' Ew' Hsz.
  do 2 apply wp_bind, wp_ret. by apply wp_ret, HQ; rewrite ?Ew'.
Qed.
End rocks.

(** ** A concrete choice *)

(** Libraries whose calls succeed and do nothing. *)
Definition idle {A} (a : A) : M st A := λ σ, Ret a σ.

#[export] Instance no_openers : Openers := {|
  badger_Options := unit;
  badger_DefaultOptions := λ _, tt;
  badger_set_TableLoadingMode := λ _ o, o;
  badger_set_SyncWrites := λ _ o, o;
  options_MemoryMap := 2;
  badger_Open := λ _, idle (Some tt, None);
  badger_Close := λ _, idle None;
  leveldb_OpenFile := λ _, idle (Some tt, None);
  leveldb_Close := λ _, idle None;
  bolt_Open := λ _ _, idle (Some tt, None);
  bolt_set_NoSync := λ _ _, idle tt;
  bolt_Update := λ _ f, f tt;
  bolt_CreateBucketIfNotExists := λ _ _, idle (Some tt, None);
  bolt_Close := λ _, idle None;
  lmdb_NewEnv := idle (Some tt, None);
  lmdb_SetMaxDBs := λ _ _, idle None;
  lmdb_SetMapSize := λ _ _, idle None;
  lmdb_Open := λ _ _ _ _, idle None;
  lmdb_Update_var := λ V _ v f, f tt v;
  lmdb_CreateDBI := λ _ _, idle (tt, None);
  lmdb_CloseDBI := λ _ _, idle tt;
  lmdb_Close := λ _, idle None;
  lmdb_zeroDBI := tt;
|}.

#[export] Instance no_opener_laws : OpenerLaws.
Proof. by split; intros ???? [= <- _]. Qed.

Lemma open_stores_selects_witness :
  open_stores (bs "redis") (bs "data") sigma0 =
    Fault (Fatal "Invalid value for option kv") ∧
  ∃ g σ', open_stores (bs "rocksdb") (bs "data") sigma0 = Ret g σ' ∧
    is_open g (bs "rocksdb") = true ∧ is_open g (bs "badger") = false.
Proof.
  split.
  - apply (open_stores_selects (bs "redis") (bs "data") sigma0).
    apply (bool_decide_unpack _). vm_compute. done.
  - assert (wp (open_stores (bs "rocksdb") (bs "data")) sigma0 (λ _ _, True)) as Hwp.
    { apply wp_open_rocksdb; [done| |by intros d _|done].
      apply (bool_decide_unpack _). vm_compute. done. }
    destruct (proj1 (wp_run _ _ _) Hwp) as (g & σ' & E & _).
    exists g, σ'. split; [done|].
    destruct (proj2 (open_stores_selects (bs "rocksdb") (bs "data") sigma0) g σ' E) as [_ H].
    split; rewrite H by (apply (bool_decide_unpack _); vm_compute; done); by vm_compute.
Defined.
