(* ===== verification/Workers.v ===== *)
(** * The program populate: the workers

    [main] of populate/main.go starts 32 goroutines, each of which writes batches of
    1000 entries until it has written its share of the keys, and waits for them on a
    [sync.WaitGroup]; the total is an atomic counter.  The interleavings are a step
    relation: a step is a visible action of [main] or of one worker.  The effect of
    a batch on the store is the subject of [PopulateSpec.v]; here a batch is the
    number of entries it returns. *)

From S2P Require Import Prelude Rocks Memory Float64 Populate.
From stdpp Require Import relations.
#[local] Open Scope Z_scope.

(** [N := 32] and [len(entries)]. *)
Definition num_workers : nat := 32.
Definition batch_len : Z := 1000.

(** Where a worker is in its loop. *)
Variant phase :=
| PLoop                     (* at the loop test *)
| PWrote (wrote : float64)  (* writeBatch returned *)
| PAdded (wrote : float64)  (* atomic.AddInt64(&counter, wi) is done *)
| PDone.                    (* wg.Done() *)

Record worker := Worker { w_written : float64; w_phase : phase }.

(** [counter], the sum [rc] was incremented by, and the counter of [wg]. *)
Record shared := Shared { sh_counter : Z; sh_rate : Z; sh_wg : Z }.

Variant main_phase := MSpawning | MWaited.

Record pstate := PState {
  p_main : main_phase;
  p_workers : list worker;
  p_shared : shared;
}.

Definition active (w : worker) : Prop := w_phase w ≠ PDone.

#[export] Instance active_dec w : Decision (active w).
Proof. unfold active. destruct (w_phase w); first [by left|by right; intros []]. Defined.

(** [nw/float64(N)]: what the loop compares with. *)
Definition share (nw : float64) : float64 := f64_div nw (f64_of_Z 32).

Section workers.
Context `{Arch}.
Context (goal : float64).

(** The next action of a worker; [None] when it has ended. *)
Definition worker_next (w : worker) (sh : shared) : option (worker * shared) :=
  match w_phase w with
  | PLoop =>
      if f64_ltb (w_written w) goal
      then Some (Worker (w_written w) (PWrote (f64_of_Z batch_len)), sh)
      else Some (Worker (w_written w) PDone,
                 Shared (sh_counter sh) (sh_rate sh) (sh_wg sh - 1))
  | PWrote wrote =>
      let wi := int_of_f64 wrote in
      Some (Worker (w_written w) (PAdded wrote),
            Shared (wrap_s 64 (sh_counter sh + wi)) (sh_rate sh) (sh_wg sh))
  | PAdded wrote =>
      let wi := int_of_f64 wrote in
      Some (Worker (f64_add (w_written w) wrote) PLoop,
            Shared (sh_counter sh) (sh_rate sh + wi) (sh_wg sh))
  | PDone => None
  end.

Inductive pstep : pstate → pstate → Prop :=
| step_spawn ws sh :
    (length ws < num_workers)%nat →
    pstep (PState MSpawning ws sh)
      (PState MSpawning (ws ++ [Worker (f64_of_Z 0) PLoop])
         (Shared (sh_counter sh) (sh_rate sh) (sh_wg sh + 1)))
| step_worker m ws sh i w w' sh' :
    ws !! i = Some w → worker_next w sh = Some (w', sh') →
    pstep (PState m ws sh) (PState m (<[i := w']> ws) sh')
| step_wait ws sh :
    length ws = num_workers → sh_wg sh = 0 →
    pstep (PState MSpawning ws sh) (PState MWaited ws sh).

Definition pinit : pstate := PState MSpawning [] (Shared 0 0 0).

(** The batches of one worker: the least number whose keys reach the share. *)
Definition rounds : Z :=
  match goal with
  | Fin t => Z.max 0 (- ((- t) / (batch_len * one)))
  | _ => 0
  end.

(** ** The invariant *)

(** The worker made [b] batches; [c] keys are in the counter and [r] in the rate. *)
Variant worker_inv : worker → Z → Z → Prop :=
| inv_loop b : 0 ≤ b ≤ rounds →
    worker_inv (Worker (f64_of_Z (b * batch_len)) PLoop) (b * batch_len) (b * batch_len)
| inv_wrote b : 0 ≤ b < rounds →
    worker_inv (Worker (f64_of_Z (b * batch_len)) (PWrote (f64_of_Z batch_len)))
      (b * batch_len) (b * batch_len)
| inv_added b : 0 ≤ b < rounds →
    worker_inv (Worker (f64_of_Z (b * batch_len)) (PAdded (f64_of_Z batch_len)))
      ((b + 1) * batch_len) (b * batch_len)
| inv_done :
    worker_inv (Worker (f64_of_Z (rounds * batch_len)) PDone)
      (rounds * batch_len) (rounds * batch_len).

(** [crs]: what each worker has added to the counter and to the rate. *)
Record pinv (s : pstate) (crs : list (Z * Z)) : Prop := {
  pi_workers : Forall2 (λ w cr, worker_inv w cr.1 cr.2) (p_workers s) crs;
  pi_counter : sh_counter (p_shared s) = sumZ crs.*1;
  pi_rate : sh_rate (p_shared s) = sumZ crs.*2;
  pi_wg : sh_wg (p_shared s) = blen (filter active (p_workers s));
  pi_num : (length (p_workers s) ≤ num_workers)%nat;
  pi_main : p_main s = MWaited →
    length (p_workers s) = num_workers ∧ filter active (p_workers s) = [];
}.

(** Replacing an element changes the number of active workers by its own. *)
Lemma filter_active_insert ws i w w' :
  ws !! i = Some w →
  blen (filter active (<[i := w']> ws)) =
    blen (filter active ws) - (if decide (active w) then 1 else 0) +
    (if decide (active w') then 1 else 0).
Proof.
  revert i; induction ws as [|z ws IH]; intros [|i] Hw; simpl in Hw; simplify_eq.
  - cbn [insert list_insert]. rewrite !filter_cons. unfold blen.
    repeat case_decide; simpl; lia.
  - change (<[S i:=w']> (z :: ws)) with (z :: <[i:=w']> ws). rewrite !filter_cons. specialize (IH i Hw). unfold blen in *.
    repeat case_decide; simpl; lia.
Qed.

(** The share is a number whose batches a float64 counts exactly. *)
Context (t : Z) (Hshare : goal = Fin t) (Ht : t ≤ (2 ^ 53 - batch_len) * one).

Lemma rounds_spec b : 0 ≤ b → (b * batch_len * one < t ↔ b < rounds).
Proof.
  intros Hb. unfold rounds. rewrite Hshare. pose proof one_pos as H1.
  unfold batch_len in *. pose proof (Z.div_mod (- t) (1000 * one) ltac:(lia)) as Hd.
  pose proof (Z.mod_pos_bound (- t) (1000 * one) ltac:(lia)) as Hm.
  set (q := - t / (1000 * one)) in *. nia.
Qed.

Lemma rounds_bound : 0 ≤ rounds ∧ rounds * batch_len ≤ 2 ^ 53.
Proof.
  split; [unfold rounds; destruct goal; lia|]. destruct (decide (rounds = 0)) as [->|Hne].
  { unfold batch_len. lia. }
  assert (0 < rounds) by (unfold rounds in *; destruct goal; lia).
  assert ((rounds - 1) * batch_len * one < t) as Hlt by (apply rounds_spec; lia).
  pose proof one_pos. unfold batch_len in *. nia.
Qed.

Lemma share_test b :
  0 ≤ b ≤ rounds → f64_ltb (f64_of_Z (b * batch_len)) goal = bool_decide (b < rounds).
Proof.
  intros Hb. pose proof rounds_bound as [_ Hr]. unfold batch_len in Hr.
  rewrite f64_of_Z_small by (unfold batch_len; nia). rewrite Hshare. cbn [f64_ltb].
  pose proof (rounds_spec b ltac:(lia)) as Hs.
  destruct (Z.ltb_spec (b * batch_len * one) t); case_bool_decide; tauto || lia.
Qed.

Lemma int_of_batch : int_of_f64 (f64_of_Z batch_len) = batch_len.
Proof.
  rewrite f64_of_Z_small by (unfold batch_len; lia). unfold int_of_f64.
  rewrite Z.quot_mul by (pose proof one_pos; lia). done.
Qed.

(** The actions a worker has still to make, when it has added [c] to the counter. *)
Definition steps_left (w : worker) (c : Z) : Z :=
  match w_phase w with
  | PLoop => 3 * (rounds - c / batch_len) + 1
  | PWrote _ => 3 * (rounds - c / batch_len)
  | PAdded _ => 3 * (rounds - c / batch_len) + 2
  | PDone => 0
  end.

Lemma steps_left_nonneg w c r : worker_inv w c r → 0 ≤ steps_left w c.
Proof.
  destruct 1; unfold steps_left; cbn [w_phase]; rewrite ?Z.div_mul by done; lia.
Qed.

(** One action of a worker keeps its invariant and moves the counters by the
    difference. *)
Lemma worker_step w sh w' sh' c r :
  worker_inv w c r → 0 ≤ sh_counter sh ≤ 32 * 2 ^ 53 → worker_next w sh = Some (w', sh') →
  ∃ c' r', worker_inv w' c' r' ∧ steps_left w' c' = steps_left w c - 1 ∧
    sh_counter sh' = wrap_s 64 (sh_counter sh - c + c') ∧ sh_rate sh' = sh_rate sh - r + r' ∧
    sh_wg sh' = sh_wg sh - (if decide (active w) then 1 else 0) +
                (if decide (active w') then 1 else 0).
Proof.
  intros Hw Hsh E. assert (wrap_s 64 (sh_counter sh) = sh_counter sh) as Hwrap.
  { unfold wrap_s. rewrite Z.mod_small; lia. }
  pose proof rounds_bound as [Hr0 Hr].
  destruct Hw as [b Hb|b Hb|b Hb|]; unfold worker_next in E; cbn [w_phase w_written] in E.
  - rewrite share_test in E by done. case_bool_decide; simplify_eq.
    + exists (b * batch_len), (b * batch_len). split_and!; [apply inv_wrote; lia|unfold steps_left; cbn; lia| | |].
      * by rewrite Z.sub_add.
      * lia.
      * case_decide as Ha; [|by destruct Ha]. case_decide as Ha'; [lia|by destruct Ha'].
    + assert (b = rounds) as -> by lia. exists (rounds * batch_len), (rounds * batch_len).
      split_and!; [apply inv_done|unfold steps_left; cbn [w_phase]; rewrite Z.div_mul by done; lia|by rewrite Z.sub_add|cbn; lia|].
      case_decide as Ha; [|by destruct Ha]. case_decide as Ha'; [by destruct Ha'|cbn; lia].
  - rewrite int_of_batch in E. simplify_eq. exists ((b + 1) * batch_len), (b * batch_len).
    split_and!; [by apply inv_added|unfold steps_left; cbn [w_phase]; rewrite !Z.div_mul by done; lia|cbn; f_equal; lia|cbn; lia|].
    case_decide as Ha; [|by destruct Ha]. case_decide as Ha'; [cbn; lia|by destruct Ha'].
  - rewrite int_of_batch in E. simplify_eq. exists ((b + 1) * batch_len), ((b + 1) * batch_len).
    split_and!; [|unfold steps_left; cbn [w_phase]; rewrite !Z.div_mul by done; lia
                 |by rewrite Z.sub_add|cbn; lia|].
    + assert (f64_add (f64_of_Z (b * batch_len)) (f64_of_Z batch_len) =
              f64_of_Z ((b + 1) * batch_len)) as ->.
      { rewrite f64_add_small; [f_equal; lia|unfold batch_len in *; nia..]. }
      apply inv_loop. lia.
    + case_decide as Ha; [|by destruct Ha]. case_decide as Ha'; [cbn; lia|by destruct Ha'].
  - done.
Qed.

Lemma worker_inv_bound w c r : worker_inv w c r → 0 ≤ c ≤ 2 ^ 53.
Proof. pose proof rounds_bound. destruct 1; unfold batch_len in *; nia. Qed.

Lemma counter_bound ws crs :
  Forall2 (λ w cr, worker_inv w cr.1 cr.2) ws crs → (length ws ≤ num_workers)%nat →
  0 ≤ sumZ crs.*1 ≤ 32 * 2 ^ 53.
Proof.
  intros Hws Hn. assert (0 ≤ sumZ crs.*1 ≤ Z.of_nat (length ws) * 2 ^ 53).
  { clear Hn. induction Hws as [|w [c r] ws crs Hw _ IH]; [simpl; lia|].
    apply worker_inv_bound in Hw. rewrite fmap_cons. cbn [length sumZ foldr fst] in *.
    fold (sumZ crs.*1). rewrite Nat2Z.inj_succ. lia. }
  unfold num_workers in *. lia.
Qed.

(** The steps from a state to the end. *)
Definition sum_left (ws : list worker) (crs : list (Z * Z)) : Z :=
  sumZ (zip_with (λ w cr, steps_left w cr.1) ws crs).

Definition psteps (s : pstate) (crs : list (Z * Z)) : Z :=
  (match p_main s with MSpawning => 1 | MWaited => 0 end) +
  (Z.of_nat num_workers - Z.of_nat (length (p_workers s))) * (3 * rounds + 2) +
  sum_left (p_workers s) crs.

Lemma sum_left_nonneg ws crs :
  Forall2 (λ w cr, worker_inv w cr.1 cr.2) ws crs → 0 ≤ sum_left ws crs.
Proof.
  induction 1 as [|w [c r] ws crs Hw _ IH]; [done|]. unfold sum_left in *.
  cbn [zip_with sumZ foldr fst] in *. fold (sumZ (zip_with (λ w cr, steps_left w cr.1) ws crs)).
  apply steps_left_nonneg in Hw. lia.
Qed.

Lemma sum_left_done ws crs :
  Forall2 (λ w cr, worker_inv w cr.1 cr.2) ws crs → filter active ws = [] → sum_left ws crs = 0.
Proof.
  induction 1 as [|w [c r] ws crs Hw _ IH]; [done|]. rewrite filter_cons.
  case_decide as Ha; [done|]. intros Hf. specialize (IH Hf). unfold sum_left in *.
  cbn [zip_with sumZ foldr fst] in *. fold (sumZ (zip_with (λ w cr, steps_left w cr.1) ws crs)).
  rewrite IH. cbn [fst snd] in Hw. inversion Hw; subst; try by destruct Ha. done.
Qed.

Lemma sum_left_insert ws crs i w c r w' c' r' :
  ws !! i = Some w → crs !! i = Some (c, r) →
  sum_left (<[i:=w']> ws) (<[i:=(c', r')]> crs) = sum_left ws crs - steps_left w c + steps_left w' c'.
Proof.
  intros Hw Hc. unfold sum_left. rewrite <-insert_zip_with.
  rewrite (sumZ_insert _ _ (steps_left w c)); [done|]. by rewrite lookup_zip_with, Hw; simpl; rewrite Hc.
Qed.

Lemma pinv_init : pinv pinit [].
Proof. split; simpl; [constructor|done|done|done|lia|done]. Qed.

Lemma pinv_step s s' crs : pinv s crs → pstep s s' → ∃ crs', pinv s' crs' ∧ psteps s' crs' = psteps s crs - 1.
Proof.
  intros [Hws Hc Hr Hg Hn Hm] Hstep.
  destruct Hstep as [ws sh Hlt|m ws sh i w w' sh' Hw Hnext|ws sh Hlen Hzero]; simpl in *.
  - exists (crs ++ [(0, 0)]). pose proof rounds_bound. split; [split; simpl|].
    + apply Forall2_app; [done|]. constructor; [|constructor].
      apply (inv_loop 0). lia.
    + rewrite fmap_app, sumZ_app. simpl. lia.
    + rewrite fmap_app, sumZ_app. simpl. lia.
    + rewrite filter_app. unfold blen in *. rewrite length_app.
      replace (length (filter active [Worker (f64_of_Z 0) PLoop])) with 1%nat by done. lia.
    + rewrite length_app. simpl. lia.
    + done.
    + unfold psteps, sum_left. cbn [p_main p_workers].
      rewrite zip_with_app by by eapply Forall2_length. rewrite sumZ_app, length_app.
      cbn [zip_with sumZ foldr length fst]. unfold steps_left at 2. cbn [w_phase].
      rewrite Z.div_0_l by done. lia.
  - eapply Forall2_lookup_l in Hws as Hcr; [|done]. destruct Hcr as ([c r] & Hcr & Hinv).
    cbn [fst snd] in Hinv.
    pose proof (counter_bound _ _ Hws Hn) as Hb. rewrite <-Hc in Hb.
    destruct (worker_step _ _ _ _ _ _ Hinv Hb Hnext) as (c' & r' & Hinv' & Hle & Ec & Er & Eg).
    assert (Forall2 (λ w cr, worker_inv w cr.1 cr.2) (<[i:=w']> ws) (<[i:=(c', r')]> crs)) as Hws'
      by (by apply Forall2_insert).
    assert (sumZ (<[i:=(c', r')]> crs).*1 = sh_counter sh - c + c') as Es.
    { rewrite list_fmap_insert. rewrite (sumZ_insert _ _ c); [simpl; lia|].
      rewrite list_lookup_fmap, Hcr. done. }
    pose proof (counter_bound _ _ Hws' ltac:(by rewrite length_insert)) as Hb'.
    exists (<[i:=(c', r')]> crs). split; [split; simpl|].
    + done.
    + rewrite Ec, <-Es. unfold wrap_s. unfold num_workers in Hb'. rewrite Z.mod_small; lia.
    + rewrite list_fmap_insert. rewrite (sumZ_insert _ _ r); [simpl in *; lia|].
      by rewrite list_lookup_fmap, Hcr.
    + rewrite (filter_active_insert _ _ w) by done. lia.
    + by rewrite length_insert.
    + intros Ew. destruct (Hm Ew) as [? Hnil]. exfalso.
      assert (w ∈ filter active ws) as Hin.
      { apply list_elem_of_filter. split; [|by eapply list_elem_of_lookup_2].
        unfold worker_next, active in *. intros E. by rewrite E in Hnext. }
      rewrite Hnil in Hin. by apply elem_of_nil in Hin.
    + unfold psteps. cbn [p_main p_workers]. rewrite length_insert.
      rewrite (sum_left_insert _ _ _ w c r) by done. lia.
  - exists crs. split; [split; simpl; try done|unfold psteps; cbn; lia]. intros _. split; [done|].
    rewrite Hg in Hzero. by apply blen_0 in Hzero.
Qed.

Lemma pinv_nsteps n s : nsteps pstep n pinit s →
  ∃ crs, pinv s crs ∧ psteps s crs = 32 * (3 * rounds + 2) + 1 - Z.of_nat n.
Proof.
  intros Hn. remember pinit as s0 eqn:E0.
  assert (∃ crs, pinv s0 crs ∧ psteps s0 crs = 32 * (3 * rounds + 2) + 1) as (crs & Hi & Hs).
  { exists []. subst. split; [apply pinv_init|]. unfold psteps, sum_left, num_workers. cbn. lia. }
  clear E0. revert crs Hi Hs. generalize (32 * (3 * rounds + 2) + 1).
  induction Hn as [s|n s1 s2 s3 Hst _ IH]; intros z crs Hi Hs.
  - exists crs. split; [done|]. simpl. lia.
  - destruct (pinv_step _ _ _ Hi Hst) as (crs' & Hi' & Hs').
    destruct (IH (z - 1) crs' Hi') as (crs3 & Hi3 & Hs3); [lia|]. exists crs3. split; [done|]. lia.
Qed.

(** A state whose main goroutine has not finished waiting can step. *)
Lemma pinv_progress s crs : pinv s crs → p_main s = MSpawning → ∃ s', pstep s s'.
Proof.
  intros Hi Hm. destruct s as [m ws sh]. simpl in Hm. subst m.
  destruct (decide (length ws = num_workers)) as [Hlen|Hlen].
  - destruct (filter active ws) as [|w l] eqn:Ef.
    + eexists. apply step_wait; [done|]. pose proof (pi_wg _ _ Hi) as Hg. simpl in Hg.
      rewrite Ef in Hg. done.
    + assert (w ∈ filter active ws) as Hin by (rewrite Ef; left).
      apply list_elem_of_filter in Hin as [Ha Hin]. apply list_elem_of_lookup in Hin as [i Hw].
      destruct (worker_next w sh) as [[w' sh']|] eqn:En; [eexists; by eapply step_worker|].
      exfalso. apply Ha. unfold worker_next in En. destruct (w_phase w); try done.
      by destruct (f64_ltb (w_written w) goal).
  - eexists. apply step_spawn. pose proof (pi_num _ _ Hi). simpl in *. lia.
Qed.

Lemma done_sums ws crs :
  Forall2 (λ w cr, worker_inv w cr.1 cr.2) ws crs → filter active ws = [] →
  sumZ crs.*1 = Z.of_nat (length ws) * (rounds * batch_len) ∧
  sumZ crs.*2 = Z.of_nat (length ws) * (rounds * batch_len).
Proof.
  induction 1 as [|w [c r] ws crs Hw _ IH]; [done|]. rewrite filter_cons.
  case_decide as Ha; [done|]. intros Hf. destruct (IH Hf) as [E1 E2].
  cbn [fst snd] in Hw. inversion Hw; subst; try by destruct Ha. rewrite !fmap_cons. cbn [length sumZ foldr fst snd].
  fold (sumZ crs.*1) (sumZ crs.*2). rewrite E1, E2. lia.
Qed.
End workers.

Section totals.
Context `{Arch}.

Lemma share_of_Z n : 0 ≤ n < 2 ^ 53 → share (f64_of_Z n) = Fin (n * 2 ^ 1069).
Proof. intros Hn. unfold share. change 32 with (2 ^ 5). by rewrite f64_div_pow2 by lia. Qed.

Lemma share_of_Z_bound n : 0 ≤ n < 2 ^ 53 → n * 2 ^ 1069 ≤ (2 ^ 53 - batch_len) * one.
Proof.
  intros Hn. unfold one, batch_len. change 1074 with (5 + 1069). rewrite (Z.pow_add_r 2 5 1069) by lia.
  assert (0 < 2 ^ 1069) by by apply Z.pow_pos_nonneg. nia.
Qed.

Lemma rounds_of_Z n : 0 ≤ n < 2 ^ 53 → rounds (share (f64_of_Z n)) = (n + 31999) / 32000.
Proof.
  intros Hn. unfold rounds. rewrite share_of_Z by done. unfold one, batch_len.
  change 1074 with (5 + 1069). rewrite (Z.pow_add_r 2 5 1069) by lia.
  rewrite Z.mul_assoc. change (1000 * 2 ^ 5) with 32000. rewrite <-Z.mul_opp_l.
  rewrite Z.div_mul_cancel_r by (try apply Z.pow_nonzero; lia).
  pose proof (Z.div_mod (- n) 32000). pose proof (Z.mod_pos_bound (- n) 32000).
  pose proof (Z.div_mod (n + 31999) 32000). pose proof (Z.mod_pos_bound (n + 31999) 32000). lia.
Qed.

(** C20: when [main] has waited for its workers, whatever the interleaving, the
    counter it prints is the number of keys written: the least multiple of 32 batches
    of 1000 keys that is not below the number asked for. *)
Theorem populate_total n s :
  0 ≤ n < 2 ^ 53 → rtc (pstep (share (f64_of_Z n))) pinit s → p_main s = MWaited →
  sh_counter (p_shared s) = 32000 * ((n + 31999) / 32000) ∧
  sh_rate (p_shared s) = sh_counter (p_shared s) ∧
  n ≤ sh_counter (p_shared s) < n + 32000.
Proof.
  intros Hn [k Hk]%rtc_nsteps Hm.
  destruct (pinv_nsteps _ _ (share_of_Z n Hn) (share_of_Z_bound n Hn) k s Hk)
    as (crs & [Hws Hc Hr _ _ Hmain] & _).
  destruct (Hmain Hm) as [Hlen Hf]. apply done_sums in Hws as [E1 E2]; [|done].
  rewrite Hlen in E1, E2. rewrite Hc, Hr, E1, E2, rounds_of_Z by done.
  unfold num_workers, batch_len. pose proof (Z.div_mod (n + 31999) 32000).
  pose proof (Z.mod_pos_bound (n + 31999) 32000). lia.
Qed.

(** Populate ends: every execution, in whatever order its goroutines run, can be
    continued until [main] has waited for the workers, and has then made the same
    number of steps: none runs forever and none gets stuck. *)
Theorem populate_terminates n k s :
  0 ≤ n < 2 ^ 53 → nsteps (pstep (share (f64_of_Z n))) k pinit s →
  let total := 32 * (3 * ((n + 31999) / 32000) + 2) + 1 in
  Z.of_nat k ≤ total ∧
  (p_main s = MWaited → Z.of_nat k = total) ∧
  (p_main s = MSpawning → ∃ s', pstep (share (f64_of_Z n)) s s').
Proof.
  intros Hn Hk. destruct (pinv_nsteps _ _ (share_of_Z n Hn) (share_of_Z_bound n Hn) k s Hk)
    as (crs & Hi & Hs). rewrite rounds_of_Z in Hs by done. pose proof Hi as [Hws _ _ _ Hnum Hmain].
  pose proof (sum_left_nonneg _ _ _ Hws) as Hleft. cbn zeta. split_and!.
  - unfold psteps in Hs. rewrite rounds_of_Z in Hs by done.
    pose proof (Z.div_pos (n + 31999) 32000). destruct (p_main s); nia.
  - intros Hm. destruct (Hmain Hm) as [Hlen Hf]. unfold psteps in Hs. rewrite Hm, Hlen in Hs.
    rewrite (sum_left_done _ _ _ Hws Hf) in Hs. lia.
  - intros Hm. by eapply pinv_progress.
Qed.
End totals.

(** ** A concrete execution *)

Section run.
Context `{Arch}.
Context (goal : float64).

(** A scheduler: start the workers, then run the first that has not ended. *)
Definition pnext (s : pstate) : option pstate :=
  match s with
  | PState MSpawning ws sh =>
      if (length ws <? num_workers)%nat
      then Some (PState MSpawning (ws ++ [Worker (f64_of_Z 0) PLoop])
                   (Shared (sh_counter sh) (sh_rate sh) (sh_wg sh + 1)))
      else
        match list_find active ws with
        | Some (i, w) =>
            '(w', sh') ← worker_next goal w sh; Some (PState MSpawning (<[i := w']> ws) sh')
        | None => if decide (length ws = num_workers ∧ sh_wg sh = 0)
                  then Some (PState MWaited ws sh) else None
        end
  | PState MWaited _ _ => None
  end.

Fixpoint prun (k : nat) (s : pstate) : option pstate :=
  match k with
  | O => Some s
  | S k => s' ← pnext s; prun k s'
  end.

Lemma pnext_step s s' : pnext s = Some s' → pstep goal s s'.
Proof.
  destruct s as [[] ws sh]; [|done]. simpl. destruct (Nat.ltb_spec (length ws) num_workers).
  - intros [= <-]. by apply step_spawn.
  - destruct (list_find active ws) as [[i w]|] eqn:Ef.
    + apply list_find_Some in Ef as (Hw & _ & _). intros E.
      apply bind_Some in E as ([w' sh'] & En & [= <-]). by eapply step_worker.
    + case_decide as Hd; [|done]. destruct Hd. intros [= <-]. by apply step_wait.
Qed.

Lemma prun_nsteps k s s' : prun k s = Some s' → nsteps (pstep goal) k s s'.
Proof.
  revert s. induction k as [|k IH]; intros s; simpl.
  - intros [= <-]. constructor.
  - intros E. apply bind_Some in E as (s1 & E1 & E2). econstructor; [by apply pnext_step|by apply IH].
Qed.
End run.

#[local] Existing Instance amd64.

(** One key is asked for: every worker writes one batch. *)
Definition demo_final : option pstate := Eval vm_compute in prun (share (f64_of_Z 1)) 161 pinit.

Lemma demo_run : prun (share (f64_of_Z 1)) 161 pinit = demo_final.
Proof. vm_compute. reflexivity. Qed.

Lemma populate_total_witness :
  ∃ s, rtc (pstep (share (f64_of_Z 1))) pinit s ∧ sh_counter (p_shared s) = 32000.
Proof.
  destruct demo_final as [s|] eqn:E; [|done]. exists s.
  assert (rtc (pstep (share (f64_of_Z 1))) pinit s) as Hr.
  { apply rtc_nsteps. exists 161%nat. apply prun_nsteps. by rewrite demo_run, E. }
  split; [exact Hr|]. apply (populate_total 1 s); [lia|exact Hr|].
  unfold demo_final in E. by injection E as <-.
Defined.

Lemma populate_terminates_witness :
  161 ≤ 32 * (3 * ((1 + 31999) / 32000) + 2) + 1.
Proof.
  destruct demo_final as [s|] eqn:E; [|done].
  apply (populate_terminates 1 161 s); [lia|].
  apply prun_nsteps. by rewrite demo_run, E.
Defined.
