(* ===== verification/PopulateRun.v ===== *)
(** * The program populate: its goroutines on the shared memory

    [Workers.v] has the loops of the workers with a batch as one number, and
    [Populate.v] has [writeBatch] as a function.  Here the two are one system: the
    workers run their batches, piece by piece and in any interleaving, on one memory
    and one rocks store, as [main] runs them with [-kv rocksdb].

    The pieces of a batch are the calls [writeBatch] makes: [fillEntry] on an entry,
    [NewWriteBatch], [Put] of an entry, [Store.WriteBatch], and the deferred
    [Destroy].  A piece is one step: each touches memory of its own goroutine only,
    but for the allocators and for [Store.WriteBatch], which the engine makes atomic.
    [batch_steps_writeBatch] shows that the pieces, run in a row, are [writeBatch]. *)

From S2P Require Import Prelude Rocks MemRocks Memory Files Rdbc Rdb Strconv Store Float64 Populate PopulateMain PopulateSpec Workers.
From stdpp Require Import relations.
#[local] Open Scope Z_scope.

(** ** One batch *)

(** Before the next piece: the draws of the entries filled so far; the write batch,
    and the number of entries in it. *)
Variant bphase :=
| BFill (rs : list draw)
| BPut (rb : ptr) (rs : list draw) (i : nat)
| BWrite (rb : ptr) (rs : list draw)
| BDestroy (rb : ptr) (rs : list draw).

Section batch.
Context `{RocksDB, Libc, Arch}.
Context (fl : flags) (s : ptr).

(** The next piece of a batch of [es]; [inr] is the result of [writeBatch]. *)
Definition batch_next (es : list ptr) (r : draw) (b : bphase) : M st (bphase + Z) :=
  match b with
  | BFill rs =>
      match es !! length rs with
      | Some e => fillEntry fl e r;; mret (inl (BFill (rs ++ [r])))
      | None => rb ← Store_NewWriteBatch s; mret (inl (BPut rb rs 0))
      end
  | BPut rb rs i =>
      match es !! i with
      | Some e =>
          x ← go_load as_entry e;
          WriteBatch_Put rb (e_Key x) (e_Value x);;
          mret (inl (BPut rb rs (S i)))
      | None => mret (inl (BWrite rb rs))
      end
  | BWrite rb rs =>
      err ← Store_WriteBatch s rb;
      check_error "y.Check" err;;
      mret (inl (BDestroy rb rs))
  | BDestroy rb rs => WriteBatch_Destroy rb;; mret (inr (blen es))
  end.

#[local] Ltac steps :=
  repeat progress (cbn [batch_next for_each]; unfold mbind, M_bind, mret, M_ret).

(** The pieces in a row, the [i]-th entry being filled with the draw [d i]. *)
Fixpoint batch_run (es : list ptr) (d : nat → draw) (fuel : nat) (b : bphase) : M st Z :=
  match fuel with
  | O => raise OutOfFuel
  | S fuel =>
      x ← batch_next es (match b with BFill rs => d (length rs) | _ => d O end) b;
      match x with
      | inl b => batch_run es d fuel b
      | inr n => mret n
      end
  end.

Lemma batch_run_put es d rb rs rest i σ :
  drop i es = rest →
  batch_run es d (length rest + 3) (BPut rb rs i) σ =
    (put_entries (WriteBatch_Put rb) rest;;
     err ← Store_WriteBatch s rb;
     check_error "y.Check" err;;
     WriteBatch_Destroy rb;; mret (blen es)) σ.
Proof.
  revert i σ. induction rest as [|e rest IH]; intros i σ Hd.
  - cbn [length Nat.add batch_run batch_next]. assert (es !! i = None) as -> by (by apply drop_nil_lookup).
    unfold put_entries. steps.
    destruct (Store_WriteBatch s rb σ) as [err σ1|]; [|done].
    destruct (check_error "y.Check" err σ1) as [[] σ2|]; [|done].
    steps. by destruct (WriteBatch_Destroy rb σ2).
  - assert (es !! i = Some e ∧ drop (S i) es = rest) as [He Hr] by (by apply drop_cons_inv).
    cbn [length Nat.add batch_run batch_next]. rewrite He. unfold put_entries in *. cbn [for_each].
    steps. destruct (go_load as_entry e σ) as [x σ1|]; [|done]. steps.
    destruct (WriteBatch_Put rb (e_Key x) (e_Value x) σ1) as [[] σ2|]; [|done].
    rewrite (IH (S i) σ2 Hr). by steps.
Qed.

Lemma batch_run_fill es d rest i σ :
  drop i es = rest →
  batch_run es d (length rest + (length es + 4)) (BFill (d <$> seq 0 i)) σ =
    (for_each (λ '(e, r), fillEntry fl e r) (zip rest (d <$> seq i (length rest)));;
     rb ← Store_NewWriteBatch s;
     batch_run es d (length es + 3) (BPut rb (d <$> seq 0 (i + length rest)) 0)) σ.
Proof.
  revert i σ. induction rest as [|e rest IH]; intros i σ Hd.
  - replace (length [] + (length es + 4))%nat with (S (length es + 3)) by (simpl; lia).
    cbn [batch_run batch_next]. rewrite length_fmap, length_seq.
    assert (es !! i = None) as -> by (by apply drop_nil_lookup).
    cbn [length seq fmap list_fmap zip zip_with for_each]. rewrite Nat.add_0_r.
    unfold mbind, M_bind, mret, M_ret. by destruct (Store_NewWriteBatch s σ).
  - assert (es !! i = Some e ∧ drop (S i) es = rest) as [He Hr] by (by apply drop_cons_inv).
    cbn [length Nat.add batch_run batch_next]. rewrite length_fmap, length_seq, He.
    cbn [seq fmap list_fmap zip zip_with for_each].
    unfold mbind, M_bind, mret, M_ret in *. destruct (fillEntry fl e (d i) σ) as [[] σ1|]; [|done].
    assert ((d <$> seq 0 i) ++ [d i] = d <$> seq 0 (S i)) as -> by (by rewrite seq_S, fmap_app).
    rewrite (IH (S i) σ1 Hr). by rewrite Nat.add_succ_comm.
Qed.
End batch.

(** C15: the pieces of a batch, run one after the other, are one call of [writeBatch] with
    the same draws, on every memory: the same result and memory, or the same fault. *)
Theorem batch_steps_writeBatch `{RocksDB, Libc, Arch, !Stores} fl dbi s es d σ :
  batch_run fl (PG s) es d (2 * length es + 4) (BFill []) σ =
    writeBatch fl (only_rocks dbi (PG s)) es (d <$> seq 0 (length es)) σ.
Proof.
  change (BFill []) with (BFill (d <$> seq 0 0)).
  replace (2 * length es + 4)%nat with (length es + (length es + 4))%nat by lia.
  rewrite batch_run_fill by done. unfold writeBatch. cbn [bdb ldb rdb boltdb lmdbEnv only_rocks when_some].
  rewrite decide_False by done. unfold write_rocks, mbind, M_bind, mret, M_ret.
  destruct (for_each _ _ σ) as [[] σ1|]; [|done].
  destruct (Store_NewWriteBatch (PG s) σ1) as [rb σ2|]; [|done].
  rewrite batch_run_put by done. unfold mbind, M_bind, mret, M_ret.
  destruct (put_entries _ es σ2) as [[] σ3|]; [|done].
  destruct (Store_WriteBatch (PG s) rb σ3) as [err σ4|]; [|done].
  destruct (check_error _ err σ4) as [[] σ5|]; [|done].
  by rewrite decide_False by done.
Qed.


(** ** The goroutines *)

(** A worker before [make([]*entry, 1000)]; in a batch; or where [Workers.v] has it. *)
Variant gphase :=
| GStart
| GLoop
| GBatch (b : bphase)
| GWrote (wrote : float64)
| GAdded (wrote : float64)
| GDone.

Record gworker := GWorker { g_written : float64; g_entries : list ptr; g_phase : gphase }.

(** What [Workers.v] has of a worker: a batch that has begun counts as the number it
    will return. *)
Definition phase_of (p : gphase) : phase :=
  match p with
  | GStart | GLoop => PLoop
  | GBatch _ => PWrote (f64_of_Z batch_len)
  | GWrote wrote => PWrote wrote
  | GAdded wrote => PAdded wrote
  | GDone => PDone
  end.

Definition worker_of (w : gworker) : worker := Worker (g_written w) (phase_of (g_phase w)).

(** The way back, for the steps that are those of [Workers.v]. *)
Definition gphase_of (p : phase) : gphase :=
  match p with
  | PLoop => GLoop
  | PWrote _ => GBatch (BFill [])
  | PAdded wrote => GAdded wrote
  | PDone => GDone
  end.

(** [main] starts workers, has waited for them, has closed the store. *)
Variant gmain := GSpawning | GWaited | GClosed.

#[export] Instance gmain_eq_decision : EqDecision gmain.
Proof. solve_decision. Defined.

Section state.
Context `{RocksDB}.

Record gstate := GState {
  gs_main : gmain;
  gs_workers : list gworker;
  gs_shared : shared;
  gs_mem : st;
  gs_log : list draw;             (* the draws of the batches written, in their order *)
  gs_crash : option fault;        (* the fault that ended the process *)
}.
End state.

(** What a step of a worker adds to the log: the batch it hands to the engine. *)
Definition committed (p : gphase) : list draw :=
  match p with GBatch (BWrite _ rs) => rs | _ => [] end.

Section system.
Context `{RocksDB, Libc, Arch, !OS, !Stores, !Openers}.
Context (fl : flags) (goal : float64) (dbi : lmdb_DBI) (s : ptr).

Definition gnext (r : draw) (w : gworker) (sh : shared) : M st (gworker * shared) :=
  match g_phase w with
  | GStart =>
      es ← new_entries (valueSize fl) (Z.to_nat batch_len);
      mret (GWorker (f64_of_Z 0) es GLoop, sh)
  | GBatch b =>
      x ← batch_next fl s (g_entries w) r b;
      mret (GWorker (g_written w) (g_entries w)
              match x with inl b => GBatch b | inr n => GWrote (f64_of_Z n) end, sh)
  | _ =>
      match worker_next goal (worker_of w) sh with
      | Some (w', sh') => mret (GWorker (w_written w') (g_entries w) (gphase_of (w_phase w')), sh')
      | None => mret (w, sh)
      end
  end.

Inductive gstep : gstate → gstate → Prop :=
| gstep_spawn ws sh σ log :
    (length ws < num_workers)%nat →
    gstep (GState GSpawning ws sh σ log None)
      (GState GSpawning (ws ++ [GWorker (f64_of_Z 0) [] GStart])
         (Shared (sh_counter sh) (sh_rate sh) (sh_wg sh + 1)) σ log None)
| gstep_worker m ws sh σ log i w r w' sh' σ' :
    ws !! i = Some w → g_phase w ≠ GDone → draw_ok r → gnext r w sh σ = Ret (w', sh') σ' →
    gstep (GState m ws sh σ log None)
      (GState m (<[i := w']> ws) sh' σ' (log ++ committed (g_phase w)) None)
| gstep_crash m ws sh σ log i w r e :
    ws !! i = Some w → g_phase w ≠ GDone → draw_ok r → gnext r w sh σ = Fault e →
    gstep (GState m ws sh σ log None) (GState m ws sh σ log (Some e))
| gstep_wait ws sh σ log :
    length ws = num_workers → sh_wg sh = 0 →
    gstep (GState GSpawning ws sh σ log None) (GState GWaited ws sh σ log None)
| gstep_close ws sh σ log u σ' :
    close_stores (only_rocks dbi s) σ = Ret u σ' →
    gstep (GState GWaited ws sh σ log None) (GState GClosed ws sh σ' log None)
| gstep_close_crash ws sh σ log e :
    close_stores (only_rocks dbi s) σ = Fault e →
    gstep (GState GWaited ws sh σ log None) (GState GWaited ws sh σ log (Some e)).

(** After [open_stores], on its memory. *)
Definition ginit (σ : st) : gstate := GState GSpawning [] (Shared 0 0 0) σ [] None.
End system.
