(* ===== verification/PopulateRunSpec.v ===== *)
(** * What a run of populate leaves in the store

    The invariant of the system of [PopulateRun.v]: every worker owns the memory of
    its entries and of its batch, the store holds the batches written so far, and
    the loops are in a reachable state of [Workers.v]. *)

From S2P Require Import Prelude Rocks MemRocks Memory Files Rdbc Rdb RdbSpec Strconv Store StoreSpec StoreOpen Float64 Populate PopulateMain PopulateSpec PopulateOpen Workers PopulateRun Scenario.
From stdpp Require Import relations.
#[local] Open Scope Z_scope.

(** ** What a worker owns *)

(** The cells of its entries; the Go object and the C struct of its batch. *)
Record foot := Foot { ft_cells : list ecell; ft_batch : option (loc * loc) }.

Definition go_locs (f : foot) : list loc :=
  (ft_cells f ≫= ec_locs) ++ from_option (λ b, [b.1]) [] (ft_batch f).
Definition c_locs (f : foot) : list loc := from_option (λ b, [b.2]) [] (ft_batch f).

Definition batch_size : nat := Z.to_nat batch_len.

Section owns.
Context `{RocksView, Libc, Arch}.
Context (fl : flags).

Definition bphase_ok (σ : st) (f : foot) (b : bphase) : Prop :=
  match b with
  | BFill rs =>
      ft_batch f = None ∧ (length rs ≤ batch_size)%nat ∧ Forall draw_ok rs ∧
      shows fl σ (take (length rs) (ft_cells f)) rs
  | BPut rb rs i =>
      length rs = batch_size ∧ Forall draw_ok rs ∧ shows fl σ (ft_cells f) rs ∧
      (i ≤ batch_size)%nat ∧
      ∃ lw c b, ft_batch f = Some (lw, c) ∧ rb = PG lw ∧ holds_batch lw c b σ ∧
        wb_updates b = draw_update fl <$> take i rs
  | BWrite rb rs =>
      length rs = batch_size ∧ Forall draw_ok rs ∧
      ∃ lw c b, ft_batch f = Some (lw, c) ∧ rb = PG lw ∧ holds_batch lw c b σ ∧
        wb_updates b = draw_update fl <$> rs
  | BDestroy rb rs =>
      ∃ lw c b, ft_batch f = Some (lw, c) ∧ rb = PG lw ∧ holds_batch lw c b σ
  end.

(** The entries a worker has made. *)
Record has_entries (σ : st) (w : gworker) (f : foot) : Prop := {
  he_ptrs : g_entries w = (λ c, PG (c_e c)) <$> ft_cells f;
  he_length : length (ft_cells f) = batch_size;
  he_at : Forall (entry_at (valueSize fl) σ) (ft_cells f);
}.

Definition gworker_ok (σ : st) (w : gworker) (f : foot) : Prop :=
  match g_phase w with
  | GStart => f = Foot [] None ∧ g_written w = f64_of_Z 0
  | GBatch b => has_entries σ w f ∧ bphase_ok σ f b
  | GWrote wrote => has_entries σ w f ∧ ft_batch f = None ∧ wrote = f64_of_Z batch_len
  | _ => has_entries σ w f ∧ ft_batch f = None
  end.

(** What is owned is live, and no part of the store. *)
Definition owned (σ : st) (f : foot) : Prop :=
  (∀ l, l ∈ go_locs f → ∃ o, gheap σ !! l = Some o ∧ store_obj o = false) ∧
  (∀ l, l ∈ c_locs f → ∃ o, cheap σ !! l = Some o ∧ store_cell o = false).

Lemma owned_intro σ f :
  Forall (entry_at (valueSize fl) σ) (ft_cells f) →
  match ft_batch f with Some (lw, c) => ∃ b, holds_batch lw c b σ | None => True end →
  owned σ f.
Proof.
  intros Hat Hb. split.
  - intros l [Hl|Hl]%elem_of_app.
    + apply list_elem_of_bind in Hl as (c & Hl & Hc). rewrite Forall_forall in Hat.
      destruct (Hat c Hc) as (n & a & v & meta & E1 & E2 & E3 & _). unfold ec_locs in Hl.
      repeat (apply elem_of_cons in Hl as [->|Hl]; [by eexists|]). by apply elem_of_nil in Hl.
    + destruct (ft_batch f) as [[lw c]|]; [|by apply elem_of_nil in Hl].
      apply list_elem_of_singleton in Hl as ->. destruct Hb as (b & ? & ?). by eexists.
  - unfold c_locs. intros l Hl. destruct (ft_batch f) as [[lw c]|]; [|by apply elem_of_nil in Hl].
    apply list_elem_of_singleton in Hl as ->. destruct Hb as (b & ? & ?). by eexists.
Qed.

Lemma gworker_ok_owned σ w f : gworker_ok σ w f → owned σ f.
Proof.
  unfold gworker_ok. destruct (g_phase w) as [| |b| | |]; intros [He Hb];
    try (apply owned_intro; [apply He|by rewrite ?(proj1 Hb), ?Hb]).
  - subst f. apply owned_intro; [constructor|done].
  - apply owned_intro; [apply He|].
    destruct b; cbn in Hb; repeat match goal with H : _ ∧ _ |- _ => destruct H | H : ∃ _, _ |- _ => destruct H end;
      repeat match goal with H : ft_batch f = _ |- _ => rewrite H; clear H end; eauto.
Qed.

(** A worker depends on what it owns only. *)
Lemma shows_keep σ σ' cs rs :
  (∀ l o, l ∈ cs ≫= ec_locs → gheap σ !! l = Some o → gheap σ' !! l = Some o) →
  Forall (entry_at (valueSize fl) σ) cs → shows fl σ cs rs → shows fl σ' cs rs.
Proof.
  intros Hg Hat Hsh. induction Hsh as [|c r cs rs Hc _ IH]; [constructor|].
  apply Forall_cons in Hat as [Hc' Hat]. cbn [mbind list_bind] in Hg.
  constructor; [|apply IH; [|done]].
  - eapply entry_shows_keep; [|done|done]. intros l o Hl. apply Hg, elem_of_app. by left.
  - intros l o Hl. apply Hg, elem_of_app. by right.
Qed.

Lemma cells_keep σ σ' cs :
  (∀ l o, l ∈ cs ≫= ec_locs → gheap σ !! l = Some o → gheap σ' !! l = Some o) →
  Forall (entry_at (valueSize fl) σ) cs → Forall (entry_at (valueSize fl) σ') cs.
Proof.
  intros Hg Hat. apply Forall_forall. intros c Hc. rewrite Forall_forall in Hat.
  eapply entry_at_keep; [|by apply Hat]. intros l o Hl. apply Hg, list_elem_of_bind. by exists c.
Qed.

Lemma gworker_ok_keep σ σ' w f :
  (∀ l o, l ∈ go_locs f → gheap σ !! l = Some o → gheap σ' !! l = Some o) →
  (∀ l o, l ∈ c_locs f → cheap σ !! l = Some o → cheap σ' !! l = Some o) →
  gworker_ok σ w f → gworker_ok σ' w f.
Proof.
  intros Hg Hc. assert (∀ l o, l ∈ ft_cells f ≫= ec_locs → gheap σ !! l = Some o →
    gheap σ' !! l = Some o) as Hg1 by (intros l o Hl; apply Hg, elem_of_app; by left).
  assert (∀ lw c b, ft_batch f = Some (lw, c) → holds_batch lw c b σ → holds_batch lw c b σ') as Hb.
  { intros lw c b E [Hlw Hlc]. split; [apply Hg|apply Hc]; try done;
      unfold go_locs, c_locs; rewrite E; simpl; set_solver. }
  assert (has_entries σ w f → has_entries σ' w f) as He.
  { intros [Hp Hl Hat]. split; [done..|]. by eapply cells_keep. }
  unfold gworker_ok. destruct (g_phase w) as [| |b| | |]; intros [Hen Hph]; try by split; auto.
  split; [by apply He|]. destruct Hen as [_ Hlen Hat]. destruct b as [rs|rb rs i|rb rs|rb rs]; cbn in *.
  - destruct Hph as (? & ? & ? & Hsh). split_and!; try done.
    eapply shows_keep; [|by apply Forall_take|done].
    intros l o Hl. apply Hg1. apply list_elem_of_bind in Hl as (c & Hl & Hin).
    apply list_elem_of_bind. exists c. split; [done|]. apply (subseteq_take (length rs) _ c Hin).
  - destruct Hph as (? & ? & Hsh & ? & lw & c & b & ? & ? & ? & ?). split_and!; try done.
    + by eapply shows_keep.
    + exists lw, c, b. eauto.
  - destruct Hph as (? & ? & lw & c & b & ? & ? & ? & ?). split_and!; try done.
    exists lw, c, b. eauto.
  - destruct Hph as (lw & c & b & ? & ? & ?). exists lw, c, b. eauto.
Qed.
End owns.

(** ** A step of a worker *)

Section local.
Context `{RocksLaws, Libc, Arch}.
Context (fl : flags) (s : ptr) (h : handle) (dir : bytes).
Context (Hks : key_space fl ≠ 0) (Hvs : 0 ≤ valueSize fl < 2 ^ 63).

(** What a step of the owner of [f] leaves alone, and what it owns afterwards. *)
Record takes (f f' : foot) (σ σ' : st) : Prop := {
  tk_go : ∀ l o, l ∉ go_locs f → gheap σ !! l = Some o → gheap σ' !! l = Some o;
  tk_c : ∀ l o, l ∉ c_locs f → cheap σ !! l = Some o → cheap σ' !! l = Some o;
  tk_go' : ∀ l, l ∈ go_locs f' → l ∈ go_locs f ∨ gheap σ !! l = None;
  tk_c' : ∀ l, l ∈ c_locs f' → l ∈ c_locs f ∨ cheap σ !! l = None;
  tk_nodup : NoDup (go_locs f');
  tk_size : (size (cheap σ') + length (c_locs f) = size (cheap σ) + length (c_locs f'))%nat;
}.

Lemma takes_refl f σ : NoDup (go_locs f) → takes f f σ σ.
Proof. split; auto. Qed.

(** The store, open in [dir], after the updates [us]. *)
Definition filled (us : list draw) (σ : st) : Prop :=
  store_rep σ s h [] (KV (apply_updates (draw_update fl <$> us) ∅) None []) ∧
  closable (world σ) h dir.

Lemma filled_keep us f σ σ' :
  filled us σ → owned σ f →
  (∀ l o, l ∉ go_locs f → gheap σ !! l = Some o → gheap σ' !! l = Some o) →
  (∀ l o, l ∉ c_locs f → cheap σ !! l = Some o → cheap σ' !! l = Some o) →
  world σ' = world σ → filled us σ'.
Proof.
  intros [Hr Hcl] [Hog Hoc] Hg Hc Hw. split; [|by rewrite Hw].
  eapply store_rep_keep; [exact Hr| | |rewrite Hw; apply stable_refl].
  - intros l o Hl Ho. apply Hc; [|done]. intros (o' & ? & ?)%Hoc. congruence.
  - intros l o Hl Ho. apply Hg; [|done]. intros (o' & ? & ?)%Hog. congruence.
Qed.

Lemma cells_nodup f : NoDup (go_locs f) → separated (ft_cells f).
Proof. unfold go_locs. by intros [? _]%NoDup_app. Qed.

(** *** [fillEntry] *)

Lemma wp_fill_step σ w f rs r e (Q : unit → st → Prop) :
  has_entries fl σ w f → bphase_ok fl σ f (BFill rs) → NoDup (go_locs f) → draw_ok r →
  g_entries w !! length rs = Some e →
  (∀ f' σ', has_entries fl σ' w f' → bphase_ok fl σ' f' (BFill (rs ++ [r])) →
     takes f f' σ σ' → world σ' = world σ → Q tt σ') →
  wp (fillEntry fl e r) σ Q.
Proof.
  intros [Hp Hl Hat] (Hb & Hrs & Hdr & Hsh) Hnd Hr He HQ. rewrite Hp in He.
  apply list_lookup_fmap_Some in He as (c & -> & Hc).
  pose proof (cells_nodup f Hnd) as Hsep. unfold separated in Hsep.
  pose proof (lookup_lt_Some _ _ _ Hc) as Hlt.
  assert (entry_at (valueSize fl) σ c) as Hatc by (by eapply Forall_lookup_1).
  assert (NoDup (ec_locs c)) as Hndc.
  { rewrite (bind_split _ _ _ _ Hc) in Hsep. apply NoDup_app in Hsep as (_ & _ & Hsep).
    by apply NoDup_app in Hsep as (? & _ & _). }
  eapply wp_fillEntry; [done..|]. intros lk σ' Hlk Hf Hat' Hsh'.
  set (c' := EC (c_e c) lk (c_v c)) in *. set (cs' := <[length rs := c']> (ft_cells f)).
  assert (∀ l, l ∈ ec_locs c' → l ∈ ec_locs c ∨ gheap σ !! l = None) as Hl'.
  { unfold ec_locs; cbn. destruct Hlk; intros l; set_solver. }
  assert (∀ l, l ∈ ft_cells f ≫= ec_locs → gheap σ !! l ≠ None) as Hlive.
  { intros l (c2 & Hl2 & Hc2)%list_elem_of_bind. rewrite Forall_forall in Hat.
    eapply entry_at_live; [by apply Hat|done]. }
  assert (NoDup (cs' ≫= ec_locs)) as Hsep'.
  { eapply NoDup_bind_insert; [done|done|by eapply (regrown_NoDup _ σ)|].
    intros l [Hin|Hn]%Hl'; [by left|right]. intros Hin. by apply (Hlive l Hin). }
  assert (∀ l, l ∈ cs' ≫= ec_locs → l ∈ ft_cells f ≫= ec_locs ∨ gheap σ !! l = None) as Hcs'.
  { intros l (c2 & Hl2 & [i Hc2]%list_elem_of_lookup)%list_elem_of_bind.
    apply list_lookup_insert_Some in Hc2 as [(<- & <- & _)|[_ Hc2]].
    - destruct (Hl' l Hl2); [left|by right]. apply list_elem_of_bind. exists c.
      split; [done|by eapply list_elem_of_lookup_2].
    - left. apply list_elem_of_bind. exists c2. split; [done|by eapply list_elem_of_lookup_2]. }
  assert (∀ i c2, i ≠ length rs → ft_cells f !! i = Some c2 → ∀ l, l ∈ ec_locs c2 → l ∉ ec_locs c) as Hap.
  { intros i c2 Hi Hc2 l Hl2. exact (NoDup_bind_apart ec_locs _ i (length rs) c2 c l Hsep Hc2 Hc Hi Hl2). }
  apply (HQ (Foot cs' None)).
  - split; cbn [ft_cells].
    + unfold cs'. rewrite list_fmap_insert, list_insert_id; [done|].
      change (PG (c_e c')) with ((λ c, PG (c_e c)) c). by rewrite list_lookup_fmap, Hc.
    + unfold cs'. by rewrite length_insert.
    + apply Forall_lookup. intros i c2 Hc2.
      apply list_lookup_insert_Some in Hc2 as [(<- & <- & _)|[Hi Hc2]]; [done|].
      eapply entry_at_frame; [apply Hf|by eapply Hap|by eapply Forall_lookup_1].
  - cbn [bphase_ok ft_batch ft_cells]. rewrite length_app, Nat.add_1_r. split_and!; [done|lia| |].
    + apply Forall_app. by split; [|constructor].
    + unfold shows, cs'. erewrite take_S_r by (apply list_lookup_insert_eq; lia).
      rewrite take_insert_ge by lia. apply Forall2_app; [|by constructor].
      apply Forall2_same_length_lookup_2; [by eapply Forall2_length|].
      intros i c2 r2 Hc2 Hr2. apply lookup_take_Some in Hc2 as [Hc2 Hi].
      eapply entry_shows_frame; [apply Hf|eapply (Hap i); [lia|done]|by eapply Forall_lookup_1|].
      eapply (Forall2_lookup_lr _ _ _ _ _ _ Hsh); [|exact Hr2]. by rewrite lookup_take_lt.
  - destruct Hf as [(Ec & _ & _) [_ Hg]]. split.
    + intros l o Hl2 Ho. apply Hg; [|done]. intros Hin. apply Hl2, elem_of_app. left.
      apply list_elem_of_bind. exists c. split; [done|by eapply list_elem_of_lookup_2].
    + intros l o _. by rewrite Ec.
    + unfold go_locs. cbn [ft_cells ft_batch from_option]. rewrite app_nil_r, Hb. cbn.
      rewrite app_nil_r. apply Hcs'.
    + intros l Hl2. by apply elem_of_nil in Hl2.
    + unfold go_locs. cbn. by rewrite app_nil_r.
    + unfold c_locs. cbn [ft_batch]. by rewrite Hb, Ec.
  - by destruct Hf as [(_ & ? & _) _].
Qed.

(** *** The batch *)

(** A step that changes the batch only: the Go object [lw] and the C struct [c]. *)
Lemma takes_batch f ob ob' σ σ' :
  ft_batch f = ob → NoDup (go_locs (Foot (ft_cells f) ob')) →
  (∀ l o, gheap σ !! l = Some o → (∀ c, ob ≠ Some (l, c)) → gheap σ' !! l = Some o) →
  (∀ l o, cheap σ !! l = Some o → (∀ lw, ob ≠ Some (lw, l)) → cheap σ' !! l = Some o) →
  match ob' with
  | Some (lw, c) => ob = Some (lw, c) ∨ (gheap σ !! lw = None ∧ cheap σ !! c = None)
  | None => True
  end →
  (size (cheap σ') + length (c_locs f) =
     size (cheap σ) + length (c_locs (Foot (ft_cells f) ob')))%nat →
  takes f (Foot (ft_cells f) ob') σ σ'.
Proof.
  intros Hob Hnd Hg Hc Hnew Hsz. split; [| | | |done|done].
  - intros l o Hl Ho. apply Hg; [done|]. intros c ->. apply Hl, elem_of_app. right.
    rewrite Hob. simpl. set_solver.
  - intros l o Hl Ho. apply Hc; [done|]. intros lw ->. apply Hl. unfold c_locs. rewrite Hob.
    simpl. set_solver.
  - unfold go_locs. cbn [ft_cells ft_batch]. intros l [Hl|Hl]%elem_of_app; [left; set_solver|].
    destruct ob' as [[lw c]|]; [|by apply elem_of_nil in Hl].
    apply list_elem_of_singleton in Hl as ->. destruct Hnew as [->|[? _]]; [left|by right].
    rewrite Hob. simpl. set_solver.
  - unfold c_locs. cbn [ft_cells ft_batch]. intros l Hl.
    destruct ob' as [[lw c]|]; [|by apply elem_of_nil in Hl].
    apply list_elem_of_singleton in Hl as ->. destruct Hnew as [->|[_ ?]]; [left|by right].
    rewrite Hob. simpl. set_solver.
Qed.

(** The entries stay where they are. *)
Lemma entries_takes σ σ' w f ob' :
  has_entries fl σ w f → NoDup (go_locs f) →
  (∀ l o, gheap σ !! l = Some o → (∀ lw c, ft_batch f = Some (lw, c) → l ≠ lw) →
     gheap σ' !! l = Some o) →
  has_entries fl σ' w (Foot (ft_cells f) ob') ∧
  ∀ rs, shows fl σ (ft_cells f) rs → shows fl σ' (ft_cells f) rs.
Proof.
  intros [Hp Hl Hat] Hnd Hg.
  assert (∀ l o, l ∈ ft_cells f ≫= ec_locs → gheap σ !! l = Some o → gheap σ' !! l = Some o) as Hk.
  { intros l o Hin Ho. apply Hg; [done|]. intros lw c E ->. unfold go_locs in Hnd.
    apply NoDup_app in Hnd as (_ & Hd & _). apply (Hd lw Hin). rewrite E. simpl. set_solver. }
  split; [split; try done; by eapply cells_keep|]. intros rs Hsh. by eapply shows_keep.
Qed.

Lemma wp_new_step σ w f rs (Q : ptr → st → Prop) :
  has_entries fl σ w f → bphase_ok fl σ f (BFill rs) → NoDup (go_locs f) → length rs = batch_size →
  (∀ rb f' σ', has_entries fl σ' w f' → bphase_ok fl σ' f' (BPut rb rs 0) →
     takes f f' σ σ' → world σ' = world σ → Q rb σ') →
  wp (Store_NewWriteBatch s) σ Q.
Proof.
  intros He (Hb & _ & Hdr & Hsh) Hnd Hlen HQ. pose proof (he_length _ _ _ _ He) as Hl.
  rewrite take_ge in Hsh by lia. unfold Store_NewWriteBatch, NewWriteBatch.
  apply wp_bind, wp_c_new. intros c Hc. apply wp_go_new. intros lw Hlw. cbn in Hlw.
  set (σ' := on_gheap _ _).
  destruct (entries_takes σ σ' w f (Some (lw, c)) He Hnd) as [He' Hsh'].
  { intros l o Ho _. cbn. rewrite lookup_insert_ne; [done|congruence]. }
  eapply (HQ _ (Foot (ft_cells f) (Some (lw, c)))); [done| | |done].
  - cbn. split_and!; [done|done|by apply Hsh'|lia|]. exists lw, c, wb_empty.
    split_and!; [done|done|split; cbn; apply lookup_insert_eq|].
    rewrite law_wb_empty, take_0. done.
  - eapply takes_batch; [exact Hb| | | |by right|].
    + unfold go_locs. cbn. apply NoDup_app. split_and!; [by apply cells_nodup| |by repeat constructor; set_solver].
      intros l (c2 & Hl2 & Hc2)%list_elem_of_bind ->%list_elem_of_singleton.
      destruct He as [_ _ Hat]. rewrite Forall_forall in Hat.
      by eapply (entry_at_live _ σ c2 lw); [apply Hat| |].
    + intros l o Ho _. cbn. rewrite lookup_insert_ne; [done|congruence].
    + intros l o Ho _. cbn. rewrite lookup_insert_ne; [done|congruence].
    + unfold c_locs. rewrite Hb. cbn. rewrite map_size_insert_None by done. lia.
Qed.

Lemma wp_put_step {A} σ w f rb rs i e (k : M st A) (Q : A → st → Prop) :
  has_entries fl σ w f → bphase_ok fl σ f (BPut rb rs i) → NoDup (go_locs f) →
  g_entries w !! i = Some e →
  (∀ σ', has_entries fl σ' w f → bphase_ok fl σ' f (BPut rb rs (S i)) →
     takes f f σ σ' → world σ' = world σ → wp k σ' Q) →
  wp (x ← go_load as_entry e; WriteBatch_Put rb (e_Key x) (e_Value x);; k) σ Q.
Proof.
  intros He (Hlen & Hdr & Hsh & Hi & lw & c & b & Hb & -> & [Hlw Hc] & Hu) Hnd Hie HQ.
  pose proof (he_length _ _ _ _ He) as Hl. rewrite (he_ptrs _ _ _ _ He) in Hie.
  apply list_lookup_fmap_Some in Hie as (ce & -> & Hce).
  pose proof (lookup_lt_Some _ _ _ Hce) as Hlt.
  destruct (lookup_lt_is_Some_2 rs i) as [r Hr]; [lia|].
  destruct (Forall2_lookup_lr _ _ _ _ _ _ Hsh Hce Hr) as (x & Hx & Hk & Hv).
  apply wp_bind. eapply wp_go_load; [exact Hx|done|].
  apply wp_bind. unfold wp at 1.
  erewrite (WriteBatch_Put_spec σ (PG lw) c b); [|exact Hlw|exact Hc|exact Hk|exact Hv].
  set (σ' := on_cheap _ σ). destruct f as [cs ob]. cbn [ft_cells ft_batch] in *. subst ob.
  destruct (entries_takes σ σ' w (Foot cs (Some (lw, c))) (Some (lw, c)) He Hnd) as [He' Hsh'];
    [done|]. apply HQ; [done| | |done].
  - cbn. split_and!; [done|done|by apply Hsh'|lia|].
    exists lw, c, (wb_Put b (draw_key fl r) (draw_value fl r)).
    split_and!; [done|done|split; [done|apply lookup_insert_eq]|].
    rewrite law_wb_put, Hu. by rewrite (take_S_r _ _ _ Hr), fmap_app.
  - eapply (takes_batch (Foot cs (Some (lw, c)))); [done|done|done| |by left|].
    + intros l o Ho Hne. cbn. rewrite lookup_insert_ne; [done|]. intros ->. by eapply Hne.
    + cbn. by rewrite map_size_insert_Some by done.
Qed.

Lemma wp_write_step σ w f rb rs log (Q : error → st → Prop) :
  has_entries fl σ w f → bphase_ok fl σ f (BWrite rb rs) → NoDup (go_locs f) → filled log σ →
  (∀ σ', has_entries fl σ' w f → bphase_ok fl σ' f (BDestroy rb rs) → takes f f σ σ' →
     filled (log ++ rs) σ' → Q None σ') →
  wp (Store_WriteBatch s rb) σ Q.
Proof.
  intros He (Hlen & Hdr & lw & c & b & Hb & -> & [Hlw Hc] & Hu) Hnd [Hr Hcl] HQ.
  set (σr := on_cheap (delete c) σ).
  assert (store_rep σr s h [] (KV (apply_updates (draw_update fl <$> log) ∅) None [])) as Hr'.
  { eapply store_rep_keep; [exact Hr| |done|apply stable_refl]. intros l o Hl Ho. cbn.
    rewrite lookup_delete_ne; [done|]. intros ->. by simplify_eq. }
  assert (batch_state σr σ (PG lw) c b) as Hbs.
  { split_and!; cbn; [apply lookup_delete_eq| |done|done|done].
    by rewrite insert_delete_eq, insert_id. }
  eapply (wp_Store_WriteBatch σr σ); [exact Hr'|exact Hbs|exact Hu| |].
  { apply Forall_fmap. eapply Forall_impl; [exact Hdr|]. intros r Hdraw. by apply draw_update_ok. }
  intros w' Hrep Hcl'. cbn [kv_live kv_read kv_snaps] in Hrep. apply HQ.
  - by destruct He.
  - cbn. by exists lw, c, b.
  - split; auto.
  - split; [|by apply Hcl'].
    rewrite fmap_app, apply_updates_app. eapply store_rep_same_world; [exact Hrep| |done].
    split; [|done]. cbn. apply delete_subseteq.
Qed.

Lemma wp_destroy_step σ w f rb rs (Q : unit → st → Prop) :
  has_entries fl σ w f → bphase_ok fl σ f (BDestroy rb rs) → NoDup (go_locs f) →
  (∀ f' σ', has_entries fl σ' w f' → ft_batch f' = None → takes f f' σ σ' →
     world σ' = world σ → Q tt σ') →
  wp (WriteBatch_Destroy rb) σ Q.
Proof.
  intros He (lw & c & b & Hb & -> & [Hlw Hc]) Hnd HQ.
  unfold wp. erewrite WriteBatch_Destroy_spec; [|exact Hlw|exact Hc]. set (σ' := on_gheap _ _).
  assert (∀ l o, gheap σ !! l = Some o → l ≠ lw → gheap σ' !! l = Some o) as Hg.
  { intros l o Ho Hne. cbn. by rewrite lookup_insert_ne. }
  destruct (entries_takes σ σ' w f None He Hnd) as [He' _].
  { intros l o Ho Hne. apply Hg; [done|]. by eapply Hne. }
  eapply (HQ (Foot (ft_cells f) None)); [done|done| |done].
  eapply takes_batch; [exact Hb| | | |done|].
  - unfold go_locs. cbn. rewrite app_nil_r. by apply cells_nodup.
  - intros l o Ho Hne. apply Hg; [done|]. intros ->. by eapply Hne.
  - intros l o Ho Hne. cbn. rewrite lookup_delete_ne; [done|]. intros ->. by eapply Hne.
  - unfold c_locs. rewrite Hb. cbn. pose proof (size_delete_S _ _ _ Hc). lia.
Qed.

(** *** Any step *)

Context (goal : float64).

(** The pieces of its batch a worker has left, or the one before its loop. *)
Definition pieces (w : gworker) : Z :=
  match g_phase w with
  | GStart => 1
  | GBatch (BFill rs) => 2 * batch_len + 4 - blen rs
  | GBatch (BPut _ _ i) => batch_len + 3 - Z.of_nat i
  | GBatch (BWrite _ _) => 2
  | GBatch (BDestroy _ _) => 1
  | _ => 0
  end.

(** A step is one of [Workers.v], or a piece of a batch, which [Workers.v] does not
    see. *)
Definition ctl (w : gworker) (sh : shared) (w' : gworker) (sh' : shared) : Prop :=
  (worker_next goal (worker_of w) sh = Some (worker_of w', sh') ∧ pieces w = 0 ∧
   pieces w' ≤ 2 * batch_len + 4) ∨
  (worker_of w' = worker_of w ∧ sh' = sh ∧ pieces w' = pieces w - 1).

(** 1 for a worker whose batch is in the store, but not in the counter. *)
Definition uncounted (w : gworker) : Z :=
  match g_phase w with GBatch (BDestroy _ _) | GWrote _ => 1 | _ => 0 end.

Definition counts (w : gworker) (sh : shared) (w' : gworker) (sh' : shared) : Prop :=
  sh_counter sh' + batch_len * uncounted w' =
    sh_counter sh + batch_len * uncounted w + blen (committed (g_phase w)).

Definition step_post (w : gworker) (sh : shared) (f : foot) (log : list draw) (σ : st)
    (r : gworker * shared) (σ' : st) : Prop :=
  ∃ f', gworker_ok fl σ' r.1 f' ∧ takes f f' σ σ' ∧
    filled (log ++ committed (g_phase w)) σ' ∧ ctl w sh r.1 r.2 ∧ counts w sh r.1 r.2.

#[local] Ltac control :=
  cbn [w_written w_phase gphase_of phase_of committed sh_counter]; split_and!;
  try first [done|unfold batch_len, blen; cbn [length]; lia].

(** The control steps leave the memory alone. *)
Lemma control_next w sh :
  match g_phase w with
  | GLoop | GAdded _ => True
  | GWrote wrote => wrote = f64_of_Z batch_len
  | _ => False
  end → 0 ≤ sh_counter sh ≤ 2 ^ 60 →
  ∃ w0 sh', worker_next goal (worker_of w) sh = Some (w0, sh') ∧
    let w' := GWorker (w_written w0) (g_entries w) (gphase_of (w_phase w0)) in
    worker_of w' = w0 ∧ committed (g_phase w) = [] ∧ pieces w = 0 ∧
    pieces w' ≤ 2 * batch_len + 4 ∧ counts w sh w' sh' ∧
    match g_phase w' with GStart | GWrote _ => False | GBatch b => b = BFill [] | _ => True end.
Proof.
  intros Hph Hsh. unfold worker_next, worker_of, pieces, counts, uncounted.
  destruct w as [wr es ph]; cbn [g_phase g_written g_entries] in *.
  destruct ph as [| |b|wrote|wrote|]; [destruct Hph| |destruct Hph| | |destruct Hph];
    cbn [phase_of w_phase w_written].
  - destruct (f64_ltb wr goal); do 2 eexists; (split; [done|]); control.
  - pose proof int_of_batch as Hi. rewrite <-Hph in Hi. rewrite Hi. clear Hph Hi. do 2 eexists. split; [done|].
    control. unfold batch_len, blen, wrap_s. cbn [length]. change (64 - 1) with 63.
    rewrite Z.mod_small; lia.
  - do 2 eexists. split; [done|]. control.
Qed.

Lemma step_control w sh f log σ :
  has_entries fl σ w f → ft_batch f = None → NoDup (go_locs f) → filled log σ →
  match g_phase w with
  | GLoop | GAdded _ => True
  | GWrote wrote => wrote = f64_of_Z batch_len
  | _ => False
  end → 0 ≤ sh_counter sh ≤ 2 ^ 60 →
  wp (match worker_next goal (worker_of w) sh with
      | Some (w', sh') => mret (GWorker (w_written w') (g_entries w) (gphase_of (w_phase w')), sh')
      | None => mret (w, sh)
      end) σ (step_post w sh f log σ).
Proof.
  intros He Hb Hnd Hfl Hph Hsh.
  destruct (control_next w sh Hph Hsh) as (w0 & sh' & E & Hw0 & Hcm & Hpc & Hpc' & Hct & Hp0).
  rewrite E. apply wp_ret. exists f. cbn [fst snd]. split_and!; [| | | |done].
  - unfold gworker_ok. cbn [g_phase] in *. assert (∀ p, has_entries fl σ
      (GWorker (w_written w0) (g_entries w) p) f) as He' by (intros p; by destruct He).
    destruct (gphase_of (w_phase w0)); try done. split; [apply He'|]. subst b. cbn.
    split_and!; [done|lia|done|constructor].
  - by apply takes_refl.
  - by rewrite Hcm, app_nil_r.
  - left. by rewrite Hw0.
Qed.

#[local] Ltac count :=
  unfold counts, uncounted; cbn [g_phase];
  match goal with E : g_phase _ = _ |- _ => rewrite E end; cbn [committed]; rewrite ?Z.add_0_r.

(** A piece of a batch, but the last. *)
Lemma batch_post w sh f log σ b b' f' σ' :
  g_phase w = GBatch b → has_entries fl σ' w f' → bphase_ok fl σ' f' b' → takes f f' σ σ' →
  filled (log ++ committed (GBatch b)) σ' →
  pieces (GWorker (g_written w) (g_entries w) (GBatch b')) = pieces w - 1 →
  counts w sh (GWorker (g_written w) (g_entries w) (GBatch b')) sh →
  step_post w sh f log σ (GWorker (g_written w) (g_entries w) (GBatch b'), sh) σ'.
Proof.
  intros Ep He Hb Htk Hfl Hpc Hct. exists f'. cbn [fst snd]. rewrite Ep. split_and!; try done.
  - split; [by destruct He|done].
  - right. unfold worker_of. by rewrite Ep.
Qed.

Lemma step_batch w sh f log r b σ :
  g_phase w = GBatch b → has_entries fl σ w f → bphase_ok fl σ f b → NoDup (go_locs f) →
  filled log σ → draw_ok r →
  wp (x ← batch_next fl s (g_entries w) r b;
      mret (GWorker (g_written w) (g_entries w)
              match x with inl b => GBatch b | inr n => GWrote (f64_of_Z n) end, sh)) σ
     (step_post w sh f log σ).
Proof.
  intros Ep He Hb Hnd Hfl Hr.
  assert (owned σ f) as Hown by (eapply (gworker_ok_owned fl σ w); unfold gworker_ok; by rewrite Ep).
  assert (∀ f' σ', takes f f' σ σ' → world σ' = world σ → filled (log ++ []) σ') as Hkeep.
  { intros f' σ' [Hg Hc _ _ _ _] Hw. rewrite app_nil_r. by eapply (filled_keep log f σ). }
  pose proof (he_length _ _ _ _ He) as Hl. pose proof (he_ptrs _ _ _ _ He) as Hp.
  apply wp_bind. destruct b as [rs|rb rs i|rb rs|rb rs]; cbn [batch_next].
  - destruct (g_entries w !! length rs) as [e|] eqn:Ee; apply wp_bind.
    + eapply wp_fill_step; [done..|]. intros f' σ' He' Hb' Htk Hw. apply wp_ret, wp_ret.
      eapply batch_post; [done..|by eapply Hkeep| |by count].
      unfold pieces. rewrite Ep. cbn. unfold blen. rewrite length_app. cbn. lia.
    + assert (length rs = batch_size) as Hlen.
      { destruct Hb as (_ & Hle & _). apply lookup_ge_None in Ee. rewrite Hp, length_fmap in Ee. lia. }
      eapply wp_new_step; [done..|]. intros rb f' σ' He' Hb' Htk Hw. apply wp_ret, wp_ret.
      eapply batch_post; [done..|by eapply Hkeep| |by count].
      unfold pieces. rewrite Ep. cbn [g_phase]. unfold blen. by rewrite Hlen.
  - destruct (g_entries w !! i) as [e|] eqn:Ee.
    + eapply wp_put_step; [done..|]. intros σ' He' Hb' Htk Hw. apply wp_ret, wp_ret.
      eapply batch_post; [done..|by eapply Hkeep| |by count].
      unfold pieces. rewrite Ep. cbn [g_phase]. lia.
    + apply wp_ret, wp_ret. destruct Hb as (Hlen & Hdr & Hsh & Hi & lw & c & b & Hb & -> & Hhb & Hu).
      apply lookup_ge_None in Ee. rewrite Hp, length_fmap in Ee.
      assert (i = batch_size) as -> by lia. rewrite take_ge in Hu by lia.
      eapply batch_post; [done|done| |by apply takes_refl|by rewrite app_nil_r| |by count].
      * cbn. split_and!; [done|done|]. by exists lw, c, b.
      * unfold pieces. by rewrite Ep.
  - apply wp_bind. eapply wp_write_step; [done..|]. intros σ' He' Hb' Htk Hfl'.
    apply wp_bind, wp_ret, wp_ret, wp_ret. eapply batch_post; [done..| |].
    + unfold pieces. by rewrite Ep.
    + count. unfold blen. by rewrite (proj1 Hb).
  - apply wp_bind. eapply wp_destroy_step; [done..|]. intros f' σ' He' Hb' Htk Hw. apply wp_ret, wp_ret.
    assert (blen (g_entries w) = batch_len) as ->.
    { rewrite Hp. unfold blen. by rewrite length_fmap, Hl. }
    exists f'. cbn [fst snd]. rewrite Ep. split_and!; [|done|by eapply Hkeep| |by count].
    + split; [by destruct He'|]. split; [exact Hb'|reflexivity].
    + right. unfold worker_of, pieces. by rewrite Ep.
Qed.

(** The entries a worker makes at its start. *)
Lemma step_start w sh log σ :
  g_phase w = GStart → g_written w = f64_of_Z 0 → filled log σ →
  wp (es ← new_entries (valueSize fl) (Z.to_nat batch_len); mret (GWorker (f64_of_Z 0) es GLoop, sh)) σ
     (step_post w sh (Foot [] None) log σ).
Proof.
  intros Ep Hw0 Hfl. apply wp_bind, (wp_new_entries _ Hvs).
  intros cs σ' Hlen Hg Ec Ew Hat Hsep Hl. apply wp_ret.
  assert (takes (Foot [] None) (Foot cs None) σ σ') as Htk.
  { split; unfold go_locs; cbn; rewrite ?app_nil_r.
    - intros l o _ Ho. eapply lookup_weaken; [exact Ho|apply Hg].
    - intros l o _. by rewrite Ec.
    - intros l Hin. right. by apply Hl.
    - intros l Hin. by apply elem_of_nil in Hin.
    - done.
    - by rewrite Ec. }
  exists (Foot cs None). rewrite Ep, app_nil_r. cbn [fst snd]. split_and!; [done|done| | |by count].
  - destruct Htk. eapply (filled_keep log (Foot [] None) σ); [done| |done..].
    split; intros l Hin; by apply elem_of_nil in Hin.
  - right. unfold worker_of, pieces. rewrite Ep, Hw0. by destruct w.
Qed.

Lemma wp_gnext w sh f log r σ :
  gworker_ok fl σ w f → NoDup (go_locs f) → filled log σ → draw_ok r → g_phase w ≠ GDone →
  0 ≤ sh_counter sh ≤ 2 ^ 60 →
  wp (gnext fl goal s r w sh) σ (step_post w sh f log σ).
Proof.
  intros Hok Hnd Hfl Hr Hne Hsh. unfold gworker_ok in Hok. unfold gnext.
  destruct (g_phase w) as [| |b|wrote| |] eqn:Ep; [| | | | |done]; destruct Hok as [He Hb].
  - subst f. by apply step_start.
  - apply step_control; [done..|by rewrite Ep|done].
  - by apply step_batch.
  - destruct Hb. apply step_control; [done..|by rewrite Ep|done].
  - apply step_control; [done..|by rewrite Ep|done].
Qed.
End local.

(** ** The whole system *)

(** The state of [Workers.v] a state stands for. *)
Definition control_of `{RocksDB} (g : gstate) : pstate :=
  PState (match gs_main g with GSpawning => MSpawning | _ => MWaited end)
    (worker_of <$> gs_workers g) (gs_shared g).

Section system.
Context `{RocksLaws, Libc, Arch, !Stores, !Openers}.
Context (fl : flags) (s : ptr) (h : handle) (dir : bytes) (dbi : lmdb_DBI) (base : nat).
Context (Hks : key_space fl ≠ 0) (Hvs : 0 ≤ valueSize fl < 2 ^ 63).
Context (goal : float64) (t : Z) (Hshare : goal = Fin t) (Ht : t ≤ (2 ^ 53 - batch_len) * one).

(** The map the log amounts to. *)
Definition written (log : list draw) : gmap bytes bytes :=
  apply_updates (draw_update fl <$> log) ∅.

(** Every worker owns memory of its own, and the C heap has [base] blocks beside. *)
Definition apart (σ : st) (ws : list gworker) : Prop :=
  ∃ fs, Forall2 (gworker_ok fl σ) ws fs ∧ NoDup (fs ≫= go_locs) ∧ NoDup (fs ≫= c_locs) ∧
    size (cheap σ) = (base + length (fs ≫= c_locs))%nat.

Record ginv (g : gstate) (crs : list (Z * Z)) : Prop := {
  gi_crash : gs_crash g = None;
  gi_control : pinv goal (control_of g) crs;
  gi_count : blen (gs_log g) =
    sh_counter (gs_shared g) + batch_len * sumZ (uncounted <$> gs_workers g);
  gi_draws : Forall draw_ok (gs_log g);
  gi_store :
    match gs_main g with
    | GClosed =>
        faultless (world (gs_mem g)) ∧
        on_disk (world (gs_mem g)) dir = Closed (written (gs_log g)) ∧
        S (size (cheap (gs_mem g))) = base
    | _ => filled fl s h dir (gs_log g) (gs_mem g) ∧ apart (gs_mem g) (gs_workers g)
    end;
}.

(** The steps left: those of [Workers.v], each with the pieces of a batch, the pieces
    already begun, and the closing of the store. *)
Definition gsteps (g : gstate) (crs : list (Z * Z)) : Z :=
  (2 * batch_len + 5) * psteps goal (control_of g) crs +
  sumZ (pieces <$> gs_workers g) +
  match gs_main g with GClosed => 0 | _ => 1 end.

Lemma pieces_nonneg σ w f : gworker_ok fl σ w f → 0 ≤ pieces w.
Proof.
  unfold gworker_ok, pieces. destruct (g_phase w) as [| |b| | |]; try done.
  intros [_ Hb]. destruct b as [rs|rb rs i|rb rs|rb rs]; cbn in Hb; try done.
  - destruct Hb as (_ & Hl & _). unfold blen, batch_size, batch_len in *. lia.
  - destruct Hb as (_ & _ & _ & Hl & _). unfold batch_size, batch_len in *. lia.
Qed.

(** When no worker is active, all have ended. *)
Lemma all_done ws : filter active (worker_of <$> ws) = [] → Forall (λ w, g_phase w = GDone) ws.
Proof.
  intros Hf. apply Forall_forall. intros w Hw.
  destruct (decide (active (worker_of w))) as [Ha|Ha].
  - assert (worker_of w ∈ filter active (worker_of <$> ws)) as Hin.
    { apply list_elem_of_filter. split; [done|]. by apply list_elem_of_fmap_2. }
    rewrite Hf in Hin. by apply elem_of_nil in Hin.
  - unfold active, worker_of in Ha. cbn in Ha.
    destruct (g_phase w); try done; by destruct Ha.
Qed.

(** A worker has at most one C struct. *)
Lemma length_c_locs fs : (length (fs ≫= c_locs) ≤ length fs)%nat.
Proof.
  induction fs as [|f fs IH]; [done|]. cbn [mbind list_bind length]. rewrite length_app.
  unfold c_locs at 1. destruct (ft_batch f) as [[]|]; cbn [from_option length]; lia.
Qed.

Lemma done_no_blocks σ ws fs :
  Forall (λ w, g_phase w = GDone) ws → Forall2 (gworker_ok fl σ) ws fs → fs ≫= c_locs = [].
Proof.
  intros Hws Hok. induction Hok as [|w f ws fs Hw _ IH]; [done|].
  apply Forall_cons in Hws as [Ew Hws]. unfold gworker_ok in Hw. rewrite Ew in Hw.
  cbn [mbind list_bind]. rewrite (IH Hws), app_nil_r. unfold c_locs. by rewrite (proj2 Hw).
Qed.

Lemma done_zero (f : gworker → Z) ws :
  (∀ w, g_phase w = GDone → f w = 0) → Forall (λ w, g_phase w = GDone) ws → sumZ (f <$> ws) = 0.
Proof. intros Hf Hws. apply sum_fmap_zero. by eapply Forall_impl. Qed.

Lemma gsteps_nonneg g crs : ginv g crs → 0 ≤ gsteps g crs.
Proof.
  intros [_ Hp _ _ Hs]. unfold gsteps.
  assert (0 ≤ psteps goal (control_of g) crs).
  { pose proof (rounds_bound goal t Hshare Ht) as [? _]. destruct Hp as [Hw _ _ _ Hn _].
    pose proof (sum_left_nonneg goal _ _ Hw). unfold psteps. destruct (p_main _); nia. }
  assert (0 ≤ sumZ (pieces <$> gs_workers g)).
  { pose proof (pi_main _ _ _ Hp) as Hm. unfold control_of in Hm. cbn in Hm.
    assert (apart (gs_mem g) (gs_workers g) → 0 ≤ sumZ (pieces <$> gs_workers g)) as Hap.
    { intros (fs & Hok & _). apply sum_fmap_nonneg. eapply Forall2_Forall_l; [exact Hok|].
      apply Forall_forall. intros f _ w. apply pieces_nonneg. }
    destruct (gs_main g); [apply Hap, Hs|apply Hap, Hs|].
    destruct (Hm eq_refl) as [_ Hf%all_done]. rewrite done_zero; [done| |done].
    intros w Hw. unfold pieces. by rewrite Hw. }
  unfold batch_len. destruct (gs_main g); lia.
Qed.

(** A step of one worker leaves the others what they own. *)
Lemma apart_step σ σ' ws i w w' fs f f' :
  Forall2 (gworker_ok fl σ) ws fs → NoDup (fs ≫= go_locs) → NoDup (fs ≫= c_locs) →
  size (cheap σ) = (base + length (fs ≫= c_locs))%nat →
  ws !! i = Some w → fs !! i = Some f → gworker_ok fl σ' w' f' → takes f f' σ σ' →
  apart σ' (<[i := w']> ws).
Proof.
  intros Hok Hg Hc Hb Hw Hf Hok' [Tg Tc Tg' Tc' Tn Ts]. exists (<[i := f']> fs).
  assert (∀ j fj, fs !! j = Some fj → owned σ fj) as Hown.
  { intros j fj Hj. eapply Forall2_lookup_r in Hok as (wj & _ & Hok); [|done].
    by eapply gworker_ok_owned. }
  split_and!.
  - apply Forall2_same_length_lookup_2.
    { rewrite !length_insert. by eapply Forall2_length. }
    intros j wj fj Hwj Hfj. apply list_lookup_insert_Some in Hwj as [(<- & <- & _)|[Hij Hwj]].
    { rewrite list_lookup_insert_eq in Hfj by (by eapply lookup_lt_Some). by simplify_eq. }
    rewrite list_lookup_insert_ne in Hfj by done.
    eapply (gworker_ok_keep fl σ); [| |by eapply (Forall2_lookup_lr _ _ _ _ _ _ Hok)].
    + intros l o Hl. apply Tg. exact (NoDup_bind_apart go_locs fs j i fj f l Hg Hfj Hf (not_eq_sym Hij) Hl).
    + intros l o Hl. apply Tc. exact (NoDup_bind_apart c_locs fs j i fj f l Hc Hfj Hf (not_eq_sym Hij) Hl).
  - eapply NoDup_bind_insert; [done|done|done|]. intros l [Hl|Hl]%Tg'; [by left|right].
    intros (fj & Hlj & [j Hj]%list_elem_of_lookup)%list_elem_of_bind.
    destruct (proj1 (Hown j fj Hj) l Hlj) as (o & ? & _). congruence.
  - eapply NoDup_bind_insert; [done|done| |].
    { unfold c_locs. destruct (ft_batch f') as [[? ?]|]; repeat constructor; set_solver. }
    intros l [Hl|Hl]%Tc'; [by left|right].
    intros (fj & Hlj & [j Hj]%list_elem_of_lookup)%list_elem_of_bind.
    destruct (proj2 (Hown j fj Hj) l Hlj) as (o & ? & _). congruence.
  - pose proof (length_bind_insert c_locs _ _ _ f' Hf). lia.
Qed.

Lemma committed_ok σ w f : gworker_ok fl σ w f → Forall draw_ok (committed (g_phase w)).
Proof.
  unfold gworker_ok. destruct (g_phase w) as [| |[]| | |]; try constructor.
  intros [_ (_ & Hdr & _)]. exact Hdr.
Qed.

(** A step of a worker succeeds, and keeps the invariant. *)
Lemma ginv_worker m ws sh σ log i w r crs :
  ginv (GState m ws sh σ log None) crs → ws !! i = Some w → g_phase w ≠ GDone → draw_ok r →
  wp (gnext fl goal s r w sh) σ (λ '(w', sh') σ',
    let g' := GState m (<[i := w']> ws) sh' σ' (log ++ committed (g_phase w)) None in
    ∃ crs', ginv g' crs' ∧ gsteps g' crs' ≤ gsteps (GState m ws sh σ log None) crs - 1).
Proof.
  intros [_ Hp Hc Hd Hs] Hw Hne Hr. cbn [gs_log gs_shared gs_workers gs_main gs_mem] in *.
  assert (0 ≤ sh_counter sh ≤ 2 ^ 60) as Hsh.
  { destruct Hp as [Hws Hcn _ _ Hn _]. cbn in *. rewrite Hcn.
    pose proof (counter_bound goal t Hshare Ht _ _ Hws Hn). lia. }
  destruct (decide (active (worker_of w))) as [Ha|Ha]; cycle 1.
  { destruct Ha. unfold active, worker_of. cbn. by destruct (g_phase w). }
  assert (m = GSpawning ∨ m = GWaited) as Hm.
  { destruct m; [by left|by right|]. exfalso. destruct (pi_main _ _ _ Hp eq_refl) as [_ Hf%all_done].
    rewrite Forall_forall in Hf. apply Hne, Hf. by eapply list_elem_of_lookup_2. }
  assert (filled fl s h dir log σ ∧ apart σ ws) as [Hfl (fs & Hok & Hng & Hnc & Hb)] by (by destruct Hm; subst m).
  eapply Forall2_lookup_l in Hok as Hf; [|exact Hw]. destruct Hf as (f & Hf & Hokf).
  assert (NoDup (go_locs f)) as Hnd.
  { rewrite (bind_split _ _ _ _ Hf) in Hng. apply NoDup_app in Hng as (_ & _ & Hng).
    by apply NoDup_app in Hng as (? & _ & _). }
  eapply wp_mono; [by apply (wp_gnext fl s h dir Hks Hvs goal w sh f log r σ)|].
  intros [w' sh'] σ' (f' & Hok' & Htk & Hfl' & Hctl & Hct). cbn [fst snd] in *.
  assert (∃ crs', pinv goal (control_of (GState m (<[i:=w']> ws) sh' σ' (log ++ committed (g_phase w)) None)) crs' ∧
    (2 * batch_len + 5) * psteps goal (control_of (GState m (<[i:=w']> ws) sh' σ' (log ++ committed (g_phase w)) None)) crs'
      + pieces w' ≤
    (2 * batch_len + 5) * psteps goal (control_of (GState m ws sh σ log None)) crs + pieces w - 1)
    as (crs' & Hp' & Hst).
  { unfold control_of in *. cbn [gs_main gs_workers gs_shared] in *. rewrite list_fmap_insert.
    destruct Hctl as [(Hn & Hpw & Hpw')|(Hwo & -> & Hpw)].
    - edestruct (pinv_step goal t Hshare Ht) as (crs' & Hp' & Hst); [exact Hp| |].
      { eapply (step_worker goal _ _ _ i); [by rewrite list_lookup_fmap, Hw|exact Hn]. }
      exists crs'. split; [done|]. rewrite Hst. unfold batch_len in *. lia.
    - exists crs. rewrite Hwo, list_insert_id by (by rewrite list_lookup_fmap, Hw).
      split; [done|lia]. }
  exists crs'. split; [split|]; cbn [gs_crash gs_log gs_shared gs_workers gs_main gs_mem]; try done.
  - rewrite (sum_fmap_insert _ _ _ w) by done. unfold counts in Hct. unfold blen in *.
    rewrite length_app. lia.
  - apply Forall_app. split; [done|by eapply committed_ok].
  - pose proof (apart_step _ _ _ _ _ _ _ _ _ Hok Hng Hnc Hb Hw Hf Hok' Htk). by destruct Hm; subst m.
  - unfold gsteps. cbn [gs_workers gs_main]. rewrite (sum_fmap_insert _ _ _ w) by done. lia.
Qed.

Lemma gsteps_unfold m ws sh σ log c crs :
  gsteps (GState m ws sh σ log c) crs =
    (2 * batch_len + 5) * psteps goal (control_of (GState m ws sh σ log c)) crs +
    sumZ (pieces <$> ws) + match m with GClosed => 0 | _ => 1 end.
Proof. done. Qed.

Lemma ginv_close ws sh σ log crs :
  ginv (GState GWaited ws sh σ log None) crs →
  wp (close_stores (only_rocks dbi s)) σ (λ _ σ',
    let g' := GState GClosed ws sh σ' log None in
    ginv g' crs ∧ gsteps g' crs = gsteps (GState GWaited ws sh σ log None) crs - 1).
Proof.
  intros [_ Hp Hc Hdr [[Hr Hcl] (fs & Hok & _ & _ & Hb)]]. cbn [gs_mem gs_workers] in *.
  assert (fs ≫= c_locs = []) as Hnil.
  { destruct (pi_main _ _ _ Hp eq_refl) as [_ Hf%all_done]. by eapply done_no_blocks. }
  eapply (wp_close_rocksdb dbi σ s h [] _ dir); [exact Hr|exact Hcl|]. intros σ' Hf Hd Hsz.
  rewrite Hnil in Hb. cbn in Hb.
  split; [split; try done; cbn; split_and!; [done..|lia]|]. rewrite !gsteps_unfold. unfold control_of. cbn [gs_main gs_workers gs_shared]. lia.
Qed.

Lemma ginv_step g g' crs :
  ginv g crs → gstep fl goal dbi s g g' → ∃ crs', ginv g' crs' ∧ gsteps g' crs' ≤ gsteps g crs - 1.
Proof.
  intros Hi Hstep.
  destruct Hstep as [ws sh σ log Hlt|m ws sh σ log i w r w' sh' σ' Hw Hne Hr E
    |m ws sh σ log i w r e Hw Hne Hr E|ws sh σ log Hlen Hz|ws sh σ log u σ' E|ws sh σ log e E].
  - destruct Hi as [_ Hp Hc Hdr [Hfl (fs & Hok & Hng & Hnc & Hb)]]. cbn [gs_log gs_shared gs_workers gs_mem] in *.
    edestruct (pinv_step goal t Hshare Ht) as (crs' & Hp' & Hst); [exact Hp| |].
    { apply (step_spawn goal (worker_of <$> ws)). by rewrite length_fmap. }
    exists crs'. split; [split; cbn; try done|].
    + unfold control_of in *. cbn in *. by rewrite fmap_app.
    + rewrite fmap_app, sumZ_app. change (sumZ (uncounted <$> [GWorker (f64_of_Z 0) [] GStart])) with 0. lia.
    + split; [done|]. exists (fs ++ [Foot [] None]). rewrite !bind_app. cbn. rewrite !app_nil_r.
      split_and!; [|done|done|done]. apply Forall2_app; [done|]. by constructor; [split|].
    + rewrite !gsteps_unfold. rewrite fmap_app, sumZ_app. cbn [sumZ foldr fmap list_fmap pieces g_phase].
      unfold control_of in *. cbn [gs_main gs_workers gs_shared] in *. rewrite fmap_app.
      cbn [fmap list_fmap] in *. change (worker_of (GWorker (f64_of_Z 0) [] GStart)) with (Worker (f64_of_Z 0) PLoop).
      rewrite Hst. unfold batch_len, pieces. cbn [g_phase]. lia.
  - pose proof (ginv_worker _ _ _ _ _ _ _ _ _ Hi Hw Hne Hr) as Hwp. unfold wp in Hwp. by rewrite E in Hwp.
  - pose proof (ginv_worker _ _ _ _ _ _ _ _ _ Hi Hw Hne Hr) as Hwp. unfold wp in Hwp. by rewrite E in Hwp.
  - destruct Hi as [_ Hp Hc Hdr Hs]. cbn [gs_log gs_shared gs_workers gs_main gs_mem] in *.
    edestruct (pinv_step goal t Hshare Ht) as (crs' & Hp' & Hst); [exact Hp| |].
    { apply (step_wait goal (worker_of <$> ws)); [by rewrite length_fmap|done]. }
    exists crs'. split; [by split|]. rewrite !gsteps_unfold.
    unfold control_of in *. cbn [gs_main gs_workers gs_shared] in *. rewrite Hst. unfold batch_len. lia.
  - pose proof (ginv_close _ _ _ _ _ Hi) as Hwp. unfold wp in Hwp. rewrite E in Hwp.
    destruct Hwp as [Hi' Hst]. exists crs. split; [done|]. lia.
  - pose proof (ginv_close _ _ _ _ _ Hi) as Hwp. unfold wp in Hwp. by rewrite E in Hwp.
Qed.

(** ** Executions *)

Lemma ginv_init σ :
  store_rep σ s h [] (KV ∅ None []) → closable (world σ) h dir → size (cheap σ) = base →
  ginv (ginit σ) [].
Proof.
  intros Hr Hcl Hb. split; [done|apply pinv_init|done|constructor|]. split; [by split|].
  exists []. cbn. rewrite Nat.add_0_r. by repeat constructor.
Qed.

Lemma ginv_nsteps k g g' crs :
  ginv g crs → nsteps (gstep fl goal dbi s) k g g' →
  ∃ crs', ginv g' crs' ∧ Z.of_nat k ≤ gsteps g crs - gsteps g' crs'.
Proof.
  intros Hi Hk. revert crs Hi. induction Hk as [g|k g1 g2 g3 H12 _ IH]; intros crs Hi.
  - exists crs. split; [done|lia].
  - destruct (ginv_step _ _ _ Hi H12) as (crs2 & Hi2 & Hs2).
    destruct (IH crs2 Hi2) as (crs3 & Hi3 & Hs3). exists crs3. split; [done|lia].
Qed.

(** Nothing gets stuck before the store is closed. *)
Lemma ginv_progress g crs :
  ginv g crs → gs_main g ≠ GClosed → ∃ g', gstep fl goal dbi s g g'.
Proof.
  intros Hi Hm. pose proof Hi as [Hcr Hp _ _ _]. destruct g as [m ws sh σ log c]; cbn in Hcr, Hm; subst c.
  destruct m; [| |done].
  - destruct (decide (length ws < num_workers)%nat) as [Hlt|Hge]; [eexists; by apply gstep_spawn|].
    assert (length ws = num_workers) as Hlen.
    { destruct Hp as [_ _ _ _ Hn _]. cbn in Hn. rewrite length_fmap in Hn. lia. }
    destruct (filter active (worker_of <$> ws)) as [|w0 l] eqn:Ef.
    + eexists. apply gstep_wait; [done|]. destruct Hp as [_ _ _ Hg _ _]. cbn in Hg. by rewrite Hg, Ef.
    + assert (w0 ∈ filter active (worker_of <$> ws)) as Hin by (rewrite Ef; left).
      apply list_elem_of_filter in Hin as [Ha (w & -> & [i Hw]%list_elem_of_lookup)%list_elem_of_fmap].
      assert (g_phase w ≠ GDone) as Hne by (intros E; apply Ha; unfold worker_of; cbn; by rewrite E).
      assert (draw_ok (demo_draw 0)) as Hr by by apply demo_draw_ok.
      pose proof (ginv_worker _ _ _ _ _ _ _ _ _ Hi Hw Hne Hr) as Hwp.
      apply wp_run in Hwp as ([w' sh'] & σ' & E & _).
      eexists. by eapply gstep_worker.
  - pose proof (ginv_close _ _ _ _ _ Hi) as Hwp. apply wp_run in Hwp as (u & σ' & E & _).
    eexists. by eapply gstep_close.
Qed.
End system.

Section theorems.
Context `{RocksLaws, Libc, Arch, !OS, !OSLaws, !Stores, !Openers}.
Context (fl : flags) (n : Z) (dir : bytes).

(** [ *numKeys * mil ] is the number [n] of keys; the directory may be emptied. *)
Record run_ok (σ : st) : Prop := {
  ro_keys : f64_mul (numKeys fl) mil = f64_of_Z n;
  ro_n : 0 < n < 2 ^ 53;
  ro_value : 0 ≤ valueSize fl < 2 ^ 63;
  ro_faultless : faultless (world σ);
  ro_path : NUL_free (dir ++ bs "/rocks");
  ro_unused : unused (world σ) (dir ++ bs "/rocks");
}.

Abbreviation goal := (share (f64_mul (numKeys fl) mil)).

Lemma key_space_of_Z : f64_mul (numKeys fl) mil = f64_of_Z n → 0 < n < 2 ^ 53 → key_space fl = n.
Proof.
  intros E Hn. unfold key_space. rewrite E, f64_of_Z_small by lia. unfold int_of_f64.
  pose proof one_pos. rewrite Z.quot_mul by lia. cbn zeta.
  rewrite (proj2 (Z.leb_le _ _)), (proj2 (Z.ltb_lt _ _)) by lia. done.
Qed.

Lemma run_facts σ : run_ok σ →
  key_space fl ≠ 0 ∧ goal = Fin (n * 2 ^ 1069) ∧ n * 2 ^ 1069 ≤ (2 ^ 53 - batch_len) * one.
Proof.
  intros [Hk Hn _ _ _ _]. split_and!; [rewrite key_space_of_Z by done; lia| |].
  - rewrite Hk. apply share_of_Z. lia.
  - apply share_of_Z_bound. lia.
Qed.

(** What holds of every execution, from the memory [main] starts the workers on. *)
Lemma wp_populate_run σ (Q : globals → st → Prop) :
  run_ok σ →
  (∀ s h σ1, let base := (1 + opts_blocks + size (cheap σ))%nat in
     (∀ k r, nsteps (gstep fl goal lmdb_zeroDBI s) k (ginit σ1) r →
        ∃ crs, ginv fl s h (dir ++ bs "/rocks") base goal r crs ∧
          Z.of_nat k ≤ gsteps goal (ginit σ1) [] - gsteps goal r crs ∧
          0 ≤ gsteps goal r crs ∧
          (gs_main r ≠ GClosed → ∃ r', gstep fl goal lmdb_zeroDBI s r r')) →
     Q (only_rocks lmdb_zeroDBI s) σ1) →
  wp (open_stores (bs "rocksdb") dir) σ Q.
Proof.
  intros Hok HQ. destruct (run_facts σ Hok) as (Hks & Hg & Ht).
  destruct Hok as [_ _ Hv Hf Hp Hu]. apply wp_open_rocksdb; [done..|].
  intros s h σ1 Hr Hcl Hsz. apply (HQ s h). intros k r Hk.
  assert (ginv fl s h (dir ++ bs "/rocks") (1 + opts_blocks + size (cheap σ)) goal (ginit σ1) [])
    as Hi by by apply ginv_init.
  destruct (ginv_nsteps fl s h _ lmdb_zeroDBI _ Hks Hv goal _ Hg Ht k _ r [] Hi Hk)
    as (crs & Hi' & Hle).
  exists crs. split_and!; [done|done| |].
  - by eapply (gsteps_nonneg fl s h _ _ goal _ Hg Ht).
  - by eapply (ginv_progress fl s h _ lmdb_zeroDBI _ Hks Hv goal _ Hg Ht).
Qed.

(** C3: [populate -kv rocksdb], whatever the directory held and however its 32 goroutines
    interleave: no execution faults, and when [main] has closed the store, the
    database in the directory holds exactly the updates of the batches written, in
    their order; the counter printed is their number, which is at least the number
    of keys asked for and less than 32000 above it. *)
Theorem populate_fills_store σ :
  run_ok σ →
  wp (open_stores (bs "rocksdb") dir) σ (λ g σ1,
    ∃ s, g = only_rocks lmdb_zeroDBI s ∧
    ∀ r, rtc (gstep fl goal lmdb_zeroDBI s) (ginit σ1) r →
      gs_crash r = None ∧
      (gs_main r = GClosed →
        on_disk (world (gs_mem r)) (dir ++ bs "/rocks") = Closed (written fl (gs_log r)) ∧
        blen (gs_log r) = sh_counter (gs_shared r) ∧
        n ≤ sh_counter (gs_shared r) < n + 32000)).
Proof.
  intros Hok. destruct (run_facts σ Hok) as (_ & Hg & _). pose proof Hok as [Hk Hn _ _ _ _].
  apply wp_populate_run; [done|]. intros s h σ1 base Hrun. exists s. split; [done|].
  intros r [k Hr]%rtc_nsteps. destruct (Hrun k r Hr) as (crs & [Hcr Hp Hc _ Hs] & _).
  split; [done|]. intros Em. rewrite Em in Hs. split; [apply Hs|].
  destruct Hp as [Hws Hcn _ _ _ Hm]. unfold control_of in *. rewrite Em in Hm.
  destruct (Hm eq_refl) as [Hlen Hf]. pose proof (all_done _ Hf) as Hdone.
  cbn [p_workers p_shared] in *. apply done_sums in Hws as [E1 _]; [|done].
  rewrite Hlen in E1. rewrite E1, Hk, rounds_of_Z in Hcn by lia.
  rewrite done_zero in Hc; [|by intros w Ew; unfold uncounted; rewrite Ew|done].
  pose proof (Z.div_mod (n + 31999) 32000). pose proof (Z.mod_pos_bound (n + 31999) 32000).
  unfold num_workers, batch_len in *. lia.
Qed.

(** C4: and it ends: every execution has at most this many steps (2005 for each step of
    the loops: a batch is 1000 entries filled, 1000 put, and 4 more pieces), and one
    that has not closed the store can go on. *)
Theorem populate_run_ends σ :
  run_ok σ →
  wp (open_stores (bs "rocksdb") dir) σ (λ g σ1,
    ∃ s, g = only_rocks lmdb_zeroDBI s ∧
    ∀ k r, nsteps (gstep fl goal lmdb_zeroDBI s) k (ginit σ1) r →
      Z.of_nat k ≤ 2005 * (32 * (3 * ((n + 31999) / 32000) + 2) + 1) + 1 ∧
      (gs_main r ≠ GClosed → ∃ r', gstep fl goal lmdb_zeroDBI s r r')).
Proof.
  intros Hok. destruct (run_facts σ Hok) as (_ & Hg & _). pose proof Hok as [Hk Hn _ _ _ _].
  apply wp_populate_run; [done|]. intros s h σ1 base Hrun. exists s. split; [done|].
  intros k r Hr. destruct (Hrun k r Hr) as (crs & _ & Hle & Hnn & Hgo). split; [|done].
  assert (gsteps goal (ginit σ1) [] = 2005 * (32 * (3 * ((n + 31999) / 32000) + 2) + 1) + 1) as E;
    [|lia].
  unfold gsteps, ginit, control_of, psteps. cbn [gs_main gs_workers gs_shared p_main p_workers].
  rewrite Hk, rounds_of_Z by lia. unfold batch_len, num_workers, sum_left. cbn [fmap list_fmap zip_with sumZ foldr length].
  lia.
Qed.

(** C13: the C heap of [populate -kv rocksdb] stays bounded: at any time it has, beside
    what it had before, the six blocks of the store and at most one write batch per
    goroutine; when [main] has closed the store, the five option structs of the
    store are left, which nothing frees. *)
Theorem populate_c_heap σ :
  run_ok σ →
  wp (open_stores (bs "rocksdb") dir) σ (λ g σ1,
    ∃ s, g = only_rocks lmdb_zeroDBI s ∧
    ∀ r, rtc (gstep fl goal lmdb_zeroDBI s) (ginit σ1) r →
      (size (cheap (gs_mem r)) ≤ 6 + 32 + size (cheap σ))%nat ∧
      (gs_main r = GClosed → size (cheap (gs_mem r)) = (5 + size (cheap σ))%nat)).
Proof.
  intros Hok. apply wp_populate_run; [done|]. intros s h σ1 base Hrun. exists s. split; [done|].
  intros r [k Hr]%rtc_nsteps. destruct (Hrun k r Hr) as (crs & [_ Hp _ _ Hs] & _).
  assert (apart fl base (gs_mem r) (gs_workers r) →
    size (cheap (gs_mem r)) ≤ 6 + 32 + size (cheap σ))%nat as Hap.
  { intros (fs & Hok' & _ & _ & ->). pose proof (length_c_locs fs).
    pose proof (Forall2_length _ _ _ Hok') as Hlen.
    pose proof (pi_num _ _ _ Hp) as Hn. unfold control_of in Hn. cbn in Hn.
    rewrite length_fmap in Hn. unfold base, opts_blocks, num_workers in *. lia. }
  unfold base, opts_blocks in *. destruct (gs_main r).
  - split; [apply Hap, Hs|done].
  - split; [apply Hap, Hs|done].
  - destruct Hs as (_ & _ & Hs). split; [|intros _]; lia.
Qed.
End theorems.

(** ** A concrete run *)

#[local] Existing Instance amd64.

(** The directory holds a database of an earlier run. *)
Definition sigma_old : st :=
  St ∅ ∅ (MWorld ∅ {[bs "data/rocks" := Closed {[bs "old" := bs "value"]}]} ∅ ∅ ∅ ∅ ∅) [].

Lemma demo_run_ok : run_ok demo_flags 1000000 (bs "data") sigma_old.
Proof.
  split; [vm_compute; reflexivity|lia|simpl; lia|done| |].
  - apply (bool_decide_unpack _). vm_compute. done.
  - intros d _. simpl. unfold m_disk. simpl. rewrite lookup_singleton. by case_decide.
Qed.

Lemma populate_fills_store_witness :
  wp (open_stores (bs "rocksdb") (bs "data")) sigma_old (λ g σ1,
    ∃ s, g = only_rocks lmdb_zeroDBI s ∧
    ∀ r, rtc (gstep demo_flags (share (f64_mul (numKeys demo_flags) mil)) lmdb_zeroDBI s) (ginit σ1) r →
      gs_crash r = None ∧
      (gs_main r = GClosed →
        on_disk (world (gs_mem r)) (bs "data/rocks") = Closed (written demo_flags (gs_log r)) ∧
        blen (gs_log r) = sh_counter (gs_shared r) ∧
        1000000 ≤ sh_counter (gs_shared r) < 1032000)).
Proof. apply (populate_fills_store demo_flags 1000000 (bs "data") sigma_old demo_run_ok). Defined.

(** One million keys: at most 6289686 steps. *)
Lemma populate_run_ends_witness :
  wp (open_stores (bs "rocksdb") (bs "data")) sigma_old (λ g σ1,
    ∃ s, g = only_rocks lmdb_zeroDBI s ∧
    ∀ k r, nsteps (gstep demo_flags (share (f64_mul (numKeys demo_flags) mil)) lmdb_zeroDBI s) k
             (ginit σ1) r →
      Z.of_nat k ≤ 2005 * (32 * (3 * ((1000000 + 31999) / 32000) + 2) + 1) + 1 ∧
      (gs_main r ≠ GClosed → ∃ r', gstep demo_flags (share (f64_mul (numKeys demo_flags) mil))
         lmdb_zeroDBI s r r')).
Proof. apply (populate_run_ends demo_flags 1000000 (bs "data") sigma_old demo_run_ok). Defined.

Lemma populate_c_heap_witness :
  wp (open_stores (bs "rocksdb") (bs "data")) sigma_old (λ g σ1,
    ∃ s, g = only_rocks lmdb_zeroDBI s ∧
    ∀ r, rtc (gstep demo_flags (share (f64_mul (numKeys demo_flags) mil)) lmdb_zeroDBI s) (ginit σ1) r →
      (size (cheap (gs_mem r)) ≤ 6 + 32 + 0)%nat ∧
      (gs_main r = GClosed → size (cheap (gs_mem r)) = (5 + 0)%nat)).
Proof. apply (populate_c_heap demo_flags 1000000 (bs "data") sigma_old demo_run_ok). Defined.
