(* ===== verification/LibraryRun.v ===== *)
(** * The program populate with badger, leveldb, bolt or lmdb

    [PopulateRun.v] has the goroutines of populate on the rocks store; here they run on
    one of the other four stores.  A batch is one call of [Populate.writeBatch] and one
    step: the libraries make its transaction atomic, and what it does before, filling
    the entries, touches memory of its own goroutine only.  The loops are those of
    [Workers.v]; a worker makes its entries first. *)

From S2P Require Import Prelude Rocks MemRocks Memory Strconv Store StoreSpec Float64 Populate PopulateMain PopulateSpec Libraries MemStores OtherStores Workers PopulateRunSpec Scenario.
From stdpp Require Import relations.
#[local] Open Scope Z_scope.

(** A worker of [Workers.v], and its [entries] once they are made. *)
Record lworker := LWorker { l_worker : worker; l_entries : option (list ptr) }.

Section state.
Context `{RocksDB}.

Record lstate := LState {
  ls_main : main_phase;
  ls_workers : list lworker;
  ls_shared : shared;
  ls_mem : st;
  ls_log : list draw;             (* the draws of the batches written, in their order *)
  ls_crash : option fault;
}.
End state.

Section system.
Context `{RocksDB, Libc, Arch, !Stores}.
Context (fl : flags) (goal : float64) (g : globals).

(** A step of a goroutine; [rs] are the random numbers of the batch, if it writes one. *)
Definition lnext (rs : list draw) (w : lworker) (sh : shared) : M st (lworker * shared) :=
  match l_entries w with
  | None =>
      es ← new_entries (valueSize fl) (Z.to_nat batch_len);
      mret (LWorker (Worker (f64_of_Z 0) PLoop) (Some es), sh)
  | Some es =>
      match worker_next goal (l_worker w) sh with
      | Some (w', sh') =>
          match w_phase w' with
          | PWrote _ =>
              n ← writeBatch fl g es rs;
              mret (LWorker (Worker (w_written w') (PWrote (f64_of_Z n))) (Some es), sh')
          | _ => mret (LWorker w' (Some es), sh')
          end
      | None => mret (w, sh)
      end
  end.

(** A worker that has just written a batch has logged it. *)
Definition lwrote (rs : list draw) (w' : lworker) : list draw :=
  match w_phase (l_worker w') with PWrote _ => rs | _ => [] end.

(** The random numbers of a batch. *)
Definition batch_draws (rs : list draw) : Prop := length rs = batch_size ∧ Forall draw_ok rs.

Inductive lstep : lstate → lstate → Prop :=
| lstep_spawn ws sh σ log :
    (length ws < num_workers)%nat →
    lstep (LState MSpawning ws sh σ log None)
      (LState MSpawning (ws ++ [LWorker (Worker (f64_of_Z 0) PLoop) None])
         (Shared (sh_counter sh) (sh_rate sh) (sh_wg sh + 1)) σ log None)
| lstep_worker m ws sh σ log i w rs w' sh' σ' :
    ws !! i = Some w → active (l_worker w) → batch_draws rs →
    lnext rs w sh σ = Ret (w', sh') σ' →
    lstep (LState m ws sh σ log None)
      (LState m (<[i := w']> ws) sh' σ' (log ++ lwrote rs w') None)
| lstep_crash m ws sh σ log i w rs e :
    ws !! i = Some w → active (l_worker w) → batch_draws rs →
    lnext rs w sh σ = Fault e →
    lstep (LState m ws sh σ log None) (LState m ws sh σ log (Some e))
| lstep_wait ws sh σ log :
    length ws = num_workers → sh_wg sh = 0 →
    lstep (LState MSpawning ws sh σ log None) (LState MWaited ws sh σ log None).

(** After [open_stores], on its memory. *)
Definition linit (σ : st) : lstate := LState MSpawning [] (Shared 0 0 0) σ [] None.
End system.

(** ** The invariant *)

(** The state of [Workers.v] a state stands for. *)
Definition lcontrol `{RocksDB} (r : lstate) : pstate :=
  PState (ls_main r) (l_worker <$> ls_workers r) (ls_shared r).

(** 1 for a batch that is written and not counted yet; 1 for a worker without entries. *)
Definition luncounted (w : lworker) : Z :=
  match w_phase (l_worker w) with PWrote _ => 1 | _ => 0 end.
Definition lunmade (w : lworker) : Z := match l_entries w with None => 1 | Some _ => 0 end.

Definition cell_locs (cs : list ecell) : list loc := cs ≫= ec_locs.

Section invariant.
Context `{StoresLaws, Libc, Arch}.
Context (fl : flags) (g : globals) (holds : World → gmap bytes bytes → Prop)
  (accepted : World → list update → bool) (Hg : open_library g holds accepted).
Context (Hks : key_space fl ≠ 0) (Hvs : 0 ≤ valueSize fl < 2 ^ 63).
Context (goal : float64) (t : Z) (Hshare : goal = Fin t) (Ht : t ≤ (2 ^ 53 - batch_len) * one).
Context (m0 : gmap bytes bytes) (σ0 : st).

Abbreviation updates rs := (draw_update fl <$> rs).
Abbreviation ptrs cs := ((λ c, PG (c_e c)) <$> cs).

(** A worker and its cells. *)
Definition lworker_ok (σ : st) (w : lworker) (cs : list ecell) : Prop :=
  match l_entries w with
  | None => cs = [] ∧ l_worker w = Worker (f64_of_Z 0) PLoop
  | Some es => es = ptrs cs ∧ length cs = batch_size ∧ Forall (entry_at (valueSize fl) σ) cs
  end.

Definition lapart (σ : st) (ws : list lworker) : Prop :=
  ∃ css, Forall2 (lworker_ok σ) ws css ∧ NoDup (css ≫= cell_locs).

Record linv (r : lstate) (crs : list (Z * Z)) : Prop := {
  li_control : pinv goal (lcontrol r) crs;
  li_count : blen (ls_log r) =
    sh_counter (ls_shared r) + batch_len * sumZ (luncounted <$> ls_workers r);
  li_holds : holds (world (ls_mem r)) (apply_updates (updates (ls_log r)) m0);
  li_cheap : cheap (ls_mem r) = cheap σ0;
  li_apart : lapart (ls_mem r) (ls_workers r);
}.

(** The only crash there is: a batch that the store cannot take in one transaction. *)
Definition lcrash_ok (r : lstate) : Prop :=
  ls_crash r = None ∨
  (ls_crash r = Some (Fatal "y.Check") ∧
   ∃ rs, batch_draws rs ∧ accepted (world (ls_mem r)) (updates rs) = false).

Definition lsteps (r : lstate) (crs : list (Z * Z)) : Z :=
  2 * psteps goal (lcontrol r) crs + sumZ (lunmade <$> ls_workers r) +
  match ls_crash r with None => 1 | Some _ => 0 end.

(** A step of one worker leaves the others their entries. *)
Lemma lapart_step σ σ' ws css i w w' cs cs' :
  Forall2 (lworker_ok σ) ws css → NoDup (css ≫= cell_locs) →
  ws !! i = Some w → css !! i = Some cs → lworker_ok σ' w' cs' →
  go_frame (cell_locs cs) σ σ' → NoDup (cell_locs cs') →
  (∀ l, l ∈ cell_locs cs' → l ∈ cell_locs cs ∨ gheap σ !! l = None) →
  lapart σ' (<[i := w']> ws).
Proof.
  intros Hok Hnd Hw Hcs Hok' Hf Hnd' Hl. exists (<[i := cs']> css). split.
  - apply Forall2_same_length_lookup_2.
    { rewrite !length_insert. by eapply Forall2_length. }
    intros j wj csj Hwj Hcsj. apply list_lookup_insert_Some in Hwj as [(<- & <- & _)|[Hij Hwj]].
    { rewrite list_lookup_insert_eq in Hcsj by (by eapply lookup_lt_Some). by simplify_eq. }
    rewrite list_lookup_insert_ne in Hcsj by done.
    pose proof (Forall2_lookup_lr _ _ _ _ _ _ Hok Hwj Hcsj) as Hj. unfold lworker_ok in *.
    destruct (l_entries wj); [|exact Hj]. destruct Hj as (? & ? & Hat). split_and!; [done..|].
    apply Forall_forall. intros c Hc. rewrite Forall_forall in Hat.
    eapply entry_at_frame; [exact Hf| |by apply Hat]. intros lc Hlc.
    eapply (NoDup_bind_apart cell_locs css j i csj cs lc Hnd Hcsj Hcs); [done|].
    apply list_elem_of_bind. by exists c.
  - eapply NoDup_bind_insert; [done|done|done|]. intros l [Hin|Hn]%Hl; [by left|right].
    intros (csj & Hlj & [j Hj]%list_elem_of_lookup)%list_elem_of_bind.
    eapply Forall2_lookup_r in Hok as (wj & _ & Hok); [|done]. unfold lworker_ok in Hok.
    destruct (l_entries wj); [|destruct Hok as [-> _]; by apply elem_of_nil in Hlj].
    destruct Hok as (_ & _ & Hat). apply list_elem_of_bind in Hlj as (c & Hlc & Hc).
    rewrite Forall_forall in Hat. by eapply (entry_at_live (valueSize fl) σ c l); [apply Hat|..].
Qed.

(** The counting of one step. *)
Lemma lcount_next w sh w' sh' :
  worker_next goal w sh = Some (w', sh') →
  (∀ wrote, w_phase w = PWrote wrote → wrote = f64_of_Z batch_len) → 0 ≤ sh_counter sh ≤ 2 ^ 60 →
  let un w := match w_phase w with PWrote _ => 1 | _ => 0 end in
  sh_counter sh' + batch_len * un w' =
    sh_counter sh + batch_len * un w + match w_phase w' with PWrote _ => batch_len | _ => 0 end ∧
  (∀ wrote, w_phase w' = PWrote wrote → wrote = f64_of_Z batch_len).
Proof.
  intros E Hwr Hsh. unfold worker_next in E. destruct w as [z p]. cbn [w_phase w_written] in *.
  destruct p as [|wrote|wrote|]; [destruct (f64_ltb z goal)| | |done]; simplify_eq;
    cbn [w_phase sh_counter].
  - split; [lia|]. intros wrote Ew. congruence.
  - split; [lia|]. intros wrote Ew. discriminate Ew.
  - rewrite (Hwr wrote eq_refl), int_of_batch. split; [|intros ? Ew; discriminate Ew].
    unfold batch_len, wrap_s. change (64 - 1) with 63. rewrite Z.mod_small; lia.
  - split; [lia|]. intros ? Ew. discriminate Ew.
Qed.

Lemma pinv_wrote s crs w :
  pinv goal s crs → w ∈ p_workers s → ∀ wrote, w_phase w = PWrote wrote → wrote = f64_of_Z batch_len.
Proof.
  intros [Hws _ _ _ _ _] [i Hw]%list_elem_of_lookup wrote E.
  eapply Forall2_lookup_l in Hws as ([c r] & _ & Hi); [|exact Hw]. cbn in Hi.
  destruct Hi; cbn in E; congruence.
Qed.

(** A step of a worker, once its parts are known. *)
Lemma linv_next m ws sh σ log i w w' sh' σ' rs crs crs' css cs cs' :
  linv (LState m ws sh σ log None) crs → ws !! i = Some w →
  Forall2 (lworker_ok σ) ws css → NoDup (css ≫= cell_locs) → css !! i = Some cs →
  pinv goal (PState m (<[i := l_worker w']> (l_worker <$> ws)) sh') crs' →
  psteps goal (PState m (<[i := l_worker w']> (l_worker <$> ws)) sh') crs' =
    psteps goal (PState m (l_worker <$> ws) sh) crs - (1 - lunmade w) →
  lunmade w' = 0 →
  sh_counter sh' + batch_len * luncounted w' =
    sh_counter sh + batch_len * luncounted w + blen (lwrote rs w') →
  holds (world σ') (apply_updates (updates (log ++ lwrote rs w')) m0) → cheap σ' = cheap σ →
  lworker_ok σ' w' cs' → go_frame (cell_locs cs) σ σ' → NoDup (cell_locs cs') →
  (∀ l, l ∈ cell_locs cs' → l ∈ cell_locs cs ∨ gheap σ !! l = None) →
  let r' := LState m (<[i := w']> ws) sh' σ' (log ++ lwrote rs w') None in
  linv r' crs' ∧ lsteps r' crs' ≤ lsteps (LState m ws sh σ log None) crs - 1.
Proof.
  intros [Hp Hc Hh Ech _] Hw Hok Hnd Hcs Hp' Hst Hmade Hct Hh' Ec Hok' Hf Hnd' Hl r'.
  cbn [ls_log ls_shared ls_workers ls_mem ls_main] in *. split.
  - split; unfold lcontrol; cbn [r' ls_log ls_shared ls_workers ls_mem ls_main].
    + by rewrite list_fmap_insert.
    + rewrite (sum_fmap_insert _ _ _ w) by done. unfold blen in *. rewrite length_app. lia.
    + exact Hh'.
    + congruence.
    + by eapply lapart_step.
  - unfold lsteps, lcontrol. cbn [r' ls_workers ls_crash ls_main ls_shared].
    rewrite (sum_fmap_insert _ _ _ w), list_fmap_insert, Hst, Hmade by done.
    unfold lunmade. destruct (l_entries w); lia.
Qed.

Lemma linv_worker m ws sh σ log i w rs crs :
  linv (LState m ws sh σ log None) crs → ws !! i = Some w → active (l_worker w) →
  batch_draws rs →
  wpf (lnext fl goal g rs w sh) σ (λ '(w', sh') σ',
    let r' := LState m (<[i := w']> ws) sh' σ' (log ++ lwrote rs w') None in
    ∃ crs', linv r' crs' ∧ lsteps r' crs' ≤ lsteps (LState m ws sh σ log None) crs - 1)
  (stops_if_refused (accepted (world σ)) (updates rs)).
Proof.
  intros Hi Hw Ha [Hrs Hdr]. pose proof Hi as [Hp Hc Hh Ech (css & Hok & Hnd)].
  unfold lcontrol in *. cbn [ls_log ls_shared ls_workers ls_mem ls_main] in *.
  eapply Forall2_lookup_l in Hok as Hcs; [|exact Hw]. destruct Hcs as (cs & Hcs & Hokw).
  assert (∀ w', l_worker w' = l_worker w →
    <[i := l_worker w']> (l_worker <$> ws) = l_worker <$> ws) as Hsame.
  { intros w' E. rewrite list_insert_id; [done|]. by rewrite list_lookup_fmap, Hw, E. }
  assert (NoDup (cell_locs cs)) as Hsep.
  { rewrite (bind_split _ _ _ _ Hcs) in Hnd. apply NoDup_app in Hnd as (_ & _ & Hnd').
    by apply NoDup_app in Hnd' as (? & _ & _). }
  unfold lnext. unfold lworker_ok in Hokw. destruct (l_entries w) as [es|] eqn:Ees.
  - destruct Hokw as (-> & Hlen & Hat).
    destruct (worker_next goal (l_worker w) sh) as [[w' sh']|] eqn:En; cycle 1.
    { exfalso. apply Ha. unfold worker_next in En. destruct (w_phase (l_worker w)); try done.
      by destruct (f64_ltb _ _). }
    assert (∀ wrote, w_phase (l_worker w) = PWrote wrote → wrote = f64_of_Z batch_len) as Hwr.
    { eapply pinv_wrote; [exact Hp|]. apply (list_elem_of_fmap_2 l_worker).
      by eapply list_elem_of_lookup_2. }
    assert (0 ≤ sh_counter sh ≤ 2 ^ 60) as Hsh.
    { destruct Hp as [Hws Hcn _ _ Hn _]. cbn in *. rewrite Hcn.
      pose proof (counter_bound goal t Hshare Ht _ _ Hws Hn). lia. }
    destruct (lcount_next _ _ _ _ En Hwr Hsh) as [Hct Hwr']. cbv zeta beta in Hct.
    edestruct (pinv_step goal t Hshare Ht) as (crs' & Hp' & Hst); [exact Hp| |].
    { eapply (step_worker goal m (l_worker <$> ws) sh i); [by rewrite list_lookup_fmap, Hw|exact En]. }
    destruct (w_phase w') as [|wrote|wrote|] eqn:Ew'.
    2: { rewrite (Hwr' wrote eq_refl) in *. apply wpf_bind_stop.
      eapply (wp_writeBatch_library fl rs g holds accepted); [exact Hg|exact Hh|congruence|done..|].
      intros cs' σ' Hacc Hh' Ec Hf Ee Hl Hat' Hsep'. apply wpf_wp, wp_ret.
      assert (blen cs = batch_len) as -> by (unfold blen; rewrite Hlen; done).
      assert (Worker (w_written w') (PWrote (f64_of_Z batch_len)) = w') as Eqw
        by (rewrite <-Ew'; by destruct w').
      exists crs'. eapply (linv_next m ws sh σ log i w _ _ _ rs); try done; cbn [l_worker].
      - by rewrite Eqw.
      - rewrite Eqw, Hst. unfold lunmade. rewrite Ees. lia.
      - unfold luncounted, lwrote. cbn [l_worker w_phase]. unfold blen. rewrite Hrs.
        exact Hct.
      - unfold lwrote. cbn [l_worker w_phase]. by rewrite fmap_app, apply_updates_app.
      - unfold lworker_ok. cbn [l_entries]. split_and!; [|by rewrite <-Hlen, <-(length_fmap c_e cs), <-Ee, length_fmap|done].
        trans (PG <$> (c_e <$> cs)); [apply (list_fmap_compose c_e PG)|].
        rewrite <-Ee. symmetry. apply (list_fmap_compose c_e PG). }
    all: apply wpf_wp, wp_ret; exists crs';
      eapply (linv_next m ws sh σ log i w _ _ _ rs _ _ _ cs cs); try done; cbn [l_worker].
    all: try (by rewrite Hst; unfold lunmade; rewrite Ees; lia).
    all: try (unfold luncounted, lwrote; cbn [l_worker]; rewrite Ew';
      unfold blen; cbn [length]; lia).
    all: try (unfold lwrote; cbn [l_worker]; by rewrite Ew', app_nil_r).
    all: try (by intros l Hl; left).
    all: apply go_frame_refl.
  - destruct Hokw as [-> Ewk]. apply wpf_wp, wp_bind, (wp_new_entries _ Hvs).
    intros cs σ' Hlen Hgr Ec Ew Hat Hsep' Hl. apply wp_ret. exists crs.
    set (w' := LWorker _ _). assert (l_worker w' = l_worker w) as Ewk' by done.
    eapply (linv_next m ws sh σ log i w w' sh σ' rs _ _ _ [] cs); try done.
    + by rewrite Hsame.
    + rewrite Hsame by done. unfold lunmade. rewrite Ees. lia.
    + unfold luncounted, lwrote. rewrite Ewk', Ewk. cbn [w_phase]. unfold blen. cbn [length]. lia.
    + unfold lwrote. rewrite Ewk', Ewk, app_nil_r. by rewrite Ew.
    + split; [by apply subseteq_dom, Hgr|]. intros l o _ Ho. eapply lookup_weaken; [exact Ho|apply Hgr].
    + intros l Hin. right. by apply Hl.
Qed.

Lemma linv_step r r' crs :
  linv r crs → lstep fl goal g r r' →
  ∃ crs', linv r' crs' ∧ lsteps r' crs' ≤ lsteps r crs - 1 ∧ lcrash_ok r'.
Proof.
  intros Hi Hstep.
  destruct Hstep as [ws sh σ log Hlt|m ws sh σ log i w rs w' sh' σ' Hw Ha Hrs E
    |m ws sh σ log i w rs e Hw Ha Hrs E|ws sh σ log Hlen Hz].
  - destruct Hi as [Hp Hc Hh Ech (css & Hok & Hnd)]. unfold lcontrol in *.
    cbn [ls_log ls_shared ls_workers ls_mem ls_main] in *.
    edestruct (pinv_step goal t Hshare Ht) as (crs' & Hp' & Hst); [exact Hp| |].
    { apply (step_spawn goal (l_worker <$> ws)). by rewrite length_fmap. }
    exists crs'. split; [split|split; [|by left]]; unfold lcontrol;
      cbn [ls_log ls_shared ls_workers ls_mem ls_main].
    + by rewrite fmap_app.
    + rewrite fmap_app, sumZ_app. change (sumZ (luncounted <$> [LWorker (Worker (f64_of_Z 0) PLoop) None])) with 0.
      cbn [sh_counter]. lia.
    + exact Hh.
    + exact Ech.
    + exists (css ++ [[]]). rewrite bind_app. cbn. rewrite app_nil_r. split; [|exact Hnd].
      apply Forall2_app; [exact Hok|]. by repeat constructor.
    + unfold lsteps, lcontrol. cbn [ls_workers ls_crash ls_main ls_shared].
      rewrite !fmap_app, sumZ_app.
      change (sumZ (lunmade <$> [LWorker (Worker (f64_of_Z 0) PLoop) None])) with 1.
      cbn [fmap list_fmap l_worker] in *. lia.
  - pose proof (linv_worker _ _ _ _ _ _ _ _ _ Hi Hw Ha Hrs) as Hwp. unfold wpf in Hwp.
    rewrite E in Hwp. destruct Hwp as (crs' & Hi' & Hle). exists crs'. split_and!; [done..|by left].
  - pose proof (linv_worker _ _ _ _ _ _ _ _ _ Hi Hw Ha Hrs) as Hwp. unfold wpf in Hwp.
    rewrite E in Hwp. destruct Hwp as [Hacc ->]. exists crs. split_and!.
    + by destruct Hi.
    + unfold lsteps. cbn [ls_crash ls_workers]. unfold lcontrol. cbn. lia.
    + right. split; [done|]. by exists rs.
  - destruct Hi as [Hp Hc Hh Ech Hap]. unfold lcontrol in *.
    cbn [ls_log ls_shared ls_workers ls_mem ls_main] in *.
    edestruct (pinv_step goal t Hshare Ht) as (crs' & Hp' & Hst); [exact Hp| |].
    { apply (step_wait goal (l_worker <$> ws)); [by rewrite length_fmap|done]. }
    exists crs'. split; [by split|split; [|by left]]. unfold lsteps, lcontrol.
    cbn [ls_workers ls_crash ls_main ls_shared]. lia.
Qed.

Lemma lsteps_nonneg r crs : linv r crs → 0 ≤ lsteps r crs.
Proof.
  intros [Hp _ _ _ _]. pose proof (rounds_bound goal t Hshare Ht) as [? _].
  destruct Hp as [Hw _ _ _ Hn _]. pose proof (sum_left_nonneg goal _ _ Hw) as Hleft.
  assert (0 ≤ sumZ (lunmade <$> ls_workers r)).
  { apply sum_fmap_nonneg, Forall_forall. intros w _. unfold lunmade. by destruct (l_entries w). }
  unfold lsteps, psteps. destruct (p_main _), (ls_crash r); nia.
Qed.

Lemma linv_nsteps k r r' crs :
  linv r crs → lcrash_ok r → nsteps (lstep fl goal g) k r r' →
  ∃ crs', linv r' crs' ∧ Z.of_nat k ≤ lsteps r crs - lsteps r' crs' ∧ lcrash_ok r'.
Proof.
  intros Hi Hcr Hk. revert crs Hi Hcr. induction Hk as [r|k r1 r2 r3 H12 _ IH]; intros crs Hi Hcr.
  - exists crs. split_and!; [done|lia|done].
  - destruct (linv_step _ _ _ Hi H12) as (crs2 & Hi2 & Hs2 & Hcr2).
    destruct (IH crs2 Hi2 Hcr2) as (crs3 & Hi3 & Hs3 & Hcr3). exists crs3. split_and!; [done|lia|done].
Qed.

Lemma linv_init : holds (world σ0) m0 → linv (linit σ0) [].
Proof.
  intros Hm. split; [apply pinv_init|done|exact Hm|done|]. exists []. split; constructor.
Qed.

Lemma batch_draws_exist : batch_draws (replicate batch_size (demo_draw 0)).
Proof.
  split; [apply length_replicate|]. apply Forall_replicate. apply demo_draw_ok. lia.
Qed.

(** Nothing gets stuck before [main] has waited. *)
Lemma linv_progress r crs :
  linv r crs → ls_crash r = None → ls_main r = MSpawning → ∃ r', lstep fl goal g r r'.
Proof.
  intros [Hp _ _ _ _] Hcr Hm. destruct r as [m ws sh σ log c]. cbn in Hcr, Hm. subst m c.
  destruct (decide (length ws < num_workers)%nat) as [Hlt|Hge]; [eexists; by apply lstep_spawn|].
  assert (length ws = num_workers) as Hlen.
  { destruct Hp as [_ _ _ _ Hn _]. unfold lcontrol in Hn. cbn in Hn. rewrite length_fmap in Hn. lia. }
  destruct (filter active (l_worker <$> ws)) as [|w0 l] eqn:Ef.
  - eexists. apply lstep_wait; [done|]. destruct Hp as [_ _ _ Hwg _ _]. unfold lcontrol in Hwg.
    cbn in Hwg. by rewrite Hwg, Ef.
  - assert (w0 ∈ filter active (l_worker <$> ws)) as Hin by (rewrite Ef; left).
    apply list_elem_of_filter in Hin as [Ha (w & -> & [i Hw]%list_elem_of_lookup)%list_elem_of_fmap].
    pose proof batch_draws_exist as Hrs.
    destruct (lnext fl goal g (replicate batch_size (demo_draw 0)) w sh σ) as [[w' sh'] σ'|e] eqn:E.
    + eexists. by eapply lstep_worker.
    + eexists. by eapply lstep_crash.
Qed.
End invariant.

Section theorems.
Context `{StoresLaws, Libc, Arch}.
Context (fl : flags) (n : Z).

(** The flags of a run for [n] keys. *)
Record flags_ok : Prop := {
  fo_keys : f64_mul (numKeys fl) mil = f64_of_Z n;
  fo_n : 0 < n < 2 ^ 53;
  fo_value : 0 ≤ valueSize fl < 2 ^ 63;
}.

Abbreviation goal := (share (f64_mul (numKeys fl) mil)).

(** What holds of every execution. *)
Lemma library_run g holds accepted σ m k r :
  flags_ok → open_library g holds accepted → holds (world σ) m →
  nsteps (lstep fl goal g) k (linit σ) r →
  ∃ crs, linv fl holds goal m σ r crs ∧ lcrash_ok fl accepted r ∧
    Z.of_nat k + lsteps goal r crs ≤ 2 * (32 * (3 * ((n + 31999) / 32000) + 2) + 1) + 1 ∧
    0 ≤ lsteps goal r crs ∧
    (ls_crash r = None → ls_main r = MSpawning → ∃ r', lstep fl goal g r r').
Proof.
  intros [Hk Hn Hv] Hg Hm Hr.
  assert (key_space fl ≠ 0) as Hks by (rewrite (key_space_of_Z fl n Hk Hn); lia).
  assert (goal = Fin (n * 2 ^ 1069)) as Hshare by (rewrite Hk; apply share_of_Z; lia).
  assert (n * 2 ^ 1069 ≤ (2 ^ 53 - batch_len) * one) as Ht by (apply share_of_Z_bound; lia).
  assert (linv fl holds goal m σ (linit σ) []) as Hi0 by by apply linv_init.
  destruct (linv_nsteps fl g holds accepted Hg Hks Hv goal _ Hshare Ht m σ k _ r [] Hi0)
    as (crs & Hi & Hle & Hcr); [by left|exact Hr|].
  exists crs. split_and!; [exact Hi|exact Hcr| | |].
  - assert (lsteps goal (linit σ) [] = 2 * (32 * (3 * ((n + 31999) / 32000) + 2) + 1) + 1) as E;
      [|lia].
    unfold lsteps, linit, lcontrol, psteps. cbn [ls_main ls_workers ls_shared ls_crash p_main p_workers].
    rewrite Hk, rounds_of_Z by lia. unfold num_workers, sum_left.
    cbn [fmap list_fmap zip_with sumZ foldr length]. lia.
  - by eapply lsteps_nonneg.
  - by eapply linv_progress.
Qed.

(** C5: populate with badger, leveldb, bolt or lmdb, however its 32 goroutines interleave:
    at any time the store holds its old contents with exactly the batches written so
    far applied, in their order, and no C memory has been taken; the only way to fail
    is [y.Check], after a batch that the store cannot take in one transaction, because
    the library limits transactions or, with lmdb, because the map is full by then;
    an execution that has not failed goes on until [main] has waited, after at most
    the number of steps given; and then the counter printed is the number of updates
    applied, at least the number of keys asked for and less than 32000 above it. *)
Theorem populate_fills_library g holds accepted σ m k r :
  flags_ok → open_library g holds accepted → holds (world σ) m →
  nsteps (lstep fl goal g) k (linit σ) r →
  holds (world (ls_mem r)) (apply_updates (draw_update fl <$> ls_log r) m) ∧
  cheap (ls_mem r) = cheap σ ∧
  (ls_crash r = None ∨
   ls_crash r = Some (Fatal "y.Check") ∧
     ∃ rs, batch_draws rs ∧ accepted (world (ls_mem r)) (draw_update fl <$> rs) = false) ∧
  Z.of_nat k ≤ 2 * (32 * (3 * ((n + 31999) / 32000) + 2) + 1) + 1 ∧
  (ls_crash r = None → ls_main r = MSpawning → ∃ r', lstep fl goal g r r') ∧
  (ls_main r = MWaited →
     blen (ls_log r) = sh_counter (ls_shared r) ∧ n ≤ sh_counter (ls_shared r) < n + 32000).
Proof.
  intros Hfl Hg Hm Hr. pose proof Hfl as [Hk Hn _].
  destruct (library_run g holds accepted σ m k r Hfl Hg Hm Hr)
    as (crs & [Hp Hc Hh Ech _] & Hcr & Hle & Hnn & Hgo).
  split_and!; [exact Hh|exact Ech|exact Hcr|lia|exact Hgo|]. intros Em.
  destruct Hp as [Hws Hcn _ _ _ Hmain]. unfold lcontrol in *. cbn in Hmain, Hws, Hcn.
  destruct (Hmain Em) as [Hlen Hf]. pose proof Hws as Hws'.
  apply done_sums in Hws' as [E1 _]; [|done]. rewrite Hlen, Hk, rounds_of_Z in E1 by lia.
  assert (sumZ (luncounted <$> ls_workers r) = 0) as Ez.
  { apply sum_fmap_zero, Forall_forall. intros w Hw. unfold luncounted.
    destruct (w_phase (l_worker w)) eqn:Ew; try done. exfalso.
    assert (l_worker w ∈ filter active (l_worker <$> ls_workers r)) as Hin.
    { apply list_elem_of_filter. split; [|by apply list_elem_of_fmap_2]. unfold active. by rewrite Ew. }
    rewrite Hf in Hin. by apply elem_of_nil in Hin. }
  rewrite Ez in Hc. rewrite E1 in Hcn.
  pose proof (Z.div_mod (n + 31999) 32000). pose proof (Z.mod_pos_bound (n + 31999) 32000).
  unfold num_workers, batch_len in *. lia.
Qed.
End theorems.

(** ** A run on leveldb *)

#[local] Existing Instance amd64.
#[local] Existing Instance mem_stores.

Definition demo_leveldb : globals := Globals None Nil None (Some 1%positive) None tt.

Lemma demo_flags_ok : flags_ok demo_flags 1000000.
Proof. split; [vm_compute; reflexivity|lia|simpl; lia]. Qed.

Lemma demo_leveldb_open : open_library demo_leveldb (λ w, t_holds w 1%positive) (λ _ _, true).
Proof. exact (@open_leveldb_db _ _ _ mem_stores_view 1%positive tt). Qed.

#[local] Instance waited_decision (r : lstate) : Decision (ls_main r = MWaited).
Proof. destruct (ls_main r); [by right|by left]. Defined.

Lemma demo_library_ends :
  ∃ r, rtc (lstep demo_flags (share (f64_mul (numKeys demo_flags) mil)) demo_leveldb)
         (linit sigma_kvs) r ∧ ls_main r = MWaited.
Proof.
  apply (run_to_end _ _ (2 * (32 * (3 * ((1000000 + 31999) / 32000) + 2) + 1) + 1)).
  intros k r Hr. destruct (library_run demo_flags 1000000 demo_leveldb _ _ sigma_kvs ∅ k r
    demo_flags_ok demo_leveldb_open eq_refl Hr) as (crs & _ & Hcr & Hle & Hnn & Hgo).
  split; [lia|]. intros Hm. apply Hgo.
  - destruct Hcr as [E|(_ & rs & _ & E)]; [exact E|discriminate E].
  - destruct (ls_main r); [reflexivity|]. by destruct Hm.
Qed.

(** A million keys in leveldb. *)
Lemma populate_fills_library_witness :
  ∃ k r, nsteps (lstep demo_flags (share (f64_mul (numKeys demo_flags) mil)) demo_leveldb) k
           (linit sigma_kvs) r ∧
    ls_crash r = None ∧ ls_main r = MWaited ∧
    t_holds (world (ls_mem r)) 1%positive (apply_updates (draw_update demo_flags <$> ls_log r) ∅) ∧
    1000000 ≤ blen (ls_log r) < 1032000.
Proof.
  destruct demo_library_ends as (r & [k Hk]%rtc_nsteps & Hm). exists k, r.
  destruct (populate_fills_library demo_flags 1000000 demo_leveldb _ _ sigma_kvs ∅ k r
    demo_flags_ok demo_leveldb_open eq_refl Hk) as (Hh & _ & Hcr & _ & _ & Hend).
  destruct (Hend Hm) as [Hlen Hcount].
  split; [exact Hk|]. split.
  { destruct Hcr as [E|(_ & rs & _ & E)]; [exact E|discriminate E]. }
  split; [exact Hm|]. split; [exact Hh|]. rewrite Hlen. exact Hcount.
Defined.
