(* ===== verification/LmdbBench.v ===== *)
(** * The benchmark of lmdb's transactions: lmdb_txn_bench_test.go

    The benchmark writes the same 1000 entries over and over, in one transaction of lmdb
    or in a subtransaction of one.  The calls are those of [Populate.Stores] and
    [PopulateMain.Openers]; [txn.Sub] is one more.  [lmdb_batches_agree]: the two ways
    leave the same in the database. *)

From S2P Require Import Prelude Rocks MemRocks Memory Files Rdb Strconv Store StoreSpec Float64 Populate PopulateMain PopulateSpec Libraries MemStores OtherStores Scenario.

(** [txn.Sub(op)]. *)
Class LmdbSub `{Stores} := {
  lmdb_Sub : lmdb_Txn → (lmdb_Txn → M st error) → M st error;
}.

(** Documented: the subtransaction sees and adds to what the transaction has; it is
    committed if the function returns no error, and any error is the result.  It has
    the limits and the map of its transaction. *)
Class LmdbSubLaws `{RocksView, !Stores, !StoresView, !LmdbSub} : Prop := {
  law_lmdb_Sub σ txn env dbi m acc us vs f :
    lmdb_tx σ txn env dbi m acc us →
    (∀ sub σ1, lib_step σ σ1 → lmdb_tx σ1 sub env dbi m acc us →
       wp (f sub) σ1 (λ err σ2, lib_step σ1 σ2 ∧
         match err with None => lmdb_tx σ2 sub env dbi m acc vs | Some _ => acc vs = false end)) →
    wp (lmdb_Sub txn f) σ (λ err σ', lib_step σ σ' ∧
      match err with None => lmdb_tx σ' txn env dbi m acc vs | Some _ => acc vs = false end);
}.

Section bench.
Context `{RocksDB, Libc, Arch, !OS, !Stores, !Openers, !LmdbSub}.

Definition getLmdbEnv (dir : bytes) : M st lmdb_Env :=
  os_RemoveAll (dir ++ bs "/lmdb");;
  os_MkdirAll (dir ++ bs "/lmdb") 511;;
  '(env, err) ← lmdb_NewEnv;
  check_error "y.Check" err;;
  env ← of_option PanicNil env;
  err ← lmdb_SetMaxDBs env 1;
  check_error "y.Check" err;;
  err ← lmdb_SetMapSize env (Z.shiftl 1 36);
  check_error "y.Check" err;;
  err ← lmdb_Open env (dir ++ bs "/lmdb") 0 511;
  check_error "y.Check" err;;
  mret env.

Definition writeEntries (dbi : lmdb_DBI) (txn : lmdb_Txn) (entries : list ptr) : M st error :=
  put_until_error (λ k v, lmdb_Put txn dbi k v 0) entries.

Definition writeSimpleBatched (env : lmdb_Env) (entries : list ptr) (dbi : lmdb_DBI) : M st unit :=
  err ← lmdb_Update env (λ txn, writeEntries dbi txn entries);
  check_error "y.Check" err.

Definition writeTxnBatched (env : lmdb_Env) (entries : list ptr) (dbi : lmdb_DBI) : M st unit :=
  err ← lmdb_Update env (λ txn, lmdb_Sub txn (λ txn, writeEntries dbi txn entries));
  check_error "y.Check" err.

(** The rounds of the two parts of the benchmark: [b.N] of each. *)
Definition BenchmarkLmdbBatch (dir : bytes) (valueSize : Z) (simple txns : nat) : M st unit :=
  entries ← new_entries valueSize 1000;
  env ← getLmdbEnv dir;
  '(dbi, err) ← lmdb_Update_var env lmdb_zeroDBI (λ txn _, lmdb_CreateDBI txn (bs "bench"));
  check_error "y.Check" err;;
  for_each (λ _, writeSimpleBatched env entries dbi) (seq 0 simple);;
  for_each (λ _, writeTxnBatched env entries dbi) (seq 0 txns);;
  lmdb_Close env;; mret tt.
End bench.

(** ** The two ways of writing *)

Section spec.
Context `{StoresLaws, Libc, Arch, !LmdbSub, !LmdbSubLaws}.
(** The size of the values, and the key and the value made of a draw. *)
Context (vsz : Z) (kf vf : draw → bytes).

Abbreviation updates rs := (put_of kf vf <$> rs).
Abbreviation ptrs cs := ((λ c, PG (c_e c)) <$> cs).
#[local] Abbreviation ready := (ready vsz kf vf).

(** The puts in a transaction, whichever it is. *)
Lemma wp_writeEntries σ txn env dbi m acc cs rs :
  lmdb_tx σ txn env dbi m acc [] → ready σ cs rs →
  wp (writeEntries dbi txn (ptrs cs)) σ (λ err σ', lib_step σ σ' ∧
    match err with
    | None => lmdb_tx σ' txn env dbi m acc (updates rs)
    | Some _ => acc (updates rs) = false
    end).
Proof.
  intros Ht Hr. unfold writeEntries.
  apply (wp_put_until vsz kf vf acc (λ σ us, lmdb_tx σ txn env dbi m acc us) _ cs rs []);
    [|exact Hr|exact Ht].
  intros σ2 us k v kb vb Ht2 _ _ Hk Hv. by apply law_lmdb_Put.
Qed.

(** An update whose function does what [writeEntries] does. *)
Lemma wp_update_batch σ env dbi m cs rs f :
  lmdb_holds (world σ) env dbi m → ready σ cs rs →
  let acc := lmdb_accepts (world σ) env dbi in
  (∀ txn σ1, lmdb_tx σ1 txn env dbi m acc [] → ready σ1 cs rs →
     wp (f txn) σ1 (λ err σ2, lib_step σ1 σ2 ∧
       match err with
       | None => lmdb_tx σ2 txn env dbi m acc (updates rs)
       | Some _ => acc (updates rs) = false
       end)) →
  wpf (err ← lmdb_Update env f; check_error "y.Check" err) σ (λ _ σ',
    acc (updates rs) = true ∧
    lib_step σ σ' ∧ lmdb_holds (world σ') env dbi (apply_updates (updates rs) m))
    (stops_if_refused acc (updates rs)).
Proof.
  intros Hm Hr acc Hf. apply (wpf_update_check acc (updates rs)).
  eapply wp_mono; [apply (law_lmdb_Update σ env dbi m (updates rs)); [exact Hm|]|].
  - intros txn σ1 Hs1 Ht1. apply Hf; [exact Ht1|by eapply ready_step].
  - intros err σ' [Hs Hres]. fold acc in Hres. destruct (acc _); [|done]. by destruct Hres.
Qed.

(** A batch in one transaction and a batch in a subtransaction apply the same updates;
    or both stop the program, when lmdb cannot take all of them. *)
Theorem lmdb_batches_agree σ env dbi m cs rs :
  lmdb_holds (world σ) env dbi m → ready σ cs rs →
  let acc := lmdb_accepts (world σ) env dbi in
  let writes (f : lmdb_Env → list ptr → lmdb_DBI → M st unit) :=
    wpf (f env (ptrs cs) dbi) σ (λ _ σ', acc (updates rs) = true ∧ lib_step σ σ' ∧
      lmdb_holds (world σ') env dbi (apply_updates (updates rs) m))
    (λ e, acc (updates rs) = false ∧ e = Fatal "y.Check") in
  writes writeSimpleBatched ∧ writes writeTxnBatched.
Proof.
  intros Hm Hr. cbn zeta. split; apply (wp_update_batch _ _ _ _ cs rs); try done; intros txn σ1 Ht1 Hr1.
  - by apply (wp_writeEntries _ _ _ _ _ _ cs rs).
  - eapply law_lmdb_Sub; [exact Ht1|]. intros sub σ2 Hs2 Ht2.
    apply (wp_writeEntries _ _ _ _ _ _ cs rs); [exact Ht2|by eapply ready_step].
Qed.
End spec.

(** ** Subtransactions in memory *)

(** A transaction of its own, that starts with the updates of [t] and replaces them
    when it is committed. *)
Definition t_sub (t : handle) (f : handle → M st error) : M st error :=
  x ← gets (λ σ, default (1%positive, []) (w_txns (world σ) !! t));
  sub ← t_begin x.1;
  modS (on_world (m_on_txns <[sub := x]>));;
  err ← f sub;
  match err with
  | Some _ => mret err
  | None =>
      us ← gets (λ σ, t_pending (world σ) sub);
      modS (on_world (m_on_txns <[t := (x.1, us)]>));;
      mret None
  end.

#[local] Existing Instance mem_stores.

#[export] Instance mem_sub : LmdbSub := {| lmdb_Sub := t_sub |}.

Lemma wp_t_sub σ t db m us f (Q : error → st → Prop) :
  t_tx σ t db m us →
  (∀ sub σ1, lib_step σ σ1 → t_tx σ1 sub db m us →
     wp (f sub) σ1 (λ err σ2, lib_step σ1 σ2 ∧
       match err with
       | Some e => lib_step σ σ2 → Q (Some e) σ2
       | None => ∃ vs, t_tx σ2 sub db m vs ∧
           ∀ σ3, lib_step σ σ3 → t_tx σ3 t db m vs → Q None σ3
       end)) →
  wp (t_sub t f) σ Q.
Proof.
  intros [Ht Hm] Hf. unfold t_sub. apply wp_bind, wp_gets. rewrite Ht. cbn [default id fst].
  apply wp_bind. eapply wp_t_begin; [exact Hm|]. intros sub σ1 Hs1 [Ht1 Hm1].
  apply wp_bind, wp_modS, wp_bind. eapply wp_mono.
  { apply Hf; [|split; [apply lookup_insert_eq|exact Hm1]]. etrans; [exact Hs1|by split]. }
  assert (∀ σ2, lib_step (on_world (m_on_txns <[sub := (db, us)]>) σ1) σ2 → lib_step σ σ2) as Hall.
  { intros σ2 Hs2. etrans; [exact Hs1|]. etrans; [|exact Hs2]. by split. }
  intros [e|] σ2 [Hs2 HQ]; [by apply wp_ret, HQ, Hall|]. destruct HQ as (vs & [Ht2 Hm2] & HQ).
  apply wp_bind, wp_gets. unfold t_pending. rewrite Ht2. cbn [from_option snd].
  apply wp_bind, wp_modS, wp_ret. apply HQ; [|split; [apply lookup_insert_eq|exact Hm2]].
  etrans; [by apply Hall|by split].
Qed.

#[export] Instance mem_sub_laws : LmdbSubLaws.
Proof.
  split; cbn. intros σ t env _ m acc us vs f [Ht ->] Hf. eapply wp_t_sub; [exact Ht|].
  intros sub σ1 Hs1 Ht1. eapply wp_mono; [by apply Hf|]. intros [e|] σ2 [Hs2 Hres].
  - by split.
  - destruct Hres as [Ht2 _]. split; [exact Hs2|]. exists vs. by split.
Qed.
