(* ===== verification/RocksCalls.v ===== *)
(** * What the rocks side of a program leaves alone

    The code of packages rdb and store changes the world by calls into RocksDB only,
    and writes no byte array of the Go heap.  [leaves m] says so of the computation
    [m], for every engine, without a law; it is proved along the structure of [m]. *)

From S2P Require Import Prelude Rocks Memory Rdbc Rdb RdbSpec Strconv Store.
From stdpp Require Import relations.
#[local] Open Scope Z_scope.

Lemma rocks_call_mono `{RocksDB} (P P' : bytes → Prop) w w' :
  (∀ d, P d → P' d) → rocks_call P w w' → rocks_call P' w w'.
Proof. intros HP. destruct 1; eauto with calls. Qed.

Section leaves.
Context `{RocksDB}.
(** The directories databases may be opened in. *)
Context (P : bytes → Prop).

(** The byte arrays are as they were. *)
Definition bytes_kept (σ σ' : st) : Prop :=
  ∀ l a, gheap σ !! l = Some (GBytes a) → gheap σ' !! l = Some (GBytes a).

Definition aside (σ σ' : st) : Prop :=
  rtc (rocks_call P) (world σ) (world σ') ∧ bytes_kept σ σ'.

#[export] Instance aside_preorder : PreOrder aside.
Proof.
  split.
  - intros σ. split; [done|]. by intros l a.
  - intros σ1 σ2 σ3 [? HA] [? HB]. split; [by etrans|]. intros l a Hl. by apply HB, HA.
Qed.

Definition leaves {A} (m : M st A) : Prop :=
  ∀ σ a σ', m σ = Ret a σ' → aside σ σ'.

Lemma leaves_ret {A} (a : A) : leaves (mret a).
Proof. by intros σ ? ? [= <- <-]. Qed.

Lemma leaves_raise {A} f : leaves (raise f : M st A).
Proof. intros σ a σ' E. discriminate E. Qed.

Lemma leaves_bind {A B} (m : M st A) (f : A → M st B) :
  leaves m → (∀ a, leaves (f a)) → leaves (m ≫= f).
Proof.
  intros Hm Hf σ b σ' (a & σ1 & Em & E)%bind_ret_inv. etrans; [by eapply Hm|by eapply Hf].
Qed.

Lemma leaves_gets {A} (f : st → A) : leaves (gets f).
Proof. by intros σ ? ? [= <- <-]. Qed.

Lemma leaves_of_option {A} f (o : option A) : leaves (of_option f o : M st A).
Proof. destruct o; [apply leaves_ret|apply leaves_raise]. Qed.

(** A load changes nothing. *)
Lemma go_load_same {A} (as_ : gobj → option A) p σ a σ' : go_load as_ p σ = Ret a σ' → σ' = σ.
Proof.
  unfold go_load. destruct p; try done. destruct (gheap σ !! l ≫= as_); [|done]. by intros [= _ <-].
Qed.

Lemma c_load_same {A} (as_ : cobj → option A) p σ a σ' : c_load as_ p σ = Ret a σ' → σ' = σ.
Proof.
  unfold c_load. destruct p; try done. destruct (cheap σ !! l ≫= as_); [|done]. by intros [= _ <-].
Qed.

(** ** The primitives *)

Lemma leaves_go_load {A} (as_ : gobj → option A) p : leaves (go_load as_ p).
Proof. by intros σ a σ' ->%go_load_same. Qed.

Lemma leaves_c_load {A} (as_ : cobj → option A) p : leaves (c_load as_ p).
Proof. by intros σ a σ' ->%c_load_same. Qed.

Lemma aside_cheap σ f : aside σ (on_cheap f σ).
Proof. split; [done|]. by intros l a. Qed.

Lemma leaves_c_new o : leaves (c_new o).
Proof. intros σ a σ' [= <- <-]. apply aside_cheap. Qed.

Lemma leaves_c_store p o : leaves (c_store p o).
Proof.
  intros σ a σ' E. unfold c_store in E. destruct p; try discriminate E.
  destruct (cheap σ !! l); [|discriminate E]. injection E as _ <-. apply aside_cheap.
Qed.

Lemma leaves_c_delete {A} (as_ : cobj → option A) p : leaves (c_delete as_ p).
Proof.
  intros σ a σ' E. unfold c_delete in E. destruct p; try discriminate E.
  - by injection E as _ <-.
  - destruct (cheap σ !! l ≫= as_); [|discriminate E]. injection E as _ <-. apply aside_cheap.
Qed.

Lemma leaves_go_new o : leaves (go_new o).
Proof.
  intros σ a σ' [= <- <-]. split; [done|]. intros l b Hl. cbn. rewrite lookup_insert_ne; [done|].
  intros <-. pose proof (is_fresh (dom (gheap σ))) as Hn. by apply not_elem_of_dom in Hn; rewrite Hn in Hl.
Qed.

Lemma leaves_engine {A} (f : World → A * World) :
  (∀ w, rocks_call P w (f w).2) → leaves (engine f).
Proof.
  intros Hf σ a σ' E. unfold engine in E. pose proof (Hf (world σ)) as Hw.
  destruct (f (world σ)) as [x w]. injection E as _ <-. split; [by apply rtc_once|]. by intros l b.
Qed.

Lemma leaves_engine_ (f : World → World) : (∀ w, rocks_call P w (f w)) → leaves (engine_ f).
Proof. intros Hf σ a σ' [= _ <-]. split; [by apply rtc_once|]. by intros l b. Qed.

Lemma leaves_engine_defined what (f : World → option World) :
  (∀ w w', f w = Some w' → rocks_call P w w') → leaves (engine_defined what f).
Proof.
  intros Hf σ a σ' E. unfold engine_defined in E. pose proof (Hf (world σ)) as Hw.
  destruct (f (world σ)) as [w|]; [|discriminate E]. injection E as _ <-.
  split; [by apply rtc_once, Hw|]. by intros l b.
Qed.

Lemma leaves_engine_get {A} (f : World → A) : leaves (engine_get f).
Proof. apply leaves_gets. Qed.

(** An object that is replaced after it was read, by one that is no byte array. *)
Lemma leaves_replace {A B} (as_ : gobj → option A) p o (m : A → M st B) :
  (∀ a, leaves (m a)) → (∀ b, as_ (GBytes b) = None) →
  (∀ a σ b σ', m a σ = Ret b σ' → gheap σ' = gheap σ) →
  leaves (a ← go_load as_ p; m a;; go_store p o).
Proof.
  intros Hm Has Hg σ u σ' E. unfold mbind, M_bind in E. unfold go_load in E.
  destruct p as [|l| |]; try discriminate E.
  destruct (gheap σ !! l) as [x|] eqn:Hl; [|discriminate E]. cbn in E.
  destruct (as_ x) as [a|] eqn:Ex; [|discriminate E].
  destruct (m a σ) as [b σ1|] eqn:Em; [|discriminate E].
  pose proof (Hg _ _ _ _ Em) as Eg. apply Hm in Em. etrans; [exact Em|]. unfold go_store in E.
  rewrite Eg, Hl in E. injection E as _ <-. split; [done|]. intros l' a' Hl'. cbn. rewrite Eg in *.
  rewrite lookup_insert_ne; [done|]. intros <-. rewrite Hl in Hl'. injection Hl' as ->.
  by rewrite Has in Ex.
Qed.

(** The same, with the computation after the assignment. *)
Lemma leaves_update {A B} (as_ : gobj → option A) p o (k : A → M st B) :
  (∀ b, as_ (GBytes b) = None) → (∀ a, leaves (k a)) →
  leaves (a ← go_load as_ p; go_store p (o a);; k a).
Proof.
  intros Has Hk σ u σ' E. unfold mbind, M_bind in E. unfold go_load in E.
  destruct p as [|l| |]; try discriminate E.
  destruct (gheap σ !! l) as [x|] eqn:Hl; [|discriminate E]. cbn in E.
  destruct (as_ x) as [a|] eqn:Ex; [|discriminate E]. unfold go_store in E.
  rewrite Hl in E. cbn in E. apply Hk in E. etrans; [|exact E]. split; [done|].
  intros l' b Hl'. cbn. rewrite lookup_insert_ne; [done|]. intros <-. rewrite Hl in Hl'.
  injection Hl' as ->. by rewrite Has in Ex.
Qed.

Lemma leaves_assign {A} (as_ : gobj → option A) p o :
  (∀ b, as_ (GBytes b) = None) → leaves (a ← go_load as_ p; go_store p (o a)).
Proof.
  intros Has σ u σ' E. eapply (leaves_update as_ p o (λ _, mret tt) Has (λ _, leaves_ret tt)).
  unfold mbind, M_bind in *. destruct (go_load as_ p σ) as [a σ1|]; [|exact E].
  destruct (go_store p (o a) σ1) as [[] σ2|]; [|discriminate E]. exact E.
Qed.

Lemma leaves_go {A} (m : M st A) σ a σ' : leaves m → m σ = Ret a σ' → aside σ σ'.
Proof. intros Hm. apply Hm. Qed.

(** A computation that runs, and what it leaves alone. *)
Lemma wp_leaves {A} (m : M st A) σ (Q : A → st → Prop) :
  leaves m → wp m σ (λ a σ', aside σ σ' → Q a σ') → wp m σ Q.
Proof. unfold wp. intros Hm HQ. destruct (m σ) as [a σ'|] eqn:E; [|done]. by eapply HQ, Hm. Qed.
End leaves.

Create HintDb leaves.
#[export] Hint Resolve leaves_ret leaves_raise leaves_gets leaves_of_option leaves_go_load
  leaves_c_load leaves_c_new leaves_c_store leaves_c_delete leaves_go_new
  leaves_engine_get : leaves.

(** Goes through a computation; what is not a primitive is found among the hints, or
    left. *)
Ltac leaves :=
  repeat first
    [ progress intros
    | solve [eauto with leaves]
    | apply leaves_engine; solve [auto with calls]
    | apply leaves_engine_; solve [auto with calls]
    | apply leaves_engine_defined; solve [eauto with calls]
    | apply leaves_update; [done|]
    | apply leaves_assign; done
    | lazymatch goal with |- leaves _ (_ ≫= _) => apply leaves_bind end
    | case_match ].

(** ** The calls of the packages rdb and store that rw-bench makes *)

Section calls.
Context `{RocksDB, Libc} (P : bytes → Prop).

Lemma leaves_SaveError e s : leaves P (SaveError e s).
Proof. unfold SaveError, strdup, c_free. leaves. Qed.
#[local] Hint Resolve leaves_SaveError : leaves.

Lemma leaves_c_string p : leaves P (c_string p).
Proof. unfold c_string. leaves. Qed.
#[local] Hint Resolve leaves_c_string : leaves.

Lemma leaves_take_error e : leaves P (take_error e).
Proof. unfold take_error, C_GoString, c_free. leaves. Qed.
#[local] Hint Resolve leaves_take_error : leaves.

(** Opening a store. *)

Lemma leaves_upd_Store s f : leaves P (upd_Store s f).
Proof. unfold upd_Store. leaves. Qed.
#[local] Hint Resolve leaves_upd_Store : leaves.

Lemma leaves_set_bbto p f : leaves P (set_bbto p f).
Proof. unfold set_bbto. leaves. Qed.
#[local] Hint Resolve leaves_set_bbto : leaves.

Lemma leaves_release_policy policy shared : leaves P (release_policy policy shared).
Proof. unfold release_policy. leaves. Qed.
#[local] Hint Resolve leaves_release_policy : leaves.

Lemma leaves_SetFilterPolicy p fp : leaves P (BlockBasedTableOptions_SetFilterPolicy p fp).
Proof.
  unfold BlockBasedTableOptions_SetFilterPolicy, registerFilterPolicy, rdbc_filterpolicy_create, rdb_filterpolicy_create,
    rdb_block_based_options_set_filter_policy.
  apply leaves_bind; [|leaves]. destruct fp; leaves. intros σ a σ' [= _ <-].
  split; [done|]. by intros l b.
Qed.
#[local] Hint Resolve leaves_SetFilterPolicy : leaves.

Lemma leaves_setOpts s : leaves P (Store_setOpts s).
Proof.
  unfold Store_setOpts, NewDefaultOptions, rdb_options_create, NewNativeOptions,
    NewDefaultBlockBasedTableOptions, rdb_block_based_options_create,
    NewNativeBlockBasedTableOptions, Options_SetBlockBasedTableFactory,
    rdb_options_set_block_based_table_factory, Options_SetCreateIfMissing,
    rdb_options_set_create_if_missing, NewBloomFilter, rdb_filterpolicy_create_bloom,
    rdb_filterpolicy_create_bloom_format, NewDefaultReadOptions, rdb_readoptions_create,
    NewNativeReadOptions, NewDefaultWriteOptions, rdb_writeoptions_create,
    NewNativeWriteOptions, WriteOptions_SetSync, rdb_writeoptions_set_sync.
  leaves.
Qed.
#[local] Hint Resolve leaves_setOpts : leaves.

(** The directory is the C string the binding makes of the name. *)
Lemma leaves_OpenDb opts name : P (c_str name) → leaves P (OpenDb opts name).
Proof.
  intros HP σ r σ' (p & σ1 & E1 & E)%bind_ret_inv.
  injection E1 as <- <-. set (l := fresh _) in E. set (σ1 := on_cheap _ σ) in E.
  assert (cheap σ1 !! l = Some (CBytes (name ++ [NUL]))) as Hl by apply lookup_insert_eq.
  trans σ1; [apply aside_cheap|]. clearbody σ1 l.
  assert (c_string (PC l) σ1 = Ret (c_str name) σ1) as Es.
  { unfold c_string. erewrite bind_ret; [|by eapply c_at_load]. by rewrite until_nul_terminated. }
  apply bind_ret_inv in E as (o & ? & ->%go_load_same & E).
  apply bind_ret_inv in E as ([db e] & σ2 & E2 & E).
  trans σ2; [clear E|revert E; apply leaves_go; unfold c_free; leaves].
  apply bind_ret_inv in E2 as (ro & ? & ->%c_load_same & E2). revert E2.
  rewrite (bind_ret _ _ _ _ _ Es). apply leaves_go. leaves.
Qed.
#[local] Hint Resolve leaves_OpenDb : leaves.

Lemma leaves_NewStore d : P (c_str d) → leaves P (NewStore d).
Proof. intros HP. unfold NewStore, new_Store, open_into. leaves. Qed.

(** The use of a store. *)

Lemma leaves_Store_NewWriteBatch s : leaves P (Store_NewWriteBatch s).
Proof. unfold Store_NewWriteBatch, NewWriteBatch, rdb_writebatch_create, NewNativeWriteBatch. leaves. Qed.

Lemma leaves_Store_WriteBatch s b : leaves P (Store_WriteBatch s b).
Proof. unfold Store_WriteBatch, DB_Write, rdb_write. leaves. Qed.

Lemma leaves_Store_NewIterator s : leaves P (Store_NewIterator s).
Proof.
  unfold Store_NewIterator, NewDefaultReadOptions, rdb_readoptions_create, NewNativeReadOptions,
    ReadOptions_SetFillCache, rdb_readoptions_set_fill_cache, DB_NewIterator,
    rdb_create_iterator, NewNativeIterator.
  leaves.
Qed.

Lemma leaves_SeekToFirst it : leaves P (Iterator_SeekToFirst it).
Proof. unfold Iterator_SeekToFirst, rdb_iter_seek_to_first, iter_move. leaves. Qed.

Lemma leaves_Valid it : leaves P (Iterator_Valid it).
Proof. unfold Iterator_Valid, rdb_iter_valid. leaves. Qed.

Lemma leaves_Key it : leaves P (Iterator_Key it).
Proof. unfold Iterator_Key, rdb_iter_key. leaves. Qed.

Lemma leaves_Next it : leaves P (Iterator_Next it).
Proof. unfold Iterator_Next, rdb_iter_next, iter_move. leaves. Qed.

Lemma leaves_WriteBatch_Destroy wb : leaves P (WriteBatch_Destroy wb).
Proof.
  unfold WriteBatch_Destroy, rdb_writebatch_destroy. apply leaves_replace; [leaves|done|].
  intros c σ u σ' E. unfold c_delete in E. destruct c; try discriminate E.
  - by injection E as _ <-.
  - destruct (cheap σ !! l ≫= _); [|discriminate E]. by injection E as _ <-.
Qed.

Lemma leaves_Store_Close s : leaves P (Store_Close s).
Proof. unfold Store_Close, DB_Close, rdb_close. leaves. Qed.
End calls.

#[export] Hint Resolve leaves_NewStore leaves_Store_NewWriteBatch leaves_Store_WriteBatch
  leaves_Store_NewIterator leaves_SeekToFirst leaves_Valid leaves_Key leaves_Next
  leaves_WriteBatch_Destroy leaves_Store_Close : leaves.
