(* ===== verification/StoreTests.v ===== *)
(** * The tests of the store: store_test.go

    The three tests and the two benchmarks of store/store_test.go as programs on the
    store, and that they pass with every engine that follows the documentation of
    RocksDB.  [ioutil.TempDir] is a parameter, as the calls of [Files.v] are.

    A [require] that fails ends the test: it is a fault.  The deferred [os.RemoveAll]
    runs at the end; the store is still open then, and what the call does to it is
    left to the parameter. *)

From S2P Require Import Prelude Rocks MemRocks Memory Files Rdbc Rdb RdbSpec Strconv Store StoreSpec StoreOpen CheckpointSpec Populate KeyFormat PopulateSpec PopulateOpen RocksCalls Scenario.

Class TempDirs `{RocksDB} := {
  ioutil_TempDir_w : bytes → bytes → World → bytes * error * World;
}.

(** A new, empty directory; no path below it existed. *)
Class TempDirsLaws `{RocksView, !TempDirs} : Prop := {
  law_TempDir w dir pattern :
    faultless w →
    ∃ d w', ioutil_TempDir_w dir pattern w = (d, None, w') ∧ stable [] w w' ∧ NUL_free d ∧
      (∀ d', below d d' → on_disk w' d' = Absent) ∧ ∀ d', on_disk w' d' = on_disk w d';
}.

(** [path.Join] of a clean path and a name. *)
Definition path_Join (dir name : bytes) : bytes := dir ++ bs "/" ++ name.

Section tests.
Context `{RocksDB, Libc, !OS, !TempDirs}.

Definition ioutil_TempDir (dir pattern : bytes) : M st (bytes * error) :=
  engine (ioutil_TempDir_w dir pattern).

(** [require.NoError(t, err)] and [require.EqualValues(t, data, want)]. *)
Definition require_NoError (err : error) : M st unit := check_error "require.NoError" err.

Definition require_EqualValues (data : goslice) (want : bytes) : M st unit :=
  b ← sl_read data;
  if decide (b = want) then mret tt else raise (Fatal "require.EqualValues").

(** [require.NoError(t, s.SetOne(k, []byte(v)))]. *)
Definition check_SetOne (s : ptr) (k : goslice) (v : bytes) : M st unit :=
  val ← go_bytes v;
  err ← Store_SetOne s k val;
  require_NoError err.

(** [val, err := s.Get(k)], with the two checks that follow it. *)
Definition check_Get (s : ptr) (k : goslice) (want : bytes) : M st unit :=
  '(val, err) ← Store_Get s k;
  require_NoError err;;
  data ← Slice_Data val;
  require_EqualValues data want.

(** ** The tests *)

Definition TestGet : M st unit :=
  '(path, err) ← ioutil_TempDir [] (bs "storetest_");
  require_NoError err;;
  '(s, err) ← NewStore path;
  require_NoError err;;
  k ← go_bytes (bs "mykey");
  check_SetOne s k (bs "neo");;
  check_Get s k (bs "neo");;
  check_SetOne s k (bs "the one");;
  check_Get s k (bs "the one");;
  os_RemoveAll path;;
  mret tt.

Definition TestSnapshot : M st unit :=
  '(path, err) ← ioutil_TempDir [] (bs "storetest_");
  require_NoError err;;
  '(s, err) ← NewStore path;
  require_NoError err;;
  k ← go_bytes (bs "mykey");
  check_SetOne s k (bs "neo");;
  snapshot ← Store_NewSnapshot s;
  check_SetOne s k (bs "trinity");;
  check_Get s k (bs "trinity");;
  Store_SetSnapshot s snapshot;;
  check_Get s k (bs "neo");;
  Store_SetSnapshot s Nil;;
  check_Get s k (bs "trinity");;
  os_RemoveAll path;;
  mret tt.

(** The error of [Save] is dropped. *)
Definition TestCheckpoint : M st unit :=
  '(dbPath, err) ← ioutil_TempDir [] (bs "storetest_");
  require_NoError err;;
  '(s, err) ← NewStore dbPath;
  require_NoError err;;
  key ← go_bytes (bs "mykey");
  check_SetOne s key (bs "neo");;
  check_Get s key (bs "neo");;
  '(checkpoint, err) ← Store_NewCheckpoint s;
  require_NoError err;;
  let pathCheckpoint := path_Join dbPath (bs "checkpoint") in
  Checkpoint_Save checkpoint pathCheckpoint;;
  Checkpoint_Destroy checkpoint;;
  check_SetOne s key (bs "trinity");;
  check_Get s key (bs "trinity");;
  '(s2, err) ← NewStore pathCheckpoint;
  require_NoError err;;
  check_Get s2 key (bs "neo");;
  os_RemoveAll dbPath;;
  mret tt.

(** ** The benchmarks *)

(** What they hand to [b.Error] and [b.Errorf], which report and go on. *)
Variant breport := RError (err : bytes) | RMissing | RSize (found : Z).

(** [fmt.Sprintf("key_%d", i)]. *)
Definition bench_key_of (i : Z) : bytes := bs "key_" ++ itoa i.

(** [SetOne] for the keys from [i] on, up to the first error. *)
Fixpoint set_keys (s : ptr) (buf : goslice) (i : Z) (todo : nat) : M st error :=
  match todo with
  | O => mret None
  | S todo =>
      key ← go_bytes (bench_key_of i);
      err ← Store_SetOne s key buf;
      match err with
      | Some _ => mret err
      | None => set_keys s buf (i + 1) todo
      end
  end.

Definition nkeys : Z := 100.

(** One pass for each random number. *)
Fixpoint get_keys (s : ptr) (valSize : Z) (rs : list Z) (out : list breport) :
    M st (list breport) :=
  match rs with
  | [] => mret out
  | r :: rs =>
      key ← go_bytes (bench_key_of (Z.rem r nkeys));
      '(valSlice, err) ← Store_Get s key;
      let out := out ++ (if decide (valSlice = Nil) then [RMissing] else []) in
      let out := out ++ (match err with Some e => [RError e] | None => [] end) in
      data ← Slice_Data valSlice;
      let out := out ++ (if sl_len data =? valSize then [] else [RSize (sl_len data)]) in
      get_keys s valSize rs out
  end.

(** The temporary store of a benchmark; an error ends it. *)
Definition with_bench_store (body : ptr → M st (list breport)) : M st (list breport) :=
  '(path, err) ← ioutil_TempDir [] (bs "storetest_");
  match err with
  | Some e => mret [RError e]
  | None =>
      '(s, err) ← NewStore path;
      out ← match err with Some e => mret [RError e] | None => body s end;
      os_RemoveAll path;;
      mret out
  end.

Definition benchmarkGet (valSize : Z) (rs : list Z) : M st (list breport) :=
  with_bench_store (λ s,
    buf ← go_make valSize;
    err ← set_keys s buf 0 (Z.to_nat nkeys);
    match err with
    | Some e => mret [RError e]
    | None => get_keys s valSize rs []
    end).

Definition benchmarkSet (valSize : Z) (N : nat) : M st (list breport) :=
  with_bench_store (λ s,
    buf ← go_make valSize;
    err ← set_keys s buf 0 N;
    mret match err with Some e => [RError e] | None => [] end).

Definition BenchmarkGet_valsize1024 := benchmarkGet 1024.
Definition BenchmarkGet_valsize10KB := benchmarkGet 10240.
Definition BenchmarkGet_valsize500KB := benchmarkGet (Z.shiftl 1 19).
Definition BenchmarkGet_valsize1MB := benchmarkGet (Z.shiftl 1 20).
Definition BenchmarkSet_valsize1024 := benchmarkSet 1024.
Definition BenchmarkSet_valsize10KB := benchmarkSet 10240.
Definition BenchmarkSet_valsize500KB := benchmarkSet (Z.shiftl 1 19).
Definition BenchmarkSet_valsize1MB := benchmarkSet (Z.shiftl 1 20).
End tests.

(** ** What a step of a test leaves *)

Section spec.
Context `{RocksLaws, Libc, !OS, !TempDirs, !TempDirsLaws}.

(** A byte slice of its own Go array. *)
Definition own_bytes (σ : st) (sl : goslice) (b : bytes) : Prop :=
  len_ok b ∧ ∃ l, sl = Sl (PG l) (blen b) (blen b) ∧ gheap σ !! l = Some (GBytes b).

Lemma own_bytes_slice σ sl b : own_bytes σ sl b → slice_at σ sl b.
Proof.
  intros (Hb & l & -> & Hl). split_and!; [done|done|]. intros _. exists b.
  split; [by left|by rewrite firstn_all].
Qed.

(** The byte arrays stay. *)
Lemma own_bytes_kept σ σ' sl b : bytes_kept σ σ' → own_bytes σ sl b → own_bytes σ' sl b.
Proof. intros Hk (Hb & l & -> & Hl). split; [done|]. exists l. split; [done|by apply Hk]. Qed.

Lemma grows_kept σ σ' : grows σ σ' → bytes_kept σ σ'.
Proof. intros [_ Hg] l a Hl. by eapply lookup_weaken. Qed.

(** A step: its byte arrays and the directories are as before. *)
Definition test_step (σ σ' : st) : Prop := bytes_kept σ σ' ∧ same_disk σ σ'.

Lemma wp_own_bytes σ b (Q : goslice → st → Prop) :
  len_ok b →
  (∀ sl σ', own_bytes σ' sl b → grows σ σ' → cheap σ' = cheap σ → world σ' = world σ → Q sl σ') →
  wp (go_bytes b) σ Q.
Proof.
  intros Hb HQ. apply wp_bind, wp_go_new. intros l Hl. apply wp_ret, HQ; [|by apply grows_go|done..].
  split; [done|]. exists l. split; [done|apply lookup_insert_eq].
Qed.

Lemma wp_SetOne_own σ s h sp a key val k v (Q : error → st → Prop) :
  store_rep σ s h sp a → own_bytes σ key k → own_bytes σ val v →
  (∀ σ', store_rep σ' s h sp (KV (<[k := v]> (kv_live a)) (kv_read a) (kv_snaps a)) →
     test_step σ σ' → cheap σ' = cheap σ → Q None σ') →
  wp (Store_SetOne s key val) σ Q.
Proof.
  intros Hr Hk Hv HQ. pose proof (proj1 Hk) as Hkl. pose proof (proj1 Hv) as Hvl.
  eapply wp_SetOne; [exact Hr|by apply own_bytes_slice|by apply own_bytes_slice|].
  intros r Hwr. edestruct (engine_writes_ok σ (with_world r.2 σ)) as (-> & Hd & Hr');
    [exact Hr| |exact Hwr|split_and!; [apply grows_world|done|done]|].
  { by apply Forall_singleton. }
  apply HQ; [exact Hr'| |done]. split; [by intros l a'|exact Hd].
Qed.

Lemma wp_check_SetOne σ s h sp a key k v (Q : unit → st → Prop) :
  store_rep σ s h sp a → own_bytes σ key k → len_ok v →
  (∀ σ', store_rep σ' s h sp (KV (<[k := v]> (kv_live a)) (kv_read a) (kv_snaps a)) →
     own_bytes σ' key k → same_disk σ σ' → cheap σ' = cheap σ → Q tt σ') →
  wp (check_SetOne s key v) σ Q.
Proof.
  intros Hr Hk Hv HQ. apply wp_bind, wp_own_bytes; [done|]. intros val σ1 Hval Hg Hc Hw.
  apply (own_bytes_kept _ σ1) in Hk; [|by apply grows_kept].
  apply wp_bind. eapply wp_SetOne_own; [by eapply store_rep_same_world|exact Hk|exact Hval|].
  intros σ2 Hr2 [Hkept Hd] Hc2.
  apply wp_ret, HQ; [done|by eapply own_bytes_kept| |congruence]. intros d. by rewrite Hd, Hw.
Qed.

(** The get of a value that is not empty leaves a C block. *)
Lemma wp_check_Get {rw} σ s h sp a key k v (Q : unit → st → Prop) :
  store_open rw σ s h sp a → own_bytes σ key k → kv_view a !! k = Some v → v ≠ [] →
  (∀ σ', store_open rw σ' s h sp a → own_bytes σ' key k → same_disk σ σ' →
     size (cheap σ') = S (size (cheap σ)) → Q tt σ') →
  wp (check_Get s key v) σ Q.
Proof.
  intros Hr Hk Ek Hne HQ. apply wp_bind. eapply wp_Store_Get; [exact Hr|by apply own_bytes_slice|].
  intros l w σ' v' Hr1 Hd Hv Hgot. subst v'. rewrite Ek in *. cbn [default id] in *.
  apply wp_bind, wp_ret. destruct (got_read _ _ _ _ Hv Hgot) as (p & _ & Ed & Er).
  apply wp_bind. unfold wp at 1. rewrite Ed. apply wp_bind. unfold sl_read, wp at 1.
  cbn [sl_ptr sl_len]. rewrite Er, decide_True by done. apply wp_ret.
  destruct (got_grows _ _ _ _ Hgot) as [Hg Hw]. apply HQ.
  - by eapply store_rep_same_world.
  - eapply (own_bytes_kept (with_world w σ)); [by apply grows_kept|exact Hk].
  - intros d. by rewrite Hw.
  - rewrite (got_size _ _ _ _ Hne Hgot). done.
Qed.

(** The calls after which only [bytes_kept] is known. *)
Lemma wp_kept {A} (m : M st A) σ (Q : A → st → Prop) :
  leaves (λ _, True) m → wp m σ (λ a σ', bytes_kept σ σ' → Q a σ') → wp m σ Q.
Proof.
  intros Hm HQ. eapply wp_leaves; [exact Hm|]. eapply wp_mono; [exact HQ|].
  intros a σ' HQ' [_ Hk]. by apply HQ'.
Qed.

Lemma leaves_NewSnapshot s : leaves (λ _, True) (Store_NewSnapshot s).
Proof. unfold Store_NewSnapshot, DB_NewSnapshot, rdb_create_snapshot. leaves. Qed.

Lemma leaves_SetSnapshot s p : leaves (λ _, True) (Store_SetSnapshot s p).
Proof.
  unfold Store_SetSnapshot, ReadOptions_SetSnapshot, rdb_readoptions_set_snapshot. leaves.
Qed.

Lemma leaves_Save p d : leaves (λ _, True) (Checkpoint_Save p d).
Proof.
  pose proof (leaves_take_error (λ _, True)). pose proof (leaves_SaveError (λ _, True)).
  pose proof (leaves_c_string (λ _, True)).
  unfold Checkpoint_Save, C_CString, rdb_open_checkpoint, c_free. leaves.
Qed.

Lemma leaves_Checkpoint_Destroy p : leaves (λ _, True) (Checkpoint_Destroy p).
Proof.
  unfold Checkpoint_Destroy, rdb_destroy_checkpoint. apply leaves_replace; [leaves|done|].
  by intros c σ u σ' (rep & ? & ->%c_load_same & [= _ <-])%bind_ret_inv.
Qed.

(** ** The tests pass *)

(** A temporary directory, and the store in it. *)
Lemma wp_temp_store σ {A} (k : bytes → ptr → M st A) (Q : A → st → Prop) :
  faultless (world σ) →
  (∀ d s h σ', store_rep σ' s h [] (KV ∅ None []) → NUL_free d →
     (∀ d', below d d' → d' ≠ d → on_disk (world σ') d' = Absent) →
     size (cheap σ') = (1 + opts_blocks + size (cheap σ))%nat → wp (k d s) σ' Q) →
  wp ('(path, err) ← ioutil_TempDir [] (bs "storetest_"); require_NoError err;;
      '(s, err) ← NewStore path; require_NoError err;; k path s) σ Q.
Proof.
  intros Hf HQ.
  destruct (law_TempDir (world σ) [] (bs "storetest_") Hf) as (d & w & E & Hst & Hn & Hab & _).
  apply wp_bind. eapply wp_engine; [exact E|]. apply wp_bind, wp_ret, wp_bind.
  eapply (wp_NewStore_rep _ _ ∅); [by eapply stable_faultless|apply map_Forall_empty| |].
  { right. split; [|done]. cbn. rewrite c_str_NUL_free by done. apply Hab. by left. }
  intros s h σ' Hr _ Hsz _ _ _ Hd _. apply wp_bind, wp_ret. eapply HQ; [exact Hr|done| |exact Hsz].
  intros d' Hbd Hne. rewrite Hd by (by rewrite c_str_NUL_free). by apply Hab.
Qed.

Lemma wp_deferred path {A} (a : A) σ (Q : A → st → Prop) :
  (∀ σ', cheap σ' = cheap σ → Q a σ') → wp (os_RemoveAll path;; mret a) σ Q.
Proof.
  intros HQ. apply wp_bind. unfold os_RemoveAll.
  destruct (os_RemoveAll_w path (world σ)) as [e w] eqn:E. eapply wp_engine; [exact E|].
  by apply wp_ret, HQ.
Qed.

Lemma wp_TestGet σ :
  faultless (world σ) →
  wp TestGet σ (λ _ σ', size (cheap σ') = (1 + opts_blocks + 2 + size (cheap σ))%nat).
Proof.
  intros Hf. unfold TestGet. apply wp_temp_store; [exact Hf|]. intros d s h σ1 R1 _ _ Z1.
  apply wp_bind, wp_own_bytes; [done|]. intros k σ2 K2 G2 Z2 W2.
  apply (store_rep_same_world _ σ2) in R1; [|done|done].
  apply wp_bind. eapply wp_check_SetOne; [exact R1|exact K2|done|]. intros σ3 R3 K3 _ Z3.
  apply wp_bind. eapply wp_check_Get; [exact R3|exact K3|by simplify_map_eq|done|].
  intros σ4 R4 K4 _ Z4.
  apply wp_bind. eapply wp_check_SetOne; [exact R4|exact K4|done|]. intros σ5 R5 K5 _ Z5.
  apply wp_bind. eapply wp_check_Get; [exact R5|exact K5|by simplify_map_eq|done|].
  intros σ6 _ _ _ Z6. apply wp_deferred. intros σ7 Z7. rewrite Z7, Z6, Z5, Z4, Z3, Z2, Z1. lia.
Qed.

Lemma wp_TestSnapshot σ :
  faultless (world σ) →
  wp TestSnapshot σ (λ _ σ', size (cheap σ') = (1 + opts_blocks + 1 + 3 + size (cheap σ))%nat).
Proof.
  intros Hf. unfold TestSnapshot. apply wp_temp_store; [exact Hf|]. intros d s h σ1 R1 _ _ Z1.
  apply wp_bind, wp_own_bytes; [done|]. intros k σ2 K2 G2 Z2 W2.
  apply (store_rep_same_world _ σ2) in R1; [|done|done].
  apply wp_bind. eapply wp_check_SetOne; [exact R1|exact K2|done|]. intros σ3 R3 K3 _ Z3.
  apply wp_bind, wp_kept; [apply leaves_NewSnapshot|]. eapply wp_new_snapshot; [exact R3|].
  intros p σ4 R4 Z4 B4. apply (own_bytes_kept _ _ _ _ B4) in K3.
  apply wp_bind. eapply wp_check_SetOne; [exact R4|exact K3|done|]. intros σ5 R5 K5 _ Z5.
  apply wp_bind. eapply wp_check_Get; [exact R5|exact K5|by simplify_map_eq|done|].
  intros σ6 R6 K6 _ Z6. pose proof (sr_mem _ _ _ _ _ _ R6) as (x & ro & wo & [_ _ _ _ _ Hsn]).
  apply wp_bind, wp_kept; [apply leaves_SetSnapshot|].
  eapply (wp_set_snapshot _ _ _ _ _ _ (Some (<[bs "mykey" := bs "neo"]> ∅)) _ R6).
  { cbn [kv_snaps kv_live app] in *. apply Forall2_cons in Hsn as [? _]. split; [done|left]. }
  intros σ7 R7 Z7 B7. apply (own_bytes_kept _ _ _ _ B7) in K6.
  apply wp_bind. eapply wp_check_Get; [exact R7|exact K6|by simplify_map_eq|done|].
  intros σ8 R8 K8 _ Z8.
  apply wp_bind, wp_kept; [apply leaves_SetSnapshot|].
  eapply (wp_set_snapshot _ _ _ _ _ _ None _ R8 eq_refl).
  intros σ9 R9 Z9 B9. apply (own_bytes_kept _ _ _ _ B9) in K8.
  apply wp_bind. eapply wp_check_Get; [exact R9|exact K8|by simplify_map_eq|done|].
  intros σ10 _ _ _ Z10. apply wp_deferred. intros σ11 Z11.
  rewrite Z11, Z10, Z9, Z8, Z7, Z6, Z5, Z4, Z3, Z2, Z1. lia.
Qed.

Lemma path_Join_below d name :
  NUL_free d → NUL_free name →
  c_str (path_Join d name) = path_Join d name ∧ below d (path_Join d name) ∧ path_Join d name ≠ d.
Proof.
  intros Hd Hn. split_and!.
  - apply c_str_NUL_free. unfold NUL_free, path_Join in *. rewrite !not_elem_of_app.
    split_and!; [done| |done]. by apply (bool_decide_unpack _).
  - right. unfold path_Join. rewrite app_assoc. by apply prefix_app_r.
  - intros E. apply (f_equal length) in E. unfold path_Join in E. rewrite !length_app in E.
    simpl in E. lia.
Qed.

Lemma wp_TestCheckpoint σ :
  faultless (world σ) →
  wp TestCheckpoint σ (λ _ σ',
    size (cheap σ') = (2 * (1 + opts_blocks) + 1 + 3 + size (cheap σ))%nat).
Proof.
  intros Hf. unfold TestCheckpoint. apply wp_temp_store; [exact Hf|].
  intros d s h σ1 R1 Hn Hab Z1.
  apply wp_bind, wp_own_bytes; [done|]. intros k σ2 K2 G2 Z2 W2.
  apply (store_rep_same_world _ σ2) in R1; [|done|done].
  apply wp_bind. eapply wp_check_SetOne; [exact R1|exact K2|done|]. intros σ3 R3 K3 D3 Z3.
  apply wp_bind. eapply wp_check_Get; [exact R3|exact K3|by simplify_map_eq|done|].
  intros σ4 R4 K4 D4 Z4.
  apply wp_bind. eapply wp_NewCheckpoint; [exact R4|]. intros p lc c σ5 R5 G5 C5 D5 Z5.
  apply (own_bytes_kept _ σ5) in K4; [|by apply grows_kept]. apply wp_bind, wp_ret. cbv zeta.
  destruct (path_Join_below d (bs "checkpoint")) as (Ec & Hb & Hne); [done|by apply (bool_decide_unpack _)|].
  apply wp_bind, wp_kept; [apply leaves_Save|]. eapply wp_Checkpoint_Save; [exact R5|exact C5| |].
  { by rewrite Ec, D5, D4, D3, W2, Hab. }
  intros σ6 R6 C6 Z6 D6 _ B6. apply (own_bytes_kept _ _ _ _ B6) in K4. rewrite Ec in D6.
  apply wp_bind, wp_kept; [apply leaves_Checkpoint_Destroy|].
  eapply wp_Checkpoint_Destroy; [exact R6|exact C6|].
  intros σ7 R7 Z7 D7 B7. apply (own_bytes_kept _ _ _ _ B7) in K4.
  apply wp_bind. eapply wp_check_SetOne; [exact R7|exact K4|done|]. intros σ8 R8 K8 D8 Z8.
  apply wp_bind. eapply wp_check_Get; [exact R8|exact K8|by simplify_map_eq|done|].
  intros σ9 R9 K9 D9 Z9. apply wp_bind.
  eapply (wp_NewStore_rep _ _ (<[bs "mykey" := bs "neo"]> ∅)).
  { apply R9. }
  { by apply map_ok_insert; [apply map_Forall_empty|]. }
  { left. by rewrite Ec, D9, D8, D7. }
  intros s2 h2 σ10 R10 G10 Z10 _ _ _ _ _. apply (own_bytes_kept _ σ10) in K9; [|by apply grows_kept].
  apply wp_bind, wp_ret, wp_bind.
  eapply wp_check_Get; [exact R10|exact K9|by simplify_map_eq|done|].
  intros σ11 _ _ _ Z11. apply wp_deferred. intros σ12 Z12.
  rewrite Z12, Z11, Z10, Z9, Z8, Z7, Z6, Z5, Z4, Z3, Z2, Z1. lia.
Qed.

(** ** The benchmarks report nothing *)

Lemma bench_key_of_len i : 0 ≤ i < 2 ^ 63 → len_ok (bench_key_of i).
Proof.
  intros Hi. destruct (itoa_spec i) as (w & E & _ & _ & Hmin); [lia|].
  specialize (Hmin 19%nat ltac:(lia) ltac:(lia)). unfold len_ok, bench_key_of, blen.
  rewrite length_app, E, length_fmap, length_digits. simpl. lia.
Qed.

(** The keys below [i] have the value [v]. *)
Definition filled (m : gmap bytes bytes) (v : bytes) (i : Z) : Prop :=
  ∀ j, 0 ≤ j < i → m !! bench_key_of j = Some v.

Lemma filled_next m v i : filled m v i → filled (<[bench_key_of i := v]> m) v (i + 1).
Proof.
  intros Hm j Hj. destruct (decide (bench_key_of i = bench_key_of j)) as [->|Hne];
    [apply lookup_insert_eq|]. rewrite lookup_insert_ne by done. apply Hm.
  assert (i ≠ j) by congruence. lia.
Qed.

Lemma wp_set_keys s h buf v todo i m σ (Q : error → st → Prop) :
  store_rep σ s h [] (KV m None []) → own_bytes σ buf v → filled m v i →
  0 ≤ i → i + Z.of_nat todo < 2 ^ 63 →
  (∀ m' σ', store_rep σ' s h [] (KV m' None []) → filled m' v (i + Z.of_nat todo) →
     cheap σ' = cheap σ → Q None σ') →
  wp (set_keys s buf i todo) σ Q.
Proof.
  revert i m σ. induction todo as [|todo IH]; intros i m σ Hr Hb Hm Hi Hlt HQ.
  { apply wp_ret. by eapply HQ; [exact Hr|rewrite Z.add_0_r|]. }
  cbn [set_keys]. apply wp_bind, wp_own_bytes; [apply bench_key_of_len; lia|].
  intros key σ1 Hk G1 Z1 W1. apply (own_bytes_kept _ σ1) in Hb; [|by apply grows_kept].
  apply (store_rep_same_world _ σ1) in Hr; [|done|done].
  apply wp_bind. eapply wp_SetOne_own; [exact Hr|exact Hk|exact Hb|]. intros σ2 R2 [B2 _] Z2.
  eapply IH; [exact R2|by eapply own_bytes_kept|by apply filled_next|lia|lia|].
  intros m' σ' R' F' Z'. eapply HQ; [exact R'| |congruence].
  by replace (i + Z.of_nat (S todo)) with (i + 1 + Z.of_nat todo) by lia.
Qed.

Lemma wp_get_keys {rw} s h m v rs out σ :
  store_open rw σ s h [] (KV m None []) → filled m v nkeys → v ≠ [] →
  Forall (λ r, 0 ≤ r < 2 ^ 63) rs →
  wp (get_keys s (blen v) rs out) σ (λ out' σ',
    out' = out ∧ size (cheap σ') = (length rs + size (cheap σ))%nat).
Proof.
  intros Hr Hm Hne Hrs. revert σ Hr. induction Hrs as [|r rs Hr0 _ IH]; intros σ Hr; [done|].
  assert (0 ≤ Z.rem r nkeys < nkeys) as Hrem by (apply Z.rem_bound_pos; unfold nkeys; lia).
  cbn [get_keys]. apply wp_bind, wp_own_bytes; [apply bench_key_of_len; unfold nkeys in *; lia|].
  intros key σ1 Hk G1 Z1 W1. apply (store_rep_same_world _ σ1) in Hr; [|done|done].
  apply wp_bind. eapply wp_Store_Get; [exact Hr|by apply own_bytes_slice|].
  intros l w σ2 v'. subst v'. cbn [kv_view kv_read kv_live default]. rewrite Hm by done.
  cbn [default id]. intros R2 _ Hv Hgot.
  destruct (got_read _ _ _ _ Hv Hgot) as (p & _ & Ed & _). cbv zeta.
  rewrite decide_False by done. apply wp_bind. unfold wp at 1. rewrite Ed. cbn [sl_len].
  rewrite Z.eqb_refl, !app_nil_r. destruct (got_grows _ _ _ _ Hgot) as [G2 W2].
  eapply wp_mono; [apply IH; by eapply store_rep_same_world|].
  intros out' σ3 [-> Z3]. split; [done|].
  rewrite Z3, (got_size _ _ _ _ Hne Hgot), <-Z1. simpl. lia.
Qed.

(** The temporary store of a benchmark. *)
Lemma wp_bench_store σ body (Q : list breport → st → Prop) :
  faultless (world σ) →
  (∀ s h σ', store_rep σ' s h [] (KV ∅ None []) →
     size (cheap σ') = (1 + opts_blocks + size (cheap σ))%nat →
     wp (body s) σ' (λ out σ2, ∀ σ3, cheap σ3 = cheap σ2 → Q out σ3)) →
  wp (with_bench_store body) σ Q.
Proof.
  intros Hf HQ.
  destruct (law_TempDir (world σ) [] (bs "storetest_") Hf) as (d & w & E & Hst & Hn & Hab & _).
  unfold with_bench_store. apply wp_bind. eapply wp_engine; [exact E|]. cbv iota beta.
  apply wp_bind. eapply (wp_NewStore_rep _ _ ∅); [by eapply stable_faultless|apply map_Forall_empty| |].
  { right. split; [|done]. cbn. rewrite c_str_NUL_free by done. apply Hab. by left. }
  intros s h σ' Hr _ Hsz _ _ _ _ _. cbv iota beta. apply wp_bind.
  eapply wp_mono; [by eapply HQ|]. intros out σ2 HQ2. by apply wp_deferred.
Qed.

Lemma wp_zero_buf σ n (Q : goslice → st → Prop) :
  0 ≤ n < 2 ^ 63 →
  (∀ buf v σ', own_bytes σ' buf v → blen v = n → grows σ σ' → cheap σ' = cheap σ →
     world σ' = world σ → Q buf σ') →
  wp (go_make n) σ Q.
Proof.
  intros Hn HQ. unfold go_make. rewrite (proj2 (Z.ltb_ge _ _)) by lia.
  apply wp_bind, wp_go_new. intros l Hl.
  assert (blen (replicate (Z.to_nat n) "000"%byte) = n) as E
    by (unfold blen; rewrite length_replicate; lia).
  apply wp_ret. eapply HQ; [|exact E|by apply grows_go|done|done].
  split; [unfold len_ok; rewrite E; lia|]. exists l. rewrite E. split; [done|apply lookup_insert_eq].
Qed.

(** C11: with every engine and file system that follow their documentation, the three
    tests of store_test.go pass, and its benchmarks report nothing, whatever the size
    of the values, the number of keys and the random numbers.  No test frees the
    slices, the snapshot or the store: the C heap keeps six blocks for each store and
    one for each get, snapshot and checkpoint. *)
Theorem store_tests_pass σ valSize rs N :
  faultless (world σ) → 0 < valSize < 2 ^ 63 → Forall (λ r, 0 ≤ r < 2 ^ 63) rs →
  Z.of_nat N < 2 ^ 63 →
  let blocks n σ' := size (cheap σ') = (n + size (cheap σ))%nat in
  wp TestGet σ (λ _ σ', blocks 8%nat σ') ∧
  wp TestSnapshot σ (λ _ σ', blocks 10%nat σ') ∧
  wp TestCheckpoint σ (λ _ σ', blocks 16%nat σ') ∧
  wp (benchmarkGet valSize rs) σ (λ out σ', out = [] ∧ blocks (6 + length rs)%nat σ') ∧
  wp (benchmarkSet valSize N) σ (λ out σ', out = [] ∧ blocks 6%nat σ').
Proof.
  intros Hf Hv Hrs HN. split_and!; [by apply wp_TestGet|by apply wp_TestSnapshot|by apply wp_TestCheckpoint|..].
  - apply wp_bench_store; [exact Hf|]. intros s h σ1 R1 Z1. apply wp_bind, wp_zero_buf; [lia|].
    intros buf v σ2 B2 Ev G2 Z2 W2. apply (store_rep_same_world _ σ2) in R1; [|done|done].
    apply wp_bind. eapply wp_set_keys; [exact R1|exact B2|intros j Hj; lia|lia|done|].
    intros m σ3 R3 F3 Z3. cbv iota beta. rewrite <-Ev. eapply wp_mono.
    + eapply wp_get_keys; [exact R3|exact F3| |exact Hrs]. intros ->. unfold blen in Ev. simpl in Ev. lia.
    + intros out σ4 [-> Z4] σ5 Z5. split; [done|]. rewrite Z5, Z4, Z3, Z2, Z1. unfold opts_blocks. lia.
  - apply wp_bench_store; [exact Hf|]. intros s h σ1 R1 Z1. apply wp_bind, wp_zero_buf; [lia|].
    intros buf v σ2 B2 Ev G2 Z2 W2. apply (store_rep_same_world _ σ2) in R1; [|done|done].
    apply wp_bind. eapply wp_set_keys; [exact R1|exact B2|intros j Hj; lia|lia|lia|].
    intros m σ3 R3 F3 Z3. apply wp_ret. intros σ4 Z4. split; [done|].
    cbn. rewrite Z4, Z3, Z2, Z1. reflexivity.
Qed.
End spec.

(** ** Temporary directories of the in-memory engine *)

(** A name that is longer than every directory. *)
Definition mem_TempDir (w : mworld) : bytes :=
  bs "/tmp/storetest_" ++ replicate (max_list (length <$> (map_to_list (w_dirs w)).*1)) "0"%byte.

#[export] Instance mem_tempdirs : TempDirs := {|
  ioutil_TempDir_w := λ _ _ w, (mem_TempDir w, None, w);
|}.

Lemma below_length d d' : below d d' → (length d ≤ length d')%nat.
Proof.
  intros [->|Hp]; [done|]. apply prefix_length in Hp. rewrite length_app in Hp. lia.
Qed.

#[export] Instance mem_tempdirs_laws : TempDirsLaws.
Proof.
  split. intros w dir pattern _. exists (mem_TempDir w), w. split_and!; [done|apply stable_refl| | |done].
  - unfold NUL_free, mem_TempDir. rewrite not_elem_of_app. split; [by apply (bool_decide_unpack _)|].
    intros [E _]%elem_of_replicate. discriminate E.
  - intros d Hd. cbn. unfold m_disk. destruct (w_dirs w !! d) eqn:E; [|done]. exfalso.
    apply below_length in Hd. unfold mem_TempDir in Hd. rewrite length_app, length_replicate in Hd.
    assert (length d ∈ length <$> (map_to_list (w_dirs w)).*1) as Hin.
    { apply list_elem_of_fmap_2, (list_elem_of_fmap_2 fst _ (d, d0)). by apply elem_of_map_to_list. }
    apply max_list_elem_of_le in Hin. simpl in Hd. lia.
Qed.

Lemma store_tests_pass_witness :
  wp TestGet sigma0 (λ _ σ', size (cheap σ') = 8%nat) ∧
  wp TestSnapshot sigma0 (λ _ σ', size (cheap σ') = 10%nat) ∧
  wp TestCheckpoint sigma0 (λ _ σ', size (cheap σ') = 16%nat) ∧
  wp (BenchmarkGet_valsize1024 [7; 207]) sigma0 (λ out σ', out = [] ∧ size (cheap σ') = 8%nat) ∧
  wp (BenchmarkSet_valsize1024 1000) sigma0 (λ out σ', out = [] ∧ size (cheap σ') = 6%nat).
Proof.
  apply (store_tests_pass sigma0 1024 [7; 207] 1000); [done|lia|repeat constructor; lia|done].
Defined.
