(* ===== verification/RwBench.v ===== *)
(** * The program rw-bench

    rw-bench/bench.go fills entries, writes them to rocks as one batch and to badger
    as one transaction, and counts the keys an iterator of each store visits.  This
    file has the program ([rw_main]); the steps of its rocks part are specified in
    [RwSpec.v], and the theorem on the whole is in [RwMainSpec.v]: the numbers printed as
    [Num unique keys] are the number of distinct keys of the entries, and between the
    two the rocks store is closed while its iterator is live.
    Badger is a library: its iterator is a parameter beside [Populate.Stores]. *)

From S2P Require Import Prelude Rocks MemRocks Memory Files Rdbc Rdb Strconv Store Float64 Populate PopulateMain.

(** The badger calls of rw-bench that populate does not make. *)
Class BadgerIterator `{Stores} := {
  badger_Iterator : Type;
  badger_NewIterator : badger_Txn → M st badger_Iterator;
  badger_Rewind : badger_Iterator → M st unit;
  badger_Valid : badger_Iterator → M st bool;
  badger_Next : badger_Iterator → M st unit;
  badger_ItemKey : badger_Iterator → M st goslice;
}.

Section rwbench.
Context `{RocksDB, Libc, !OS}.
(** The flags [-keys_mil] and [-valsz]. *)
Context (numKeys valueSize : Z).

Definition mil : Z := 1000000.

Definition key_bound : Z := wrap_s 64 (wrap_s 64 (numKeys * mil) * 10).

(** [rand.Intn] panics on an argument that is not positive. *)
Definition fillEntry (e : ptr) (r : draw) : M st unit :=
  if key_bound <=? 0 then raise (PanicArg "Intn") else
  let k := rand_Intn r key_bound in
  let key := key_of valueSize k in
  set_entry e key r.

Definition createEntries (rocks : ptr) (entries : list ptr) (rs : list draw) : M st ptr :=
  rb ← Store_NewWriteBatch rocks;
  for_each (λ '(e, r),
    fillEntry e r;;
    x ← go_load as_entry e;
    WriteBatch_Put rb (e_Key x) (e_Value x)) (zip entries rs);;
  mret rb.

(** [for it.SeekToFirst(); it.Valid(); it.Next() { _ = it.Key(); count++ }], from the
    test on.  Every pass but the last visits an entry: the fuel is the number of
    passes. *)
Fixpoint count_loop (fuel : nat) (it : ptr) (count : Z) : M st Z :=
  match fuel with
  | O => raise OutOfFuel
  | S fuel =>
      v ← Iterator_Valid it;
      if v : bool then
        Iterator_Key it;;
        Iterator_Next it;;
        count_loop fuel it (wrap_s 64 (count + 1))
      else mret count
  end.

(** The part of [main] from the batch to the number of keys, which is then printed. *)
Definition rocks_count (fuel : nat) (rocks rb : ptr) : M st Z :=
  err ← Store_WriteBatch rocks rb;
  check_error "y.Check" err;;
  ritr ← Store_NewIterator rocks;
  Iterator_SeekToFirst ritr;;
  count_loop fuel ritr 0.

(** The end of the rocks store.  The iterator is not closed. *)
Definition rocks_end (rocks rb : ptr) : M st unit :=
  WriteBatch_Destroy rb;;
  Store_Close rocks.

(** The rocks store of [main], in an empty directory. *)
Definition open_rw_rocks : M st ptr :=
  err ← os_RemoveAll (bs "tmp/rocks");
  check_error "y.Check" err;;
  os_MkdirAll (bs "tmp/rocks") 511;;
  '(rocks, err) ← NewStore (bs "tmp/rocks");
  check_error "y.Check" err;;
  mret rocks.

Context `{!Stores, !Openers, !BadgerIterator}.

Fixpoint badger_loop (fuel : nat) (it : badger_Iterator) (count : Z) : M st Z :=
  match fuel with
  | O => raise OutOfFuel
  | S fuel =>
      v ← badger_Valid it;
      if v : bool then
        badger_ItemKey it;;
        badger_Next it;;
        badger_loop fuel it (wrap_s 64 (count + 1))
      else mret count
  end.

Definition badger_phase (fuel : nat) (bdg : badger_DB) (txn : badger_Txn) : M st Z :=
  err ← badger_Commit txn;
  check_error "y.Check" err;;
  txn ← badger_NewTransaction bdg false;
  bitr ← badger_NewIterator txn;
  badger_Rewind bitr;;
  count ← badger_loop fuel bitr 0;
  badger_Close bdg;;
  mret count.

(** The badger store of [main]. *)
Definition open_rw_badger : M st (option badger_DB) :=
  let opt := badger_set_SyncWrites false (badger_DefaultOptions (bs "tmp/badger")) in
  err ← os_RemoveAll (bs "tmp/badger");
  check_error "y.Check" err;;
  os_MkdirAll (bs "tmp/badger") 511;;
  '(bdg, err) ← badger_Open opt;
  check_error "y.Check" err;;
  mret bdg.

(** [main] up to the print of the first store name: the stores, the entries, the batch
    of rocks and the transaction of badger.  The number of draws is the number of
    entries.  A method call on a nil database panics. *)
Definition rw_start (rs : list draw) : M st (badger_DB * badger_Txn * ptr * ptr) :=
  bdg ← open_rw_badger;
  rocks ← open_rw_rocks;
  entries ← new_entries valueSize (length rs);
  rb ← createEntries rocks entries rs;
  bdg ← of_option PanicNil bdg;
  txn ← badger_NewTransaction bdg true;
  put_entries (λ k v, err ← badger_Set txn k v; check_error "y.Check" err) entries;;
  mret (bdg, txn, rocks, rb).

(** [main] without its flags, profiles and prints: the two counts it prints, each at
    the end of its phase. *)
Definition rw_main (fuel : nat) (rs : list draw) : M st (Z * Z) :=
  '(bdg, txn, rocks, rb) ← rw_start rs;
  count ← rocks_count fuel rocks rb;
  rocks_end rocks rb;;
  bcount ← badger_phase fuel bdg txn;
  mret (count, bcount).
End rwbench.
