(* ===== verification/BadgerSpec.v ===== *)
(** * What badger promises to rw-bench

    [RwBench.rw_main] opens badger, commits one transaction and iterates over the
    result.  The laws of [Libraries.v] cover the transaction; this file adds the
    database itself and its iterator, and what happens to both when the program calls
    RocksDB or removes another directory.  An instance follows, over the stores of
    [MemStores.v]. *)

From S2P Require Import Prelude Rocks MemRocks Memory Files Rdbc Rdb Strconv Populate PopulateMain Libraries MemStores RocksCalls RwBench.
From stdpp Require Import relations.

(** Two directories of the same parent. *)
Definition name (a : bytes) : Prop := a ≠ [] ∧ bs "." ≠ a ∧ bs ".." ≠ a ∧ "/"%byte ∉ a.
Definition siblings (d d' : bytes) : Prop :=
  ∃ p a b, d = p ++ bs "/" ++ a ∧ d' = p ++ bs "/" ++ b ∧ name a ∧ name b ∧ a ≠ b.

Class BadgerView `{RocksDB, !Stores, !Openers, !BadgerIterator} := {
  (* the directory of an open database *)
  badger_dir : badger_DB → bytes;
  (* no badger database is open in the tree of the directory *)
  badger_unused : World → bytes → Prop;
  (* the directory holds no database, of badger or of rocks *)
  badger_vacant : World → bytes → Prop;
  (* an open iterator over these contents, and the entries from its position on, once
     it has one *)
  badger_at : World → badger_Iterator → badger_DB → gmap bytes bytes →
    option (list (bytes * bytes)) → Prop;
}.

Class BadgerLaws `{RocksView, !OS, !Stores, !StoresView, !Openers, !BadgerIterator,
    !BadgerView} : Prop := {
  (* the file system *)
  law_badger_RemoveAll w d :
    faultless w → NUL_free d → unused w d → badger_unused w d →
    badger_vacant (os_RemoveAll_w d w).2 d;
  law_badger_MkdirAll w d perm : badger_vacant w d → badger_vacant (os_MkdirAll_w d perm w).2 d;
  law_badger_keep_RemoveAll w d db m :
    siblings d (badger_dir db) → badger_holds w db m →
    badger_holds (os_RemoveAll_w d w).2 db m;
  law_badger_keep_MkdirAll w d perm db m :
    siblings d (badger_dir db) → badger_holds w db m →
    badger_holds (os_MkdirAll_w d perm w).2 db m;

  (* databases in different directories are independent; a transaction may hold the Go
     slices it was given *)
  law_badger_keep_call w w' db m :
    rocks_call (λ d, siblings d (badger_dir db)) w w' →
    badger_holds w db m → badger_holds w' db m;
  law_badger_tx_keep σ σ' txn db m us :
    aside (λ d, siblings d (badger_dir db)) σ σ' →
    badger_tx σ txn db m us → badger_tx σ' txn db m us;

  law_badger_Open σ d b :
    badger_vacant (world σ) d →
    wp (badger_Open (badger_set_SyncWrites b (badger_DefaultOptions d))) σ (λ '(r, err) σ',
      err = None ∧ lib_step σ σ' ∧
      ∃ db, r = Some db ∧ badger_dir db = d ∧ badger_holds (world σ') db ∅);
  law_badger_NewIterator σ txn db m :
    badger_reads (world σ) txn db m →
    wp (badger_NewIterator txn) σ (λ it σ',
      lib_step σ σ' ∧ badger_at (world σ') it db m None);
  law_badger_Rewind σ it db m o :
    badger_at (world σ) it db m o →
    wp (badger_Rewind it) σ (λ _ σ',
      lib_step σ σ' ∧ ∃ l, is_scan m l ∧ badger_at (world σ') it db m (Some l));
  law_badger_Valid σ it db m l :
    badger_at (world σ) it db m (Some l) →
    wp (badger_Valid it) σ (λ v σ',
      v = bool_decide (l ≠ []) ∧ lib_step σ σ' ∧ badger_at (world σ') it db m (Some l));
  law_badger_ItemKey σ it db m e l :
    badger_at (world σ) it db m (Some (e :: l)) →
    wp (badger_ItemKey it) σ (λ _ σ',
      lib_step σ σ' ∧ badger_at (world σ') it db m (Some (e :: l)));
  law_badger_Next σ it db m e l :
    badger_at (world σ) it db m (Some (e :: l)) →
    wp (badger_Next it) σ (λ _ σ', lib_step σ σ' ∧ badger_at (world σ') it db m (Some l));
  (* with an iterator open: an error is possible *)
  law_badger_Close σ it db m o :
    badger_at (world σ) it db m o → wp (badger_Close db) σ (λ _ σ', lib_step σ σ');
}.

(** ** In memory *)

(** The directory, and whether the database is opened for reading only: this is then
    the one at 1. *)
Definition b_open (o : bytes * bool) : M st (option (bytes * handle) * error) :=
  if o.2 then mret (Some (o.1, 1%positive), None) else
  db ← gets (λ σ, fresh (dom (w_kvs (world σ))));
  modS (on_world (m_on_kvs <[db := ∅]>));;
  mret (Some (o.1, db), None).

#[export] Instance mem_openers : Openers := {|
  badger_Options := bytes * bool;
  badger_DefaultOptions := λ d, (d, false);
  badger_set_TableLoadingMode := λ _ o, o;
  badger_set_SyncWrites := λ _ o, o;
  options_MemoryMap := 2;
  badger_Open := b_open;
  badger_Close := λ _, mret None;
  leveldb_OpenFile := λ _, mret (Some 1%positive, None);
  leveldb_Close := λ _, mret None;
  bolt_Open := λ _ _, mret (Some 1%positive, None);
  bolt_set_NoSync := λ _ _, mret tt;
  bolt_Update := λ db f, t_update db f;
  bolt_CreateBucketIfNotExists := λ t _, mret (Some t, None);
  bolt_Close := λ _, mret None;
  lmdb_NewEnv := mret (Some 1%positive, None);
  lmdb_SetMaxDBs := λ _ _, mret None;
  lmdb_SetMapSize := λ _ _, mret None;
  lmdb_Open := λ _ _ _ _, mret None;
  lmdb_Update_var := λ V env v f, t ← t_begin env; f t v;
  lmdb_CreateDBI := λ _ _, mret (tt, None);
  lmdb_CloseDBI := λ _ _, mret tt;
  lmdb_Close := λ _, mret None;
  lmdb_zeroDBI := tt;
|}.

Definition b_iterator (t : handle) : M st handle :=
  m ← gets (λ σ, default ∅ ((w_txns (world σ) !! t) ≫= λ x, w_kvs (world σ) !! x.1));
  it ← gets (λ σ, fresh (dom (w_iters (world σ))));
  modS (on_world (m_on_iters <[it := MIter None m 0]>));;
  mret it.

Definition b_move (f : miter → nat) (it : handle) : M st unit := modS (on_world (m_iter_move f it)).

Definition b_valid (it : handle) : M st bool :=
  gets (λ σ, bool_decide (default [] (m_remaining (world σ) it) ≠ [])).

Definition b_key (it : handle) : M st goslice :=
  k ← gets (λ σ, (m_entry it (world σ)).1); go_bytes k.

#[export] Instance mem_badger_iterator : BadgerIterator (H1 := mem_stores) := {|
  badger_Iterator := handle;
  badger_NewIterator := b_iterator;
  badger_Rewind := b_move (λ _, O);
  badger_Valid := b_valid;
  badger_Next := b_move (λ i, S (mi_pos i));
  badger_ItemKey := b_key;
|}.

(** An iterator before the entries [o] of the contents [m]. *)
Definition b_at (w : mworld) (it : handle) (m : gmap bytes bytes)
    (o : option (list (bytes * bytes))) : Prop :=
  ∃ i, w_iters w !! it = Some i ∧ mi_view i = m ∧
    match o with Some l => l = drop (mi_pos i) (scan m) | None => True end.

#[export] Instance mem_badger_view : BadgerView := {|
  badger_dir := fst;
  badger_unused := λ _ _, True;
  badger_vacant := λ _ _, True;
  badger_at := λ w it db m o, t_holds w db.2 m ∧ b_at w it m o;
|}.

(** No call of RocksDB touches the other stores. *)
Lemma mem_rocks_call P (w w' : mworld) :
  rocks_call P w w' → w_kvs w' = w_kvs w ∧ w_txns w' = w_txns w.
Proof.
  destruct 1; cbn in *; unfold m_open_as, m_get, m_write, m_create_checkpoint;
    repeat case_match; by simplify_eq/=.
Qed.

Lemma mem_rocks_calls P (w w' : mworld) :
  rtc (rocks_call P) w w' → w_kvs w' = w_kvs w ∧ w_txns w' = w_txns w.
Proof.
  induction 1 as [|w1 w2 w3 Hc _ [E1 E2]]; [done|]. apply mem_rocks_call in Hc as [E3 E4].
  split; congruence.
Qed.

Lemma b_at_next (w : mworld) it m l :
  b_at w it m (Some l) → b_at (m_iter_move (λ i, S (mi_pos i)) it w) it m (Some (tail l)).
Proof.
  intros (i & Hi & Hm & ->). eexists. cbn. rewrite lookup_alter_eq, Hi. split; [done|].
  split; [done|]. cbn. change (S (mi_pos i)) with (1 + mi_pos i)%nat.
  rewrite Nat.add_comm, <-drop_drop. by destruct (drop _ _).
Qed.

#[export] Instance mem_badger_laws : BadgerLaws.
Proof.
  split; cbn; try done.
  - intros w d db m _ Hm. by case_decide.
  - intros w w' db m [E _]%mem_rocks_call. unfold t_holds. by rewrite E.
  - intros σ σ' t db m us [[E1 E2]%mem_rocks_calls _]. unfold t_tx, t_holds. by rewrite E1, E2.
  - intros σ d b _. unfold wp. cbn. split; [done|]. split; [by split|]. eexists.
    split; [done|]. split; [done|]. apply lookup_insert_eq.
  - intros σ t db m [[us Ht] Hm]. unfold wp. cbn. split; [by split|]. split; [done|].
    rewrite Ht. cbn. unfold t_holds in Hm. rewrite Hm. eexists. split; [apply lookup_insert_eq|done].
  - intros σ it db m o [Hh (i & Hi & Hm & _)]. unfold wp. cbn. split; [by split|].
    exists (scan m). split; [apply scan_is_scan|]. split; [done|]. eexists. cbn.
    rewrite lookup_alter_eq, Hi. by split_and!.
  - intros σ it db m l [Hh (i & Hi & Hm & ->)]. unfold wp. cbn. unfold m_remaining. rewrite Hi. cbn.
    rewrite Hm. split; [done|]. split; [by split|]. split; [done|]. by eexists.
  - intros σ it db m e l Hat. unfold b_key. apply wp_bind, wp_gets. unfold go_bytes.
    apply wp_bind, wp_go_new. intros l' Hl'. apply wp_ret. split; [|done].
    split; [done|by apply insert_subseteq|done|done].
  - intros σ it db m e l [Hh Hat]. unfold wp. cbn. split; [by split|]. split; [done|].
    by apply (b_at_next (world σ) it m (e :: l)).
Qed.
