(* ===== verification/RwSpec.v ===== *)
(** * What rw-bench does with the rocks store

    The steps of [RwBench.rw_main] on that store: the entries it makes, the batch it
    fills, the iteration that counts the keys, and the call of [Close]. *)

From S2P Require Import Prelude Rocks MemRocks Memory Files Rdbc Rdb RdbSpec Strconv Store StoreSpec StoreOpen IterSpec CheckpointSpec Float64 Populate PopulateSpec PopulateMain Scenario RocksCalls RwBench.

From stdpp Require Import relations.
#[local] Open Scope Z_scope.

Section iteration.
Context `{RocksLaws, Libc}.

(** The counting loop visits every entry, given one pass more than there are
    entries.  [P] is what the moves of the iterator [lc] leave alone. *)
Lemma wp_count_loop fuel σ s h sp a p lc it gen m l n (P : st → Prop) (Q : Z → st → Prop) :
  (∀ σ1 σ2 g, P σ1 → cheap σ2 = <[lc := Crdb_iterator_t it g]> (cheap σ1) →
     gheap σ2 = gheap σ1 → P σ2) →
  (∀ σ1 lk sl, P σ1 → gheap σ1 !! lk = None → P (on_gheap <[lk := GSlice sl]> σ1)) →
  store_rep σ s h sp a → iter_before σ p lc it h gen m l → P σ →
  (length l < fuel)%nat → 0 ≤ n → n + blen l < 2 ^ 63 →
  (∀ σ' gen', store_rep σ' s h sp a → iter_before σ' p lc it h gen' m [] → P σ' →
     Q (n + blen l) σ') →
  wp (count_loop fuel p n) σ Q.
Proof.
  intros Hmove Hkey. revert σ gen l n. induction fuel as [|fuel IH]; intros σ gen l n Hr Hit HP Hf Hn Hl HQ.
  { lia. }
  cbn [count_loop]. apply wp_bind. eapply wp_Valid; [exact Hit|].
  destruct l as [|e l].
  - rewrite bool_decide_eq_false_2 by (intros E; by apply E). apply wp_ret.
    specialize (HQ σ gen Hr Hit HP). unfold blen in HQ. simpl in HQ. by rewrite Z.add_0_r in HQ.
  - rewrite bool_decide_eq_true_2 by done. apply wp_bind. eapply wp_Key; [exact Hit|].
    intros lk Hlk. set (σ1 := on_gheap _ σ). assert (grows σ σ1) as Hg by by apply grows_go.
    assert (store_rep σ1 s h sp a) as Hr1 by (by eapply store_rep_same_world).
    eapply (iter_before_grows σ σ1) in Hit; [|done|done].
    assert (P σ1) as HP1 by (by apply Hkey). clearbody σ1.
    apply wp_bind. eapply wp_Next; [exact Hr1|exact Hit|]. intros σ2 Hr2 Hit2 Ec2 Eg2.
    assert (blen (e :: l) = 1 + blen l) as El by (unfold blen; simpl; lia).
    pose proof (blen_nonneg l).
    assert (wrap_s 64 (n + 1) = n + 1) as ->.
    { unfold wrap_s. change (64 - 1) with 63. rewrite Z.mod_small; lia. }
    eapply IH; [exact Hr2|exact Hit2|by eapply Hmove|simpl in Hf; lia|lia|lia|].
    intros σ3 g3 Hr3 Hit3 HP3. replace (n + 1 + blen l) with (n + blen (e :: l)) by lia. by apply (HQ _ g3).
Qed.

Lemma is_scan_length m l : is_scan m l → blen l = Z.of_nat (size m).
Proof.
  intros [Hp _]. unfold blen. rewrite Hp. by rewrite length_map_to_list.
Qed.

(** The count, and the state [Close] is then called in: the iterator is live. *)
Lemma wp_rocks_count fuel σ σr s h sp a lw c b us (Q : Z → st → Prop) :
  store_rep σr s h sp a → batch_state σr σ (PG lw) c b → wb_updates b = us →
  Forall update_ok us →
  let m := apply_updates us (kv_live a) in
  (size m < fuel)%nat → Z.of_nat (size m) < 2 ^ 63 →
  (∀ σ', rocks_end s (PG lw) σ' = Fault (Undefined "DB::~DB") → Q (Z.of_nat (size m)) σ') →
  wp (rocks_count fuel s (PG lw)) σ Q.
Proof.
  intros Hr Hbs Hb Hus m Hfuel Hsize HQ. unfold rocks_count.
  apply wp_bind. eapply wp_Store_WriteBatch; [exact Hr|exact Hbs|exact Hb|exact Hus|].
  intros w Hr1 _. apply wp_bind, wp_ret.
  destruct Hbs as (Hnone & Hch & Hgh & _ & Hwb).
  set (σ1 := with_world w σ).
  assert (store_rep σ1 s h sp (KV m (kv_read a) (kv_snaps a))) as Hr1'.
  { eapply store_rep_same_world; [exact Hr1| |done]. split; [|exact Hgh].
    cbn. rewrite Hch. by apply insert_subseteq. }
  assert (holds_batch lw c b σ1) as Hb1.
  { split; [exact Hwb|]. cbn. rewrite Hch. apply lookup_insert_eq. }
  clearbody σ1. apply wp_bind. eapply wp_Store_NewIterator; [exact Hr1'|].
  intros p lc it σ2 Hr2 Hit2 Hg2 _. assert (holds_batch lw c b σ2) as Hb2.
  { destruct Hb1, Hg2. split; by eapply lookup_weaken. }
  assert (c ≠ lc) as Hne.
  { intros ->. destruct Hit2 as (_ & Hlc & _), Hb2 as [_ Hc]. congruence. }
  apply wp_bind. eapply wp_SeekToFirst; [exact Hr2|exact Hit2|].
  intros l σ3 Hscan Hr3 Hit3 Ec3 Eg3. apply is_scan_length in Hscan. cbn [kv_live] in Hscan.
  assert (holds_batch lw c b σ3) as Hb3.
  { destruct Hb2 as [Hw2 Hc2]. split; [by rewrite Eg3|]. by rewrite Ec3, lookup_insert_ne. }
  eapply (wp_count_loop _ _ _ _ _ _ _ lc _ _ _ _ _ (holds_batch lw c b));
    [| |exact Hr3|exact Hit3|exact Hb3|unfold blen in Hscan; lia|lia|lia|].
  { intros σ4 σ5 g [Hw4 Hc4] Ec Eg. split; [by rewrite Eg|]. by rewrite Ec, lookup_insert_ne. }
  { intros σ4 lk sl [Hw4 Hc4] Hlk. split; [|done]. cbn. rewrite lookup_insert_ne; congruence. }
  intros σ4 g4 Hr4 [(_ & _ & _ & Hlive) _] [Hw4 Hc4]. rewrite Z.add_0_l, Hscan. apply HQ.
  unfold rocks_end. erewrite bind_ret; [|by eapply (WriteBatch_Destroy_spec _ lw c b)].
  destruct Hr4 as [_ _ _ _ (x & ro & wo & [Hx (d & Hd & Hc) _ _ _ _])].
  set (σ5 := on_gheap _ _).
  assert (∀ q o, go_at σ4 q o → as_WriteBatch o = None → go_at σ5 q o) as Hgo.
  { intros [|lq| |] o Hq Ho; try done. simpl in *. rewrite lookup_insert_ne; [done|].
    intros ->. rewrite Hw4 in Hq. by simplify_eq. }
  apply (Store_Close_live σ5 s x h it); [by apply Hgo| |exact Hlive].
  exists d. split; [by apply Hgo|]. destruct (db_c d) as [| |ld|]; try done. simpl in *.
  rewrite lookup_delete_ne; [done|]. intros ->. congruence.
Qed.
End iteration.

Section entries.
Context `{RocksLaws, Libc}.
Context (numKeys valueSize : Z).
Context (Hvs : 0 ≤ valueSize < 2 ^ 63) (Hkeys : 0 < key_bound numKeys).

(** ** The store *)

Definition rocks_dir : bytes := bs "tmp/rocks".

(** [I] is what the file system and RocksDB keep while the store is opened. *)
Lemma wp_open_rw_rocks `{!OS, !OSLaws} (I : World → Prop) σ (Q : ptr → st → Prop) :
  faultless (world σ) → unused (world σ) rocks_dir →
  I (world σ) →
  (∀ w, I w → I (os_RemoveAll_w rocks_dir w).2) →
  (∀ w perm, I w → I (os_MkdirAll_w rocks_dir perm w).2) →
  (∀ w w', rocks_call (eq rocks_dir) w w' → I w → I w') →
  (∀ s h σ', store_rep σ' s h [] (KV ∅ None []) → I (world σ') → Q s σ') →
  wp open_rw_rocks σ Q.
Proof.
  intros Hf Hu HI Hrm Hmk Hcall HQ. unfold open_rw_rocks.
  destruct (law_RemoveAll (world σ) rocks_dir Hf) as (w1 & E1 & Hst1 & Hd1 & _);
    [by apply (bool_decide_unpack _); vm_compute|done|].
  destruct (law_MkdirAll w1 rocks_dir 511) as (e & w2 & E2 & Hst2 & Hd2);
    [by eapply stable_faultless|].
  assert (I w2) as HI2.
  { specialize (Hmk w1 511). rewrite E2 in Hmk. apply Hmk. specialize (Hrm _ HI).
    by rewrite E1 in Hrm. }
  apply wp_bind. eapply wp_engine; [exact E1|]. apply wp_bind, wp_ret.
  apply wp_bind. eapply wp_engine; [exact E2|].
  apply wp_bind, (wp_leaves (eq rocks_dir)); [apply leaves_NewStore; by vm_compute|].
  eapply (wp_NewStore_rep _ _ ∅); [|by apply map_Forall_empty| |].
  - by eapply stable_faultless; [|eapply stable_faultless].
  - right. split; [|done]. cbn [world on_world]. by rewrite Hd2.
  - intros s h σ1 Hr1 _ _ _ _ _ _ _ [Hc _]. apply wp_bind, wp_ret, wp_ret.
    eapply HQ; [exact Hr1|]. cbn [world on_world] in Hc.
    clear -Hc HI2 Hcall. induction Hc; eauto.
Qed.

(** ** createEntries *)

Definition rw_key (r : draw) : bytes := key_of valueSize (rand_Intn r (key_bound numKeys)).
Definition rw_update (r : draw) : update := UPut (rw_key r) (rand_Read r valueSize).

Lemma rw_update_ok r : draw_ok r → update_ok (rw_update r).
Proof.
  intros (_ & Hn & Hl). split.
  - apply key_of_len_ok; [lia|]. pose proof (Hn _ Hkeys). assert (key_bound numKeys < 2 ^ 63); [|lia].
    unfold key_bound, wrap_s. change (64 - 1) with 63.
    pose proof (Z.mod_pos_bound (((numKeys * mil + 2 ^ 63) mod 2 ^ 64 - 2 ^ 63) * 10 + 2 ^ 63) (2 ^ 64)).
    lia.
  - unfold len_ok. rewrite Hl; lia.
Qed.

Lemma wp_rw_fillEntry σ c r (Q : unit → st → Prop) :
  entry_at valueSize σ c → draw_ok r → NoDup (ec_locs c) →
  (∀ lk σ', lk = c_k c ∨ gheap σ !! lk = None → frame (ec_locs c) σ σ' →
     entry_at valueSize σ' (EC (c_e c) lk (c_v c)) →
     entry_shows σ' (EC (c_e c) lk (c_v c)) (rw_key r) (rand_Read r valueSize) → Q tt σ') →
  wp (fillEntry numKeys valueSize (PG (c_e c)) r) σ Q.
Proof.
  intros Hc Hr Hnd HQ. unfold fillEntry. rewrite (proj2 (Z.leb_gt _ _)) by done.
  fold (rw_key r). destruct (rw_update_ok r Hr) as [Hk _]. by eapply wp_set_entry.
Qed.

(** What [createEntries] has done after the draws [rs]: the batch is at [c]. *)
Definition created (σ0 : st) (lw c : loc) (us0 : list update) (rs : list draw) (σ : st) : Prop :=
  gheap σ !! lw = Some (GWriteBatch (PC c)) ∧ world σ = world σ0 ∧
  ∃ b, cheap σ = <[c := Crdb_writebatch_t b]> (cheap σ0) ∧
       wb_updates b = us0 ++ (rw_update <$> rs).

Lemma wp_create_loop cs rs σ0 σ lw c (Q : unit → st → Prop) :
  length cs = length rs → Forall (entry_at valueSize σ) cs → Forall draw_ok rs → separated cs →
  created σ0 lw c [] [] σ →
  (∀ cs' σ', go_frame (cs ≫= ec_locs) σ σ' → c_e <$> cs' = c_e <$> cs →
     Forall (entry_at valueSize σ') cs' →
     entries_show rw_key (λ r, rand_Read r valueSize) σ' cs' rs →
     created σ0 lw c [] rs σ' → Q tt σ') →
  wp (for_each (λ '(e, r),
    fillEntry numKeys valueSize e r;;
    x ← go_load as_entry e;
    WriteBatch_Put (PG lw) (e_Key x) (e_Value x)) (zip ((λ c, PG (c_e c)) <$> cs) rs)) σ Q.
Proof.
  intros Hlen Hat Hrs Hsep Hcr HQ.
  eapply (wp_entries_loop valueSize rw_key (λ r, rand_Read r valueSize)
    (created σ0 lw c []) (λ e r, fillEntry numKeys valueSize e r;;
      x ← go_load as_entry e; WriteBatch_Put (PG lw) (e_Key x) (e_Value x)) _ _ []); [|done..|].
  - intros ce r ds σ1 Q1 Hc Hr Hnd (Hlw & Ew & b & Ec & Hb) HQ1.
    assert (lw ∉ ec_locs ce) as Hlwn.
    { destruct Hc as (n & a & v & meta & He & Hk & Hv & _). unfold ec_locs.
      intros Hin. assert (lw = c_e ce ∨ lw = c_k ce ∨ lw = c_v ce) as [->|[->| ->]]; [set_solver|congruence..]. }
    apply wp_bind. eapply wp_rw_fillEntry; [done..|].
    intros lk σ2 Hlk [(Ec2 & Ew2 & _) Hg2] Hat2 Hsh2. pose proof Hsh2 as (x & Hx & Hxk & Hxv).
    apply wp_bind. eapply wp_go_load; [exact Hx|done|].
    assert (gheap σ2 !! lw = Some (GWriteBatch (PC c))) as Hlw2 by (by apply Hg2).
    unfold wp. erewrite (WriteBatch_Put_spec _ _ c b);
      [|exact Hlw2|rewrite Ec2, Ec; apply lookup_insert_eq|exact Hxk|exact Hxv].
    eapply (HQ1 lk); [done|exact Hg2|exact Hat2| |].
    { eapply (entry_shows_keep valueSize σ2); [by intros l o _|exact Hat2|exact Hsh2]. }
    split; [exact Hlw2|]. split; [cbn; congruence|]. exists (wb_Put b (rw_key r) (rand_Read r valueSize)).
    split; [cbn; by rewrite Ec2, Ec, insert_insert_eq|].
    by rewrite law_wb_put, Hb, fmap_app, <-app_assoc.
  - intros cs' σ' Hg Ee _ Hat' _ Hsh Hinv. by apply (HQ cs').
Qed.

(** ** From the open store to the full batch *)

(** The store [s] is empty, the batch at [c] holds the updates of the draws, and the
    entries [cs] show them.  The store is represented beside the batch. *)
Definition filled (σ : st) (s : ptr) (h : handle) (lw c : loc) (cs : list ecell)
    (rs : list draw) : Prop :=
  (∃ b, wb_updates b = rw_update <$> rs ∧ holds_batch lw c b σ) ∧
  store_rep (on_cheap (delete c) σ) s h [] (KV ∅ None []) ∧
  Forall (entry_at valueSize σ) cs ∧
  entries_show rw_key (λ r, rand_Read r valueSize) σ cs rs.

Lemma wp_create σ s h rs (Q : ptr → list ptr → st → Prop) :
  store_rep σ s h [] (KV ∅ None []) → Forall draw_ok rs →
  (∀ σ' lw c cs, world σ' = world σ → filled σ' s h lw c cs rs →
     Q (PG lw) ((λ c, PG (c_e c)) <$> cs) σ') →
  wp (new_entries valueSize (length rs)) σ (λ entries σ1,
    wp (createEntries numKeys valueSize s entries rs) σ1 (λ rb σ', Q rb entries σ')).
Proof.
  intros Hr1 Hrs HQ.
  apply (wp_new_entries _ Hvs). intros cs σ2 Hcs Hg2 Ec2 Ew2 Hat2 Hsep2 _.
  assert (store_rep σ2 s h [] (KV ∅ None [])) as Hr2 by (by eapply store_rep_same_world).
  unfold createEntries, Store_NewWriteBatch, NewWriteBatch.
  apply wp_bind, wp_bind, wp_c_new. intros c Hc. apply wp_go_new. intros lw Hlw.
  set (σ3 := on_gheap _ _). apply wp_bind.
  assert (gheap σ2 ⊆ gheap σ3) as Hg3 by (by apply insert_subseteq).
  assert (Forall (entry_at valueSize σ3) cs) as Hat3
    by (eapply Forall_impl; [exact Hat2|]; intros; by eapply entry_at_gheap).
  apply (wp_create_loop cs rs σ2 σ3 lw c); [done|exact Hat3|done|done| |].
  { split; [apply lookup_insert_eq|]. split; [done|]. exists wb_empty.
    by rewrite law_wb_empty. }
  intros cs' σ4 [_ Hg4] Ee Hat4 Hsh4 (Hlw4 & Ew4 & b & Ec4 & Hb). apply wp_ret.
  replace ((λ c, PG (c_e c)) <$> cs) with ((λ c, PG (c_e c)) <$> cs').
  2:{ trans (PG <$> (c_e <$> cs')); [apply (list_fmap_compose c_e PG)|]. rewrite Ee.
      symmetry. apply (list_fmap_compose c_e PG). }
  apply (HQ _ lw c); [by rewrite Ew4|]. split_and!; [|  |exact Hat4|exact Hsh4].
  - exists b. split; [exact Hb|]. split; [exact Hlw4|]. rewrite Ec4. apply lookup_insert_eq.
  - eapply (store_rep_data (cs ≫= ec_locs) σ2); [exact Hr2| |done| |].
    + cbn. by rewrite Ec4, delete_insert_id.
    + intros l o Hl Ho. cbn. apply Hg4; [done|]. by eapply lookup_weaken.
    + intros l o Hl Ho. exact (entries_data _ _ _ _ _ Hat2 Hl Ho).
Qed.

Lemma wp_rocks_count_filled fuel σ s h lw c cs rs (Q : Z → st → Prop) :
  filled σ s h lw c cs rs → Forall draw_ok rs → blen rs < 2 ^ 63 → (length rs < fuel)%nat →
  (∀ σ', rocks_end s (PG lw) σ' = Fault (Undefined "DB::~DB") →
     Q (Z.of_nat (size (list_to_set (rw_key <$> rs) : gset bytes))) σ') →
  wp (rocks_count fuel s (PG lw)) σ Q.
Proof.
  intros ((b & Hb & Hlw & Hc) & Hr & _ & _) Hrs Hlen Hfuel HQ.
  assert (size (list_to_set (rw_key <$> rs) : gset bytes) ≤ length rs)%nat as Hsz.
  { rewrite <-(length_fmap rw_key rs). apply size_list_to_set_le. }
  assert (size (apply_updates (rw_update <$> rs) ∅) =
          size (list_to_set (rw_key <$> rs) : gset bytes)) as Esz.
  { rewrite <-size_dom. unfold rw_update. rewrite puts_dom, dom_empty_L. f_equal. set_solver. }
  eapply (wp_rocks_count _ σ (on_cheap (delete c) σ) s h [] (KV ∅ None []) lw c b (rw_update <$> rs)).
  - exact Hr.
  - split_and!; [apply lookup_delete_eq|cbn; by rewrite insert_delete_id|done|done|exact Hlw].
  - exact Hb.
  - apply Forall_fmap. eapply Forall_impl; [exact Hrs|]. apply rw_update_ok.
  - cbn [kv_live]. rewrite Esz. lia.
  - cbn [kv_live]. rewrite Esz. unfold blen in Hlen. lia.
  - intros σ' He. cbn [kv_live]. rewrite Esz. by apply HQ.
Qed.

End entries.
