(* ===== verification/RwMainSpec.v ===== *)
(** * The two counts of rw-bench

    [RwBench.rw_main] whole: badger and rocks are open together, the entries go to
    both, and both are counted; between the counts, the rocks store is closed while its
    iterator is live, which RocksDB does not allow.  While rocks runs, badger's transaction is open: what
    the rocks calls leave alone ([RocksCalls.v]) is what keeps it. *)

From S2P Require Import Prelude Rocks MemRocks Memory Files Rdbc Rdb RdbSpec Strconv Store StoreSpec StoreOpen IterSpec CheckpointSpec Float64 Populate PopulateSpec PopulateMain Scenario Libraries MemStores OtherStores RocksCalls RwBench BadgerSpec RwSpec.
From stdpp Require Import relations.
#[local] Open Scope Z_scope.

Section leaves.
Context `{RocksDB, Libc} (P : bytes → Prop).

Lemma leaves_count_loop fuel it n : leaves P (count_loop fuel it n).
Proof. revert n. induction fuel as [|fuel IH]; intros n; cbn [count_loop]; leaves. Qed.
#[local] Hint Resolve leaves_count_loop : leaves.

Lemma leaves_rocks_count fuel s rb : leaves P (rocks_count fuel s rb).
Proof. unfold rocks_count, check_error. leaves. Qed.
End leaves.

Section rw.
Context `{BadgerLaws, Libc}.
Context `{!RocksLaws, !OSLaws, !StoresLaws}.

(** ** badger *)

(** The loop visits every entry the iterator has before it. *)
Lemma wp_badger_loop fuel σ it db m l n (Q : Z → st → Prop) :
  badger_at (world σ) it db m (Some l) → (length l < fuel)%nat → 0 ≤ n → n + blen l < 2 ^ 63 →
  (∀ σ', badger_at (world σ') it db m (Some []) → Q (n + blen l) σ') →
  wp (badger_loop fuel it n) σ Q.
Proof.
  revert σ l n. induction fuel as [|fuel IH]; intros σ l n Hat Hf Hn Hl HQ; [lia|].
  cbn [badger_loop]. apply wp_bind. eapply wp_mono; [by apply law_badger_Valid|].
  intros v σ1 (-> & _ & Hat1). destruct l as [|e l].
  { rewrite bool_decide_eq_false_2 by (intros E; by apply E). apply wp_ret.
    specialize (HQ σ1 Hat1). unfold blen in HQ. simpl in HQ. by rewrite Z.add_0_r in HQ. }
  rewrite bool_decide_eq_true_2 by done. apply wp_bind.
  eapply wp_mono; [by apply law_badger_ItemKey|]. intros k σ2 (_ & Hat2).
  apply wp_bind. eapply wp_mono; [by eapply law_badger_Next|]. intros [] σ3 (_ & Hat3).
  assert (blen (e :: l) = 1 + blen l) as El by (unfold blen; simpl; lia).
  pose proof (blen_nonneg l). assert (wrap_s 64 (n + 1) = n + 1) as ->.
  { unfold wrap_s. change (64 - 1) with 63. rewrite Z.mod_small; lia. }
  apply (IH σ3 l); [exact Hat3|simpl in Hf; lia|lia|lia|].
  intros σ4 Hat4. replace (n + 1 + blen l) with (n + blen (e :: l)) by lia. by apply HQ.
Qed.

Lemma wp_badger_phase fuel σ db txn m us (Q : Z → st → Prop) :
  badger_tx σ txn db m us → let m' := apply_updates us m in
  (size m' < fuel)%nat → Z.of_nat (size m') < 2 ^ 63 →
  (∀ σ', Q (Z.of_nat (size m')) σ') →
  wp (badger_phase fuel db txn) σ Q.
Proof.
  intros Ht m' Hf Hs HQ. unfold m' in *. clear m'. unfold badger_phase. apply wp_bind.
  eapply wp_mono; [by eapply law_badger_Commit|]. intros err σ1 (-> & _ & Hm1).
  apply wp_bind, wp_ret, wp_bind. eapply wp_mono; [by eapply law_badger_reader|].
  intros txn' σ2 [_ Hr2]. apply wp_bind. eapply wp_mono; [by eapply law_badger_NewIterator|].
  intros it σ3 [_ Hat3]. apply wp_bind. eapply wp_mono; [by eapply law_badger_Rewind|].
  intros [] σ4 (_ & l & Hl & Hat4). apply is_scan_length in Hl. apply wp_bind.
  eapply wp_badger_loop; [exact Hat4|unfold blen in Hl; lia|lia|lia|].
  intros σ5 Hat5. rewrite Z.add_0_l, Hl. apply wp_bind.
  eapply wp_mono; [by eapply law_badger_Close|]. intros err' σ6 _. by apply wp_ret.
Qed.

(** ** The two stores together *)

Definition badger_path : bytes := bs "tmp/badger".

Lemma rw_siblings : siblings rocks_dir badger_path.
Proof.
  exists (bs "tmp"), (bs "rocks"), (bs "badger"). split; [done|]. split; [done|].
  unfold name. split_and!; (apply (bool_decide_unpack _); vm_compute; done) || done.
Qed.

(** What rw-bench keeps of badger while it works on the rocks store. *)
Definition beside (db : badger_DB) (m : gmap bytes bytes) (w : World) : Prop :=
  badger_dir db = badger_path ∧ badger_holds w db m.

Lemma rw_call db w w' :
  badger_dir db = badger_path → rocks_call (eq rocks_dir) w w' →
  rocks_call (λ d, siblings d (badger_dir db)) w w'.
Proof. intros E. apply rocks_call_mono. intros d <-. rewrite E. apply rw_siblings. Qed.

Lemma wp_open_rw_badger σ (Q : option badger_DB → st → Prop) :
  faultless (world σ) → unused (world σ) badger_path → badger_unused (world σ) badger_path →
  (∀ db σ', faultless (world σ') → (∀ d, unused (world σ) d → unused (world σ') d) →
     beside db ∅ (world σ') → Q (Some db) σ') →
  wp open_rw_badger σ Q.
Proof.
  intros Hf Hu Hb HQ. unfold open_rw_badger. cbv zeta.
  assert (NUL_free badger_path) as Hn by (apply (bool_decide_unpack _); vm_compute; done).
  pose proof (law_badger_RemoveAll (world σ) badger_path Hf Hn Hu Hb) as Hv.
  destruct (law_RemoveAll (world σ) badger_path Hf Hn Hu) as (w1 & E1 & Hst1 & _ & Hd1).
  rewrite E1 in Hv. cbn [snd] in Hv. assert (faultless w1) as Hf1 by (by eapply stable_faultless).
  destruct (law_MkdirAll w1 badger_path 511 Hf1) as (e & w2 & E2 & Hst2 & Hd2).
  apply (law_badger_MkdirAll _ _ 511) in Hv. rewrite E2 in Hv. cbn [snd] in Hv.
  apply wp_bind. eapply wp_engine; [exact E1|]. apply wp_bind, wp_ret.
  apply wp_bind. eapply wp_engine; [exact E2|]. apply wp_bind.
  eapply wp_mono; [by apply law_badger_Open|].
  intros [r err] σ1 (-> & Hs & db & -> & Hdir & Hm). apply wp_bind, wp_ret, wp_ret.
  apply HQ; [| |done].
  - eapply stable_faultless; [apply Hs|]. by eapply stable_faultless.
  - intros d Hd d' Hbelow. rewrite (ls_disk _ _ Hs). cbn [world on_world]. rewrite Hd2.
    destruct (Hd1 d') as [-> | ->]; [by apply Hd|done].
Qed.

(** The put loop of [rw_main] leaves the batch and the rocks store as they are. *)
Lemma filled_step numKeys valueSize σ σ' s h lw c cs rs :
  filled numKeys valueSize σ s h lw c cs rs → lib_step σ σ' →
  filled numKeys valueSize σ' s h lw c cs rs.
Proof.
  intros ((b & Hb & Hlw & Hc) & Hr & Hat & Hsh) [Ec Hg Hst _]. split_and!.
  - exists b. split; [done|]. split; [by eapply lookup_weaken|]. by rewrite Ec.
  - eapply store_rep_read; [exact Hr| |exact Hst]. split; [|exact Hg]. cbn. by rewrite Ec.
  - eapply Forall_impl; [exact Hat|]. intros. by eapply entry_at_gheap.
  - by eapply entries_show_gheap.
Qed.

Context (numKeys valueSize : Z).
Context (Hvs : 0 ≤ valueSize < 2 ^ 63) (Hkeys : 0 < key_bound numKeys).
Abbreviation update_of := (rw_update numKeys valueSize).
Abbreviation keys rs := (list_to_set (rw_key numKeys valueSize <$> rs) : gset bytes).

Lemma rw_updates_size rs :
  size (apply_updates (update_of <$> rs) ∅) = size (keys rs) ∧ (size (keys rs) ≤ length rs)%nat.
Proof.
  split.
  - rewrite <-size_dom. unfold rw_update. rewrite puts_dom, dom_empty_L. f_equal. set_solver.
  - rewrite <-(length_fmap (rw_key numKeys valueSize) rs). apply size_list_to_set_le.
Qed.

(** What [main] has before the first print: the batch of rocks, and the transaction of
    badger with the same updates. *)
Definition started (rs : list draw) (bdg : badger_DB) (txn : badger_Txn) (rocks rb : ptr)
    (σ : st) : Prop :=
  badger_dir bdg = badger_path ∧ badger_tx σ txn bdg ∅ (update_of <$> rs) ∧
  ∃ h lw c cs, rb = PG lw ∧ filled numKeys valueSize σ rocks h lw c cs rs.

Lemma wpf_rw_start σ rs :
  faultless (world σ) → unused (world σ) rocks_dir → unused (world σ) badger_path →
  badger_unused (world σ) badger_path → Forall draw_ok rs →
  wpf (rw_start numKeys valueSize rs) σ
    (λ '(bdg, txn, rocks, rb) σ', accepts Badger (update_of <$> rs) = true ∧
       started rs bdg txn rocks rb σ')
    (stops_if_refused (accepts Badger) (update_of <$> rs)).
Proof.
  intros Hf Hur Hub Hb Hrs. unfold rw_start.
  apply wpf_bind, wp_open_rw_badger; [done..|]. intros db σ1 Hf1 Hu1 Hbes1.
  apply wpf_bind, (wp_open_rw_rocks (beside db ∅)); [done|by apply Hu1|done| | | |].
  { intros w [Hdir Hm]. split; [done|]. apply law_badger_keep_RemoveAll; [|done].
    rewrite Hdir. apply rw_siblings. }
  { intros w perm [Hdir Hm]. split; [done|]. apply law_badger_keep_MkdirAll; [|done].
    rewrite Hdir. apply rw_siblings. }
  { intros w w' Hcall [Hdir Hm]. split; [done|]. eapply law_badger_keep_call; [|done].
    by apply rw_call. }
  intros s h σ2 Hr2 [Hdir Hm2]. apply wpf_bind.
  eapply wp_mono; [apply (wp_create numKeys valueSize Hvs Hkeys σ2 s h rs (λ rb es σ', ∃ lw c cs,
    rb = PG lw ∧ es = ((λ c, PG (c_e c)) <$> cs) ∧ filled numKeys valueSize σ' s h lw c cs rs ∧
    world σ' = world σ2)); [done|done|]|].
  { intros σ3 lw c cs Ew Hfill. by exists lw, c, cs. }
  intros es σ3 Hcr. apply wpf_bind. eapply wp_mono; [exact Hcr|].
  intros rb σ4 (lw & c & cs & -> & -> & Hfill & Ew). apply wpf_bind, wp_ret, wpf_bind.
  eapply wp_mono; [apply law_badger_NewTransaction; by rewrite Ew|]. intros txn σ5 [Hs5 Ht5].
  eapply filled_step in Hfill; [|exact Hs5]. pose proof Hfill as (_ & _ & Hat & Hsh).
  apply wpf_bind_stop. eapply (wp_put_badger valueSize (rw_key numKeys valueSize)
    (λ r, rand_Read r valueSize)); [exact Ht5|by split|].
  intros σ6 Hacc Hs6 Ht6. apply wpf_wp, wp_ret. split; [exact Hacc|]. split; [exact Hdir|].
  split; [exact Ht6|]. exists h, lw, c, cs. split; [done|]. by eapply filled_step.
Qed.

(** The count of rocks, and what comes after it. *)
Lemma wp_rw_count fuel σ rs bdg txn rocks rb :
  started rs bdg txn rocks rb σ → Forall draw_ok rs → blen rs < 2 ^ 63 → (length rs < fuel)%nat →
  wp (rocks_count fuel rocks rb) σ (λ count σ', count = Z.of_nat (size (keys rs)) ∧
    rocks_end rocks rb σ' = Fault (Undefined "DB::~DB") ∧
    badger_tx σ' txn bdg ∅ (update_of <$> rs)).
Proof.
  intros (Hdir & Ht & h & lw & c & cs & -> & Hfill) Hrs Hlen Hfuel.
  eapply (wp_leaves (λ d, siblings d (badger_dir bdg))); [apply leaves_rocks_count|].
  eapply wp_rocks_count_filled; [done..|]. intros σ' Hend Haside.
  split_and!; [done|exact Hend|by eapply law_badger_tx_keep].
Qed.

(** C17: the two stores of rw-bench, opened and used together, whatever the two
    directories held.  If badger cannot take all the entries in one transaction, the
    program stops in [y.Check].  Otherwise it runs without a fault up to the first
    number of unique keys it prints, which is the number of distinct keys among the
    entries.  The [rocks.Close] that follows is called while the iterator of the count
    is live, which RocksDB does not allow: nothing is promised of the program from
    there on.  If it gets through with badger's transaction as it was, the phase of
    badger runs without a fault and prints the same number. *)
Theorem rw_main_counts_agree fuel σ rs :
  faultless (world σ) → unused (world σ) rocks_dir → unused (world σ) badger_path →
  badger_unused (world σ) badger_path →
  Forall draw_ok rs → blen rs < 2 ^ 63 → (length rs < fuel)%nat →
  let accepted := accepts Badger (update_of <$> rs) in
  wpf ('(bdg, txn, rocks, rb) ← rw_start numKeys valueSize rs;
       count ← rocks_count fuel rocks rb;
       mret (bdg, txn, rocks, rb, count)) σ
    (λ '(bdg, txn, rocks, rb, count) σ1, accepted = true ∧ count = Z.of_nat (size (keys rs)) ∧
       rocks_end rocks rb σ1 = Fault (Undefined "DB::~DB") ∧
       ∀ σ2, (∀ m us, badger_tx σ1 txn bdg m us → badger_tx σ2 txn bdg m us) →
         wp (badger_phase fuel bdg txn) σ2 (λ bcount _, bcount = count))
    (λ e, accepted = false ∧ e = Fatal "y.Check") ∧
  rw_main numKeys valueSize fuel rs σ =
    Fault (if accepted then Undefined "DB::~DB" else Fatal "y.Check").
Proof.
  intros Hf Hur Hub Hb Hrs Hlen Hfuel accepted. destruct (rw_updates_size rs) as [Esz Hsz].
  pose proof (wpf_rw_start σ rs Hf Hur Hub Hb Hrs) as Hs. split.
  - apply wpf_bind_stop. eapply wpf_mono; [exact Hs|]. intros [[[bdg txn] rocks] rb] σ0 [Hacc Hst].
    apply wpf_bind. eapply wp_mono; [by eapply wp_rw_count|].
    intros count σ1 (-> & Hend & Ht). apply wpf_wp, wp_ret. split_and!; [done|done|done|].
    intros σ2 Hkeep. apply Hkeep in Ht.
    eapply wp_badger_phase; [exact Ht|rewrite Esz; lia|rewrite Esz; unfold blen in Hlen; lia|].
    intros σ3. by rewrite Esz.
  - unfold rw_main. unfold wpf in Hs. unfold mbind at 1, M_bind at 1.
    destruct (rw_start _ _ _ _) as [[[[bdg txn] rocks] rb] σ0|e]; [|by destruct Hs as [Ha ->]; fold accepted in Ha; rewrite Ha].
    destruct Hs as [Ha Hst]. fold accepted in Ha. rewrite Ha.
    eapply fault_of_wp; [by eapply (wp_rw_count fuel)|]. intros count σ1 (_ & Hend & _).
    by apply bind_fault.
Qed.
End rw.

(** Three entries, two of the same key. *)
Lemma rw_main_counts_agree_witness :
  let rs := [demo_draw 7; demo_draw 8; demo_draw 10000007] in
  wp ('(bdg, txn, rocks, rb) ← rw_start 1 4 rs;
      count ← rocks_count 10 rocks rb;
      mret (bdg, txn, rocks, rb, count)) sigma0
    (λ '(_, _, _, _, count) _, count =
       Z.of_nat (size (list_to_set (rw_key 1 4 <$> rs) : gset bytes))) ∧
  size (list_to_set (rw_key 1 4 <$> rs) : gset bytes) = 2%nat ∧
  rw_main 1 4 10 rs sigma0 = Fault (Undefined "DB::~DB").
Proof.
  intros rs. destruct (rw_main_counts_agree 1 4 ltac:(lia) ltac:(done) 10 sigma0 rs) as [Hw Hm];
    [done|by intros d _|by intros d _|done|repeat constructor; apply demo_draw_ok; lia|done
    |simpl; lia|].
  split_and!; [|by vm_compute|exact Hm].
  eapply wp_mono; [eapply wpf_returns; [exact Hw|]|].
  - by intros e [E _].
  - by intros [[[[bdg txn] rocks] rb] count] σ' (_ & Hc & _).
Defined.
