(* ===== verification/RandRead.v ===== *)
(** * The program randread: the files and the serial mode

    randread/main.go reads random blocks of the files of a directory until a timer
    sets the flag [done].  This file has the choice of a block ([getIndices]), the
    collection of the files ([getFile], [collect]) and the serial loop ([Serial]).
    The histogram library is the parameter [Hist].  The concurrent modes are in
    [RandConc.v]. *)

From S2P Require Import Prelude Float64.

(** ** Files *)

(** An open file: [os.File] with the size the read calls see. *)
Record file := File { f_name : bytes; f_size : Z }.

Definition readSize : Z := 2 ^ 10.

(** [fd.ReadAt(b, off)] with [len(b) = readSize]: an error when fewer bytes are
    left (io.EOF), or when the system reports one. *)
Definition ReadAt (f : file) (off : Z) (io_ok : bool) : option string :=
  if negb io_ok then Some "input/output error"%string else
  if off + readSize <=? f_size f then None else Some "EOF"%string.

(** ** Collecting the files *)

(** What [filepath.Walk] calls [getFile] with. *)
Variant walk_entry :=
| WError                                        (* err != nil *)
| WDir
(* [info_size]: [info.Size()], the size Lstat reports, of a symbolic link its own;
   [size]: what the reads of the opened file see; [opens]: os.Open succeeds *)
| WFile (path : bytes) (info_size size : Z) (opens : bool).

(** The variables of [main] that [getFile] assigns. *)
Record files := Files { flist : list file; maxFileSize : Z }.

Definition getFile (w : walk_entry) : M files unit :=
  match w with
  | WError => mret tt
  | WDir => mret tt
  | WFile path info_size size opens =>
      if opens : bool then
        modS (λ s, Files (flist s ++ [File path size]) info_size)
      else raise (Fatal "y.AssertTruef")
  end.

(** [filepath.Walk] and the check that follows it. *)
Definition collect (ws : list walk_entry) : M files unit :=
  for_each getFile ws;;
  l ← gets flist;
  if decide (l = []) then raise (Fatal "Must have files already created") else mret tt.

(** ** Choosing a block *)

(** The results of [r.Intn] and [r.Int63n], as functions of their argument. *)
Record rdraw := RDraw { r_Intn : Z → Z; r_Int63n : Z → Z }.

Definition rdraw_ok (r : rdraw) : Prop :=
  (∀ n, 0 < n → 0 ≤ r_Intn r n < n) ∧ (∀ n, 0 < n → 0 ≤ r_Int63n r n < n).

(** Both panic when their argument is not positive.  [getAIOIndices] has the same
    body, for a list of [*goaio.AIO]. *)
Definition getIndices {S A} (r : rdraw) (fl : list A) (max : Z) : M S (A * Z) :=
  if blen fl <=? 0 then raise (PanicArg "Intn") else
  let fidx := r_Intn r (blen fl) in
  let n := wrap_s 64 (max - readSize) in
  if n <=? 0 then raise (PanicArg "Int63n") else
  let iidx := r_Int63n r n in
  f ← of_option PanicIndex (fl !! Z.to_nat fidx);
  mret (f, iidx).

(** ** The histogram *)

(** [hdrhistogram.New(1, 1000000, 4)]. *)
Class Hist := {
  hist : Type;
  hist_New : hist;
  hist_RecordValue : hist → Z → option hist;   (* [None]: an error *)
  hist_TotalCount : hist → Z;
}.

(** Documented: a value up to the highest trackable one is recorded. *)
Class HistLaws `{Hist} : Prop := {
  law_hist_new : hist_TotalCount hist_New = 0;
  law_hist_record h v : 0 ≤ v ≤ 1000000 →
    ∃ h', hist_RecordValue h v = Some h' ∧ hist_TotalCount h' = hist_TotalCount h + 1;
}.

(** The duration in microseconds, at most one second. *)
Definition clamp (ns : Z) : Z :=
  let dur := Z.quot ns 1000 in
  if 1000000 <? dur then 1000000 else dur.

(** One pass of a loop: what the load of [done] returns, the random numbers, the
    outcome of the read and its duration. *)
Record tick := Tick { t_done : bool; t_draw : rdraw; t_io_ok : bool; t_ns : Z }.

Section serial.
Context `{Hist}.

(** The body of the loop of [Serial], and of the goroutines of [Conc2]. *)
Definition read_block (fl : list file) (max : Z) (t : tick) : M hist unit :=
  '(fd, offset) ← getIndices (t_draw t) fl max;
  match ReadAt fd offset (t_io_ok t) with
  | Some _ => raise (Fatal "Error reading file")
  | None =>
      h ← getS;
      match hist_RecordValue h (clamp (t_ns t)) with
      | None => raise (Fatal "Unable to record hist")
      | Some h => putS h
      end
  end.

(** [for { if done == 1 { break }; count++; ... }]; the list is the passes the timer
    allows, its end the end of the fuel.  With each pass is what [time.Since(startT)]
    is in seconds at its end, or at its break.  The result is the rates printed on the
    way, one every ten thousand reads, and the rate printed at the end. *)
Fixpoint serial_loop (fl : list file) (max : Z) (ps : list (tick * float64)) (count : Z)
    (rates : list float64) : M hist (list float64 * float64) :=
  match ps with
  | [] => raise OutOfFuel
  | (t, since) :: ps =>
      if t_done t then mret (rates, f64_div (f64_of_Z count) since) else
      let count := wrap_s 64 (count + 1) in
      read_block fl max t;;
      h ← getS;
      let rates :=
        if Z.rem count 10000 =? 0
        then rates ++ [f64_div (f64_of_Z (hist_TotalCount h)) since] else rates in
      serial_loop fl max ps count rates
  end.

(** From a new histogram. *)
Definition Serial (fl : list file) (max : Z) (ps : list (tick * float64)) :
    outcome hist (list float64 * float64) :=
  serial_loop fl max ps 0 [] hist_New.
End serial.

(** ** Facts *)

Lemma clamp_range ns : 0 ≤ ns → 0 ≤ clamp ns ≤ 1000000.
Proof.
  intros Hn. unfold clamp. pose proof (Z.quot_pos ns 1000 Hn).
  destruct (Z.ltb_spec 1000000 (Z.quot ns 1000)); lia.
Qed.

(** [getIndices]: a panic when there is no file, or when the last file is not larger
    than a block; otherwise one of the files, and an offset such that a block ends
    before [max]. *)
Lemma getIndices_spec {S A} r (fl : list A) max (s : S) :
  rdraw_ok r → max < 2 ^ 63 → - 2 ^ 62 ≤ max → blen fl < 2 ^ 63 →
  match getIndices r fl max s with
  | Ret (f, off) s' => s' = s ∧ f ∈ fl ∧ 0 ≤ off ∧ off + readSize < max
  | Fault e => (fl = [] ∧ e = PanicArg "Intn") ∨
               (fl ≠ [] ∧ max ≤ readSize ∧ e = PanicArg "Int63n")
  end.
Proof.
  intros [Hi Ho] Hmax Hmin Hlen. unfold getIndices.
  destruct (Z.leb_spec (blen fl) 0) as [Hl|Hl].
  { left. split; [|done]. unfold blen in Hl. destruct fl; [done|simpl in Hl; lia]. }
  assert (fl ≠ []) as Hne by (intros ->; simpl in Hl; unfold blen in Hl; simpl in Hl; lia).
  assert (wrap_s 64 (max - readSize) = max - readSize) as ->.
  { unfold wrap_s, readSize in *. rewrite Z.mod_small; lia. }
  destruct (Z.leb_spec (max - readSize) 0) as [Hn|Hn].
  { right. split_and!; [done|lia|done]. }
  specialize (Hi _ Hl). specialize (Ho _ Hn).
  destruct (lookup_lt_is_Some_2 fl (Z.to_nat (r_Intn r (blen fl)))) as [f Hf].
  { unfold blen in *. lia. }
  rewrite Hf. cbn. split_and!; [done|by eapply list_elem_of_lookup_2|lia|lia].
Qed.

(** ** The files *)

(** The files that [ws] has, when all of them open, and the sizes the walk reports. *)
Definition opened (ws : list walk_entry) : list file :=
  omap (λ w, match w with WFile p _ s _ => Some (File p s) | _ => None end) ws.

Definition info_sizes (ws : list walk_entry) : list Z :=
  omap (λ w, match w with WFile _ i _ _ => Some i | _ => None end) ws.

Definition unopenable (w : walk_entry) : bool :=
  match w with WFile _ _ _ opens => negb opens | _ => false end.

Lemma walk_files ws s :
  for_each getFile ws s =
    if existsb unopenable ws then Fault (Fatal "y.AssertTruef")
    else Ret tt (Files (flist s ++ opened ws) (default (maxFileSize s) (last (info_sizes ws)))).
Proof.
  revert s. induction ws as [|w ws IH]; intros s.
  { cbn. rewrite app_nil_r. by destruct s. }
  destruct w as [| |p i sz []]; cbn [for_each getFile]; try exact (IH s); [|done].
  unfold mbind, M_bind, modS. rewrite IH.
  cbn [existsb unopenable negb orb opened info_sizes omap list_omap].
  fold (opened ws) (info_sizes ws). destruct (existsb unopenable ws); [done|].
  cbn [flist maxFileSize]. rewrite <-app_assoc. do 2 f_equal. rewrite last_cons.
  by destruct (last (info_sizes ws)).
Qed.

Lemma info_sizes_length ws : length (info_sizes ws) = length (opened ws).
Proof.
  induction ws as [|[| |p i sz o] ws IH]; [done|exact IH|exact IH|].
  cbn [info_sizes opened omap list_omap length]. f_equal. exact IH.
Qed.

Lemma last_info_size ws : last (info_sizes ws) = None ↔ opened ws = [].
Proof. rewrite last_None, <-!length_zero_iff_nil, info_sizes_length. done. Qed.

(** [main] collects every file of the tree in the order of the walk, and keeps
    as [maxFileSize] the size reported of the last one, whatever the sizes of the
    others; it stops when a file does not open or when there is none. *)
Lemma collect_spec ws :
  collect ws (Files [] 0) =
    if existsb unopenable ws then Fault (Fatal "y.AssertTruef") else
    match last (info_sizes ws) with
    | None => Fault (Fatal "Must have files already created")
    | Some max => Ret tt (Files (opened ws) max)
    end.
Proof.
  unfold collect, mbind, M_bind. rewrite walk_files. destruct (existsb unopenable ws); [done|].
  pose proof (last_info_size ws) as Hl. cbn. destruct (last (info_sizes ws)) as [max|];
    case_decide as Hd; try done; [by apply Hl in Hd|]. by destruct Hd; apply Hl.
Qed.

Section reads.
Context `{HistLaws}.

(** A pass that cannot fail for a reason of its own: the random numbers are in range,
    the system reports no error, and time does not go backwards. *)
Definition tick_ok (t : tick) : Prop := rdraw_ok (t_draw t) ∧ t_io_ok t = true ∧ 0 ≤ t_ns t.

Lemma read_block_ok fl max t h :
  fl ≠ [] → readSize < max < 2 ^ 63 → blen fl < 2 ^ 63 → tick_ok t →
  (∀ f, f ∈ fl → max ≤ f_size f + 1) →
  ∃ h', read_block fl max t h = Ret tt h' ∧ hist_TotalCount h' = hist_TotalCount h + 1.
Proof.
  intros Hne Hmax Hlen (Hr & Hio & Hns) Hsz. unfold read_block.
  pose proof (getIndices_spec (t_draw t) fl max h Hr) as Hg.
  destruct (getIndices (t_draw t) fl max h) as [[f off] h0|e] eqn:E.
  - destruct Hg as (-> & Hf & Hoff0 & Hoff); [lia|unfold readSize in *; lia|done|].
    erewrite bind_ret by exact E. cbn beta iota. unfold ReadAt. rewrite Hio. cbn [negb].
    specialize (Hsz f Hf). rewrite (proj2 (Z.leb_le _ _)) by lia.
    destruct (law_hist_record h (clamp (t_ns t))) as (h' & Eh & Et); [by apply clamp_range|].
    exists h'. split; [|done]. unfold getS, mbind, M_bind. by rewrite Eh.
  - destruct Hg as [[-> _]|(_ & ? & _)]; [lia|unfold readSize in *; lia|done|done|lia].
Qed.

(** The reads are safe exactly when no file is smaller, by more than the one
    byte the offset never reaches, than the last one: a smaller file makes some
    choice of block read past its end, and the program stop. *)
Theorem reads_safe_iff fl max :
  fl ≠ [] → readSize < max < 2 ^ 63 → blen fl < 2 ^ 63 →
  (∀ t h, tick_ok t → ∃ h', read_block fl max t h = Ret tt h') ↔
  (∀ f, f ∈ fl → max ≤ f_size f + 1).
Proof.
  intros Hne Hmax Hlen. split.
  - intros Hall f Hf. apply list_elem_of_lookup in Hf as [i Hi].
    pose proof (lookup_lt_Some _ _ _ Hi) as Hlt.
    set (r := RDraw (λ n, if n =? blen fl then Z.of_nat i else 0) (λ n, n - 1)).
    assert (rdraw_ok r) as Hr.
    { split; intros n Hn; cbn; [|lia]. destruct (Z.eqb_spec n (blen fl)); unfold blen in *; lia. }
    destruct (Hall (Tick false r true 0) hist_New) as [h' E]; [by split_and!|].
    unfold read_block, getIndices in E. cbn [t_draw t_io_ok r_Intn r_Int63n r] in E.
    assert (0 < blen fl) by (unfold blen; destruct fl; [done|simpl; lia]).
    rewrite (proj2 (Z.leb_gt _ _)), Z.eqb_refl in E by done.
    assert (wrap_s 64 (max - readSize) = max - readSize) as Ew.
    { unfold wrap_s, readSize in *. rewrite Z.mod_small; lia. }
    rewrite Ew, (proj2 (Z.leb_gt _ _)), Nat2Z.id, Hi in E by lia.
    unfold ReadAt, of_option, mbind, M_bind, mret, M_ret in E. cbn in E.
    revert E. destruct (Z.leb_spec (max - readSize - 1 + readSize) (f_size f)); [lia|done].
  - intros Hsz t h Ht. destruct (read_block_ok fl max t h) as (h' & E & _); [done..|]. by exists h'.
Qed.

(** The rate printed after [reads] reads, [since] being the time; and the rates printed
    in the passes [ps], after [c] reads. *)
Definition rate_at (reads : Z) (since : float64) : option float64 :=
  if decide (Z.rem reads 10000 = 0) then Some (f64_div (f64_of_Z reads) since) else None.

Definition rates_after (c : Z) (ps : list (tick * float64)) : list float64 :=
  omap id (imap (λ i p, rate_at (c + Z.of_nat i + 1) p.2) ps).

Lemma rates_after_cons c p ps :
  rates_after c (p :: ps) = option_list (rate_at (c + 1) p.2) ++ rates_after (c + 1) ps.
Proof.
  unfold rates_after. rewrite imap_cons.
  assert (imap ((λ i p, rate_at (c + Z.of_nat i + 1) p.2) ∘ S) ps =
    imap (λ i p, rate_at (c + 1 + Z.of_nat i + 1) p.2) ps) as ->.
  { apply imap_ext. intros i x _. unfold compose. f_equal. lia. }
  replace (c + Z.of_nat 0 + 1) with (c + 1) by lia.
  cbn [omap list_omap]. by destruct (rate_at (c + 1) p.2).
Qed.

Lemma serial_loop_count fl max ps t since ps' c rates h :
  fl ≠ [] → readSize < max < 2 ^ 63 → blen fl < 2 ^ 63 →
  (∀ f, f ∈ fl → max ≤ f_size f + 1) →
  Forall (λ p, t_done p.1 = false ∧ tick_ok p.1) ps → t_done t = true →
  0 ≤ c → c + blen ps < 2 ^ 63 → hist_TotalCount h = c →
  ∃ h', serial_loop fl max (ps ++ (t, since) :: ps') c rates h =
      Ret (rates ++ rates_after c ps, f64_div (f64_of_Z (c + blen ps)) since) h' ∧
    hist_TotalCount h' = c + blen ps.
Proof.
  intros Hne Hmax Hlen Hsz Hps Hd. revert c rates h.
  induction Hps as [|[u su] ps [Hu Hok] _ IH]; intros c rates h Hc Hb Eh.
  { exists h. cbn [app serial_loop]. rewrite Hd. unfold blen. cbn [length].
    rewrite Z.add_0_r, app_nil_r. split; [reflexivity|exact Eh]. }
  assert (blen ((u, su) :: ps) = 1 + blen ps) as El by (unfold blen; cbn [length]; lia).
  pose proof (blen_nonneg ps). cbn [fst] in Hu, Hok. cbn [app serial_loop]. rewrite Hu.
  destruct (read_block_ok fl max u h) as (h1 & E1 & Et1); [done..|].
  erewrite bind_ret by exact E1. unfold getS at 1, mbind at 1, M_bind at 1.
  assert (wrap_s 64 (c + 1) = c + 1) as ->.
  { unfold wrap_s. change (64 - 1) with 63. rewrite Z.mod_small; lia. }
  rewrite rates_after_cons, Et1, Eh. cbn [snd].
  edestruct (IH (c + 1)) as (h' & E & Et); [lia|lia| |exists h'].
  { rewrite Et1, Eh. reflexivity. }
  rewrite E. replace (c + 1 + blen ps) with (c + blen ((u, su) :: ps)) in * by lia.
  split; [|exact Et]. f_equal. f_equal. rewrite (assoc_L (++)). f_equal.
  unfold rate_at. destruct (Z.eqb_spec (Z.rem (c + 1) 10000) 0);
    [rewrite decide_True by assumption|rewrite decide_False by assumption].
  - reflexivity.
  - symmetry. apply app_nil_r.
Qed.

(** C32: the serial mode on files that are not too small for the size kept: it ends at the
    first pass that sees the flag, and what it prints are rates: after every ten
    thousand reads, and at the end, the number of the reads made so far divided by the
    seconds elapsed then; the histogram has recorded each of the reads. *)
Theorem Serial_counts fl max ps t since ps' :
  fl ≠ [] → readSize < max < 2 ^ 63 → blen fl < 2 ^ 63 →
  (∀ f, f ∈ fl → max ≤ f_size f + 1) →
  Forall (λ p, t_done p.1 = false ∧ tick_ok p.1) ps → t_done t = true → blen ps < 2 ^ 63 →
  ∃ h, Serial fl max (ps ++ (t, since) :: ps') =
      Ret (rates_after 0 ps, f64_div (f64_of_Z (blen ps)) since) h ∧
    hist_TotalCount h = blen ps.
Proof.
  intros Hne Hmax Hlen Hsz Hps Hd Hb.
  apply (serial_loop_count fl max ps t since ps' 0 [] hist_New); try assumption; [lia|].
  apply law_hist_new.
Qed.
End reads.

(** ** Witnesses *)

(** A histogram that only counts. *)
#[local] Instance count_hist : Hist := {|
  hist := Z;
  hist_New := 0;
  hist_RecordValue := λ h v, if v <=? 1000000 then Some (h + 1) else None;
  hist_TotalCount := λ h, h;
|}.

#[local] Instance count_hist_laws : HistLaws.
Proof.
  split; [done|]. intros h v Hv. exists (h + 1). cbn. by rewrite (proj2 (Z.leb_le _ _)) by lia.
Qed.

Definition demo_rdraw : rdraw := RDraw (λ n, n - 1) (λ n, n - 1).

Lemma demo_rdraw_ok : rdraw_ok demo_rdraw.
Proof. split; intros n Hn; cbn; lia. Qed.

Definition demo_files : list file := [File (bs "a") 4096; File (bs "b") 2048].

Definition demo_tick (d : bool) : tick := Tick d demo_rdraw true 5000.

Lemma reads_safe_iff_witness :
  (∀ t h, tick_ok t → ∃ h', read_block demo_files 2048 t h = Ret tt h') ↔
  (∀ f, f ∈ demo_files → 2048 ≤ f_size f + 1).
Proof. apply (reads_safe_iff demo_files 2048); [done|done|done]. Defined.

Lemma Serial_counts_witness :
  ∃ h, Serial demo_files 2048
      ([(demo_tick false, f64_of_Z 1); (demo_tick false, f64_of_Z 2)] ++ (demo_tick true, f64_of_Z 4) :: []) =
      Ret ([], f64_div (f64_of_Z 2) (f64_of_Z 4)) h ∧ hist_TotalCount h = 2.
Proof.
  apply (Serial_counts demo_files 2048 [(demo_tick false, f64_of_Z 1); (demo_tick false, f64_of_Z 2)]
    (demo_tick true) (f64_of_Z 4) []); [done|done|done| | |reflexivity|reflexivity].
  - intros f Hf. unfold demo_files in Hf. apply elem_of_cons in Hf as [->|Hf]; [simpl; lia|].
    apply elem_of_cons in Hf as [->|Hf]; [simpl; lia|]. by apply elem_of_nil in Hf.
  - assert (tick_ok (demo_tick false)) as Hd.
    { split_and!; [apply demo_rdraw_ok|reflexivity|cbn; lia]. }
    repeat (apply Forall_cons; split; [by split|]). constructor.
Defined.
