(* ===== verification/RandConc.v ===== *)
(** * The program randread: the concurrent modes

    [Conc2] and [ConcAio] of randread/main.go start [*numGoroutines] goroutines that
    read until the timer of [main] has set [done], and wait for them on a
    [sync.WaitGroup].  The interleavings are a step relation, shared by the two
    modes: it has the loop of a goroutine as a parameter, given as a function of its
    phase and of what the step obtains from outside (random numbers, the outcome of
    a system call).  A fault of any goroutine ends the process.

    The histogram is not safe for concurrent use, as far as the source of randread
    tells: the state has the calls of [hist.RecordValue] in the order they begin,
    not their effect. *)

From S2P Require Import Prelude RandRead.
From stdpp Require Import relations.
#[local] Open Scope Z_scope.

(** ** The state *)

(** [done], the counter of [wg], and the arguments of the calls of
    [hist.RecordValue]. *)
Record shared := Shared { sh_done : bool; sh_wg : Z; sh_recorded : list Z }.

Variant main_phase := MSpawning | MWaited.

(** [c_crash]: the fault that ended the process. *)
Record cstate (P : Type) := CState {
  c_main : main_phase;
  c_workers : list P;
  c_shared : shared;
  c_crash : option fault;
}.
Arguments CState {P}.
Arguments c_main {P}.
Arguments c_workers {P}.
Arguments c_shared {P}.
Arguments c_crash {P}.

Definition wg_add (d : Z) (sh : shared) : shared :=
  Shared (sh_done sh) (sh_wg sh + d) (sh_recorded sh).

Definition record (v : Z) (sh : shared) : shared :=
  Shared (sh_done sh) (sh_wg sh) (sh_recorded sh ++ [v]).

(** [atomic.StoreInt32(&done, 1)]. *)
Definition set_done (sh : shared) : shared := Shared true (sh_wg sh) (sh_recorded sh).

(** ** The steps of both modes *)

Section steps.
(** The phases of a goroutine, the first and the last one, the inputs of a step, and
    the step. *)
Context {P T : Type} (start exit : P) (ok : T → Prop) (next : T → P → M shared P).
Context (jobs : nat).

(** The steps of [main] and of the goroutines. *)
Inductive gstep : cstate P → cstate P → Prop :=
| gstep_spawn ws sh :
    (length ws < jobs)%nat →
    gstep (CState MSpawning ws sh None) (CState MSpawning (ws ++ [start]) (wg_add 1 sh) None)
| gstep_worker m ws sh i p t p' sh' :
    ws !! i = Some p → p ≠ exit → ok t → next t p sh = Ret p' sh' →
    gstep (CState m ws sh None) (CState m (<[i := p']> ws) sh' None)
| gstep_crash m ws sh i p t e :
    ws !! i = Some p → p ≠ exit → ok t → next t p sh = Fault e →
    gstep (CState m ws sh None) (CState m ws sh (Some e))
| gstep_wait ws sh :
    length ws = jobs → sh_wg sh = 0 →
    gstep (CState MSpawning ws sh None) (CState MWaited ws sh None).

(** And of the timer. *)
Inductive cstep : cstate P → cstate P → Prop :=
| cstep_timer m ws sh : cstep (CState m ws sh None) (CState m ws (set_done sh) None)
| cstep_go s s' : gstep s s' → cstep s s'.

Definition cinit : cstate P := CState MSpawning [] (Shared false 0 []) None.
End steps.

(** ** Conc2 *)

(** The goroutine is at the loop test, at the choice of a block, at the recording of
    a duration, at [wg.Done()], or has ended. *)
Variant gphase := GLoop | GRead | GRecord (dur : Z) | GDone | GExit.

#[export] Instance gphase_eq_decision : EqDecision gphase.
Proof. solve_decision. Defined.

Section conc2.
(** Whether [hist.RecordValue] accepts a value. *)
Context (accepts : Z → bool).
Context (fl : list file) (max : Z).

Definition conc2_next (t : tick) (p : gphase) : M shared gphase :=
  match p with
  | GLoop => d ← gets sh_done; mret (if d : bool then GDone else GRead)
  | GRead =>
      '(fd, offset) ← getIndices (t_draw t) fl max;
      match ReadAt fd offset (t_io_ok t) with
      | Some _ => raise (Fatal "Error reading file")
      | None => mret (GRecord (clamp (t_ns t)))
      end
  | GRecord dur =>
      modS (record dur);;
      if accepts dur then mret GLoop else raise (Fatal "Unable to record hist")
  | GDone => modS (wg_add (-1));; mret GExit
  | GExit => mret GExit
  end.

Definition conc2_step (jobs : nat) : cstate gphase → cstate gphase → Prop :=
  cstep GLoop GExit tick_ok conc2_next jobs.
End conc2.

(** ** ConcAio *)

(** At the loop test, at the submission of a read, at the wait for the requests of
    the [i]-th file, or ended. *)
Variant aphase := ALoop | ARead | ADrain (i : nat) | AExit.

(** The random numbers, whether [aio.ReadAt] returns no error, and what [aio.WaitAny]
    returns, [None] being an error. *)
Record aio_tick := ATick { a_draw : rdraw; a_read_ok : bool; a_wait : option Z }.

Section concaio.
(** The library goaio: a handle, and [NewAIOExt], which may fail. *)
Context {AIO : Type} (NewAIOExt : file → option AIO).

Definition getAIOIndices {S} (r : rdraw) (aios : list AIO) (max : Z) : M S (AIO * Z) :=
  if blen aios <=? 0 then raise (PanicArg "Intn") else
  let fidx := r_Intn r (blen aios) in
  let n := wrap_s 64 (max - readSize) in
  if n <=? 0 then raise (PanicArg "Int63n") else
  let iidx := r_Int63n r n in
  aio ← of_option PanicIndex (aios !! Z.to_nat fidx);
  mret (aio, iidx).

(** No duration is measured, and nothing recorded.  After the loop, the goroutine
    waits on every handle until no request is left. *)
Definition aio_next (aios : list AIO) (max : Z) (t : aio_tick) (p : aphase) : M shared aphase :=
  match p with
  | ALoop => d ← gets sh_done; mret (if d : bool then ADrain 0 else ARead)
  | ARead =>
      '(aio, offset) ← getAIOIndices (a_draw t) aios max;
      if a_read_ok t then mret ALoop else raise (Fatal "Unable to read")
  | ADrain i =>
      if (i <? length aios)%nat then
        match a_wait t with
        | None => raise (Fatal "Failed to collect reqs")
        | Some n => mret (ADrain (if n =? 0 then S i else i))
        end
      else modS (wg_add (-1));; mret AExit
  | AExit => mret AExit
  end.

(** The handles, or nothing when one cannot be made: the mode then ends at once. *)
Definition aio_list (fl : list file) : option (list AIO) := mapM NewAIOExt fl.

Definition aio_step (aios : list AIO) (max : Z) (jobs : nat) :
    cstate aphase → cstate aphase → Prop :=
  cstep ALoop AExit (λ t, rdraw_ok (a_draw t)) (aio_next aios max) jobs.
End concaio.

(** ** Facts on Conc2 *)

Section facts.
Context (accepts : Z → bool) (Haccepts : ∀ v, 0 ≤ v ≤ 1000000 → accepts v = true).
Context (fl : list file) (max : Z).
(** What the types of Go ensure. *)
Context (Hmax : 0 ≤ max < 2 ^ 63) (Hlen : blen fl < 2 ^ 63).
Context (jobs : nat).

(** The ways a goroutine can stop the process: there is no file; the size kept is not
    larger than a block; or a read goes past the end of a file that is smaller, by more
    than the byte the offset never reaches, than the size kept. *)
Definition stops (e : fault) : Prop :=
  (fl = [] ∧ e = PanicArg "Intn") ∨
  (fl ≠ [] ∧ max ≤ readSize ∧ e = PanicArg "Int63n") ∨
  (e = Fatal "Error reading file" ∧ readSize < max ∧ ∃ f, f ∈ fl ∧ f_size f + 1 < max).

(** The files for which there is none. *)
Definition fits : Prop := fl ≠ [] ∧ readSize < max ∧ ∀ f, f ∈ fl → max ≤ f_size f + 1.

Lemma fits_stops e : fits → ¬ stops e.
Proof.
  intros (Hne & Hm & Hsz) [[? _]|[(_ & ? & _)|(_ & _ & f & Hf & ?)]]; [done|lia|].
  specialize (Hsz f Hf). lia.
Qed.

Abbreviation next := (conc2_next accepts fl max).
Abbreviation go := (gstep GLoop GExit tick_ok next jobs).

(** 1 for a goroutine that has not ended. *)
Definition alive (p : gphase) : Z := match p with GExit => 0 | _ => 1 end.

(** Once [done] is set: the steps a goroutine has left, and the durations it will
    still record. *)
Definition steps_of (p : gphase) : Z :=
  match p with GLoop => 2 | GRead => 4 | GRecord _ => 3 | GDone => 1 | GExit => 0 end.
Definition pending (p : gphase) : Z := match p with GRead | GRecord _ => 1 | _ => 0 end.

Definition in_range (v : Z) : Prop := 0 ≤ v ≤ 1000000.

Definition phase_ok (d : bool) (p : gphase) : Prop :=
  match p with GRecord dur => in_range dur | GDone | GExit => d = true | _ => True end.

(** The steps [main] and the goroutines have left. *)
Definition steps_left (s : cstate gphase) : Z :=
  (match c_main s with MSpawning => 1 | MWaited => 0 end) +
  3 * (Z.of_nat jobs - blen (c_workers s)) + sumZ (steps_of <$> c_workers s).

Record conc2_inv (s : cstate gphase) : Prop := {
  ci_crash e : c_crash s = Some e → stops e;
  ci_wg : sh_wg (c_shared s) = sumZ (alive <$> c_workers s);
  ci_num : (length (c_workers s) ≤ jobs)%nat;
  ci_phase : Forall (phase_ok (sh_done (c_shared s))) (c_workers s);
  ci_range : Forall in_range (sh_recorded (c_shared s));
  ci_main : c_main s = MWaited →
    length (c_workers s) = jobs ∧ Forall (λ p, p = GExit) (c_workers s);
}.

(** One step of a goroutine: it stops the process in one of these ways, or keeps the account of the wait
    group; when [done] is set, it has one step less, and as many records, made or to
    be made. *)
Lemma next_ok t p sh :
  tick_ok t → p ≠ GExit → phase_ok (sh_done sh) p → Forall in_range (sh_recorded sh) →
  wpf (next t p) sh (λ p' sh',
    phase_ok (sh_done sh) p' ∧ sh_done sh' = sh_done sh ∧ Forall in_range (sh_recorded sh') ∧
    sh_wg sh' - alive p' = sh_wg sh - alive p ∧
    (sh_done sh = true → steps_of p' = steps_of p - 1 ∧
       blen (sh_recorded sh') + pending p' = blen (sh_recorded sh) + pending p)) stops.
Proof.
  intros Ht Hp Hok Hrec. destruct sh as [d n rs]; cbn [sh_done sh_wg sh_recorded] in *.
  destruct p as [| |dur| |]; [| | | |done].
  - destruct d; unfold wpf; cbn; split_and!; intros; done || lia.
  - destruct Ht as (Hr & Hio & Hns). cbn [conc2_next].
    pose proof (getIndices_spec (t_draw t) fl max (Shared d n rs) Hr) as Hg.
    apply wpf_bind_stop. unfold wpf at 1. destruct (getIndices (t_draw t) fl max _) as [[f off] sh0|e].
    + destruct Hg as (-> & Hf & Hoff0 & Hoff); [lia|lia|done|].
      unfold ReadAt. rewrite Hio. cbn [negb].
      destruct (Z.leb_spec (off + readSize) (f_size f)); unfold wpf; cbn.
      * split_and!; [by apply clamp_range|done|done|lia|intros _; lia].
      * right. right. split; [done|]. split; [lia|]. exists f. split; [done|lia].
    + destruct Hg as [[-> ->]|(? & ? & ->)]; [lia|lia|done|by left|by right; left].
  - cbn [conc2_next]. unfold wpf. cbn. rewrite (Haccepts dur Hok). cbn.
    split_and!; [done|done| |cbn; lia|intros _; cbn].
    + apply Forall_app. by split; [|constructor].
    + unfold blen. rewrite length_app. cbn. split; lia.
  - unfold wpf; cbn in *. split_and!; [done|done|done|cbn; lia|intros _; cbn; lia].
Qed.

Lemma conc2_inv_init : conc2_inv (cinit (P := gphase)).
Proof. split; simpl; try done || lia. all: constructor. Qed.

Lemma phase_ok_done d p : phase_ok d p → phase_ok true p.
Proof. by destruct p. Qed.

Lemma alive_nonneg l : 0 ≤ sumZ (alive <$> l).
Proof.
  induction l as [|p l IH]; [done|]. rewrite fmap_cons, sumZ_cons.
  destruct p; cbn [alive]; lia.
Qed.

Lemma steps_nonneg l : 0 ≤ sumZ (steps_of <$> l).
Proof.
  induction l as [|p l IH]; [done|]. rewrite fmap_cons, sumZ_cons. destruct p; cbn [steps_of]; lia.
Qed.

(** The durations recorded, and those still to be recorded. *)
Definition records (s : cstate gphase) : Z :=
  blen (sh_recorded (c_shared s)) + sumZ (pending <$> c_workers s).

Lemma conc2_inv_go s s' :
  conc2_inv s → go s s' → conc2_inv s' ∧ sh_done (c_shared s') = sh_done (c_shared s) ∧
    (sh_done (c_shared s) = true → c_crash s' = None →
     steps_left s' = steps_left s - 1 ∧ records s' = records s).
Proof.
  intros [Hcr Hwg Hn Hph Hr Hm] Hgo.
  destruct Hgo as [ws sh Hlt|m ws sh i p t p' sh' Hp Hne Ht Hnext|m ws sh i p t e Hp Hne Ht Hnext
                  |ws sh Hl Hz]; simpl in *.
  - split; [split; simpl|split; [done|intros _ _]].
    + done.
    + rewrite fmap_app, sumZ_app. simpl. lia.
    + rewrite length_app. simpl. lia.
    + apply Forall_app. split; [done|by constructor].
    + done.
    + done.
    + unfold steps_left, records; cbn [c_main c_workers c_shared wg_add sh_recorded].
      rewrite !fmap_app, !sumZ_app. unfold blen. rewrite length_app. simpl. lia.
  - assert (phase_ok (sh_done sh) p) as Hok by (by eapply Forall_lookup_1).
    pose proof (next_ok t p sh Ht Hne Hok Hr) as Hwp. unfold wpf in Hwp. rewrite Hnext in Hwp.
    destruct Hwp as (Hok' & Hd & Hr' & Hg & Hleft). split; [split; simpl|split; [done|intros Et _]].
    + done.
    + rewrite (sum_fmap_insert _ _ _ p) by done. lia.
    + by rewrite length_insert.
    + rewrite Hd. by apply Forall_insert.
    + done.
    + intros Em. destruct (Hm Em) as [_ Hall]. by destruct Hne; eapply (Forall_lookup_1 _ _ _ _ Hall Hp).
    + destruct (Hleft Et) as [Hs Hrec].
      unfold steps_left, records; cbn [c_main c_workers c_shared]. unfold blen at 1.
      rewrite length_insert, !(sum_fmap_insert _ _ _ p) by done. fold (blen ws). lia.
  - assert (phase_ok (sh_done sh) p) as Hok by (by eapply Forall_lookup_1).
    pose proof (next_ok t p sh Ht Hne Hok Hr) as Hwp. unfold wpf in Hwp. rewrite Hnext in Hwp.
    split; [|by split]. split; simpl; try done. by intros e' [= <-].
  - split; [split; simpl; try done|split; [done|intros _ _; split; [|done]]].
    + intros _. split; [done|]. rewrite Hwg in Hz. clear -Hz.
      induction ws as [|p ws IH]; [constructor|]. pose proof (alive_nonneg ws).
      rewrite fmap_cons, sumZ_cons in Hz.
      constructor; [|apply IH]; destruct p; cbn [alive] in Hz; done || lia.
    + unfold steps_left. cbn [c_main c_workers]. lia.
Qed.

Lemma conc2_inv_reach s :
  rtc (conc2_step accepts fl max jobs) (cinit (P := gphase)) s → conc2_inv s.
Proof.
  assert (∀ s1 s2, rtc (conc2_step accepts fl max jobs) s1 s2 → conc2_inv s1 → conc2_inv s2) as H.
  { induction 1 as [s1|s1 s2 s3 H12 _ IH]; [done|]. intros Hi. apply IH.
    destruct H12 as [m ws sh|s1 s2 Hgo]; [|by apply (conc2_inv_go s1 s2)].
    destruct Hi as [Hcr Hwg Hn Hph Hr Hm]. split; try done. cbn in *.
    eapply Forall_impl; [exact Hph|]. apply phase_ok_done. }
  intros Hs. eapply H; [done|]. apply conc2_inv_init.
Qed.

Lemma conc2_no_crash s : fits → conc2_inv s → c_crash s = None.
Proof.
  intros Hf [Hcr _ _ _ _ _]. destruct (c_crash s) as [e|]; [|done].
  by destruct (fits_stops e Hf (Hcr e eq_refl)).
Qed.

Lemma conc2_inv_nsteps k s s' :
  fits → conc2_inv s → sh_done (c_shared s) = true → nsteps go k s s' →
  conc2_inv s' ∧ steps_left s' = steps_left s - Z.of_nat k ∧ records s' = records s.
Proof.
  intros Hf Hi Hd Hk. revert Hi Hd.
  induction Hk as [s|k s1 s2 s3 H12 _ IH]; intros Hi Hd; [split_and!; [done|lia|done]|].
  destruct (conc2_inv_go s1 s2 Hi H12) as (Hi2 & Hd2 & Hl2).
  destruct (Hl2 Hd (conc2_no_crash _ Hf Hi2)) as [Hs2 Hr2].
  rewrite Hd in Hd2. destruct (IH Hi2 Hd2) as (Hi3 & Hs3 & Hr3). split_and!; [done|lia|congruence].
Qed.

Lemma sum_exited (f : gphase → Z) l :
  f GExit = 0 → Forall (λ p, p = GExit) l → sumZ (f <$> l) = 0.
Proof. intros Hf. induction 1 as [|p l -> _ IH]; [done|]. rewrite fmap_cons, sumZ_cons. lia. Qed.

(** While [main] has not come back from [wg.Wait], it or a goroutine can make a step. *)
Lemma conc2_progress t0 s :
  tick_ok t0 → conc2_inv s → c_crash s = None → c_main s = MSpawning → ∃ s', go s s'.
Proof.
  intros Ht [_ Hwg Hn Hph Hr Hm] Hcr Em. destruct s as [m ws sh c]; cbn in *; subst m c.
  destruct (decide (length ws < jobs)%nat) as [Hlt|Hge]; [eexists; by constructor|].
  destruct (decide (Exists (λ p, p ≠ GExit) ws)) as [Hex|Hno].
  - apply Exists_exists in Hex as (p & [i Hp]%list_elem_of_lookup & Hne).
    destruct (next t0 p sh) as [p' sh'|e] eqn:E.
    + eexists. by eapply gstep_worker.
    + eexists. by eapply gstep_crash.
  - eexists. apply gstep_wait; [lia|]. rewrite Hwg. apply sum_exited; [done|].
    rewrite <-Forall_Exists_neg in Hno. eapply Forall_impl; [exact Hno|]. cbn. intros p Hp.
    destruct (decide (p = GExit)); [done|]. by destruct Hp.
Qed.

(** C25: the concurrent mode, on any files, in whatever order the goroutines, [main] and
    the timer run: the process stops with an error only when there is no file, when the
    size kept is not larger than a block, or when a read goes past the end of a file
    that is smaller than the size kept, by more than one byte; so it never does when the
    files fit.  Every duration recorded is one the histogram takes; the wait group
    counts the goroutines that have not ended; and [main] comes back from [wg.Wait]
    only when all goroutines were started and have ended, the timer having set [done]
    if there is a goroutine. *)
Theorem Conc2_safe s :
  rtc (conc2_step accepts fl max jobs) (cinit (P := gphase)) s →
  (∀ e, c_crash s = Some e →
     (fl = [] ∧ e = PanicArg "Intn") ∨
     (fl ≠ [] ∧ max ≤ readSize ∧ e = PanicArg "Int63n") ∨
     (e = Fatal "Error reading file" ∧ readSize < max ∧ ∃ f, f ∈ fl ∧ f_size f + 1 < max)) ∧
  (fl ≠ [] → readSize < max → (∀ f, f ∈ fl → max ≤ f_size f + 1) → c_crash s = None) ∧
  Forall (λ v, 0 ≤ v ≤ 1000000) (sh_recorded (c_shared s)) ∧
  sh_wg (c_shared s) = blen (filter (λ p, p ≠ GExit) (c_workers s)) ∧
  (c_main s = MWaited → length (c_workers s) = jobs ∧
     Forall (λ p, p = GExit) (c_workers s) ∧ ((0 < jobs)%nat → sh_done (c_shared s) = true)).
Proof.
  intros Hs. apply conc2_inv_reach in Hs as Hi. pose proof Hi as [Hcr Hwg Hn Hph Hr Hm].
  split_and!; [exact Hcr|by intros; apply conc2_no_crash|done| |].
  - rewrite Hwg. clear. induction (c_workers s) as [|p l IH]; [done|].
    rewrite fmap_cons, sumZ_cons, filter_cons, IH. unfold blen.
    case_decide; destruct p; simpl; done || lia.
  - intros Ew. destruct (Hm Ew) as [Hl Hall]. split_and!; [done|done|]. intros Hj.
    destruct (c_workers s) as [|p l]; [simpl in Hl; lia|].
    apply Forall_cons in Hall as [-> _]. by apply Forall_cons in Hph as [? _].
Qed.

(** C26: on files that fit (there is one, the size kept is larger than a block, and no file
    is smaller than it by more than one byte), so that no read can fail: once the timer
    has set [done], the concurrent mode ends, in whatever order the goroutines run: an execution of [main] and the goroutines has at most
    [steps_left] steps and goes on until [main] has come back from [wg.Wait]; it has
    then made exactly that many, and recorded, beside what was recorded before, one
    duration for each read that was under way. *)
Theorem Conc2_ends t0 s k s' :
  fl ≠ [] → readSize < max → (∀ f, f ∈ fl → max ≤ f_size f + 1) → tick_ok t0 →
  rtc (conc2_step accepts fl max jobs) (cinit (P := gphase)) s → sh_done (c_shared s) = true →
  nsteps (gstep GLoop GExit tick_ok (conc2_next accepts fl max) jobs) k s s' →
  Z.of_nat k ≤ steps_left s ∧
  (c_main s' = MWaited → Z.of_nat k = steps_left s ∧
     blen (sh_recorded (c_shared s')) =
       blen (sh_recorded (c_shared s)) + sumZ (pending <$> c_workers s)) ∧
  (c_main s' = MSpawning →
     ∃ s'', gstep GLoop GExit tick_ok (conc2_next accepts fl max) jobs s' s'').
Proof.
  intros Hne Hm0 Hsz Ht Hs Hd Hk. apply conc2_inv_reach in Hs. assert fits as Hf by done.
  destruct (conc2_inv_nsteps k s s' Hf Hs Hd Hk) as (Hi & Hl & Hr). pose proof Hi as [_ _ Hn _ _ Hm].
  split_and!.
  - pose proof (steps_nonneg (c_workers s')). unfold steps_left in Hl at 1. unfold blen in Hl.
    destruct (c_main s'); lia.
  - intros Ew. destruct (Hm Ew) as [Hj Hall]. unfold steps_left at 1 in Hl. unfold records in Hr.
    rewrite Ew, (sum_exited steps_of _ eq_refl Hall) in Hl.
    rewrite (sum_exited pending _ eq_refl Hall) in Hr. unfold blen in Hl. lia.
  - by apply (conc2_progress t0), conc2_no_crash.
Qed.
End facts.

(** ** ConcAio *)

Lemma getAIOIndices_state {S AIO} r (aios : list AIO) max (s s' : S) x :
  getAIOIndices r aios max s = Ret x s' → s' = s.
Proof.
  unfold getAIOIndices. destruct (blen aios <=? 0); [done|].
  destruct (wrap_s 64 (max - readSize) <=? 0); [done|].
  destruct (aios !! _); cbn; by intros [= _ ->].
Qed.

(** The histogram after calls of [RecordValue] one after the other. *)
Definition hist_after `{Hist} (vs : list Z) : hist :=
  foldl (λ h v, default h (hist_RecordValue h v)) hist_New vs.

(** C35: in the asynchronous mode nothing is ever recorded, whatever the goroutines
    read: the count and the rate [ConcAio] prints at its end, which are those of the
    histogram, are always 0. *)
Theorem ConcAio_counts_nothing `{HistLaws} {AIO} (aios : list AIO) max jobs s :
  rtc (aio_step aios max jobs) (cinit (P := aphase)) s →
  sh_recorded (c_shared s) = [] ∧ hist_TotalCount (hist_after (sh_recorded (c_shared s))) = 0.
Proof.
  intros Hs. assert (sh_recorded (c_shared s) = []) as ->; [|split; [done|apply law_hist_new]].
  assert (∀ s1 s2, rtc (aio_step aios max jobs) s1 s2 → sh_recorded (c_shared s1) = [] →
    sh_recorded (c_shared s2) = []) as Hinv; [|by eapply Hinv].
  clear. induction 1 as [s1|s1 s2 s3 H12 _ IH]; [done|]. intros E. apply IH. clear IH.
  destruct H12 as [m ws sh|s1 s2 Hgo]; [done|].
  destruct Hgo as [ws sh Hlt|m ws sh i p t p' sh' Hp Hne Ht Hnext| |]; simpl in *; try done.
  destruct p; cbn [aio_next] in Hnext.
  - by injection Hnext as _ <-.
  - apply bind_ret_inv in Hnext as ([aio off] & sh1 & Hi%getAIOIndices_state & Hnext).
    subst sh1. destruct (a_read_ok t); [by injection Hnext as _ <-|done].
  - destruct (i0 <? length aios)%nat; [destruct (a_wait t); [|done]|]; by injection Hnext as _ <-.
  - done.
Qed.

(** ** Witnesses *)

(** One goroutine, which is in a read when the timer fires. *)
Definition demo_accepts (v : Z) : bool := v <=? 1000000.
Definition demo_step := gstep GLoop GExit tick_ok (conc2_next demo_accepts demo_files 2048) 1.
Definition demo_state m p d wg rs : cstate gphase := CState m [p] (Shared d wg rs) None.

Lemma demo_tick_ok d : tick_ok (demo_tick d).
Proof. split_and!; [apply demo_rdraw_ok|done|done]. Qed.

Lemma demo_files_ok f : f ∈ demo_files → 2048 ≤ f_size f + 1.
Proof.
  unfold demo_files. rewrite !elem_of_cons. intros [->|[->|[]%not_elem_of_nil]]; simpl; lia.
Qed.

Lemma demo_accepts_ok v : 0 ≤ v ≤ 1000000 → demo_accepts v = true.
Proof. unfold demo_accepts. intros. apply Z.leb_le. lia. Qed.

Lemma demo_next p p' d wg rs d' wg' rs' :
  p ≠ GExit → conc2_next demo_accepts demo_files 2048 (demo_tick false) p (Shared d wg rs) =
    Ret p' (Shared d' wg' rs') →
  demo_step (demo_state MSpawning p d wg rs) (demo_state MSpawning p' d' wg' rs').
Proof.
  intros Hp E. exact (gstep_worker _ _ _ _ 1 MSpawning [p] _ 0 p (demo_tick false) p' _
    eq_refl Hp (demo_tick_ok _) E).
Qed.

Lemma demo_reach :
  rtc (conc2_step demo_accepts demo_files 2048 1) (cinit (P := gphase))
    (demo_state MSpawning GRead true 1 []).
Proof.
  eapply rtc_l; [apply cstep_go, gstep_spawn; simpl; lia|].
  eapply rtc_l; [apply cstep_go, (demo_next GLoop GRead); done|].
  eapply rtc_l; [apply cstep_timer|]. apply rtc_refl.
Qed.

Lemma demo_ends :
  nsteps demo_step 5 (demo_state MSpawning GRead true 1 []) (demo_state MWaited GExit true 0 [5]).
Proof.
  eapply nsteps_l; [apply (demo_next GRead (GRecord 5) _ _ _ true 1 []); vm_compute; done|].
  eapply nsteps_l; [apply (demo_next (GRecord 5) GLoop _ _ _ true 1 [5]); vm_compute; done|].
  eapply nsteps_l; [apply (demo_next GLoop GDone _ _ _ true 1 [5]); vm_compute; done|].
  eapply nsteps_l; [apply (demo_next GDone GExit _ _ _ true 0 [5]); vm_compute; done|].
  eapply nsteps_l; [by apply gstep_wait|]. apply nsteps_O.
Qed.

(** The one file there is has shrunk since the walk. *)
Lemma demo_stop :
  rtc (conc2_step demo_accepts [File (bs "a") 1024] 2048 1) (cinit (P := gphase))
    (CState MSpawning [GRead] (Shared false 1 []) (Some (Fatal "Error reading file"))).
Proof.
  eapply rtc_l; [apply cstep_go, gstep_spawn; simpl; lia|].
  eapply rtc_l; [|eapply rtc_once].
  - apply cstep_go, (gstep_worker _ _ _ _ 1 MSpawning [GLoop] (Shared false 1 []) 0 GLoop
      (demo_tick false) GRead (Shared false 1 [])); [done|done|apply demo_tick_ok|done].
  - apply cstep_go, (gstep_crash _ _ _ _ _ _ _ _ 0 GRead (demo_tick false));
      [done|done|apply demo_tick_ok|by vm_compute].
Qed.

Lemma Conc2_safe_witness :
  (∃ f, f ∈ [File (bs "a") 1024] ∧ f_size f + 1 < 2048) ∧
  c_crash (demo_state MSpawning GRead true 1 []) = None ∧ Forall (λ v, 0 ≤ v ≤ 1000000) [] ∧
  1 = blen (filter (λ p, p ≠ GExit) [GRead]) ∧
  (MSpawning = MWaited → 1%nat = 1%nat ∧ Forall (λ p, p = GExit) [GRead] ∧
     ((0 < 1)%nat → true = true)).
Proof.
  split.
  - destruct (Conc2_safe demo_accepts demo_accepts_ok [File (bs "a") 1024] 2048 ltac:(done)
      ltac:(done) 1 _ demo_stop) as [Hstop _].
    destruct (Hstop _ eq_refl) as [[_ E]|[(_ & _ & E)|(_ & _ & Hf)]];
      [discriminate E|discriminate E|exact Hf].
  - destruct (Conc2_safe demo_accepts demo_accepts_ok demo_files 2048 ltac:(done) ltac:(done) 1
      _ demo_reach) as (_ & Hno & Hrest).
    split; [apply Hno; [done|done|apply demo_files_ok]|exact Hrest].
Defined.

Lemma Conc2_ends_witness :
  5 ≤ 5 ∧ (MWaited = MWaited → 5 = 5 ∧ 1 = 0 + 1) ∧
  (MWaited = MSpawning → ∃ s'', demo_step (demo_state MWaited GExit true 0 [5]) s'').
Proof.
  apply (Conc2_ends demo_accepts demo_accepts_ok demo_files 2048 ltac:(done) ltac:(done)
    1 (demo_tick false) (demo_state MSpawning GRead true 1 []) 5
    (demo_state MWaited GExit true 0 [5]));
    [done|done|apply demo_files_ok|apply demo_tick_ok|apply demo_reach|done|apply demo_ends].
Defined.

Lemma demo_aio_next p p' d wg :
  p ≠ AExit → aio_next demo_files 2048 (ATick demo_rdraw true None) p (Shared d wg []) =
    Ret p' (Shared d wg []) →
  aio_step demo_files 2048 1 (CState MSpawning [p] (Shared d wg []) None)
    (CState MSpawning [p'] (Shared d wg []) None).
Proof.
  intros Hp E. apply cstep_go.
  exact (gstep_worker _ _ _ _ 1 MSpawning [p] _ 0 p (ATick demo_rdraw true None) p' _
    eq_refl Hp demo_rdraw_ok E).
Qed.

(** A goroutine reads once, sees the flag, and has nothing to wait for. *)
Lemma ConcAio_counts_nothing_witness :
  let s := CState MSpawning [ADrain 0] (Shared true 1 []) None in
  sh_recorded (c_shared s) = [] ∧
  @hist_TotalCount count_hist (@hist_after count_hist (sh_recorded (c_shared s))) = 0.
Proof.
  apply (@ConcAio_counts_nothing count_hist count_hist_laws file demo_files 2048 1).
  eapply rtc_l; [apply cstep_go, gstep_spawn; simpl; lia|].
  eapply rtc_l; [by apply (demo_aio_next _ ARead)|].
  eapply rtc_l; [by apply (demo_aio_next _ ALoop)|].
  eapply rtc_l; [apply cstep_timer|].
  eapply rtc_l; [by apply (demo_aio_next _ (ADrain 0))|].
  apply rtc_refl.
Defined.
