(* ===== verification/RandReport.v ===== *)
(** * The program randread: the reports of Conc2

    [Conc2] starts one more goroutine, which wakes up every second to print the rate,
    and which, when it then finds that the timer has set [done], prints a blank line, the
    time taken and the total count, one line after the other.  Nobody waits for it:
    [main] waits for the reading goroutines only, and the process ends when [main]
    returns.  This file puts it beside the steps of [RandConc.v].  The state has which lines are printed; the numbers in them come from
    the histogram, and [RandConc.v] says why it leaves that out. *)

From S2P Require Import Prelude RandRead RandConc.
From stdpp Require Import relations.
#[local] Open Scope Z_scope.

(** The line with the rate, the blank line, and the lines [Time Taken] and [Total count
    by hist]. *)
Variant report := Rate | Blank | TimeTaken | TotalCount.

#[export] Instance report_eq_decision : EqDecision report.
Proof. solve_decision. Defined.

(** The lines of the summary. *)
Definition summary_lines : list report := [Blank; TimeTaken; TotalCount].

(** The goroutine is not started yet, waits for its ticker, is at the load of [done], has
    [lines] of the summary to print, or has left its loop. *)
Variant reporter := RNone | RTicking | RLoading | RPrinting (lines : list report) | RStopped.

#[export] Instance reporter_eq_decision : EqDecision reporter.
Proof. solve_decision. Defined.

(** The goroutines of [RandConc.cstate], the reporter, what it has printed, and whether
    the process has ended. *)
Record whole := Whole {
  w_run : cstate gphase;
  w_reporter : reporter;
  w_printed : list report;
  w_exited : bool;
}.

Section report.
Context (accepts : Z → bool) (fl : list file) (max : Z) (jobs : nat).

(** A step of the reporter: what it prints, and where it is then. *)
Definition report_next (d : bool) (r : reporter) : option (list report * reporter) :=
  match r with
  | RTicking => Some ([Rate], RLoading)
  | RLoading => Some ([], if d then RPrinting summary_lines else RTicking)
  | RPrinting (line :: lines) => Some ([line], RPrinting lines)
  | RPrinting [] => Some ([], RStopped)
  | RNone | RStopped => None
  end.

(** [main] starts the reporter after the other goroutines and before it waits. *)
Inductive whole_step : whole → whole → Prop :=
| whole_run s s' r out :
    conc2_step accepts fl max jobs s s' → (c_main s' = MWaited → r ≠ RNone) →
    whole_step (Whole s r out false) (Whole s' r out false)
| whole_report ws sh out :
    length ws = jobs →
    whole_step (Whole (CState MSpawning ws sh None) RNone out false)
      (Whole (CState MSpawning ws sh None) RTicking out false)
| whole_print s r out lines r' :
    c_crash s = None → report_next (sh_done (c_shared s)) r = Some (lines, r') →
    whole_step (Whole s r out false) (Whole s r' (out ++ lines) false)
| whole_exit s r out :
    c_main s = MWaited → c_crash s = None →
    whole_step (Whole s r out false) (Whole s r out true).

Definition whole_init : whole := Whole cinit RNone [] false.

(** ** What is printed when *)

(** The goroutines do not see the reporter. *)
Lemma whole_project w w' :
  rtc whole_step w w' → rtc (conc2_step accepts fl max jobs) (w_run w) (w_run w').
Proof.
  induction 1 as [w|w1 w2 w3 H12 _ IH]; [done|].
  destruct H12 as [s s' r out Hgo _|ws sh out _|s r out lines r' _ _|s r out _ _];
    [|exact IH|exact IH|exact IH].
  eapply rtc_l; [exact Hgo|exact IH].
Qed.

(** The lines of the summary that are printed, and those that are not. *)
Definition summary (out : list report) : list report := filter (λ l, l ≠ Rate) out.
#[local] Arguments summary : simpl never.

Definition to_print (r : reporter) : list report :=
  match r with RPrinting lines => lines | RStopped => [] | _ => summary_lines end.

Lemma summary_app out out' : summary (out ++ out') = summary out ++ summary out'.
Proof. apply filter_app. Qed.

Lemma summary_rate out : summary (out ++ [Rate]) = summary out.
Proof. rewrite summary_app. apply app_nil_r. Qed.

Lemma summary_lines_all ls : ls ⊆ summary_lines → summary ls = ls.
Proof.
  intros Hls. unfold summary. induction ls as [|l ls IH]; [done|].
  rewrite filter_cons_True, IH; [done|set_solver|]. intros ->.
  specialize (Hls Rate). unfold summary_lines in Hls. set_solver.
Qed.

Record report_inv (w : whole) : Prop := {
  ri_printed : summary (w_printed w) ++ to_print (w_reporter w) = summary_lines;
  ri_done : summary (w_printed w) ≠ [] → sh_done (c_shared (w_run w)) = true;
  ri_printing : (∃ ls, w_reporter w = RPrinting ls) → sh_done (c_shared (w_run w)) = true;
  ri_waited : c_main (w_run w) = MWaited → w_reporter w ≠ RNone;
}.

Lemma getIndices_state {S A} r (l : list A) m (s s' : S) x :
  getIndices r l m s = Ret x s' → s' = s.
Proof.
  unfold getIndices. destruct (blen l <=? 0); [done|].
  destruct (wrap_s 64 (m - readSize) <=? 0); [done|].
  destruct (l !! _); cbn; by intros [= _ ->].
Qed.

(** [done] is never cleared, and [main] comes back from [wg.Wait] once. *)
Lemma conc2_next_done t p sh p' sh' :
  conc2_next accepts fl max t p sh = Ret p' sh' → sh_done sh' = sh_done sh.
Proof.
  destruct p; cbn [conc2_next]; intros E.
  - apply bind_ret_inv in E as (d & sh1 & [= <- <-] & E). by injection E as _ <-.
  - apply bind_ret_inv in E as ([f off] & sh1 & Hg & E). apply getIndices_state in Hg as ->.
    destruct (ReadAt f off (t_io_ok t)); [done|]. by injection E as _ <-.
  - apply bind_ret_inv in E as ([] & sh1 & [= <-] & E).
    destruct (accepts dur); [|done]. by injection E as _ <-.
  - apply bind_ret_inv in E as ([] & sh1 & [= <-] & E). by injection E as _ <-.
  - by injection E as _ <-.
Qed.

Lemma conc2_step_done s s' :
  conc2_step accepts fl max jobs s s' →
  (sh_done (c_shared s) = true → sh_done (c_shared s') = true).
Proof.
  destruct 1 as [m ws sh|s1 s2 Hgo]; [done|].
  destruct Hgo as [| m ws sh i p t p' sh' _ _ _ Hn | |]; cbn; [done| |done|done].
  by rewrite (conc2_next_done _ _ _ _ _ Hn).
Qed.

Lemma report_inv_step w w' : report_inv w → whole_step w w' → report_inv w'.
Proof.
  intros [Hp Hd Hs Hw] Hstep.
  destruct Hstep as [s s' r out Hgo Hr|ws sh out Hl|s r out lines r' Hc Hn|s r out Hm Hc]; cbn in *.
  - split; cbn; [done|intros E; by eapply conc2_step_done, Hd|intros E; by eapply conc2_step_done, Hs|done].
  - split; cbn; [done..| |done]. by intros [].
  - destruct r as [| | |[|line ls]|]; cbn in Hn; simplify_eq; cbn in *.
    + split; cbn; rewrite ?summary_rate; [done|done|by intros []|done].
    + rewrite app_nil_r.
      destruct (sh_done (c_shared s)) eqn:Ed; split; cbn; rewrite ?Ed; try done. by intros [].
    + rewrite app_nil_r. by split; cbn; [|eauto|intros []|].
    + assert (summary [line] = [line]) as El.
      { apply summary_lines_all. rewrite <-Hp. set_solver. }
      split; cbn; [|eauto..|done]. rewrite summary_app, El. by rewrite <-(assoc_L (++)).
  - by split.
Qed.

Lemma report_inv_reach w : rtc whole_step whole_init w → report_inv w.
Proof.
  intros Hr. assert (report_inv whole_init) as Hi by (split; try done; by intros []).
  revert Hi. induction Hr as [|w1 w2 w3 H12 _ IH]; [done|].
  intros Hi. by eapply IH, report_inv_step.
Qed.

(** ** Two ends *)

Section ends.
Context (Haccepts : ∀ v, 0 ≤ v ≤ 1000000 → accepts v = true).
Context (Hmax : 0 ≤ max < 2 ^ 63) (Hlen : blen fl < 2 ^ 63) (Hfits : fits fl max).
Context (t0 : tick) (Ht0 : tick_ok t0).

Abbreviation inv := (conc2_inv fl max jobs).

(** Without a wake-up, [main] can come back from [wg.Wait], once [done] is set. *)
Lemma whole_to_wait s r out :
  inv s → sh_done (c_shared s) = true →
  ∃ s' r', rtc whole_step (Whole s r out false) (Whole s' r' out false) ∧ c_main s' = MWaited ∧
    inv s'.
Proof.
  intros Hi Hd.
  assert (∃ k, steps_left jobs s ≤ Z.of_nat k) as [k Hk]
    by (exists (Z.to_nat (steps_left jobs s)); lia).
  revert s r Hi Hd Hk. induction k as [|k IH]; intros s r Hi Hd Hk;
    (destruct (c_main s) eqn:Em; [|by exists s, r]).
  { pose proof (steps_nonneg (c_workers s)). destruct Hi as [_ _ Hn _ _ _].
    unfold steps_left, blen in Hk. rewrite Em in Hk. lia. }
  pose proof (conc2_no_crash fl max jobs s Hfits Hi) as Hc.
  destruct (conc2_progress accepts fl max jobs t0 s Ht0 Hi Hc Em) as [s1 Hgo].
  destruct (conc2_inv_go accepts Haccepts fl max Hmax Hlen jobs s s1 Hi Hgo)
    as (Hi1 & Hd1 & Hl1). destruct (Hl1 Hd (conc2_no_crash fl max jobs s1 Hfits Hi1)) as [Hl _].
  destruct (c_main s1) eqn:Em1.
  - destruct (IH s1 r Hi1 ltac:(congruence) ltac:(lia)) as (s2 & r2 & Hrun & Hrest).
    exists s2, r2. split; [|exact Hrest]. eapply rtc_l; [|exact Hrun].
    apply whole_run; [by constructor|congruence].
  - assert (∃ r1, rtc whole_step (Whole s r out false) (Whole s r1 out false) ∧ r1 ≠ RNone)
      as (r1 & Hrun & Hr1).
    { destruct r; [|by eexists..]. exists RTicking. split; [|done].
      apply rtc_once. destruct Hgo; cbn in *; try congruence. by constructor. }
    exists s1, r1. split_and!; [|done|done]. eapply rtc_r; [exact Hrun|].
    apply whole_run; [by constructor|done].
Qed.

(** Any execution that goes on can go on to the return of [main], without a word of the
    reporter. *)
Lemma whole_can_wait w :
  rtc whole_step whole_init w → w_exited w = false →
  ∃ s r, rtc whole_step w (Whole s r (w_printed w) false) ∧ c_main s = MWaited ∧
    c_crash s = None ∧ sh_done (c_shared s) = true.
Proof.
  intros Hw He. pose proof (whole_project _ _ Hw) as Hp. destruct w as [s r out e].
  cbn in *. subst e.
  pose proof (conc2_inv_reach accepts Haccepts fl max Hmax Hlen jobs _ Hp) as Hi.
  destruct s as [m ws sh c]. pose proof (conc2_no_crash fl max jobs _ Hfits Hi) as Hc. cbn in Hc. subst c.
  assert (conc2_step accepts fl max jobs (CState m ws sh None) (CState m ws (set_done sh) None))
    as Hdone by constructor.
  pose proof (rtc_r _ _ _ Hp Hdone) as Hp1.
  apply (conc2_inv_reach accepts Haccepts fl max Hmax Hlen jobs) in Hp1 as Hi1.
  destruct (report_inv_reach _ Hw) as [_ _ _ Hr]. cbn in Hr.
  destruct (whole_to_wait _ r out Hi1 eq_refl) as (s' & r' & Hrun & Hm & Hi').
  exists s', r'. split_and!; [|done|by apply (conc2_no_crash fl max jobs)|].
  - eapply rtc_l; [|exact Hrun]. apply whole_run; [exact Hdone|exact Hr].
  - pose proof (whole_project _ _ Hrun) as Hp'. cbn in Hp'.
    assert (∀ s1 s2, rtc (conc2_step accepts fl max jobs) s1 s2 →
      sh_done (c_shared s1) = true → sh_done (c_shared s2) = true) as Hkeep.
    { clear. induction 1 as [|s1 s2 s3 H12 _ IH]; [done|]. intros E.
      by eapply IH, conc2_step_done. }
    by eapply Hkeep.
Qed.

(** The reporter prints the next lines of the summary. *)
Lemma whole_print_lines s ls out k :
  c_crash s = None → (k ≤ length ls)%nat →
  rtc whole_step (Whole s (RPrinting ls) out false)
    (Whole s (RPrinting (drop k ls)) (out ++ take k ls) false).
Proof.
  intros Hc. revert ls out. induction k as [|k IH]; intros ls out Hk.
  { cbn. by rewrite app_nil_r. }
  destruct ls as [|l ls]; cbn in Hk; [lia|]. eapply rtc_l; [by eapply whole_print|].
  cbn [drop take]. rewrite (cons_middle l out (take k ls)), (assoc_L (++)). apply IH. lia.
Qed.

(** It gets to the summary, once [done] is set. *)
Lemma whole_start_summary s r out :
  c_crash s = None → sh_done (c_shared s) = true → r ≠ RNone → r ≠ RStopped →
  ∃ out', rtc whole_step (Whole s r out false) (Whole s (RPrinting (to_print r)) out' false) ∧
    summary out' = summary out.
Proof.
  intros Hc Hd Hn Hs.
  assert (∀ out, rtc whole_step (Whole s RLoading out false)
    (Whole s (RPrinting summary_lines) out false)) as Hload.
  { intros out1. apply rtc_once. rewrite <-(app_nil_r out1) at 2. apply whole_print; [done|].
    cbn. by rewrite Hd. }
  destruct r as [| | |ls|]; [done| | | |done].
  - exists (out ++ [Rate]). split; [|apply summary_rate].
    eapply rtc_l; [by eapply whole_print|apply Hload].
  - exists out. split; [apply Hload|done].
  - by exists out.
Qed.

(** C27: on files that fit, so that no read can fail: the blank line and the lines [Time
    Taken] and [Total count by hist] of [Conc2] are printed in this order, each at most
    once, and only after the timer has set [done]; but how many of them are printed is
    not decided by the program: whatever is printed already, as long as the process
    runs, it can end with just that, and with each longer beginning of the three: so
    with none of them, with some, and with all. *)
Theorem Conc2_summary_may_be_lost w :
  rtc whole_step whole_init w →
  summary (w_printed w) `prefix_of` summary_lines ∧
  (summary (w_printed w) ≠ [] → sh_done (c_shared (w_run w)) = true) ∧
  (w_exited w = false → ∀ n, (length (summary (w_printed w)) ≤ n ≤ 3)%nat →
   ∃ w', rtc whole_step w w' ∧ w_exited w' = true ∧
     summary (w_printed w') = take n summary_lines).
Proof.
  intros Hw. pose proof (report_inv_reach w Hw) as [Hp Hs _ _]. split_and!; [|done|].
  { rewrite <-Hp. by apply prefix_app_r. }
  intros He n Hn. destruct (whole_can_wait w Hw He) as (s & r & Hrun & Hm & Hc & Hd).
  assert (rtc whole_step whole_init (Whole s r (w_printed w) false))
    as [Hp' _ _ Hr]%report_inv_reach by (etrans; [exact Hw|exact Hrun]).
  cbn in Hp', Hr. specialize (Hr Hm). set (out := w_printed w) in *. clearbody out.
  assert (length (summary out) + length (to_print r) = 3)%nat as Hlen3
    by (rewrite <-length_app, Hp'; done).
  assert (∃ r' out', rtc whole_step (Whole s r out false) (Whole s r' out' false) ∧
    summary out' = take n summary_lines) as (r' & out' & Hrun' & Hout).
  { destruct (decide (r = RStopped)) as [->|Hns].
    { exists RStopped, out. split; [done|]. cbn in Hp', Hlen3. rewrite app_nil_r in Hp'.
      by replace n with 3%nat by lia. }
    destruct (whole_start_summary s r out Hc Hd Hr Hns) as (out1 & Hrun1 & E1).
    set (k := (n - length (summary out))%nat).
    exists (RPrinting (drop k (to_print r))), (out1 ++ take k (to_print r)). split.
    - etrans; [exact Hrun1|]. apply whole_print_lines; [done|lia].
    - rewrite summary_app, E1, (summary_lines_all (take k (to_print r))), <-Hp'.
      + by rewrite take_app, (take_ge (summary out)) by lia.
      + rewrite <-Hp'. intros l Hl. apply elem_of_app. right.
        rewrite <-(take_drop k (to_print r)). apply elem_of_app. by left. }
  exists (Whole s r' out' true). split_and!; [|done|exact Hout].
  etrans; [exact Hrun|]. eapply rtc_r; [exact Hrun'|by constructor].
Qed.
End ends.
End report.

(** ** A run of one goroutine *)

Lemma demo_fits : fits demo_files 2048.
Proof. split; [done|]. split; [done|apply demo_files_ok]. Qed.

(** Two seconds, then none, one, two or three lines of the summary. *)
Lemma Conc2_summary_may_be_lost_witness :
  let w := Whole (demo_state MSpawning GRead true 1 []) RTicking [Rate] false in
  let step := whole_step demo_accepts demo_files 2048 1 in
  Forall (λ n, ∃ w', rtc step w w' ∧ w_exited w' = true ∧
    summary (w_printed w') = take n [Blank; TimeTaken; TotalCount]) [0%nat; 1%nat; 2%nat; 3%nat].
Proof.
  intros w step.
  assert (∀ s s' out, conc2_step demo_accepts demo_files 2048 1 s s' → c_main s' = MSpawning →
    ∀ r, step (Whole s r out false) (Whole s' r out false)) as Hrun.
  { intros s s' out Hs Hm r. apply whole_run; [exact Hs|congruence]. }
  assert (rtc step whole_init w) as Hw.
  { eapply rtc_l; [apply Hrun; [apply cstep_go, gstep_spawn; simpl; lia|done]|].
    eapply rtc_l; [by apply whole_report|].
    eapply rtc_l; [apply Hrun; [apply cstep_go, (demo_next GLoop GRead false 1 [] false 1 []); done|done]|].
    eapply rtc_l; [by apply (whole_print _ _ _ _ (demo_state MSpawning GRead false 1 []) RTicking [] [Rate] RLoading)|].
    eapply rtc_l; [by apply (whole_print _ _ _ _ (demo_state MSpawning GRead false 1 []) RLoading [Rate] [] RTicking)|].
    eapply rtc_l; [apply Hrun; [apply cstep_timer|done]|]. apply rtc_refl. }
  destruct (Conc2_summary_may_be_lost demo_accepts demo_files 2048 1 demo_accepts_ok ltac:(done)
    ltac:(done) demo_fits (demo_tick false) (demo_tick_ok false) w Hw) as (_ & _ & Hend).
  apply Forall_forall. intros n Hn. apply (Hend eq_refl). change (summary (w_printed w)) with (@nil report).
  cbn [length]. split; [lia|]. revert Hn. rewrite !elem_of_cons, elem_of_nil. lia.
Defined.
