(* ===== verification/RandMain.v ===== *)
(** * The program randread: main

    [main] of randread/main.go collects the files, and runs the mode the flag [-mode]
    names.  [randread_main] is what it decides; the modes are those of [RandRead.v]
    and [RandConc.v].  [parallel_safe_iff] is the composition: which directories the
    default mode can read without stopping. *)

From S2P Require Import Prelude RandRead RandConc.
From stdpp Require Import relations.
#[local] Open Scope Z_scope.

(** What [main] goes on with: a mode on the files and the size it has kept. *)
Variant run_mode (AIO : Type) :=
| RSerial (fl : list file) (max : Z)
| RConc2 (fl : list file) (max : Z)
| RConcAio (aios : list AIO) (max : Z)
| RNoAio.                       (* ConcAio prints a message and returns *)
Arguments RSerial {AIO}.
Arguments RConc2 {AIO}.
Arguments RConcAio {AIO}.
Arguments RNoAio {AIO}.

Section main.
Context {AIO : Type} (NewAIOExt : file → option AIO).

(** The files are collected before the mode is looked at. *)
Definition randread_main (mode : Z) (ws : list walk_entry) : M files (run_mode AIO) :=
  collect ws;;
  fl ← gets flist;
  max ← gets maxFileSize;
  if mode =? 0 then mret (RSerial fl max) else
  if mode =? 1 then mret (RConc2 fl max) else
  if mode =? 2 then
    mret match aio_list NewAIOExt fl with
         | Some aios => RConcAio aios max
         | None => RNoAio
         end
  else raise (Fatal "Unknown mode").

(** Before any file is found. *)
Definition no_files : files := Files [] 0.

Lemma randread_main_spec mode ws :
  randread_main mode ws no_files =
    if existsb unopenable ws then Fault (Fatal "y.AssertTruef") else
    match last (info_sizes ws) with
    | None => Fault (Fatal "Must have files already created")
    | Some max =>
        let fl := opened ws in
        if mode =? 0 then Ret (RSerial fl max) (Files fl max) else
        if mode =? 1 then Ret (RConc2 fl max) (Files fl max) else
        if mode =? 2 then
          Ret match aio_list NewAIOExt fl with
              | Some aios => RConcAio aios max
              | None => RNoAio
              end (Files fl max)
        else Fault (Fatal "Unknown mode")
    end.
Proof.
  unfold randread_main, no_files, mbind, M_bind, gets, mret, M_ret. rewrite collect_spec.
  destruct (existsb unopenable ws); [done|]. destruct (last (info_sizes ws)) as [max|]; [|done].
  cbn [flist maxFileSize]. by repeat case_match.
Qed.

(** C33: what [main] goes on with, for every walk of the directory and every mode: it
    collects the files in the order of the walk and keeps as [maxFileSize] the size the
    walk reports of the last one, whatever the sizes of the others; it stops when a file does not
    open, when there is none, and, after all of them were opened, when the mode is
    not 0, 1 or 2; the asynchronous mode returns at once when one of the handles
    cannot be made, and otherwise has one handle for each file. *)
Theorem randread_main_outcome mode ws :
  match randread_main mode ws no_files with
  | Fault e =>
      (existsb unopenable ws = true ∧ e = Fatal "y.AssertTruef") ∨
      (existsb unopenable ws = false ∧ opened ws = [] ∧
         e = Fatal "Must have files already created") ∨
      (existsb unopenable ws = false ∧ opened ws ≠ [] ∧ ¬ 0 ≤ mode ≤ 2 ∧ e = Fatal "Unknown mode")
  | Ret r s =>
      existsb unopenable ws = false ∧ flist s = opened ws ∧
      last (info_sizes ws) = Some (maxFileSize s) ∧
      match r with
      | RSerial fl max => mode = 0 ∧ s = Files fl max
      | RConc2 fl max => mode = 1 ∧ s = Files fl max
      | RConcAio aios max =>
          mode = 2 ∧ max = maxFileSize s ∧ Forall2 (λ f aio, NewAIOExt f = Some aio) (flist s) aios
      | RNoAio => mode = 2 ∧ ∃ f, f ∈ flist s ∧ NewAIOExt f = None
      end
  end.
Proof.
  rewrite randread_main_spec. destruct (existsb unopenable ws); [by left|].
  destruct (last (info_sizes ws)) as [max|] eqn:El;
    [|right; left; by apply last_info_size in El].
  cbn zeta. destruct (Z.eqb_spec mode 0); [done|]. destruct (Z.eqb_spec mode 1); [done|].
  destruct (Z.eqb_spec mode 2).
  - split_and!; [done..|]. cbn [flist maxFileSize]. unfold aio_list.
    destruct (mapM NewAIOExt (opened ws)) as [aios|] eqn:E.
    + split_and!; [done..|]. by apply mapM_Some in E.
    + split; [done|]. apply mapM_None, Exists_exists in E as (g & Hg & E). by exists g.
  - right. right. split_and!; [done| |lia|done]. intros E%last_info_size. congruence.
Qed.
End main.

Section safe.
Context (accepts : Z → bool) (Haccepts : ∀ v, 0 ≤ v ≤ 1000000 → accepts v = true).

(** A file too small for the size kept: a goroutine that draws its last block stops
    the process. *)
Lemma small_file_crashes fl max jobs f :
  f ∈ fl → f_size f + 1 < max → readSize < max < 2 ^ 63 → blen fl < 2 ^ 63 → (0 < jobs)%nat →
  ∃ s, rtc (conc2_step accepts fl max jobs) (cinit (P := gphase)) s ∧ c_crash s ≠ None.
Proof.
  intros [i Hi]%list_elem_of_lookup Hf Hmax Hlen Hj.
  pose proof (lookup_lt_Some _ _ _ Hi) as Hlt.
  set (r := RDraw (λ n, if n =? blen fl then Z.of_nat i else 0) (λ n, n - 1)).
  assert (rdraw_ok r) as Hr.
  { split; intros n Hn; cbn; [|lia]. destruct (Z.eqb_spec n (blen fl)); unfold blen in *; lia. }
  set (t := Tick false r true 0). assert (tick_ok t) as Ht by (by split_and!).
  exists (CState MSpawning [GRead] (Shared false 1 []) (Some (Fatal "Error reading file"))).
  split; [|done].
  eapply rtc_l; [apply cstep_go, gstep_spawn; simpl; lia|].
  eapply rtc_l; [apply cstep_go, (gstep_worker _ _ _ _ _ _ [GLoop] (Shared false 1 []) 0 GLoop t GRead (Shared false 1 [])); done|].
  eapply rtc_l; [|apply rtc_refl].
  apply cstep_go, (gstep_crash _ _ _ _ _ _ _ _ 0 GRead t); [done|done|done|].
  cbn [conc2_next]. unfold getIndices. cbn [t_draw t_io_ok r_Intn r_Int63n t r].
  assert (0 < blen fl) by (unfold blen; lia).
  assert (wrap_s 64 (max - readSize) = max - readSize) as Ew.
  { unfold wrap_s, readSize in *. rewrite Z.mod_small; lia. }
  rewrite Ew, !(proj2 (Z.leb_gt _ _)), Z.eqb_refl, Nat2Z.id, Hi by lia.
  unfold of_option, mbind, M_bind, mret, M_ret, ReadAt. cbn [negb].
  by rewrite (proj2 (Z.leb_gt _ _)) by lia.
Qed.

(** C34: the default mode of randread, from the walk of the directory on: when every file
    opens and the size the walk reports of the last one is larger than a block, [main]
    starts the parallel mode, and no execution of it stops with an error exactly when
    no file is smaller, by more than one byte, than that size. *)
Theorem parallel_safe_iff {AIO} (NewAIOExt : file → option AIO) ws max jobs :
  existsb unopenable ws = false → last (info_sizes ws) = Some max →
  readSize < max < 2 ^ 63 → blen (opened ws) < 2 ^ 63 → (0 < jobs)%nat →
  randread_main NewAIOExt 1 ws no_files =
    Ret (RConc2 (opened ws) max) (Files (opened ws) max) ∧
  ((∀ s, rtc (conc2_step accepts (opened ws) max jobs) (cinit (P := gphase)) s →
      c_crash s = None) ↔
   (∀ g, g ∈ opened ws → max ≤ f_size g + 1)).
Proof.
  intros Hop Hl Hmax Hlen Hj. split; [by rewrite randread_main_spec, Hop, Hl|]. split.
  - intros Hall g Hg. destruct (decide (max ≤ f_size g + 1)) as [|Hn]; [done|].
    destruct (small_file_crashes (opened ws) max jobs g) as (s & Hs & Hc); [done|lia|done..|].
    by apply Hall in Hs.
  - intros Hsz s Hs.
    assert (opened ws ≠ []) as Hne by (intros E%last_info_size; congruence).
    assert (0 ≤ max < 2 ^ 63) as Hm by (unfold readSize in *; lia).
    apply (conc2_inv_reach accepts Haccepts (opened ws) max Hm Hlen) in Hs.
    eapply conc2_no_crash; [|exact Hs]. split_and!; [done|lia|done].
Qed.
End safe.

(** A large file, then a smaller one; and the other way round. *)
Definition demo_walk (a b : Z) : list walk_entry :=
  [WDir; WFile (bs "d/a") a a true; WError; WFile (bs "d/b") b b true].

Lemma parallel_safe_iff_witness :
  (∀ s, rtc (conc2_step demo_accepts (opened (demo_walk 4096 2048)) 2048 8) (cinit (P := gphase)) s →
     c_crash s = None) ∧
  ¬ (∀ s, rtc (conc2_step demo_accepts (opened (demo_walk 2048 4096)) 4096 8) (cinit (P := gphase)) s →
     c_crash s = None).
Proof.
  split.
  - apply (proj2 (parallel_safe_iff demo_accepts demo_accepts_ok (λ f, Some f) (demo_walk 4096 2048)
      2048 8 eq_refl eq_refl ltac:(done) ltac:(done) ltac:(lia))).
    intros g. cbn. rewrite !elem_of_cons. intros [->|[->|[]%not_elem_of_nil]]; simpl; lia.
  - intros H. pose proof (proj1 (proj2 (parallel_safe_iff demo_accepts demo_accepts_ok (λ f, Some f)
      (demo_walk 2048 4096) 4096 8 eq_refl eq_refl ltac:(done) ltac:(done)
      ltac:(lia))) H (File (bs "d/a") 2048)) as Hs.
    assert (4096 ≤ 2048 + 1) as Hle; [apply Hs; left|lia].
Defined.
