(* ===== verification/Bench.v ===== *)
(** * The read benchmarks: bench_test.go

    The parts of bench_test.go that read the rocks store: the random reads with
    their hit counters, and the iteration with its progress marks; and the helpers
    the benchmarks of the other stores share.  The goroutines the random reads run in are
    in [ParRead.v].  The benchmarks of the other stores are
    in [BenchReads.v] and [BenchIter.v].  What the benchmarks find in a store
    populate has written is in [ReadBack.v]. *)

From S2P Require Import Prelude Rocks MemRocks Memory Rdbc Rdb RdbSpec Strconv Store StoreSpec StoreOpen IterSpec Float64 Populate PopulateSpec Scenario RwSpec.

Definition Mi : Z := 1000000.

(** ** Progress marks *)

(** [print(count)]: what it writes. *)
Definition print (count : Z) : bytes :=
  if Z.rem count 100000 =? 0 then bs "."
  else if Z.rem count Mi =? 0 then bs "-"
  else [].

(** ** Hit counters *)

(** The fields are [uint64]. *)
Record hitCounter := HitCounter { found : Z; notFound : Z; errored : Z }.

Definition hitCounter_Reset : hitCounter := HitCounter 0 0 0.

(** The atomic additions of [Update]. *)
Variant atomic_add := AddFound (n : Z) | AddNotFound (n : Z) | AddErrored (n : Z).

Definition apply_add (h : hitCounter) (a : atomic_add) : hitCounter :=
  match a with
  | AddFound n => HitCounter (wrap_u 64 (found h + n)) (notFound h) (errored h)
  | AddNotFound n => HitCounter (found h) (wrap_u 64 (notFound h + n)) (errored h)
  | AddErrored n => HitCounter (found h) (notFound h) (wrap_u 64 (errored h + n))
  end.

(** [h.Update(c)], as the sequence of its three atomic additions to [h]. *)
Definition hitCounter_Update (c : hitCounter) : list atomic_add :=
  [AddFound (found c); AddNotFound (notFound c); AddErrored (errored c)].

(** The number [Print] calls [total keys looked at]. *)
Definition total_keys (h : hitCounter) : Z :=
  wrap_u 64 (wrap_u 64 (found h + notFound h) + errored h).

(** What [h.Print] logs. *)
Definition hitCounter_Print (storeName : bytes) (h : hitCounter) : list bytes :=
  [storeName ++ bs ": " ++ itoa (found h) ++ bs " keys had valid values.";
   storeName ++ bs ": " ++ itoa (notFound h) ++ bs " keys had no values";
   storeName ++ bs ": " ++ itoa (errored h) ++ bs " keys had errors";
   storeName ++ bs ": " ++ itoa (total_keys h) ++ bs " total keys looked at";
   storeName ++ bs ": hit rate : " ++
     fmt_2f 0 (f64_div (f64_of_Z (found h)) (f64_of_Z (total_keys h)))].

(** ** The benchmarks of the rocks store *)

Section bench.
Context `{RocksDB, Libc, Arch}.
Context (fl : flags).

(** [newKey()], the random number being [r]. *)
Definition newKey (r : Z) : M st goslice :=
  if key_space fl =? 0 then raise PanicDivide else
  go_bytes (key_of (valueSize fl) (Z.rem r (key_space fl))).

(** The store both benchmarks of rocks read. *)
Definition getRocks (dir : bytes) : M st ptr :=
  '(rdb, err) ← NewReadOnlyStore (dir ++ bs "/rocks");
  check_error "y.Check" err;;
  mret rdb.

(** The function [BenchmarkReadRandomRocks] hands to [runRandomReadBenchmark]: one
    pass per random number, as many as [pb.Next] allows. *)
Fixpoint read_random_rocks (rdb : ptr) (rs : list Z) (c : hitCounter) : M st hitCounter :=
  match rs with
  | [] => mret c
  | r :: rs =>
      key ← newKey r;
      '(rdb_slice, err) ← Store_Get rdb key;
      c ← match err with
          | Some _ => mret (HitCounter (found c) (notFound c) (wrap_u 64 (errored c + 1)))
          | None =>
              n ← Slice_Size rdb_slice;
              if 0 <? n
              then mret (HitCounter (wrap_u 64 (found c + 1)) (notFound c) (errored c))
              else mret (HitCounter (found c) (wrap_u 64 (notFound c + 1)) (errored c))
          end;
      read_random_rocks rdb rs c
  end.

(** [safecopy], of a source of [n] bytes, which [read] reads. *)
Definition safecopy_of (dst : goslice) (n : Z) (read : M st bytes) : M st goslice :=
  dst ← (if sl_cap dst <? n then go_make n else mret dst);
  dst ← go_reslice dst n;
  b ← read;
  go_copy dst b;;
  mret dst.

Definition safecopy (dst src : goslice) : M st goslice :=
  safecopy_of dst (sl_len src) (sl_read src).

(** The loop of [BenchmarkIterateRocks], from the test on: it stops after two million
    entries.  The result is the count and the marks, and the buffers as they are then. *)
Fixpoint iterate_loop (fuel : nat) (itr : ptr) (k v : goslice) (count : Z) (out : bytes) :
    M st (Z * bytes * (goslice * goslice)) :=
  match fuel with
  | O => raise OutOfFuel
  | S fuel =>
      valid ← Iterator_Valid itr;
      if valid : bool then
        kp ← Iterator_Key itr;
        kd ← Slice_Data kp;
        k ← safecopy k kd;
        vp ← Iterator_Value itr;
        vd ← Slice_Data vp;
        v ← safecopy v vd;
        let count := wrap_s 64 (count + 1) in
        let out := out ++ print count in
        if 2 * Mi <=? count then mret (count, out, (k, v))
        else
          Iterator_Next itr;;
          iterate_loop fuel itr k v count out
      else mret (count, out, (k, v))
  end.

(** One round of the benchmark.  The iterator is not closed. *)
Definition iterate_round (fuel : nat) (rdb : ptr) (k v : goslice) :
    M st (Z * bytes * (goslice * goslice)) :=
  itr ← Store_NewIterator rdb;
  Iterator_SeekToFirst itr;;
  iterate_loop fuel itr k v 0 [].

(** The count a round logs, and its marks. *)
Definition iterate_rocks (fuel : nat) (rdb : ptr) (k v : goslice) : M st (Z * bytes) :=
  '(count, out, _) ← iterate_round fuel rdb k v;
  mret (count, out).

(** [for j := 0; j < b.N; j++]. *)
Fixpoint iterate_rounds (fuel : nat) (rdb : ptr) (n : nat) (k v : goslice) :
    M st (list (Z * bytes)) :=
  match n with
  | O => mret []
  | S n =>
      '(count, out, (k, v)) ← iterate_round fuel rdb k v;
      rest ← iterate_rounds fuel rdb n k v;
      mret ((count, out) :: rest)
  end.

(** The random reads of the store in [dir], when [b.RunParallel] runs one goroutine: the
    counter, and what [Print] logs of it. *)
Definition BenchmarkReadRandomRocks (dir : bytes) (rs : list Z) :
    M st (hitCounter * list bytes) :=
  rdb ← getRocks dir;
  c ← read_random_rocks rdb rs (HitCounter 0 0 0);
  let counter := foldl apply_add hitCounter_Reset (hitCounter_Update c) in
  let logged := hitCounter_Print (bs "rocksdb") counter in
  Store_Close rdb;;
  mret (counter, logged).

(** The iteration, up to the deferred [Close]: the store, and what the rounds log. *)
Definition iterate_opened (dir : bytes) (fuel n : nat) : M st (ptr * list (Z * bytes)) :=
  rdb ← getRocks dir;
  k ← go_make 1024;
  v ← go_make Mi;
  counts ← iterate_rounds fuel rdb n k v;
  mret (rdb, counts).

Definition BenchmarkIterateRocks (dir : bytes) (fuel n : nat) : M st (list (Z * bytes)) :=
  '(rdb, counts) ← iterate_opened dir fuel n;
  Store_Close rdb;;
  mret counts.
End bench.

(** ** Theorems *)

(** The mark [-], meant for every million, is never printed: a multiple of a
    million is one of a hundred thousand, and the test for those comes first. *)
Theorem print_never_dashes count : print count ≠ bs "-".
Proof.
  unfold print. destruct (Z.eqb_spec (Z.rem count 100000) 0) as [|Hne]; [done|].
  destruct (Z.eqb_spec (Z.rem count Mi) 0) as [E|]; [|done]. intros _. apply Hne.
  apply Z.rem_divide; [done|]. apply Z.rem_divide in E as [q ->]; [|done].
  exists (q * 10). unfold Mi. lia.
Qed.

Definition sum_by {A} (f : A → Z) (l : list A) : Z := foldr (λ x z, f x + z) 0 l.

Lemma sum_by_cons {A} (f : A → Z) x l : sum_by f (x :: l) = f x + sum_by f l.
Proof. done. Qed.

Lemma sum_by_app {A} (f : A → Z) l k : sum_by f (l ++ k) = sum_by f l + sum_by f k.
Proof. induction l as [|x l IH]; simpl; [done|]. rewrite IH. lia. Qed.

Lemma sum_by_perm {A} (f : A → Z) l k : l ≡ₚ k → sum_by f l = sum_by f k.
Proof. induction 1; simpl; lia. Qed.

Definition to_found (a : atomic_add) := match a with AddFound n => n | _ => 0 end.
Definition to_notFound (a : atomic_add) := match a with AddNotFound n => n | _ => 0 end.
Definition to_errored (a : atomic_add) := match a with AddErrored n => n | _ => 0 end.

Lemma wrap_u_add w x y : wrap_u w (wrap_u w x + y) = wrap_u w (x + y).
Proof. unfold wrap_u. by rewrite Zplus_mod_idemp_l. Qed.

(** A run of additions in any order: each field is the sum, modulo 2^64. *)
Lemma apply_adds l h :
  found h = wrap_u 64 (found h) → notFound h = wrap_u 64 (notFound h) →
  errored h = wrap_u 64 (errored h) →
  foldl apply_add h l =
    HitCounter (wrap_u 64 (found h + sum_by to_found l))
      (wrap_u 64 (notFound h + sum_by to_notFound l)) (wrap_u 64 (errored h + sum_by to_errored l)).
Proof.
  revert h. induction l as [|a l IH]; intros [f n e] Hf Hn He; cbn [found notFound errored] in *.
  { simpl. rewrite !Z.add_0_r. by f_equal. }
  cbn [foldl]. assert (∀ x, wrap_u 64 x = wrap_u 64 (wrap_u 64 x)) as Hid.
  { intros x. unfold wrap_u. by rewrite Zmod_mod. }
  rewrite IH; destruct a; cbn [apply_add found notFound errored sum_by foldr to_found
    to_notFound to_errored]; rewrite ?wrap_u_add, ?Z.add_0_l, ?Z.add_assoc; auto.
Qed.

(** The counters of a parallel benchmark: however the atomic additions of the
    goroutines' [Update] calls interleave, the shared counter ends with the sum of
    theirs in every field, and the total is the number of all keys looked at. *)
Theorem updates_add_up cs l :
  Forall (λ c, 0 ≤ found c ∧ 0 ≤ notFound c ∧ 0 ≤ errored c) cs →
  sum_by (λ c, found c + notFound c + errored c) cs < 2 ^ 64 →
  l ≡ₚ cs ≫= hitCounter_Update →
  let h := foldl apply_add hitCounter_Reset l in
  h = HitCounter (sum_by found cs) (sum_by notFound cs) (sum_by errored cs) ∧
  total_keys h = sum_by (λ c, found c + notFound c + errored c) cs.
Proof.
  intros Hcs Hsum Hl. cbn zeta. rewrite apply_adds by done. cbn [found notFound errored].
  rewrite !Z.add_0_l, !(sum_by_perm _ _ _ Hl). clear Hl.
  assert (sum_by to_found (cs ≫= hitCounter_Update) = sum_by found cs ∧
          sum_by to_notFound (cs ≫= hitCounter_Update) = sum_by notFound cs ∧
          sum_by to_errored (cs ≫= hitCounter_Update) = sum_by errored cs) as (-> & -> & ->).
  { clear. induction cs as [|c cs (IH1 & IH2 & IH3)]; [done|]. cbn [mbind list_bind].
    rewrite !sum_by_app, IH1, IH2, IH3. simpl. lia. }
  assert (0 ≤ sum_by found cs ∧ 0 ≤ sum_by notFound cs ∧ 0 ≤ sum_by errored cs ∧
    sum_by (λ c, found c + notFound c + errored c) cs =
    sum_by found cs + sum_by notFound cs + sum_by errored cs) as (H1 & H2 & H3 & E).
  { clear Hsum. induction Hcs as [|c cs Hc _ IH]; [done|].
    rewrite !sum_by_cons. lia. }
  unfold total_keys, wrap_u. cbn [found notFound errored]. rewrite E in Hsum.
  rewrite (Z.mod_small (sum_by found cs)), (Z.mod_small (sum_by notFound cs)),
    (Z.mod_small (sum_by errored cs)) by lia.
  rewrite (Z.mod_small (_ + _)), (Z.mod_small (_ + _)) by (rewrite ?Z.mod_small; lia).
  split; [done|]. by rewrite E.
Qed.

Section random_reads.
Context `{RocksLaws, Libc, Arch}.
Context (fl : flags).

(** A store open for reading, also by [NewReadOnlyStore], whose reads see [m]. *)
Definition readable (σ : st) (s : ptr) (h : handle) (m : gmap bytes bytes) : Prop :=
  ∃ x ro, go_at σ s (GStore x) ∧ db_at σ (s_db x) h ∧ ro_at σ (s_ropt x) ro ∧
    faultless (world σ) ∧ is_Some (contents (world σ) h) ∧ read_view (world σ) h ro = Some m.

Lemma readable_grows σ σ' s h m :
  readable σ s h m → grows σ σ' → stable [] (world σ) (world σ') → readable σ' s h m.
Proof.
  intros (x & ro & ? & ? & ? & ? & ? & Hv) Hg Hst. exists x, ro.
  assert (contents (world σ') h = contents (world σ) h) as Ec
    by (apply (stable_contents _ _ _ Hst); set_solver).
  split_and!; [by eapply go_at_grows|by eapply db_at_grows|by eapply ro_at_grows
              |by eapply stable_faultless|by rewrite Ec|].
  unfold read_view in *. destruct (ro_snapshot ro); [by eapply stable_snapshot|by rewrite Ec].
Qed.

(** A store without a snapshot selected shows its contents. *)
Lemma store_readable {rw} σ s h m : store_open rw σ s h [] (KV m None []) → readable σ s h m.
Proof.
  intros [Hf Hc _ _ (x & ro & wo & [Hx Hdb Hro _ Hv _])]. cbn [kv_live kv_read view_rep] in *.
  exists x, ro. split_and!; try done. unfold read_view. by rewrite Hv.
Qed.

(** A key is a hit when it has a value that is not empty. *)
Definition hit (m : gmap bytes bytes) (k : bytes) : Z :=
  match m !! k with Some (_ :: _) => 1 | _ => 0 end.

Definition bench_key (r : Z) : bytes := key_of (valueSize fl) (Z.rem r (key_space fl)).

Context (Hks : key_space fl ≠ 0) (Hvs : Z.abs (valueSize fl) < 2 ^ 63).

Lemma wp_newKey σ r (Q : goslice → st → Prop) :
  0 ≤ r < 2 ^ 63 →
  (∀ key σ', slice_at σ' key (bench_key r) → grows σ σ' → cheap σ' = cheap σ →
     world σ' = world σ → Q key σ') →
  wp (newKey fl r) σ Q.
Proof.
  intros Hrr HQ. unfold newKey. rewrite (proj2 (Z.eqb_neq _ _)) by done. fold (bench_key r).
  apply wp_go_bytes; [apply key_of_len_ok; [done|by apply rem_small]|exact HQ].
Qed.

(** The slice a get returns: its size is [n]. *)
Definition sized (σ : st) (p : ptr) (n : Z) : Prop :=
  ∃ sl, go_at σ p (GSlice sl) ∧ wrap_s 64 (slice_size sl) = n.

Lemma sized_grows σ σ' p n : grows σ σ' → sized σ p n → sized σ' p n.
Proof. intros Hg (sl & Hp & En). exists sl. split; [by eapply go_at_grows|done]. Qed.

Lemma Slice_Size_sized σ p n : sized σ p n → Slice_Size p σ = Ret n σ.
Proof.
  intros (sl & Hp & <-). unfold Slice_Size. by erewrite bind_ret; [|by eapply go_at_load].
Qed.

(** A get: the size of the slice it returns, and the block it leaves for a hit. *)
Lemma wp_Get_sized σ s h m r key (Q : ptr * error → st → Prop) :
  readable σ s h m → map_ok m → slice_at σ key (bench_key r) →
  (∀ p σ', readable σ' s h m → grows σ σ' → stable [] (world σ) (world σ') →
     sized σ' p (from_option blen 0 (m !! bench_key r)) →
     Z.of_nat (size (cheap σ)) + hit m (bench_key r) ≤ Z.of_nat (size (cheap σ')) →
     (quiet (world σ) h → quiet (world σ') h) → Q (p, None) σ') →
  wp (Store_Get s key) σ Q.
Proof.
  intros Hr1 Hm Hkey HQ. pose proof Hr1 as (x & ro & Hx & Hdb & Hro & Hf & Hco & Hv).
  destruct (law_get (world σ) h ro (bench_key r) m) as (st0 & v & w & E & Hst & _ & Hqu & Hres); [done..|].
  assert (∀ p n σ', grows σ σ' → stable [] (world σ) (world σ') → sized σ' p n →
    n = from_option blen 0 (m !! bench_key r) →
    Z.of_nat (size (cheap σ)) + hit m (bench_key r) ≤ Z.of_nat (size (cheap σ')) →
    world σ' = w → Q (p, None) σ') as HQ'.
  { intros p n σ' Hg Hst' Hsz -> Hle Ew. apply HQ; [by eapply readable_grows|done..|rewrite Ew; apply Hqu]. }
  clear HQ. unfold Store_Get. apply wp_bind. eapply wp_go_load; [done|done|]. apply wp_bind.
  eapply wp_DB_Get; [done..|]. intros res σ2 Hget. unfold get_result in Hget. unfold hit in HQ'.
  destruct (m !! bench_key r) as [v'|] eqn:Ek.
  - destruct Hres as [Hs ->]. rewrite Hs in Hget. destruct Hget as (l & p & σ3 & Hcp & Hl & -> & ->).
    assert (len_ok v') as Hv' by by eapply Hm. apply wp_ret. eapply HQ'.
    + destruct Hcp as [(-> & _ & _ & ->)|(lc & _ & Hlc & ->)]; (split; cbn;
        [try done; by apply insert_subseteq|by apply insert_subseteq]).
    + destruct Hcp as [(-> & _ & _ & ->)|(lc & _ & Hlc & ->)]; exact Hst.
    + eexists. split; [apply lookup_insert_eq|done].
    + cbn [slice_size from_option]. by rewrite wrap_s_small.
    + destruct Hcp as [(-> & _ & _ & ->)|(lc & _ & Hlc & ->)]; cbn; [lia|].
      rewrite map_size_insert_None by done. destruct v'; lia.
    + by destruct Hcp as [(-> & _ & _ & ->)|(lc & _ & Hlc & ->)].
  - destruct Hres as [Hs Hn]. rewrite Hs, Hn in Hget. destruct Hget as (l & Hl & -> & ->).
    apply wp_ret. eapply HQ'.
    + split; [done|]. by apply insert_subseteq.
    + exact Hst.
    + eexists. split; [apply lookup_insert_eq|done].
    + done.
    + cbn. lia.
    + done.
Qed.

(** One pass. *)
Lemma wp_get_size σ s h m r (Q : ptr * error → st → Prop) :
  readable σ s h m → map_ok m → 0 ≤ r < 2 ^ 63 →
  (∀ p σ', readable σ' s h m →
     Slice_Size p σ' = Ret (from_option blen 0 (m !! bench_key r)) σ' →
     Z.of_nat (size (cheap σ)) + hit m (bench_key r) ≤ Z.of_nat (size (cheap σ')) →
     (quiet (world σ) h → quiet (world σ') h) → Q (p, None) σ') →
  wp (newKey fl r) σ (λ key σ', wp (Store_Get s key) σ' Q).
Proof.
  intros Hr Hm Hrr HQ. apply wp_newKey; [done|]. intros key σ1 Hkey Hg1 Hc1 Hw1.
  eapply (wp_Get_sized σ1 s h m r); [|done|done|].
  - eapply readable_grows; [done|done|]. rewrite Hw1. apply stable_refl.
  - intros p σ2 Hr2 _ _ Hsz Hle Hqu. rewrite Hc1 in Hle. rewrite Hw1 in Hqu.
    by apply HQ; [|apply Slice_Size_sized|..].
Qed.

(** The random reads of the rocks store: no key errs; the keys counted as found
    are those whose value is not empty, and all the others count as not found, also
    those that are in the store with an empty value; as no slice is freed, every
    hit leaves its C block behind.  The store stays open. *)
Theorem read_random_rocks_counts σ s h m rs c :
  readable σ s h m → map_ok m → Forall (λ r, 0 ≤ r < 2 ^ 63) rs →
  0 ≤ found c → 0 ≤ notFound c → found c + notFound c + blen rs < 2 ^ 64 →
  let hits := sum_by (λ r, hit m (bench_key r)) rs in
  wp (read_random_rocks fl s rs c) σ (λ c' σ',
    c' = HitCounter (found c + hits) (notFound c + (blen rs - hits)) (errored c) ∧
    Z.of_nat (size (cheap σ)) + hits ≤ Z.of_nat (size (cheap σ')) ∧
    readable σ' s h m ∧ (quiet (world σ) h → quiet (world σ') h)).
Proof.
  cbn zeta. intros Hr Hm Hrs. revert σ c Hr.
  induction Hrs as [|r rs Hr0 _ IH]; intros σ c Hr Hf Hn Hb.
  { apply wp_ret. destruct c. cbn. unfold blen. simpl. split; [f_equal; lia|]. split; [lia|by split]. }
  cbn [read_random_rocks]. rewrite sum_by_cons.
  assert (blen (r :: rs) = 1 + blen rs) as El by (unfold blen; simpl; lia).
  pose proof (blen_nonneg rs). apply wp_bind.
  eapply wp_mono; [eapply (wp_get_size _ _ _ _ _ (λ res σ1, ∃ p, res = (p, None) ∧
    readable σ1 s h m ∧ Slice_Size p σ1 = Ret (from_option blen 0 (m !! bench_key r)) σ1 ∧
    Z.of_nat (size (cheap σ)) + hit m (bench_key r) ≤ Z.of_nat (size (cheap σ1)) ∧
    (quiet (world σ) h → quiet (world σ1) h))); [done..|]|].
  { intros p σ1 ? ? ? ?. by exists p. }
  intros key σ0 Hget. apply wp_bind. eapply wp_mono; [exact Hget|].
  intros res σ1 (p & -> & Hr1 & Hsz & Hbl & Hqu). cbn beta iota. apply wp_bind, wp_bind.
  unfold wp at 1. rewrite Hsz. set (k := bench_key r) in *.
  assert ((0 <? from_option blen 0 (m !! k)) = (0 <? hit m k)) as ->.
  { unfold hit. destruct (m !! k) as [[|b v]|]; [done| |done]. simpl. apply Z.ltb_lt.
    unfold blen. simpl. lia. }
  assert (∀ z, 0 ≤ z < 2 ^ 64 → wrap_u 64 z = z) as Hwrap by (intros; by apply Z.mod_small).
  assert (hit m k = 0 ∨ hit m k = 1) as [Eh|Eh]
    by (unfold hit; destruct (m !! k) as [[]|]; auto); rewrite Eh in *; cbn [Z.ltb Z.compare];
    apply wp_ret; rewrite Hwrap by lia;
    (eapply wp_mono; [apply IH; [exact Hr1|cbn [found notFound]; lia..]|]);
    cbn [found notFound errored]; intros c' σ2 (-> & Hle & Hr2 & Hq2); (split; [f_equal; lia|]);
    (split; [lia|]); split; auto.
Qed.
End random_reads.

(** ** Iterating *)

Section iterating.
Context `{RocksLaws, Libc, Arch} {rw : bool}.

(** A buffer: a Go slice of a byte array of its own capacity. *)
Definition buf_at (σ : st) (d : goslice) : Prop :=
  ∃ l n a, d = Sl (PG l) n (blen a) ∧ gheap σ !! l = Some (GBytes a).

(** Only byte arrays are written, and they keep their length. *)
Record data_step (σ σ' : st) : Prop := {
  ds_cheap : cheap σ' = cheap σ;
  ds_world : world σ' = world σ;
  ds_cells l o : gheap σ !! l = Some o → data_cell o = false → gheap σ' !! l = Some o;
  ds_bytes l a : gheap σ !! l = Some (GBytes a) →
    ∃ a', gheap σ' !! l = Some (GBytes a') ∧ blen a' = blen a;
}.

Lemma data_step_trans σ1 σ2 σ3 : data_step σ1 σ2 → data_step σ2 σ3 → data_step σ1 σ3.
Proof.
  intros [C1 W1 K1 B1] [C2 W2 K2 B2]. split; [congruence|congruence|eauto|].
  intros l a Hl. destruct (B1 l a Hl) as (a1 & Hl1 & E1).
  destruct (B2 l a1 Hl1) as (a2 & Hl2 & E2). exists a2. split; [done|congruence].
Qed.

Lemma data_step_new σ l o : gheap σ !! l = None → data_step σ (on_gheap <[l := o]> σ).
Proof.
  intros Hl. split; [done|done| |].
  - intros l' o' Hl' _. cbn. rewrite lookup_insert_ne; congruence.
  - intros l' a Hl'. exists a. cbn. rewrite lookup_insert_ne; [done|congruence].
Qed.

Lemma data_step_write σ l a a' :
  gheap σ !! l = Some (GBytes a) → blen a' = blen a →
  data_step σ (on_gheap <[l := GBytes a']> σ).
Proof.
  intros Hl Ha. split; [done|done| |].
  - intros l' o' Hl' Ho. cbn. rewrite lookup_insert_ne; [done|]. intros ->.
    rewrite Hl in Hl'. by simplify_eq.
  - intros l' b Hl'. cbn. destruct (decide (l = l')) as [->|Hne].
    + exists a'. rewrite lookup_insert_eq. simplify_eq. done.
    + exists b. by rewrite lookup_insert_ne.
Qed.

(** The buffer [dst] is written, or replaced by a new one; nothing else changes. *)
Record buf_step (dst : goslice) (σ σ' : st) : Prop := {
  bs_data : data_step σ σ';
  bs_others l o : gheap σ !! l = Some o → sl_ptr dst ≠ PG l → gheap σ' !! l = Some o;
}.

Lemma buf_step_new dst σ l o : gheap σ !! l = None → buf_step dst σ (on_gheap <[l := o]> σ).
Proof.
  intros Hl. split; [by apply data_step_new|]. intros l' o' Hl' _. cbn.
  rewrite lookup_insert_ne; congruence.
Qed.

(** A slice of another array shows the same bytes. *)
Lemma slice_at_buf_step dst σ σ' s b :
  buf_step dst σ σ' → slice_at σ s b → sl_ptr s ≠ sl_ptr dst → slice_at σ' s b.
Proof.
  intros [Hd Ho] (Hl & Hb & Ha) Hne. split_and!; [done|done|]. intros Hb'.
  destruct (Ha Hb') as (a & [Hg|Hc] & Ht); exists a; (split; [|exact Ht]).
  - left. destruct (sl_ptr s); try done. simpl in *. apply Ho; congruence.
  - right. destruct (sl_ptr s); try done. simpl in *. by rewrite (ds_cheap _ _ Hd).
Qed.

Lemma buf_at_step σ σ' d : data_step σ σ' → buf_at σ d → buf_at σ' d.
Proof.
  intros Hs (l & n & a & -> & Hl). destruct (ds_bytes _ _ Hs l a Hl) as (a' & Hl' & <-).
  by exists l, n, a'.
Qed.

Lemma store_rep_step σ σ' s h sp a : data_step σ σ' → store_open rw σ s h sp a → store_open rw σ' s h sp a.
Proof. intros [Ec Ew Hg _] Hr. eapply store_rep_cells; [done|by rewrite Ec|done|done]. Qed.

Lemma iter_before_step σ σ' p lc it h gen m l :
  data_step σ σ' → iter_before σ p lc it h gen m l → iter_before σ' p lc it h gen m l.
Proof.
  intros [Ec Ew Hg _] [(Hp & Hlc & Hv & Hli) Hrem]. split; [split_and!|].
  - destruct p; try done. simpl in *. by apply Hg.
  - by rewrite Ec.
  - by rewrite Ew.
  - by rewrite Ew.
  - by rewrite Ew.
Qed.

(** A buffer [make] returns. *)
Lemma wp_go_make σ n (Q : goslice → st → Prop) :
  0 ≤ n → (∀ d σ', buf_at σ' d → data_step σ σ' → Q d σ') → wp (go_make n) σ Q.
Proof.
  intros Hn HQ. unfold go_make. rewrite (proj2 (Z.ltb_ge _ _)) by lia.
  apply wp_bind, wp_go_new. intros l Hl. apply wp_ret, HQ; [|by apply data_step_new].
  exists l, n, (replicate (Z.to_nat n) "000"%byte). split; [|apply lookup_insert_eq].
  unfold blen. by rewrite length_replicate, Z2Nat.id.
Qed.

(** [safecopy]: the result shows the bytes of the source, whether the buffer was
    reused or replaced. *)
Lemma wp_safecopy_of σ dst n read b (Q : goslice → st → Prop) :
  buf_at σ dst → n = blen b → len_ok b →
  (∀ σ', buf_step dst σ σ' → read σ' = Ret b σ') →
  (∀ d σ', buf_step dst σ σ' → buf_at σ' d → slice_at σ' d b → Q d σ') →
  wp (safecopy_of dst n read) σ Q.
Proof.
  intros (l & n0 & a & -> & Hl) -> Hb Hread HQ. unfold safecopy_of.
  assert (∀ σ1 l1 n1 a1, buf_step (Sl (PG l) n0 (blen a)) σ σ1 →
    gheap σ !! l1 = None ∨ l1 = l → gheap σ1 !! l1 = Some (GBytes a1) → blen b ≤ blen a1 →
    wp (d ← go_reslice (Sl (PG l1) n1 (blen a1)) (blen b); x ← read; go_copy d x;; mret d)
      σ1 Q) as Htail.
  { intros σ1 l1 n1 a1 Hs1 Hnew Hl1 Hle. apply wp_bind. unfold go_reslice. cbn [sl_cap sl_ptr].
    rewrite (proj2 (Z.leb_le 0 _)), (proj2 (Z.leb_le _ _)) by (done || apply blen_nonneg).
    apply wp_ret, wp_bind. unfold wp at 1. rewrite (Hread _ Hs1). apply wp_bind.
    eapply wp_go_copy; [exact Hl1|done|]. apply wp_ret.
    set (a2 := b ++ drop (length b) a1). assert (blen a2 = blen a1) as E2.
    { unfold a2, blen in *. rewrite length_app, length_drop. lia. }
    apply HQ.
    - split; [eapply data_step_trans; [apply Hs1|]; by eapply data_step_write|].
      intros l' o Hl' Hne. cbn [sl_ptr] in Hne. cbn.
      rewrite lookup_insert_ne; [by apply (bs_others _ _ _ Hs1)|].
      intros ->. destruct Hnew; congruence.
    - exists l1, (blen b), a2. rewrite E2. split; [done|]. apply lookup_insert_eq.
    - split_and!; [done|exact Hb|]. intros _. exists a2.
      split; [left; apply lookup_insert_eq|]. unfold a2. by rewrite take_app_length. }
  cbn [sl_cap]. apply wp_bind. destruct (Z.ltb_spec (blen a) (blen b)) as [Hlt|Hge].
  - unfold go_make. pose proof (blen_nonneg b). rewrite (proj2 (Z.ltb_ge _ _)) by lia.
    apply wp_bind, wp_go_new. intros l1 Hl1. apply wp_ret.
    set (z := replicate _ _). assert (blen z = blen b) as Ez.
    { unfold z, blen. rewrite length_replicate. lia. }
    rewrite <-Ez at 1 2. rewrite Ez at 1.
    apply Htail; [by apply buf_step_new|by left|apply lookup_insert_eq|lia].
  - apply wp_ret. apply Htail; [|by right|done|done]. split; [split; eauto|done].
Qed.

(** A key or a value of the iterator, copied into a buffer. *)
Lemma wp_copy_entry {B} σ s h sp a p lc it gen m e l (val : bool) ls dst
    (f : goslice → M st B) (Q : B → st → Prop) :
  store_open rw σ s h sp a → iter_before σ p lc it h gen m (e :: l) → buf_at σ dst →
  len_ok (if val then e.2 else e.1) →
  gheap σ !! ls = Some (entry_slice lc gen val (if val then e.2 else e.1)) →
  (∀ d σ', data_step σ σ' → buf_at σ' d → slice_at σ' d (if val then e.2 else e.1) →
     wp (f d) σ' Q) →
  wp (kd ← Slice_Data (PG ls); d ← safecopy dst kd; f d) σ Q.
Proof.
  intros Hr Hit Hb Hlen Hls HQ. apply wp_bind. unfold Slice_Data. apply wp_bind.
  eapply wp_go_load; [exact Hls|done|]. apply wp_ret. cbn [slice_data slice_size].
  apply wp_bind. eapply wp_safecopy_of; [exact Hb| |exact Hlen| |].
  - cbn [charToByte sl_len]. by apply wrap_s_small.
  - intros σ' [Hs _]. eapply (sl_read_entry _ p lc it h gen m e l); [|done|done].
    by eapply iter_before_step.
  - intros d σ' [Hs _]. by apply HQ.
Qed.

(** The marks of a loop that has counted to [n]. *)
Definition marks (n : Z) : bytes := mjoin (print <$> seqZ 1 n).

Lemma marks_next n : 0 ≤ n → marks (n + 1) = marks n ++ print (n + 1).
Proof.
  intros Hn. unfold marks. rewrite seqZ_app by lia. rewrite fmap_app, join_app.
  f_equal. rewrite (Z.add_comm 1 n), seqZ_cons by lia. apply app_nil_r.
Qed.

Lemma wp_iterate_loop fuel σ s h sp a p lc it gen m l k v n 
    (Q : Z * bytes * (goslice * goslice) → st → Prop) :
  store_open rw σ s h sp a → iter_before σ p lc it h gen m l → buf_at σ k → buf_at σ v →
  Forall (λ e, len_ok e.1 ∧ len_ok e.2) l → (length l < fuel)%nat → 0 ≤ n < 2 * Mi →
  (∀ σ' k' v', let total := Z.min (n + blen l) (2 * Mi) in
     store_open rw σ' s h sp a → buf_at σ' k' → buf_at σ' v' → iterates (world σ') it h →
     Q (total, marks total, (k', v')) σ') →
  wp (iterate_loop fuel p k v n (marks n)) σ Q.
Proof.
  cbn zeta. revert σ gen l k v n. induction fuel as [|fuel IH];
    intros σ gen l k v n Hr Hit Hk Hv Hl Hf Hn HQ; [lia|].
  cbn [iterate_loop]. apply wp_bind. eapply wp_Valid; [exact Hit|]. destruct l as [|e l].
  { rewrite bool_decide_eq_false_2 by (intros E; by apply E). apply wp_ret.
    specialize (HQ σ k v Hr Hk Hv (proj2 (proj2 (proj2 (proj1 Hit))))). unfold blen in HQ. simpl in HQ.
    rewrite Z.add_0_r, Z.min_l in HQ by lia. exact HQ. }
  apply Forall_cons in Hl as [[Hlk Hlv] Hl].
  assert (blen (e :: l) = 1 + blen l) as El by (unfold blen; simpl; lia). pose proof (blen_nonneg l).
  rewrite bool_decide_eq_true_2 by done.
  apply wp_bind. eapply wp_Key; [exact Hit|]. intros gk Hgk. set (σ1 := on_gheap _ σ).
  assert (data_step σ σ1) as Hs1 by by apply data_step_new.
  eapply store_rep_step in Hr; [|exact Hs1]. eapply iter_before_step in Hit; [|exact Hs1].
  eapply buf_at_step in Hk; [|exact Hs1]. eapply buf_at_step in Hv; [|exact Hs1].
  assert (gheap σ1 !! gk = Some (entry_slice lc gen false e.1)) as Hgk1 by apply lookup_insert_eq.
  clearbody σ1.
  eapply (wp_copy_entry σ1 s h sp a p lc it gen m e l false); [done..|].
  intros k1 σ2 Hs2 Hk1 _. eapply store_rep_step in Hr; [|exact Hs2].
  eapply iter_before_step in Hit; [|exact Hs2]. eapply buf_at_step in Hv; [|exact Hs2].
  apply wp_bind. eapply wp_Value; [exact Hit|]. intros gv Hgv. set (σ3 := on_gheap _ σ2).
  assert (data_step σ2 σ3) as Hs3 by by apply data_step_new.
  eapply store_rep_step in Hr; [|exact Hs3]. eapply iter_before_step in Hit; [|exact Hs3].
  eapply buf_at_step in Hk1; [|exact Hs3]. eapply buf_at_step in Hv; [|exact Hs3].
  assert (gheap σ3 !! gv = Some (entry_slice lc gen true e.2)) as Hgv1 by apply lookup_insert_eq.
  clearbody σ3.
  eapply (wp_copy_entry σ3 s h sp a p lc it gen m e l true); [done..|].
  intros v1 σ4 Hs4 Hv1 _. eapply store_rep_step in Hr; [|exact Hs4].
  eapply iter_before_step in Hit; [|exact Hs4]. eapply buf_at_step in Hk1; [|exact Hs4].
  assert (wrap_s 64 (n + 1) = n + 1) as ->.
  { unfold wrap_s, Mi in *. change (64 - 1) with 63. rewrite Z.mod_small; lia. }
  rewrite <-marks_next by lia.
  destruct (Z.leb_spec (2 * Mi) (n + 1)) as [Hstop|Hgo].
  - apply wp_ret. specialize (HQ σ4 k1 v1 Hr Hk1 Hv1 (proj2 (proj2 (proj2 (proj1 Hit))))).
    rewrite Z.min_r in HQ by lia. by replace (n + 1) with (2 * Mi) in * by lia.
  - apply wp_bind. eapply wp_Next; [exact Hr|exact Hit|]. intros σ5 Hr5 Hit5 Ec5 Eg5.
    assert (∀ d, buf_at σ4 d → buf_at σ5 d) as Hbuf
      by (intros d (l' & n' & a' & -> & Hl'); exists l', n', a'; by rewrite Eg5).
    eapply IH; [exact Hr5|exact Hit5|by apply Hbuf|by apply Hbuf|exact Hl|simpl in Hf; lia|lia|].
    intros σ6 k6 v6 Hr6 Hk6 Hv6 Hli. specialize (HQ σ6 k6 v6 Hr6 Hk6 Hv6 Hli). by replace (n + 1 + blen l) with (n + blen (e :: l)) by lia.
Qed.

(** One round, after which its iterator is live. *)
Lemma wp_iterate_round fuel σ s h sp a k v (Q : Z * bytes * (goslice * goslice) → st → Prop) :
  store_open rw σ s h sp a → buf_at σ k → buf_at σ v →
  map_Forall (λ key _, len_ok key) (kv_live a) → (size (kv_live a) < fuel)%nat →
  (∀ σ' k' v' it, let total := Z.min (Z.of_nat (size (kv_live a))) (2 * Mi) in
     store_open rw σ' s h sp a → buf_at σ' k' → buf_at σ' v' → iterates (world σ') it h →
     Q (total, marks total, (k', v')) σ') →
  wp (iterate_round fuel s k v) σ Q.
Proof.
  intros Hr Hk Hv Hkeys Hfuel HQ. unfold iterate_round. apply wp_bind.
  eapply wp_Store_NewIterator; [exact Hr|]. intros p lc it σ1 Hr1 Hit1 Hg1 _.
  apply wp_bind. eapply wp_SeekToFirst; [exact Hr1|exact Hit1|].
  intros l σ2 Hscan Hr2 Hit2 _ Eg2. pose proof (is_scan_length _ _ Hscan) as Hlen.
  assert (∀ d, buf_at σ d → buf_at σ2 d) as Hbuf.
  { intros d (l' & n' & a' & -> & Hl'). exists l', n', a'. split; [done|]. rewrite Eg2.
    destruct Hg1. by eapply lookup_weaken. }
  pose proof (kv_ok_live _ (sr_ok _ _ _ _ _ _ Hr)) as Hvals.
  change (@nil byte) with (marks 0). eapply wp_iterate_loop; [exact Hr2|exact Hit2|by apply Hbuf|by apply Hbuf| | |unfold Mi; lia|].
  - apply Forall_forall. intros [key val] Hin. destruct Hscan as [Hp _]. rewrite Hp in Hin.
    apply elem_of_map_to_list in Hin. split; [by eapply Hkeys|by eapply Hvals].
  - unfold blen in Hlen. lia.
  - intros σ' k' v' total. unfold total. rewrite Z.add_0_l, Hlen. apply HQ.
Qed.

(** All rounds. *)
Lemma wp_iterate_rounds fuel n σ s h sp a k v (Q : list (Z * bytes) → st → Prop) :
  store_open rw σ s h sp a → buf_at σ k → buf_at σ v →
  map_Forall (λ key _, len_ok key) (kv_live a) → (size (kv_live a) < fuel)%nat →
  (∀ σ', let total := Z.min (Z.of_nat (size (kv_live a))) (2 * Mi) in
     store_open rw σ' s h sp a → ((0 < n)%nat → ∃ it, iterates (world σ') it h) →
     Q (replicate n (total, marks total)) σ') →
  wp (iterate_rounds fuel s n k v) σ Q.
Proof.
  cbn zeta. revert σ k v Q. induction n as [|n IH]; intros σ k v Q Hr Hk Hv Hkeys Hfuel HQ.
  { apply wp_ret, HQ; [exact Hr|lia]. }
  cbn [iterate_rounds]. apply wp_bind. eapply wp_iterate_round; [done..|].
  intros σ1 k1 v1 it total Hr1 Hk1 Hv1 Hli. unfold total. cbn [replicate] in HQ. destruct n as [|n].
  - apply wp_bind, wp_ret, wp_ret. apply HQ; [exact Hr1|]. intros _. by exists it.
  - apply wp_bind. apply IH; [done..|]. intros σ2 Hr2 Hli2. apply wp_ret.
    apply HQ; [exact Hr2|]. intros _. apply Hli2. lia.
Qed.

(** One round of the iteration benchmark counts every entry of the store, up to
    two million, and prints the marks of that count: a pass for each entry and one more is enough fuel, no read of a key
    or value is stale, and the buffers grow to whatever the entries need. *)
Theorem iterate_rocks_counts fuel σ s h sp a k v :
  store_open rw σ s h sp a → buf_at σ k → buf_at σ v →
  map_Forall (λ key _, len_ok key) (kv_live a) → (size (kv_live a) < fuel)%nat →
  wp (iterate_rocks fuel s k v) σ (λ '(count, out) σ',
    count = Z.min (Z.of_nat (size (kv_live a))) (2 * Mi) ∧ out = marks count ∧
    store_open rw σ' s h sp a).
Proof.
  intros Hr Hk Hv Hkeys Hfuel. unfold iterate_rocks. apply wp_bind.
  eapply wp_iterate_round; [done..|]. intros σ' k' v' it total Hr' _ _ _. by apply wp_ret.
Qed.
End iterating.

(** ** Witnesses *)

#[local] Existing Instance amd64.

Definition demo_db : gmap bytes bytes :=
  {[bs "vsz=00004-k=0000000007" := bs "vvvv"; bs "vsz=00004-k=0000000008" := []]}.

Lemma demo_key_space : key_space demo_flags = 1000000.
Proof. vm_compute. reflexivity. Qed.

Lemma demo_hits : sum_by (λ r, hit demo_db (bench_key demo_flags r)) [7; 8; 9] = 1.
Proof. vm_compute. reflexivity. Qed.

Lemma demo_db_ok : map_ok demo_db.
Proof. apply map_Forall_insert_2; [done|]. by apply map_Forall_singleton. Qed.

Lemma demo_readable : readable (sigma_db demo_db) (PG 4) 1%positive demo_db.
Proof.
  exists (mkStore (PG 1) Nil Nil (PG 2) (PG 3)), new_ReadOptions.
  split_and!; [done|by eexists|by eexists|done|by eexists|done].
Qed.

Lemma read_random_rocks_counts_witness :
  wp (read_random_rocks demo_flags (PG 4) [7; 8; 9] hitCounter_Reset) (sigma_db demo_db)
    (λ c' σ', c' = HitCounter 1 2 0 ∧
      Z.of_nat (size (cheap (sigma_db demo_db))) + 1 ≤ Z.of_nat (size (cheap σ'))).
Proof.
  eapply wp_mono.
  - apply (read_random_rocks_counts demo_flags) with (h := 1%positive) (m := demo_db).
    + by rewrite demo_key_space.
    + done.
    + exact demo_readable.
    + exact demo_db_ok.
    + repeat constructor; lia.
    + done.
    + done.
    + done.
  - cbn beta. rewrite demo_hits. intros c' σ' (-> & Hle & _). by split.
Defined.

Lemma updates_add_up_witness :
  let cs := [HitCounter 3 1 0; HitCounter 2 0 4] in
  let l := [AddFound 3; AddNotFound 1; AddFound 2; AddErrored 0; AddNotFound 0; AddErrored 4] in
  let h := foldl apply_add hitCounter_Reset l in
  h = HitCounter (sum_by found cs) (sum_by notFound cs) (sum_by errored cs) ∧
  total_keys h = sum_by (λ c, found c + notFound c + errored c) cs.
Proof.
  apply (updates_add_up [HitCounter 3 1 0; HitCounter 2 0 4]
    [AddFound 3; AddNotFound 1; AddFound 2; AddErrored 0; AddNotFound 0; AddErrored 4]).
  - repeat constructor; cbn; lia.
  - done.
  - apply perm_skip, perm_skip, perm_swap.
Defined.

(** Two entries and two buffers that are too small. *)
Definition sigma_bufs : st :=
  on_gheap (λ g, list_to_map [(21%positive, GBytes (bs "k")); (22%positive, GBytes [])] ∪ g)
    (sigma_db demo_db).

Lemma iterate_rocks_counts_witness :
  wp (iterate_rocks 5 (PG 4) (Sl (PG 21) 1 1) (Sl (PG 22) 0 0)) sigma_bufs (λ '(count, out) σ',
    count = 2 ∧ out = [] ∧ store_rep σ' (PG 4) 1 [] (KV demo_db None [])).
Proof.
  eapply wp_mono; [apply (iterate_rocks_counts (rw := true) 5 sigma_bufs (PG 4) 1%positive [] (KV demo_db None []))|].
  - split; [done|done|done| |].
    + split; [|done|done]. apply map_Forall_insert_2; [done|]. by apply map_Forall_singleton.
    + exists (mkStore (PG 1) Nil Nil (PG 2) (PG 3)), new_ReadOptions, new_WriteOptions.
      split; [done|by eexists|by eexists|by eexists|done|constructor].
  - by exists 21%positive, 1, (bs "k").
  - by exists 22%positive, 0, [].
  - apply map_Forall_insert_2; [done|]. by apply map_Forall_singleton.
  - apply (bool_decide_unpack _). by vm_compute.
  - intros [count out] σ' (-> & -> & Hr). split; [by vm_compute|]. by split; [vm_compute|].
Defined.
