(* ===== verification/ParRead.v ===== *)
(** * The random reads in parallel: runRandomReadBenchmark of bench_test.go

    [b.RunParallel] runs the reads in several goroutines, which share the store, the
    memory and the iterations of the benchmark, and which add their hits to one counter
    when they end.  A step is one call a goroutine makes ([pb.Next], [newKey],
    [Store.Get], [Slice.Size]) or one atomic addition.  [Bench.read_random_rocks] is the
    same loop in one goroutine; [parallel_reads_sequential] relates the two.

    Package testing runs the function for several values of [b.N]; the counter is reset
    each time, and this is one of the runs.  The [b.N] iterations are shared out by
    [pb.Next]: a goroutine takes some of those that are left, as many as the step says,
    and comes back when it has used them; when none are left it ends, though others may
    still have some. *)

From S2P Require Import Prelude Rocks MemRocks Memory Rdbc Rdb RdbSpec Strconv Store StoreSpec Float64 Populate PopulateSpec Scenario Bench.
From stdpp Require Import relations.
#[local] Open Scope Z_scope.

(** Where a goroutine is: at [pb.Next()], at [newKey()], at [rdb.Get(key)], at
    [rdb_slice.Size()], or in [counter.Update(c)], with the additions it has left.  [c]
    is its own counter; [r] is the random number of its key. *)
Variant rphase :=
| RNext (c : hitCounter)
| RKey (c : hitCounter)
| RGet (r : Z) (key : goslice) (c : hitCounter)
| RSize (r : Z) (rdb_slice : ptr) (c : hitCounter)
| RUpdate (adds : list atomic_add)
| RDone.

#[export] Instance rdone_decision p : Decision (p = RDone).
Proof. destruct p; first [by left|by right]. Defined.

(** A goroutine: the iterations it has taken and not begun, and where it is. *)
Record rgor := RGor { rg_pb : nat; rg_phase : rphase }.

Section state.
Context `{RocksDB}.

(** [r_left]: the iterations not handed out yet; [r_log]: the random numbers drawn. *)
Record rstate := RState {
  r_mem : st;
  r_gs : list rgor;
  r_left : nat;
  r_counter : hitCounter;
  r_log : list Z;
  r_crash : option fault;
}.
End state.

(** The random number a step draws. *)
Definition drawn_by (p : rphase) (r : Z) : list Z := match p with RKey _ => [r] | _ => [] end.

Section steps.
Context `{RocksDB, Libc, Arch}.
Context (fl : flags) (rdb : ptr).

(** [pb.Next()] of a goroutine that has [pb] iterations: what it has then, and what is
    left to the others; [None] when there are no more. *)
Definition pb_Next (grain pb todo : nat) : option (nat * nat) :=
  match pb with
  | S pb => Some (pb, todo)
  | O =>
      match Nat.min (S grain) todo with
      | O => None
      | S pb => Some (pb, todo - S pb)%nat
      end
  end.

(** The step of a goroutine: from its phase [p], with [pb] iterations of its own. *)
Definition rphase_next (r : Z) (pb : nat) (p : rphase) (todo : nat) (h : hitCounter) (grain : nat) :
    M st (nat * rphase * nat * hitCounter) :=
  let same p := (pb, p, todo, h) in
  match p with
  | RNext c =>
      mret match pb_Next grain pb todo with
           | None => (pb, RUpdate (hitCounter_Update c), todo, h)
           | Some (pb, todo) => (pb, RKey c, todo, h)
           end
  | RKey c => key ← newKey fl r; mret (same (RGet r key c))
  | RGet r key c =>
      '(rdb_slice, err) ← Store_Get rdb key;
      mret (same match err with
                 | Some _ => RNext (HitCounter (found c) (notFound c) (wrap_u 64 (errored c + 1)))
                 | None => RSize r rdb_slice c
                 end)
  | RSize _ rdb_slice c =>
      n ← Slice_Size rdb_slice;
      mret (same (RNext (if 0 <? n
                         then HitCounter (wrap_u 64 (found c + 1)) (notFound c) (errored c)
                         else HitCounter (found c) (wrap_u 64 (notFound c + 1)) (errored c))))
  | RUpdate (a :: adds) => mret (pb, RUpdate adds, todo, apply_add h a)
  | RUpdate [] => mret (same RDone)
  | RDone => mret (same RDone)
  end.

Definition rnext (r : Z) (grain : nat) (p : rgor) (todo : nat) (h : hitCounter) :
    M st (rgor * nat * hitCounter) :=
  '(pb, p, todo, h) ← rphase_next r (rg_pb p) (rg_phase p) todo h grain;
  mret (RGor pb p, todo, h).

Inductive rstep : rstate → rstate → Prop :=
| rstep_go σ gs todo h log i p r grain p' todo' h' σ' :
    gs !! i = Some p → rg_phase p ≠ RDone → 0 ≤ r < 2 ^ 63 →
    rnext r grain p todo h σ = Ret (p', todo', h') σ' →
    rstep (RState σ gs todo h log None)
      (RState σ' (<[i := p']> gs) todo' h' (log ++ drawn_by (rg_phase p) r) None)
| rstep_crash σ gs todo h log i p r grain e :
    gs !! i = Some p → rg_phase p ≠ RDone → 0 ≤ r < 2 ^ 63 →
    rnext r grain p todo h σ = Fault e →
    rstep (RState σ gs todo h log None) (RState σ gs todo h log (Some e)).

(** After [counter.Reset()]: [n] iterations and [procs] goroutines. *)
Definition rinit (σ : st) (n procs : nat) : rstate :=
  RState σ (replicate procs (RGor 0 (RNext (HitCounter 0 0 0)))) n hitCounter_Reset [] None.
End steps.

(** ** One step *)

Section spec.
Context `{RocksLaws, Libc, Arch}.
Context (fl : flags) (s : ptr) (h : handle) (m : gmap bytes bytes).
Context (Hks : key_space fl ≠ 0) (Hvs : Z.abs (valueSize fl) < 2 ^ 63) (Hm : map_ok m).

Abbreviation key r := (bench_key fl r).

(** The hits and the misses a goroutine has not added to the shared counter yet, a get
    that is under way counting as what it will find. *)
Definition own_found (p : rgor) : Z :=
  match rg_phase p with
  | RNext c | RKey c => found c
  | RGet r _ c | RSize r _ c => found c + hit m (key r)
  | RUpdate adds => sum_by to_found adds
  | RDone => 0
  end.

Definition own_notFound (p : rgor) : Z :=
  match rg_phase p with
  | RNext c | RKey c => notFound c
  | RGet r _ c | RSize r _ c => notFound c + (1 - hit m (key r))
  | RUpdate adds => sum_by to_notFound adds
  | RDone => 0
  end.

(** The iterations of a goroutine for which it has not drawn a number. *)
Definition to_draw (p : rgor) : Z :=
  Z.of_nat (rg_pb p) + match rg_phase p with RKey _ => 1 | _ => 0 end.

(** The steps a goroutine has left if it gets no more iterations. *)
Definition own_steps (p : rgor) : Z :=
  4 * Z.of_nat (rg_pb p) +
  match rg_phase p with
  | RNext _ => 5
  | RKey _ => 8
  | RGet _ _ _ => 7
  | RSize _ _ _ => 6
  | RUpdate adds => 1 + blen adds
  | RDone => 0
  end.

Definition counter_ok (c : hitCounter) : Prop := 0 ≤ found c ∧ 0 ≤ notFound c ∧ errored c = 0.

Definition add_ok (a : atomic_add) : Prop :=
  match a with AddFound n | AddNotFound n => 0 ≤ n | AddErrored n => n = 0 end.

Definition rgor_ok (σ : st) (p : rgor) : Prop :=
  match rg_phase p with
  | RNext c | RKey c => counter_ok c
  | RGet r k c => counter_ok c ∧ slice_at σ k (key r)
  | RSize r p c => counter_ok c ∧ sized σ p (from_option blen 0 (m !! key r))
  | RUpdate adds => Forall add_ok adds ∧ rg_pb p = O
  | RDone => rg_pb p = O
  end.

Lemma rgor_ok_grows σ σ' p : grows σ σ' → rgor_ok σ p → rgor_ok σ' p.
Proof.
  intros Hg. destruct p as [pb []]; cbn; try done.
  - intros [? ?]. split; [done|by eapply slice_at_grows].
  - intros [? ?]. split; [done|by eapply sized_grows].
Qed.

Lemma hit_range k : 0 ≤ hit m k ≤ 1.
Proof. unfold hit. destruct (m !! k) as [[]|]; lia. Qed.

Lemma hit_size r : (0 <? from_option blen 0 (m !! key r)) = (0 <? hit m (key r)).
Proof.
  unfold hit. destruct (m !! key r) as [[|b v]|]; [done| |done]. simpl. apply Z.ltb_lt.
  unfold blen. simpl. lia.
Qed.

Lemma sum_adds_nonneg adds :
  Forall add_ok adds → 0 ≤ sum_by to_found adds ∧ 0 ≤ sum_by to_notFound adds.
Proof.
  induction 1 as [|a adds Ha _ [? ?]]; [done|]. rewrite !sum_by_cons.
  destruct a; cbn [to_found to_notFound add_ok] in *; lia.
Qed.

Lemma own_nonneg σ p : rgor_ok σ p → 0 ≤ own_found p ∧ 0 ≤ own_notFound p.
Proof.
  destruct p as [pb [c|c|r k c|r q c|adds|]]; unfold rgor_ok, own_found, own_notFound, counter_ok;
    cbn [rg_pb rg_phase]; intros Hp.
  3,4: pose proof (hit_range (key r)).
  5: by apply sum_adds_nonneg, Hp.
  all: lia.
Qed.

Definition ended (p : rgor) : Prop :=
  match rg_phase p with RUpdate _ | RDone => True | _ => False end.

Definition hits_of (rs : list Z) : Z := sum_by (λ r, hit m (key r)) rs.

(** What a step of a goroutine does to the counts. *)
Record rcounts (p : rgor) (todo : nat) (c : hitCounter) (rs : list Z)
    (p' : rgor) (todo' : nat) (c' : hitCounter) : Prop := {
  rc_found : found c' + own_found p' = found c + own_found p + hits_of rs;
  rc_notFound : notFound c' + own_notFound p' =
    notFound c + own_notFound p + (blen rs - hits_of rs);
  rc_ok : counter_ok c → counter_ok c';
  rc_draw : to_draw p' + Z.of_nat todo' + blen rs = to_draw p + Z.of_nat todo;
  rc_steps : 4 * Z.of_nat todo' + own_steps p' = 4 * Z.of_nat todo + own_steps p - 1;
  rc_left : (todo' ≤ todo)%nat;
  rc_ended : (ended p → todo = O) → ended p' → todo' = O;
}.

(** A counter below 2^64. *)
Lemma wrap_count z : 0 ≤ z < 2 ^ 64 → wrap_u 64 z = z.
Proof. intros. by apply Z.mod_small. Qed.

Lemma hits_of_single r : hits_of [r] = hit m (key r).
Proof. unfold hits_of. rewrite sum_by_cons. simpl. lia. Qed.

(** What [pb.Next] hands out is what the others lose. *)
Lemma pb_Next_Some grain pb todo pb' todo' :
  pb_Next grain pb todo = Some (pb', todo') →
  (S pb' + todo' = pb + todo ∧ todo' ≤ todo)%nat.
Proof.
  unfold pb_Next. destruct pb; [|intros; simplify_eq; lia].
  destruct (Nat.min (S grain) todo) as [|n] eqn:E; intros; simplify_eq. lia.
Qed.

Lemma pb_Next_None grain pb todo : pb_Next grain pb todo = None → pb = O ∧ todo = O.
Proof.
  unfold pb_Next. destruct pb; [|done]. destruct (Nat.min (S grain) todo) eqn:E; [lia|done].
Qed.

(** Every count of a step, by arithmetic. *)
Ltac counts :=
  split; unfold own_found, own_notFound, to_draw, own_steps, ended, counter_ok in *;
    cbn [rg_pb rg_phase found notFound errored drawn_by hitCounter_Update apply_add] in *;
    rewrite ?hits_of_single, ?sum_by_cons; cbn [to_found to_notFound];
    unfold hits_of, blen; simpl sum_by; simpl length; try lia; try done.

Lemma wp_rnext r grain p todo c σ :
  readable σ s h m → rgor_ok σ p → rg_phase p ≠ RDone → 0 ≤ r < 2 ^ 63 → counter_ok c →
  found c + notFound c + own_found p + own_notFound p < 2 ^ 64 →
  wp (rnext fl s r grain p todo c) σ (λ '(p', todo', c') σ',
    (readable σ' s h m ∧ (quiet (world σ) h → quiet (world σ') h)) ∧ grows σ σ' ∧ rgor_ok σ' p' ∧
    rcounts p todo c (drawn_by (rg_phase p) r) p' todo' c').
Proof.
  intros Hr Hp Hne Hrr Hc Hb. unfold rnext. apply wp_bind.
  destruct p as [pb [c0|c0|r0 k c0|r0 q c0|adds|]]; cbn [rg_pb rg_phase rphase_next].
  - apply wp_ret. destruct (pb_Next grain pb todo) as [[pb' todo']|] eqn:En; apply wp_ret;
      (split; [done|]); (split; [apply grows_refl|]).
    + apply pb_Next_Some in En as [? ?]. split; [exact Hp|]. counts.
    + apply pb_Next_None in En as [-> ->]. destruct Hp as (Hf & Hn & He).
      split; [split; [repeat constructor; cbn; lia|done]|]. counts.
  - apply wp_bind, wp_newKey; [done..|]. intros k σ1 Hk Hg1 Hc1 Ew1. do 2 apply wp_ret.
    split; [split; [eapply readable_grows; [done..|rewrite Ew1; apply stable_refl]|by rewrite Ew1]|].
    split; [done|]. split; [by split|]. counts.
  - destruct Hp as [Hp Hk]. apply wp_bind.
    eapply wp_Get_sized; [exact Hr|exact Hm|exact Hk|]. intros q σ1 Hr1 Hg1 _ Hsz _ Hqu.
    do 2 apply wp_ret. split; [by split|]. split; [done|]. split; [by split|]. counts.
  - destruct Hp as [(Hf & Hn & He) Hsz]. apply wp_bind. unfold wp at 1.
    rewrite (Slice_Size_sized _ _ _ Hsz), hit_size. do 2 apply wp_ret.
    split; [done|]. split; [apply grows_refl|]. pose proof (hit_range (key r0)) as Hh.
    unfold own_found, own_notFound in Hb. cbn [rg_phase] in Hb. destruct Hc as (Hcf & Hcn & _).
    assert (hit m (key r0) = 0 ∨ hit m (key r0) = 1) as [E|E] by lia;
      rewrite E in *; cbn [Z.ltb Z.compare]; rewrite wrap_count by lia;
      (split; [split_and!; cbn; lia|]); counts.
  - destruct Hp as [Hp Hpb]. cbn [rg_pb] in Hpb. subst pb.
    destruct adds as [|a adds]; do 2 apply wp_ret; (split; [done|]); (split; [apply grows_refl|]).
    + split; [done|]. counts.
    + apply Forall_cons in Hp as [Ha Hp]. split; [by split|]. destruct Hc as (Hcf & Hcn & Hce).
      pose proof (sum_adds_nonneg adds Hp). unfold own_found, own_notFound in Hb.
      cbn [rg_phase] in Hb. rewrite !sum_by_cons in Hb.
      destruct a as [z|z|z]; cbn [apply_add to_found to_notFound add_ok] in *;
        (rewrite wrap_count by lia); counts.
  - done.
Qed.

(** ** All executions *)

(** [undisturbed] is that the database had no live iterator, snapshot or checkpoint. *)
Record rinv (undisturbed : Prop) (n : nat) (g : rstate) : Prop := {
  ri_crash : r_crash g = None;
  ri_quiet : undisturbed → quiet (world (r_mem g)) h;
  ri_mem : readable (r_mem g) s h m;
  ri_gs : Forall (rgor_ok (r_mem g)) (r_gs g);
  ri_counter : counter_ok (r_counter g);
  ri_found : found (r_counter g) + sumZ (own_found <$> r_gs g) = hits_of (r_log g);
  ri_notFound :
    notFound (r_counter g) + sumZ (own_notFound <$> r_gs g) = blen (r_log g) - hits_of (r_log g);
  ri_draw : sumZ (to_draw <$> r_gs g) + Z.of_nat (r_left g) + blen (r_log g) = Z.of_nat n;
  ri_log : Forall (λ r, 0 ≤ r < 2 ^ 63) (r_log g);
  ri_some : (0 < length (r_gs g))%nat;
  ri_ended : Forall (λ p, ended p → r_left g = O) (r_gs g);
}.

(** The steps that are left, in all. *)
Definition rsteps (g : rstate) : Z :=
  4 * Z.of_nat (r_left g) + sumZ (own_steps <$> r_gs g).

Lemma own_steps_nonneg p : 0 ≤ own_steps p.
Proof.
  destruct p as [pb []]; unfold own_steps; cbn [rg_pb rg_phase]; try lia.
  pose proof (blen_nonneg adds). lia.
Qed.

Lemma to_draw_nonneg gs : 0 ≤ sumZ (to_draw <$> gs).
Proof. apply sum_fmap_nonneg, Forall_forall. intros [pb []] _; unfold to_draw; cbn [rg_pb rg_phase]; lia. Qed.

(** The part of one goroutine in a sum. *)
Lemma sum_fmap_elem {A} (f : A → Z) l i x :
  l !! i = Some x → Forall (λ x, 0 ≤ f x) l → f x ≤ sumZ (f <$> l).
Proof.
  intros Hx Hl. revert i Hx. induction Hl as [|y l Hy Hl IH]; intros [|i] Hx; simplify_eq/=.
  - pose proof (sum_fmap_nonneg f l Hl). unfold fmap in *. lia.
  - specialize (IH i Hx). unfold fmap in *. lia.
Qed.

Lemma rinv_bound u n g i p :
  Z.of_nat n < 2 ^ 64 → rinv u n g → r_gs g !! i = Some p →
  found (r_counter g) + notFound (r_counter g) + own_found p + own_notFound p < 2 ^ 64.
Proof.
  intros Hn Hi Hp. destruct Hi as [_ _ _ Hgs _ Hf Hnf Hd _ _ _].
  pose proof (to_draw_nonneg (r_gs g)).
  assert (Forall (λ p, 0 ≤ own_found p) (r_gs g) ∧ Forall (λ p, 0 ≤ own_notFound p) (r_gs g))
    as [Hof Hon] by (split; (eapply Forall_impl; [exact Hgs|]); intros; by eapply own_nonneg).
  pose proof (sum_fmap_elem _ _ _ _ Hp Hof). pose proof (sum_fmap_elem _ _ _ _ Hp Hon). lia.
Qed.

Lemma rinv_step u n g g' :
  Z.of_nat n < 2 ^ 64 → rinv u n g → rstep fl s g g' → rinv u n g' ∧ rsteps g' = rsteps g - 1.
Proof.
  intros Hn Hi Hstep.
  destruct Hstep as [σ gs todo c log i p r grain p' todo' c' σ' Hp Hne Hr E
                    |σ gs todo c log i p r grain e Hp Hne Hr E];
    pose proof (rinv_bound u n _ i p Hn Hi Hp) as Hb;
    destruct Hi as [_ Hqu Hmem Hgs Hc Hf Hnf Hd Hl Hlen He];
    cbn [r_mem r_gs r_left r_counter r_log r_crash] in *;
    pose proof (Forall_lookup_1 _ _ _ _ Hgs Hp) as Hok;
    pose proof (wp_rnext r grain p todo c σ Hmem Hok Hne Hr Hc Hb) as Hwp; unfold wp in Hwp;
    rewrite E in Hwp; [|done].
  destruct Hwp as ((Hmem' & Hqu') & Hg & Hok' & [Rf Rn Rc Rd Rs Rl Re]).
  assert (hits_of (log ++ drawn_by (rg_phase p) r) = hits_of log + hits_of (drawn_by (rg_phase p) r)) as Eh
    by apply sum_by_app.
  assert (blen (log ++ drawn_by (rg_phase p) r) = blen log + blen (drawn_by (rg_phase p) r)) as El
    by (unfold blen; rewrite length_app; lia).
  split.
  - split; cbn [r_mem r_gs r_left r_counter r_log r_crash].
    + done.
    + intros Hu. by apply Hqu', Hqu.
    + exact Hmem'.
    + apply Forall_insert; [|exact Hok']. eapply Forall_impl; [exact Hgs|].
      intros q. by apply rgor_ok_grows.
    + by apply Rc.
    + rewrite (sum_fmap_insert _ _ _ p) by done. lia.
    + rewrite (sum_fmap_insert _ _ _ p) by done. lia.
    + rewrite (sum_fmap_insert _ _ _ p) by done. lia.
    + apply Forall_app. split; [exact Hl|]. destruct (rg_phase p); [constructor|by apply Forall_singleton|constructor..].
    + by rewrite length_insert.
    + apply Forall_insert.
      * eapply Forall_impl; [exact He|]. intros q Hq Hqe. specialize (Hq Hqe). lia.
      * apply Re. by eapply (Forall_lookup_1 _ _ _ _ He).
  - unfold rsteps. cbn [r_mem r_gs r_left r_counter r_log r_crash]. rewrite (sum_fmap_insert _ _ _ p) by done. lia.
Qed.

Lemma rinv_init n procs σ :
  readable σ s h m → (0 < procs)%nat → rinv (quiet (world σ) h) n (rinit σ n procs).
Proof.
  intros Hr Hprocs. assert (∀ f, f (RGor 0 (RNext (HitCounter 0 0 0))) = 0 →
    sumZ (f <$> replicate procs (RGor 0 (RNext (HitCounter 0 0 0)))) = 0) as Hz.
  { intros f Hf. apply sum_fmap_zero, Forall_replicate, Hf. }
  split; cbn -[replicate]; try done; try (rewrite Hz by done; unfold blen, hits_of; simpl; lia).
  - by apply Forall_replicate.
  - by rewrite length_replicate.
  - by apply Forall_replicate.
Qed.

Lemma rinv_nsteps u n k g g' :
  Z.of_nat n < 2 ^ 64 → rinv u n g → nsteps (rstep fl s) k g g' →
  rinv u n g' ∧ rsteps g' = rsteps g - Z.of_nat k.
Proof.
  intros Hn Hi Hk. revert Hi. induction Hk as [g|k g1 g2 g3 H12 _ IH]; intros Hi.
  - split; [done|lia].
  - destruct (rinv_step u n g1 g2 Hn Hi H12) as [Hi2 E2]. destruct (IH Hi2). split; [done|lia].
Qed.

(** A goroutine that has not ended can make a step. *)
Lemma rinv_progress g i p :
  r_crash g = None → r_gs g !! i = Some p → rg_phase p ≠ RDone → ∃ g', rstep fl s g g'.
Proof.
  intros Hc Hp Hne. destruct g as [σ gs todo c log cr]. cbn in *. subst cr.
  destruct (rnext fl s 0 0 p todo c σ) as [[[p' todo'] c'] σ'|e] eqn:E.
  - eexists. by eapply rstep_go.
  - eexists. by eapply rstep_crash.
Qed.

Definition all_done (g : rstate) : Prop := Forall (λ p, rg_phase p = RDone) (r_gs g).

(** When all goroutines have ended. *)
Lemma rinv_done u n g :
  rinv u n g → all_done g →
  r_left g = O ∧ rsteps g = 0 ∧ length (r_log g) = n ∧
  r_counter g = HitCounter (hits_of (r_log g)) (Z.of_nat n - hits_of (r_log g)) 0.
Proof.
  intros Hi Hd. destruct Hi as [_ _ _ Hgs (_ & _ & He) Hf Hnf Hdr _ Hlen Hend].
  assert (Forall (λ p, p = RGor 0 RDone) (r_gs g)) as Hd0.
  { apply Forall_forall. intros [pb p] Hin. unfold all_done in Hd. rewrite !Forall_forall in Hd, Hgs.
    specialize (Hd _ Hin). specialize (Hgs _ Hin). cbn in Hd. subst p. cbn in Hgs. by subst pb. }
  assert (∀ f : rgor → Z, f (RGor 0 RDone) = 0 → sumZ (f <$> r_gs g) = 0) as Hz.
  { intros f Hf0. apply sum_fmap_zero. eapply Forall_impl; [exact Hd0|]. by intros p ->. }
  unfold rsteps. rewrite Hz in * by done.
  assert (r_left g = O) as El.
  { destruct (r_gs g) as [|p gs]; [simpl in Hlen; lia|].
    apply Forall_cons in Hend as [Hend _]. apply Forall_cons in Hd0 as [-> _]. by apply Hend. }
  rewrite El in *. unfold blen in *. split; [done|]. split; [lia|]. split; [lia|].
  destruct (r_counter g) as [a b e]. cbn in *. f_equal; lia.
Qed.

Lemma hits_of_range rs : 0 ≤ hits_of rs ≤ blen rs.
Proof.
  induction rs as [|r rs IH]; [done|]. unfold hits_of, blen in *. rewrite sum_by_cons. simpl length.
  pose proof (hit_range (key r)). lia.
Qed.

#[export] Instance all_done_decision g : Decision (all_done g).
Proof. unfold all_done. apply _. Defined.

(** Any execution, from a state whose reads see [m]. *)
Lemma parallel_run n procs σ k g :
  readable σ s h m → Z.of_nat n < 2 ^ 64 → (0 < procs)%nat →
  nsteps (rstep fl s) k (rinit σ n procs) g →
  r_crash g = None ∧ Z.of_nat k ≤ 4 * Z.of_nat n + 5 * Z.of_nat procs ∧
  (¬ all_done g → ∃ g', rstep fl s g g') ∧
  Forall (λ r, 0 ≤ r < 2 ^ 63) (r_log g) ∧
  (quiet (world σ) h → quiet (world (r_mem g)) h) ∧ readable (r_mem g) s h m ∧
  (all_done g → length (r_log g) = n ∧
     r_counter g = HitCounter (hits_of (r_log g)) (Z.of_nat n - hits_of (r_log g)) 0).
Proof.
  intros Hr Hn Hprocs Hk. pose proof (rinv_init n procs σ Hr Hprocs) as Hi0.
  destruct (rinv_nsteps _ n k _ _ Hn Hi0 Hk) as [Hi Es].
  assert (rsteps (rinit σ n procs) = 4 * Z.of_nat n + 5 * Z.of_nat procs) as E0.
  { unfold rsteps, rinit. cbn [r_left r_gs]. clear. induction procs as [|procs IH].
    - cbn. lia.
    - cbn [replicate]. rewrite fmap_cons, sumZ_cons. unfold own_steps at 1. cbn [rg_pb rg_phase]. lia. }
  assert (0 ≤ sumZ (own_steps <$> r_gs g)) as Hpos
    by (apply sum_fmap_nonneg, Forall_forall; intros p _; apply own_steps_nonneg).
  split_and!; [apply Hi|unfold rsteps in Es at 1; lia| |apply Hi|apply Hi|apply Hi|].
  - intros Hd. assert (Exists (λ p, rg_phase p ≠ RDone) (r_gs g)) as Hex.
    { apply not_Forall_Exists; [intros p; apply _|exact Hd]. }
    apply Exists_exists in Hex as (p & [i Hp]%list_elem_of_lookup & Hne).
    eapply rinv_progress; [apply Hi|exact Hp|exact Hne].
  - intros Hd. by destruct (rinv_done _ n g Hi Hd) as (_ & _ & ? & ?).
Qed.

(** There is an execution to the end. *)
Lemma parallel_run_ends n procs σ :
  readable σ s h m → Z.of_nat n < 2 ^ 64 → (0 < procs)%nat →
  ∃ g, rtc (rstep fl s) (rinit σ n procs) g ∧ all_done g.
Proof.
  intros Hr Hn Hprocs.
  apply (run_to_end _ all_done (4 * Z.of_nat n + 5 * Z.of_nat procs)).
  intros k g Hk. by destruct (parallel_run n procs σ k g Hr Hn Hprocs Hk) as (_ & ? & ? & _).
Qed.

(** C8: the random reads of rocks, in parallel: however the goroutines interleave, an
    execution makes at most four steps for each iteration and five for each goroutine,
    none faults, and it goes on until all goroutines have ended; it has then made [b.N]
    reads, the shared counter, and what [Print] logs of it, is exact, and it is what one
    goroutine counts that reads the same keys one after the other, in any order. *)
Theorem parallel_reads_sequential n procs σ k g :
  readable σ s h m → Z.of_nat n < 2 ^ 64 → (0 < procs)%nat →
  nsteps (rstep fl s) k (rinit σ n procs) g →
  let hits := sum_by (λ r, hit m (key r)) (r_log g) in
  r_crash g = None ∧ Z.of_nat k ≤ 4 * Z.of_nat n + 5 * Z.of_nat procs ∧
  (¬ all_done g → ∃ g', rstep fl s g g') ∧
  (all_done g →
     length (r_log g) = n ∧
     (∀ name, hitCounter_Print name (r_counter g) =
        [name ++ bs ": " ++ itoa hits ++ bs " keys had valid values.";
         name ++ bs ": " ++ itoa (Z.of_nat n - hits) ++ bs " keys had no values";
         name ++ bs ": 0 keys had errors";
         name ++ bs ": " ++ itoa (Z.of_nat n) ++ bs " total keys looked at";
         name ++ bs ": hit rate : " ++
           fmt_2f 0 (f64_div (f64_of_Z hits) (f64_of_Z (Z.of_nat n)))]) ∧
     ∀ rs, rs ≡ₚ r_log g →
       wp (read_random_rocks fl s rs hitCounter_Reset) σ (λ c _, c = r_counter g)).
Proof.
  intros Hr Hn Hprocs Hk. cbn zeta. fold (hits_of (r_log g)).
  destruct (parallel_run n procs σ k g Hr Hn Hprocs Hk) as (? & ? & ? & Hlog & _ & _ & Hend).
  split_and!; [done..|]. intros Hd. destruct (Hend Hd) as [El Ec].
  pose proof (hits_of_range (r_log g)) as Hh. unfold blen in Hh. rewrite Ec.
  split; [done|]. split.
  - intros name. unfold hitCounter_Print, total_keys. cbn [found notFound errored].
    rewrite wrap_u_add, wrap_count by lia. by replace (_ + _ + 0) with (Z.of_nat n) by lia.
  - intros rs Hp. pose proof (Permutation_length Hp) as Elen.
    eapply wp_mono; [apply (read_random_rocks_counts fl Hks Hvs σ s h m rs hitCounter_Reset)|];
      [exact Hr|exact Hm|by rewrite Hp|done|done|cbn; unfold blen; lia|].
    intros c _ [-> _]. unfold blen. cbn [found notFound errored hitCounter_Reset].
    rewrite (sum_by_perm _ _ _ Hp). unfold hits_of. f_equal; lia.
Qed.
End spec.

(** ** Three reads by two goroutines *)

#[local] Existing Instance amd64.

Lemma parallel_reads_sequential_witness :
  ∃ k g, nsteps (rstep demo_flags (PG 4)) k (rinit (sigma_db demo_db) 3 2) g ∧ all_done g ∧
    Z.of_nat k ≤ 22 ∧ length (r_log g) = 3%nat ∧
    wp (read_random_rocks demo_flags (PG 4) (reverse (r_log g)) hitCounter_Reset)
      (sigma_db demo_db) (λ c _, c = r_counter g).
Proof.
  assert (key_space demo_flags ≠ 0) as Hks by (rewrite demo_key_space; done).
  destruct (parallel_run_ends demo_flags (PG 4) 1%positive demo_db Hks ltac:(done) demo_db_ok 3 2
    (sigma_db demo_db) demo_readable ltac:(done) ltac:(lia)) as (g & [k Hk]%rtc_nsteps & Hd).
  destruct (parallel_reads_sequential demo_flags (PG 4) 1%positive demo_db Hks ltac:(done) demo_db_ok 3 2
    (sigma_db demo_db) k g demo_readable ltac:(done) ltac:(lia) Hk) as (_ & Hle & _ & Hend).
  destruct (Hend Hd) as (El & _ & Hseq).
  exists k, g. split_and!; [done|done|lia|done|]. apply Hseq, reverse_Permutation.
Defined.
