(* ===== verification/ReadBack.v ===== *)
(** * Reading what populate has written

    The composition of populate/main.go with bench_test.go: after a run of [populate
    -kv rocksdb], in whatever way its goroutines interleaved, a later process opens the
    store for reading only, as [getRocks] does, and gets, counts and iterates what the
    batches of the run have put.  All that the two processes share is the file
    system, which is part of the world of the engine. *)

From S2P Require Import Prelude Rocks MemRocks Memory Files Rdbc Rdb RdbSpec Strconv Store StoreSpec StoreOpen IterSpec CheckpointSpec Float64 Populate PopulateMain KeyFormat PopulateSpec PopulateOpen Workers PopulateRun PopulateRunSpec Bench ParRead Scenario.
From stdpp Require Import relations.
#[local] Open Scope Z_scope.

Section readback.
Context `{RocksLaws, Libc, Arch, !OS, !OSLaws, !Stores, !Openers}.
Context (fl : flags) (n : Z) (dir : bytes).

Abbreviation goal := (share (f64_mul (numKeys fl) mil)).

(** A state in which a run of [populate -kv rocksdb] from [σ] has closed its store. *)
Definition populate_ends_in (σ : st) (r : gstate) : Prop :=
  ∃ s σ1, open_stores (bs "rocksdb") dir σ = Ret (only_rocks lmdb_zeroDBI s) σ1 ∧
    rtc (gstep fl goal lmdb_zeroDBI s) (ginit σ1) r ∧ gs_main r = GClosed.

(** There is one. *)
Lemma populate_can_end σ : run_ok fl n dir σ → ∃ r, populate_ends_in σ r.
Proof.
  intros Hok. assert (wp (open_stores (bs "rocksdb") dir) σ (λ g σ1, ∃ s,
    g = only_rocks lmdb_zeroDBI s ∧ ∃ r, rtc (gstep fl goal lmdb_zeroDBI s) (ginit σ1) r ∧
      gs_main r = GClosed)) as Hwp.
  { apply (wp_populate_run fl n dir); [done|]. intros s h σ1 base Hrun. exists s. split; [done|].
    eapply (run_to_end _ _ (gsteps goal (ginit σ1) [])). intros k y Hk.
    destruct (Hrun k y Hk) as (crs & _ & Hle & Hnn & Hgo). split; [lia|exact Hgo]. }
  destruct (proj1 (wp_run _ _ _) Hwp) as (g & σ1 & E & s & -> & r & Hr & Hm).
  by exists r, s, σ1.
Qed.

(** What every such state has. *)
Lemma populate_end σ r :
  run_ok fl n dir σ → populate_ends_in σ r →
  faultless (world (gs_mem r)) ∧ Forall draw_ok (gs_log r) ∧
  on_disk (world (gs_mem r)) (dir ++ bs "/rocks") = Closed (written fl (gs_log r)).
Proof.
  intros Hok (s & σ1 & E & [k Hr]%rtc_nsteps & Hm).
  assert (wp (open_stores (bs "rocksdb") dir) σ (λ g σ1, ∀ s r, g = only_rocks lmdb_zeroDBI s →
    nsteps (gstep fl goal lmdb_zeroDBI s) k (ginit σ1) r → gs_main r = GClosed →
    faultless (world (gs_mem r)) ∧ Forall draw_ok (gs_log r) ∧
    on_disk (world (gs_mem r)) (dir ++ bs "/rocks") = Closed (written fl (gs_log r)))) as Hwp.
  { apply (wp_populate_run fl n dir); [done|]. intros s' h σ' base Hrun s2 r2 [= <-] Hr2 Hm2.
    destruct (Hrun _ _ Hr2) as (crs & [_ _ _ Hd Hs] & _). rewrite Hm2 in Hs.
    by destruct Hs as (? & ? & _). }
  unfold wp in Hwp. rewrite E in Hwp. by eapply Hwp.
Qed.

(** ** The contents *)

Lemma draw_key_eq d x :
  run_ok fl n dir x → ∀ r, draw_ok d → 0 ≤ r < 2 ^ 63 →
  draw_key fl d = bench_key fl r ↔ Z.rem (rand_Int d) n = Z.rem r n.
Proof.
  intros [Hk Hn Hv _ _ _] r (Hd & _ & _) Hr. unfold draw_key, bench_key.
  rewrite (key_space_of_Z fl n) by done. split; [|congruence]. intros E.
  pose proof (Z.rem_bound_pos (rand_Int d) n). pose proof (Z.rem_bound_pos r n).
  apply key_of_inj in E; lia.
Qed.

(** The map a run leaves: its keys and values are those of the draws. *)
Lemma written_ok log σ :
  run_ok fl n dir σ → Forall draw_ok log →
  map_ok (written fl log) ∧ map_Forall (λ key _, len_ok key) (written fl log) ∧
  ∀ key v, written fl log !! key = Some v → ∃ d, d ∈ log ∧ draw_key fl d = key ∧ draw_value fl d = v.
Proof.
  intros Hok Hlog. destruct (run_facts fl n dir σ Hok) as (Hks & _). pose proof (ro_value _ _ _ _ Hok) as Hv.
  assert (Forall update_ok (draw_update fl <$> log)) as Hus.
  { apply Forall_fmap. eapply Forall_impl; [exact Hlog|]. intros d Hd. by apply draw_update_ok. }
  assert (∀ key v, written fl log !! key = Some v →
    ∃ d, d ∈ log ∧ draw_key fl d = key ∧ draw_value fl d = v) as Hin.
  { intros key v [?|E]%(puts_lookup (draw_key fl) (draw_value fl)); [done|].
    by rewrite lookup_empty in E. }
  split_and!; [|intros key v|done].
  - apply map_ok_updates; [done|]. apply map_Forall_empty.
  - intros (d & Hd & <- & _)%Hin. rewrite Forall_forall in Hlog.
    by destruct (draw_update_ok fl d (Hlog d Hd) Hks Hv).
Qed.

(** [getRocks] on what a run has left. *)
Lemma wp_getRocks σ r σ2 (Q : ptr → st → Prop) :
  run_ok fl n dir σ → populate_ends_in σ r → world σ2 = world (gs_mem r) →
  (∀ s h σ3, store_open false σ3 s h [] (KV (written fl (gs_log r)) None []) →
     quiet (world σ3) h →
     size (cheap σ3) = (1 + opts_blocks + size (cheap σ2))%nat → Q s σ3) →
  wp (getRocks dir) σ2 Q.
Proof.
  intros Hok Hend Ew HQ. destruct (populate_end σ r Hok Hend) as (Hf & Hlog & Hd).
  destruct (written_ok (gs_log r) σ Hok Hlog) as (Hm & _). pose proof (ro_path _ _ _ _ Hok) as Hp.
  unfold getRocks. apply wp_bind. eapply (wp_NewReadOnlyStore_rep _ _ (written fl (gs_log r)));
    rewrite ?Ew, ?c_str_NUL_free by done; [done..|].
  intros s h σ3 Hr Hq Hsz. apply wp_bind, wp_ret, wp_ret. by eapply HQ.
Qed.

(** C6: what populate has put is what a later process gets: the value of a key is that
    of its last draw, and a key that was not drawn is not found. *)
Theorem populate_get_roundtrip σ r σ2 :
  run_ok fl n dir σ → populate_ends_in σ r → world σ2 = world (gs_mem r) →
  (∀ l1 d l2, gs_log r = l1 ++ d :: l2 → Forall (λ d', draw_key fl d' ≠ draw_key fl d) l2 →
     wp (s ← getRocks dir; client_get s (draw_key fl d)) σ2 (λ res _,
       res = (draw_value fl d, None))) ∧
  (∀ key, len_ok key → key ∉ draw_key fl <$> gs_log r →
     wp (s ← getRocks dir; client_get s key) σ2 (λ res _, res = ([], None))).
Proof.
  intros Hok Hend Ew. destruct (populate_end σ r Hok Hend) as (_ & Hlog & _).
  destruct (written_ok (gs_log r) σ Hok Hlog) as (_ & Hks & Hin).
  assert (∀ key, len_ok key → wp (s ← getRocks dir; client_get s key) σ2 (λ res _,
    res = (default [] (written fl (gs_log r) !! key), None))) as Hget.
  { intros key Hkey. apply wp_bind. eapply wp_getRocks; [done..|]. intros s h σ3 Hr _ _.
    eapply wp_client_get; [exact Hr|done|]. intros; done. }
  split.
  - intros l1 d l2 El Hl2.
    assert (written fl (gs_log r) !! draw_key fl d = Some (draw_value fl d)) as Ed.
    { rewrite El. by apply (puts_last (draw_key fl) (draw_value fl)). }
    eapply wp_mono; [apply Hget; by eapply Hks|]. intros res _ ->. by rewrite Ed.
  - intros key Hkey Hn. eapply wp_mono; [by apply Hget|]. intros res _ ->.
    destruct (written fl (gs_log r) !! key) eqn:E; [|done]. destruct Hn.
    apply Hin in E as (d & Hd & <- & _). by apply list_elem_of_fmap_2.
Qed.

(** The numbers of the keys a run has put. *)
Definition drawn (log : list draw) : list Z := (λ d, Z.rem (rand_Int d) n) <$> log.

Lemma hit_written log σ x :
  run_ok fl n dir σ → Forall draw_ok log → 0 ≤ x < 2 ^ 63 →
  hit (written fl log) (bench_key fl x) =
    if decide (0 < valueSize fl ∧ Z.rem x n ∈ drawn log) then 1 else 0.
Proof.
  intros Hok Hlog Hx. destruct (written_ok log σ Hok Hlog) as (_ & _ & Hin).
  pose proof (ro_value _ _ _ _ Hok) as Hvs. unfold hit.
  destruct (written fl log !! bench_key fl x) as [v|] eqn:E.
  - apply Hin in E as (d & Hd & Ek & <-). rewrite Forall_forall in Hlog.
    pose proof (Hlog d Hd) as Hdd. apply (draw_key_eq d σ Hok x Hdd Hx) in Ek.
    assert (blen (draw_value fl d) = valueSize fl) as Hlen by (apply Hdd; lia).
    destruct (decide (0 < valueSize fl)) as [Hp|Hz].
    + rewrite decide_True.
      * destruct (draw_value fl d); [unfold blen in Hlen; simpl in Hlen; lia|done].
      * split; [done|]. rewrite <-Ek. by apply (list_elem_of_fmap_2 (λ d, Z.rem (rand_Int d) n)).
    + rewrite decide_False by lia. assert (draw_value fl d = []) as -> by (apply blen_0; lia). done.
  - rewrite decide_False; [done|]. intros [_ (d & Ed & Hd)%list_elem_of_fmap].
    rewrite Forall_forall in Hlog. symmetry in Ed. apply (draw_key_eq d σ Hok x (Hlog d Hd) Hx) in Ed.
    apply list_elem_of_split in Hd as (l1 & l2 & ->).
    assert (bench_key fl x ∈ dom (written fl (l1 ++ d :: l2))) as Hdom.
    { unfold written, draw_update. rewrite puts_dom, <-Ed, fmap_app, fmap_cons. set_solver. }
    by apply not_elem_of_dom in E.
Qed.

(** The hits among some reads. *)
Definition drawn_hits (log : list draw) (rs : list Z) : Z :=
  blen (filter (λ x, 0 < valueSize fl ∧ Z.rem x n ∈ drawn log) rs).

Lemma hits_written log σ rs :
  run_ok fl n dir σ → Forall draw_ok log → Forall (λ x, 0 ≤ x < 2 ^ 63) rs →
  sum_by (λ x, hit (written fl log) (bench_key fl x)) rs = drawn_hits log rs.
Proof.
  intros Hok Hlog. unfold drawn_hits. induction 1 as [|x rs Hx _ IH]; [done|].
  rewrite sum_by_cons, IH, (hit_written _ σ), filter_cons by done.
  repeat case_decide; try done; unfold blen; cbn [length]; lia.
Qed.

(** The deferred [Close]. *)
Lemma wp_close_readable σ s h m (Q : unit → st → Prop) :
  readable σ s h m → quiet (world σ) h →
  (∀ σ', S (size (cheap σ')) = size (cheap σ) → Q tt σ') → wp (Store_Close s) σ Q.
Proof.
  intros (x & ro & Hx & Hdb & _ & Hf & [c Hc] & _) Hq HQ.
  destruct (law_close_quiet _ _ _ Hf Hc Hq) as [w Hw].
  eapply wp_Store_Close; [exact Hx|exact Hdb|exact Hw|]. intros σ' _. apply HQ.
Qed.

(** The reads of one goroutine. *)
Lemma wp_sequential_reads σ r σ2 rs :
  run_ok fl n dir σ → populate_ends_in σ r → world σ2 = world (gs_mem r) →
  Forall (λ x, 0 ≤ x < 2 ^ 63) rs → blen rs < 2 ^ 64 →
  let hits := drawn_hits (gs_log r) rs in
  wp (BenchmarkReadRandomRocks fl dir rs) σ2 (λ '(c, logged) σ3,
    c = HitCounter hits (blen rs - hits) 0 ∧ logged = hitCounter_Print (bs "rocksdb") c ∧
    Z.of_nat (size (cheap σ2)) + 5 + hits ≤ Z.of_nat (size (cheap σ3))).
Proof.
  intros Hok Hend Ew Hrs Hlen. destruct (populate_end σ r Hok Hend) as (_ & Hlog & _).
  destruct (run_facts fl n dir σ Hok) as (Hks & _).
  destruct (written_ok (gs_log r) σ Hok Hlog) as (Hm & _). pose proof (ro_value _ _ _ _ Hok).
  cbn zeta. rewrite <-(hits_written _ σ) by done. unfold BenchmarkReadRandomRocks. apply wp_bind.
  eapply wp_getRocks; [done..|]. intros s h σ3 Hr Hq Hsz. unfold opts_blocks in Hsz.
  pose proof (hits_of_range fl (written fl (gs_log r)) rs) as Hrange. unfold hits_of in Hrange.
  set (hits := sum_by _ _) in *.
  apply wp_bind. eapply wp_mono; [eapply (read_random_rocks_counts fl Hks); [lia|by eapply store_readable|done|done|done|done|cbn; lia]|].
  cbn [found notFound errored]. fold hits. intros c σ4 (-> & Hle & Hr4 & Hq4). rewrite !Z.add_0_l.
  assert (foldl apply_add hitCounter_Reset (hitCounter_Update (HitCounter hits (blen rs - hits) 0)) =
    HitCounter hits (blen rs - hits) 0) as ->.
  { cbn [hitCounter_Update foldl apply_add hitCounter_Reset found notFound errored].
    rewrite !Z.add_0_l, !wrap_count by lia. reflexivity. }
  cbn zeta. apply wp_bind. eapply wp_close_readable; [exact Hr4|by apply Hq4|].
  intros σ5 Hsz5. apply wp_ret. split; [reflexivity|]. split; [reflexivity|lia].
Qed.

(** The reads of all goroutines, with the store open. *)
Lemma wp_parallel_reads σ r σ2 reads procs :
  run_ok fl n dir σ → populate_ends_in σ r → world σ2 = world (gs_mem r) →
  Z.of_nat reads < 2 ^ 64 → (0 < procs)%nat →
  wp (getRocks dir) σ2 (λ s σ3,
    (∃ g, rtc (rstep fl s) (rinit σ3 reads procs) g ∧ all_done g) ∧
    ∀ g, rtc (rstep fl s) (rinit σ3 reads procs) g → all_done g →
      let hits := drawn_hits (gs_log r) (r_log g) in
      length (r_log g) = reads ∧ r_crash g = None ∧
      r_counter g = HitCounter hits (Z.of_nat reads - hits) 0 ∧
      ∃ σ4, Store_Close s (r_mem g) = Ret tt σ4).
Proof.
  intros Hok Hend Ew Hreads Hprocs. destruct (populate_end σ r Hok Hend) as (_ & Hlog & _).
  destruct (run_facts fl n dir σ Hok) as (Hks & _). pose proof (ro_value _ _ _ _ Hok).
  destruct (written_ok (gs_log r) σ Hok Hlog) as (Hm & _).
  assert (Z.abs (valueSize fl) < 2 ^ 63) as Hvs by lia.
  eapply wp_getRocks; [done..|]. intros s h σ3 Hr Hq _. apply store_readable in Hr.
  split; [by eapply (parallel_run_ends fl s h _ Hks Hvs Hm)|].
  intros g [k Hk]%rtc_nsteps Hd.
  destruct (parallel_run fl s h _ Hks Hvs Hm reads procs σ3 k g Hr Hreads Hprocs Hk)
    as (Hc & _ & _ & Hl & Hqg & Hrg & Hdone). destruct (Hdone Hd) as [El Ec].
  cbn zeta. rewrite <-(hits_written _ σ) by done. split_and!; [done..|].
  assert (wp (Store_Close s) (r_mem g) (λ _ _, True)) as Hcl
    by (eapply wp_close_readable; [exact Hrg|by apply Hqg|done]).
  apply wp_run in Hcl as ([] & σ4 & E & _). by exists σ4.
Qed.

(** C7: the random reads of bench_test.go on a store populate has filled with the same
    flags: no read errs; a read is a hit exactly when the number of its key was drawn,
    unless the values are empty, when none is.  This holds of the reads of one
    goroutine, where as no slice is freed each hit leaves a C block behind, beside five
    of the store, which [Close] does not free; and of any number of goroutines in
    parallel: they have an execution that ends, and every execution that ends has made
    [b.N] reads and counted these hits, and the store can then be closed. *)
Theorem populate_random_reads σ r σ2 :
  run_ok fl n dir σ → populate_ends_in σ r → world σ2 = world (gs_mem r) →
  let hits rs := blen (filter (λ x, 0 < valueSize fl ∧ Z.rem x n ∈ drawn (gs_log r)) rs) in
  (∀ rs, Forall (λ x, 0 ≤ x < 2 ^ 63) rs → blen rs < 2 ^ 64 →
     wp (BenchmarkReadRandomRocks fl dir rs) σ2 (λ '(c, logged) σ3,
       c = HitCounter (hits rs) (blen rs - hits rs) 0 ∧ logged = hitCounter_Print (bs "rocksdb") c ∧
       Z.of_nat (size (cheap σ2)) + 5 + hits rs ≤ Z.of_nat (size (cheap σ3)))) ∧
  (∀ reads procs, Z.of_nat reads < 2 ^ 64 → (0 < procs)%nat →
     wp (getRocks dir) σ2 (λ s σ3,
       (∃ g, rtc (rstep fl s) (rinit σ3 reads procs) g ∧ all_done g) ∧
       ∀ g, rtc (rstep fl s) (rinit σ3 reads procs) g → all_done g →
         length (r_log g) = reads ∧ r_crash g = None ∧
         r_counter g = HitCounter (hits (r_log g)) (Z.of_nat reads - hits (r_log g)) 0 ∧
         ∃ σ4, Store_Close s (r_mem g) = Ret tt σ4)).
Proof.
  intros Hok Hend Ew. cbn zeta. split.
  - intros rs Hrs Hlen. by eapply wp_sequential_reads.
  - intros reads procs Hreads Hprocs. by eapply wp_parallel_reads.
Qed.

(** C12: the iteration of bench_test.go on a store populate has filled: each of its
    [b.N] rounds counts the distinct keys that were drawn, up to two million, and prints
    the marks of that count.  The deferred [Close] is then called while the iterators of
    the rounds are live, which RocksDB does not allow. *)
Theorem populate_iterates σ r σ2 fuel b_N :
  run_ok fl n dir σ → populate_ends_in σ r → world σ2 = world (gs_mem r) →
  (length (gs_log r) < fuel)%nat →
  let count :=
    Z.min (Z.of_nat (size (list_to_set (draw_key fl <$> gs_log r) : gset bytes))) (2 * Mi) in
  wp (iterate_opened dir fuel b_N) σ2 (λ '(_, rounds) _,
    rounds = replicate b_N (count, marks count)) ∧
  ((0 < b_N)%nat → BenchmarkIterateRocks dir fuel b_N σ2 = Fault (Undefined "DB::~DB")).
Proof.
  intros Hok Hend Ew Hfuel count. destruct (populate_end σ r Hok Hend) as (_ & Hlog & _).
  destruct (written_ok (gs_log r) σ Hok Hlog) as (_ & Hks & _).
  assert (size (written fl (gs_log r)) =
    size (list_to_set (draw_key fl <$> gs_log r) : gset bytes)) as Esz.
  { rewrite <-size_dom. unfold written, draw_update. rewrite puts_dom, dom_empty_L.
    f_equal. set_solver. }
  assert (wp (iterate_opened dir fuel b_N) σ2 (λ '(s, rounds) σ',
    rounds = replicate b_N (count, marks count) ∧
    ((0 < b_N)%nat → Store_Close s σ' = Fault (Undefined "DB::~DB")))) as Hwp.
  { unfold iterate_opened. apply wp_bind. eapply wp_getRocks; [done..|]. intros s h σ3 Hr _ _.
    apply wp_bind, wp_go_make; [done|]. intros k σ4 Hk Hs4. apply wp_bind, wp_go_make; [done|].
    intros v σ5 Hv Hs5. apply wp_bind.
    eapply (wp_iterate_rounds fuel b_N σ5 s h [] _ k v);
      [eapply store_rep_step; [exact Hs5|]; by eapply store_rep_step|by eapply buf_at_step|done|done| |].
    { cbn [kv_live]. rewrite Esz. eapply Nat.le_lt_trans; [apply size_list_to_set_le|].
      by rewrite length_fmap. }
    cbn [kv_live]. rewrite Esz. intros σ6 Hr6 Hli. apply wp_ret. split; [done|].
    intros Hn. destruct (Hli Hn) as [it Hit]. by eapply Store_Close_undefined. }
  split.
  - eapply wp_mono; [exact Hwp|]. by intros [s rounds] σ' [? _].
  - intros Hn. unfold BenchmarkIterateRocks. eapply fault_of_wp; [exact Hwp|].
    intros [s rounds] σ' [_ Hcl]. by apply bind_fault, Hcl.
Qed.
End readback.

(** ** A run of a million keys, and a later process *)

#[local] Existing Instance amd64.

Definition later_process (w : World) : st := St ∅ ∅ w [].

Lemma demo_end : ∃ r, populate_ends_in demo_flags (bs "data") sigma_old r.
Proof. apply (populate_can_end _ 1000000), demo_run_ok. Qed.

Lemma populate_get_roundtrip_witness :
  ∃ r, populate_ends_in demo_flags (bs "data") sigma_old r ∧
    wp (s ← getRocks (bs "data"); client_get s (bs "old")) (later_process (world (gs_mem r)))
      (λ res _, res = ([], None)) ∧
    ∀ l d, gs_log r = l ++ [d] →
      wp (s ← getRocks (bs "data"); client_get s (draw_key demo_flags d))
        (later_process (world (gs_mem r))) (λ res _, res = (draw_value demo_flags d, None)).
Proof.
  destruct demo_end as [r Hr]. exists r.
  destruct (populate_get_roundtrip demo_flags 1000000 (bs "data") sigma_old r
    (later_process (world (gs_mem r))) demo_run_ok Hr eq_refl) as [Hget Hmiss].
  split; [done|]. split; [apply Hmiss; [done|]|].
  - intros (d & E & _)%list_elem_of_fmap. unfold draw_key, key_of in E. done.
  - intros l d El. by eapply Hget.
Defined.

Lemma populate_random_reads_witness :
  ∃ r, populate_ends_in demo_flags (bs "data") sigma_old r ∧
    let hits := blen (filter (λ x, 0 < valueSize demo_flags ∧
      Z.rem x 1000000 ∈ drawn 1000000 (gs_log r)) [7; 8; 1000007]) in
    wp (BenchmarkReadRandomRocks demo_flags (bs "data") [7; 8; 1000007])
      (later_process (world (gs_mem r))) (λ '(c, _) σ3, c = HitCounter hits (3 - hits) 0 ∧
        0 + 5 + hits ≤ Z.of_nat (size (cheap σ3))) ∧
    wp (getRocks (bs "data")) (later_process (world (gs_mem r))) (λ s σ3,
      ∃ g, rtc (rstep demo_flags s) (rinit σ3 1000 4) g ∧ all_done g ∧
        length (r_log g) = 1000%nat ∧ r_crash g = None).
Proof.
  destruct demo_end as [r Hr]. exists r. split; [done|].
  destruct (populate_random_reads demo_flags 1000000 (bs "data") sigma_old r
    (later_process (world (gs_mem r))) demo_run_ok Hr eq_refl) as [Hseq Hpar]. split.
  - cbn zeta. eapply wp_mono; [apply (Hseq [7; 8; 1000007]); [repeat constructor; lia|done]|].
    cbn beta. intros [c logged] σ3 (Ec & _ & Hle). split; [exact Ec|]. exact Hle.
  - eapply wp_mono; [apply (Hpar 1000%nat 4%nat); [done|lia]|].
    cbn beta. intros s σ3 [(g & Hg & Hd) Hall]. exists g.
    destruct (Hall g Hg Hd) as (El & Hc & _). exact (conj Hg (conj Hd (conj El Hc))).
Defined.

Lemma populate_iterates_witness :
  ∃ r, populate_ends_in demo_flags (bs "data") sigma_old r ∧
    let count := Z.min (Z.of_nat (size (list_to_set (draw_key demo_flags <$> gs_log r) : gset bytes)))
                   (2 * Mi) in
    wp (iterate_opened (bs "data") (S (length (gs_log r))) 3)
      (later_process (world (gs_mem r))) (λ '(_, rounds) _,
        rounds = replicate 3 (count, marks count)) ∧
    BenchmarkIterateRocks (bs "data") (S (length (gs_log r))) 3
      (later_process (world (gs_mem r))) = Fault (Undefined "DB::~DB").
Proof.
  destruct demo_end as [r Hr]. exists r. split; [exact Hr|].
  destruct (populate_iterates demo_flags 1000000 (bs "data") sigma_old r
    (later_process (world (gs_mem r))) (S (length (gs_log r))) 3 demo_run_ok Hr eq_refl
    ltac:(lia)) as [Hw Hf].
  split; [exact Hw|apply Hf; lia].
Defined.
