(* ===== verification/BenchReads.v ===== *)
(** * The read benchmarks of the other stores: bench_test.go

    The random reads of badger, leveldb, bolt and lmdb, with the stores they open.
    All of them make keys as [Bench.read_random_rocks] does and count hits in a
    [hitCounter]; they differ in what they call a hit.  As for rocks, a benchmark is
    that of one goroutine; the sum over goroutines is [Bench.updates_add_up].  The
    libraries are the class [Readers]; what they promise, and the theorem, are in
    [BenchReadsSpec.v]. *)

From S2P Require Import Prelude Rocks Memory Strconv Float64 Populate PopulateMain RwBench Bench.

(** The calls the benchmarks make beside those of [Stores], [Openers] and
    [BadgerIterator].  The functions that run a callback have a form for callbacks that
    assign a captured variable: its value before and after. *)
Class Readers `{Stores, !Openers} := {
  (* error values, which are compared with package variables *)
  lib_error : Type;
  lib_error_eq :: EqDecision lib_error;
  options_LoadToRAM : Z;
  badger_set_ReadOnly : bool → badger_Options → badger_Options;
  badger_ErrKeyNotFound : lib_error;
  badger_Item : Type;
  badger_View {V} : badger_DB → V → (badger_Txn → V → M st (V * option lib_error)) →
    M st (V * option lib_error);
  badger_Get : badger_Txn → goslice → M st (badger_Item * option lib_error);
  badger_ValueCopy : badger_Item → goslice → M st (goslice * option lib_error);
  leveldb_ErrNotFound : lib_error;
  leveldb_Get : leveldb_DB → goslice → M st (goslice * option lib_error);
  (* with the default options, read-only *)
  bolt_Open_ReadOnly : bytes → Z → M st (option bolt_DB * error);
  bolt_View {V} : bolt_DB → V → (bolt_Tx → V → M st (V * option lib_error)) →
    M st (V * option lib_error);
  (* a nil slice when the key does not exist *)
  bolt_Get : bolt_Bucket → goslice → M st goslice;
  lmdb_Readonly : Z;
  lmdb_NoReadahead : Z;
  lmdb_SetMaxReaders : lmdb_Env → Z → M st error;
  lmdb_View {V} : lmdb_Env → V → (lmdb_Txn → V → M st (V * option lib_error)) →
    M st (V * option lib_error);
  lmdb_set_RawRead : lmdb_Txn → bool → M st unit;
  lmdb_OpenDBI : lmdb_Txn → bytes → Z → M st (lmdb_DBI * option lib_error);
  lmdb_Get : lmdb_Txn → lmdb_DBI → goslice → M st (goslice * option lib_error);
  lmdb_IsNotFound : option lib_error → bool;
}.

(** [y.AssertTruef], [y.AssertTrue]. *)
Definition assert_true {S} (b : bool) : M S unit :=
  if b then mret tt else raise (Fatal "y.AssertTruef").

Variant read_result := Found | NotFound | Errored.

(** [c.found++] and the others. *)
Definition tally (c : hitCounter) (o : read_result) : hitCounter :=
  match o with
  | Found => HitCounter (wrap_u 64 (found c + 1)) (notFound c) (errored c)
  | NotFound => HitCounter (found c) (wrap_u 64 (notFound c + 1)) (errored c)
  | Errored => HitCounter (found c) (notFound c) (wrap_u 64 (errored c + 1))
  end.

Section reads.
Context `{RocksDB, Libc, Arch, !Stores, !Openers, !Readers}.
Context (fl : flags).

(** [for pb.Next() { key := newKey(); ... }]. *)
Fixpoint read_random (read : goslice → M st read_result) (rs : list Z) (c : hitCounter) :
    M st hitCounter :=
  match rs with
  | [] => mret c
  | r :: rs =>
      key ← newKey fl r;
      o ← read key;
      read_random read rs (tally c o)
  end.

(** The length check of a value. *)
Definition check_value (v : goslice) : M st read_result :=
  assert_true (sl_len v =? valueSize fl);; mret Found.

(** ** badger *)

Definition getBadger (dir : bytes) : M st (option badger_DB * error) :=
  badger_Open (badger_set_ReadOnly true (badger_set_TableLoadingMode options_LoadToRAM
    (badger_DefaultOptions (dir ++ bs "/badger")))).

(** The closure [read]. *)
Definition badger_read (txn : badger_Txn) (key : goslice) : M st (option lib_error) :=
  '(item, err) ← badger_Get txn key;
  match err with
  | Some _ => mret err
  | None =>
      '(val, err) ← badger_ValueCopy item nilslice;
      match err with
      | Some _ => mret err
      | None => assert_true (sl_len val =? valueSize fl);; mret None
      end
  end.

Definition badger_outcome (txn : badger_Txn) (key : goslice) : M st read_result :=
  err ← badger_read txn key;
  mret (if decide (err = Some badger_ErrKeyNotFound) then NotFound
        else match err with Some _ => Errored | None => Found end).

Definition read_random_badger (bdb : badger_DB) (rs : list Z) (c : hitCounter) :
    M st hitCounter :=
  '(c, err) ← badger_View bdb c (λ txn c,
    c ← read_random (badger_outcome txn) rs c; mret (c, None));
  check_error "y.Check" err;;
  mret c.

Definition BenchmarkReadRandomBadger (dir : bytes) (rs : list Z) : M st hitCounter :=
  '(bdb, err) ← getBadger dir;
  check_error "y.Check" err;;
  bdb ← of_option PanicNil bdb;
  c ← read_random_badger bdb rs hitCounter_Reset;
  badger_Close bdb;;
  mret c.

(** ** leveldb *)

Definition getLevelDB (dir : bytes) : M st (option leveldb_DB) :=
  '(ldb, err) ← leveldb_OpenFile (dir ++ bs "/level/l.db");
  check_error "y.Check" err;;
  mret ldb.

Definition leveldb_outcome (ldb : leveldb_DB) (key : goslice) : M st read_result :=
  '(v, err) ← leveldb_Get ldb key;
  if decide (err = Some leveldb_ErrNotFound) then mret NotFound
  else match err with Some _ => mret Errored | None => check_value v end.

Definition BenchmarkReadRandomLevel (dir : bytes) (rs : list Z) : M st hitCounter :=
  ldb ← getLevelDB dir;
  ldb ← of_option PanicNil ldb;
  c ← read_random (leveldb_outcome ldb) rs hitCounter_Reset;
  leveldb_Close ldb;;
  mret c.

(** ** bolt *)

Definition getBoltDB (dir : bytes) : M st (option bolt_DB) :=
  '(boltdb, err) ← bolt_Open_ReadOnly (dir ++ bs "/bolt/bolt.db") 511;
  check_error "y.Check" err;;
  mret boltdb.

Definition bolt_outcome (boltBkt : bolt_Bucket) (key : goslice) : M st read_result :=
  v ← bolt_Get boltBkt key;
  if decide (sl_ptr v = Nil) then mret NotFound else check_value v.

Definition read_random_bolt (boltdb : bolt_DB) (rs : list Z) (c : hitCounter) :
    M st hitCounter :=
  '(c, err) ← bolt_View boltdb c (λ txn c,
    boltBkt ← bolt_GetBucket txn (bs "bench");
    boltBkt ← of_option (Fatal "y.AssertTrue") boltBkt;
    c ← read_random (bolt_outcome boltBkt) rs c; mret (c, None));
  check_error "y.Check" err;;
  mret c.

Definition BenchmarkReadRandomBolt (dir : bytes) (rs : list Z) : M st hitCounter :=
  boltdb ← getBoltDB dir;
  boltdb ← of_option PanicNil boltdb;
  c ← read_random_bolt boltdb rs hitCounter_Reset;
  bolt_Close boltdb;;
  mret c.

(** ** lmdb *)

Definition getLmdb (dir : bytes) : M st lmdb_Env :=
  '(lmdbEnv, err) ← lmdb_NewEnv;
  check_error "y.Check" err;;
  lmdbEnv ← of_option PanicNil lmdbEnv;
  err ← lmdb_SetMaxReaders lmdbEnv (2 ^ 63 - 1);
  check_error "y.Check" err;;
  err ← lmdb_SetMaxDBs lmdbEnv 1;
  check_error "y.Check" err;;
  err ← lmdb_SetMapSize lmdbEnv (2 ^ 38);
  check_error "y.Check" err;;
  err ← lmdb_Open lmdbEnv (dir ++ bs "/lmdb") (Z.lor lmdb_Readonly lmdb_NoReadahead) 511;
  check_error "y.Check" err;;
  mret lmdbEnv.

Definition lmdb_outcome (txn : lmdb_Txn) (lmdbDBI : lmdb_DBI) (key : goslice) : M st read_result :=
  '(v, err) ← lmdb_Get txn lmdbDBI key;
  if lmdb_IsNotFound err then mret NotFound
  else match err with Some _ => mret Errored | None => check_value v end.

Definition read_random_lmdb (lmdbEnv : lmdb_Env) (lmdbDBI : lmdb_DBI) (rs : list Z)
    (c : hitCounter) : M st hitCounter :=
  '(c, err) ← lmdb_View lmdbEnv c (λ txn c,
    lmdb_set_RawRead txn true;;
    c ← read_random (lmdb_outcome txn lmdbDBI) rs c; mret (c, None));
  check_error "y.Check" err;;
  mret c.

(** The deferred [CloseDBI] runs before the deferred [Close]. *)
Definition BenchmarkReadRandomLmdb (dir : bytes) (rs : list Z) : M st hitCounter :=
  lmdbEnv ← getLmdb dir;
  '(lmdbDBI, err) ← lmdb_View lmdbEnv lmdb_zeroDBI (λ txn _, lmdb_OpenDBI txn (bs "bench") 0);
  check_error "y.Check" err;;
  c ← read_random_lmdb lmdbEnv lmdbDBI rs hitCounter_Reset;
  lmdb_CloseDBI lmdbEnv lmdbDBI;;
  lmdb_Close lmdbEnv;;
  mret c.
End reads.
