(* ===== verification/BenchReadsSpec.v ===== *)
(** * What the random reads find

    The promises of the four libraries about reading, and the theorem on the
    benchmarks of [BenchReads.v]: on the same contents they count the same keys; the
    benchmark of rocks agrees with them unless the values are empty.  An instance of
    the laws follows, over [MemStores.v]. *)

From S2P Require Import Prelude Rocks MemRocks Memory Strconv Float64 Populate PopulateSpec PopulateMain Libraries MemStores RwBench BadgerSpec StoreSpec Bench BenchReads Scenario.

(** Every library takes such a key. *)
Definition plain_key (k : bytes) : Prop :=
  k ≠ [] ∧ blen k ≤ 511 ∧ ¬ bs "!badger!" `prefix_of` k.

Class ReadersView `{RocksDB, !Stores, !Openers, !Readers} := {
  (* the contents of a closed database at a path; for bolt and lmdb, those of the
     bucket or database [bench] *)
  badger_stored : World → bytes → gmap bytes bytes → Prop;
  leveldb_stored : World → bytes → gmap bytes bytes → Prop;
  bolt_stored : World → bytes → gmap bytes bytes → Prop;
  lmdb_stored : World → bytes → gmap bytes bytes → Prop;
  (* an item of a transaction, and its value *)
  badger_item : World → badger_Item → badger_Txn → badger_DB → gmap bytes bytes → bytes → Prop;
  bolt_reads : World → bolt_Tx → bolt_DB → gmap bytes bytes → Prop;
  (* an environment that is not open yet, with contents at a path; one that is open; a
     transaction on it; and the handle of [bench] *)
  lmdb_new : World → lmdb_Env → bytes → gmap bytes bytes → Prop;
  lmdb_open : World → lmdb_Env → gmap bytes bytes → Prop;
  lmdb_reads : World → lmdb_Txn → lmdb_Env → gmap bytes bytes → Prop;
  lmdb_bench : lmdb_Env → lmdb_DBI → Prop;
}.

(** The result of a lookup, as a value [v] of which the program asks the length, or as
    the error [miss]. *)
Definition looked_up {E} (res : option bytes) (miss : E) (v : goslice) (err : option E) : Prop :=
  match res with
  | Some b => err = None ∧ sl_len v = blen b
  | None => err = Some miss
  end.

(** A transaction with a callback: what the callback establishes, [R], is what the call
    establishes, if memory the library allocates does not matter to it; [reads] holds of
    the transaction while it runs, [holds] of the database before and after.  The
    callback may write the memory of the program. *)
Definition runs_callback `{RocksView} {T E} (view : ∀ V, V → (T → V → M st (V * option E)) → M st (V * option E))
    (holds : World → Prop) (reads : World → T → Prop) : Prop :=
  ∀ V (v : V) f σ (R : V → st → Prop),
    (∀ v σ1 σ2, R v σ1 → lib_step σ1 σ2 → R v σ2) →
    holds (world σ) →
    (∀ txn σ1, lib_step σ σ1 → reads (world σ1) txn →
       wp (f txn v) σ1 (λ '(v', err) σ2, err = None ∧ reads (world σ2) txn ∧ R v' σ2)) →
    wp (view V v f) σ (λ '(v', err) σ', err = None ∧ holds (world σ') ∧ R v' σ').

Class ReadersLaws `{RocksView, !Stores, !StoresView, !Openers, !Readers, !ReadersView} : Prop := {
  law_badger_Open_ReadOnly σ d mode m :
    badger_stored (world σ) d m →
    wp (badger_Open (badger_set_ReadOnly true (badger_set_TableLoadingMode mode
        (badger_DefaultOptions d)))) σ (λ '(r, err) σ',
      err = None ∧ lib_step σ σ' ∧ ∃ db, r = Some db ∧ badger_holds (world σ') db m);
  law_badger_View db m :
    runs_callback (λ V, @badger_View _ _ _ _ _ V db)
      (λ w, badger_holds w db m) (λ w txn, badger_reads w txn db m);
  law_badger_Get σ txn db m k kb :
    badger_reads (world σ) txn db m → slice_at σ k kb → plain_key kb →
    wp (badger_Get txn k) σ (λ '(item, err) σ', lib_step σ σ' ∧
      match m !! kb with
      | Some v => err = None ∧ badger_item (world σ') item txn db m v
      | None => err = Some badger_ErrKeyNotFound ∧ badger_reads (world σ') txn db m
      end);
  law_badger_ValueCopy σ item txn db m v :
    badger_item (world σ) item txn db m v →
    wp (badger_ValueCopy item nilslice) σ (λ '(s, err) σ',
      err = None ∧ lib_step σ σ' ∧ sl_len s = blen v ∧ badger_reads (world σ') txn db m);
  law_badger_Close_ReadOnly σ db m :
    badger_holds (world σ) db m → wp (badger_Close db) σ (λ _ σ', lib_step σ σ');

  law_leveldb_OpenFile_stored σ d m :
    leveldb_stored (world σ) d m →
    wp (leveldb_OpenFile d) σ (λ '(r, err) σ',
      err = None ∧ lib_step σ σ' ∧ ∃ db, r = Some db ∧ leveldb_holds (world σ') db m);
  law_leveldb_Get σ db m k kb :
    leveldb_holds (world σ) db m → slice_at σ k kb →
    wp (leveldb_Get db k) σ (λ '(v, err) σ', lib_step σ σ' ∧
      leveldb_holds (world σ') db m ∧ looked_up (m !! kb) leveldb_ErrNotFound v err);
  law_leveldb_Close σ db m :
    leveldb_holds (world σ) db m → wp (leveldb_Close db) σ (λ _ σ', lib_step σ σ');

  law_bolt_Open_ReadOnly σ d mode m :
    bolt_stored (world σ) d m →
    wp (bolt_Open_ReadOnly d mode) σ (λ '(r, err) σ',
      err = None ∧ lib_step σ σ' ∧ ∃ db, r = Some db ∧ bolt_holds (world σ') db m);
  law_bolt_View db m :
    runs_callback (λ V, @bolt_View _ _ _ _ _ V db)
      (λ w, bolt_holds w db m) (λ w txn, bolt_reads w txn db m);
  law_bolt_Bucket σ txn db m :
    bolt_reads (world σ) txn db m →
    wp (bolt_GetBucket txn (bs "bench")) σ (λ b σ', lib_step σ σ' ∧
      bolt_reads (world σ') txn db m ∧ ∃ bkt, b = Some bkt ∧ bolt_tx_of bkt = txn);
  law_bolt_Get σ bkt db m k kb :
    bolt_reads (world σ) (bolt_tx_of bkt) db m → slice_at σ k kb →
    wp (bolt_Get bkt k) σ (λ v σ', lib_step σ σ' ∧ bolt_reads (world σ') (bolt_tx_of bkt) db m ∧
      match m !! kb with
      | Some b => sl_ptr v ≠ Nil ∧ sl_len v = blen b
      | None => sl_ptr v = Nil
      end);
  law_bolt_Close σ db m :
    bolt_holds (world σ) db m → wp (bolt_Close db) σ (λ _ σ', lib_step σ σ');

  law_lmdb_NewEnv σ d m :
    lmdb_stored (world σ) d m →
    wp lmdb_NewEnv σ (λ '(r, err) σ',
      err = None ∧ lib_step σ σ' ∧ ∃ env, r = Some env ∧ lmdb_new (world σ') env d m);
  (* at the numbers the benchmarks give *)
  law_lmdb_SetMaxReaders σ env d m :
    lmdb_new (world σ) env d m →
    wp (lmdb_SetMaxReaders env (2 ^ 63 - 1)) σ (λ err σ',
      err = None ∧ lib_step σ σ' ∧ lmdb_new (world σ') env d m);
  law_lmdb_SetMaxDBs σ env d m :
    lmdb_new (world σ) env d m →
    wp (lmdb_SetMaxDBs env 1) σ (λ err σ',
      err = None ∧ lib_step σ σ' ∧ lmdb_new (world σ') env d m);
  law_lmdb_SetMapSize σ env d m :
    lmdb_new (world σ) env d m →
    wp (lmdb_SetMapSize env (2 ^ 38)) σ (λ err σ',
      err = None ∧ lib_step σ σ' ∧ lmdb_new (world σ') env d m);
  law_lmdb_Open σ env d m mode :
    lmdb_new (world σ) env d m →
    wp (lmdb_Open env d (Z.lor lmdb_Readonly lmdb_NoReadahead) mode) σ (λ err σ',
      err = None ∧ lib_step σ σ' ∧ lmdb_open (world σ') env m);
  law_lmdb_View env m :
    runs_callback (λ V, @lmdb_View _ _ _ _ _ V env)
      (λ w, lmdb_open w env m) (λ w txn, lmdb_reads w txn env m);
  law_lmdb_OpenDBI σ txn env m :
    lmdb_reads (world σ) txn env m →
    wp (lmdb_OpenDBI txn (bs "bench") 0) σ (λ '(dbi, err) σ',
      err = None ∧ lib_step σ σ' ∧ lmdb_reads (world σ') txn env m ∧ lmdb_bench env dbi);
  law_lmdb_RawRead σ txn env m b :
    lmdb_reads (world σ) txn env m →
    wp (lmdb_set_RawRead txn b) σ (λ _ σ', lib_step σ σ' ∧ lmdb_reads (world σ') txn env m);
  law_lmdb_Get σ txn env dbi m k kb :
    lmdb_reads (world σ) txn env m → lmdb_bench env dbi → slice_at σ k kb → plain_key kb →
    wp (lmdb_Get txn dbi k) σ (λ '(v, err) σ', lib_step σ σ' ∧ lmdb_reads (world σ') txn env m ∧
      match m !! kb with
      | Some b => err = None ∧ sl_len v = blen b
      | None => lmdb_IsNotFound err = true
      end);
  law_lmdb_IsNotFound : lmdb_IsNotFound None = false;
  law_lmdb_CloseDBI σ env dbi m :
    lmdb_open (world σ) env m → lmdb_bench env dbi →
    wp (lmdb_CloseDBI env dbi) σ (λ _ σ', lib_step σ σ' ∧ lmdb_open (world σ') env m);
  law_lmdb_Close σ env m :
    lmdb_open (world σ) env m → wp (lmdb_Close env) σ (λ _ σ', lib_step σ σ');
}.

(** ** One goroutine *)

Section reads.
Context `{ReadersLaws, Libc, Arch}.
Context (fl : flags) (m : gmap bytes bytes).
Context (Hks : key_space fl ≠ 0) (Hvs : 0 ≤ valueSize fl < 2 ^ 63).
(** The values have the size the flags say. *)
Context (Hsized : map_Forall (λ _ v, blen v = valueSize fl) m).

Abbreviation key r := (bench_key fl r).

Lemma bench_key_plain r : 0 ≤ r < 2 ^ 63 → plain_key (key r) ∧ len_ok (key r).
Proof.
  intros Hr. unfold bench_key. pose proof (rem_small r (key_space fl) Hr Hks) as Hrem.
  split; [|apply key_of_len_ok; lia].
  pose proof (fmt_0d_length 5 (valueSize fl) ltac:(lia) ltac:(lia)).
  pose proof (fmt_0d_length 10 _ ltac:(lia) Hrem). unfold key_of. split_and!; [done| |].
  - unfold blen. rewrite !length_app. simpl. lia.
  - intros [k E]. discriminate E.
Qed.

(** Whether a key is there. *)
Definition present (k : bytes) : Z := if m !! k is Some _ then 1 else 0.

Definition outcome_of (k : bytes) : read_result := if m !! k is Some _ then Found else NotFound.

(** [inv] holds between two reads, whatever the program allocates. *)
Definition stays (inv : st → Prop) : Prop :=
  ∀ σ σ', inv σ → lib_step σ σ' → world σ' = world σ → inv σ'.

Definition reads_outcome (inv : st → Prop) (read : goslice → M st read_result) : Prop :=
  ∀ σ k kb, inv σ → slice_at σ k kb → plain_key kb →
    wp (read k) σ (λ o σ', inv σ' ∧ lib_step σ σ' ∧ o = outcome_of kb).

Lemma wp_read_random inv read rs c σ :
  stays inv → reads_outcome inv read → inv σ → Forall (λ r, 0 ≤ r < 2 ^ 63) rs →
  0 ≤ found c → 0 ≤ notFound c → found c + notFound c + blen rs < 2 ^ 64 →
  let hits := sum_by (λ r, present (key r)) rs in
  wp (read_random fl read rs c) σ (λ c' σ', inv σ' ∧ lib_step σ σ' ∧
    c' = HitCounter (found c + hits) (notFound c + (blen rs - hits)) (errored c)).
Proof.
  cbn zeta. intros Hstay Hread Hinv Hrs. revert σ c Hinv.
  induction Hrs as [|r rs Hr _ IH]; intros σ c Hinv Hf Hn Hb.
  { apply wp_ret. split; [done|]. split; [done|]. destruct c. unfold blen. simpl. f_equal; lia. }
  cbn [read_random]. rewrite sum_by_cons. destruct (bench_key_plain r Hr) as [Hp Hok].
  assert (blen (r :: rs) = 1 + blen rs) as El by (unfold blen; simpl; lia).
  pose proof (blen_nonneg rs). apply wp_bind. unfold newKey.
  rewrite (proj2 (Z.eqb_neq _ _)) by done. fold (key r). apply wp_go_bytes; [done|].
  intros k σ1 Hk Hg1 Hc1 Hw1. assert (lib_step σ σ1) as Hs1.
  { destruct Hg1. split; [done|done|rewrite Hw1; apply stable_refl|by rewrite Hw1]. }
  apply wp_bind. eapply wp_mono; [eapply Hread; [by eapply Hstay|done|done]|].
  intros o σ2 (Hinv2 & Hs2 & ->).
  assert (∀ z, 0 ≤ z < 2 ^ 64 → wrap_u 64 z = z) as Hwrap by (intros; by apply Z.mod_small).
  assert (present (key r) = if outcome_of (key r) is Found then 1 else 0) as ->
    by (unfold present, outcome_of; by destruct (m !! key r)).
  assert (outcome_of (key r) = Found ∨ outcome_of (key r) = NotFound) as [-> | ->]
    by (unfold outcome_of; destruct (m !! key r); auto);
    cbn [tally]; rewrite Hwrap by lia;
    (eapply wp_mono; [apply IH; [exact Hinv2|cbn [found notFound]; lia..]|]);
    cbn [found notFound errored]; intros c' σ3 (Hinv3 & Hs3 & ->);
    (split; [done|]); (split; [etrans; [exact Hs1|]; by etrans|f_equal; lia]).
Qed.

(** *** The length check *)

Lemma wp_check_value σ v (b : bytes) (Q : read_result → st → Prop) :
  sl_len v = blen b → blen b = valueSize fl → Q Found σ → wp (check_value fl v) σ Q.
Proof.
  intros El Eb HQ. unfold check_value, assert_true. rewrite El, Eb, Z.eqb_refl.
  by apply wp_bind, wp_ret.
Qed.

(** *** The four reads *)

Lemma badger_reads_outcome txn db :
  reads_outcome (λ σ, badger_reads (world σ) txn db m) (badger_outcome fl txn).
Proof.
  intros σ k kb Hinv Hk Hp. unfold badger_outcome, badger_read, outcome_of.
  apply wp_bind, wp_bind. eapply wp_mono; [by eapply law_badger_Get|].
  intros [item err] σ1 [Hs1 Hres]. cbn beta iota.
  destruct (m !! kb) as [v|] eqn:Ev; destruct Hres as [-> Hr].
  - apply wp_bind. eapply wp_mono; [by eapply law_badger_ValueCopy|].
    intros [s err] σ2 (-> & Hs2 & El & Hr2). cbn beta iota.
    unfold assert_true. rewrite El, (Hsized _ _ Ev), Z.eqb_refl. apply wp_bind, wp_ret, wp_ret, wp_ret.
    split; [done|]. split; [by etrans|]. by rewrite decide_False.
  - apply wp_ret, wp_ret. split; [done|]. split; [done|]. by rewrite decide_True.
Qed.

Lemma leveldb_reads_outcome db :
  reads_outcome (λ σ, leveldb_holds (world σ) db m) (leveldb_outcome fl db).
Proof.
  intros σ k kb Hinv Hk Hp. unfold leveldb_outcome, outcome_of.
  apply wp_bind. eapply wp_mono; [by eapply law_leveldb_Get|].
  intros [v err] σ1 (Hs1 & Hh & Hres). unfold looked_up in Hres.
  destruct (m !! kb) as [b|] eqn:Eb.
  - destruct Hres as [-> El]. rewrite decide_False by done.
    eapply wp_check_value; [exact El|by eapply Hsized|done].
  - rewrite decide_True by done. by apply wp_ret.
Qed.

Lemma bolt_reads_outcome bkt db :
  reads_outcome (λ σ, bolt_reads (world σ) (bolt_tx_of bkt) db m) (bolt_outcome fl bkt).
Proof.
  intros σ k kb Hinv Hk Hp. unfold bolt_outcome, outcome_of.
  apply wp_bind. eapply wp_mono; [by eapply law_bolt_Get|].
  intros v σ1 (Hs1 & Hr & Hres). destruct (m !! kb) as [b|] eqn:Eb.
  - destruct Hres as [Hn El]. rewrite decide_False by done.
    eapply wp_check_value; [exact El|by eapply Hsized|done].
  - rewrite decide_True by done. by apply wp_ret.
Qed.

Lemma lmdb_reads_outcome txn env dbi :
  lmdb_bench env dbi →
  reads_outcome (λ σ, lmdb_reads (world σ) txn env m) (lmdb_outcome fl txn dbi).
Proof.
  intros Hdbi σ k kb Hinv Hk Hp. unfold lmdb_outcome, outcome_of.
  apply wp_bind. eapply wp_mono; [by eapply law_lmdb_Get|].
  intros [v err] σ1 (Hs1 & Hr & Hres). destruct (m !! kb) as [b|] eqn:Eb.
  - destruct Hres as [-> El]. rewrite law_lmdb_IsNotFound.
    eapply wp_check_value; [exact El|by eapply Hsized|done].
  - rewrite Hres. by apply wp_ret.
Qed.

(** ** The four benchmarks *)

Context (rs : list Z).
Context (Hrs : Forall (λ r, 0 ≤ r < 2 ^ 63) rs) (Hlen : blen rs < 2 ^ 64).

Definition hits : Z := sum_by (λ r, present (key r)) rs.
Definition counted : hitCounter := HitCounter hits (blen rs - hits) 0.

Lemma wp_read_reset inv read σ (Q : hitCounter → st → Prop) :
  stays inv → reads_outcome inv read → inv σ →
  (∀ σ', inv σ' → lib_step σ σ' → Q counted σ') →
  wp (read_random fl read rs hitCounter_Reset) σ Q.
Proof.
  intros Hstay Hread Hinv HQ. eapply wp_mono; [by eapply wp_read_random|].
  cbn [found notFound errored hitCounter_Reset]. intros c σ' (Hinv' & Hs & ->).
  rewrite !Z.add_0_l. by apply HQ.
Qed.

Lemma world_stays (P : World → Prop) : stays (λ σ, P (world σ)).
Proof. intros σ σ' HP _ E. by rewrite E. Qed.

(** The callback of a benchmark, which reads and returns no error. *)
Lemma wp_read_callback {E} (P : World → Prop) read σ (Q : hitCounter * option E → st → Prop) :
  reads_outcome (λ σ, P (world σ)) read → P (world σ) →
  (∀ σ', P (world σ') → lib_step σ σ' → Q (counted, None) σ') →
  wp (c ← read_random fl read rs hitCounter_Reset; mret (c, None)) σ Q.
Proof.
  intros Hread HP HQ. apply wp_bind. eapply wp_read_reset; [apply (world_stays P)|exact Hread|exact HP|].
  intros σ' HP' Hs. by apply wp_ret, HQ.
Qed.

Lemma wp_bench_badger σ dir :
  badger_stored (world σ) (dir ++ bs "/badger") m →
  wp (BenchmarkReadRandomBadger fl dir rs) σ (λ c _, c = counted).
Proof.
  intros Hst. unfold BenchmarkReadRandomBadger, getBadger. apply wp_bind.
  eapply wp_mono; [by apply law_badger_Open_ReadOnly|].
  intros [r err] σ1 (-> & _ & db & -> & Hm). apply wp_bind, wp_ret, wp_bind, wp_ret, wp_bind.
  unfold read_random_badger. apply wp_bind. eapply wp_mono.
  { apply (law_badger_View db m _ hitCounter_Reset _ σ1 (λ c _, c = counted)); [done|exact Hm|].
    intros txn σ2 _ Hr. eapply (wp_read_callback (λ w, badger_reads w txn db m));
      [apply badger_reads_outcome|exact Hr|]. intros; done. }
  intros [c err] σ2 (-> & Hm2 & ->). apply wp_bind, wp_ret, wp_ret, wp_bind.
  eapply wp_mono; [by eapply law_badger_Close_ReadOnly|]. intros ? ? _. by apply wp_ret.
Qed.

Lemma wp_bench_leveldb σ dir :
  leveldb_stored (world σ) (dir ++ bs "/level/l.db") m →
  wp (BenchmarkReadRandomLevel fl dir rs) σ (λ c _, c = counted).
Proof.
  intros Hst. unfold BenchmarkReadRandomLevel, getLevelDB. apply wp_bind, wp_bind.
  eapply wp_mono; [by apply law_leveldb_OpenFile_stored|].
  intros [r err] σ1 (-> & _ & db & -> & Hm). apply wp_bind, wp_ret, wp_ret, wp_bind, wp_ret, wp_bind.
  eapply (wp_read_reset (λ σ, leveldb_holds (world σ) db m));
    [apply (world_stays (λ w, leveldb_holds w db m))|apply leveldb_reads_outcome|exact Hm|]. intros σ2 Hm2 _. apply wp_bind.
  eapply wp_mono; [by eapply law_leveldb_Close|]. intros ? ? _. by apply wp_ret.
Qed.

Lemma wp_bench_bolt σ dir :
  bolt_stored (world σ) (dir ++ bs "/bolt/bolt.db") m →
  wp (BenchmarkReadRandomBolt fl dir rs) σ (λ c _, c = counted).
Proof.
  intros Hst. unfold BenchmarkReadRandomBolt, getBoltDB. apply wp_bind, wp_bind.
  eapply wp_mono; [by apply law_bolt_Open_ReadOnly|].
  intros [r err] σ1 (-> & _ & db & -> & Hm). apply wp_bind, wp_ret, wp_ret, wp_bind, wp_ret, wp_bind.
  unfold read_random_bolt. apply wp_bind. eapply wp_mono.
  { apply (law_bolt_View db m _ hitCounter_Reset _ σ1 (λ c _, c = counted)); [done|exact Hm|].
    intros txn σ2 _ Hr. apply wp_bind. eapply wp_mono; [by apply law_bolt_Bucket|].
    intros b σ3 (Hs3 & Hr3 & bkt & -> & <-). apply wp_bind, wp_ret.
    eapply (wp_read_callback (λ w, bolt_reads w (bolt_tx_of bkt) db m));
      [apply bolt_reads_outcome|exact Hr3|]. by intros σ4 Hr4 _. }
  intros [c err] σ2 (-> & Hm2 & ->). apply wp_bind, wp_ret, wp_ret, wp_bind.
  eapply wp_mono; [by eapply law_bolt_Close|]. intros ? ? _. by apply wp_ret.
Qed.

Lemma wp_getLmdb σ dir (Q : lmdb_Env → st → Prop) :
  lmdb_stored (world σ) (dir ++ bs "/lmdb") m →
  (∀ env σ', lmdb_open (world σ') env m → Q env σ') → wp (getLmdb dir) σ Q.
Proof.
  intros Hst HQ. unfold getLmdb. apply wp_bind. eapply wp_mono; [by apply law_lmdb_NewEnv|].
  intros [r err] σ1 (-> & _ & env & -> & Hn1). apply wp_bind, wp_ret, wp_bind, wp_ret, wp_bind.
  eapply wp_mono; [by eapply law_lmdb_SetMaxReaders|]. intros err σ2 (-> & _ & Hn2).
  apply wp_bind, wp_ret, wp_bind. eapply wp_mono; [by eapply law_lmdb_SetMaxDBs|].
  intros err σ3 (-> & _ & Hn3). apply wp_bind, wp_ret, wp_bind.
  eapply wp_mono; [by eapply law_lmdb_SetMapSize|]. intros err σ4 (-> & _ & Hn4).
  apply wp_bind, wp_ret, wp_bind. eapply wp_mono; [by eapply law_lmdb_Open|].
  intros err σ5 (-> & _ & Ho). apply wp_bind, wp_ret, wp_ret. by apply HQ.
Qed.

Lemma wp_lmdb_bench_dbi σ env (Q : lmdb_DBI * option lib_error → st → Prop) :
  lmdb_open (world σ) env m →
  (∀ dbi σ', lmdb_open (world σ') env m → lmdb_bench env dbi → Q (dbi, None) σ') →
  wp (lmdb_View env lmdb_zeroDBI (λ txn _, lmdb_OpenDBI txn (bs "bench") 0)) σ Q.
Proof.
  intros Ho HQ. eapply wp_mono.
  { apply (law_lmdb_View env m _ lmdb_zeroDBI _ σ (λ dbi _, lmdb_bench env dbi)); [done|exact Ho|].
    intros txn σ1 _ Hr. eapply wp_mono; [by apply law_lmdb_OpenDBI|].
    by intros [dbi err] σ2 (-> & _ & ? & ?). }
  intros [dbi err] σ1 (-> & Ho1 & Hdbi). by apply HQ.
Qed.

Lemma wp_bench_lmdb σ dir :
  lmdb_stored (world σ) (dir ++ bs "/lmdb") m →
  wp (BenchmarkReadRandomLmdb fl dir rs) σ (λ c _, c = counted).
Proof.
  intros Hst. unfold BenchmarkReadRandomLmdb. apply wp_bind, wp_getLmdb; [done|].
  intros env σ1 Ho. apply wp_bind, wp_lmdb_bench_dbi; [done|]. intros dbi σ2 Ho2 Hdbi.
  apply wp_bind, wp_ret, wp_bind.
  unfold read_random_lmdb. apply wp_bind. eapply wp_mono.
  { apply (law_lmdb_View env m _ hitCounter_Reset _ σ2 (λ c _, c = counted)); [done|exact Ho2|].
    intros txn σ3 _ Hr. apply wp_bind. eapply wp_mono; [by eapply law_lmdb_RawRead|].
    intros [] σ4 [Hs4 Hr4]. eapply (wp_read_callback (λ w, lmdb_reads w txn env m));
      [by apply lmdb_reads_outcome|exact Hr4|]. by intros σ5 Hr5 _. }
  intros [c err] σ3 (-> & Ho3 & ->). apply wp_bind, wp_ret, wp_ret, wp_bind.
  eapply wp_mono; [by eapply law_lmdb_CloseDBI|]. intros [] σ4 [_ Ho4]. apply wp_bind.
  eapply wp_mono; [by eapply law_lmdb_Close|]. intros ? ? _. by apply wp_ret.
Qed.

(** ** The five stores *)

(** The benchmark of one of the four libraries, and what the contents [m] in the
    directory are to it. *)
Variant library_bench (dir : bytes) : M st hitCounter → (World → Prop) → Prop :=
| bench_badger :
    library_bench dir (BenchmarkReadRandomBadger fl dir rs)
      (λ w, badger_stored w (dir ++ bs "/badger") m)
| bench_leveldb :
    library_bench dir (BenchmarkReadRandomLevel fl dir rs)
      (λ w, leveldb_stored w (dir ++ bs "/level/l.db") m)
| bench_bolt :
    library_bench dir (BenchmarkReadRandomBolt fl dir rs)
      (λ w, bolt_stored w (dir ++ bs "/bolt/bolt.db") m)
| bench_lmdb :
    library_bench dir (BenchmarkReadRandomLmdb fl dir rs)
      (λ w, lmdb_stored w (dir ++ bs "/lmdb") m).

Lemma wp_library_bench dir run stored σ :
  library_bench dir run stored → stored (world σ) → wp run σ (λ c _, c = counted).
Proof.
  destruct 1; intros Hst; [by apply wp_bench_badger|by apply wp_bench_leveldb
    |by apply wp_bench_bolt|by apply wp_bench_lmdb].
Qed.

(** What rocks counts as a hit is there, and not empty. *)
Lemma hit_present k : hit m k = if decide (0 < valueSize fl) then present k else 0.
Proof.
  unfold hit, present. destruct (m !! k) as [v|] eqn:E; [|by case_decide].
  pose proof (Hsized _ _ E) as Hv. cbn beta in Hv. unfold blen in Hv.
  destruct v; case_decide; simpl in Hv; lia || done.
Qed.

Lemma rocks_hits :
  sum_by (λ r, hit m (key r)) rs = if decide (0 < valueSize fl) then hits else 0.
Proof.
  unfold hits. clear Hrs Hlen. induction rs as [|r l IH]; [by case_decide|].
  rewrite !sum_by_cons, IH, hit_present. case_decide; lia.
Qed.

(** C9: the random reads of the five stores, given the same contents and the same random
    numbers, for contents whose values have the size of [-valsz]: the four libraries
    count exactly the keys that are there as found, the others as not found, and no
    error; so does rocks, unless the values are empty: then it counts every key as not
    found. *)
Theorem random_reads_agree `{!RocksLaws} dir run stored σ σr s h :
  library_bench dir run stored → stored (world σ) → readable σr s h m →
  wp run σ (λ c _, wp (read_random_rocks fl s rs hitCounter_Reset) σr (λ cr _,
    c = HitCounter hits (blen rs - hits) 0 ∧
    cr = if decide (0 < valueSize fl) then c else HitCounter 0 (blen rs) 0)).
Proof.
  intros Hrun Hst Hread. eapply wp_mono; [by eapply wp_library_bench|]. intros c _ ->.
  assert (map_ok m) as Hok.
  { intros k v Hv. unfold len_ok. rewrite (Hsized _ _ Hv). lia. }
  eapply wp_mono; [apply (read_random_rocks_counts fl Hks ltac:(lia) σr s h m rs hitCounter_Reset);
    [done|done|done|done|done|cbn; lia]|].
  cbn [found notFound errored hitCounter_Reset]. intros cr _ [-> _]. rewrite rocks_hits.
  split; [done|]. unfold counted. case_decide; f_equal; lia.
Qed.
End reads.

(** ** In memory *)

(** The contents the transaction [t] reads. *)
Definition t_contents (w : mworld) (t : handle) : gmap bytes bytes :=
  default ∅ (w_txns w !! t ≫= λ x, w_kvs w !! x.1).

(** The value of a key in [m], or the error [miss]. *)
Definition kv_get (m : gmap bytes bytes) (miss : bytes) (k : goslice) :
    M st (bytes * option bytes) :=
  kb ← sl_read k;
  mret (match m !! kb with Some v => (v, None) | None => ([], Some miss) end).

Definition kv_get_slice (m : gmap bytes bytes) (miss : bytes) (k : goslice) :
    M st (goslice * option bytes) :=
  '(v, err) ← kv_get m miss k;
  match err with
  | Some _ => mret (nilslice, err)
  | None => s ← go_bytes v; mret (s, None)
  end.

Definition t_view {V} (db : handle) (v : V) (f : handle → V → M st (V * option bytes)) :
    M st (V * option bytes) :=
  t ← t_begin db; f t v.

Definition t_get (miss : bytes) (t : handle) (k : goslice) : M st (bytes * option bytes) :=
  m ← gets (λ σ, t_contents (world σ) t); kv_get m miss k.

(** An item: a key and its value. *)
Definition t_get_item (miss : bytes) (t : handle) (k : goslice) :
    M st (bytes * bytes * option bytes) :=
  kb ← sl_read k; '(v, err) ← t_get miss t k; mret (kb, v, err).

Definition t_get_slice (miss : bytes) (t : handle) (k : goslice) : M st (goslice * option bytes) :=
  m ← gets (λ σ, t_contents (world σ) t); kv_get_slice m miss k.

Definition l_get (miss : bytes) (db : handle) (k : goslice) : M st (goslice * option bytes) :=
  m ← gets (λ σ, default ∅ (w_kvs (world σ) !! db)); kv_get_slice m miss k.

Definition not_found : bytes := bs "not found".

#[export] Instance mem_readers : Readers (H1 := mem_stores) := {|
  lib_error := bytes;
  lib_error_eq := _;
  options_LoadToRAM := 1;
  badger_set_ReadOnly := λ b o, (o.1, b);
  badger_ErrKeyNotFound := not_found;
  badger_Item := bytes * bytes;
  badger_View := λ V db, t_view db.2;
  badger_Get := t_get_item not_found;
  badger_ValueCopy := λ item _, s ← go_bytes item.2; mret (s, None);
  leveldb_ErrNotFound := not_found;
  leveldb_Get := l_get not_found;
  bolt_Open_ReadOnly := λ _ _, mret (Some 1%positive, None);
  bolt_View := λ V, t_view;
  bolt_Get := λ t k, r ← t_get_slice not_found t k; mret r.1;
  lmdb_Readonly := 131072;
  lmdb_NoReadahead := 8388608;
  lmdb_SetMaxReaders := λ _ _, mret None;
  lmdb_View := λ V, t_view;
  lmdb_set_RawRead := λ _ _, mret tt;
  lmdb_OpenDBI := λ _ _ _, mret (tt, None);
  lmdb_Get := λ t _ k, t_get_slice not_found t k;
  lmdb_IsNotFound := λ e, bool_decide (e = Some not_found);
|}.

(** The database at 1 is the one on disk. *)
Definition kv_stored (w : mworld) (m : gmap bytes bytes) : Prop := t_holds w 1%positive m.

#[export] Instance mem_readers_view : ReadersView := {|
  badger_stored := λ w _, kv_stored w;
  leveldb_stored := λ w _, kv_stored w;
  bolt_stored := λ w _, kv_stored w;
  lmdb_stored := λ w _, kv_stored w;
  badger_item := λ w item t db m v, t_reads w t db.2 m ∧ item.2 = v;
  bolt_reads := t_reads;
  lmdb_new := λ w env _, t_holds w env;
  lmdb_open := t_holds;
  lmdb_reads := t_reads;
  lmdb_bench := λ _ _, True;
|}.

Lemma t_contents_reads w t db m : t_reads w t db m → t_contents w t = m.
Proof. intros [[us Ht] Hm]. unfold t_contents, t_holds in *. rewrite Ht. cbn. by rewrite Hm. Qed.

Lemma wp_kv_get m miss k kb σ (Q : bytes * option bytes → st → Prop) :
  slice_at σ k kb →
  Q (match m !! kb with Some v => (v, None) | None => ([], Some miss) end) σ →
  wp (kv_get m miss k) σ Q.
Proof. intros Hk HQ. apply wp_bind. unfold wp at 1. by rewrite (sl_read_at _ _ _ Hk). Qed.

Lemma wp_any_bytes b σ (Q : goslice → st → Prop) :
  (∀ s σ', sl_len s = blen b → sl_ptr s ≠ Nil → lib_step σ σ' → world σ' = world σ → Q s σ') →
  wp (go_bytes b) σ Q.
Proof.
  intros HQ. apply wp_bind, wp_go_new. intros l Hl. apply wp_ret, HQ; [done|done| |done].
  split; [done|by apply insert_subseteq|apply stable_refl|done].
Qed.

Lemma wp_kv_get_slice m miss k kb σ (Q : goslice * option bytes → st → Prop) :
  slice_at σ k kb →
  (∀ r σ', lib_step σ σ' → world σ' = world σ →
     match m !! kb with
     | Some b => r.2 = None ∧ sl_ptr r.1 ≠ Nil ∧ sl_len r.1 = blen b
     | None => r.2 = Some miss ∧ sl_ptr r.1 = Nil
     end → Q r σ') →
  wp (kv_get_slice m miss k) σ Q.
Proof.
  intros Hk HQ. apply wp_bind. eapply wp_kv_get; [exact Hk|].
  destruct (m !! kb) as [b|]; cbn beta iota.
  - apply wp_bind, wp_any_bytes. intros s σ' Hl Hn Hs Ew. by apply wp_ret, HQ.
  - by apply wp_ret, HQ.
Qed.

Lemma t_runs_callback db m :
  runs_callback (λ V, @t_view V db) (λ w, t_holds w db m) (λ w t, t_reads w t db m).
Proof.
  intros V v f σ R _ Hm Hf. apply wp_bind. eapply wp_t_begin; [exact Hm|].
  intros t σ1 Hs1 [Ht Hm1]. eapply wp_mono; [apply Hf; [exact Hs1|split; [by eexists|done]]|].
  by intros [v' err] σ2 (-> & [_ Hm2] & HR).
Qed.

#[export] Instance mem_readers_laws : ReadersLaws.
Proof.
  split; cbn; try done.
  - intros σ d mode m Hm. apply wp_ret. split_and!; [done|done|]. by eexists.
  - intros [d db] m. apply t_runs_callback.
  - intros σ t db m k kb Hr Hk _. unfold t_get_item, t_get. apply wp_bind. unfold wp at 1.
    rewrite (sl_read_at _ _ _ Hk). apply wp_bind, wp_bind, wp_gets.
    rewrite (t_contents_reads _ _ _ _ Hr). eapply wp_kv_get; [exact Hk|].
    by destruct (m !! kb).
  - intros σ item t db m v [Hr <-]. apply wp_bind, wp_any_bytes. intros s σ' Hl _ Hs Ew.
    apply wp_ret. by rewrite Ew.
  - intros σ d m Hm. apply wp_ret. split_and!; [done|done|]. by eexists.
  - intros σ db m k kb Hm Hk. unfold l_get. apply wp_bind, wp_gets. unfold t_holds in *.
    rewrite Hm. change (default ∅ (Some m)) with m.
    eapply wp_kv_get_slice; [exact Hk|]. intros [s err] σ' Hs Ew Hres. rewrite Ew.
    split_and!; [done|done|]. unfold looked_up. destruct (m !! kb); naive_solver.
  - intros σ d mode m Hm. apply wp_ret. split_and!; [done|done|]. by eexists.
  - intros db m. apply t_runs_callback.
  - intros σ t db m Hr. apply wp_ret. rewrite decide_True by done. split_and!; [done|done|]. by exists t.
  - intros σ t db m k kb Hr Hk. apply wp_bind. unfold t_get_slice. apply wp_bind, wp_gets.
    rewrite (t_contents_reads _ _ _ _ Hr). eapply wp_kv_get_slice; [exact Hk|].
    intros [s err] σ' Hs Ew Hres. apply wp_ret. rewrite Ew. split_and!; [done|done|].
    destruct (m !! kb); naive_solver.
  - intros σ d m Hm. apply wp_ret. split_and!; [done|done|]. by eexists.
  - intros env m. apply t_runs_callback.
  - intros σ t env _ m k kb Hr _ Hk _. unfold t_get_slice. apply wp_bind, wp_gets.
    rewrite (t_contents_reads _ _ _ _ Hr). eapply wp_kv_get_slice; [exact Hk|].
    intros [s err] σ' Hs Ew Hres. rewrite Ew. split_and!; [done|done|].
    destruct (m !! kb); [naive_solver|]. destruct Hres as [E _]. cbn [snd] in E. subst err.
    by apply bool_decide_eq_true.
Qed.

(** ** Two reads of a store with one key *)

#[local] Existing Instance amd64.

Definition one_key : gmap bytes bytes := {[bs "vsz=00004-k=0000000007" := bs "vvvv"]}.

Definition sigma_stored : st := on_world (m_on_kvs <[1%positive := one_key]>) sigma0.

Lemma random_reads_agree_witness :
  wp (BenchmarkReadRandomBolt demo_flags (bs "data") [7; 8]) sigma_stored (λ c _,
    wp (read_random_rocks demo_flags (PG 4) [7; 8] hitCounter_Reset) (sigma_db one_key) (λ cr _,
      c = HitCounter 1 1 0 ∧ cr = c)).
Proof.
  eapply wp_mono.
  - apply (random_reads_agree demo_flags one_key) with (dir := bs "data") (rs := [7; 8])
      (stored := λ w, kv_stored w one_key) (h := 1%positive) (s := PG 4) (σr := sigma_db one_key).
    + by rewrite demo_key_space.
    + change (0 ≤ 4 < 2 ^ 63). lia.
    + by apply map_Forall_singleton.
    + repeat constructor; lia.
    + done.
    + apply _.
    + apply (@bench_bolt _ _ _ _ mem_readers mem_readers_view _ demo_flags one_key [7; 8]).
    + apply lookup_insert_eq.
    + exists (mkStore (PG 1) Nil Nil (PG 2) (PG 3)), new_ReadOptions.
      split_and!; [done|by eexists|by eexists|done|by eexists|done].
  - assert (hits demo_flags one_key [7; 8] = 1) as -> by (vm_compute; reflexivity).
    cbn beta. intros c σ' Hr. eapply wp_mono; [exact Hr|]. cbn beta.
    by intros cr σ2 [-> ->].
Defined.
