(* ===== verification/BenchIter.v ===== *)
(** * The iteration benchmarks of the other stores: bench_test.go

    The iterations over bolt, lmdb and badger (its keys only, or keys and values): each
    copies what it meets into two buffers that live as long as the benchmark, counts,
    prints marks and stops after two million entries, for as many rounds as the
    benchmark has.  The iteration over rocks is in [Bench.v].  The libraries are the
    class [Cursors]; what they promise, and the theorem, are in [BenchIterSpec.v]. *)

From S2P Require Import Prelude Rocks Memory Populate PopulateMain RwBench Bench BenchReads.

(** The calls of the iterations that no other program makes.  A [lib_slice] is a slice
    of memory of a library (a page of a mapped file, a buffer of an iterator): the
    program asks for its length, compares it with nil and reads it. *)
Class Cursors `{Stores, !Openers, !Readers, !BadgerIterator} := {
  lib_slice : Type;
  ls_nil : lib_slice → bool;
  ls_len : lib_slice → Z;
  ls_read : lib_slice → M st bytes;
  bolt_Cursor : Type;
  bolt_NewCursor : bolt_Bucket → M st bolt_Cursor;
  (* a nil key when there is no entry *)
  bolt_First : bolt_Cursor → M st (lib_slice * lib_slice);
  bolt_Next : bolt_Cursor → M st (lib_slice * lib_slice);
  lmdb_Cursor : Type;
  lmdb_OpenCursor : lmdb_Txn → lmdb_DBI → M st (lmdb_Cursor * option lib_error);
  (* [Get(nil, nil, lmdb.Next)] *)
  lmdb_Cursor_Next : lmdb_Cursor → M st (lib_slice * lib_slice * option lib_error);
  lmdb_Cursor_Close : lmdb_Cursor → M st unit;
  (* with a prefetch size, and whether values are prefetched *)
  badger_NewIterator_with : badger_Txn → Z → bool → M st badger_Iterator;
  badger_Iterator_Item : badger_Iterator → M st badger_Item;
  badger_Item_Key : badger_Item → M st lib_slice;
}.

(** The variables a round assigns: the buffers, the count, and the marks so far.  The
    iteration over keys only has no buffer for values. *)
Record progress := Progress { pg_k : goslice; pg_v : goslice; pg_count : Z; pg_out : bytes }.

(** [count++; print(count)]. *)
Definition count_one (p : progress) : progress :=
  let count := wrap_s 64 (pg_count p + 1) in
  Progress (pg_k p) (pg_v p) count (pg_out p ++ print count).

(** [if count >= 2*Mi { break }]. *)
Definition enough (p : progress) : bool := 2 * Mi <=? pg_count p.

Section rounds.
Context `{RocksDB}.

(** [for j := 0; j < b.N; j++]: what each of the [n] rounds counts and prints. *)
Fixpoint bench_rounds (n : nat) (round : progress → M st progress) (k v : goslice) :
    M st (list (Z * bytes)) :=
  match n with
  | O => mret []
  | S n =>
      p ← round (Progress k v 0 []);
      rest ← bench_rounds n round (pg_k p) (pg_v p);
      mret ((pg_count p, pg_out p) :: rest)
  end.
End rounds.

Section iterate.
Context `{RocksDB, Libc, Arch, !Stores, !Openers, !Readers, !BadgerIterator, !Cursors}.
Context (fl : flags).

(** [k = safecopy(k, k1)] and [v = safecopy(v, v1)]. *)
Definition copy_key (s : lib_slice) (p : progress) : M st progress :=
  k ← safecopy_of (pg_k p) (ls_len s) (ls_read s);
  mret (Progress k (pg_v p) (pg_count p) (pg_out p)).

Definition copy_value (s : lib_slice) (p : progress) : M st progress :=
  v ← safecopy_of (pg_v p) (ls_len s) (ls_read s);
  mret (Progress (pg_k p) v (pg_count p) (pg_out p)).

Definition copy_go_value (s : goslice) (p : progress) : M st progress :=
  v ← safecopy (pg_v p) s;
  mret (Progress (pg_k p) v (pg_count p) (pg_out p)).

(** ** bolt *)

Fixpoint iterate_bolt (fuel : nat) (cur : bolt_Cursor) (k1 v1 : lib_slice) (p : progress) :
    M st progress :=
  match fuel with
  | O => raise OutOfFuel
  | S fuel =>
      if ls_nil k1 then mret p else
      assert_true (ls_len v1 =? valueSize fl);;
      p ← copy_key k1 p;
      p ← copy_value v1 p;
      let p := count_one p in
      if enough p then mret p else
      '(k1, v1) ← bolt_Next cur;
      iterate_bolt fuel cur k1 v1 p
  end.

Definition bolt_round (fuel : nat) (boltdb : bolt_DB) (p : progress) : M st progress :=
  '(p, err) ← bolt_View boltdb p (λ txn p,
    boltBkt ← bolt_GetBucket txn (bs "bench");
    boltBkt ← of_option (Fatal "y.AssertTrue") boltBkt;
    cur ← bolt_NewCursor boltBkt;
    '(k1, v1) ← bolt_First cur;
    p ← iterate_bolt fuel cur k1 v1 p;
    mret (p, None));
  check_error "y.Check" err;;
  mret p.

Definition BenchmarkIterateBolt (dir : bytes) (fuel n : nat) : M st (list (Z * bytes)) :=
  boltdb ← getBoltDB dir;
  boltdb ← of_option PanicNil boltdb;
  k ← go_make 1024;
  v ← go_make Mi;
  counts ← bench_rounds n (bolt_round fuel boltdb) k v;
  bolt_Close boltdb;;
  mret counts.

(** ** lmdb *)

Fixpoint iterate_lmdb (fuel : nat) (cur : lmdb_Cursor) (p : progress) :
    M st (progress * option lib_error) :=
  match fuel with
  | O => raise OutOfFuel
  | S fuel =>
      '(k1, v1, err) ← lmdb_Cursor_Next cur;
      if lmdb_IsNotFound err then mret (p, None) else
      match err with
      | Some _ => mret (p, err)
      | None =>
          assert_true (ls_len v1 =? valueSize fl);;
          p ← copy_key k1 p;
          p ← copy_value v1 p;
          let p := count_one p in
          if enough p then mret (p, None) else iterate_lmdb fuel cur p
      end
  end.

Definition lmdb_round (fuel : nat) (lmdbEnv : lmdb_Env) (lmdbDBI : lmdb_DBI) (p : progress) :
    M st progress :=
  '(p, err) ← lmdb_View lmdbEnv p (λ txn p,
    lmdb_set_RawRead txn true;;
    '(cur, err) ← lmdb_OpenCursor txn lmdbDBI;
    match err with
    | Some _ => mret (p, err)
    | None =>
        '(p, err) ← iterate_lmdb fuel cur p;
        lmdb_Cursor_Close cur;;
        mret (p, err)
    end);
  check_error "y.Check" err;;
  mret p.

Definition BenchmarkIterateLmdb (dir : bytes) (fuel n : nat) : M st (list (Z * bytes)) :=
  lmdbEnv ← getLmdb dir;
  '(lmdbDBI, err) ← lmdb_View lmdbEnv lmdb_zeroDBI (λ txn _, lmdb_OpenDBI txn (bs "bench") 0);
  check_error "y.Check" err;;
  k ← go_make 1024;
  v ← go_make Mi;
  counts ← bench_rounds n (lmdb_round fuel lmdbEnv lmdbDBI) k v;
  lmdb_CloseDBI lmdbEnv lmdbDBI;;
  lmdb_Close lmdbEnv;;
  mret counts.

(** ** badger *)

Fixpoint iterate_badger_keys (fuel : nat) (itr : badger_Iterator) (p : progress) :
    M st progress :=
  match fuel with
  | O => raise OutOfFuel
  | S fuel =>
      valid ← badger_Valid itr;
      if valid : bool then
        item ← badger_Iterator_Item itr;
        key ← badger_Item_Key item;
        p ← copy_key key p;
        let p := count_one p in
        if enough p then mret p else
        badger_Next itr;;
        iterate_badger_keys fuel itr p
      else mret p
  end.

Definition badger_keys_round (fuel : nat) (bdb : badger_DB) (p : progress) : M st progress :=
  txn ← badger_NewTransaction bdb false;
  itr ← badger_NewIterator_with txn 256 false;
  badger_Rewind itr;;
  iterate_badger_keys fuel itr p.

Definition BenchmarkIterateBadgerOnlyKeys (dir : bytes) (fuel n : nat) :
    M st (list (Z * bytes)) :=
  '(bdb, err) ← getBadger dir;
  check_error "y.Check" err;;
  bdb ← of_option PanicNil bdb;
  k ← go_make 1024;
  counts ← bench_rounds n (badger_keys_round fuel bdb) k nilslice;
  badger_Close bdb;;
  mret counts.

Fixpoint iterate_badger_values (fuel : nat) (itr : badger_Iterator) (p : progress) :
    M st progress :=
  match fuel with
  | O => raise OutOfFuel
  | S fuel =>
      valid ← badger_Valid itr;
      if valid : bool then
        item ← badger_Iterator_Item itr;
        '(val, err) ← badger_ValueCopy item nilslice;
        check_error "y.Check" err;;
        assert_true (sl_len val =? valueSize fl);;
        key ← badger_Item_Key item;
        p ← copy_key key p;
        p ← copy_go_value val p;
        let p := count_one p in
        if enough p then mret p else
        badger_Next itr;;
        iterate_badger_values fuel itr p
      else mret p
  end.

Definition badger_values_round (fuel : nat) (bdb : badger_DB) (p : progress) : M st progress :=
  txn ← badger_NewTransaction bdb false;
  itr ← badger_NewIterator_with txn 256 true;
  badger_Rewind itr;;
  iterate_badger_values fuel itr p.

Definition BenchmarkIterateBadgerWithValues (dir : bytes) (fuel n : nat) :
    M st (list (Z * bytes)) :=
  '(bdb, err) ← getBadger dir;
  check_error "y.Check" err;;
  bdb ← of_option PanicNil bdb;
  k ← go_make 1024;
  v ← go_make Mi;
  counts ← bench_rounds n (badger_values_round fuel bdb) k v;
  badger_Close bdb;;
  mret counts.
End iterate.
