(* ===== verification/BenchIterSpec.v ===== *)
(** * What the iterations find

    The promises of the libraries about their cursors, and the theorem on the benchmarks
    of [BenchIter.v]: every round over the same contents counts the same number of
    entries and prints the same marks, in whichever store.  An instance of the laws
    follows, over [MemStores.v]. *)

From S2P Require Import Prelude Rocks MemRocks Memory Files Rdbc Rdb Strconv Store StoreSpec StoreOpen IterSpec Float64 Populate PopulateSpec PopulateMain Libraries MemStores RwBench RwSpec BadgerSpec Bench BenchReads BenchReadsSpec BenchIter Scenario.

Abbreviation entries := (list (bytes * bytes)).

Class CursorsView `{RocksDB, !Stores, !Openers, !Readers, !BadgerIterator, !Cursors} := {
  (* a slice of memory of a library, while that shows these bytes *)
  lent : World → lib_slice → bytes → Prop;
  (* a cursor of a transaction on these contents, and the entries it has not shown yet *)
  bolt_at : World → bolt_Cursor → bolt_Tx → bolt_DB → gmap bytes bytes → entries → Prop;
  lmdb_at : World → lmdb_Cursor → lmdb_Txn → lmdb_Env → gmap bytes bytes → entries → Prop;
  (* the item of an iterator before these entries *)
  badger_item_at : World → badger_Item → badger_Iterator → badger_DB → gmap bytes bytes →
    entries → Prop;
}.

(** What a cursor shows of the entries [l] before it. *)
Definition shows `{CursorsView} (w : World) (k1 v1 : lib_slice) (l : entries) : Prop :=
  match l with
  | [] => ls_nil k1 = true
  | e :: _ => ls_nil k1 = false ∧ lent w k1 e.1 ∧ lent w v1 e.2
  end.

(** The slice is in an array that was made since [σ]. *)
Definition new_since `{RocksDB} (σ : st) (s : goslice) : Prop :=
  ∀ l, sl_ptr s = PG l → gheap σ !! l = None.

Class CursorsLaws `{RocksView, !Stores, !StoresView, !Openers, !Readers, !ReadersView,
    !BadgerIterator, !BadgerView, !Cursors, !CursorsView} : Prop := {
  law_lent σ s b : lent (world σ) s b → ls_len s = blen b ∧ ls_read s σ = Ret b σ;

  law_bolt_NewCursor σ bkt db m :
    bolt_reads (world σ) (bolt_tx_of bkt) db m →
    wp (bolt_NewCursor bkt) σ (λ cur σ', lib_step σ σ' ∧
      ∃ l, bolt_at (world σ') cur (bolt_tx_of bkt) db m l);
  law_bolt_First σ cur txn db m l0 :
    bolt_at (world σ) cur txn db m l0 →
    wp (bolt_First cur) σ (λ '(k1, v1) σ', lib_step σ σ' ∧
      ∃ l, is_scan m l ∧ shows (world σ') k1 v1 l ∧ bolt_at (world σ') cur txn db m (tail l));
  law_bolt_Next σ cur txn db m l :
    bolt_at (world σ) cur txn db m l →
    wp (bolt_Next cur) σ (λ '(k1, v1) σ', lib_step σ σ' ∧
      shows (world σ') k1 v1 l ∧ bolt_at (world σ') cur txn db m (tail l));
  law_bolt_at w cur txn db m l : bolt_at w cur txn db m l → bolt_reads w txn db m;

  law_lmdb_OpenCursor σ txn env dbi m :
    lmdb_reads (world σ) txn env m → lmdb_bench env dbi →
    wp (lmdb_OpenCursor txn dbi) σ (λ '(cur, err) σ', err = None ∧ lib_step σ σ' ∧
      ∃ l, is_scan m l ∧ lmdb_at (world σ') cur txn env m l);
  law_lmdb_Cursor_Next σ cur txn env m l :
    lmdb_at (world σ) cur txn env m l →
    wp (lmdb_Cursor_Next cur) σ (λ '(k1, v1, err) σ',
      lib_step σ σ' ∧ lmdb_at (world σ') cur txn env m (tail l) ∧
      match l with
      | [] => lmdb_IsNotFound err = true
      | e :: _ => err = None ∧ lent (world σ') k1 e.1 ∧ lent (world σ') v1 e.2
      end);
  law_lmdb_Cursor_Close σ cur txn env m l :
    lmdb_at (world σ) cur txn env m l →
    wp (lmdb_Cursor_Close cur) σ (λ _ σ', lib_step σ σ' ∧ lmdb_reads (world σ') txn env m);

  law_badger_NewIterator_with σ txn db m size values :
    badger_reads (world σ) txn db m →
    wp (badger_NewIterator_with txn size values) σ (λ it σ',
      lib_step σ σ' ∧ badger_at (world σ') it db m None);
  law_badger_Iterator_Item σ it db m e l :
    badger_at (world σ) it db m (Some (e :: l)) →
    wp (badger_Iterator_Item it) σ (λ item σ',
      lib_step σ σ' ∧ badger_item_at (world σ') item it db m (e :: l));
  law_badger_Item_Key σ item it db m e l :
    badger_item_at (world σ) item it db m (e :: l) →
    wp (badger_Item_Key item) σ (λ s σ', lib_step σ σ' ∧
      badger_item_at (world σ') item it db m (e :: l) ∧ lent (world σ') s e.1);
  law_badger_Item_ValueCopy σ item it db m e l :
    badger_item_at (world σ) item it db m (e :: l) → len_ok e.2 →
    wp (badger_ValueCopy item nilslice) σ (λ '(s, err) σ', err = None ∧ lib_step σ σ' ∧
      badger_item_at (world σ') item it db m (e :: l) ∧ slice_at σ' s e.2 ∧ new_since σ s);
  law_badger_item_at w item it db m l :
    badger_item_at w item it db m l → badger_at w it db m (Some l);
  (* a database that is read keeps its contents, and can be read again *)
  law_badger_at w it db m o : badger_at w it db m o → badger_holds w db m;
}.

(** ** One entry *)

Section iterate.
Context `{CursorsLaws, Libc, Arch} `{!ReadersLaws} `{!OS, !StoresLaws, !BadgerLaws}.
Context (fl : flags) (m : gmap bytes bytes).
(** The keys and values a store can hold, the values of the size the flags say. *)
Context (Hvs : 0 ≤ valueSize fl < 2 ^ 63).
Context (Hkeys : map_Forall (λ k _, len_ok k) m).
Context (Hsized : map_Forall (λ _ v, blen v = valueSize fl) m).

Definition entry_ok (e : bytes * bytes) : Prop :=
  len_ok e.1 ∧ len_ok e.2 ∧ blen e.2 = valueSize fl.

Lemma scan_entries_ok l : is_scan m l → Forall entry_ok l.
Proof.
  intros [Hp _]. apply Forall_forall. intros [k v] Hin. rewrite Hp in Hin.
  apply elem_of_map_to_list in Hin. pose proof (Hsized _ _ Hin) as Hv. cbn beta in Hv.
  split_and!; [by eapply (Hkeys k)| |done]. unfold len_ok. cbn. lia.
Qed.

(** Where a round is that has counted [n] entries; with [vals], it has a buffer for
    values. *)
Definition counted_to (vals : bool) (σ : st) (n : Z) (p : progress) : Prop :=
  buf_at σ (pg_k p) ∧ (vals = true → buf_at σ (pg_v p)) ∧ pg_count p = n ∧ pg_out p = marks n.

Lemma counted_to_data vals σ σ' n p :
  data_step σ σ' → counted_to vals σ n p → counted_to vals σ' n p.
Proof.
  intros Hs (Hk & Hv & Hn & Ho). split_and!; [by eapply buf_at_step| |done|done].
  intros E. eapply buf_at_step; [exact Hs|by apply Hv].
Qed.

Lemma buf_at_lib σ σ' d : lib_step σ σ' → buf_at σ d → buf_at σ' d.
Proof.
  intros [_ Hg _ _] (l & n & a & -> & Hl). exists l, n, a. split; [done|by eapply lookup_weaken].
Qed.

Lemma slice_at_lib σ σ' s b : lib_step σ σ' → slice_at σ s b → slice_at σ' s b.
Proof. intros [Ec Hg _ _]. apply slice_at_grows. split; [by rewrite Ec|exact Hg]. Qed.

Lemma counted_to_lib vals n p σ σ' :
  counted_to vals σ n p → lib_step σ σ' → counted_to vals σ' n p.
Proof.
  intros (Hk & Hv & Hn & Ho) Hs. split_and!; [by eapply buf_at_lib| |done|done].
  intros E. eapply buf_at_lib; [exact Hs|by apply Hv].
Qed.

(** A slice that [lent] lends can be read whatever the program writes. *)
Lemma lent_read σ s b :
  lent (world σ) s b → ls_len s = blen b ∧
  ∀ dst σ', buf_step dst σ σ' → ls_read s σ' = Ret b σ'.
Proof.
  intros Hs. split; [by eapply law_lent|]. intros dst σ' [Hd _].
  rewrite <-(ds_world _ _ Hd) in Hs. by eapply law_lent.
Qed.

Lemma wp_copy_key vals σ n p s b (Q : progress → st → Prop) :
  counted_to vals σ n p → lent (world σ) s b → len_ok b →
  (∀ p' σ', buf_step (pg_k p) σ σ' → counted_to vals σ' n p' → pg_v p' = pg_v p → Q p' σ') →
  wp (copy_key s p) σ Q.
Proof.
  intros (Hk & Hv & Hn & Ho) Hs Hb HQ. apply lent_read in Hs as [El Hs]. apply wp_bind.
  eapply wp_safecopy_of; [exact Hk|exact El|exact Hb|by apply Hs|].
  intros k σ' Hstep Hk' _. apply wp_ret, HQ; [done| |done]. split_and!; [done| |done|done].
  intros E. eapply buf_at_step; [apply Hstep|by apply Hv].
Qed.

(** The two copies of a value. *)
Lemma wp_copy_bytes σ n p len read b (Q : progress → st → Prop) :
  counted_to true σ n p → len = blen b → len_ok b →
  (∀ σ', buf_step (pg_v p) σ σ' → read σ' = Ret b σ') →
  (∀ p' σ', world σ' = world σ → counted_to true σ' n p' → Q p' σ') →
  wp (v ← safecopy_of (pg_v p) len read; mret (Progress (pg_k p) v (pg_count p) (pg_out p))) σ Q.
Proof.
  intros (Hk & Hv & Hn & Ho) El Hb Hread HQ. apply wp_bind.
  eapply wp_safecopy_of; [by apply Hv|exact El|exact Hb|exact Hread|].
  intros v σ' [Hd _] Hv' _. apply wp_ret, HQ; [by apply (ds_world _ _ Hd)|].
  split_and!; [by eapply buf_at_step|done..].
Qed.

Lemma wp_copy_value σ n p s b (Q : progress → st → Prop) :
  counted_to true σ n p → lent (world σ) s b → len_ok b →
  (∀ p' σ', world σ' = world σ → counted_to true σ' n p' → Q p' σ') →
  wp (copy_value s p) σ Q.
Proof.
  intros Hc Hs Hb HQ. apply lent_read in Hs as [El Hs].
  eapply wp_copy_bytes; [exact Hc|exact El|exact Hb|by apply Hs|exact HQ].
Qed.

(** A key and a value of a library, copied. *)
Lemma wp_copy_entry_of {B} σ n p k1 v1 e (f : progress → M st B) (Q : B → st → Prop) :
  counted_to true σ n p → lent (world σ) k1 e.1 → lent (world σ) v1 e.2 → entry_ok e →
  (∀ p' σ', world σ' = world σ → counted_to true σ' n p' → wp (f p') σ' Q) →
  wp (assert_true (ls_len v1 =? valueSize fl);;
      p ← copy_key k1 p; p ← copy_value v1 p; f p) σ Q.
Proof.
  intros Hc Hk Hv (Hok1 & Hok2 & Hsz) HQ. apply wp_bind. unfold assert_true.
  rewrite (proj1 (lent_read _ _ _ Hv)), Hsz, Z.eqb_refl. apply wp_ret, wp_bind.
  eapply wp_copy_key; [exact Hc|exact Hk|exact Hok1|]. intros p1 σ1 [Hd _] Hc1 _.
  pose proof (ds_world _ _ Hd) as Ew. apply wp_bind.
  eapply wp_copy_value; [exact Hc1|by rewrite Ew|exact Hok2|].
  intros p2 σ2 Ew2 Hc2. apply HQ; [congruence|done].
Qed.

(** ** The count *)

(** What a round that has counted [n] entries and has [l] before it counts in all. *)
Definition total (n : Z) (l : entries) : Z := Z.min (n + blen l) (2 * Mi).

Lemma total_nil n : 0 ≤ n < 2 * Mi → total n [] = n.
Proof. unfold total, blen. simpl. lia. Qed.

Lemma total_cons n e l : total n (e :: l) = total (n + 1) l.
Proof. unfold total, blen. simpl length. f_equal. lia. Qed.

Lemma total_enough n l : 2 * Mi ≤ n → total n l = 2 * Mi.
Proof. unfold total. pose proof (blen_nonneg l). lia. Qed.

(** One more entry: the end of a pass. *)
Lemma wp_count_one {B} vals σ n p e l (stop go : M st B) (Q : B → st → Prop) :
  counted_to vals σ n p → 0 ≤ n < 2 * Mi →
  (counted_to vals σ (total n (e :: l)) (count_one p) → wp stop σ Q) →
  (counted_to vals σ (n + 1) (count_one p) → n + 1 < 2 * Mi → wp go σ Q) →
  wp (if enough (count_one p) then stop else go) σ Q.
Proof.
  intros (Hk & Hv & Hn & Ho) Hb Hstop Hgo.
  assert (wrap_s 64 (n + 1) = n + 1) as Ew.
  { unfold wrap_s, Mi in *. change (64 - 1) with 63. rewrite Z.mod_small; lia. }
  assert (counted_to vals σ (n + 1) (count_one p)) as Hc.
  { unfold count_one. rewrite Hn, Ho, Ew. split_and!; [done|done|done|].
    symmetry. apply marks_next. lia. }
  unfold enough. assert (pg_count (count_one p) = n + 1) as -> by apply Hc.
  destruct (Z.leb_spec (2 * Mi) (n + 1)) as [Hle|Hlt].
  - apply Hstop. rewrite total_cons, total_enough by lia.
    by replace (2 * Mi) with (n + 1) by lia.
  - by apply Hgo.
Qed.

(** ** The loops *)

Lemma wp_iterate_bolt fuel σ cur txn db l k1 v1 p n (Q : progress → st → Prop) :
  bolt_at (world σ) cur txn db m (tail l) → shows (world σ) k1 v1 l → counted_to true σ n p →
  Forall entry_ok l → (length l < fuel)%nat → 0 ≤ n < 2 * Mi →
  (∀ p' σ', bolt_reads (world σ') txn db m → counted_to true σ' (total n l) p' → Q p' σ') →
  wp (iterate_bolt fl fuel cur k1 v1 p) σ Q.
Proof.
  revert σ l k1 v1 p n. induction fuel as [|fuel IH];
    intros σ l k1 v1 p n Hat Hsh Hc Hl Hf Hn HQ; [lia|]. cbn [iterate_bolt].
  destruct l as [|e l].
  { rewrite Hsh. apply wp_ret, HQ; [by eapply law_bolt_at|]. by rewrite total_nil. }
  destruct Hsh as (-> & Hk & Hv). apply Forall_cons in Hl as [He Hl].
  eapply wp_copy_entry_of; [exact Hc|exact Hk|exact Hv|exact He|]. intros p1 σ1 Ew Hc1.
  eapply (wp_count_one true σ1 n p1 e l); [exact Hc1|exact Hn| |].
  { intros Hc'. apply wp_ret, HQ; [|done]. rewrite Ew. by eapply law_bolt_at. }
  intros Hc2 Hlt. cbn [tail] in Hat. rewrite <-Ew in Hat. apply wp_bind.
  eapply wp_mono; [by apply law_bolt_Next|]. intros [k2 v2] σ2 (Hs2 & Hsh2 & Hat2).
  eapply counted_to_lib in Hc2; [|exact Hs2].
  eapply (IH σ2 l); [done..|simpl in Hf; lia|lia|]. rewrite <-(total_cons n e). exact HQ.
Qed.

Lemma wp_iterate_lmdb fuel σ cur txn env l p n (Q : progress * option lib_error → st → Prop) :
  lmdb_at (world σ) cur txn env m l → counted_to true σ n p →
  Forall entry_ok l → (length l < fuel)%nat → 0 ≤ n < 2 * Mi →
  (∀ p' l' σ', lmdb_at (world σ') cur txn env m l' → counted_to true σ' (total n l) p' →
     Q (p', None) σ') →
  wp (iterate_lmdb fl fuel cur p) σ Q.
Proof.
  revert σ l p n. induction fuel as [|fuel IH]; intros σ l p n Hat Hc Hl Hf Hn HQ; [lia|].
  cbn [iterate_lmdb]. apply wp_bind. eapply wp_mono; [by apply law_lmdb_Cursor_Next|].
  intros [[k1 v1] err] σ1 (Hs1 & Hat1 & Hres). eapply counted_to_lib in Hc; [|exact Hs1].
  destruct l as [|e l].
  { rewrite Hres. apply wp_ret. eapply HQ; [exact Hat1|]. by rewrite total_nil. }
  destruct Hres as (-> & Hk & Hv). rewrite law_lmdb_IsNotFound.
  apply Forall_cons in Hl as [He Hl].
  eapply wp_copy_entry_of; [exact Hc|exact Hk|exact Hv|exact He|]. intros p2 σ2 Ew Hc2.
  cbn [tail] in Hat1. rewrite <-Ew in Hat1.
  eapply (wp_count_one true σ2 n p2 e l); [exact Hc2|exact Hn| |].
  { intros Hc'. apply wp_ret. by eapply HQ. }
  intros Hc3 Hlt. eapply (IH σ2 l); [done..|simpl in Hf; lia|lia|].
  rewrite <-(total_cons n e). exact HQ.
Qed.

Lemma wp_iterate_badger_keys vals fuel σ itr db l p n (Q : progress → st → Prop) :
  badger_at (world σ) itr db m (Some l) → counted_to vals σ n p →
  Forall entry_ok l → (length l < fuel)%nat → 0 ≤ n < 2 * Mi →
  (∀ p' σ', badger_holds (world σ') db m → counted_to vals σ' (total n l) p' → Q p' σ') →
  wp (iterate_badger_keys fuel itr p) σ Q.
Proof.
  revert σ l p n. induction fuel as [|fuel IH]; intros σ l p n Hat Hc Hl Hf Hn HQ; [lia|].
  cbn [iterate_badger_keys]. apply wp_bind. eapply wp_mono; [by apply law_badger_Valid|].
  intros v σ1 (-> & Hs1 & Hat1). eapply counted_to_lib in Hc; [|exact Hs1].
  destruct l as [|e l].
  { rewrite bool_decide_eq_false_2 by (intros E; by apply E). apply wp_ret, HQ.
    - by eapply law_badger_at.
    - by rewrite total_nil. }
  rewrite bool_decide_eq_true_2 by done. apply Forall_cons in Hl as [(Hok & _ & _) Hl].
  apply wp_bind. eapply wp_mono; [by apply law_badger_Iterator_Item|].
  intros item σ2 (Hs2 & Hit2). eapply counted_to_lib in Hc; [|exact Hs2].
  apply wp_bind. eapply wp_mono; [by eapply law_badger_Item_Key|].
  intros k σ3 (Hs3 & Hit3 & Hk). eapply counted_to_lib in Hc; [|exact Hs3].
  apply wp_bind. eapply wp_copy_key; [exact Hc|exact Hk|exact Hok|]. intros p4 σ4 [Hd4 _] Hc4 _.
  apply law_badger_item_at in Hit3. rewrite <-(ds_world _ _ Hd4) in Hit3.
  eapply (wp_count_one vals σ4 n p4 e l); [exact Hc4|exact Hn| |].
  { intros Hc'. apply wp_ret, HQ; [|done]. by eapply law_badger_at. }
  intros Hc5 Hlt. apply wp_bind. eapply wp_mono; [by eapply law_badger_Next|].
  intros [] σ5 (Hs5 & Hat5). eapply counted_to_lib in Hc5; [|exact Hs5].
  eapply (IH σ5 l); [done..|simpl in Hf; lia|lia|]. rewrite <-(total_cons n e). exact HQ.
Qed.

Lemma wp_iterate_badger_values fuel σ itr db l p n (Q : progress → st → Prop) :
  badger_at (world σ) itr db m (Some l) → counted_to true σ n p →
  Forall entry_ok l → (length l < fuel)%nat → 0 ≤ n < 2 * Mi →
  (∀ p' σ', badger_holds (world σ') db m → counted_to true σ' (total n l) p' → Q p' σ') →
  wp (iterate_badger_values fl fuel itr p) σ Q.
Proof.
  revert σ l p n. induction fuel as [|fuel IH]; intros σ l p n Hat Hc Hl Hf Hn HQ; [lia|].
  cbn [iterate_badger_values]. apply wp_bind. eapply wp_mono; [by apply law_badger_Valid|].
  intros v σ1 (-> & Hs1 & Hat1). eapply counted_to_lib in Hc; [|exact Hs1].
  destruct l as [|e l].
  { rewrite bool_decide_eq_false_2 by (intros E; by apply E). apply wp_ret, HQ.
    - by eapply law_badger_at.
    - by rewrite total_nil. }
  rewrite bool_decide_eq_true_2 by done. apply Forall_cons in Hl as [(Hok1 & Hok2 & Hsz) Hl].
  apply wp_bind. eapply wp_mono; [by apply law_badger_Iterator_Item|].
  intros item σ2 (Hs2 & Hit2). eapply counted_to_lib in Hc; [|exact Hs2].
  apply wp_bind. eapply wp_mono; [by eapply law_badger_Item_ValueCopy|].
  intros [s err] σ3 (-> & Hs3 & Hit3 & Hv3 & Hnew). apply wp_bind, wp_ret, wp_bind.
  unfold assert_true. rewrite (proj1 Hv3), Hsz, Z.eqb_refl. apply wp_ret.
  assert (∀ d, buf_at σ2 d → sl_ptr s ≠ sl_ptr d) as Hne.
  { intros d (ld & nd & a & -> & Hld) E. specialize (Hnew _ E). congruence. }
  pose proof (Hne _ (proj1 Hc)) as Hnek. pose proof (Hne _ (proj1 (proj2 Hc) eq_refl)) as Hnev.
  eapply counted_to_lib in Hc; [|exact Hs3].
  apply wp_bind. eapply wp_mono; [by eapply law_badger_Item_Key|].
  intros k σ4 (Hs4 & Hit4 & Hk). eapply counted_to_lib in Hc; [|exact Hs4].
  eapply slice_at_lib in Hv3; [|exact Hs4].
  apply wp_bind. eapply wp_copy_key; [exact Hc|exact Hk|exact Hok1|]. intros p5 σ5 Hd5 Hc5 Ev5.
  eapply slice_at_buf_step in Hv3; [|exact Hd5|exact Hnek]. destruct Hd5 as [Hd5 _].
  apply law_badger_item_at in Hit4. rewrite <-(ds_world _ _ Hd5) in Hit4.
  apply wp_bind. eapply (wp_copy_bytes σ5 n p5); [exact Hc5|apply Hv3|exact Hok2| |].
  { intros σ6 Hs6. apply sl_read_at. eapply slice_at_buf_step; [exact Hs6|exact Hv3|by rewrite Ev5]. }
  intros p6 σ6 Ew6 Hc6. rewrite <-Ew6 in Hit4.
  eapply (wp_count_one true σ6 n p6 e l); [exact Hc6|exact Hn| |].
  { intros Hc'. apply wp_ret, HQ; [|done]. by eapply law_badger_at. }
  intros Hc7 Hlt. apply wp_bind. eapply wp_mono; [by eapply law_badger_Next|].
  intros [] σ7 (Hs7 & Hat7). eapply counted_to_lib in Hc7; [|exact Hs7].
  eapply (IH σ7 l); [done..|simpl in Hf; lia|lia|]. rewrite <-(total_cons n e). exact HQ.
Qed.

(** ** The rounds *)

(** What a round counts and prints. *)
Definition all : Z := Z.min (Z.of_nat (size m)) (2 * Mi).

Lemma total_all l : is_scan m l → total 0 l = all.
Proof. intros Hl. unfold total, all. by rewrite (is_scan_length _ _ Hl). Qed.

Lemma start_ok : 0 ≤ 0 < 2 * Mi.
Proof. unfold Mi. lia. Qed.

Lemma scan_fuel l fuel : is_scan m l → (size m < fuel)%nat → (length l < fuel)%nat.
Proof. intros Hl%is_scan_length. unfold blen in Hl. lia. Qed.

Lemma wp_rounds vals (inv : World → Prop) n round k v σ (Q : list (Z * bytes) → st → Prop) :
  (∀ σ p, inv (world σ) → counted_to vals σ 0 p →
     wp (round p) σ (λ p' σ', inv (world σ') ∧ counted_to vals σ' all p')) →
  inv (world σ) → buf_at σ k → (vals = true → buf_at σ v) →
  (∀ σ', inv (world σ') → Q (replicate n (all, marks all)) σ') →
  wp (bench_rounds n round k v) σ Q.
Proof.
  intros Hround. revert k v σ Q. induction n as [|n IH]; intros k v σ Q Hi Hk Hv HQ.
  { by apply wp_ret, HQ. }
  cbn [bench_rounds]. apply wp_bind. eapply wp_mono; [apply Hround; [exact Hi|by split_and!]|].
  intros p σ1 (Hi1 & Hk1 & Hv1 & -> & ->). apply wp_bind, IH; [done..|].
  intros σ2 Hi2. by apply wp_ret, HQ.
Qed.

Context (fuel : nat) (Hfuel : (size m < fuel)%nat).

Lemma wp_bolt_round db σ p :
  bolt_holds (world σ) db m → counted_to true σ 0 p →
  wp (bolt_round fl fuel db p) σ (λ p' σ', bolt_holds (world σ') db m ∧ counted_to true σ' all p').
Proof.
  intros Hm Hc. unfold bolt_round. apply wp_bind. eapply wp_mono.
  { apply (law_bolt_View db m _ p _ σ (λ p σ', counted_to true σ' all p));
      [intros p' σ1 σ2; apply counted_to_lib|exact Hm|]. intros txn σ1 Hs1 Hr1.
    apply wp_bind. eapply wp_mono; [by apply law_bolt_Bucket|].
    intros b σ2 (Hs2 & Hr2 & bkt & -> & <-). apply wp_bind, wp_ret, wp_bind.
    eapply wp_mono; [by apply law_bolt_NewCursor|]. intros cur σ3 (Hs3 & l0 & Hat3).
    apply wp_bind. eapply wp_mono; [by eapply law_bolt_First|].
    intros [k1 v1] σ4 (Hs4 & l & Hl & Hsh & Hat4). apply wp_bind.
    assert (lib_step σ σ4) as Hs by (etrans; [exact Hs1|]; etrans; [exact Hs2|]; by etrans).
    eapply (wp_iterate_bolt fuel σ4 _ _ _ l); [exact Hat4|exact Hsh|by eapply counted_to_lib
      |by apply scan_entries_ok|by apply scan_fuel|apply start_ok|].
    intros p' σ5 Hr5 Hc5. apply wp_ret. rewrite total_all in Hc5 by done. by split_and!. }
  intros [p' err] σ1 (-> & Hm1 & Hc1). by apply wp_bind, wp_ret, wp_ret.
Qed.

Lemma wp_lmdb_round env dbi σ p :
  lmdb_open (world σ) env m → lmdb_bench env dbi → counted_to true σ 0 p →
  wp (lmdb_round fl fuel env dbi p) σ (λ p' σ',
    lmdb_open (world σ') env m ∧ counted_to true σ' all p').
Proof.
  intros Hm Hdbi Hc. unfold lmdb_round. apply wp_bind. eapply wp_mono.
  { apply (law_lmdb_View env m _ p _ σ (λ p σ', counted_to true σ' all p));
      [intros p' σ1 σ2; apply counted_to_lib|exact Hm|]. intros txn σ1 Hs1 Hr1.
    apply wp_bind. eapply wp_mono; [by eapply law_lmdb_RawRead|]. intros [] σ2 [Hs2 Hr2].
    apply wp_bind. eapply wp_mono; [by eapply law_lmdb_OpenCursor|].
    intros [cur err] σ3 (-> & Hs3 & l & Hl & Hat3). apply wp_bind.
    assert (lib_step σ σ3) as Hs by (etrans; [exact Hs1|]; by etrans).
    eapply (wp_iterate_lmdb fuel σ3 _ _ _ l); [exact Hat3|by eapply counted_to_lib
      |by apply scan_entries_ok|by apply scan_fuel|apply start_ok|].
    intros p' l' σ4 Hat4 Hc4. rewrite total_all in Hc4 by done. apply wp_bind.
    eapply wp_mono; [by eapply law_lmdb_Cursor_Close|]. intros [] σ5 [Hs5 Hr5]. apply wp_ret.
    split_and!; [done|done|by eapply counted_to_lib]. }
  intros [p' err] σ1 (-> & Hm1 & Hc1). by apply wp_bind, wp_ret, wp_ret.
Qed.

(** A round of badger, up to its loop. *)
Lemma wp_badger_iterator {B} values σ db (f : badger_Iterator → M st B) (Q : B → st → Prop) :
  badger_holds (world σ) db m →
  (∀ itr l σ', lib_step σ σ' → is_scan m l → badger_at (world σ') itr db m (Some l) →
     wp (f itr) σ' Q) →
  wp (txn ← badger_NewTransaction db false; itr ← badger_NewIterator_with txn 256 values;
      badger_Rewind itr;; f itr) σ Q.
Proof.
  intros Hm HQ. apply wp_bind. eapply wp_mono; [by apply law_badger_reader|].
  intros txn σ1 [Hs1 Hr1]. apply wp_bind. eapply wp_mono; [by apply law_badger_NewIterator_with|].
  intros itr σ2 [Hs2 Hat2]. apply wp_bind. eapply wp_mono; [by eapply law_badger_Rewind|].
  intros [] σ3 (Hs3 & l & Hl & Hat3). eapply HQ; [|exact Hl|exact Hat3].
  etrans; [exact Hs1|]. by etrans.
Qed.

Lemma wp_badger_keys_round vals db σ p :
  badger_holds (world σ) db m → counted_to vals σ 0 p →
  wp (badger_keys_round fuel db p) σ (λ p' σ',
    badger_holds (world σ') db m ∧ counted_to vals σ' all p').
Proof.
  intros Hm Hc. eapply wp_badger_iterator; [exact Hm|]. intros itr l σ1 Hs1 Hl Hat.
  eapply (wp_iterate_badger_keys vals fuel σ1 itr db l); [exact Hat|by eapply counted_to_lib
    |by apply scan_entries_ok|by apply scan_fuel|apply start_ok|].
  intros p' σ2 Hm2 Hc2. by rewrite total_all in Hc2.
Qed.

Lemma wp_badger_values_round db σ p :
  badger_holds (world σ) db m → counted_to true σ 0 p →
  wp (badger_values_round fl fuel db p) σ (λ p' σ',
    badger_holds (world σ') db m ∧ counted_to true σ' all p').
Proof.
  intros Hm Hc. eapply wp_badger_iterator; [exact Hm|]. intros itr l σ1 Hs1 Hl Hat.
  eapply (wp_iterate_badger_values fuel σ1 itr db l); [exact Hat|by eapply counted_to_lib
    |by apply scan_entries_ok|by apply scan_fuel|apply start_ok|].
  intros p' σ2 Hm2 Hc2. by rewrite total_all in Hc2.
Qed.

(** ** The benchmarks *)

Context (dir : bytes) (n : nat).

(** The two buffers. *)
Lemma wp_buffers {B} σ (f : goslice → goslice → M st B) (Q : B → st → Prop) :
  (∀ k v σ', world σ' = world σ → buf_at σ' k → buf_at σ' v → wp (f k v) σ' Q) →
  wp (k ← go_make 1024; v ← go_make Mi; f k v) σ Q.
Proof.
  intros HQ. apply wp_bind, wp_go_make; [done|]. intros k σ1 Hk Hs1.
  apply wp_bind, wp_go_make; [done|]. intros v σ2 Hv Hs2.
  apply HQ; [by rewrite (ds_world _ _ Hs2), (ds_world _ _ Hs1)|by eapply buf_at_step|done].
Qed.

Abbreviation expected := (replicate n (all, marks all)).

Lemma wp_iterate_bolt_bench σ :
  bolt_stored (world σ) (dir ++ bs "/bolt/bolt.db") m →
  wp (BenchmarkIterateBolt fl dir fuel n) σ (λ counts _, counts = expected).
Proof.
  intros Hst. unfold BenchmarkIterateBolt, getBoltDB. apply wp_bind, wp_bind.
  eapply wp_mono; [by apply law_bolt_Open_ReadOnly|].
  intros [r err] σ1 (-> & _ & db & -> & Hm). apply wp_bind, wp_ret, wp_ret, wp_bind, wp_ret.
  apply wp_buffers. intros k v σ2 Ew Hk Hv. rewrite <-Ew in Hm. apply wp_bind.
  eapply (wp_rounds true (λ w, bolt_holds w db m)); [by apply wp_bolt_round|exact Hm|exact Hk|done|].
  intros σ3 Hm3. apply wp_bind. eapply wp_mono; [by eapply law_bolt_Close|].
  intros ? ? _. by apply wp_ret.
Qed.

Lemma wp_iterate_lmdb_bench σ :
  lmdb_stored (world σ) (dir ++ bs "/lmdb") m →
  wp (BenchmarkIterateLmdb fl dir fuel n) σ (λ counts _, counts = expected).
Proof.
  intros Hst. unfold BenchmarkIterateLmdb. apply wp_bind. eapply wp_getLmdb; [exact Hst|].
  intros env σ1 Ho. apply wp_bind. eapply wp_lmdb_bench_dbi; [exact Ho|].
  intros dbi σ2 Ho2 Hdbi.
  apply wp_bind, wp_ret.
  apply wp_buffers. intros k v σ3 Ew Hk Hv. rewrite <-Ew in Ho2. apply wp_bind.
  eapply (wp_rounds true (λ w, lmdb_open w env m)); [by intros; apply wp_lmdb_round|done..|].
  intros σ4 Ho4. apply wp_bind. eapply wp_mono; [by eapply law_lmdb_CloseDBI|].
  intros [] σ5 [_ Ho5]. apply wp_bind. eapply wp_mono; [by eapply law_lmdb_Close|].
  intros ? ? _. by apply wp_ret.
Qed.

Lemma wp_getBadger σ (Q : option badger_DB * error → st → Prop) :
  badger_stored (world σ) (dir ++ bs "/badger") m →
  (∀ db σ', badger_holds (world σ') db m → Q (Some db, None) σ') → wp (getBadger dir) σ Q.
Proof.
  intros Hst HQ. eapply wp_mono; [by apply law_badger_Open_ReadOnly|].
  intros [r err] σ1 (-> & _ & db & -> & Hm). by apply HQ.
Qed.

Lemma wp_iterate_badger_keys_bench σ :
  badger_stored (world σ) (dir ++ bs "/badger") m →
  wp (BenchmarkIterateBadgerOnlyKeys dir fuel n) σ (λ counts _, counts = expected).
Proof.
  intros Hst. apply wp_bind, wp_getBadger; [exact Hst|]. intros db σ1 Hm.
  apply wp_bind, wp_ret, wp_bind, wp_ret, wp_bind, wp_go_make; [done|].
  intros k σ2 Hk Hs2. rewrite <-(ds_world _ _ Hs2) in Hm. apply wp_bind.
  eapply (wp_rounds false (λ w, badger_holds w db m)); [by apply wp_badger_keys_round|done..|].
  intros σ3 Hm3. apply wp_bind. eapply wp_mono; [by eapply law_badger_Close_ReadOnly|].
  intros ? ? _. by apply wp_ret.
Qed.

Lemma wp_iterate_badger_values_bench σ :
  badger_stored (world σ) (dir ++ bs "/badger") m →
  wp (BenchmarkIterateBadgerWithValues fl dir fuel n) σ (λ counts _, counts = expected).
Proof.
  intros Hst. apply wp_bind, wp_getBadger; [exact Hst|]. intros db σ1 Hm.
  apply wp_bind, wp_ret, wp_bind, wp_ret.
  apply wp_buffers. intros k v σ2 Ew Hk Hv. rewrite <-Ew in Hm. apply wp_bind.
  eapply (wp_rounds true (λ w, badger_holds w db m)); [by apply wp_badger_values_round|done..|].
  intros σ3 Hm3. apply wp_bind. eapply wp_mono; [by eapply law_badger_Close_ReadOnly|].
  intros ? ? _. by apply wp_ret.
Qed.

(** ** The five stores *)

(** The iteration over one of the libraries, and what the contents [m] in the directory
    are to it. *)
Variant library_iteration : M st (list (Z * bytes)) → (World → Prop) → Prop :=
| iterates_bolt :
    library_iteration (BenchmarkIterateBolt fl dir fuel n)
      (λ w, bolt_stored w (dir ++ bs "/bolt/bolt.db") m)
| iterates_lmdb :
    library_iteration (BenchmarkIterateLmdb fl dir fuel n)
      (λ w, lmdb_stored w (dir ++ bs "/lmdb") m)
| iterates_badger_keys :
    library_iteration (BenchmarkIterateBadgerOnlyKeys dir fuel n)
      (λ w, badger_stored w (dir ++ bs "/badger") m)
| iterates_badger_values :
    library_iteration (BenchmarkIterateBadgerWithValues fl dir fuel n)
      (λ w, badger_stored w (dir ++ bs "/badger") m).

Lemma wp_library_iteration run stored σ :
  library_iteration run stored → stored (world σ) → wp run σ (λ counts _, counts = expected).
Proof.
  destruct 1; intros Hst; [by apply wp_iterate_bolt_bench|by apply wp_iterate_lmdb_bench
    |by apply wp_iterate_badger_keys_bench|by apply wp_iterate_badger_values_bench].
Qed.

(** C10: the iterations over the stores, given the same contents, with values of the size
    of [-valsz]: each of the [b.N] rounds of bolt, of lmdb and of badger, with values or
    without, ends, counts what a round of rocks counts, and prints the same marks: the
    count is the number of entries, or two million if there are more.  The buffers
    grow to what the entries need, and no slice is read after its cursor has moved on.
    One pass for each entry and one more are enough fuel. *)
Theorem iterations_agree `{!RocksLaws} {rw} run stored σ σr s h sp a k v :
  library_iteration run stored → stored (world σ) →
  store_open rw σr s h sp a → kv_live a = m → buf_at σr k → buf_at σr v →
  wp run σ (λ counts _, wp (iterate_rocks fuel s k v) σr (λ '(count, out) _,
    counts = replicate n (count, out) ∧
    count = Z.min (Z.of_nat (size m)) (2 * Mi) ∧ out = marks count)).
Proof.
  intros Hrun Hst Hr Ha Hk Hv. eapply wp_mono; [by eapply wp_library_iteration|]. intros counts _ ->.
  eapply wp_mono.
  { apply (iterate_rocks_counts (rw := rw) fuel σr s h sp a k v); [done..| |]; by rewrite Ha. }
  intros [count out] σ' (-> & -> & _). rewrite Ha. done.
Qed.
End iterate.

(** ** In memory *)

(** The next entry of a cursor, if there is one. *)
Definition c_next (it : handle) : M st (option (bytes * bytes)) :=
  e ← gets (λ σ, head (default [] (m_remaining (world σ) it)));
  b_move (λ i, S (mi_pos i)) it;;
  mret e.

Definition c_show (it : handle) : M st (option bytes * option bytes) :=
  e ← c_next it; mret (fst <$> e, snd <$> e).

#[export] Instance mem_cursors :
    Cursors (H1 := mem_stores) (H3 := mem_readers) (H4 := mem_badger_iterator) := {|
  lib_slice := option bytes;
  ls_nil := λ s, bool_decide (s = None);
  ls_len := from_option blen 0;
  ls_read := λ s, mret (default [] s);
  bolt_Cursor := handle;
  bolt_NewCursor := b_iterator;
  bolt_First := λ it, b_move (λ _, O) it;; c_show it;
  bolt_Next := c_show;
  lmdb_Cursor := handle;
  lmdb_OpenCursor := λ t _, it ← b_iterator t; mret (it, None);
  lmdb_Cursor_Next := λ it, e ← c_next it;
    mret (fst <$> e, snd <$> e, match e with Some _ => None | None => Some not_found end);
  lmdb_Cursor_Close := λ _, mret tt;
  badger_NewIterator_with := λ t _ _, b_iterator t;
  badger_Iterator_Item := λ it, gets (λ σ, m_entry it (world σ));
  badger_Item_Key := λ item, mret (Some item.1);
|}.

(** A cursor of the transaction [t], before the entries [l]. *)
Definition c_at (w : mworld) (it t db : handle) (m : gmap bytes bytes) (l : entries) : Prop :=
  t_reads w t db m ∧ b_at w it m (Some l).

#[export] Instance mem_cursors_view : CursorsView := {|
  lent := λ _ s b, s = Some b;
  bolt_at := c_at;
  lmdb_at := c_at;
  badger_item_at := λ w item it db m l,
    (t_holds w db.2 m ∧ b_at w it m (Some l)) ∧ head l = Some item;
|}.

Lemma b_at_head (w : mworld) it m l :
  b_at w it m (Some l) → default [] (m_remaining w it) = l.
Proof. intros (i & Hi & Hm & ->). unfold m_remaining. rewrite Hi. cbn. by rewrite Hm. Qed.

Lemma wp_c_next σ it t db m l (Q : option (bytes * bytes) → st → Prop) :
  c_at (world σ) it t db m l →
  (∀ σ', lib_step σ σ' → c_at (world σ') it t db m (tail l) → Q (head l) σ') →
  wp (c_next it) σ Q.
Proof.
  intros [Hr Hat] HQ. apply wp_bind, wp_gets. rewrite (b_at_head _ _ _ _ Hat).
  unfold wp. cbn. apply HQ; [by split|]. split; [exact Hr|]. by apply b_at_next.
Qed.

Lemma wp_b_iterator σ t db m (Q : handle → st → Prop) :
  t_reads (world σ) t db m →
  (∀ it σ', lib_step σ σ' → c_at (world σ') it t db m (scan m) → Q it σ') →
  wp (b_iterator t) σ Q.
Proof.
  intros Hr HQ. apply wp_bind, wp_gets. unfold wp. cbn. apply HQ; [by split|].
  split; [exact Hr|]. destruct Hr as [[us Ht] Hm]. rewrite Ht. cbn. unfold t_holds in Hm.
  rewrite Hm. eexists. split; [apply lookup_insert_eq|done].
Qed.

Lemma b_at_rewind (w : mworld) it m o :
  b_at w it m o → b_at (m_iter_move (λ _, O) it w) it m (Some (scan m)).
Proof. intros (i & Hi & Hm & _). eexists. cbn. rewrite lookup_alter_eq, Hi. by split_and!. Qed.

#[export] Instance mem_cursors_laws : CursorsLaws.
Proof.
  split; cbn; try done.
  - by intros σ s b ->.
  - intros σ t db m Hr. eapply wp_b_iterator; [exact Hr|]. intros it σ' Hs Hat.
    split; [exact Hs|]. by eexists.
  - intros σ it t db m l [Hr Hat]. unfold c_show. apply wp_bind. unfold wp at 1. cbn.
    apply wp_bind. eapply wp_c_next.
    { split; [exact Hr|]. by eapply b_at_rewind. }
    intros σ' Hs Hat'. apply wp_ret. split; [etrans; [|exact Hs]; by split|]. exists (scan m).
    split; [apply scan_is_scan|]. split; [|done]. unfold shows. by destruct (scan m).
  - intros σ it t db m l Hat. apply wp_bind. eapply wp_c_next; [exact Hat|]. intros σ' Hs Hat'.
    apply wp_ret. split; [done|]. split; [|done]. unfold shows. by destruct l.
  - by intros w it t db m l [? _].
  - intros σ t env dbi m Hr _. apply wp_bind. eapply wp_b_iterator; [exact Hr|].
    intros it σ' Hs Hat. apply wp_ret. split; [done|]. split; [done|]. exists (scan m).
    split; [apply scan_is_scan|done].
  - intros σ it t env m l Hat. apply wp_bind. eapply wp_c_next; [exact Hat|]. intros σ' Hs Hat'.
    apply wp_ret. split; [done|]. split; [done|]. destruct l; [|done]. by apply bool_decide_eq_true.
  - intros σ it t env m l [Hr _]. apply wp_ret. by split.
  - intros σ t db m size values Hr. eapply wp_b_iterator; [exact Hr|].
    intros it σ' Hs [[_ Hm] Hat]. split; [done|]. split; [done|].
    destruct Hat as (i & Hi & Hmi & _). by exists i.
  - intros σ it db m e l [Hm Hat]. unfold wp. cbn. split; [done|]. split; [done|].
    unfold m_entry. by rewrite (b_at_head _ _ _ _ Hat).
  - intros σ item it db m e l [Hat E]. apply wp_ret. split; [done|]. split; [done|].
    by simplify_eq/=.
  - intros σ item it db m e l [Hat E] Hok. simplify_eq/=. apply wp_bind. unfold go_bytes.
    apply wp_bind, wp_go_new. intros l' Hl'. apply wp_ret, wp_ret. split; [done|].
    split; [split; [done|by apply insert_subseteq|apply stable_refl|done]|].
    split; [done|]. split.
    + split_and!; [done|done|]. intros _. exists item.2. split; [|by rewrite firstn_all].
      left. apply lookup_insert_eq.
    + intros l2 [= <-]. exact Hl'.
  - by intros w item it db m l [? _].
  - by intros w it db m o [? _].
Qed.

(** ** Two rounds over a store with one key *)

#[local] Existing Instance amd64.

Definition sigma_rocks : st :=
  on_gheap (λ g, list_to_map [(21%positive, GBytes (bs "k")); (22%positive, GBytes [])] ∪ g)
    (sigma_db one_key).

Lemma iterations_agree_witness :
  wp (BenchmarkIterateBolt demo_flags (bs "data") 3 2) sigma_stored (λ counts _,
    wp (iterate_rocks 3 (PG 4) (Sl (PG 21) 1 1) (Sl (PG 22) 0 0)) sigma_rocks (λ r _,
      counts = [r; r] ∧ r = (1, []))).
Proof.
  assert (map_Forall (λ _ v, blen v = valueSize demo_flags) one_key) as Hsz
    by by apply map_Forall_singleton.
  eapply wp_mono.
  - apply (iterations_agree demo_flags one_key) with (dir := bs "data") (n := 2%nat)
      (stored := λ w, kv_stored w one_key) (h := 1%positive) (sp := []) (rw := true)
      (a := KV one_key None []) (σr := sigma_rocks) (fuel := 3%nat)
      (s := PG 4) (k := Sl (PG 21) 1 1) (v := Sl (PG 22) 0 0).
    + change (0 ≤ 4 < 2 ^ 63). lia.
    + by apply map_Forall_singleton.
    + done.
    + apply (bool_decide_unpack _). by vm_compute.
    + apply _.
    + constructor.
    + apply lookup_insert_eq.
    + split; [done|done|done| |].
      * split; [|done|done]. by apply map_Forall_singleton.
      * exists (mkStore (PG 1) Nil Nil (PG 2) (PG 3)), new_ReadOptions, new_WriteOptions.
        split; [done|by eexists|by eexists|by eexists|done|constructor].
    + done.
    + by exists 21%positive, 1, (bs "k").
    + by exists 22%positive, 0, [].
  - cbn beta. intros counts σ' Hr. eapply wp_mono; [exact Hr|]. cbn beta.
    assert (Z.min (Z.of_nat (size one_key)) (2 * Mi) = 1) as -> by (vm_compute; reflexivity).
    assert (marks 1 = []) as Em by (vm_compute; reflexivity).
    intros [count out] σ2 (-> & -> & ->). rewrite Em. split; reflexivity.
Defined.
